(* ===== verification/_CoqProject ===== *)
-Q . S2P
Prelude.v
Smb2.v
Utf.v
Requests.v
LockRanges.v
Ofd.v
Access.v
ShareMode.v
Sessions.v
CreateCtx.v
Durable.v
Wildcard.v
CopyChunk.v
Vfs.v
Norm.v
Smb3.v
Frames.v
Dispatch.v
Spnego.v
Negotiate.v
Ntlm.v
Config.v
SessionSetup.v
Async.v
LockWait.v
Teardown.v
Trees.v
Kernel.v
Streams.v
Srvsvc.v
Aapl.v
Io.v
CreateFile.v
Dir.v
Query.v
Writer.v
Worker.v
Serve.v
Watch.v
Kqueue.v
Command.v
Discovery.v
AeadCache.v
ConnEnd.v
Platform.v
