(* ===== verification/Prelude.v ===== *)
(** * gosamba: a verification library for an SMB2/SMB3 file server

    gosamba serves directories over SMB 2 and 3.  A connection
    ([internal/parent/conn.go], [ServeConn]) reads NBSS frames, decrypts them,
    walks the chain of messages in each and hands every message to the
    dispatcher ([dispatch.go]), whose handlers act on state that all connections
    share: the byte-range locks, the share modes, the durable handles and the
    index of sessions.  The responses of a chain go back as one compounded frame.

    ** The files, and the code they model

    - this file: bytes, Go's slicing and [encoding/binary], the result of a Go
      function ([Ok], [Err], or [Panic] for an index out of range), and the
      tactics for byte layouts.
    - [Smb2]: [internal/smb2/status.go], [command.go] ([Module Const]) and
      [header.go] ([Module Header]).
    - [Utf]: the UTF-8 and UTF-16 of Go's library, and the file-name codecs of
      [smb2/tree.go], [dispatch.go] and [ntlm/messages.go] ([Module Names]).
    - [Requests]: the fixed-layout messages of [internal/smb2], a Module per
      file; [CreateCtx]: the CREATE messages and the create-context chain, with
      what [durable.go] and [timewarp.go] read out of it.
    - [LockRanges]: [lock_ranges.go], [lock_darwin.go] and the requests of [lock.go]:
      a step relation over lock tables, the roll-back of a refused request.  [Ofd]:
      [lock_linux.go], over the kernel's own locks.  [LockWait]: the LOCK handler and
      the goroutines of the requests it parks.
    - [ShareMode]: [sharemode.go], [sharewait.go]: the deny modes and the CREATEs
      parked on them.
    - [Sessions]: [session.go] (trees, handles and who releases them, half-open
      sessions), [sessionindex.go] (PreviousSessionId).
    - [Access]: [maxaccess.go], [statusFromErr] and [readLengthForOpen] of
      [dispatch.go].
    - [Durable]: [durable.go] and the teardown of a connection ([conn.go]).
    - [Wildcard]: [wildcard.go] and [FoldRune] of [vfs/norm.go].
    - [CopyChunk]: [copychunk.go], [copychunk_linux.go].
    - [Vfs], [Norm]: [vfs/path.go] and [vfs/norm.go]: containment, and the lookup
      that ignores normalisation and, where asked, case.
    - [Smb3]: [internal/smb3]: CMAC, CCM, the key derivation, signing, the
      transform header.
    - [Frames]: [transport/nbss.go] ([Module Nbss]), [credits.go] ([Module
      Credits]), the walk of a chain and [compound.go] ([Module Chain]).
    - [Dispatch]: [Dispatch] and what surrounds it, over any handlers.
    - [Spnego], [Negotiate], [Ntlm], [SessionSetup]: a connection's way to an
      authenticated session: [smb2/spnego.go], [negotiate.go], [selection.go],
      [preauth.go], [parent/negotiator.go]; [internal/ntlm]; the handler of
      [session.go].
    - [Config]: [internal/config] and [userdb]: the TOML file, the command line,
      [Merge], [Validate], the user table.
    - [Async]: the parked requests of [dispatch.go], CANCEL, CHANGE_NOTIFY.
    - [Teardown], [Trees]: TREE_DISCONNECT, LOGOFF and [releaseOpens] over an
      interface that every table a handle is in implements ([HandleTable]);
      TREE_CONNECT and what share enumeration shows.
    - [Kernel]: the system calls the handlers make.  A handler is a tree of calls
      and answers ([prog]); [wp] speaks of all its paths under the calls'
      documented contracts ([legal]), [run] and [trace] of the one path a kernel
      takes.
    - [Streams]: [xattr.go] and the names of [stream.go]; [Srvsvc]: [srvsvc.go];
      [Aapl]: [aapl.go].
    - [Io]: READ, WRITE, FLUSH, SET_INFO and CLOSE of [dispatch.go];
      [CreateFile]: CREATE, of pipes, named streams, files and directories;
      [Dir]: QUERY_DIRECTORY; [Query]: QUERY_INFO and IOCTL, with [statfs.go] and
      [sd.go].
    - [Writer]: [writer.go], the connection's queue and the goroutine that writes
      it.  [Worker]: [listener.go], [worker.go], [privdrop_linux.go].  [Serve]: the
      pool and the read loop of [conn.go], over the process of a worker.
    - [ConnEnd]: the deferred teardown of [ServeConn], over the tables it clears.
    - [Watch]: [internal/inotify] with its Linux backend; [Kqueue]: the darwin one.
      [Discovery]: [discovery/mdns.go]; [AeadCache]: [smb3/aeadcache.go]; [Command]:
      [cmd/gosamba/main.go] and [internal/logging].
    - [Platform]: the other files of the darwin build ([darwin_drop_spec]).

    ** What the theorems show

    - Authentication: a session is authenticated only for a peer that proved a
      password against its challenge, or as an admitted guest
      ([authentication_sound]); an honest client gets the keys it derives itself
      ([handshake_agreement]) after agreeing on the parameters
      ([negotiate_agreement]); no command runs outside the policy ([gate_spec]).
    - Authority: the share behind a tree ([tree_connect_admission]), the paths a
      CREATE can name ([create_confined], [resolve_secure_contained],
      [norm_contained]), what a read-only share is kept from
      ([readonly_share_untouched]), the principal behind a reconnect
      ([reconnect_same_principal]), and, with a process per user, the identity
      everything on a connection runs under ([worker_one_identity],
      [drop_groups_spec]).  The command starts with encryption and signing required
      unless it is asked not to ([starts_secure]).
    - Exclusion: in every reachable state the lock table holds no two conflicting
      ranges ([locks_exclusive]), the share-mode table no two live handles that
      deny each other ([share_modes_respected]); the fast paths decide the same
      ([io_conflict_spec]), and the table beside the kernel's locks says what the
      kernel says ([shadow_is_kernel]); below the caps the two managers grant the same
      ([managers_agree]), so what holds of requests over the one holds of the other.
    - Ownership: a CREATE leaves a handle or nothing ([create_all_or_nothing]), a
      handle has exactly one remover ([handles_released_once]), CLOSE and the
      teardowns give everything up ([close_spec], [teardown_complete],
      [connection_end_complete]), a durable handle is conserved ([durable_ledger],
      [reconnect_keeps_reservation]), and so is a kqueue watch
      ([watches_accounted]).
    - Progress: no wakeup is lost ([parked_create_not_forgotten],
      [no_lost_wakeup], [no_request_left_waiting]), and a wait gives everything
      back ([acquireShareMode_leaves_nothing]): a LOCK that waits is counted, answered
      once and never asleep while it could be granted ([blocking_lock_sound],
      [lock_cancel_completes]).  The connection's writer stays within
      its bounds, delivers in order and never makes a sender wait ([writer_bounded],
      [writer_delivers], [send_wait_free]); a closed watcher stops
      ([close_ends_watch]); the accept loop survives what passes
      ([accept_loop_survives]) and the workers are counted ([worker_slots_exact]).
    - Wire formats: no decoder panics or loops ([decoders_never_panic],
      [create_never_panics], [ntlm_decoders_safe], [parse_ea_total],
      [dcerpc_answers]); encoders and decoders are inverse ([contexts_roundtrip],
      [compound_parses], [ea_roundtrip], [share_list_roundtrip], [toml_roundtrip]).
    - Cryptography: the program's CMAC is RFC 4493 ([cmac_rfc4493]), sealing and
      opening are inverse ([transform_roundtrip]), nonces do not repeat
      ([nonces_unique]), signatures verify ([sign_verify]).
    - Functional: LOCK is all or nothing ([applyLockOps_atomic]), a server-side
      copy writes the chunks and nothing else ([copychunk_spec]), READ and WRITE
      move the bytes ([read_file_spec], [write_file_spec], [stream_write_read]) in
      the frame every response has ([read_frame_equivalence]), the pattern scan is
      the glob relation ([matchSMBPattern_spec]), the name lookup misses nothing
      ([norm_lookup_complete]), a chain closes what it opened
      ([related_close_runs]), a client that asks on lists a directory whole
      ([listing_complete]) under the ids QUERY_INFO gives ([file_ids_agree],
      [file_all_parts]), the negotiation is repeated to a client that asks
      ([validate_negotiate_repeats]), the watcher reports what changed and what the
      kernel wrote ([diff_exact], [parse_events_faithful]), the cipher cache is
      transparent ([aead_cache_transparent]), what [gosamba hash] prints is the
      password's credential ([hash_is_credential]), and the responder says what is
      so ([discovery_speaks_true]).

    Theorems without a claim number record what the code does where that is
    surprising: [lock_wait_wakes_itself], [durable_directory_leaks],
    [root_share_refuses], [second_sentinel_runs], [gmac_nonce_async_bit],
    [ntlm_decode_drops_surrogates], [anonymous_message_strips_session],
    [reused_message_id_leaks], [unwritten_stream_written_back],
    [ea_list_amplifies], [set_times_wraps], [hole_divides_shadow],
    [other_process_wakes_nobody], [close_races_cancel], and the like.

    ** Conventions, bounds and fuel

    A machine integer is a [Z], with its wrap-around written out where the code
    can reach it.  A handle, a channel or a file is its identity, a [Z].  An
    operation that runs under a mutex is one step, so the interleavings of
    connections are the sequences of steps.  Time, randomness, the kernel's
    answers and the primitives of [crypto/*] are arguments or section variables;
    a theorem about the latter takes their documented laws as a hypothesis and
    is instantiated by a concrete function in its witness.

    A loop that is not structural takes fuel, and the wrapper that is the code's
    function supplies it from a measure: the length of the frame for a chain
    (each message takes 64 bytes), the length of the buffer for a context chain,
    [len(name)·(len(pattern)+1)] for the pattern scan, the bytes left for a copy.
    In each case the theorems about the wrapper also show that the fuel never
    runs out.

    ** What is not modelled

    Log lines, timers' lengths, socket options
    and the sockets themselves.  A handler's call runs alone between two critical
    sections: the interleavings modelled are those at locks, channels and the frames
    of a connection, not those inside the system calls of two handlers, except where
    the answers of the kernel are arbitrary.  An operation of a kqueue watcher is one
    step beside those of other watchers.  Code outside the repository (the
    kernel, [crypto/*], [x/text], the DNS message package, the Unicode tables,
    [time.ParseDuration]) is a parameter of what calls it. *)

From Stdlib Require Export ZArith Lia Bool.
From stdpp Require Export base tactics list numbers gmap strings.
From coqutil Require Export Byte Word.LittleEndianList.

#[export] Set Default Goal Selector "!".
#[global] Open Scope Z_scope.

(** ** Bytes

    A Go [[]byte] is a list of bytes; [len] is Go's [len], an [int]. *)

Abbreviation byte := Byte.byte (only parsing).
Abbreviation bytes := (list Byte.byte).

Definition len {A} (l : list A) : Z := Z.of_nat (length l).

(** The value of a byte and Go's conversion [byte(z)]. *)
Abbreviation b2z := byte.unsigned.
Abbreviation z2b := byte.of_Z.

Definition zeros (n : Z) : bytes := replicate (Z.to_nat n) Byte.x00.

(** Zeros appended until the length is a multiple of [n]. *)
Definition pad_to (n : Z) (b : bytes) : bytes := b ++ zeros ((- len b) mod n).

#[export] Instance byte_eq_dec : EqDecision Byte.byte.
Proof. intros x y. destruct (Byte.byte_eq_dec x y); [left|right]; done. Defined.

#[export] Instance byte_countable : Countable Byte.byte.
Proof.
  refine (inj_countable' (fun b => Z.to_N (b2z b)) (fun n => z2b (Z.of_N n)) _).
  intros b. rewrite Z2N.id by (pose proof (byte.unsigned_range b); lia).
  apply byte.of_Z_unsigned.
Defined.

(** ** Outcomes

    What a Go function that returns [(T, error)] may do: return a value,
    return an error, or panic.  Reading or slicing out of range panics, so
    "no input makes the decoder panic" is a statement about [Panic]. *)

Inductive outcome (E A : Type) : Type :=
  | Ok (a : A)
  | Err (e : E)
  | Panic.
Arguments Ok {E A} a.
Arguments Err {E A} e.
Arguments Panic {E A}.

#[export] Instance outcome_ret {E} : MRet (outcome E) := fun _ a => Ok a.
#[export] Instance outcome_bind {E} : MBind (outcome E) := fun _ _ k m =>
  match m with Ok a => k a | Err e => Err e | Panic => Panic end.

Definition is_ok {E A} (m : outcome E A) : bool :=
  match m with Ok _ => true | _ => false end.

(** [safe m]: the computation does not panic. *)
Definition safe {E A} (m : outcome E A) : Prop := m <> Panic.

Section Outcome.
Context {E A B : Type}.
Implicit Types m : outcome E A.

Lemma bind_Ok (a : A) (k : A -> outcome E B) : (Ok a ≫= k) = k a.
Proof. done. Qed.

Lemma safe_Ok (a : A) : safe (E:=E) (Ok a).
Proof. done. Qed.

Lemma safe_Err (e : E) : safe (A:=A) (Err e).
Proof. done. Qed.

Lemma safe_bind m (k : A -> outcome E B) :
  safe m -> (forall a, m = Ok a -> safe (k a)) -> safe (m ≫= k).
Proof. destruct m; simpl; intros Hm Hk; [by apply Hk|done|done]. Qed.

Lemma bind_Ok_inv m (k : A -> outcome E B) b :
  (m ≫= k) = Ok b -> exists a, m = Ok a /\ k a = Ok b.
Proof. destruct m; simpl; intros H; [eauto|discriminate|discriminate]. Qed.

Lemma safe_if (c : bool) m1 m2 :
  (c = true -> safe m1) -> (c = false -> safe m2) -> safe (if c then m1 else m2).
Proof. destruct c; auto. Qed.
End Outcome.

(** ** Slices and little-endian fields *)

(** [b[off:off+n]] when it is in range. *)
Definition get (b : bytes) (off n : Z) : bytes :=
  take (Z.to_nat n) (drop (Z.to_nat off) b).

(** [copy(out[off:], d)] and the [Put] family on a buffer with room for [d]. *)
Definition splice (off : Z) (d b : bytes) : bytes :=
  take (Z.to_nat off) b ++ d ++ drop (Z.to_nat off + length d) b.

Definition in_range (b : bytes) (off n : Z) : bool :=
  (0 <=? off) && (0 <=? n) && (off + n <=? len b).

Section Fields.
Context {E : Type}.

(** [b[lo:hi]] *)
Definition slice (b : bytes) (lo hi : Z) : outcome E bytes :=
  if in_range b lo (hi - lo) then Ok (get b lo (hi - lo)) else Panic.

(** [b[i]] *)
Definition at8 (b : bytes) (i : Z) : outcome E Z :=
  if in_range b i 1 then Ok (le_combine (get b i 1)) else Panic.

(** [binary.LittleEndian.Uint16(b[i:])], [Uint32], [Uint64] *)
Definition u16 (b : bytes) (i : Z) : outcome E Z :=
  if in_range b i 2 then Ok (le_combine (get b i 2)) else Panic.
Definition u32 (b : bytes) (i : Z) : outcome E Z :=
  if in_range b i 4 then Ok (le_combine (get b i 4)) else Panic.
Definition u64 (b : bytes) (i : Z) : outcome E Z :=
  if in_range b i 8 then Ok (le_combine (get b i 8)) else Panic.
End Fields.

(** The bytes [PutUint16], [PutUint32], [PutUint64] write. *)
Abbreviation le8 := (le_split 1).
Abbreviation le16 := (le_split 2).
Abbreviation le32 := (le_split 4).
Abbreviation le64 := (le_split 8).

(** Big-endian fields. *)
Definition be_split (n : nat) (v : Z) : bytes := rev (le_split n v).
Definition be_combine (b : bytes) : Z := le_combine (rev b).

Create Rewrite HintDb len.
Ltac len_simpl := autorewrite with len in *.

Section Lengths.
Context {A : Type}.
Implicit Types l : list A.

Lemma len_nil : len (@nil A) = 0.
Proof. done. Qed.
Lemma len_cons x l : len (x :: l) = 1 + len l.
Proof. unfold len. simpl. lia. Qed.
Lemma len_app l1 l2 : len (l1 ++ l2) = len l1 + len l2.
Proof. unfold len. rewrite length_app. lia. Qed.
Lemma len_nonneg l : 0 <= len l.
Proof. unfold len. lia. Qed.
Lemma len_rev l : len (rev l) = len l.
Proof. unfold len. by rewrite length_rev. Qed.
Lemma len_zero l : len l = 0 -> l = [].
Proof. destruct l; [done|rewrite len_cons]. pose proof (len_nonneg l). lia. Qed.
End Lengths.

Lemma len_le_split n v : len (le_split n v) = Z.of_nat n.
Proof. unfold len. by rewrite length_le_split. Qed.
Lemma len_be_split n v : len (be_split n v) = Z.of_nat n.
Proof. unfold be_split. by rewrite len_rev, len_le_split. Qed.
Lemma len_zeros n : 0 <= n -> len (zeros n) = n.
Proof. intros. unfold len, zeros. rewrite length_replicate. lia. Qed.
Lemma len_pad_to n b : 0 < n -> len (pad_to n b) = len b + (- len b) mod n.
Proof. intros Hn. unfold pad_to. rewrite len_app, len_zeros; [done|]. by apply Z.mod_pos_bound. Qed.
Lemma len_map {A B} (f : A -> B) l : len (map f l) = len l.
Proof. unfold len. by rewrite length_map. Qed.

Lemma len_get b off n : 0 <= off -> 0 <= n -> off + n <= len b -> len (get b off n) = n.
Proof. unfold len, get. intros. rewrite length_take, length_drop. lia. Qed.

Lemma length_splice off d b :
  0 <= off -> off + len d <= len b -> length (splice off d b) = length b.
Proof.
  unfold len, splice. intros. rewrite !length_app, length_take, length_drop. lia.
Qed.
Lemma len_splice off d b :
  0 <= off -> off + len d <= len b -> len (splice off d b) = len b.
Proof. intros. unfold len. by rewrite length_splice. Qed.

#[export] Hint Rewrite @len_nil @len_cons @len_app @len_rev len_le_split len_be_split @len_map : len.
#[export] Hint Rewrite len_zeros len_get len_splice using (autorewrite with len; simpl; lia) : len.

(** ** Reading back what was written *)

Lemma lookup_get b off n (i : nat) :
  0 <= off -> 0 <= n ->
  get b off n !! i = if decide (Z.of_nat i < n) then b !! (Z.to_nat off + i)%nat else None.
Proof.
  intros. unfold get. case_decide.
  - by rewrite lookup_take, decide_True, lookup_drop by lia.
  - by rewrite lookup_take, decide_False by lia.
Qed.

Lemma lookup_splice off d b (i : nat) :
  0 <= off -> off + len d <= len b ->
  splice off d b !! i =
    if decide (off <= Z.of_nat i < off + len d) then d !! (i - Z.to_nat off)%nat else b !! i.
Proof.
  unfold len. intros Ho Hd. unfold splice.
  assert (length (take (Z.to_nat off) b) = Z.to_nat off) as Ht
    by (rewrite length_take; lia).
  destruct (decide (Z.of_nat i < off)) as [Hi|Hi].
  { rewrite decide_False by lia. rewrite lookup_app_l by lia.
    by rewrite lookup_take, decide_True by lia. }
  rewrite lookup_app_r, Ht by lia. case_decide.
  - by rewrite lookup_app_l by lia.
  - rewrite lookup_app_r by lia. rewrite lookup_drop. f_equal. lia.
Qed.

Lemma get_splice_eq off d b n :
  0 <= off -> off + len d <= len b -> n = len d -> get (splice off d b) off n = d.
Proof.
  intros Ho Hd ->. pose proof (len_nonneg d). apply list_eq. intros i.
  rewrite lookup_get by lia. case_decide.
  - rewrite lookup_splice, decide_True by lia. f_equal. lia.
  - symmetry. apply lookup_ge_None. unfold len in *. lia.
Qed.

Lemma get_splice_ne off d b off' n :
  0 <= off -> off + len d <= len b -> 0 <= off' -> 0 <= n ->
  off' + n <= off \/ off + len d <= off' ->
  get (splice off d b) off' n = get b off' n.
Proof.
  intros Ho Hd Ho' Hn Hdis. apply list_eq. intros i.
  rewrite !lookup_get by lia. case_decide; [|done].
  by rewrite lookup_splice, decide_False by lia.
Qed.

Lemma get_app_l a b off n :
  0 <= off -> 0 <= n -> off + n <= len a -> get (a ++ b) off n = get a off n.
Proof.
  intros. apply list_eq. intros i. rewrite !lookup_get by lia. case_decide; [|done].
  rewrite lookup_app_l; [done|]. unfold len in *. lia.
Qed.

Lemma get_app_r a b off n :
  0 <= off -> 0 <= n -> len a <= off -> get (a ++ b) off n = get b (off - len a) n.
Proof.
  intros. apply list_eq. intros i. rewrite !lookup_get by lia. case_decide; [|done].
  unfold len in *. rewrite lookup_app_r by lia. f_equal. lia.
Qed.

Lemma get_all d n : n = len d -> get d 0 n = d.
Proof. intros ->. unfold get, len. rewrite drop_0. apply take_ge. lia. Qed.

Lemma get_app_exact a b n : n = len a -> get (a ++ b) 0 n = a.
Proof.
  intros ->. pose proof (len_nonneg a). rewrite get_app_l by lia. by apply get_all.
Qed.

Lemma get_mid pre e post k n : 0 <= k -> 0 <= n -> k + n <= len e -> get (pre ++ e ++ post) (len pre + k) n = get e k n.
Proof.
  intros. pose proof (len_nonneg pre). rewrite get_app_r by lia. replace (len pre + k - len pre) with k by lia.
  apply get_app_l; lia.
Qed.

Lemma get_zero_len b off : get b off 0 = [].
Proof. done. Qed.

Lemma get_zeros n off k :
  0 <= off -> 0 <= k -> off + k <= n -> get (zeros n) off k = zeros k.
Proof.
  intros. unfold get, zeros. rewrite drop_replicate, take_replicate. f_equal. lia.
Qed.

Lemma le_combine_zeros n : le_combine (zeros n) = 0.
Proof.
  unfold zeros. induction (Z.to_nat n) as [|m IH]; [done|]. simpl.
  change (le_combine (Byte.x00 :: ?l)) with (Z.lor 0 (Z.shiftl (le_combine l) 8)).
  by rewrite IH.
Qed.

Lemma le_combine_le_split n v w :
  w = 2 ^ (Z.of_nat n * 8) -> 0 <= v < w -> le_combine (le_split n v) = v.
Proof. intros -> ?. rewrite le_combine_split. by apply Z.mod_small. Qed.

Lemma le_combine_range b n : len b = n -> 0 <= le_combine b < 2 ^ (8 * n).
Proof. intros <-. unfold len. apply le_combine_bound. Qed.

Lemma be_combine_be_split n v w :
  w = 2 ^ (Z.of_nat n * 8) -> 0 <= v < w -> be_combine (be_split n v) = v.
Proof.
  intros. unfold be_combine, be_split. rewrite rev_involutive. by eapply le_combine_le_split.
Qed.

Lemma in_range_true b off n : 0 <= off -> 0 <= n -> off + n <= len b -> in_range b off n = true.
Proof. intros. unfold in_range. rewrite !andb_true_iff, !Z.leb_le. lia. Qed.

Lemma in_range_spec b off n :
  reflect (0 <= off /\ 0 <= n /\ off + n <= len b) (in_range b off n).
Proof.
  unfold in_range. apply iff_reflect. rewrite !andb_true_iff, !Z.leb_le. lia.
Qed.

Section Reads.
Context {E : Type}.

Lemma slice_Ok b lo hi : 0 <= lo -> lo <= hi -> hi <= len b ->
  slice (E:=E) b lo hi = Ok (get b lo (hi - lo)).
Proof. intros. unfold slice. by rewrite in_range_true by lia. Qed.
Lemma at8_Ok b i : 0 <= i -> i + 1 <= len b -> at8 (E:=E) b i = Ok (le_combine (get b i 1)).
Proof. intros. unfold at8. by rewrite in_range_true by lia. Qed.
Lemma u16_Ok b i : 0 <= i -> i + 2 <= len b -> u16 (E:=E) b i = Ok (le_combine (get b i 2)).
Proof. intros. unfold u16. by rewrite in_range_true by lia. Qed.
Lemma u32_Ok b i : 0 <= i -> i + 4 <= len b -> u32 (E:=E) b i = Ok (le_combine (get b i 4)).
Proof. intros. unfold u32. by rewrite in_range_true by lia. Qed.
Lemma u64_Ok b i : 0 <= i -> i + 8 <= len b -> u64 (E:=E) b i = Ok (le_combine (get b i 8)).
Proof. intros. unfold u64. by rewrite in_range_true by lia. Qed.

(** What a read that succeeded returned. *)
Lemma slice_inv b lo hi d : slice (E:=E) b lo hi = Ok d ->
  d = get b lo (hi - lo) /\ 0 <= lo <= hi /\ hi <= len b /\ len d = hi - lo.
Proof.
  unfold slice. destruct (in_range_spec b lo (hi - lo)); [|discriminate].
  intros [= <-]. rewrite len_get by lia. split; [done|lia].
Qed.
Lemma at8_inv b i v : at8 (E:=E) b i = Ok v -> 0 <= v < 2 ^ 8.
Proof.
  unfold at8. destruct (in_range_spec b i 1); [|discriminate]. intros [= <-].
  apply (le_combine_range _ 1). rewrite len_get; lia.
Qed.
Lemma u16_inv b i v : u16 (E:=E) b i = Ok v -> 0 <= v < 2 ^ 16.
Proof.
  unfold u16. destruct (in_range_spec b i 2); [|discriminate]. intros [= <-].
  apply (le_combine_range _ 2). rewrite len_get; lia.
Qed.
Lemma u32_inv b i v : u32 (E:=E) b i = Ok v -> 0 <= v < 2 ^ 32.
Proof.
  unfold u32. destruct (in_range_spec b i 4); [|discriminate]. intros [= <-].
  apply (le_combine_range _ 4). rewrite len_get; lia.
Qed.
Lemma u64_inv b i v : u64 (E:=E) b i = Ok v -> 0 <= v < 2 ^ 64.
Proof.
  unfold u64. destruct (in_range_spec b i 8); [|discriminate]. intros [= <-].
  apply (le_combine_range _ 8). rewrite len_get; lia.
Qed.
End Reads.

(** ** Buffers filled by [copy] and [Put] at fixed offsets

    [writes out ps] performs the writes [ps], in order, on the buffer [out]. *)

Definition writes (b : bytes) (ps : list (Z * bytes)) : bytes :=
  fold_left (fun b p => splice p.1 p.2 b) ps b.

#[global] Arguments get : simpl never.
#[global] Arguments splice : simpl never.
#[global] Arguments len : simpl never.
#[global] Arguments zeros : simpl never.
#[global] Arguments writes : simpl never.

(** Every write lies inside a buffer of length [n]. *)
Definition fits (n : Z) (ps : list (Z * bytes)) : Prop :=
  Forall (fun p => 0 <= p.1 /\ p.1 + len p.2 <= n) ps.

(** A write that leaves [off, off+n) alone. *)
Definition apart (off n : Z) (p : Z * bytes) : Prop :=
  off + n <= p.1 \/ p.1 + len p.2 <= off.

Lemma len_writes b ps n : fits n ps -> len b = n -> len (writes b ps) = n.
Proof.
  intros H. revert b. induction H as [|p ps [? ?] _ IH]; intros b Hb; [done|].
  apply (IH (splice p.1 p.2 b)). rewrite len_splice; lia.
Qed.

Lemma get_writes_apart b ps off n :
  fits (len b) ps -> 0 <= off -> 0 <= n -> Forall (apart off n) ps ->
  get (writes b ps) off n = get b off n.
Proof.
  intros Hf Ho Hn Ha. revert b Hf.
  induction Ha as [|p ps Hp _ IH]; intros b Hf; [done|]. inversion_clear Hf as [|? ? [? ?] Hf'].
  unfold apart in Hp. change (writes b (p :: ps)) with (writes (splice p.1 p.2 b) ps). rewrite IH by (rewrite len_splice by lia; done).
  apply get_splice_ne; lia.
Qed.

Lemma get_writes_at b ps (k : nat) off d n :
  ps !! k = Some (off, d) -> fits (len b) ps -> n = len d ->
  Forall (apart off n) (drop (S k) ps) -> get (writes b ps) off n = d.
Proof.
  revert b k. induction ps as [|p ps IH]; intros b k Hk Hf Hn Ha; [done|].
  pose proof (len_nonneg d). inversion_clear Hf as [|? ? [? ?] Hf'].
  destruct k as [|k]; simpl in *.
  - injection Hk as ->. simpl in *. change (writes b ((off, d) :: ps)) with (writes (splice off d b) ps). rewrite get_writes_apart; try lia; [|by rewrite len_splice by lia|done].
    by apply get_splice_eq.
  - apply (IH (splice p.1 p.2 b) k); [done| |done|done]. by rewrite len_splice by lia.
Qed.

(** ** Machine words: bit operations stay in range *)

Section Words.
Variable n : Z.
Hypothesis Hn : 0 <= n.

Lemma bits_range a : 0 <= a -> (forall i, n <= i -> Z.testbit a i = false) -> a < 2 ^ n.
Proof.
  intros Ha Hb. assert (a = a mod 2 ^ n) as ->; [|apply Z.mod_pos_bound; lia].
  apply Z.bits_inj'. intros i Hi. rewrite <- Z.land_ones, Z.land_spec, Z.testbit_ones_nonneg by lia.
  destruct (Z.ltb_spec i n); [by rewrite andb_true_r|]. rewrite Hb by lia. done.
Qed.

Lemma range_bits a i : 0 <= a < 2 ^ n -> n <= i -> Z.testbit a i = false.
Proof.
  intros [? ?] ?. rewrite <- (Z.mod_small a (2 ^ n)) by lia. apply Z.mod_pow2_bits_high. lia.
Qed.

Lemma lor_range a b : 0 <= a < 2 ^ n -> 0 <= b < 2 ^ n -> 0 <= Z.lor a b < 2 ^ n.
Proof.
  intros. assert (0 <= Z.lor a b) by (apply Z.lor_nonneg; lia). split; [done|].
  apply bits_range; [done|]. intros i Hi. by rewrite Z.lor_spec, !range_bits.
Qed.

Lemma land_range a b : 0 <= a < 2 ^ n -> 0 <= b -> 0 <= Z.land a b < 2 ^ n.
Proof.
  intros. assert (0 <= Z.land a b) by (apply Z.land_nonneg; lia). split; [done|].
  apply bits_range; [done|]. intros i Hi. by rewrite Z.land_spec, range_bits.
Qed.

Lemma lxor_range a b : 0 <= a < 2 ^ n -> 0 <= b < 2 ^ n -> 0 <= Z.lxor a b < 2 ^ n.
Proof.
  intros. assert (0 <= Z.lxor a b) by (apply Z.lxor_nonneg; lia). split; [done|].
  apply bits_range; [done|]. intros i Hi. by rewrite Z.lxor_spec, !range_bits.
Qed.
End Words.

(** ** Tactics *)

(** [rd]: evaluate the reads of the goal whose range side conditions [lia]
    proves from the lengths. *)
Ltac side := first [lia | autorewrite with len; try done; lia].
Ltac rd1 :=
  first [rewrite slice_Ok by side | rewrite at8_Ok by side | rewrite u16_Ok by side
        | rewrite u32_Ok by side | rewrite u64_Ok by side].
Ltac is_zconst z := lazymatch z with Z0 => idtac | Zpos _ => idtac | Zneg _ => idtac end.
Ltac zc :=
  repeat match goal with
    | |- context [Z.sub ?a ?b] => is_zconst a; is_zconst b;
        let c := eval vm_compute in (Z.sub a b) in change (Z.sub a b) with c
    end.
Ltac rd := repeat (rd1; cbn [mbind outcome_bind]); zc.

(** [fields]: read a field back out of a sequence of [splice]s. *)
Ltac field1 :=
  first [rewrite get_splice_eq by side
        | rewrite get_splice_ne by side
        | rewrite get_app_exact by side
        | rewrite get_app_l by side
        | rewrite get_app_r by side
        | rewrite get_zeros by side
        | rewrite le_combine_zeros
        | match goal with
          | |- context [le_combine (le_split ?n ?v)] =>
              let w := eval vm_compute in (2 ^ (Z.of_nat n * 8)) in
              rewrite (le_combine_le_split n v w eq_refl) by lia
          end].
Ltac fields := repeat field1.

(** [fits_tac]: the writes of an encoder are in range.
    [wfield]: read a field back out of a [writes]; the hypothesis that the
    writes fit is in the context. *)
Ltac fits_tac := unfold fits; repeat (apply Forall_cons; split; [split; cbn [fst snd]; side|]); apply Forall_nil; exact I.
Ltac index_of off ps :=
  lazymatch ps with
  | (off, _) :: _ => constr:(0%nat)
  | _ :: ?ps' => let k := index_of off ps' in constr:(S k)
  end.
Ltac aparts := cbn [drop]; repeat (apply Forall_cons; split; [unfold apart; cbn [fst snd]; side|]); apply Forall_nil; exact I.
Ltac wfield1 :=
  match goal with
  | Hf : fits (len ?b) ?ps |- context [get (writes ?b ?ps) ?off ?n] =>
      first
        [ let k := index_of off ps in
          erewrite (get_writes_at b ps k off _ n eq_refl Hf) by first [side; fail | aparts]
        | rewrite (get_writes_apart b ps off n Hf) by first [lia | aparts] ]
  end.
Ltac wfield := repeat wfield1.

(** [bind_inv]: split a hypothesis saying that a bind returned a value. *)
Ltac bind_inv :=
  repeat match goal with
    | H : (?m ≫= ?k) = Ok _ |- _ =>
        let a := fresh "v" in let H1 := fresh "E" in
        apply bind_Ok_inv in H as (a & H1 & H)
    | H : Ok _ = Ok _ |- _ => injection H as H
    | H : Err _ = Ok _ |- _ => discriminate H
    | H : Panic = Ok _ |- _ => discriminate H
    end.

(** [nopanic]: the reads of a decoder are in range. *)
Ltac nopanic1 :=
  match goal with
  | |- safe (Ok _) => exact (safe_Ok _)
  | |- safe (Err _) => exact (safe_Err _)
  | |- safe (?m ≫= _) => apply safe_bind; [|let a := fresh "a" in let H := fresh "Ha" in intros a H]
  | |- safe (if ?c then _ else _) => let H := fresh "Hc" in destruct c eqn:H
  | |- safe (let '_ := ?c in _) => destruct c
  | |- safe (u16 _ _) => rewrite u16_Ok by side
  | |- safe (u32 _ _) => rewrite u32_Ok by side
  | |- safe (u64 _ _) => rewrite u64_Ok by side
  | |- safe (at8 _ _) => rewrite at8_Ok by side
  | |- safe (slice _ _ _) => rewrite slice_Ok by side
  | H : u16 _ _ = Ok _ |- _ => apply u16_inv in H
  | H : u32 _ _ = Ok _ |- _ => apply u32_inv in H
  | H : u64 _ _ = Ok _ |- _ => apply u64_inv in H
  | H : at8 _ _ = Ok _ |- _ => apply at8_inv in H
  | H : slice _ _ _ = Ok _ |- _ => apply slice_inv in H as (_ & _ & _ & H)
  | H : (_ <? _) = _ |- _ => first [apply Z.ltb_lt in H | apply Z.ltb_ge in H]
  | H : (_ || _) = false |- _ => apply orb_false_iff in H as [? ?]
  | H : (_ && _) = true |- _ => apply andb_true_iff in H as [? ?]
  | H : (_ <=? _) = _ |- _ => first [apply Z.leb_le in H | apply Z.leb_gt in H]
  | H : (_ =? _) = _ |- _ => first [apply Z.eqb_eq in H | apply Z.eqb_neq in H]
  | H : negb _ = true |- _ => rewrite negb_true_iff in H
  | H : negb _ = false |- _ => rewrite negb_false_iff in H
  end.
Ltac nopanic := repeat nopanic1.

(** ** Sums over lists *)

Definition sumZ {A} (f : A -> Z) (l : list A) : Z := foldr (fun a n => f a + n) 0 l.

Lemma sumZ_app {A} (f : A -> Z) l k : sumZ f (l ++ k) = sumZ f l + sumZ f k.
Proof. induction l as [|a l IH]; [done|]. cbn [app]. unfold sumZ in *. cbn [foldr]. lia. Qed.

Lemma sumZ_insert {A} (f : A -> Z) l i a b : l !! i = Some a -> sumZ f (<[i := b]> l) = sumZ f l - f a + f b.
Proof.
  revert i. induction l as [|c l IH]; intros [|i] Hi; try done; unfold sumZ in *; simpl in *.
  - injection Hi as ->. lia.
  - specialize (IH i Hi). unfold sumZ in *. lia.
Qed.

Lemma sumZ_nonneg {A} (f : A -> Z) l : (forall a, 0 <= f a) -> 0 <= sumZ f l.
Proof. intros Hf. induction l as [|a l IH]; [done|]; unfold sumZ in *; cbn [foldr]. specialize (Hf a). unfold sumZ in *. lia. Qed.

Lemma sumZ_lookup_le {A} (f : A -> Z) l i a : (forall a, 0 <= f a) -> l !! i = Some a -> f a <= sumZ f l.
Proof.
  intros Hf. revert i. induction l as [|b l IH]; intros [|i] Hi; try done; unfold sumZ in *; cbn [foldr].
  - injection Hi as ->. pose proof (sumZ_nonneg f l Hf). unfold sumZ in *. lia.
  - specialize (IH i Hi). specialize (Hf b). lia.
Qed.

#[global] Arguments sumZ : simpl never.

Lemma sumZ_last {A} (f : A -> Z) l a : sumZ f (l ++ [a]) = sumZ f l + f a.
Proof. rewrite sumZ_app. unfold sumZ. cbn. lia. Qed.

Lemma lookup_last {A} (l : list A) (a b : A) i : (l ++ [a]) !! i = Some b <-> l !! i = Some b \/ (i = length l /\ b = a).
Proof.
  rewrite lookup_app_Some. split; (intros [H|[Hle H]]; [by left|right]); [|subst; split; [lia|]; by rewrite Nat.sub_diag].
  apply list_lookup_singleton_Some in H as [Hz ->]. split; [lia|done].
Qed.
