(* ===== verification/Smb2.v ===== *)
(** The constants of the SMB2 wire protocol and the 64-byte SMB2 header:
    [internal/smb2/status.go], [command.go] and [header.go].  A Go newtype
    over [uint16] or [uint32] ([Command], [Status], [Flags]) is its [Z]. *)

From S2P Require Import Prelude.

Module Const.

(** *** NTSTATUS codes: [smb2/status.go] *)

Definition StatusSuccess : Z := 0x00000000.
Definition StatusPending : Z := 0x00000103.
Definition StatusInvalidParameter : Z := 0xC000000D.
Definition StatusAccessDenied : Z := 0xC0000022.
Definition StatusObjectNameNotFound : Z := 0xC0000034.
Definition StatusObjectNameCollision : Z := 0xC0000035.
Definition StatusFileIsADirectory : Z := 0xC00000BA.
Definition StatusNotADirectory : Z := 0xC0000103.
Definition StatusNotSupported : Z := 0xC00000BB.
Definition StatusInternalError : Z := 0xC00000E5.
Definition StatusUserSessionDeleted : Z := 0xC0000203.
Definition StatusLogonFailure : Z := 0xC000006D.
Definition StatusMoreProcessingReq : Z := 0xC0000016.
Definition StatusNoSuchFile : Z := 0xC000000F.
Definition StatusNoMoreFiles : Z := 0x80000006.
Definition StatusPipeNotAvailable : Z := 0xC00000AC.
Definition StatusBadNetworkName : Z := 0xC00000CC.
Definition StatusEndOfFile : Z := 0xC0000011.
Definition StatusPipeBroken : Z := 0xC000014B.
Definition StatusCancelled : Z := 0xC0000120.
Definition StatusNotifyEnumDir : Z := 0x0000010C.
Definition StatusNotifyCleanup : Z := 0x0000010B.
Definition StatusFsDriverRequired : Z := 0xC000019C.
Definition StatusNetworkNameDeleted : Z := 0xC00000C9.
Definition StatusBufferOverflow : Z := 0x80000005.
Definition StatusLockNotGranted : Z := 0xC0000055.
Definition StatusFileLockConflict : Z := 0xC0000054.
Definition StatusSharingViolation : Z := 0xC0000043.
Definition StatusDiskFull : Z := 0xC000007F.
Definition StatusInsufficientResources : Z := 0xC000009A.
Definition StatusObjectPathNotFound : Z := 0xC000003A.
Definition StatusObjectNameInvalid : Z := 0xC0000033.
Definition StatusDirectoryNotEmpty : Z := 0xC0000101.
Definition StatusTooManyOpenedFiles : Z := 0xC000011F.
Definition StatusNotSameDevice : Z := 0xC00000D4.
Definition StatusIODeviceError : Z := 0xC0000185.
Definition StatusInvalidHandle : Z := 0xC0000008.
Definition StatusTooManyLinks : Z := 0xC0000265.
Definition StatusInvalidInfoClass : Z := 0xC0000003.
Definition StatusInfoLengthMismatch : Z := 0xC0000004.
Definition StatusInvalidOplockProtocol : Z := 0xC00000E3.
Definition StatusNotFound : Z := 0xC0000225.
Definition StatusInvalidViewSize : Z := 0xC000001F.

(** *** Commands: [smb2/command.go] *)

Definition CommandNegotiate : Z := 0x0000.
Definition CommandSessionSetup : Z := 0x0001.
Definition CommandLogoff : Z := 0x0002.
Definition CommandTreeConnect : Z := 0x0003.
Definition CommandTreeDisconnect : Z := 0x0004.
Definition CommandCreate : Z := 0x0005.
Definition CommandClose : Z := 0x0006.
Definition CommandFlush : Z := 0x0007.
Definition CommandRead : Z := 0x0008.
Definition CommandWrite : Z := 0x0009.
Definition CommandLock : Z := 0x000A.
Definition CommandIoctl : Z := 0x000B.
Definition CommandCancel : Z := 0x000C.
Definition CommandEcho : Z := 0x000D.
Definition CommandQueryDirectory : Z := 0x000E.
Definition CommandChangeNotify : Z := 0x000F.
Definition CommandQueryInfo : Z := 0x0010.
Definition CommandSetInfo : Z := 0x0011.
Definition CommandOplockBreak : Z := 0x0012.

(** *** Header flags: [smb2/header.go] *)

Definition FlagServerToRedir : Z := 0x00000001.
Definition FlagAsyncCommand : Z := 0x00000002.
Definition FlagRelatedOps : Z := 0x00000004.
Definition FlagSigned : Z := 0x00000008.
Definition FlagPriorityMask : Z := 0x00000070.
Definition FlagDFSOperations : Z := 0x10000000.
Definition FlagReplayOperation : Z := 0x20000000.

End Const.
Export Const.

(** The sentinel errors of the [smb2] package; the wrapped text is dropped. *)
Inductive err :=
  | ErrShortBuffer
  | ErrBadProtocolID
  | ErrBadStructureSize
  | ErrInvalidParameter
  | ErrCopyChunkLimit
  | ErrNoCommonDialect
  | ErrNoCommonCipher
  | ErrNoPreauthSHA512
  | ErrNoCommonSigningAlgo
  | ErrContextOffset
  | ErrNoPreauthContext
  | ErrNoNTLMSSP.

#[export] Instance err_eq_dec : EqDecision err.
Proof. solve_decision. Defined.

Abbreviation res := (outcome err).

Definition Command_String (c : Z) : string :=
  match c with
  | 0x0000 => "NEGOTIATE" | 0x0001 => "SESSION_SETUP" | 0x0002 => "LOGOFF"
  | 0x0003 => "TREE_CONNECT" | 0x0004 => "TREE_DISCONNECT" | 0x0005 => "CREATE"
  | 0x0006 => "CLOSE" | 0x0007 => "FLUSH" | 0x0008 => "READ" | 0x0009 => "WRITE"
  | 0x000A => "LOCK" | 0x000B => "IOCTL" | 0x000C => "CANCEL" | 0x000D => "ECHO"
  | 0x000E => "QUERY_DIRECTORY" | 0x000F => "CHANGE_NOTIFY" | 0x0010 => "QUERY_INFO"
  | 0x0011 => "SET_INFO" | 0x0012 => "OPLOCK_BREAK" | _ => "UNKNOWN"
  end%string.

Module Header.

Definition HeaderSize : Z := 64.
Definition NextCommandOffset : Z := 20.
Definition headerStructureSize : Z := 64.
(** [{0xFE, 'S', 'M', 'B'}] *)
Definition protocolID : bytes := [Byte.xfe; Byte.x53; Byte.x4d; Byte.x42].

Record Header := mkHeader {
  CreditCharge : Z;
  Status : Z;
  Command : Z;
  CreditResponse : Z;
  Flags : Z;
  NextCommand : Z;
  MessageID : Z;
  TreeID : Z;
  SessionID : Z;
  Signature : bytes
}.

#[export] Instance Header_eq_dec : EqDecision Header.
Proof. solve_decision. Defined.

(** The Go types of the fields. *)
Definition wf (h : Header) : Prop :=
  (0 <= CreditCharge h < 2 ^ 16) /\ (0 <= Status h < 2 ^ 32) /\
  (0 <= Command h < 2 ^ 16) /\ (0 <= CreditResponse h < 2 ^ 16) /\
  (0 <= Flags h < 2 ^ 32) /\ (0 <= NextCommand h < 2 ^ 32) /\
  (0 <= MessageID h < 2 ^ 64) /\ (0 <= TreeID h < 2 ^ 32) /\
  (0 <= SessionID h < 2 ^ 64) /\ len (Signature h) = 16.

Definition DecodeHeader (b : bytes) : res Header :=
  if len b <? HeaderSize then Err ErrShortBuffer else
  p ← slice b 0 4;
  if negb (bool_decide (p = protocolID)) then Err ErrBadProtocolID else
  ss ← u16 b 4;
  if negb (ss =? headerStructureSize) then Err ErrBadStructureSize else
  cc ← u16 b 6;
  st ← u32 b 8;
  cmd ← u16 b 12;
  cr ← u16 b 14;
  fl ← u32 b 16;
  nc ← u32 b 20;
  mid ← u64 b 24;
  tid ← u32 b 36;
  sid ← u64 b 40;
  sig ← slice b 48 64;
  Ok (mkHeader cc st cmd cr fl nc mid tid sid sig).

Definition header_writes (h : Header) : list (Z * bytes) :=
  [(0, protocolID);
   (4, le16 headerStructureSize);
   (6, le16 (CreditCharge h));
   (8, le32 (Status h));
   (12, le16 (Command h));
   (14, le16 (CreditResponse h));
   (16, le32 (Flags h));
   (20, le32 (NextCommand h));
   (24, le64 (MessageID h));
   (32, le32 0);
   (36, le32 (TreeID h));
   (40, le64 (SessionID h));
   (48, Signature h)].

Definition EncodeHeader (out : bytes) (h : Header) : res bytes :=
  if len out <? HeaderSize then Err ErrShortBuffer else Ok (writes out (header_writes h)).

(** The async header: the AsyncId takes the place of Reserved and TreeId,
    and FlagAsyncCommand is forced on. *)
Definition async_writes (h : Header) (asyncID : Z) : list (Z * bytes) :=
  [(0, protocolID);
   (4, le16 headerStructureSize);
   (6, le16 (CreditCharge h));
   (8, le32 (Status h));
   (12, le16 (Command h));
   (14, le16 (CreditResponse h));
   (16, le32 (Z.lor (Flags h) FlagAsyncCommand));
   (20, le32 (NextCommand h));
   (24, le64 (MessageID h));
   (32, le64 asyncID);
   (40, le64 (SessionID h));
   (48, Signature h)].

Definition EncodeAsyncHeader (out : bytes) (h : Header) (asyncID : Z) : res bytes :=
  if len out <? HeaderSize then Err ErrShortBuffer else Ok (writes out (async_writes h asyncID)).

(** The AsyncId a client reads out of an async header. *)
Definition asyncID_of (b : bytes) : Z := le_combine (get b 32 8).

Lemma DecodeHeader_safe b : safe (DecodeHeader b).
Proof. unfold DecodeHeader, HeaderSize. nopanic. Qed.

Lemma len_protocolID : len protocolID = 4.
Proof. done. Qed.
#[local] Hint Rewrite len_protocolID : len.

Lemma header_fits h n : len (Signature h) = 16 -> 64 <= n -> fits n (header_writes h).
Proof. intros. fits_tac. Qed.

(** What [DecodeHeader] returns, field by field, on a well-formed buffer. *)
Lemma DecodeHeader_fields b :
  64 <= len b -> get b 0 4 = protocolID -> le_combine (get b 4 2) = headerStructureSize ->
  DecodeHeader b =
    Ok (mkHeader (le_combine (get b 6 2)) (le_combine (get b 8 4)) (le_combine (get b 12 2))
          (le_combine (get b 14 2)) (le_combine (get b 16 4)) (le_combine (get b 20 4))
          (le_combine (get b 24 8)) (le_combine (get b 36 4)) (le_combine (get b 40 8))
          (get b 48 16)).
Proof.
  intros Hb Hp Hs. unfold DecodeHeader, HeaderSize.
  destruct (Z.ltb_spec (len b) 64); [lia|]. rd.
  rewrite Hp, Hs, bool_decide_true by done. done.
Qed.

(** A header written into any buffer of at least 64 bytes is read back
    field for field, and the buffer keeps its length. *)
Theorem decode_encode (out : bytes) (h : Header) (b : bytes) :
  wf h -> EncodeHeader out h = Ok b -> DecodeHeader b = Ok h /\ len b = len out.
Proof.
  intros (? & ? & ? & ? & ? & ? & ? & ? & ? & Hs) He.
  unfold EncodeHeader, HeaderSize in He.
  destruct (Z.ltb_spec (len out) 64) as [|Hl]; [discriminate|]. injection He as <-.
  pose proof (header_fits h (len out) Hs Hl) as Hf.
  split; [|by apply len_writes].
  unfold header_writes in *.
  rewrite DecodeHeader_fields; [|by rewrite (len_writes _ _ (len out))|by wfield|by wfield].
  wfield. destruct h; simpl in *. do 2 f_equal; by fields.
Qed.

Lemma async_fits h a n : len (Signature h) = 16 -> 64 <= n -> fits n (async_writes h a).
Proof. intros. fits_tac. Qed.

(** An asynchronous response's header carries its AsyncId, the async flag and
    the request's MessageId, status, session and command. *)
Theorem decode_encode_async (out : bytes) (h : Header) (a : Z) (b : bytes) :
  wf h -> 0 <= a < 2 ^ 64 -> EncodeAsyncHeader out h a = Ok b ->
  exists h', DecodeHeader b = Ok h' /\ asyncID_of b = a /\
    Z.testbit (Flags h') 1 = true /\ MessageID h' = MessageID h /\
    Status h' = Status h /\ SessionID h' = SessionID h /\ Command h' = Command h.
Proof.
  intros (? & ? & ? & ? & Hfl & ? & ? & ? & ? & Hs) Ha He.
  unfold EncodeAsyncHeader, HeaderSize in He.
  destruct (Z.ltb_spec (len out) 64) as [|Hl]; [discriminate|]. injection He as <-.
  pose proof (async_fits h a (len out) Hs Hl) as Hf. unfold async_writes in *.
  rewrite DecodeHeader_fields; [|by rewrite (len_writes _ _ (len out))|by wfield|by wfield].
  eexists; split; [reflexivity|]. unfold asyncID_of. cbn [Flags MessageID Status SessionID Command].
  wfield. unfold FlagAsyncCommand. split_and!; [by fields| |by fields..].
  pose proof (lor_range 32 ltac:(lia) (Flags h) 0x2 Hfl ltac:(lia)).
  fields. by rewrite Z.lor_spec, orb_true_r.
Qed.

Lemma decode_encode_witness :
  let h := mkHeader 1 0 5 3 1 0 7 2 9 (zeros 16) in
  exists b, EncodeHeader (zeros 70) h = Ok b /\ DecodeHeader b = Ok h /\ len b = 70.
Proof.
  intros h. eexists. split; [reflexivity|].
  apply (decode_encode (zeros 70) h); [|reflexivity].
  unfold wf, h. simpl. unfold len. simpl. lia.
Defined.
End Header.
