(* ===== verification/Utf.v ===== *)
(** Go strings, UTF-8 and UTF-16: what the source uses of the language
    ([range] over a string, [string([]rune)]), of [unicode/utf8] and
    [unicode/utf16], and the name codecs built on them:
    [smb2/tree.go] and [parent/dispatch.go] [decodeUTF16LE],
    [smb2/change_notify.go] [utf16leNotify], [parent/dispatch.go]
    [utf16leName] and [utf16leLen], [ntlm/avpairs.go] [UTF16LE] and
    [ntlm/messages.go] [decodeUTF16LE].

    A Go string is the list of its bytes, a rune is a [Z]. *)

From S2P Require Import Prelude.

Definition RuneError : Z := 0xFFFD.

(** A Unicode scalar value. *)
Definition valid_rune (r : Z) : Prop := 0 <= r < 0xD800 \/ 0xE000 <= r <= 0x10FFFF.

Module Utf8.

Definition cont (v : Z) : Byte.byte := z2b (Z.lor 0x80 (Z.land v 0x3F)).

(** [utf8.AppendRune], also the bytes of [string([]rune{r})]. *)
Definition encode_rune (r : Z) : bytes :=
  if (0 <=? r) && (r <=? 0x7F) then [z2b r]
  else if (0 <=? r) && (r <=? 0x7FF) then [z2b (Z.lor 0xC0 (Z.shiftr r 6)); cont r]
  else if (r <? 0) || (0x10FFFF <? r) || ((0xD800 <=? r) && (r <=? 0xDFFF))
  then [Byte.xef; Byte.xbf; Byte.xbd]
  else if r <=? 0xFFFF
  then [z2b (Z.lor 0xE0 (Z.shiftr r 12)); cont (Z.shiftr r 6); cont r]
  else [z2b (Z.lor 0xF0 (Z.shiftr r 18)); cont (Z.shiftr r 12); cont (Z.shiftr r 6); cont r].

Definition is_cont (b : Z) : bool := (0x80 <=? b) && (b <=? 0xBF).
Definition between (lo b hi : Z) : bool := (lo <=? b) && (b <=? hi).

(** The accept range of the second byte for a lead byte. *)
Definition second_ok (b0 b1 : Z) : bool :=
  if b0 =? 0xE0 then between 0xA0 b1 0xBF
  else if b0 =? 0xED then between 0x80 b1 0x9F
  else if b0 =? 0xF0 then between 0x90 b1 0xBF
  else if b0 =? 0xF4 then between 0x80 b1 0x8F
  else is_cont b1.

(** [utf8.DecodeRuneInString] on a non-empty string: the rune and its size;
    [(RuneError, 1)] for a byte that starts no valid sequence. *)
Definition decode_rune (s : bytes) : Z * Z :=
  match s with
  | [] => (RuneError, 0)
  | c0 :: t =>
      let b0 := b2z c0 in
      if b0 <? 0x80 then (b0, 1)
      else if between 0xC2 b0 0xDF then
        match t with
        | c1 :: _ =>
            if is_cont (b2z c1)
            then (Z.lor (Z.shiftl (Z.land b0 0x1F) 6) (Z.land (b2z c1) 0x3F), 2)
            else (RuneError, 1)
        | _ => (RuneError, 1)
        end
      else if between 0xE0 b0 0xEF then
        match t with
        | c1 :: c2 :: _ =>
            if second_ok b0 (b2z c1) && is_cont (b2z c2)
            then (Z.lor (Z.lor (Z.shiftl (Z.land b0 0x0F) 12)
                               (Z.shiftl (Z.land (b2z c1) 0x3F) 6)) (Z.land (b2z c2) 0x3F), 3)
            else (RuneError, 1)
        | _ => (RuneError, 1)
        end
      else if between 0xF0 b0 0xF4 then
        match t with
        | c1 :: c2 :: c3 :: _ =>
            if second_ok b0 (b2z c1) && is_cont (b2z c2) && is_cont (b2z c3)
            then (Z.lor (Z.lor (Z.shiftl (Z.land b0 0x07) 18)
                               (Z.shiftl (Z.land (b2z c1) 0x3F) 12))
                        (Z.lor (Z.shiftl (Z.land (b2z c2) 0x3F) 6) (Z.land (b2z c3) 0x3F)), 4)
            else (RuneError, 1)
        | _ => (RuneError, 1)
        end
      else (RuneError, 1)
  end.

(** [for _, r := range s], [[]rune(s)].  Every step takes at least one byte,
    so [length s] steps are enough (see [runes_fuel]). *)
Fixpoint runes_fuel (fuel : nat) (s : bytes) : list Z :=
  match fuel, s with
  | S fuel, _ :: _ => let '(r, n) := decode_rune s in r :: runes_fuel fuel (drop (Z.to_nat n) s)
  | _, _ => []
  end.
Definition runes (s : bytes) : list Z := runes_fuel (length s) s.

(** [string([]rune)] *)
Definition encode (rs : list Z) : bytes := concat (map encode_rune rs).

Definition valid (s : bytes) : Prop := exists rs, Forall valid_rune rs /\ s = encode rs.

Lemma lor_add k a b c : c = a * 2 ^ k -> 0 <= k -> 0 <= b < 2 ^ k -> Z.lor c b = c + b.
Proof.
  intros -> Hk Hb. rewrite <- Z.shiftl_mul_pow2 by done. symmetry. apply Z.add_nocarry_lor.
  apply Z.bits_inj'; intros i Hi. rewrite Z.land_spec, Z.shiftl_spec, Z.bits_0 by done.
  destruct (Z.ltb_spec i k); [rewrite (Z.testbit_neg_r _ (i - k)) by lia; done|].
  rewrite (range_bits k Hk b) by lia. by rewrite andb_false_r.
Qed.

Lemma land_mod x k m : m = Z.ones k -> 0 <= k -> Z.land x m = x mod 2 ^ k.
Proof. intros ->. apply Z.land_ones. Qed.

Lemma b2z_z2b v : 0 <= v < 256 -> b2z (z2b v) = v.
Proof. intros. rewrite byte.unsigned_of_Z. apply Z.mod_small. done. Qed.

Lemma b2z_cont v : b2z (cont v) = 128 + v mod 64.
Proof.
  unfold cont. rewrite (land_mod v 6) by done. pose proof (Z.mod_pos_bound v 64 eq_refl).
  change (2 ^ 6) with 64. rewrite (lor_add 6 2) by (done || lia). apply b2z_z2b. lia.
Qed.

Lemma is_cont_cont v : is_cont (b2z (cont v)) = true.
Proof.
  rewrite b2z_cont. unfold is_cont. pose proof (Z.mod_pos_bound v 64 eq_refl).
  rewrite andb_true_iff, !Z.leb_le. lia.
Qed.

Lemma b2z_lead k c v : c = 2 * 2 ^ k * (c / (2 * 2 ^ k)) -> 0 <= k -> 0 <= v < 2 * 2 ^ k ->
  0 <= c + v < 256 -> b2z (z2b (Z.lor c v)) = c + v.
Proof.
  intros Hc Hk Hv Hr. rewrite (lor_add (k + 1) (c / (2 * 2 ^ k))); [by apply b2z_z2b| |lia|].
  all: rewrite Z.pow_add_r by lia; lia.
Qed.

Ltac pows := repeat match goal with
  | |- context [2 ^ ?k] => is_zconst k; let v := eval vm_compute in (2 ^ k) in change (2 ^ k) with v
  end.
Ltac dm := pows; Z.div_mod_to_equations; lia.
Ltac decide_tests :=
  repeat match goal with
    | |- context [?a <? ?b] => first
        [ replace (a <? b) with true by (symmetry; apply Z.ltb_lt; dm)
        | replace (a <? b) with false by (symmetry; apply Z.ltb_ge; dm) ]
    | |- context [?a <=? ?b] => first
        [ replace (a <=? b) with true by (symmetry; apply Z.leb_le; dm)
        | replace (a <=? b) with false by (symmetry; apply Z.leb_gt; dm) ]
    end; cbn [andb orb].

(** The three continuation shapes, as arithmetic. *)
Lemma encode_rune_1 r : 0 <= r < 0x80 -> encode_rune r = [z2b r].
Proof. intros. unfold encode_rune. by decide_tests. Qed.
Lemma encode_rune_2 r : 0x80 <= r < 0x800 -> encode_rune r = [z2b (Z.lor 0xC0 (Z.shiftr r 6)); cont r].
Proof. intros. unfold encode_rune. by decide_tests. Qed.
Lemma encode_rune_3 r : 0x800 <= r < 0x10000 -> (r < 0xD800 \/ 0xE000 <= r) ->
  encode_rune r = [z2b (Z.lor 0xE0 (Z.shiftr r 12)); cont (Z.shiftr r 6); cont r].
Proof. intros ? [?|?]; unfold encode_rune; by decide_tests. Qed.
Lemma encode_rune_4 r : 0x10000 <= r <= 0x10FFFF ->
  encode_rune r = [z2b (Z.lor 0xF0 (Z.shiftr r 18)); cont (Z.shiftr r 12); cont (Z.shiftr r 6); cont r].
Proof. intros. unfold encode_rune. by decide_tests. Qed.

Ltac lead1 k c := rewrite (b2z_lead k c) by (rewrite ?Z.shiftr_div_pow2 by lia; dm).
Ltac lead := first [lead1 4 0xC0 | lead1 3 0xE0 | lead1 2 0xF0].
Ltac masks :=
  rewrite ?(land_mod _ 6 0x3F), ?(land_mod _ 5 0x1F), ?(land_mod _ 4 0x0F), ?(land_mod _ 3 0x07) by done;
  rewrite ?Z.shiftl_mul_pow2, ?Z.shiftr_div_pow2 by lia.

Lemma decode_encode_rune r s :
  valid_rune r -> decode_rune (encode_rune r ++ s) = (r, len (encode_rune r)).
Proof.
  intros Hv. unfold valid_rune in Hv.
  destruct (Z.ltb_spec r 0x80); [|destruct (Z.ltb_spec r 0x800); [|destruct (Z.ltb_spec r 0x10000)]].
  - rewrite encode_rune_1 by lia. cbn [app decode_rune]. rewrite b2z_z2b by lia. by decide_tests.
  - rewrite encode_rune_2 by lia. cbn [app decode_rune]. lead. rewrite is_cont_cont, b2z_cont.
    unfold between. rewrite ?Z.shiftr_div_pow2 by lia. decide_tests. f_equal. masks.
    rewrite (lor_add 6 (r / 2 ^ 6)) by dm. dm.
  - rewrite encode_rune_3 by lia. cbn [app decode_rune]. lead. rewrite !is_cont_cont.
    assert (second_ok (224 + Z.shiftr r 12) (b2z (cont (Z.shiftr r 6))) = true) as ->.
    { unfold second_ok. rewrite is_cont_cont, b2z_cont, !Z.shiftr_div_pow2 by lia.
      unfold between. change (2 ^ 12) with 4096. change (2 ^ 6) with 64.
      destruct (Z.eqb_spec (224 + r / 4096) 0xE0); [decide_tests; done|].
      destruct (Z.eqb_spec (224 + r / 4096) 0xED); [decide_tests; done|].
      destruct (Z.eqb_spec (224 + r / 4096) 0xF0); [dm|].
      destruct (Z.eqb_spec (224 + r / 4096) 0xF4); [dm|done]. }
    rewrite !b2z_cont. unfold between. rewrite ?Z.shiftr_div_pow2 by lia. decide_tests. f_equal. masks.
    rewrite (lor_add 12 (r / 2 ^ 12) (_ * 2 ^ 6)) by dm. rewrite (lor_add 6 (r / 2 ^ 6)) by dm. dm.
  - rewrite encode_rune_4 by lia. cbn [app decode_rune]. lead. rewrite !is_cont_cont.
    assert (second_ok (240 + Z.shiftr r 18) (b2z (cont (Z.shiftr r 12))) = true) as ->.
    { unfold second_ok. rewrite is_cont_cont, b2z_cont, !Z.shiftr_div_pow2 by lia.
      unfold between. change (2 ^ 18) with 262144. change (2 ^ 12) with 4096.
      destruct (Z.eqb_spec (240 + r / 262144) 0xE0); [dm|].
      destruct (Z.eqb_spec (240 + r / 262144) 0xED); [dm|].
      destruct (Z.eqb_spec (240 + r / 262144) 0xF0); [decide_tests; done|].
      destruct (Z.eqb_spec (240 + r / 262144) 0xF4); [decide_tests; done|done]. }
    rewrite !b2z_cont. unfold between. rewrite ?Z.shiftr_div_pow2 by lia. decide_tests. f_equal. masks.
    rewrite (lor_add 18 (r / 2 ^ 18) (_ * 2 ^ 12)) by dm.
    rewrite (lor_add 6 (r / 2 ^ 6 mod 2 ^ 6) (_ mod 2 ^ 6)) by dm.
    rewrite (lor_add 12 (r / 2 ^ 12)) by dm. dm.
Qed.

Lemma len_encode_rune_pos r : 1 <= len (encode_rune r).
Proof. unfold encode_rune. repeat case_match; unfold len; simpl; lia. Qed.

Lemma decode_rune_size s : s <> [] -> 1 <= (decode_rune s).2 <= len s.
Proof.
  destruct s as [|c0 t]; [done|]. intros _. unfold decode_rune, len.
  repeat case_match; simpl; lia.
Qed.

Lemma runes_fuel_encode rs fuel :
  Forall valid_rune rs -> (length (encode rs) <= fuel)%nat -> runes_fuel fuel (encode rs) = rs.
Proof.
  intros Hv. revert fuel. induction Hv as [|r rs Hr _ IH]; intros fuel Hf.
  { by destruct fuel. }
  unfold encode in *. simpl in *. pose proof (len_encode_rune_pos r) as Hp.
  rewrite length_app in Hf. unfold len in Hp.
  destruct fuel as [|fuel]; [lia|]. cbn [runes_fuel].
  rewrite decode_encode_rune by done.
  destruct (encode_rune r ++ concat (map encode_rune rs)) as [|c t] eqn:E.
  { apply (f_equal length) in E. rewrite length_app in E. simpl in E. lia. }
  rewrite <- E. f_equal. unfold len. rewrite Nat2Z.id, drop_app_length. apply IH. lia.
Qed.

(** Ranging over [string(rs)] gives [rs] back. *)
Lemma runes_encode rs : Forall valid_rune rs -> runes (encode rs) = rs.
Proof. intros. by apply runes_fuel_encode. Qed.
End Utf8.

Module Utf16.

(** [utf16.Encode]: runes outside the BMP become surrogate pairs,
    surrogates and out-of-range runes U+FFFD. *)
Definition encode_rune (r : Z) : list Z :=
  if ((0 <=? r) && (r <? 0xD800)) || ((0xE000 <=? r) && (r <? 0x10000)) then [r]
  else if (0x10000 <=? r) && (r <=? 0x10FFFF)
  then [0xD800 + Z.land (Z.shiftr (r - 0x10000) 10) 0x3FF; 0xDC00 + Z.land (r - 0x10000) 0x3FF]
  else [RuneError].
Definition Encode (rs : list Z) : list Z := concat (map encode_rune rs).

Definition is_high (u : Z) : bool := (0xD800 <=? u) && (u <? 0xDC00).
Definition is_low (u : Z) : bool := (0xDC00 <=? u) && (u <? 0xE000).

(** [utf16.Decode]: a high surrogate followed by a low one is one rune, any
    other surrogate U+FFFD. *)
Fixpoint Decode (us : list Z) : list Z :=
  match us with
  | [] => []
  | u :: us' =>
      if (u <? 0xD800) || (0xE000 <=? u) then u :: Decode us'
      else match us' with
           | v :: us'' =>
               if is_high u && is_low v
               then Z.lor (Z.shiftl (u - 0xD800) 10) (v - 0xDC00) + 0x10000 :: Decode us''
               else RuneError :: Decode us'
           | [] => [RuneError]
           end
  end.

Lemma Decode_encode_rune r us : valid_rune r -> Decode (encode_rune r ++ us) = r :: Decode us.
Proof.
  intros Hv. unfold encode_rune, valid_rune in *.
  destruct (Z.ltb_spec r 0x10000).
  - replace ((0 <=? r) && (r <? 0xD800) || (0xE000 <=? r) && true) with true
      by (destruct (Z.leb_spec 0 r), (Z.ltb_spec r 0xD800), (Z.leb_spec 0xE000 r); simpl; lia).
    cbn [app Decode].
    replace ((r <? 0xD800) || (0xE000 <=? r)) with true
      by (destruct (Z.ltb_spec r 0xD800), (Z.leb_spec 0xE000 r); simpl; lia).
    done.
  - rewrite !andb_false_r. replace (0 <=? r) with true by lia. Utf8.decide_tests.
    rewrite !(Utf8.land_mod _ 10 0x3FF), !Z.shiftr_div_pow2 by done.
    change (2 ^ 10) with 1024. cbn [app Decode]. unfold is_high, is_low. Utf8.decide_tests.
    f_equal. rewrite Z.shiftl_mul_pow2 by lia.
    rewrite (Utf8.lor_add 10 ((r - 65536) / 1024 mod 1024)) by Utf8.dm. Utf8.dm.
Qed.

Lemma Decode_Encode rs : Forall valid_rune rs -> Decode (Encode rs) = rs.
Proof.
  induction 1 as [|r rs Hr _ IH]; [done|]. unfold Encode in *. simpl.
  by rewrite Decode_encode_rune, IH.
Qed.
End Utf16.

Module Names.

(** [b[i] | b[i+1]<<8] for every pair of bytes; an odd last byte is dropped. *)
Fixpoint units (b : bytes) : list Z :=
  match b with
  | b0 :: b1 :: b' => Z.lor (b2z b0) (Z.shiftl (b2z b1) 8) :: units b'
  | _ => []
  end.

(** [decodeUTF16LE] of the [smb2] and [parent] packages. *)
Definition decodeUTF16LE (b : bytes) : bytes := Utf8.encode (Utf16.Decode (units b)).

(** [decodeUTF16LE] of the [ntlm] package: every unit is a rune of its own. *)
Definition ntlm_decodeUTF16LE (b : bytes) : bytes := Utf8.encode (units b).

(** One rune in UTF-16LE, as [utf16leNotify], [utf16leName] and [UTF16LE]
    write it. *)
Definition rune16le (r : Z) : bytes :=
  if r <=? 0xFFFF then [z2b r; z2b (Z.shiftr r 8)]
  else let r' := r - 0x10000 in
       let hi := 0xD800 + Z.shiftr r' 10 in
       let lo := 0xDC00 + Z.land r' 0x3FF in
       [z2b hi; z2b (Z.shiftr hi 8); z2b lo; z2b (Z.shiftr lo 8)].

Definition utf16leName (s : bytes) : bytes := concat (map rune16le (Utf8.runes s)).
Definition utf16leNotify (s : bytes) : bytes := concat (map rune16le (Utf8.runes s)).
Definition UTF16LE (s : bytes) : bytes := concat (map rune16le (Utf8.runes s)).

(** [utf16leDomain]: [utf16.Encode([]rune(s))], little endian. *)
Definition utf16leDomain (s : bytes) : bytes := concat (map le16 (Utf16.Encode (Utf8.runes s))).

Definition utf16leLen (s : bytes) : Z :=
  fold_left (fun n r => if r <=? 0xFFFF then n + 2 else n + 4) (Utf8.runes s) 0.

Lemma unit_split u : 0 <= u < 0x10000 ->
  Z.lor (b2z (z2b u)) (Z.shiftl (b2z (z2b (Z.shiftr u 8))) 8) = u.
Proof.
  intros. rewrite !byte.unsigned_of_Z. unfold byte.wrap.
  rewrite Z.shiftr_div_pow2, Z.shiftl_mul_pow2, Z.lor_comm by lia.
  rewrite (Utf8.lor_add 8 ((u / 2 ^ 8) mod 2 ^ 8)) by Utf8.dm. Utf8.dm.
Qed.

Lemma units_rune16le r b : valid_rune r -> units (rune16le r ++ b) = Utf16.encode_rune r ++ units b.
Proof.
  intros Hv. unfold rune16le, Utf16.encode_rune, valid_rune in *.
  destruct (Z.leb_spec r 0xFFFF).
  - cbn [app units]. rewrite unit_split by lia.
    replace ((0 <=? r) && (r <? 0xD800) || (0xE000 <=? r) && (r <? 0x10000)) with true
      by (destruct (Z.leb_spec 0 r), (Z.ltb_spec r 0xD800), (Z.leb_spec 0xE000 r), (Z.ltb_spec r 0x10000); simpl; lia).
    done.
  - Utf8.decide_tests. cbn [app units].
    rewrite !(Utf8.land_mod _ 10 0x3FF), !(Z.shiftr_div_pow2 _ 10) by done.
    rewrite !unit_split by Utf8.dm.
    replace ((r - 0x10000) / 2 ^ 10 mod 2 ^ 10) with ((r - 0x10000) / 2 ^ 10) by Utf8.dm. done.
Qed.

Lemma units_runes16le rs : Forall valid_rune rs -> units (concat (map rune16le rs)) = Utf16.Encode rs.
Proof.
  induction 1 as [|r rs Hr _ IH]; [done|]. unfold Utf16.Encode in *. simpl.
  by rewrite units_rune16le, IH.
Qed.

Lemma decode_runes16le rs : Forall valid_rune rs ->
  decodeUTF16LE (concat (map rune16le rs)) = Utf8.encode rs.
Proof. intros. unfold decodeUTF16LE. by rewrite units_runes16le, Utf16.Decode_Encode. Qed.

(** A name sent to the client and sent back by it is the same name. *)
Theorem name_roundtrip (s : bytes) : Utf8.valid s -> decodeUTF16LE (utf16leName s) = s.
Proof.
  intros (rs & Hv & ->). unfold utf16leName. by rewrite Utf8.runes_encode, decode_runes16le.
Qed.

Lemma name_roundtrip_witness : decodeUTF16LE (utf16leName (Utf8.encode [0x66; 0xE9; 0x1F600])) = Utf8.encode [0x66; 0xE9; 0x1F600].
Proof.
  apply (name_roundtrip (Utf8.encode [0x66; 0xE9; 0x1F600])). eexists. split; [|reflexivity].
  repeat constructor; unfold valid_rune; lia.
Defined.

Lemma utf16leLen_acc rs n :
  fold_left (fun n r => if r <=? 0xFFFF then n + 2 else n + 4) rs n = n + len (concat (map rune16le rs)).
Proof.
  revert n. induction rs as [|r rs IH]; intros n; simpl; [rewrite len_nil; lia|].
  rewrite IH, len_app. unfold rune16le. destruct (Z.leb_spec r 0xFFFF); unfold len; simpl; lia.
Qed.

(** The size the directory enumerator reserves is the size it writes. *)
Theorem utf16leLen_spec (s : bytes) : utf16leLen s = len (utf16leName s).
Proof. unfold utf16leLen. by rewrite utf16leLen_acc. Qed.

(** The [ntlm] decoder does not recombine surrogate pairs: a user name with
    one rune outside the BMP does not survive it. *)
Theorem ntlm_decode_drops_surrogates :
  exists s, Utf8.valid s /\ decodeUTF16LE (UTF16LE s) = s /\ ntlm_decodeUTF16LE (UTF16LE s) <> s.
Proof.
  exists (Utf8.encode [0x1F600]). split; [|split; [by vm_compute|by vm_compute]].
  exists [0x1F600]. split; [|done]. apply Forall_singleton. unfold valid_rune. lia.
Qed.
End Names.
