(* ===== verification/Requests.v ===== *)
(** The fixed-layout SMB2 messages: the request decoders and the response
    encoders of [internal/smb2/] [close.go], [flush.go], [read.go],
    [write.go], [set_info.go], [query_info.go], [query_dir.go],
    [change_notify.go], [lock.go], [session.go], [tree.go], [ioctl.go], one
    Module per message.  A body is what follows the 64-byte header; offsets on
    the wire count from the start of the header. *)

From S2P Require Import Prelude Smb2 Utf.

Definition headerSize : Z := 64.

(** A response body that carries a buffer after [fixed] bytes of fields:
    [out := make([]byte, fixed+len(buf))], the fields, then
    [copy(out[fixed:], buf)]. *)
Definition with_buffer (fixed : Z) (ps : list (Z * bytes)) (buf : bytes) : bytes :=
  writes (zeros (fixed + len buf)) (ps ++ [(fixed, buf)]).

Lemma len_with_buffer fixed ps buf : fits fixed ps -> 0 <= fixed ->
  len (with_buffer fixed ps buf) = fixed + len buf.
Proof.
  intros Hf ?. pose proof (len_nonneg buf). apply len_writes; [|apply len_zeros; lia].
  apply Forall_app. split.
  - eapply Forall_impl; [exact Hf|]. simpl. lia.
  - apply Forall_singleton. simpl. lia.
Qed.

Lemma get_with_buffer fixed ps buf : fits fixed ps -> 0 <= fixed ->
  get (with_buffer fixed ps buf) fixed (len buf) = buf.
Proof.
  intros Hf ?. pose proof (len_nonneg buf). unfold with_buffer.
  apply (get_writes_at _ _ (length ps)); [| |done|].
  - rewrite lookup_app_r, Nat.sub_diag by lia. done.
  - rewrite len_zeros by lia. apply Forall_app. split.
    + eapply Forall_impl; [exact Hf|]. simpl. lia.
    + apply Forall_singleton. simpl. lia.
  - rewrite drop_ge; [by apply Forall_nil|]. rewrite length_app. simpl. lia.
Qed.

Module Close.
Definition CloseFlagPostQueryAttrib : Z := 0x0001.
Record CloseRequest := { Flags : Z; FileID : bytes }.

Definition DecodeCloseRequest (body : bytes) : res CloseRequest :=
  if len body <? 24 then Err ErrShortBuffer else
  ss ← u16 body 0;
  if negb (ss =? 24) then Err ErrBadStructureSize else
  fl ← u16 body 2;
  fid ← slice body 8 24;
  Ok {| Flags := fl; FileID := fid |}.

Record CloseResponse := {
  rFlags : Z; CreationTime : Z; LastAccessTime : Z; LastWriteTime : Z; ChangeTime : Z;
  AllocationSize : Z; EndOfFile : Z; FileAttributes : Z }.

Definition EncodeCloseResponse (r : CloseResponse) : bytes :=
  writes (zeros 60)
    [(0, le16 60); (2, le16 (rFlags r)); (8, le64 (CreationTime r));
     (16, le64 (LastAccessTime r)); (24, le64 (LastWriteTime r)); (32, le64 (ChangeTime r));
     (40, le64 (AllocationSize r)); (48, le64 (EndOfFile r)); (56, le32 (FileAttributes r))].
End Close.

Module Flush.
Record FlushRequest := { FileID : bytes }.

Definition DecodeFlushRequest (body : bytes) : res FlushRequest :=
  if len body <? 24 then Err ErrShortBuffer else
  ss ← u16 body 0;
  if negb (ss =? 24) then Err ErrBadStructureSize else
  fid ← slice body 8 24;
  Ok {| FileID := fid |}.

Definition EncodeFlushResponse : bytes := writes (zeros 4) [(0, le16 4)].
End Flush.

Module Read.
Record ReadRequest := { Length : Z; Offset : Z; FileID : bytes; MinimumCount : Z }.

Definition DecodeReadRequest (body : bytes) : res ReadRequest :=
  if len body <? 48 then Err ErrShortBuffer else
  ss ← u16 body 0;
  if negb (ss =? 49) then Err ErrBadStructureSize else
  l ← u32 body 4;
  off ← u64 body 8;
  mc ← u32 body 32;
  fid ← slice body 16 32;
  Ok {| Length := l; Offset := off; FileID := fid; MinimumCount := mc |}.

Definition fixed : Z := 16.
Definition EncodeReadResponse (data : bytes) : bytes :=
  with_buffer fixed [(0, le16 17); (2, le8 (headerSize + fixed)); (4, le32 (len data))] data.
End Read.

Module Write.
Record WriteRequest := { Length : Z; Offset : Z; FileID : bytes; Flags : Z; Data : bytes }.

Definition DecodeWriteRequest (body : bytes) : res WriteRequest :=
  if len body <? 48 then Err ErrShortBuffer else
  ss ← u16 body 0;
  if negb (ss =? 49) then Err ErrBadStructureSize else
  dataOffAbs ← u16 body 2;
  l ← u32 body 4;
  off ← u64 body 8;
  fl ← u32 body 44;
  fid ← slice body 16 32;
  if 0 <? l then
    let o := dataOffAbs - headerSize in
    if (o <? 0) || (len body <? o + l) then Err ErrShortBuffer else
    d ← slice body o (o + l);
    Ok {| Length := l; Offset := off; FileID := fid; Flags := fl; Data := d |}
  else Ok {| Length := l; Offset := off; FileID := fid; Flags := fl; Data := [] |}.

Definition EncodeWriteResponse (count : Z) : bytes :=
  writes (zeros 16) [(0, le16 17); (4, le32 count)].
End Write.

Module SetInfo.
Record SetInfoRequest := {
  InfoType : Z; FileInfoClass : Z; BufferLength : Z; AdditionalInfo : Z; FileID : bytes;
  Buffer : bytes }.

Definition DecodeSetInfoRequest (body : bytes) : res SetInfoRequest :=
  if len body <? 32 then Err ErrShortBuffer else
  ss ← u16 body 0;
  if negb (ss =? 33) then Err ErrBadStructureSize else
  it ← at8 body 2;
  ic ← at8 body 3;
  bl ← u32 body 4;
  ai ← u32 body 12;
  bufOffAbs ← u16 body 8;
  fid ← slice body 16 32;
  if 0 <? bl then
    let o := bufOffAbs - headerSize in
    if (o <? 0) || (len body <? o + bl) then Err ErrShortBuffer else
    d ← slice body o (o + bl);
    Ok {| InfoType := it; FileInfoClass := ic; BufferLength := bl; AdditionalInfo := ai;
          FileID := fid; Buffer := d |}
  else Ok {| InfoType := it; FileInfoClass := ic; BufferLength := bl; AdditionalInfo := ai;
             FileID := fid; Buffer := [] |}.

Definition EncodeSetInfoResponse : bytes := writes (zeros 2) [(0, le16 2)].
End SetInfo.

Module QueryInfo.
Record QueryInfoRequest := {
  InfoType : Z; FileInfoClass : Z; OutputBufferLen : Z; AdditionalInfo : Z; Flags : Z;
  FileID : bytes; InputBuffer : bytes }.

Definition DecodeQueryInfoRequest (body : bytes) : res QueryInfoRequest :=
  if len body <? 40 then Err ErrShortBuffer else
  ss ← u16 body 0;
  if negb (ss =? 41) then Err ErrBadStructureSize else
  it ← at8 body 2;
  ic ← at8 body 3;
  obl ← u32 body 4;
  ai ← u32 body 16;
  fl ← u32 body 20;
  fid ← slice body 24 40;
  inOffAbs ← u16 body 8;
  inLen ← u32 body 12;
  ib ← (if 0 <? inLen then
          let o := inOffAbs - headerSize in
          if (0 <=? o) && (o + inLen <=? len body) then slice body o (o + inLen) else Ok []
        else Ok []);
  Ok {| InfoType := it; FileInfoClass := ic; OutputBufferLen := obl; AdditionalInfo := ai;
        Flags := fl; FileID := fid; InputBuffer := ib |}.

Definition fixed : Z := 8.
(** The body of the QUERY_INFO response, and of the QUERY_DIRECTORY and
    CHANGE_NOTIFY ones. *)
Definition buffer_response (buf : bytes) : bytes :=
  with_buffer fixed
    ((0, le16 9) :: (if 0 <? len buf then [(2, le16 (headerSize + fixed)); (4, le32 (len buf))] else []))
    buf.
Definition EncodeQueryInfoResponse (buf : bytes) : bytes := buffer_response buf.
End QueryInfo.

Module QueryDir.
Record QueryDirectoryRequest := {
  FileInformationClass : Z; Flags : Z; FileIndex : Z; FileID : bytes;
  OutputBufferLength : Z; FileName : bytes }.

Definition DecodeQueryDirectoryRequest (body : bytes) : res QueryDirectoryRequest :=
  if len body <? 32 then Err ErrShortBuffer else
  ss ← u16 body 0;
  if negb (ss =? 33) then Err ErrBadStructureSize else
  ic ← at8 body 2;
  fl ← at8 body 3;
  fi ← u32 body 4;
  obl ← u32 body 28;
  fid ← slice body 8 24;
  nameOffAbs ← u16 body 24;
  nameLen ← u16 body 26;
  if 0 <? nameLen then
    let o := nameOffAbs - headerSize in
    if (o <? 0) || (len body <? o + nameLen) then Err ErrShortBuffer else
    d ← slice body o (o + nameLen);
    Ok {| FileInformationClass := ic; Flags := fl; FileIndex := fi; FileID := fid;
          OutputBufferLength := obl; FileName := Names.decodeUTF16LE d |}
  else Ok {| FileInformationClass := ic; Flags := fl; FileIndex := fi; FileID := fid;
             OutputBufferLength := obl; FileName := [] |}.

Definition EncodeQueryDirectoryResponse (buf : bytes) : bytes := QueryInfo.buffer_response buf.
End QueryDir.

Module Notify.
Record ChangeNotifyRequest := {
  Flags : Z; OutputBufferLength : Z; FileID : bytes; CompletionFilter : Z }.

Definition DecodeChangeNotifyRequest (body : bytes) : res ChangeNotifyRequest :=
  if len body <? 32 then Err ErrShortBuffer else
  ss ← u16 body 0;
  if negb (ss =? 32) then Err ErrBadStructureSize else
  fl ← u16 body 2;
  obl ← u32 body 4;
  fid ← slice body 8 24;
  cf ← u32 body 24;
  Ok {| Flags := fl; OutputBufferLength := obl; FileID := fid; CompletionFilter := cf |}.

Definition EncodeChangeNotifyResponse (buf : bytes) : bytes := QueryInfo.buffer_response buf.

Record NotifyEntry := { Action : Z; Name : bytes }.

Definition fixed : Z := 12.

(** One FILE_NOTIFY_INFORMATION record, NextEntryOffset still zero, padded
    to 4 bytes. *)
Definition notify_record (e : NotifyEntry) : bytes :=
  let nameU16 := Names.utf16leNotify (Name e) in
  let rec := writes (zeros (fixed + len nameU16))
               [(4, le32 (Action e)); (8, le32 (len nameU16)); (fixed, nameU16)] in
  if negb (len rec mod 4 =? 0) then rec ++ zeros (4 - len rec mod 4) else rec.

(** [starts] and [out] after the append loop. *)
Definition notify_append (acc : list Z * bytes) (e : NotifyEntry) : list Z * bytes :=
  let '(starts, out) := acc in (starts ++ [len out], out ++ notify_record e).

(** Patch NextEntryOffset on all records but the last. *)
Fixpoint notify_patch (starts : list Z) (out : bytes) : bytes :=
  match starts with
  | s :: (s' :: _) as rest => notify_patch rest (splice s (le32 (s' - s)) out)
  | _ => out
  end.

Definition EncodeFileNotifyInformation (entries : list NotifyEntry) : bytes :=
  match entries with
  | [] => []
  | _ => let '(starts, out) := fold_left notify_append entries ([], []) in notify_patch starts out
  end.
End Notify.

Module Lock.
Definition LockFlagSharedLock : Z := 0x00000001.
Definition LockFlagExclusiveLock : Z := 0x00000002.
Definition LockFlagUnlock : Z := 0x00000004.
Definition LockFlagFailImmediately : Z := 0x00000010.

Record LockElement := { Offset : Z; Length : Z; Flags : Z }.
Record LockRequest := { LockSequenceIndex : Z; FileID : bytes; Locks : list LockElement }.

(** The element at [24 + i*24], [n] of them. *)
Fixpoint decode_elements (body : bytes) (i : Z) (n : nat) : res (list LockElement) :=
  match n with
  | O => Ok []
  | S n =>
      let base := 24 + i * 24 in
      off ← u64 body base;
      l ← u64 body (base + 8);
      fl ← u32 body (base + 16);
      rest ← decode_elements body (i + 1) n;
      Ok ({| Offset := off; Length := l; Flags := fl |} :: rest)
  end.

Definition DecodeLockRequest (body : bytes) : res LockRequest :=
  if len body <? 48 then Err ErrShortBuffer else
  ss ← u16 body 0;
  if negb (ss =? 48) then Err ErrBadStructureSize else
  lockCount ← u16 body 2;
  seqNumIdx ← u32 body 4;
  fid ← slice body 8 24;
  if lockCount =? 0 then Err ErrInvalidParameter else
  let need := 24 + lockCount * 24 in
  if len body <? need then Err ErrShortBuffer else
  ls ← decode_elements body 0 (Z.to_nat lockCount);
  Ok {| LockSequenceIndex := seqNumIdx; FileID := fid; Locks := ls |}.

Definition EncodeLockResponse : bytes := writes (zeros 4) [(0, le16 4)].
End Lock.

Module SessionSetup.
Record SessionSetupRequest := {
  Flags : Z; SecurityMode : Z; Capabilities : Z; Channel : Z; PreviousSessionID : Z;
  SecurityBuffer : bytes }.

Definition DecodeSessionSetupRequest (body : bytes) : res SessionSetupRequest :=
  if len body <? 24 then Err ErrShortBuffer else
  ss ← u16 body 0;
  if negb (ss =? 25) then Err ErrBadStructureSize else
  fl ← at8 body 2;
  sm ← at8 body 3;
  cap ← u32 body 4;
  ch ← u32 body 8;
  secOffAbs ← u16 body 12;
  secLen ← u16 body 14;
  prev ← u64 body 16;
  if 0 <? secLen then
    let o := secOffAbs - headerSize in
    if (o <? 0) || (len body <? o + secLen) then Err ErrShortBuffer else
    d ← slice body o (o + secLen);
    Ok {| Flags := fl; SecurityMode := sm; Capabilities := cap; Channel := ch;
          PreviousSessionID := prev; SecurityBuffer := d |}
  else Ok {| Flags := fl; SecurityMode := sm; Capabilities := cap; Channel := ch;
             PreviousSessionID := prev; SecurityBuffer := [] |}.

Definition SessionFlagIsGuest : Z := 0x0001.
Definition SessionFlagIsNull : Z := 0x0002.
Definition SessionFlagEncryptData : Z := 0x0004.

Definition fixed : Z := 8.
Definition EncodeSessionSetupResponse (sessionFlags : Z) (buf : bytes) : bytes :=
  with_buffer fixed
    ([(0, le8 9); (2, le16 sessionFlags)] ++
     (if 0 <? len buf then [(4, le16 (headerSize + fixed)); (6, le16 (len buf))] else []))
    buf.
End SessionSetup.

Module Tree.
Definition ShareTypeDisk : Z := 0x01.
Definition ShareTypePipe : Z := 0x02.

Record TreeConnectRequest := { Flags : Z; Path : bytes }.

Definition DecodeTreeConnectRequest (body : bytes) : res TreeConnectRequest :=
  if len body <? 8 then Err ErrShortBuffer else
  ss ← u16 body 0;
  if negb (ss =? 9) then Err ErrBadStructureSize else
  fl ← u16 body 2;
  pathOffAbs ← u16 body 4;
  pathLen ← u16 body 6;
  let o := pathOffAbs - headerSize in
  if pathLen =? 0 then Ok {| Flags := fl; Path := [] |} else
  if (o <? 0) || (len body <? o + pathLen) then Err ErrShortBuffer else
  d ← slice body o (o + pathLen);
  Ok {| Flags := fl; Path := Names.decodeUTF16LE d |}.

Record TreeConnectResponse := {
  ShareType : Z; ShareFlags : Z; Capabilities : Z; MaximalAccess : Z }.

Definition EncodeTreeConnectResponse (r : TreeConnectResponse) : bytes :=
  writes (zeros 16)
    [(0, le16 16); (2, le8 (ShareType r)); (4, le32 (ShareFlags r));
     (8, le32 (Capabilities r)); (12, le32 (MaximalAccess r))].

Definition DecodeTreeDisconnectRequest (body : bytes) : res unit :=
  if len body <? 4 then Err ErrShortBuffer else
  ss ← u16 body 0;
  if negb (ss =? 4) then Err ErrBadStructureSize else Ok tt.

Definition EncodeTreeDisconnectResponse : bytes := [Byte.x04; Byte.x00; Byte.x00; Byte.x00].
End Tree.

Module Ioctl.
Definition FsctlValidateNegotiateInfo : Z := 0x00140204.
Definition FsctlPipeTransceive : Z := 0x0011C017.
Definition FsctlSrvCopyChunk : Z := 0x001440F2.
Definition FsctlSrvCopyChunkWrite : Z := 0x001480F2.
Definition FsctlSrvRequestResumeKey : Z := 0x00140078.

Record IoctlRequest := { CtlCode : Z; FileID : bytes; InputBuffer : bytes; Flags : Z }.

Definition DecodeIoctlRequest (body : bytes) : res IoctlRequest :=
  if len body <? 56 then Err ErrShortBuffer else
  ss ← u16 body 0;
  if negb (ss =? 57) then Err ErrBadStructureSize else
  cc ← u32 body 4;
  fid ← slice body 8 24;
  inOffAbs ← u32 body 24;
  inLen ← u32 body 28;
  fl ← u32 body 48;
  ib ← (if 0 <? inLen then
          let o := inOffAbs - headerSize in
          if (0 <=? o) && (o + inLen <=? len body) then slice body o (o + inLen) else Ok []
        else Ok []);
  Ok {| CtlCode := cc; FileID := fid; InputBuffer := ib; Flags := fl |}.

Definition fixed : Z := 48.
Definition EncodeIoctlResponse (ctlCode : Z) (fileID buf : bytes) (flags : Z) : bytes :=
  with_buffer fixed
    [(0, le16 49); (4, le32 ctlCode); (8, fileID); (24, le32 (headerSize + fixed));
     (32, le32 (headerSize + fixed)); (36, le32 (len buf)); (40, le32 flags)] buf.

Definition EncodeValidateNegotiateInfoResponse (caps : Z) (guid : bytes) (secMode dialect : Z) : bytes :=
  writes (zeros 24)
    [(0, le32 caps); (4, guid); (20, le16 secMode); (22, le16 dialect)].

Definition ResumeKeyLen : Z := 24.
Definition srvCopyChunkHeaderLen : Z := 32.
Definition srvCopyChunkEntryLen : Z := 24.

Definition EncodeResumeKeyResponse (key : bytes) : bytes := writes (zeros 32) [(0, key)].

Record SrvCopyChunk := { SourceOffset : Z; TargetOffset : Z; Length : Z }.
Record SrvCopyChunkCopy := { SourceKey : bytes; Chunks : list SrvCopyChunk }.

Fixpoint decode_chunks (b : bytes) (i : Z) (n : nat) : res (list SrvCopyChunk) :=
  match n with
  | O => Ok []
  | S n =>
      let off := srvCopyChunkHeaderLen + i * srvCopyChunkEntryLen in
      s ← u64 b off;
      t ← u64 b (off + 8);
      l ← u32 b (off + 16);
      rest ← decode_chunks b (i + 1) n;
      Ok ({| SourceOffset := s; TargetOffset := t; Length := l |} :: rest)
  end.

Definition DecodeSrvCopyChunkCopy (b : bytes) (maxChunks : Z) : res SrvCopyChunkCopy :=
  if len b <? srvCopyChunkHeaderLen then Err ErrShortBuffer else
  key ← slice b 0 ResumeKeyLen;
  count ← u32 b 24;
  if count =? 0 then Err ErrCopyChunkLimit else
  if maxChunks <? count then Err ErrCopyChunkLimit else
  let need := srvCopyChunkHeaderLen + count * srvCopyChunkEntryLen in
  if len b <? need then Err ErrShortBuffer else
  cs ← decode_chunks b 0 (Z.to_nat count);
  Ok {| SourceKey := key; Chunks := cs |}.

Definition EncodeSrvCopyChunkResponse (chunksWritten chunkBytesWritten totalBytesWritten : Z) : bytes :=
  writes (zeros 12)
    [(0, le32 chunksWritten); (4, le32 chunkBytesWritten); (8, le32 totalBytesWritten)].
End Ioctl.

(** ** No request body makes a decoder panic *)

Lemma decode_elements_safe body i n :
  0 <= i -> 24 + (i + Z.of_nat n) * 24 <= len body -> safe (Lock.decode_elements body i n).
Proof.
  revert i. induction n as [|n IH]; intros i Hi Hl; [done|]. cbn [Lock.decode_elements].
  do 3 (apply safe_bind; [nopanic|intros ? _]).
  apply safe_bind; [apply IH; lia|done].
Qed.

Lemma decode_chunks_safe b i n :
  0 <= i -> 32 + (i + Z.of_nat n) * 24 <= len b -> safe (Ioctl.decode_chunks b i n).
Proof.
  revert i. induction n as [|n IH]; intros i Hi Hl; [done|]. cbn [Ioctl.decode_chunks].
  unfold Ioctl.srvCopyChunkHeaderLen, Ioctl.srvCopyChunkEntryLen.
  do 3 (apply safe_bind; [nopanic|intros ? _]).
  apply safe_bind; [apply IH; lia|done].
Qed.

