(* ===== verification/LockRanges.v ===== *)
(** Byte-range locks: [internal/parent/lock_ranges.go], the decoding and the
    all-or-nothing application of a LOCK request in [lock.go], over the manager that
    decides by the table, [lock_darwin.go]; the Linux one is [Ofd]'s.

    An [*Open] is its identity, a [Z]; [uint64] arithmetic wraps at [2^64].
    [keyFor], the [fstat] that names the file behind a handle, is a parameter. *)

From S2P Require Import Prelude Smb2 Requests.

Definition fileKey : Type := Z * Z.

Module Locks.


Definition add64 (a b : Z) : Z := (a + b) mod 2 ^ 64.

Inductive lockKind := lockUnlock | lockShared | lockExclusive.

(** [errSys] is an error of the file system or of the kernel. *)
Inductive lockErr := errLockConflict | errLockLimit | errLockRange | errSys.

#[export] Instance lockKind_eq_dec : EqDecision lockKind.
Proof. solve_decision. Defined.
#[export] Instance lockErr_eq_dec : EqDecision lockErr.
Proof. solve_decision. Defined.

Record lockRange := mkRange { r_owner : Z; r_start : Z; r_length : Z; r_exclusive : bool }.

#[export] Instance lockRange_eq_dec : EqDecision lockRange.
Proof. solve_decision. Defined.

Definition kind (r : lockRange) : lockKind := if r_exclusive r then lockExclusive else lockShared.

Definition maxLockRangesPerFile : Z := 4096.
Definition maxLockRangesPerOwner : Z := 1024.

Definition rangeEnd (start length : Z) : Z :=
  let e := add64 start length in if e <? start then 2 ^ 64 - 1 else e.

Definition rangesOverlap (aStart aLen bStart bLen : Z) : bool :=
  if (aLen =? 0) || (bLen =? 0) then false
  else (aStart <? rangeEnd bStart bLen) && (bStart <? rangeEnd aStart aLen).

Definition sameRange (r : lockRange) (start length : Z) : bool :=
  (r_start r =? start) && (r_length r =? length).

(** ** The table *)

Record rangeTable := mkTable { locks : gmap fileKey (list lockRange); n : Z }.

Definition newRangeTable : rangeTable := mkTable ∅ 0.

(** [t.locks[key]]: a missing key reads as the nil slice. *)
Definition at_key (t : rangeTable) (key : fileKey) : list lockRange := default [] (locks t !! key).

(** The tail of [apply] and [releaseOwner]: an emptied key is deleted. *)
Definition store (t : rangeTable) (key : fileKey) (out : list lockRange) : gmap fileKey (list lockRange) :=
  match out with [] => delete key (locks t) | _ => <[key := out]> (locks t) end.

Fixpoint conflict_scan (rs : list lockRange) (owner start length : Z) (write : bool) : bool :=
  match rs with
  | [] => false
  | r :: rs =>
      if r_owner r =? owner then conflict_scan rs owner start length write
      else if negb (rangesOverlap start length (r_start r) (r_length r))
           then conflict_scan rs owner start length write
      else if write || r_exclusive r then true
      else conflict_scan rs owner start length write
  end.

Definition conflict (t : rangeTable) (key : fileKey) (owner start length : Z) (write : bool) : bool :=
  if length =? 0 then false else conflict_scan (at_key t key) owner start length write.

(** The scan of [apply] for a lock: [inl] is its early return, [inr] the count
    of the owner's ranges when the scan ends. *)
Fixpoint lock_scan (rs : list lockRange) (owner start length : Z) (exclusive : bool) (owned : Z)
    : (option lockErr) + Z :=
  match rs with
  | [] => inr owned
  | r :: rs =>
      if r_owner r =? owner then
        if sameRange r start length && Bool.eqb (r_exclusive r) exclusive then inl None
        else lock_scan rs owner start length exclusive (owned + 1)
      else if negb (rangesOverlap start length (r_start r) (r_length r))
           then lock_scan rs owner start length exclusive owned
      else if exclusive || r_exclusive r then inl (Some errLockConflict)
      else lock_scan rs owner start length exclusive owned
  end.

Definition unlocked (rs : list lockRange) (owner start length : Z) : list lockRange :=
  filter (fun r => negb ((r_owner r =? owner) && sameRange r start length) = true) rs.

Definition apply (t : rangeTable) (key : fileKey) (owner start length : Z) (k : lockKind)
    : rangeTable * option lockErr :=
  if length =? 0 then (t, None) else
  match k with
  | lockUnlock =>
      let ranges := at_key t key in
      let out := unlocked ranges owner start length in
      (mkTable (store t key out) (n t - (len ranges - len out)), None)
  | _ =>
      let exclusive := bool_decide (k = lockExclusive) in
      match lock_scan (at_key t key) owner start length exclusive 0 with
      | inl e => (t, e)
      | inr owned =>
          if (maxLockRangesPerFile <=? len (at_key t key)) || (maxLockRangesPerOwner <=? owned)
          then (t, Some errLockLimit)
          else (mkTable (<[key := at_key t key ++ [mkRange owner start length exclusive]]> (locks t))
                        (n t + 1), None)
      end
  end.

Definition releaseOwner (t : rangeTable) (key : fileKey) (owner : Z) : rangeTable :=
  let ranges := at_key t key in
  let out := filter (fun r => negb (r_owner r =? owner) = true) ranges in
  mkTable (store t key out) (n t - (len ranges - len out)).

Definition rangesDiff (a b : list lockRange) : list lockRange :=
  filter (fun r =>
    negb (existsb (fun o => sameRange o (r_start r) (r_length r) &&
                            Bool.eqb (r_exclusive o) (r_exclusive r)) b) = true) a.

(** ** The mutex-guarded table

    [n] is published outside the mutex.  A channel is a number: [released] is
    the one a waiter would park on, [closed] the ones that have been closed. *)

Record lockTable := mkLockTable {
  t : rangeTable; pub : Z; released : option nat; fresh : nat; closed : gset nat }.

Definition newLockTable : lockTable := mkLockTable newRangeTable 0 None 0 ∅.

Definition publish (l : lockTable) (t' : rangeTable) (before : Z) : lockTable :=
  if n t' <? before then
    match released l with
    | Some c => mkLockTable t' (n t') None (fresh l) ({[c]} ∪ closed l)
    | None => mkLockTable t' (n t') None (fresh l) (closed l)
    end
  else mkLockTable t' (n t') (released l) (fresh l) (closed l).

Definition lt_apply (l : lockTable) key owner start length k : lockTable * option lockErr :=
  let before := n (t l) in
  let '(t', e) := apply (t l) key owner start length k in
  (publish l t' before, e).

Definition lt_releaseOwner (l : lockTable) key owner : lockTable :=
  publish l (releaseOwner (t l) key owner) (n (t l)).

Definition empty (l : lockTable) : bool := pub l =? 0.

Definition lt_conflict (l : lockTable) key owner start length (write : bool) : bool :=
  if empty l then false else conflict (t l) key owner start length write.

Definition snapshot (l : lockTable) (key : fileKey) (owner : Z) : list lockRange :=
  filter (fun r => (r_owner r =? owner) = true) (at_key (t l) key).

Definition atCapacity (l : lockTable) (key : fileKey) (owner : Z) : bool :=
  let ranges := at_key (t l) key in
  if maxLockRangesPerFile <=? len ranges then true
  else maxLockRangesPerOwner <=? len (filter (fun r => (r_owner r =? owner) = true) ranges).

Definition releaseSignal (l : lockTable) : lockTable * nat :=
  match released l with
  | Some c => (l, c)
  | None => (mkLockTable (t l) (pub l) (Some (fresh l)) (S (fresh l)) (closed l), fresh l)
  end.

(** ** A LOCK request *)

Record lockOp := mkOp { el : Lock.LockElement; op_kind : lockKind }.

Definition has (flags bit : Z) : bool := negb (Z.land flags bit =? 0).

Definition blocking (o : lockOp) : bool :=
  negb (bool_decide (op_kind o = lockUnlock)) &&
  negb (has (Lock.Flags (el o)) Lock.LockFlagFailImmediately).

Fixpoint decodeLockOps (els : list Lock.LockElement) : option (list lockOp) :=
  match els with
  | [] => Some []
  | e :: els =>
      k ← (if has (Lock.Flags e) Lock.LockFlagUnlock then Some lockUnlock
           else if has (Lock.Flags e) Lock.LockFlagSharedLock then Some lockShared
           else if has (Lock.Flags e) Lock.LockFlagExclusiveLock then Some lockExclusive
           else None);
      if 2 ^ 63 - 1 <? Lock.Offset e then None else
      ops ← decodeLockOps els;
      Some (mkOp e k :: ops)
  end.

Definition lockStatus (e : lockErr) : Z :=
  match e with
  | errLockConflict => StatusLockNotGranted
  | errLockLimit => StatusInsufficientResources
  | errLockRange => StatusInvalidParameter
  | errSys => StatusInternalError
  end.

(** [flockRange]: [None] is [ok = false]. *)
Definition flockRange (offset length : Z) : option (Z * Z) :=
  if 2 ^ 63 - 1 <? offset then None else
  let e := add64 offset length in
  if (e <? offset) || (2 ^ 63 - 1 <? e) then Some (offset, 0) else Some (offset, length).

Section Manager.
(** [fstat] on the handle's descriptor. *)
Variable keyFor : Z -> option fileKey.

(** The darwin manager's [applyLock], [releaseAll] and [conflictsWith]. *)
Definition applyLock (m : lockTable) (open offset length : Z) (k : lockKind) : lockTable * option lockErr :=
  match keyFor open with
  | None => (m, Some errSys)
  | Some key => lt_apply m key open offset length k
  end.

Definition releaseAll (m : lockTable) (open : Z) : lockTable :=
  match keyFor open with None => m | Some key => lt_releaseOwner m key open end.

Definition conflictsWith (m : lockTable) (open offset length : Z) (write : bool) : bool :=
  if (length =? 0) || empty m then false else
  match keyFor open with
  | None => false
  | Some key => lt_conflict m key open offset length write
  end.

Definition snapshotRanges (m : lockTable) (open : Z) : list lockRange :=
  match keyFor open with None => [] | Some key => snapshot m key open end.

Definition restoreLocks (m : lockTable) (open : Z) (snap : list lockRange) : lockTable :=
  let m := fold_left (fun m r => (applyLock m open (r_start r) (r_length r) lockUnlock).1)
             (rangesDiff (snapshotRanges m open) snap) m in
  fold_left (fun m r => (applyLock m open (r_start r) (r_length r) (kind r)).1) snap m.

(** The loop of [applyLockOps] from element [i]; [multi] is [len(ops) > 1]. *)
Fixpoint apply_ops (m : lockTable) (open : Z) (multi : bool) (snap : list lockRange) (i : Z)
    (ops : list lockOp) : lockTable * Z * option lockErr :=
  match ops with
  | [] => (m, -1, None)
  | op :: ops =>
      match applyLock m open (Lock.Offset (el op)) (Lock.Length (el op)) (op_kind op) with
      | (m', Some e) => ((if multi then restoreLocks m' open snap else m'), i, Some e)
      | (m', None) => apply_ops m' open multi snap (i + 1) ops
      end
  end.

Definition applyLockOps (m : lockTable) (open : Z) (ops : list lockOp) : lockTable * Z * option lockErr :=
  let multi := 1 <? len ops in
  apply_ops m open multi (if multi then snapshotRanges m open else []) 0 ops.
End Manager.

(** ** Ranges as sets of bytes *)

Definition word64 (z : Z) : Prop := 0 <= z < 2 ^ 64.

(** Byte [p] is in [start, start+length), cut off at [2^64-1]. *)
Definition covers (start length p : Z) : Prop := start <= p < Z.min (start + length) (2 ^ 64 - 1).

Lemma rangeEnd_spec s l : word64 s -> word64 l -> rangeEnd s l = Z.min (s + l) (2 ^ 64 - 1).
Proof.
  unfold word64, rangeEnd, add64. intros.
  destruct (Z.ltb_spec (s + l) (2 ^ 64)) as [?|?].
  - rewrite Z.mod_small by lia. destruct (Z.ltb_spec (s + l) s); lia.
  - replace ((s + l) mod 2 ^ 64) with (s + l - 2 ^ 64) by (apply (Z.mod_unique_pos _ _ 1); lia).
    destruct (Z.ltb_spec (s + l - 2 ^ 64) s); lia.
Qed.

Lemma rangesOverlap_iff a al b bl : word64 a -> word64 al -> word64 b -> word64 bl ->
  rangesOverlap a al b bl = true <-> exists p, covers a al p /\ covers b bl p.
Proof.
  intros Ha Hal Hb Hbl. unfold rangesOverlap. rewrite !rangeEnd_spec by done.
  unfold covers, word64 in *. split.
  - destruct (Z.eqb_spec al 0), (Z.eqb_spec bl 0); [done..|]. simpl.
    rewrite andb_true_iff, !Z.ltb_lt. intros. exists (Z.max a b). lia.
  - intros (p & ? & ?). destruct (Z.eqb_spec al 0), (Z.eqb_spec bl 0); [lia..|]. simpl.
    rewrite andb_true_iff, !Z.ltb_lt. lia.
Qed.

Lemma rangesOverlap_sym a al b bl : rangesOverlap a al b bl = rangesOverlap b bl a al.
Proof. unfold rangesOverlap. rewrite (orb_comm (al =? 0)). destruct (_ || _); [done|]. apply andb_comm. Qed.

(** ** The invariant of the table *)

Definition rangeOverlap (a b : lockRange) : bool :=
  rangesOverlap (r_start a) (r_length a) (r_start b) (r_length b).

(** Two handles may share a byte only if both hold it shared. *)
Definition compatible (a b : lockRange) : Prop :=
  r_owner a <> r_owner b -> rangeOverlap a b = true -> r_exclusive a = false /\ r_exclusive b = false.

Definition own (o : Z) (rs : list lockRange) : list lockRange := filter (fun r => (r_owner r =? o) = true) rs.

Record good (rs : list lockRange) : Prop := {
  good_nodup : NoDup rs;
  good_compat : forall a b, a ∈ rs -> b ∈ rs -> compatible a b;
  good_word : forall a, a ∈ rs -> word64 (r_start a) /\ 0 < r_length a < 2 ^ 64;
  good_file : len rs <= maxLockRangesPerFile;
  good_owner : forall o, len (own o rs) <= maxLockRangesPerOwner }.

Definition total (m : gmap fileKey (list lockRange)) : Z := map_fold (fun _ l acc => len l + acc) 0 m.

Record Inv (t : rangeTable) : Prop := {
  inv_good : forall key rs, locks t !! key = Some rs -> rs <> [] /\ good rs;
  inv_n : n t = total (locks t) }.

Lemma total_insert m key l : m !! key = None -> total (<[key := l]> m) = len l + total m.
Proof.
  intros He. unfold total.
  rewrite (map_fold_insert_L (fun (_ : fileKey) (l : list lockRange) acc => len l + acc)); [done| |done].
  intros. lia.
Qed.

Lemma total_delete m key : total (delete key m) = total m - len (default [] (m !! key)).
Proof.
  destruct (m !! key) as [l|] eqn:He; simpl.
  - rewrite <- (insert_delete_id m key l He) at 2.
    rewrite total_insert by apply lookup_delete_eq. lia.
  - rewrite delete_id by done. rewrite len_nil. lia.
Qed.

Lemma total_replace m key l : total (<[key := l]> m) = total m - len (default [] (m !! key)) + len l.
Proof.
  rewrite <- insert_delete_eq, total_insert by apply lookup_delete_eq.
  rewrite total_delete. lia.
Qed.

(** [total] only depends on the lengths of the files' lists. *)
Definition same_lens (m m' : gmap fileKey (list lockRange)) : Prop :=
  forall key, len (default [] (m' !! key)) = len (default [] (m !! key)).

Lemma total_same_lens m m' : same_lens m m' -> total m' = total m.
Proof.
  assert (forall m, same_lens ∅ m -> total m = 0) as Hz.
  { clear. intros m. induction m as [|key l m Hk IH] using map_ind; intros Hl; [done|].
    rewrite total_insert by done. pose proof (Hl key) as Hlk.
    rewrite lookup_insert_eq, lookup_empty in Hlk. simpl in Hlk. rewrite len_nil in Hlk. rewrite IH; [lia|].
    intros key'. specialize (Hl key'). destruct (decide (key = key')) as [<-|]; [by rewrite Hk|].
    by rewrite lookup_insert_ne in Hl by done. }
  revert m'. induction m as [|key l m Hk IH] using map_ind; intros m' Hl; [by rewrite Hz|].
  pose proof (Hl key) as Hlk. rewrite lookup_insert_eq in Hlk. simpl in Hlk.
  rewrite total_insert by done. rewrite <- (IH (delete key m')), total_delete; [lia|].
  intros key'. specialize (Hl key'). destruct (decide (key = key')) as [<-|].
  - by rewrite lookup_delete_eq, Hk.
  - rewrite lookup_delete_ne by done. by rewrite lookup_insert_ne in Hl by done.
Qed.

Lemma total_store t key out : total (store t key out) = total (locks t) - len (at_key t key) + len out.
Proof.
  unfold store, at_key. destruct out; [rewrite total_delete, len_nil; lia|apply total_replace].
Qed.

Lemma store_eq t key out : default [] (store t key out !! key) = out.
Proof. unfold store. destruct out; [by rewrite lookup_delete_eq|by rewrite lookup_insert_eq]. Qed.

Lemma store_ne t key key' out : key <> key' -> store t key out !! key' = locks t !! key'.
Proof. intros. unfold store. destruct out; [by rewrite lookup_delete_ne|by rewrite lookup_insert_ne]. Qed.

Lemma store_Some t key out rs : store t key out !! key = Some rs -> rs = out /\ out <> [].
Proof.
  unfold store. destruct out; [by rewrite lookup_delete_eq|].
  rewrite lookup_insert_eq. by intros [= <-].
Qed.

Lemma good_nil : good [].
Proof.
  split; [apply NoDup_nil_2| | |done|done].
  - intros ? ? Ha. by apply not_elem_of_nil in Ha.
  - intros ? Ha. by apply not_elem_of_nil in Ha.
Qed.

Lemma inv_at_key t key : Inv t -> good (at_key t key).
Proof.
  intros Hi. unfold at_key. destruct (locks t !! key) eqn:He; simpl; [|apply good_nil].
  by apply (inv_good t Hi) in He as [_ ?].
Qed.

Lemma len_sublist_filter {A} (P : A -> Prop) `{!forall x, Decision (P x)} l : len (filter P l) <= len l.
Proof. unfold len. pose proof (length_filter P l). lia. Qed.

Lemma good_filter (P : lockRange -> Prop) `{!forall x, Decision (P x)} rs : good rs -> good (filter P rs).
Proof.
  intros [Hnd Hc Hw Hf Ho]. split.
  - by apply NoDup_filter.
  - intros a b Ha Hb. apply list_elem_of_filter in Ha as [_ ?], Hb as [_ ?]. by apply Hc.
  - intros a Ha. apply list_elem_of_filter in Ha as [_ ?]. by apply Hw.
  - pose proof (len_sublist_filter P rs). lia.
  - intros o. specialize (Ho o). unfold own in *.
    pose proof (len_sublist_filter P (filter (fun r => (r_owner r =? o) = true) rs)) as Hl.
    rewrite list_filter_filter in Hl.
    rewrite list_filter_filter.
    rewrite (list_filter_iff _ (fun x => P x /\ (r_owner x =? o) = true)); [lia|]. tauto.
Qed.

Lemma Inv_store t key out :
  Inv t -> good out -> Inv (mkTable (store t key out) (n t - (len (at_key t key) - len out))).
Proof.
  intros [Hg Hn] Ho. split; simpl.
  - intros key' rs He. destruct (decide (key = key')) as [<-|Hne].
    + by apply store_Some in He as [-> ?].
    + rewrite store_ne in He by done. by apply Hg in He.
  - rewrite total_store. lia.
Qed.

Lemma filter_true {A} (l : list A) : filter (fun _ => True) l = l.
Proof. induction l as [|x l IH]; [done|]. by rewrite filter_cons_True, IH. Qed.

Lemma filter_keep_le rs (P : lockRange -> Prop) `{!forall x, Decision (P x)} r :
  NoDup rs -> r ∈ rs -> ~ P r -> len (filter P rs) + 1 <= len rs.
Proof.
  intros Hnd Hr Hp. assert (r :: filter P rs ⊆+ rs) as Hs.
  { apply NoDup_submseteq.
    - apply NoDup_cons. split; [|by apply NoDup_filter].
      intros Hin. by apply list_elem_of_filter in Hin as [? _].
    - intros x Hx. apply elem_of_cons in Hx as [->|Hx]; [done|].
      by apply list_elem_of_filter in Hx as [_ ?]. }
  apply submseteq_length in Hs. unfold len. simpl in Hs. lia.
Qed.

(** ** What one [apply] does *)

Lemma unlocked_spec rs o s l r :
  r ∈ unlocked rs o s l <-> r ∈ rs /\ ~ (r_owner r = o /\ sameRange r s l = true).
Proof.
  unfold unlocked. rewrite list_elem_of_filter.
  destruct (Z.eqb_spec (r_owner r) o), (sameRange r s l); simpl; intuition congruence.
Qed.

Lemma sameRange_spec r s l : sameRange r s l = true <-> r_start r = s /\ r_length r = l.
Proof. unfold sameRange. by rewrite andb_true_iff, !Z.eqb_eq. Qed.

Inductive scan_spec (rs : list lockRange) (o s l : Z) (ex : bool) (c : Z) : option lockErr + Z -> Prop :=
  | scan_held : mkRange o s l ex ∈ rs -> scan_spec rs o s l ex c (inl None)
  | scan_conflict r : r ∈ rs -> r_owner r <> o -> rangesOverlap s l (r_start r) (r_length r) = true ->
      ex || r_exclusive r = true -> scan_spec rs o s l ex c (inl (Some errLockConflict))
  | scan_end : mkRange o s l ex ∉ rs ->
      (forall r, r ∈ rs -> r_owner r <> o -> rangesOverlap s l (r_start r) (r_length r) = true ->
         ex || r_exclusive r = false) ->
      scan_spec rs o s l ex c (inr (c + len (own o rs))).

Lemma lock_scan_spec rs o s l ex c : scan_spec rs o s l ex c (lock_scan rs o s l ex c).
Proof.
  revert c. induction rs as [|r rs IH]; intros c; cbn [lock_scan].
  { rewrite <- (Z.add_0_r c) at 2. apply scan_end.
    - apply not_elem_of_nil.
    - intros r Hr. by apply not_elem_of_nil in Hr. }
  assert (forall b, (r_owner r =? o) = b -> own o (r :: rs) = if b then r :: own o rs else own o rs) as Hown.
  { intros b Hb. unfold own. rewrite filter_cons, Hb. by destruct b. }
  destruct (Z.eqb_spec (r_owner r) o) as [Ho|Ho].
  - destruct (sameRange r s l && eqb (r_exclusive r) ex) eqn:Hs.
    + apply andb_true_iff in Hs as [Hs He]. apply sameRange_spec in Hs as [? ?].
      apply eqb_prop in He. apply scan_held. apply elem_of_cons. left. destruct r; simpl in *. by subst.
    + specialize (IH (c + 1)). inversion IH as [Hh Hd|r' Hr' ? ? ? Hd|Hn Hc Hd].
      * apply scan_held. by apply elem_of_cons; right.
      * apply (scan_conflict _ _ _ _ _ _ r'); [by apply elem_of_cons; right|done..].
      * replace (c + 1 + len (own o rs)) with (c + len (own o (r :: rs)))
          by (rewrite (Hown true eq_refl), len_cons; lia).
        apply scan_end.
        -- rewrite not_elem_of_cons. split; [|done]. intros <-. unfold sameRange in Hs. simpl in Hs.
           by rewrite !Z.eqb_refl, eqb_reflx in Hs.
        -- intros r' Hr'. apply elem_of_cons in Hr' as [->|Hr']; [done|by apply Hc].
  - assert (forall c r', scan_spec rs o s l ex c (inl r') -> scan_spec (r :: rs) o s l ex c (inl r')) as Hl.
    { intros c' r' Hr. inversion Hr; subst; [apply scan_held|eapply scan_conflict; [|done..]];
        by apply elem_of_cons; right. }
    assert (rangesOverlap s l (r_start r) (r_length r) = false \/ ex || r_exclusive r = false ->
      scan_spec (r :: rs) o s l ex c (lock_scan rs o s l ex c)) as Hskip.
    { intros Hor. specialize (IH c). inversion IH as [Hh Hd|r' Hr' ? ? ? Hd|Hn Hc Hd].
      - apply Hl. by rewrite Hd.
      - apply Hl. by rewrite Hd.
      - replace (own o rs) with (own o (r :: rs)) by apply (Hown false eq_refl).
        apply scan_end.
        + rewrite not_elem_of_cons. split; [|done]. by intros <-.
        + intros r' Hr' Hne Hov. apply elem_of_cons in Hr' as [->|Hr']; [|by apply Hc].
          destruct Hor; congruence. }
    destruct (rangesOverlap s l (r_start r) (r_length r)) eqn:Hov; simpl; [|auto].
    destruct (ex || r_exclusive r) eqn:Hex; [|auto].
    apply (scan_conflict _ _ _ _ _ _ r); [by apply elem_of_cons; left|done..].
Qed.

Lemma good_grant rs o s l ex :
  good rs -> word64 s -> 0 < l < 2 ^ 64 -> mkRange o s l ex ∉ rs ->
  (forall r, r ∈ rs -> r_owner r <> o -> rangesOverlap s l (r_start r) (r_length r) = true ->
     ex || r_exclusive r = false) ->
  len rs < maxLockRangesPerFile -> len (own o rs) < maxLockRangesPerOwner ->
  good (rs ++ [mkRange o s l ex]).
Proof.
  intros [Hnd Hc Hw Hf Ho] Hs Hl Hn Hok Hcf Hco.
  assert (forall r, r ∈ rs -> compatible r (mkRange o s l ex) /\ compatible (mkRange o s l ex) r) as Hnew.
  { intros r Hr. unfold compatible, rangeOverlap. simpl.
    rewrite (rangesOverlap_sym (r_start r)).
    split; intros Hne Hov; (assert (ex || r_exclusive r = false) as Hx by (apply Hok; congruence));
      by apply orb_false_iff in Hx as [-> ->]. }
  split.
  - apply NoDup_app. split; [done|]. split; [|apply NoDup_singleton].
    intros r Hr Hin. apply list_elem_of_singleton in Hin as ->. done.
  - intros a b Ha Hb. apply elem_of_app in Ha as [Ha|Ha], Hb as [Hb|Hb];
      try apply list_elem_of_singleton in Ha as ->; try apply list_elem_of_singleton in Hb as ->;
      [by apply Hc|by apply Hnew|by apply Hnew|]. by intros ?.
  - intros a Ha. apply elem_of_app in Ha as [Ha|Ha]; [by apply Hw|].
    by apply list_elem_of_singleton in Ha as ->.
  - rewrite len_app, len_cons, len_nil. lia.
  - intros o'. unfold own. rewrite filter_app, len_app, filter_cons, filter_nil. simpl.
    destruct (Z.eqb_spec o o') as [->|?]; simpl.
    + rewrite len_cons, len_nil. unfold own in Hco. lia.
    + rewrite len_nil. specialize (Ho o'). unfold own in Ho. lia.
Qed.

(** A request outside the key leaves the key alone. *)
Lemma apply_ne t key o s l k key' : key <> key' -> locks (apply t key o s l k).1 !! key' = locks t !! key'.
Proof.
  intros Hne. unfold apply. destruct (l =? 0); [done|].
  destruct k; [by apply store_ne|..];
    (destruct (lock_scan _ _ _ _ _ _); [done|]; destruct (_ || _); [done|]; by apply lookup_insert_ne).
Qed.

Lemma at_key_ext t t' key : locks t !! key = locks t' !! key -> at_key t key = at_key t' key.
Proof. unfold at_key. by intros ->. Qed.

(** The cases of [apply] on a non-empty range. *)
Inductive apply_spec (t : rangeTable) (key : fileKey) (o s l : Z) : lockKind -> rangeTable * option lockErr -> Prop :=
  | apply_unlock t' : (forall r, r ∈ at_key t' key <->
        r ∈ at_key t key /\ ~ (r_owner r = o /\ sameRange r s l = true)) ->
      apply_spec t key o s l lockUnlock (t', None)
  | apply_held k : k <> lockUnlock -> mkRange o s l (bool_decide (k = lockExclusive)) ∈ at_key t key ->
      apply_spec t key o s l k (t, None)
  | apply_grant k t' : k <> lockUnlock -> mkRange o s l (bool_decide (k = lockExclusive)) ∉ at_key t key ->
      at_key t' key = at_key t key ++ [mkRange o s l (bool_decide (k = lockExclusive))] ->
      n t' = n t + 1 ->
      apply_spec t key o s l k (t', None)
  | apply_conflict k r : k <> lockUnlock -> r ∈ at_key t key -> r_owner r <> o ->
      rangesOverlap s l (r_start r) (r_length r) = true ->
      bool_decide (k = lockExclusive) || r_exclusive r = true ->
      apply_spec t key o s l k (t, Some errLockConflict)
  | apply_limit k : k <> lockUnlock -> mkRange o s l (bool_decide (k = lockExclusive)) ∉ at_key t key ->
      (maxLockRangesPerFile <= len (at_key t key) \/ maxLockRangesPerOwner <= len (own o (at_key t key))) ->
      apply_spec t key o s l k (t, Some errLockLimit).

Lemma apply_cases t key o s l k : l <> 0 -> apply_spec t key o s l k (apply t key o s l k).
Proof.
  intros Hl. unfold apply. destruct (Z.eqb_spec l 0) as [|_]; [done|].
  destruct (decide (k = lockUnlock)) as [->|Hk].
  { apply apply_unlock. intros r. unfold at_key at 1. simpl. by rewrite store_eq, unlocked_spec. }
  assert (apply_spec t key o s l k
    (let exclusive := bool_decide (k = lockExclusive) in
     match lock_scan (at_key t key) o s l exclusive 0 with
     | inl e => (t, e)
     | inr owned =>
         if (maxLockRangesPerFile <=? len (at_key t key)) || (maxLockRangesPerOwner <=? owned)
         then (t, Some errLockLimit)
         else (mkTable (<[key := at_key t key ++ [mkRange o s l exclusive]]> (locks t)) (n t + 1), None)
     end)); [|by destruct k].
  cbv zeta. destruct (lock_scan_spec (at_key t key) o s l (bool_decide (k = lockExclusive)) 0)
    as [Hh|r Hr Ho Hov Hx|Hn Hc].
  - by apply apply_held.
  - by apply (apply_conflict _ _ _ _ _ _ r).
  - destruct (Z.leb_spec maxLockRangesPerFile (len (at_key t key))); simpl; [apply apply_limit; [done|done|by left]|].
    destruct (Z.leb_spec maxLockRangesPerOwner (0 + len (own o (at_key t key)))); [apply apply_limit; [done|done|right; lia]|].
    apply apply_grant; [done..| |done]. unfold at_key at 1. simpl. by rewrite lookup_insert_eq.
Qed.

Lemma apply_Inv t key o s l k : Inv t -> word64 s -> word64 l -> Inv (apply t key o s l k).1.
Proof.
  intros Hi Hs Hl. pose proof (inv_at_key t key Hi) as Hg. unfold apply.
  destruct (Z.eqb_spec l 0) as [|Hl0]; [done|].
  assert (forall ex, Inv (match lock_scan (at_key t key) o s l ex 0 with
     | inl e => (t, e)
     | inr owned =>
         if (maxLockRangesPerFile <=? len (at_key t key)) || (maxLockRangesPerOwner <=? owned)
         then (t, Some errLockLimit)
         else (mkTable (<[key := at_key t key ++ [mkRange o s l ex]]> (locks t)) (n t + 1), None)
     end).1) as Hlock.
  { intros ex. destruct (lock_scan_spec (at_key t key) o s l ex 0) as [|r|Hn Hc]; [done..|]. rewrite Z.add_0_l.
    destruct (Z.leb_spec maxLockRangesPerFile (len (at_key t key))); [done|]. rewrite orb_false_l.
    destruct (Z.leb_spec maxLockRangesPerOwner (len (own o (at_key t key)))); simpl; [done|].
    assert (good (at_key t key ++ [mkRange o s l ex])) as Hg'.
    { apply good_grant; [done|done|unfold word64 in *; lia|done..]. }
    destruct Hi as [Hgi Hni]. split; simpl.
    - intros key' rs He. destruct (decide (key = key')) as [<-|Hne].
      + rewrite lookup_insert_eq in He. injection He as <-. split; [|done].
        intros Hnil. by apply app_eq_nil in Hnil as [_ ?].
      + rewrite lookup_insert_ne in He by done. by apply Hgi in He.
    - rewrite total_replace, len_app, len_cons, len_nil. unfold at_key. lia. }
  destruct k; [|by apply Hlock..]. simpl. apply Inv_store; [done|]. by apply good_filter.
Qed.

Lemma releaseOwner_Inv t key o : Inv t -> Inv (releaseOwner t key o).
Proof. intros Hi. apply Inv_store; [done|]. apply good_filter. by apply inv_at_key. Qed.

(** ** The guarded table: reachable states *)

Inductive step (l : lockTable) : lockTable -> Prop :=
  | step_apply key o s len k : word64 s -> word64 len -> step l (lt_apply l key o s len k).1
  | step_release key o : step l (lt_releaseOwner l key o)
  | step_signal : step l (releaseSignal l).1.

Definition steps : relation lockTable := rtc step.

Definition reachable (l : lockTable) : Prop := steps newLockTable l.

Record LInv (l : lockTable) : Prop := {
  linv_t : Inv (t l);
  linv_pub : pub l = n (t l);
  linv_released : forall c, released l = Some c -> (c < fresh l)%nat /\ c ∉ closed l;
  linv_closed : forall c, c ∈ closed l -> (c < fresh l)%nat }.

Lemma publish_t l t' b : t (publish l t' b) = t'.
Proof. unfold publish. destruct (_ <? _), (released l); done. Qed.

Lemma lt_apply_t l key o s len k :
  t (lt_apply l key o s len k).1 = (apply (t l) key o s len k).1 /\
  (lt_apply l key o s len k).2 = (apply (t l) key o s len k).2.
Proof. unfold lt_apply. destruct (apply _ _ _ _ _ _). simpl. by rewrite publish_t. Qed.

Lemma publish_LInv l t' b : LInv l -> Inv t' -> LInv (publish l t' b).
Proof.
  intros [_ _ Hr Hc] Ht. unfold publish. destruct (n t' <? b), (released l) as [c|] eqn:Hrel; split; simpl; auto; try done.
  destruct (Hr c eq_refl). intros c' Hc'. apply elem_of_union in Hc' as [->%elem_of_singleton|?]; auto.
Qed.

Lemma step_LInv l l' : LInv l -> step l l' -> LInv l'.
Proof.
  intros Hl Hs. destruct Hs as [key o s len k Hs Hlen|key o|].
  - pose proof (apply_Inv (t l) key o s len k (linv_t l Hl) Hs Hlen) as Hi.
    unfold lt_apply. destruct (apply _ _ _ _ _ _) as [t' e]. by apply publish_LInv.
  - apply publish_LInv; [done|]. apply releaseOwner_Inv. by apply linv_t.
  - unfold releaseSignal. destruct (released l) eqn:Hr; [done|]. destruct Hl as [? ? Hrel Hc].
    split; simpl; [done|done| |].
    + intros c [= <-]. split; [lia|]. intros Hin. apply Hc in Hin. lia.
    + intros c Hin. apply Hc in Hin. lia.
Qed.

Lemma Inv_new : Inv newRangeTable.
Proof. split; [|done]. intros key rs He. simpl in He. by rewrite lookup_empty in He. Qed.

Lemma LInv_new : LInv newLockTable.
Proof. split; simpl; [apply Inv_new|done|done|]. intros c Hc. by apply not_elem_of_empty in Hc. Qed.

Lemma steps_LInv l l' : steps l l' -> LInv l -> LInv l'.
Proof. induction 1 as [|l1 l2 l3 Hs _ IH]; [done|]. intros Hl. apply IH. by apply (step_LInv l1). Qed.

Lemma reachable_LInv l : reachable l -> LInv l.
Proof. intros Hr. by apply (steps_LInv _ _ Hr), LInv_new. Qed.

(** C4: In every state the lock table can reach, whatever the interleaving of
    LOCK, UNLOCK, handle release and waits: the published counter is the number
    of tracked ranges, the caps hold, and if two handles hold ranges that share
    a byte of the same file then both hold it shared. *)
Theorem locks_exclusive (l : lockTable) (key : fileKey) (a b : lockRange) (p : Z) :
  reachable l -> a ∈ at_key (t l) key -> b ∈ at_key (t l) key ->
  pub l = total (locks (t l)) /\ len (at_key (t l) key) <= maxLockRangesPerFile /\
  len (snapshot l key (r_owner a)) <= maxLockRangesPerOwner /\
  (r_owner a <> r_owner b -> covers (r_start a) (r_length a) p -> covers (r_start b) (r_length b) p ->
   r_exclusive a = false /\ r_exclusive b = false).
Proof.
  intros Hr Ha Hb. apply reachable_LInv in Hr as [Hi Hp _ _].
  pose proof (inv_at_key _ key Hi) as Hg. split_and!.
  - by rewrite Hp, (inv_n _ Hi).
  - apply (good_file _ Hg).
  - apply (good_owner _ Hg).
  - intros Hne Hca Hcb. apply (good_compat _ Hg a b Ha Hb Hne).
    apply (good_word _ Hg) in Ha, Hb. apply rangesOverlap_iff; unfold word64 in *; [lia..|eauto].
Qed.

Lemma conflict_scan_existsb rs o s l w :
  conflict_scan rs o s l w =
  existsb (fun r => negb (r_owner r =? o) && (rangesOverlap s l (r_start r) (r_length r) && (w || r_exclusive r))) rs.
Proof.
  induction rs as [|r rs IH]; simpl; [done|]. rewrite <- IH.
  destruct (r_owner r =? o), (rangesOverlap s l (r_start r) (r_length r)), (w || r_exclusive r); done.
Qed.

Lemma conflict_scan_iff rs o s l w :
  conflict_scan rs o s l w = true <->
  exists r, r ∈ rs /\ r_owner r <> o /\ rangesOverlap s l (r_start r) (r_length r) = true /\
    w || r_exclusive r = true.
Proof.
  rewrite conflict_scan_existsb, existsb_exists.
  by setoid_rewrite andb_true_iff; setoid_rewrite andb_true_iff; setoid_rewrite negb_true_iff;
    setoid_rewrite Z.eqb_neq; setoid_rewrite <- list_elem_of_In.
Qed.

Lemma total_nonneg m : 0 <= total m.
Proof.
  induction m as [|key l m Hk IH] using map_ind; [done|]. rewrite total_insert by done.
  pose proof (len_nonneg l). lia.
Qed.

Lemma total_zero t key : Inv t -> n t = 0 -> at_key t key = [].
Proof.
  intros [_ Hn] Hz. rewrite Hn in Hz. pose proof (total_delete (locks t) key) as Hd.
  pose proof (total_nonneg (delete key (locks t))). fold (at_key t key) in Hd.
  apply len_zero. pose proof (len_nonneg (at_key t key)). lia.
Qed.

(** The check every READ and WRITE makes, lock-free fast path included,
    answers exactly whether some byte of the I/O is locked by another handle in
    a way that forbids it: exclusively, or at all if the I/O is a write. *)
Theorem io_conflict_spec (l : lockTable) (key : fileKey) (o s len : Z) (write : bool) :
  reachable l -> word64 s -> word64 len ->
  lt_conflict l key o s len write = true <->
  exists r p, r ∈ at_key (t l) key /\ r_owner r <> o /\ covers s len p /\
    covers (r_start r) (r_length r) p /\ (write = true \/ r_exclusive r = true).
Proof.
  intros Hr Hs Hl. apply reachable_LInv in Hr as [Hi Hp _ _].
  pose proof (good_word _ (inv_at_key _ key Hi)) as Hw.
  trans (conflict (t l) key o s len write = true).
  { unfold lt_conflict, empty. destruct (Z.eqb_spec (pub l) 0) as [He|]; [|done].
    unfold conflict. rewrite (total_zero _ key Hi) by congruence. by destruct (len =? 0). }
  trans (conflict_scan (at_key (t l) key) o s len write = true).
  { unfold conflict. destruct (Z.eqb_spec len 0) as [->|]; [|done]. split; [done|].
    rewrite conflict_scan_iff. intros (r & _ & _ & Hov & _). done. }
  rewrite conflict_scan_iff. split.
  - intros (r & Hr & Ho & Hov & Hx). destruct (Hw r Hr). unfold word64 in *.
    apply rangesOverlap_iff in Hov as (p & ? & ?); unfold word64; [|lia..].
    exists r, p. by rewrite <- orb_true_iff.
  - intros (r & p & Hr & Ho & Hc & Hcr & Hx). exists r. split_and!; [done..| |by apply orb_true_iff].
    destruct (Hw r Hr). apply rangesOverlap_iff; unfold word64 in *; [lia..|eauto].
Qed.

(** ** A parked LOCK request is woken

    The waiter takes the channel first and tries afterwards, as [awaitLock]
    does; [c ∉ closed] says that it is still parked. *)

Lemma lock_scan_app rs rs' o s l ex c e :
  lock_scan rs o s l ex c = inl e -> lock_scan (rs ++ rs') o s l ex c = inl e.
Proof.
  revert c. induction rs as [|r rs IH]; intros c; simpl; [done|].
  destruct (r_owner r =? o); [destruct (_ && _); [done|apply IH]|].
  destruct (negb _); [apply IH|]. destruct (_ || _); [done|apply IH].
Qed.

(** The refusal stands as long as the file's list only grows at its end. *)
Lemma conflict_stands t t' key o s l k rs :
  at_key t' key = at_key t key ++ rs ->
  (apply t key o s l k).2 = Some errLockConflict -> (apply t' key o s l k).2 = Some errLockConflict.
Proof.
  unfold apply. intros Heq. destruct (l =? 0); [done|].
  assert (forall ex, (match lock_scan (at_key t key) o s l ex 0 with
     | inl e => (t, e)
     | inr owned => if (maxLockRangesPerFile <=? len (at_key t key)) || (maxLockRangesPerOwner <=? owned)
         then (t, Some errLockLimit)
         else (mkTable (<[key := at_key t key ++ [mkRange o s l ex]]> (locks t)) (n t + 1), None)
     end).2 = Some errLockConflict -> lock_scan (at_key t key) o s l ex 0 = inl (Some errLockConflict)) as Hinv.
  { intros ex. destruct (lock_scan _ _ _ _ _ _); simpl; [by intros ->|]. by destruct (_ || _). }
  destruct k; [done|..]; intros Hc; apply Hinv in Hc;
    rewrite Heq; by rewrite (lock_scan_app _ _ _ _ _ _ _ _ Hc).
Qed.

Lemma filter_same_len {A} (P : A -> Prop) `{!forall x, Decision (P x)} l :
  len l <= len (filter P l) -> filter P l = l.
Proof.
  unfold len. intros Hl. induction l as [|x l IH]; [done|]. rewrite filter_cons in *.
  pose proof (length_filter P l). case_decide; simpl in *; [f_equal; apply IH; lia|lia].
Qed.

(** Either ranges disappeared, or every file's list grew at its end. *)
Definition grew (t t' : rangeTable) : Prop := forall key, exists rs, at_key t' key = at_key t key ++ rs.

Lemma grew_refl t : grew t t.
Proof. intros key. exists []. by rewrite app_nil_r. Qed.

Lemma grew_store t key out :
  len (at_key t key) <= len out -> (len (at_key t key) <= len out -> out = at_key t key) ->
  forall m, grew t (mkTable (store t key out) m).
Proof.
  intros Hl Ho m key'. exists []. rewrite app_nil_r. destruct (decide (key = key')) as [<-|].
  - unfold at_key at 1. simpl. by rewrite store_eq, Ho.
  - unfold at_key. simpl. by rewrite store_ne.
Qed.

Lemma apply_grew t key o s l k : n t <= n (apply t key o s l k).1 -> grew t (apply t key o s l k).1.
Proof.
  unfold apply. destruct (l =? 0); [intros _; apply grew_refl|].
  assert (forall ex, grew t (mkTable (<[key := at_key t key ++ [mkRange o s l ex]]> (locks t)) (n t + 1))) as Hg.
  { intros ex key'. unfold at_key at 1. simpl. destruct (decide (key = key')) as [<-|].
    - rewrite lookup_insert_eq. by eexists.
    - rewrite lookup_insert_ne by done. exists []. by rewrite app_nil_r. }
  destruct k; simpl; intros Hn.
  - apply grew_store; [lia|]. apply filter_same_len.
  - destruct (lock_scan _ _ _ _ _ _); [apply grew_refl|]. destruct (_ || _); [apply grew_refl|apply Hg].
  - destruct (lock_scan _ _ _ _ _ _); [apply grew_refl|]. destruct (_ || _); [apply grew_refl|apply Hg].
Qed.

Lemma releaseOwner_grew t key o : n t <= n (releaseOwner t key o) -> grew t (releaseOwner t key o).
Proof. simpl. intros Hn. apply grew_store; [lia|]. apply filter_same_len. Qed.

Definition parked (l : lockTable) (c : nat) : Prop := released l = Some c /\ c ∉ closed l.

Lemma publish_parked l t' c : parked l c -> c ∉ closed (publish l t' (n (t l))) ->
  n (t l) <= n t' /\ parked (publish l t' (n (t l))) c.
Proof.
  intros [Hr Hc]. unfold publish. destruct (Z.ltb_spec (n t') (n (t l))); rewrite Hr; simpl; [set_solver|].
  by split; [lia|split].
Qed.

Lemma closed_mono l l' c : step l l' -> c ∈ closed l -> c ∈ closed l'.
Proof.
  assert (forall l t' b, c ∈ closed l -> c ∈ closed (publish l t' b)) as Hp.
  { intros l0 t' b Hc. unfold publish. destruct (_ <? _), (released l0); simpl; set_solver. }
  intros Hs Hc. destruct Hs; unfold lt_apply, lt_releaseOwner, releaseSignal.
  - destruct (apply _ _ _ _ _ _). by apply Hp.
  - by apply Hp.
  - by destruct (released l).
Qed.

Lemma steps_closed l l' c : steps l l' -> c ∈ closed l -> c ∈ closed l'.
Proof. induction 1 as [|l1 l2 l3 Hs _ IH]; [done|]. intros Hc. apply IH. by apply (closed_mono l1). Qed.

Lemma step_parked l l' c : parked l c -> step l l' -> c ∉ closed l' -> grew (t l) (t l') /\ parked l' c.
Proof.
  intros Hp Hs Hc. destruct Hs as [key o s len k _ _|key o|].
  - pose proof (apply_grew (t l) key o s len k) as Hg. revert Hc. unfold lt_apply.
    destruct (apply _ _ _ _ _ _) as [t' e]. simpl in *. intros Hc.
    destruct (publish_parked l t' c Hp Hc). rewrite publish_t. auto.
  - destruct (publish_parked l _ c Hp Hc). unfold lt_releaseOwner. rewrite publish_t.
    split; [by apply releaseOwner_grew|done].
  - destruct Hp as [Hr Hn]. unfold releaseSignal in *. rewrite Hr in *. split; [apply grew_refl|by split].
Qed.

(** No wake-up is lost: a LOCK request that subscribed, was refused, and is
    still parked after any interleaving of other requests would still be
    refused.  So the only event that can make it grantable closes its channel. *)
Theorem no_lost_wakeup (l l' : lockTable) (c : nat) (key : fileKey) (o s len : Z) (k : lockKind) :
  parked l c -> (apply (t l) key o s len k).2 = Some errLockConflict ->
  steps l l' -> c ∉ closed l' -> (apply (t l') key o s len k).2 = Some errLockConflict.
Proof.
  intros Hp Hc Hs Hn. induction Hs as [|l l1 l2 Hs Hss IH]; [done|].
  assert (c ∉ closed l1) as Hn1 by (intros Hin; by apply Hn, (steps_closed l1)).
  destruct (step_parked l l1 c Hp Hs Hn1) as [Hg Hp1]. destruct (Hg key) as [rs Hrs].
  apply IH; [done| |done]. by apply (conflict_stands (t l) _ _ _ _ _ _ rs).
Qed.

(** ** A LOCK request is all or nothing *)

Section Atomic.
Context (keyFor : Z -> option fileKey) (open : Z) (key : fileKey) (Hkey : keyFor open = Some key).

Abbreviation ranges l := (at_key (t l) key).

(** Only ranges of [open] on [key] may differ. *)
Definition same_elsewhere (l l' : lockTable) : Prop :=
  (forall key', key' <> key -> locks (t l') !! key' = locks (t l) !! key') /\
  (forall r, r_owner r <> open -> r ∈ ranges l' <-> r ∈ ranges l).

#[local] Instance same_elsewhere_preorder : PreOrder same_elsewhere.
Proof.
  split.
  - by intros l.
  - intros a b c [Hk Ho] [Hk' Ho']. split.
    + intros. rewrite Hk' by done. by apply Hk.
    + intros. rewrite Ho' by done. by apply Ho.
Qed.

Lemma applyLock_t m s l k : t (applyLock keyFor m open s l k).1 = (apply (t m) key open s l k).1 /\
  (applyLock keyFor m open s l k).2 = (apply (t m) key open s l k).2.
Proof. unfold applyLock. rewrite Hkey. apply lt_apply_t. Qed.

Lemma applyLock_elsewhere m s l k : same_elsewhere m (applyLock keyFor m open s l k).1.
Proof.
  destruct (applyLock_t m s l k) as [Ht _]. split.
  - intros key' Hne. rewrite Ht. by apply apply_ne.
  - intros r Hr. rewrite Ht. destruct (decide (l = 0)) as [->|Hl]; [done|].
    destruct (apply_cases (t m) key open s l k Hl) as [t' Hu| |k t' _ _ Hat _| |]; simpl; [|done| |done..].
    + rewrite Hu. tauto.
    + rewrite Hat, elem_of_app, list_elem_of_singleton. split; [|auto]. intros [?| ->]; [done|]. by simpl in Hr.
Qed.

Lemma applyLock_Inv m s l k : Inv (t m) -> word64 s -> word64 l -> Inv (t (applyLock keyFor m open s l k).1).
Proof. intros. rewrite (proj1 (applyLock_t m s l k)). by apply apply_Inv. Qed.

Lemma applyLock_err m s l k e : (applyLock keyFor m open s l k).2 = Some e -> t (applyLock keyFor m open s l k).1 = t m.
Proof.
  destruct (applyLock_t m s l k) as [-> ->]. destruct (decide (l = 0)) as [->|Hl]; [done|].
  by destruct (apply_cases (t m) key open s l k Hl).
Qed.

Definition words (ds : list lockRange) : Prop :=
  forall d, d ∈ ds -> word64 (r_start d) /\ 0 < r_length d < 2 ^ 64.

Lemma words_cons d ds : words (d :: ds) -> (word64 (r_start d) /\ 0 < r_length d < 2 ^ 64) /\ words ds.
Proof.
  intros Hw. split; [apply Hw, elem_of_cons; by left|]. intros x Hx. apply Hw, elem_of_cons. by right.
Qed.

(** The first loop of [restoreLocks]. *)
Lemma unlock_all ds m : words ds -> Inv (t m) ->
  let m' := fold_left (fun m r => (applyLock keyFor m open (r_start r) (r_length r) lockUnlock).1) ds m in
  Inv (t m') /\ same_elsewhere m m' /\
  (forall r, r ∈ ranges m' <-> r ∈ ranges m /\
     ~ (r_owner r = open /\ exists d, d ∈ ds /\ sameRange r (r_start d) (r_length d) = true)).
Proof.
  revert m. induction ds as [|d ds IH]; intros m Hw Hi; simpl.
  { split_and!; [done|done|]. intros r. split; [|tauto]. intros Hr. split; [done|].
    intros (_ & d & Hd & _). by apply not_elem_of_nil in Hd. }
  apply words_cons in Hw as [[Hs Hl] Hw].
  set (m1 := (applyLock keyFor m open (r_start d) (r_length d) lockUnlock).1).
  destruct (IH m1 Hw) as (Hi' & He & Hr).
  { apply applyLock_Inv; [done..|]. unfold word64. lia. }
  split_and!; [done|by etrans; [apply applyLock_elsewhere|]|].
  assert (r_length d <> 0) as Hne by lia.
  intros r. rewrite Hr. unfold m1. rewrite (proj1 (applyLock_t _ _ _ _)).
  pose proof (apply_cases (t m) key open (r_start d) (r_length d) lockUnlock Hne) as Hc.
  inversion Hc as [t' Hu Heq| | | |]; [|done..]. simpl. rewrite Hu.
  setoid_rewrite elem_of_cons. split.
  - intros [[? Hn] Hn']. split; [done|]. intros (Ho & d' & [->|Hd] & Hsr); eauto.
  - intros [? Hn]. split_and!; [done| |]; [intros [? ?]|intros (? & d' & ? & ?)]; apply Hn; eauto.
Qed.

(** Re-applying one range of a good list [A] that agrees with the table on the
    other handles puts it back: it meets neither a conflict nor a cap. *)
Section Relock.
Context (A : list lockRange) (Hg : good A).

Definition agrees (m : lockTable) : Prop :=
  Inv (t m) /\ (forall r, r ∈ ranges m -> r ∈ A) /\ (forall r, r_owner r <> open -> r ∈ A -> r ∈ ranges m).

Lemma room (m : lockTable) d (P : lockRange -> Prop) `{!forall x, Decision (P x)} :
  agrees m -> d ∈ A -> d ∉ ranges m -> P d -> len (filter P (ranges m)) + 1 <= len (filter P A).
Proof.
  intros (Hi & HA & _) HdA Hn HP. assert (d :: filter P (ranges m) ⊆+ filter P A) as Hsub.
  { apply NoDup_submseteq.
    - apply NoDup_cons. split; [by rewrite list_elem_of_filter; intros [_ ?]|].
      apply NoDup_filter. apply (good_nodup _ (inv_at_key _ key Hi)).
    - intros x Hx. rewrite list_elem_of_filter. apply elem_of_cons in Hx as [->|Hx]; [done|].
      apply list_elem_of_filter in Hx as [? ?]. auto. }
  apply submseteq_length in Hsub. unfold len. simpl in Hsub. lia.
Qed.

Lemma relock m d : agrees m -> d ∈ A -> r_owner d = open ->
  forall r, r ∈ ranges (applyLock keyFor m open (r_start d) (r_length d) (kind d)).1 <-> r ∈ ranges m \/ r = d.
Proof.
  intros Hag HdA Hdo. pose proof Hag as (Hi & HA & Ho). destruct (good_word A Hg d HdA) as [Hs Hl].
  rewrite (proj1 (applyLock_t _ _ _ _)).
  assert (mkRange open (r_start d) (r_length d) (bool_decide (kind d = lockExclusive)) = d) as Hd.
  { destruct d as [? ? ? []]; simpl in *; by subst. }
  assert (r_length d <> 0) as Hne by lia. assert (kind d <> lockUnlock) as Hku by (by destruct d as [? ? ? []]).
  pose proof (apply_cases (t m) key open (r_start d) (r_length d) (kind d) Hne) as Hc.
  inversion Hc as [t' Hu Hk|k Hk Hin|k t' Hk Hn Hat _|k r' Hk Hr Hro Hov Hx|k Hk Hn Hcap]; simpl;
    subst; try rewrite Hd in *.
  - congruence.
  - intros r. split; [tauto|]. by intros [?| ->].
  - intros r. by rewrite Hat, elem_of_app, list_elem_of_singleton.
  - exfalso. destruct (good_compat A Hg d r' HdA (HA r' Hr)) as [Hd1 Hd2]; [congruence|done|].
    rewrite Hd2 in Hx. destruct d as [? ? ? []]; simpl in *; congruence.
  - exfalso. pose proof (good_file A Hg) as Hf. pose proof (good_owner A Hg open) as Hw.
    assert ((r_owner d =? open) = true) as Hdo' by lia.
    pose proof (room m d (fun r => (r_owner r =? open) = true) Hag HdA Hn Hdo').
    pose proof (room m d (fun _ => True) Hag HdA Hn I) as Ht.
    rewrite !filter_true in Ht. unfold own in *. lia.
Qed.

Lemma relock_agrees m d : agrees m -> d ∈ A -> r_owner d = open ->
  agrees (applyLock keyFor m open (r_start d) (r_length d) (kind d)).1.
Proof.
  intros Hag HdA Hdo. pose proof (relock m d Hag HdA Hdo) as Hm. pose proof Hag as (Hi & HA & Ho).
  destruct (good_word A Hg d HdA) as [Hs Hl]. split_and!.
  - apply applyLock_Inv; [done..|]. unfold word64. lia.
  - intros r Hr. apply Hm in Hr as [?| ->]; auto.
  - intros r ? ?. apply Hm. auto.
Qed.

(** The second loop of [restoreLocks]. *)
Lemma relock_all ds m : agrees m -> (forall d, d ∈ ds -> d ∈ A /\ r_owner d = open) ->
  let m' := fold_left (fun m r => (applyLock keyFor m open (r_start r) (r_length r) (kind r)).1) ds m in
  agrees m' /\ same_elsewhere m m' /\ (forall r, r ∈ ranges m' <-> r ∈ ranges m \/ r ∈ ds).
Proof.
  revert m. induction ds as [|d ds IH]; intros m Hag Hds; simpl.
  { split_and!; [done|done|]. intros r. rewrite elem_of_nil. tauto. }
  destruct (Hds d) as [HdA Hdo]; [by apply elem_of_cons; left|].
  destruct (IH (applyLock keyFor m open (r_start d) (r_length d) (kind d)).1) as (Hi' & He & Hr).
  - by apply relock_agrees.
  - intros d' Hd'. apply Hds, elem_of_cons. by right.
  - split_and!; [done|by etrans; [apply applyLock_elsewhere|]|].
    intros r. rewrite Hr, relock, elem_of_cons by done. tauto.
Qed.
End Relock.

Lemma snapshotRanges_in m r : r ∈ snapshotRanges keyFor m open <-> r ∈ ranges m /\ r_owner r = open.
Proof.
  unfold snapshotRanges, snapshot. rewrite Hkey, list_elem_of_filter, Z.eqb_eq. tauto.
Qed.

Lemma rangesDiff_in a b r : r ∈ rangesDiff a b <->
  r ∈ a /\ forall o, o ∈ b -> ~ (sameRange o (r_start r) (r_length r) = true /\ r_exclusive o = r_exclusive r).
Proof.
  unfold rangesDiff. rewrite list_elem_of_filter, negb_true_iff. split.
  - intros [Hn Hr]. split; [done|]. intros o Ho [Hs He].
    assert (existsb (fun o => sameRange o (r_start r) (r_length r) && eqb (r_exclusive o) (r_exclusive r)) b = true);
      [|congruence].
    apply existsb_exists. exists o. split; [by apply list_elem_of_In|]. by rewrite Hs, He, eqb_reflx.
  - intros [Hr Hn]. split; [|done]. apply not_true_is_false. intros Hx.
    apply existsb_exists in Hx as (o & Ho & Hx). apply andb_true_iff in Hx as [? Hx].
    apply (Hn o); [by apply list_elem_of_In|]. split; [done|]. by apply eqb_prop.
Qed.

(** [restoreLocks] puts the handle's ranges back, whatever the handle did. *)
Lemma restoreLocks_spec m0 m : Inv (t m0) -> Inv (t m) -> same_elsewhere m0 m ->
  let m' := restoreLocks keyFor m open (snapshotRanges keyFor m0 open) in
  Inv (t m') /\ same_elsewhere m0 m' /\ (forall r, r ∈ ranges m' <-> r ∈ ranges m0).
Proof.
  intros Hi0 Hi He. cbv zeta. unfold restoreLocks.
  set (snap := snapshotRanges keyFor m0 open).
  set (ds := rangesDiff (snapshotRanges keyFor m open) snap).
  assert (words ds) as Hw.
  { intros d Hd. apply rangesDiff_in in Hd as [Hd _]. apply snapshotRanges_in in Hd as [Hd _].
    by apply (good_word _ (inv_at_key _ key Hi)). }
  destruct (unlock_all ds m Hw Hi) as (Hi1 & He1 & Hr1).
  set (m1 := fold_left _ ds m) in *.
  pose proof (transitivity He He1) as He01. destruct He as [_ Ho], He01 as [Hk01 Ho01].
  assert (agrees (ranges m0) m1) as Hag.
  { split_and!; [done| |intros r ? ?; by apply Ho01].
    intros r Hr. destruct (decide (r_owner r = open)) as [Hro|]; [|by apply Ho01].
    apply Hr1 in Hr as [Hr Hn]. destruct (decide (r ∈ ranges m0)) as [|Hn0]; [done|]. exfalso. apply Hn.
    split; [done|]. exists r. split; [|by apply sameRange_spec]. apply rangesDiff_in.
    split; [by apply snapshotRanges_in|]. intros o Hos [Hs Hx]. apply snapshotRanges_in in Hos as [Hos Hoo].
    apply sameRange_spec in Hs as [? ?]. apply Hn0. replace r with o; [done|]. destruct o, r; simpl in *; congruence. }
  destruct (relock_all (ranges m0) (inv_at_key _ key Hi0) snap m1 Hag) as ((Hi2 & HA & _) & He2 & Hr2).
  { intros d Hd. by apply snapshotRanges_in. }
  split_and!; [done|by apply (transitivity (conj Hk01 Ho01) He2)|].
  intros r. split; [apply HA|]. intros Hr. apply Hr2. destruct (decide (r_owner r = open)); [right|left].
  - by apply snapshotRanges_in.
  - by apply Ho01.
Qed.

Lemma apply_ops_spec m0 ops m i multi :
  Inv (t m0) -> Inv (t m) -> same_elsewhere m0 m -> (multi = false -> ops = [] \/ m = m0 /\ len ops = 1) ->
  Forall (fun op => word64 (Lock.Offset (el op)) /\ word64 (Lock.Length (el op))) ops ->
  match apply_ops keyFor m open multi (if multi then snapshotRanges keyFor m0 open else []) i ops with
  | (m', j, Some e) => Inv (t m') /\ same_elsewhere m0 m' /\ (forall r, r ∈ ranges m' <-> r ∈ ranges m0) /\
      i <= j < i + len ops
  | (m', j, None) => Inv (t m') /\ same_elsewhere m0 m' /\ j = -1
  end.
Proof.
  intros Hi0. revert m i. induction ops as [|op ops IH]; intros m i Hi He Hm Hw; [done|]. cbn [apply_ops].
  apply Forall_cons in Hw as [[Hs Hl] Hw].
  pose proof (applyLock_Inv m _ _ (op_kind op) Hi Hs Hl) as Hi1.
  pose proof (transitivity He (applyLock_elsewhere m (Lock.Offset (el op)) (Lock.Length (el op)) (op_kind op))) as He1.
  pose proof (applyLock_err m (Lock.Offset (el op)) (Lock.Length (el op)) (op_kind op)) as Herr.
  destruct (applyLock keyFor m open _ _ _) as [m1 [e|]]; simpl in *.
  - rewrite len_cons. pose proof (len_nonneg ops). specialize (Herr e eq_refl). destruct multi.
    + destruct (restoreLocks_spec m0 m1 Hi0 Hi1 He1) as (? & ? & ?). split_and!; auto; lia.
    + destruct (Hm eq_refl) as [|[-> _]]; [done|]. split_and!; auto; [|lia|lia]. intros r. by rewrite Herr.
  - assert (multi = false -> ops = [] \/ m1 = m0 /\ len ops = 1) as Hm1.
    { intros Hf. left. destruct (Hm Hf) as [|[_ Hl1]]; [done|]. rewrite len_cons in Hl1. apply len_zero. lia. }
    specialize (IH m1 (i + 1) Hi1 He1 Hm1 Hw). rewrite len_cons.
    destruct (apply_ops _ _ _ _ _ _ _) as [[m' j] [e|]]; [|done]. destruct IH as (? & ? & ? & ?). split_and!; auto; lia.
Qed.
End Atomic.

(** C14: A LOCK request is all or nothing.  If any element is refused, every file
    has afterwards exactly the ranges it had before, for every handle, with the
    ranges the handle already held and re-requested or released still held; the
    index returned names an element.  If it succeeds no other handle's range
    and no other file is touched. *)
Theorem applyLockOps_atomic (keyFor : Z -> option fileKey) (open : Z) (key : fileKey) (m : lockTable)
    (ops : list lockOp) :
  reachable m -> keyFor open = Some key ->
  Forall (fun op => word64 (Lock.Offset (el op)) /\ word64 (Lock.Length (el op))) ops ->
  match applyLockOps keyFor m open ops with
  | (m', i, Some e) => 0 <= i < len ops /\ n (t m') = n (t m) /\
      forall key', at_key (t m') key' ≡ₚ at_key (t m) key'
  | (m', i, None) => i = -1 /\
      (forall key', key' <> key -> at_key (t m') key' = at_key (t m) key') /\
      (forall r, r_owner r <> open -> r ∈ at_key (t m') key <-> r ∈ at_key (t m) key)
  end.
Proof.
  intros Hr Hkey Hw. pose proof (linv_t _ (reachable_LInv _ Hr)) as Hi.
  pose proof (apply_ops_spec keyFor open key Hkey m ops m 0 (1 <? len ops) Hi Hi) as Hs. unfold applyLockOps.
  assert (same_elsewhere open key m m) as Hse by done. specialize (Hs Hse).
  ospecialize (Hs _ Hw).
  { intros Hm. pose proof (len_nonneg ops). destruct (decide (len ops = 0)) as [?%len_zero|]; [by left|right].
    split; [done|lia]. }
  destruct (apply_ops _ _ _ _ _ _ _) as [[m' i] [e|]]; destruct Hs as (Hi' & [Hk Ho] & Hs).
  - destruct Hs as [Hin Hb]. split; [lia|].
    assert (forall key', at_key (t m') key' ≡ₚ at_key (t m) key') as Hp.
    { intros key'. destruct (decide (key' = key)) as [->|Hne]; [|by rewrite (at_key_ext _ _ _ (Hk _ Hne))].
      apply NoDup_Permutation; [apply good_nodup, inv_at_key; done..|done]. }
    split; [|done]. rewrite (inv_n _ Hi), (inv_n _ Hi'). apply total_same_lens. intros key'.
    unfold len. by rewrite (Hp key').
  - split_and!; [done|intros; by apply at_key_ext, Hk|done].
Qed.

(** What the protocol calls a wait can spin: a request of two elements that
    is granted the first and refused the second closes, by its own rollback,
    the very channel it has just subscribed to. *)
Theorem lock_wait_wakes_itself :
  exists (keyFor : Z -> option fileKey) m ops c,
    let m1 := (releaseSignal m).1 in
    reachable m /\ (releaseSignal m).2 = c /\
    (applyLockOps keyFor m1 1 ops).2 = Some errLockConflict /\
    c ∈ closed (applyLockOps keyFor m1 1 ops).1.1.
Proof.
  exists (fun _ => Some (1, 1)), (lt_apply newLockTable (1, 1) 2 50 10 lockExclusive).1,
    [mkOp {| Lock.Offset := 0; Lock.Length := 10; Lock.Flags := 2 |} lockExclusive;
     mkOp {| Lock.Offset := 50; Lock.Length := 10; Lock.Flags := 2 |} lockExclusive], 0%nat.
  split; [|split; [reflexivity|split; [vm_compute; reflexivity|]]].
  - apply rtc_once. apply step_apply; unfold word64; lia.
  - match goal with |- ?c ∈ ?s => apply (bool_decide_eq_true_1 (c ∈ s)) end. vm_compute. reflexivity.
Qed.

(** [flockRange] translates an SMB2 range to the [fcntl] range that covers
    the same bytes of the signed offset space ([l_len = 0] is "to the end"),
    refuses exactly the offsets that space cannot express, and never overflows
    an [int64]. *)
Theorem flockRange_spec (offset length : Z) :
  word64 offset -> 0 < length < 2 ^ 64 ->
  match flockRange offset length with
  | None => 2 ^ 63 <= offset
  | Some (s, l) => 0 <= s < 2 ^ 63 /\ 0 <= l < 2 ^ 63 /\
      forall p, 0 <= p < 2 ^ 63 -> (s <= p /\ (l = 0 \/ p < s + l)) <-> (offset <= p < offset + length)
  end.
Proof.
  unfold word64, flockRange, add64. intros Ho Hl. destruct (Z.ltb_spec (2 ^ 63 - 1) offset); [lia|].
  destruct (Z.ltb_spec (offset + length) (2 ^ 64)) as [?|?].
  - rewrite Z.mod_small by lia. destruct (Z.ltb_spec (offset + length) offset); [lia|]. simpl.
    destruct (Z.ltb_spec (2 ^ 63 - 1) (offset + length)); split_and!; try lia; intros; lia.
  - replace ((offset + length) mod 2 ^ 64) with (offset + length - 2 ^ 64)
      by (apply (Z.mod_unique_pos _ _ 1); lia).
    destruct (Z.ltb_spec (offset + length - 2 ^ 64) offset); [simpl|lia].
    split_and!; try lia; intros; lia.
Qed.

(** What the elements of a request that passes validation are. *)
Lemma decodeLockOps_spec els ops : decodeLockOps els = Some ops ->
  map el ops = els /\
  Forall (fun op => Lock.Offset (el op) <= 2 ^ 63 - 1 /\
    match op_kind op with
    | lockUnlock => has (Lock.Flags (el op)) Lock.LockFlagUnlock = true
    | lockShared => has (Lock.Flags (el op)) Lock.LockFlagUnlock = false /\
                    has (Lock.Flags (el op)) Lock.LockFlagSharedLock = true
    | lockExclusive => has (Lock.Flags (el op)) Lock.LockFlagUnlock = false /\
                       has (Lock.Flags (el op)) Lock.LockFlagSharedLock = false /\
                       has (Lock.Flags (el op)) Lock.LockFlagExclusiveLock = true
    end) ops.
Proof.
  revert ops. induction els as [|e els IH]; intros ops; cbn [decodeLockOps].
  { intros [= <-]. by split. }
  destruct (has (Lock.Flags e) Lock.LockFlagUnlock) eqn:Hu; [|destruct (has (Lock.Flags e) Lock.LockFlagSharedLock) eqn:Hsh;
    [|destruct (has (Lock.Flags e) Lock.LockFlagExclusiveLock) eqn:Hx; [|done]]]; simpl;
    (destruct (Z.ltb_spec (2 ^ 63 - 1) (Lock.Offset e)); [done|]);
    (destruct (decodeLockOps els) as [ops'|]; [|done]); simpl; intros [= <-];
    destruct (IH ops' eq_refl) as [Hm Hf]; (split; [by rewrite <- Hm|]); by apply Forall_cons.
Qed.

(** ** Witnesses *)

Definition ex_table : lockTable :=
  (lt_apply (lt_apply newLockTable (1, 1) 1 0 10 lockShared).1 (1, 1) 2 5 10 lockShared).1.

Lemma ex_reachable : reachable ex_table.
Proof. eapply rtc_l; [|apply rtc_once]; apply step_apply; unfold word64; lia. Qed.

Lemma locks_exclusive_witness :
  let a := mkRange 1 0 10 false in let b := mkRange 2 5 10 false in
  r_exclusive a = false /\ r_exclusive b = false.
Proof.
  cbv zeta.
  destruct (locks_exclusive ex_table (1, 1) (mkRange 1 0 10 false) (mkRange 2 5 10 false) 7) as (_ & _ & _ & Hx).
  - exact ex_reachable.
  - apply list_elem_of_In. vm_compute. by left.
  - apply list_elem_of_In. vm_compute. by right; left.
  - apply Hx; unfold covers; simpl; lia.
Defined.

Lemma io_conflict_spec_witness : lt_conflict ex_table (1, 1) 1 12 4 true = true.
Proof.
  apply (io_conflict_spec ex_table (1, 1) 1 12 4 true); [exact ex_reachable|unfold word64; lia..|].
  exists (mkRange 2 5 10 false), 13. split; [apply list_elem_of_In; vm_compute; by right; left|].
  split; [done|]. unfold covers. simpl. split; [lia|]. split; [lia|by left].
Defined.

Lemma no_lost_wakeup_witness :
  let l := (releaseSignal ex_table).1 in
  let l' := (lt_apply l (9, 9) 3 0 1 lockExclusive).1 in
  (apply (t l') (1, 1) 3 0 6 lockExclusive).2 = Some errLockConflict.
Proof.
  apply (no_lost_wakeup (releaseSignal ex_table).1 _ 0%nat).
  - split; [reflexivity|]. apply not_elem_of_empty.
  - vm_compute. reflexivity.
  - apply rtc_once. apply step_apply; unfold word64; lia.
  - vm_compute. done.
Defined.

Lemma applyLockOps_atomic_witness :
  let ops := [mkOp {| Lock.Offset := 0; Lock.Length := 10; Lock.Flags := 1 |} lockShared;
              mkOp {| Lock.Offset := 5; Lock.Length := 10; Lock.Flags := 2 |} lockExclusive] in
  at_key (t (applyLockOps (fun _ => Some (1, 1)) ex_table 1 ops).1.1) (1, 1) ≡ₚ at_key (t ex_table) (1, 1).
Proof.
  cbv zeta.
  pose proof (applyLockOps_atomic (fun _ => Some (1, 1)) 1 (1, 1) ex_table
    [mkOp {| Lock.Offset := 0; Lock.Length := 10; Lock.Flags := 1 |} lockShared;
     mkOp {| Lock.Offset := 5; Lock.Length := 10; Lock.Flags := 2 |} lockExclusive]
    ex_reachable eq_refl) as Ha.
  destruct (applyLockOps _ _ _ _) as [[m' i] e] eqn:He.
  assert (e = Some errLockConflict) as Hee by (vm_compute in He; congruence).
  rewrite Hee in Ha. simpl.
  apply Ha. repeat (apply Forall_cons; split; [unfold word64; simpl; lia|]). by apply Forall_nil.
Defined.

Lemma flockRange_spec_witness : 5 <= 7 < 5 + (2 ^ 64 - 1).
Proof.
  pose proof (flockRange_spec 5 (2 ^ 64 - 1) ltac:(unfold word64; lia) ltac:(lia)) as Hf.
  change (flockRange 5 (2 ^ 64 - 1)) with (Some (5, 0)) in Hf. destruct Hf as (_ & _ & Hf).
  apply Hf; [lia|]. split; [lia|by left].
Defined.

End Locks.
