(* ===== verification/Ofd.v ===== *)
(** The Linux lock manager: [internal/parent/lock_linux.go].

    The kernel decides with open-file-description locks; the table of [LockRanges]
    is a shadow of what it granted, for the checks of READ and WRITE.  The kernel is
    a parameter: [fcntl]'s documented behaviour, byte by byte.  The theorem says when
    the shadow and the kernel agree, the example below it when they do not. *)

From S2P Require Import Prelude Smb2 Requests LockRanges.
Import LockRanges.Locks.

Module Ofd.

Inductive lockType := F_RDLCK | F_WRLCK | F_UNLCK.
#[export] Instance lockType_eq_dec : EqDecision lockType.
Proof. solve_decision. Defined.

(** [unix.Flock_t] from the start of the file; a length of 0 is to its end. *)
Record flock := mkFlock { l_type : lockType; l_start : Z; l_len : Z }.

Inductive errno := EAGAIN | EACCES | Errno.

(** The bytes a [flock] names, of a file's 2^63. *)
Definition names (fl : flock) (b : Z) : Prop := 0 <= b < 2 ^ 63 /\ l_start fl <= b /\ (l_len fl = 0 \/ b < l_start fl + l_len fl).

(** [fcntl(F_OFD_SETLK)] on a descriptor of a file, or on one that is not open;
    [close]; and what an open file description holds of a byte: exclusively or not. *)
Class OFD (K : Type) := {
  setlk : K -> option fileKey -> Z -> flock -> K * option errno;
  close : K -> Z -> K;
  held : K -> fileKey -> Z -> Z -> option bool }.

Class OFDLaws K `{OFD K} := {
  ofd_refused k f o fl k' e : setlk k f o fl = (k', Some e) -> k' = k;
  ofd_closed_fd k o fl : (setlk k None o fl).2 <> None;
  ofd_other k f o fl k' f' o' b : setlk k (Some f) o fl = (k', None) -> ~ (f' = f /\ o' = o /\ names fl b) -> held k' f' o' b = held k f' o' b;
  ofd_set k f o fl k' b : setlk k (Some f) o fl = (k', None) -> names fl b ->
    held k' f o b = match l_type fl with F_UNLCK => None | ty => Some (bool_decide (ty = F_WRLCK)) end;
  ofd_apart k f o fl k' o' b ex : setlk k (Some f) o fl = (k', None) -> l_type fl <> F_UNLCK -> o' <> o -> names fl b -> held k f o' b = Some ex ->
    l_type fl = F_RDLCK /\ ex = false;
  ofd_close k o f o' b : held (close k o) f o' b = if bool_decide (o' = o) then None else held k f o' b }.

Definition fcntl_type (k : lockKind) : lockType := match k with lockUnlock => F_UNLCK | lockShared => F_RDLCK | lockExclusive => F_WRLCK end.

Section Manager.
Context {K : Type} `{!OFD K} `{!OFDLaws K}.

(** The kernel's locks, the shadow table, and the file of each open handle. *)
Record state := mkState { kern : K; tbl : lockTable; keys : gmap Z fileKey }.

Definition keyFor (s : state) (open : Z) : option fileKey := keys s !! open.

Definition applyLock (s : state) (open offset length : Z) (k : lockKind) : state * option lockErr :=
  if length =? 0 then (s, None) else
  match flockRange offset length with
  | None => (s, Some errLockRange)
  | Some (start, l) =>
      let key := keyFor s open in
      if match key with Some key => negb (bool_decide (k = lockUnlock)) && atCapacity (tbl s) key open | None => false end then (s, Some errLockLimit) else
      match setlk (kern s) key open (mkFlock (fcntl_type k) start l) with
      | (kk, Some (EAGAIN | EACCES)) => (mkState kk (tbl s) (keys s), Some errLockConflict)
      | (kk, Some Errno) => (mkState kk (tbl s) (keys s), Some errSys)
      | (kk, None) => (mkState kk (match key with Some key => (lt_apply (tbl s) key open offset length k).1 | None => tbl s end) (keys s), None)
      end
  end.

Definition releaseAll (s : state) (open : Z) : state :=
  match keyFor s open with Some key => mkState (kern s) (lt_releaseOwner (tbl s) key open) (keys s) | None => s end.

Definition conflictsWith (s : state) (open offset length : Z) (write : bool) : bool :=
  if (length =? 0) || empty (tbl s) then false else
  match keyFor s open with Some key => lt_conflict (tbl s) key open offset length write | None => false end.

(** ** What handles do, in any order

    A handle that is closed gives its ranges up first. *)

Inductive event := OpenFile (o : Z) (key : fileKey) | Lock (o offset length : Z) (k : lockKind) | CloseFile (o : Z).

Definition step (s : state) (e : event) : state :=
  match e with
  | OpenFile o key => match keys s !! o with Some _ => s | None => mkState (kern s) (tbl s) (<[o := key]> (keys s)) end
  | Lock o offset length k => (applyLock s o offset length k).1
  | CloseFile o => let s := releaseAll s o in mkState (close (kern s) o) (tbl s) (delete o (keys s))
  end.

(** What the protocol asks of a client: an unlock names a range as it was locked,
    and a lock touches no other range of its handle. *)
Definition tidy (s : state) (e : event) : Prop :=
  match e with
  | Lock o offset length k =>
      word64 offset /\ word64 length /\
      forall key r, keyFor s o = Some key -> r ∈ at_key (t (tbl s)) key -> r_owner r = o -> rangesOverlap offset length (r_start r) (r_length r) = true ->
        sameRange r offset length = true /\ (k <> lockUnlock -> kind r = k)
  | _ => True
  end.

Inductive reachable (k0 : K) : state -> Prop :=
  | reach_start : (forall f o b, held k0 f o b = None) -> reachable k0 (mkState k0 newLockTable ∅)
  | reach_step s e : reachable k0 s -> tidy s e -> reachable k0 (step s e).

(** The byte [b] of a file is in a range the table has for the handle. *)
Definition shadow (s : state) (f : fileKey) (o b : Z) (ex : bool) : Prop :=
  exists r, r ∈ at_key (t (tbl s)) f /\ r_owner r = o /\ covers (r_start r) (r_length r) b /\ r_exclusive r = ex.

Record Agree (s : state) : Prop := {
  a_table : Locks.reachable (tbl s);
  a_start : forall f r, r ∈ at_key (t (tbl s)) f -> 0 <= r_start r < 2 ^ 63;
  a_owned : forall f r, r ∈ at_key (t (tbl s)) f -> keyFor s (r_owner r) = Some f;
  a_apart : forall f r1 r2, r1 ∈ at_key (t (tbl s)) f -> r2 ∈ at_key (t (tbl s)) f -> r_owner r1 = r_owner r2 -> rangeOverlap r1 r2 = true -> r1 = r2;
  a_bytes : forall f o b ex, 0 <= b < 2 ^ 63 -> held (kern s) f o b = Some ex <-> shadow s f o b ex }.

Lemma covers_low st l b : 0 <= b < 2 ^ 63 -> covers st l b <-> st <= b < st + l.
Proof. unfold covers. lia. Qed.

(** Two ranges that share a byte share one the kernel knows. *)
Lemma overlap_low a al b bl : word64 a -> word64 al -> word64 b -> word64 bl -> a < 2 ^ 63 -> b < 2 ^ 63 ->
  rangesOverlap a al b bl = true <-> exists p, 0 <= p < 2 ^ 63 /\ covers a al p /\ covers b bl p.
Proof.
  intros Ha Hal Hb Hbl Hla Hlb. rewrite rangesOverlap_iff by done. split; [|intros (p & _ & H); by exists p]. intros (p & Hp & Hq). unfold covers, word64 in *. exists (Z.max a b). lia.
Qed.

Lemma flock_names ty offset length start l b : word64 offset -> 0 < length < 2 ^ 64 -> flockRange offset length = Some (start, l) ->
  names (mkFlock ty start l) b <-> 0 <= b < 2 ^ 63 /\ covers offset length b.
Proof.
  intros Ho Hl Hf. pose proof (flockRange_spec offset length Ho Hl) as Hs. rewrite Hf in Hs. destruct Hs as (_ & _ & Hs). unfold names. cbn.
  split; (intros [Hb H]; split; [done|]); [by rewrite covers_low, <- (Hs b Hb) by done|by rewrite covers_low, <- (Hs b Hb) in H by done].
Qed.

Section Granted.
Context (s : state) (Hs : Agree s) (open offset length : Z) (k : lockKind) (Htidy : tidy s (Lock open offset length k)) (Hlen : length <> 0).
Context (f : fileKey) (Hkey : keyFor s open = Some f) (start l : Z) (Hfl : flockRange offset length = Some (start, l)).
Context (kk : K) (Hset : setlk (kern s) (Some f) open (mkFlock (fcntl_type k) start l) = (kk, None)).

Abbreviation rs := (at_key (t (tbl s)) f).
Abbreviation rs' := (at_key (t (lt_apply (tbl s) f open offset length k).1) f).
Let ex := bool_decide (k = lockExclusive).

Lemma words_of : word64 offset /\ 0 < length < 2 ^ 64 /\ offset < 2 ^ 63.
Proof.
  destruct Htidy as (H1 & H2 & _). unfold word64 in *. split_and!; try lia. unfold flockRange in Hfl. destruct (Z.ltb_spec (2 ^ 63 - 1) offset); [done|lia].
Qed.

Lemma range_words r : r ∈ rs -> word64 (r_start r) /\ 0 < r_length r < 2 ^ 64 /\ r_start r < 2 ^ 63.
Proof.
  intros Hr. pose proof (a_start s Hs f r Hr). destruct (good_word _ (inv_at_key _ f (linv_t _ (reachable_LInv _ (a_table s Hs)))) r Hr). unfold word64 in *. lia.
Qed.

(** A range that shares one of the request's bytes overlaps it. *)
Lemma meets r b : r ∈ rs -> 0 <= b < 2 ^ 63 -> covers offset length b -> covers (r_start r) (r_length r) b -> rangesOverlap offset length (r_start r) (r_length r) = true.
Proof.
  intros Hr Hb Hc Hcr. destruct words_of as (W1 & W2 & W3). destruct (range_words r Hr) as (R1 & R2 & R3). apply overlap_low; unfold word64 in *; try lia. by exists b.
Qed.

Lemma request_names b : names (mkFlock (fcntl_type k) start l) b <-> 0 <= b < 2 ^ 63 /\ covers offset length b.
Proof. destruct words_of as (W1 & W2 & W3). by apply flock_names. Qed.

(** The kernel granted it, so the table finds no conflict. *)
Lemma no_conflict r : k <> lockUnlock -> r ∈ rs -> r_owner r <> open -> rangesOverlap offset length (r_start r) (r_length r) = true -> ex || r_exclusive r = false.
Proof.
  intros Hk Hr Ho Hov. destruct words_of as (W1 & W2 & W3). destruct (range_words r Hr) as (R1 & R2 & R3). apply overlap_low in Hov as (b & Hb & Hc & Hcr); [|unfold word64 in *; lia..].
  assert (Hh : held (kern s) f (r_owner r) b = Some (r_exclusive r)) by (apply (a_bytes s Hs); [done|by exists r]).
  destruct (ofd_apart _ _ _ _ _ _ _ _ Hset ltac:(cbn; by destruct k) Ho (proj2 (request_names b) (conj Hb Hc)) Hh) as [Ht ->]. unfold ex. by destruct k.
Qed.

(** The shadow after a request the kernel granted. *)
Lemma granted : (k = lockUnlock \/ atCapacity (tbl s) f open = false) ->
  (forall r, r ∈ rs' <-> if decide (k = lockUnlock) then r ∈ rs /\ ~ (r_owner r = open /\ sameRange r offset length = true) else r ∈ rs \/ r = mkRange open offset length ex) /\
  (forall f', f' <> f -> at_key (t (lt_apply (tbl s) f open offset length k).1) f' = at_key (t (tbl s)) f').
Proof.
  intros Hcap. destruct (lt_apply_t (tbl s) f open offset length k) as [Ht _]. rewrite Ht. split; [|intros f' Hf'; apply at_key_ext; by apply apply_ne].
  pose proof (apply_cases (t (tbl s)) f open offset length k Hlen) as Hc. inversion Hc as [t' Hu Hk Heq|k' Hk Hin Hkk Heq|k' t' Hk Hn Hat _ Hkk Heq|k' r' Hk Hr' Hro Hov Hx Hkk Heq|k' Hk Hn Hfull Hkk Heq]; cbn [fst]; subst.
  - intros r. rewrite decide_True by done. apply Hu.
  - intros r. rewrite decide_False by done. split; [by left|]. by intros [?| ->].
  - intros r. rewrite decide_False by done. by rewrite Hat, elem_of_app, list_elem_of_singleton.
  - exfalso. pose proof (no_conflict r' Hk Hr' Hro Hov) as Hx'. unfold ex in Hx'. congruence.
  - exfalso. destruct Hcap as [|Hcap]; [done|]. unfold atCapacity in Hcap. unfold own in Hfull. destruct (Z.leb_spec maxLockRangesPerFile (len rs)); [done|]. apply Z.leb_gt in Hcap. lia.
Qed.

(** The shadow of a byte of the request, before and after. *)
Lemma shadow_inside b x : (k = lockUnlock \/ atCapacity (tbl s) f open = false) -> 0 <= b < 2 ^ 63 -> covers offset length b ->
  (exists r, r ∈ rs' /\ r_owner r = open /\ covers (r_start r) (r_length r) b /\ r_exclusive r = x) <-> k <> lockUnlock /\ x = ex.
Proof.
  intros Hcap Hb Hc. destruct (granted Hcap) as [Hin _]. destruct Htidy as (_ & _ & Ht). setoid_rewrite Hin. destruct (decide (k = lockUnlock)) as [Hk|Hk].
  - split; [|by intros []]. intros (r & [Hr Hn] & Ho & Hcr & _). exfalso. apply Hn. split; [done|]. by apply (Ht f r Hkey Hr Ho), (meets r b).
  - split.
    + intros (r & [Hr| ->] & Ho & Hcr & <-); split; try done. destruct (Ht f r Hkey Hr Ho (meets r b Hr Hb Hc Hcr)) as [_ Hkind]. specialize (Hkind Hk). unfold ex. rewrite <- Hkind. unfold kind. by destruct (r_exclusive r).
    + intros [_ ->]. exists (mkRange open offset length ex). split_and!; [by right|done..].
Qed.

Lemma shadow_outside f' o b x : (k = lockUnlock \/ atCapacity (tbl s) f open = false) -> 0 <= b < 2 ^ 63 -> ~ (f' = f /\ o = open /\ covers offset length b) ->
  (exists r, r ∈ at_key (t (lt_apply (tbl s) f open offset length k).1) f' /\ r_owner r = o /\ covers (r_start r) (r_length r) b /\ r_exclusive r = x) <-> shadow s f' o b x.
Proof.
  intros Hcap Hb Hn. destruct (granted Hcap) as [Hin He]. unfold shadow. destruct (decide (f' = f)) as [->|Hne]; [|by rewrite (He f' Hne)]. setoid_rewrite Hin.
  split; intros (r & Hr & Ho & Hc & Hx); exists r; (split; [|done]).
  - destruct (decide (k = lockUnlock)) as [Hk|Hk]; [by destruct Hr|]. destruct Hr as [Hr| ->]; [done|]. exfalso. by apply Hn.
  - destruct (decide (k = lockUnlock)) as [Hk|Hk]; [|by left]. split; [done|]. intros [Ho' [Hs1 Hs2]%sameRange_spec]. apply Hn. rewrite Hs1, Hs2 in Hc. split_and!; [done|congruence|done].
Qed.
End Granted.

Lemma state_eta s kk : kk = kern s -> mkState kk (tbl s) (keys s) = s.
Proof. intros ->. by destruct s. Qed.

(** A lock the kernel granted. *)
Lemma granted_Agree s open offset length k f start l kk : Agree s -> tidy s (Lock open offset length k) -> length <> 0 -> keyFor s open = Some f ->
  flockRange offset length = Some (start, l) -> setlk (kern s) (Some f) open (mkFlock (fcntl_type k) start l) = (kk, None) -> (k = lockUnlock \/ atCapacity (tbl s) f open = false) ->
  Agree (mkState kk (lt_apply (tbl s) f open offset length k).1 (keys s)).
Proof.
  intros Hs Ht Hlen Hkey Hfl Hset Hcap. destruct (granted s Hs open offset length k Ht Hlen f start l Hfl kk Hset Hcap) as [Hin He].
  destruct (words_of s open offset length k Ht Hlen start l Hfl) as (W1 & W2 & W3). pose proof Ht as (_ & Hwl & Htidy).
  assert (Hnew : forall f' r, r ∈ at_key (t (lt_apply (tbl s) f open offset length k).1) f' -> r ∈ at_key (t (tbl s)) f' \/ (f' = f /\ k <> lockUnlock /\ r = mkRange open offset length (bool_decide (k = lockExclusive)))).
  { intros f' r. destruct (decide (f' = f)) as [->|Hne]; [|rewrite (He f' Hne); by left]. rewrite Hin. destruct (decide (k = lockUnlock)); [intros []; by left|]. intros [?|?]; [by left|by right]. }
  split; cbn [tbl kern].
  - unfold Locks.reachable, Locks.steps in *. eapply rtc_r; [apply (a_table s Hs)|]. by apply step_apply.
  - intros f' r [Hr|(_ & _ & ->)]%Hnew; [by apply (a_start s Hs f')|cbn; unfold word64 in *; lia].
  - intros f' r [Hr|(Hf & _ & ->)]%Hnew; [by apply (a_owned s Hs)|by rewrite Hf].
  - assert (Hmix : forall r, r ∈ at_key (t (tbl s)) f -> r_owner r = open -> rangesOverlap offset length (r_start r) (r_length r) = true -> k <> lockUnlock -> r = mkRange open offset length (bool_decide (k = lockExclusive))).
    { intros r Hr Ho Hov Hk. destruct (Htidy f r Hkey Hr Ho Hov) as [[Hs1 Hs2]%sameRange_spec Hkind]. specialize (Hkind Hk). destruct r as [ro rst rl rx]. cbn in *. subst. unfold kind. cbn. by destruct rx. }
    intros f' r1 r2 [Hr1|(Hf1 & Hk & ->)]%Hnew [Hr2|(Hf2 & Hk2 & ->)]%Hnew Ho Hov; [by apply (a_apart s Hs f')| | |done]; subst f'; unfold rangeOverlap in Hov; cbn in *.
    + apply Hmix; [done|done| |done]. by rewrite rangesOverlap_sym.
    + symmetry. by apply Hmix.
  - intros f' o b x Hb. unfold shadow. cbn [tbl]. pose proof (request_names s open offset length k Ht Hlen start l Hfl b) as Hnames.
    destruct (decide (f' = f /\ o = open /\ covers offset length b)) as [(-> & -> & Hc)|Hn].
    + rewrite (shadow_inside s Hs open offset length k Ht Hlen f Hkey start l Hfl kk Hset b x Hcap Hb Hc). rewrite (ofd_set _ _ _ _ _ b Hset) by (by apply Hnames). cbn [l_type]. destruct k; cbn [fcntl_type]; (split; [by intros [= <-]|by intros [? ->]]).
    + rewrite (shadow_outside s Hs open offset length k Ht Hlen f start l Hfl kk Hset f' o b x Hcap Hb Hn), <- (a_bytes s Hs f' o b x Hb).
      rewrite (ofd_other _ _ _ _ _ f' o b Hset); [done|]. intros (-> & -> & [_ Hc]%Hnames). by apply Hn.
Qed.

Lemma lock_Agree s open offset length k : Agree s -> tidy s (Lock open offset length k) -> Agree (applyLock s open offset length k).1.
Proof.
  intros Hs Ht. unfold applyLock. destruct (Z.eqb_spec length 0) as [|Hlen]; [done|]. destruct (flockRange offset length) as [[start l]|] eqn:Hfl; [|done].
  destruct (match keyFor s open with Some key => _ | None => false end) eqn:Hcap; [done|].
  destruct (setlk (kern s) (keyFor s open) open (mkFlock (fcntl_type k) start l)) as [kk [e|]] eqn:Hset.
  - pose proof (ofd_refused _ _ _ _ _ _ Hset) as Hkk. destruct e; cbn [fst]; by rewrite (state_eta s kk Hkk).
  - destruct (keyFor s open) as [f|] eqn:Hkey; [|pose proof (ofd_closed_fd (kern s) open (mkFlock (fcntl_type k) start l)) as Hbad; by rewrite Hset in Hbad].
    apply (granted_Agree s open offset length k f start l kk); try done. apply andb_false_iff in Hcap as [Hk|Hc]; [left|by right]. apply negb_false_iff in Hk. by apply bool_decide_eq_true in Hk.
Qed.

Lemma release_ranges s o f r : Agree s -> r ∈ at_key (t (tbl (releaseAll s o))) f <-> r ∈ at_key (t (tbl s)) f /\ r_owner r <> o.
Proof.
  intros Hs. unfold releaseAll. destruct (keyFor s o) as [key|] eqn:Hk.
  - cbn [tbl]. unfold lt_releaseOwner. rewrite publish_t. unfold releaseOwner, at_key at 1. cbn [locks]. destruct (decide (f = key)) as [->|Hne].
    + rewrite store_eq, list_elem_of_filter. destruct (Z.eqb_spec (r_owner r) o); cbn; naive_solver.
    + rewrite store_ne by congruence. split; [|by intros []]. intros Hr. split; [done|]. intros Ho. apply (a_owned s Hs) in Hr. congruence.
  - split; [|by intros []]. intros Hr. split; [done|]. intros Ho. apply (a_owned s Hs) in Hr. congruence.
Qed.

Lemma step_Agree s e : Agree s -> tidy s e -> Agree (step s e).
Proof.
  intros Hs Ht. destruct e as [o key|o offset length k|o]; cbn [step]; [|by apply lock_Agree|].
  - destruct (keys s !! o) eqn:Ho; [done|]. destruct Hs as [H1 H2 H3 H4 H5]. split; cbn; try done. intros f r Hr. pose proof (H3 f r Hr) as Hk. unfold keyFor in *. cbn. rewrite lookup_insert_ne by congruence. done.
  - pose proof (fun f r => release_ranges s o f r Hs) as Hin. assert (Hk : kern (releaseAll s o) = kern s /\ keys (releaseAll s o) = keys s) by (unfold releaseAll; by destruct (keyFor s o)).
    destruct Hk as [Hk1 Hk2]. rewrite Hk1, Hk2. split; cbn [tbl kern keys].
    + unfold releaseAll. destruct (keyFor s o); [|apply a_table, Hs]. unfold Locks.reachable, Locks.steps in *. eapply rtc_r; [apply (a_table s Hs)|apply step_release].
    + intros f r [Hr _]%Hin. by apply (a_start s Hs f).
    + intros f r [Hr Ho]%Hin. unfold keyFor. cbn [keys]. rewrite lookup_delete_ne by congruence. by apply (a_owned s Hs).
    + intros f r1 r2 [Hr1 _]%Hin [Hr2 _]%Hin. by apply (a_apart s Hs f).
    + intros f o' b x Hb. rewrite ofd_close. unfold shadow. cbn [tbl]. setoid_rewrite Hin. case_bool_decide as Ho.
      * split; [done|]. intros (r & [_ Hne] & Hr & _). congruence.
      * rewrite (a_bytes s Hs f o' b x Hb). unfold shadow. split; intros (r & Hr & H); exists r; [split_and!; try done; [destruct H; congruence|apply H..]|destruct Hr; done].
Qed.

Lemma reachable_Agree k0 s : reachable k0 s -> Agree s.
Proof.
  induction 1 as [Hk|s e _ IH Ht]; [|by apply step_Agree]. assert (He : forall f r, r ∉ at_key (t newLockTable) f) by (intros f r; unfold at_key; cbn; rewrite lookup_empty; apply not_elem_of_nil).
  split; cbn [tbl kern]; [apply rtc_refl|intros f r Hr; by apply He in Hr..|intros f r1 r2 Hr; by apply He in Hr|]. intros f o b x Hb. rewrite Hk. split; [done|]. intros (r & Hr & _). by apply He in Hr.
Qed.


(** ** The two managers

    Where the kernel refuses for a conflict only, as one with room does when no other
    process holds locks, and the table has room, the Linux manager answers what the
    darwin one does, which decides by the table, and leaves the same table: what is
    proved of the requests over the one holds of the other. *)

Lemma publish_same m : LInv m -> publish m (t m) (n (t m)) = m.
Proof. intros Hm. unfold publish. rewrite Z.ltb_irrefl, <- (linv_pub m Hm). by destruct m. Qed.

(** A conflict the kernel sees is one for the table. *)
Lemma kernel_refusal s open offset length k f r : Agree s -> word64 offset -> word64 length -> k <> lockUnlock -> length <> 0 ->
  r ∈ at_key (t (tbl s)) f -> r_owner r <> open -> rangesOverlap offset length (r_start r) (r_length r) = true -> bool_decide (k = lockExclusive) || r_exclusive r = true ->
  atCapacity (tbl s) f open = false -> apply (t (tbl s)) f open offset length k = (t (tbl s), Some errLockConflict).
Proof.
  intros Hs Ho Hl Hk Hz Hr Hne Hov Hx Hcap. pose proof (linv_t _ (reachable_LInv _ (a_table s Hs))) as Hi. pose proof (apply_Inv _ f open offset length k Hi Ho Hl) as Hi'.
  assert (Hboth : forall m, Inv m -> r ∈ at_key m f -> mkRange open offset length (bool_decide (k = lockExclusive)) ∈ at_key m f -> False).
  { intros m Hm Hin1 Hin2. destruct (good_compat _ (inv_at_key m f Hm) _ r Hin2 Hin1) as [H1 H2]; [cbn; congruence|exact Hov|]. cbn in H1. by rewrite H1, H2 in Hx. }
  pose proof (apply_cases (t (tbl s)) f open offset length k Hz) as Hc. inversion Hc as [t' Hu Hkk Heq|k' _ Hin Hkk Heq|k' t' _ _ Hat _ Hkk Heq|k' r' _ _ _ _ _ Hkk Heq|k' _ _ Hfull Hkk Heq]; try done; exfalso.
  - by apply (Hboth (t (tbl s))).
  - cbn in Hi'. apply (Hboth t' Hi'); rewrite Hat; apply elem_of_app; [by left|right; by apply list_elem_of_singleton].
  - unfold atCapacity in Hcap. unfold own in Hfull. destruct (Z.leb_spec maxLockRangesPerFile (len (at_key (t (tbl s)) f))); [done|]. apply Z.leb_gt in Hcap. lia.
Qed.

Theorem managers_agree k0 s open offset length k f :
  (forall fl k' e, setlk (kern s) (Some f) open fl = (k', Some e) -> e = EAGAIN /\ l_type fl <> F_UNLCK /\
     exists o' b ex, o' <> open /\ names fl b /\ held (kern s) f o' b = Some ex /\ (l_type fl = F_WRLCK \/ ex = true)) ->
  reachable k0 s -> tidy s (Lock open offset length k) -> offset < 2 ^ 63 -> keyFor s open = Some f -> atCapacity (tbl s) f open = false ->
  let '(s', e) := applyLock s open offset length k in (tbl s', e) = LockRanges.Locks.applyLock (keyFor s) (tbl s) open offset length k.
Proof.
  intros Hrefuse Hs%reachable_Agree Ht Hoff Hkey Hcap. pose proof (reachable_LInv _ (a_table s Hs)) as Hli. pose proof Ht as (Ho & Hl & _).
  unfold applyLock, LockRanges.Locks.applyLock. rewrite Hkey. destruct (Z.eqb_spec length 0) as [->|Hz]; [unfold lt_apply; cbn; by rewrite publish_same|].
  destruct (flockRange offset length) as [[start l]|] eqn:Hfl; [|unfold flockRange in Hfl; destruct (Z.ltb_spec (2 ^ 63 - 1) offset); [lia|]; by destruct (_ || _)]. rewrite Hcap, andb_false_r.
  destruct (setlk (kern s) (Some f) open (mkFlock (fcntl_type k) start l)) as [kk [e|]] eqn:Hset.
  - destruct (Hrefuse _ _ _ Hset) as (-> & Hty & o' & b & x & Hne & Hb & Hh & Hx). cbn [l_type] in Hty, Hx. assert (Hk : k <> lockUnlock) by (by intros ->).
    apply (request_names s open offset length k Ht Hz start l Hfl) in Hb as [Hb Hc]. apply (a_bytes s Hs) in Hh as (r & Hr & <- & Hcr & <-); [|done].
    unfold lt_apply. rewrite (kernel_refusal s open offset length k f r); [cbn; by rewrite publish_same|done..| | |done].
    + by apply (meets s Hs open offset length k Ht Hz f start l Hfl r b).
    + destruct Hx as [Hx| ->]; [by destruct k|apply orb_true_r].
  - cbn [tbl]. pose proof (no_conflict s Hs open offset length k Ht Hz f start l Hfl kk Hset) as Hno. destruct (lt_apply_t (tbl s) f open offset length k) as [_ He].
    destruct (lt_apply (tbl s) f open offset length k) as [m e]. cbn [fst snd] in *. f_equal. rewrite He. pose proof (apply_cases (t (tbl s)) f open offset length k Hz) as Hc.
    inversion Hc as [t' Hu Hkk Heq|k' _ Hin Hkk Heq|k' t' _ _ Hat _ Hkk Heq|k' r' Hk Hr' Hro Hov Hx Hkk Heq|k' _ _ Hfull Hkk Heq]; try done; exfalso.
    + rewrite (Hno r' Hk Hr' Hro Hov) in Hx. done.
    + unfold atCapacity in Hcap. unfold own in Hfull. destruct (Z.leb_spec maxLockRangesPerFile (len (at_key (t (tbl s)) f))); [done|]. apply Z.leb_gt in Hcap. lia.
Qed.

End Manager.
(** ** A kernel

    A list of segments; a lock or an unlock cuts those of its handle. *)

Record seg := mkSeg { sg_file : fileKey; sg_owner : Z; sg_start : Z; sg_end : Z; sg_ex : bool }.

Definition seg_at (f : fileKey) (o b : Z) (sg : seg) : bool := bool_decide (sg_file sg = f) && (sg_owner sg =? o) && (sg_start sg <=? b) && (b <? sg_end sg).
Definition first (fl : flock) : Z := Z.max 0 (l_start fl).
Definition past (fl : flock) : Z := if l_len fl =? 0 then 2 ^ 63 else Z.min (2 ^ 63) (l_start fl + l_len fl).

Definition cut_seg (f : fileKey) (o s e : Z) (sg : seg) : list seg :=
  if bool_decide (sg_file sg = f) && (sg_owner sg =? o) then
    [mkSeg f o (sg_start sg) (Z.min (sg_end sg) s) (sg_ex sg); mkSeg f o (Z.max (sg_start sg) e) (sg_end sg) (sg_ex sg)]
  else [sg].
Definition denies (f : fileKey) (o s e : Z) (write : bool) (sg : seg) : bool :=
  bool_decide (sg_file sg = f) && negb (sg_owner sg =? o) && (sg_start sg <? e) && (s <? sg_end sg) && (write || sg_ex sg).

Definition seg_setlk (k : list seg) (file : option fileKey) (o : Z) (fl : flock) : list seg * option errno :=
  match file with
  | None => (k, Some Errno)
  | Some f =>
      let cut := flat_map (cut_seg f o (first fl) (past fl)) k in
      match l_type fl with
      | F_UNLCK => (cut, None)
      | ty => if existsb (denies f o (first fl) (past fl) (bool_decide (ty = F_WRLCK))) k then (k, Some EAGAIN)
              else (mkSeg f o (first fl) (past fl) (bool_decide (ty = F_WRLCK)) :: cut, None)
      end
  end.

#[export] Instance segs : OFD (list seg) := {
  setlk := seg_setlk;
  close k o := List.filter (fun sg => negb (sg_owner sg =? o)) k;
  held k f o b := option_map sg_ex (find (seg_at f o b) k) }.

Lemma find_app (P : seg -> bool) l k : option_map sg_ex (find P (l ++ k)) = match option_map sg_ex (find P l) with Some x => Some x | None => option_map sg_ex (find P k) end.
Proof. induction l as [|a l IH]; [done|]. cbn [app find]. by destruct (P a). Qed.

Lemma find_flat (P : seg -> bool) (g : seg -> list seg) k :
  (forall sg, option_map sg_ex (find P (g sg)) = if P sg then Some (sg_ex sg) else None) -> option_map sg_ex (find P (flat_map g k)) = option_map sg_ex (find P k).
Proof.
  intros Hg. induction k as [|sg k IH]; [done|]. cbn [flat_map]. rewrite find_app, Hg, IH. cbn [find]. by destruct (P sg).
Qed.

Lemma first_past fl b : first fl <= b < past fl <-> names fl b.
Proof. unfold first, past, names. destruct (Z.eqb_spec (l_len fl) 0); lia. Qed.

Lemma cut_elsewhere f o fl f' o' b sg : ~ (f' = f /\ o' = o /\ names fl b) ->
  option_map sg_ex (find (seg_at f' o' b) (cut_seg f o (first fl) (past fl) sg)) = if seg_at f' o' b sg then Some (sg_ex sg) else None.
Proof.
  intros Hn. rewrite <- first_past in Hn. unfold cut_seg. destruct (bool_decide_reflect (sg_file sg = f)) as [Hf|]; cbn [andb]; [|by cbn; destruct (seg_at f' o' b sg)].
  destruct (Z.eqb_spec (sg_owner sg) o) as [Ho|]; [|by cbn; destruct (seg_at f' o' b sg)]. cbn [find]. unfold seg_at. cbn [sg_file sg_owner sg_start sg_end].
  rewrite Hf, Ho. destruct (bool_decide_reflect (f = f')) as [->|]; [|done]. destruct (Z.eqb_spec o o') as [->|]; [|done]. cbn [andb].
  assert (Hout : ~ (first fl <= b < past fl)) by (intros Hin; by apply Hn). clear Hn. destruct (Z.leb_spec (sg_start sg) b), (Z.ltb_spec b (Z.min (sg_end sg) (first fl))), (Z.leb_spec (Z.max (sg_start sg) (past fl)) b), (Z.ltb_spec b (sg_end sg)); cbn; try done; lia.
Qed.

Lemma cut_inside f o fl b k : names fl b -> find (seg_at f o b) (flat_map (cut_seg f o (first fl) (past fl)) k) = None.
Proof.
  intros Hb%first_past. induction k as [|sg k IH]; [done|]. cbn [flat_map]. unfold cut_seg at 1. destruct (bool_decide_reflect (sg_file sg = f)) as [Hf|Hf]; cbn [andb].
  - destruct (Z.eqb_spec (sg_owner sg) o) as [Ho|Ho]; cbn [app find]; unfold seg_at at 1; cbn [sg_file sg_owner sg_start sg_end].
    + destruct (Z.leb_spec (sg_start sg) b), (Z.ltb_spec b (Z.min (sg_end sg) (first fl))); try lia; rewrite ?andb_false_r; unfold seg_at at 1; cbn [sg_file sg_owner sg_start sg_end];
        destruct (Z.leb_spec (Z.max (sg_start sg) (past fl)) b); try lia; by rewrite ?andb_false_r.
    + destruct (Z.eqb_spec (sg_owner sg) o); [done|]. by rewrite andb_false_r.
  - cbn [app find]. unfold seg_at at 1. by rewrite bool_decide_eq_false_2.
Qed.

Lemma denies_held f o s e w sg o' b : seg_at f o' b sg = true -> o' <> o -> s <= b < e -> denies f o s e w sg = w || sg_ex sg.
Proof.
  unfold seg_at, denies. intros [[[Hf Ho%Z.eqb_eq]%andb_true_iff Hs%Z.leb_le]%andb_true_iff He%Z.ltb_lt]%andb_true_iff Hne Hb. rewrite Hf. destruct (Z.eqb_spec (sg_owner sg) o); [congruence|].
  by rewrite (proj2 (Z.ltb_lt (sg_start sg) e)), (proj2 (Z.ltb_lt s (sg_end sg))) by lia.
Qed.

Lemma seg_granted k f o fl k' : seg_setlk k (Some f) o fl = (k', None) ->
  k' = match l_type fl with F_UNLCK => [] | ty => [mkSeg f o (first fl) (past fl) (bool_decide (ty = F_WRLCK))] end ++ flat_map (cut_seg f o (first fl) (past fl)) k /\
  (l_type fl <> F_UNLCK -> forall sg, sg ∈ k -> denies f o (first fl) (past fl) (bool_decide (l_type fl = F_WRLCK)) sg = false).
Proof.
  unfold seg_setlk. destruct (l_type fl); [| |by intros [= <-]]; (destruct (existsb _ k) eqn:He; [done|]; intros [= <-]; split; [done|]; intros _ sg Hin; apply not_true_is_false; intros Hd;
    rewrite <- not_true_iff_false, existsb_exists in He; apply He; exists sg; split; [by apply list_elem_of_In|done]).
Qed.

#[export] Instance segs_laws : OFDLaws (list seg).
Proof.
  split; cbn [setlk close held segs].
  - intros k f o fl k' e. unfold seg_setlk. destruct f as [f|]; [|by intros [= <- _]]. destruct (l_type fl); [| |done]; (destruct (existsb _ k); [by intros [= <- _]|done]).
  - done.
  - intros k f o fl k' f' o' b Hs Hn. apply seg_granted in Hs as [-> _]. rewrite find_app, (find_flat _ _ k (fun sg => cut_elsewhere f o fl f' o' b sg Hn)).
    assert (Hh : forall x, find (seg_at f' o' b) [mkSeg f o (first fl) (past fl) x] = None).
    { intros x. cbn [find]. unfold seg_at. cbn [sg_file sg_owner sg_start sg_end]. destruct (bool_decide_reflect (f = f')) as [->|]; [|done]. destruct (Z.eqb_spec o o') as [->|]; [|done]. cbn [andb].
      destruct (Z.leb_spec (first fl) b), (Z.ltb_spec b (past fl)); cbn; try done. exfalso. apply Hn. split_and!; [done|done|]. apply first_past. lia. }
    destruct (l_type fl); rewrite ?Hh; done.
  - intros k f o fl k' b Hs Hb. apply seg_granted in Hs as [-> _]. rewrite find_app, (cut_inside f o fl b k Hb). apply first_past in Hb.
    assert (Hh : forall x, find (seg_at f o b) [mkSeg f o (first fl) (past fl) x] = Some (mkSeg f o (first fl) (past fl) x)).
    { intros x. cbn [find]. unfold seg_at. cbn [sg_file sg_owner sg_start sg_end]. by rewrite bool_decide_eq_true_2, Z.eqb_refl, (proj2 (Z.leb_le _ _)), (proj2 (Z.ltb_lt _ _)) by (done || lia). }
    destruct (l_type fl); rewrite ?Hh; done.
  - intros k f o fl k' o' b ex Hs Hty Hne Hb Hh. apply seg_granted in Hs as [_ Hd]. destruct (find (seg_at f o' b) k) as [sg|] eqn:Hf; [|done]. injection Hh as <-. apply find_some in Hf as [Hin Hat].
    specialize (Hd Hty sg (proj2 (list_elem_of_In _ _) Hin)). rewrite (denies_held f o _ _ _ sg o' b Hat Hne (proj2 (first_past fl b) Hb)) in Hd. apply orb_false_iff in Hd as [Hw Hx]. split; [|done]. by destruct (l_type fl).
  - intros k o f o' b. induction k as [|sg k IH]; [by case_bool_decide|]. cbn [List.filter find]. destruct (Z.eqb_spec (sg_owner sg) o) as [Ho|Ho]; cbn [negb]; [|cbn [find]].
    + rewrite IH. case_bool_decide as Hoo; [done|]. unfold seg_at at 2. rewrite Ho. destruct (Z.eqb_spec o o'); [congruence|]. by rewrite andb_false_r.
    + destruct (seg_at f o' b sg) eqn:Hat; [|done]. case_bool_decide as Hoo; [|done]. unfold seg_at in Hat. subst. destruct (Z.eqb_spec (sg_owner sg) o); [done|]. by rewrite andb_false_r in Hat.
Qed.

Definition none : list seg := [].


(** Two handles of one file: one locks ten bytes, the other the next ten. *)
Definition two_handles : state (K := list seg) := step (step (mkState none newLockTable ∅) (OpenFile 1 (1, 1))) (OpenFile 2 (1, 1)).
Definition two_locks : state := step (step two_handles (Lock 1 0 10 lockExclusive)) (Lock 2 10 10 lockShared).

Lemma two_locks_reachable : reachable none two_locks.
Proof.
  unfold two_locks, two_handles. repeat apply reach_step; try done.
  - apply reach_start. done.
  - split_and!; [unfold word64; lia..|]. intros key r _ Hr. by apply elem_of_nil in Hr.
  - split_and!; [unfold word64; lia..|]. intros key r Hkey Hr Ho _. assert (Hk : key = (1, 1)) by (vm_compute in Hkey; by injection Hkey as <-). subst.
    vm_compute in Hr. apply list_elem_of_singleton in Hr as ->. done.
Qed.


(** A handle that unlocks the middle of what it locked: the kernel grants the bytes to
    another handle, the table keeps the whole range and does not take the other's, so
    the first handle writes where the second holds an exclusive lock, and the second is
    refused the read of its own bytes. *)
Example hole_divides_shadow :
  let s := step (step (step two_handles (Lock 1 0 100 lockExclusive)) (Lock 1 10 10 lockUnlock)) (Lock 2 10 10 lockExclusive) in
  held (kern s) (1, 1) 2 12 = Some true /\ held (kern s) (1, 1) 1 12 = None /\
  conflictsWith s 1 12 1 true = false /\ conflictsWith s 2 12 1 false = true.
Proof. by vm_compute. Qed.

(** Two processes, as two workers are: each has a table of its own and the kernel is
    shared.  A lock the other process gives up closes no channel of this one, so a LOCK
    parked here sleeps on until its timer, the bytes being free. *)
Example other_process_wakes_nobody :
  let ours := step (step (mkState none newLockTable ∅) (OpenFile 1 (1, 1))) (Lock 1 0 1 lockExclusive) in
  let theirs := step (step (mkState (kern ours) newLockTable ∅) (OpenFile 9 (1, 1))) (Lock 9 10 10 lockExclusive) in
  let parked := mkState (kern theirs) (releaseSignal (tbl ours)).1 (keys ours) in
  let refused := applyLock parked 1 10 10 lockExclusive in
  let free := mkState (kern (step theirs (CloseFile 9))) (tbl refused.1) (keys ours) in
  refused.2 = Some errLockConflict /\ (applyLock free 1 10 10 lockExclusive).2 = None /\ elements (closed (tbl free)) = [].
Proof. by vm_compute. Qed.

End Ofd.
