(* ===== verification/Access.v ===== *)
(** Access masks, permission bits and I/O lengths: [internal/parent/maxaccess.go]
    and, in [dispatch.go], the access hints of a directory listing,
    [readLengthForOpen] and the errno table [statusFromErr].  What the kernel
    answers ([faccessat], [fstat]) is an argument. *)

From S2P Require Import Prelude Smb2.

Module Access.

Definition AccessFileReadData : Z := 0x00000001.
Definition AccessFileWriteData : Z := 0x00000002.
Definition AccessFileAppendData : Z := 0x00000004.
Definition AccessGenericRead : Z := 0x80000000.
Definition AccessGenericWrite : Z := 0x40000000.
Definition AccessGenericExecute : Z := 0x20000000.
Definition AccessGenericAll : Z := 0x10000000.

Definition accFileReadData : Z := 0x00000001.
Definition accFileWriteData : Z := 0x00000002.
Definition accFileAppendData : Z := 0x00000004.
Definition accFileReadEA : Z := 0x00000008.
Definition accFileWriteEA : Z := 0x00000010.
Definition accFileExecute : Z := 0x00000020.
Definition accFileDeleteChild : Z := 0x00000040.
Definition accFileReadAttributes : Z := 0x00000080.
Definition accFileWriteAttributes : Z := 0x00000100.
Definition accDelete : Z := 0x00010000.
Definition accReadControl : Z := 0x00020000.
Definition accWriteDAC : Z := 0x00040000.
Definition accWriteOwner : Z := 0x00080000.
Definition accSynchronize : Z := 0x00100000.

Definition accessFileAllAccess : Z := 0x001F01FF.
Definition accessReadOnlyShare : Z := 0x001200A9.

(** [a | b | ...] and [a &^ b] *)
Definition union (ms : list Z) : Z := fold_right Z.lor 0 ms.
Definition andnot (a b : Z) : Z := Z.ldiff a b.

Definition accessWriteBits : Z :=
  union [accFileWriteData; accFileAppendData; accFileWriteEA; accFileWriteAttributes;
         accFileDeleteChild; accDelete; accWriteDAC; accWriteOwner].

Definition shareAccessCeiling (readOnly : bool) : Z :=
  if readOnly then accessReadOnlyShare else accessFileAllAccess.

Definition narrowAccessMask (ceiling : Z) (readable writable executable : bool) : Z :=
  let granted := ceiling in
  let granted := if negb writable then andnot granted accessWriteBits else granted in
  let granted := if negb executable then andnot granted accFileExecute else granted in
  if negb readable then andnot granted (union [accFileReadData; accFileReadEA]) else granted.

(** The answer of [faccessat]: [None] is success. *)
Inductive errno :=
  | ENOSPC | EDQUOT | EFBIG | ENOTEMPTY | EISDIR | ENOTDIR | EMFILE | ENFILE | EROFS
  | ENAMETOOLONG | EXDEV | ELOOP | EMLINK | ENOMEM | ENOBUFS | EIO | EBADF | EINVAL
  | ENOSYS | ENOTSUP | ENOENT | EACCES | EPERM | EEXIST | EOTHER.

Inductive accessMode := R_OK | W_OK | X_OK.

Definition pathPermits (faccessat : accessMode -> option errno) (mode : accessMode) : bool :=
  match faccessat mode with
  | None => true
  | Some EACCES | Some EPERM | Some EROFS => false
  | Some _ => true
  end.

Definition maximalAccess (faccessat : accessMode -> option errno) (shareReadOnly : bool) : Z :=
  let ceiling := shareAccessCeiling shareReadOnly in
  let writable := negb (Z.land ceiling accessWriteBits =? 0) && pathPermits faccessat W_OK in
  narrowAccessMask ceiling (pathPermits faccessat R_OK) writable (pathPermits faccessat X_OK).

(** [truncatingDisposition] of a CREATE. *)
Definition CreateDispositionSupersede : Z := 0.
Definition CreateDispositionOpen : Z := 1.
Definition CreateDispositionCreate : Z := 2.
Definition CreateDispositionOpenIf : Z := 3.
Definition CreateDispositionOverwrite : Z := 4.
Definition CreateDispositionOverwriteIf : Z := 5.

Definition truncatingDisposition (disposition : Z) : bool :=
  (disposition =? CreateDispositionOverwrite) || (disposition =? CreateDispositionOverwriteIf) ||
  (disposition =? CreateDispositionSupersede).

(** The portable sentinels [fs.ErrNotExist], [fs.ErrPermission], [fs.ErrExist]
    are what [os.IsNotExist] and its siblings see in [ENOENT], [EACCES]/[EPERM]
    and [EEXIST]; [None] is a nil error. *)
Definition statusFromErr (e : option errno) : Z :=
  match e with
  | None => StatusSuccess
  | Some e =>
      match e with
      | ENOSPC | EDQUOT | EFBIG => StatusDiskFull
      | ENOTEMPTY => StatusDirectoryNotEmpty
      | EISDIR => StatusFileIsADirectory
      | ENOTDIR => StatusNotADirectory
      | EMFILE | ENFILE => StatusTooManyOpenedFiles
      | EROFS => StatusAccessDenied
      | ENAMETOOLONG => StatusObjectNameInvalid
      | EXDEV => StatusNotSameDevice
      | ELOOP => StatusObjectPathNotFound
      | EMLINK => StatusTooManyLinks
      | ENOMEM | ENOBUFS => StatusInsufficientResources
      | EIO => StatusIODeviceError
      | EBADF => StatusInvalidHandle
      | EINVAL => StatusInvalidParameter
      | ENOSYS | ENOTSUP => StatusNotSupported
      | ENOENT => StatusObjectNameNotFound
      | EACCES | EPERM => StatusAccessDenied
      | EEXIST => StatusObjectNameCollision
      | EOTHER => StatusInternalError
      end
  end.

(** ** The hints of a directory listing *)

Record posixIdentity := mkIdentity { uid : Z; gid : Z; groups : list Z; root : bool }.

Definition inGroup (id : posixIdentity) (g : Z) : bool :=
  if gid id =? g then true else existsb (fun x => x =? g) (groups id).

Definition permits (id : posixIdentity) (perm fuid fgid : Z) : bool * bool * bool :=
  if root id then (true, true, negb (Z.land perm 0x49 =? 0)) else
  let bits :=
    if uid id =? fuid then Z.land (Z.shiftr perm 6) 7
    else if inGroup id fgid then Z.land (Z.shiftr perm 3) 7
    else Z.land perm 7 in
  (negb (Z.land bits 4 =? 0), negb (Z.land bits 2 =? 0), negb (Z.land bits 1 =? 0)).

(** [info] is the permission bits and the owner of the entry, when the [stat]
    is there. *)
Definition dirEntryAccessMask (info : option (Z * Z * Z)) (id : posixIdentity) (shareReadOnly : bool) : Z :=
  let ceiling := shareAccessCeiling shareReadOnly in
  match info with
  | None => ceiling
  | Some (perm, fuid, fgid) =>
      let '(readable, writable, executable) := permits id perm fuid fgid in
      narrowAccessMask ceiling readable writable executable
  end.

(** ** READ: the length to allocate

    [st] is the [fstat] of the descriptor, [None] if it failed: whether the
    file is regular, and its (signed) size. *)
Definition readLengthForOpen (st : option (bool * Z)) (offset want : Z) : Z * bool :=
  match st with
  | None => (want, false)
  | Some (regular, size) =>
      if negb regular || (size <? 0) then (want, false) else
      if size <=? offset then (0, true) else
      let avail := size - offset in
      if avail <? want then (avail mod 2 ^ 32, false) else (want, false)
  end.

(** ** Theorems *)

Lemma testbit_narrow ceiling r w x i : 0 <= i ->
  Z.testbit (narrowAccessMask ceiling r w x) i =
    Z.testbit ceiling i && (w || negb (Z.testbit accessWriteBits i)) &&
    (x || negb (Z.testbit accFileExecute i)) &&
    (r || negb (Z.testbit (union [accFileReadData; accFileReadEA]) i)).
Proof.
  intros Hi. unfold narrowAccessMask, andnot.
  destruct r, w, x; simpl negb; cbv zeta iota; rewrite ?Z.ldiff_spec;
    simpl orb; rewrite ?andb_true_r; done.
Qed.

(** The access mask a CREATE grants holds a right exactly when the share
    allows it and the kernel does not refuse it: a write right needs [W_OK], a
    read right [R_OK], the execute right [X_OK].  Rights no permission governs
    follow the share alone, and no file of a read-only share is granted any
    right that writes. *)
Theorem maximalAccess_spec (faccessat : accessMode -> option errno) (shareReadOnly : bool) (i : Z) :
  0 <= i ->
  Z.testbit (maximalAccess faccessat shareReadOnly) i =
    (Z.testbit (shareAccessCeiling shareReadOnly) i &&
     (negb (Z.testbit accessWriteBits i) || pathPermits faccessat W_OK) &&
     (negb (Z.testbit (union [accFileReadData; accFileReadEA]) i) || pathPermits faccessat R_OK) &&
     (negb (Z.testbit accFileExecute i) || pathPermits faccessat X_OK))%bool /\
  (shareReadOnly = true -> Z.land (maximalAccess faccessat shareReadOnly) accessWriteBits = 0).
Proof.
  intros Hi. assert (Z.land accessReadOnlyShare accessWriteBits = 0) as Hro by reflexivity.
  assert (forall j, 0 <= j -> Z.testbit accessReadOnlyShare j && Z.testbit accessWriteBits j = false) as Hroj.
  { intros j Hj. rewrite <- Z.land_spec, Hro. apply Z.bits_0. }
  unfold maximalAccess. split.
  - rewrite testbit_narrow by done. generalize (Z.testbit (union [accFileReadData; accFileReadEA]) i). intros rb.
    destruct shareReadOnly; simpl shareAccessCeiling.
    + rewrite Hro. specialize (Hroj i Hi).
      destruct (Z.testbit accessReadOnlyShare i), (Z.testbit accessWriteBits i), (pathPermits faccessat W_OK),
        (pathPermits faccessat R_OK), (pathPermits faccessat X_OK), rb,
        (Z.testbit accFileExecute i); done.
    + change (Z.land accessFileAllAccess accessWriteBits =? 0) with false. simpl negb.
      destruct (Z.testbit accessFileAllAccess i), (Z.testbit accessWriteBits i), (pathPermits faccessat W_OK),
        (pathPermits faccessat R_OK), (pathPermits faccessat X_OK), rb,
        (Z.testbit accFileExecute i); done.
  - intros ->. apply Z.bits_inj'. intros j Hj. rewrite Z.land_spec, testbit_narrow, Z.bits_0 by done.
    simpl shareAccessCeiling. specialize (Hroj j Hj).
    destruct (Z.testbit accessReadOnlyShare j), (Z.testbit accessWriteBits j); simpl in *; try done;
      by rewrite ?andb_false_r.
Qed.

Lemma maximalAccess_spec_witness :
  Z.land (maximalAccess (fun _ => None) true) accessWriteBits = 0.
Proof. apply (maximalAccess_spec (fun _ => None) true 0 ltac:(lia)). reflexivity. Defined.

(** The buffer a READ allocates never reaches past the end of a regular
    file: it is what the client asked for or what is left, end-of-file is
    reported exactly when nothing is left, and a file that is not regular is
    read as asked. *)
Theorem readLengthForOpen_spec (regular : bool) (size offset want : Z) :
  0 <= offset < 2 ^ 64 -> 0 <= want < 2 ^ 32 -> 0 <= size < 2 ^ 63 ->
  let '(n, eof) := readLengthForOpen (Some (regular, size)) offset want in
  if regular
  then if size <=? offset then n = 0 /\ eof = true else n = Z.min want (size - offset) /\ eof = false
  else n = want /\ eof = false.
Proof.
  intros Ho Hw Hs. unfold readLengthForOpen. destruct regular; simpl; [|done].
  destruct (Z.ltb_spec size 0); [lia|]. destruct (Z.leb_spec size offset); [done|].
  destruct (Z.ltb_spec (size - offset) want); (split; [|done]); [rewrite Z.mod_small|]; lia.
Qed.

Lemma readLengthForOpen_spec_witness : readLengthForOpen (Some (true, 10)) 4 100 = (6, false).
Proof.
  pose proof (readLengthForOpen_spec true 10 4 100 ltac:(lia) ltac:(lia) ltac:(lia)) as Hr.
  destruct (readLengthForOpen (Some (true, 10)) 4 100) as [n e].
  destruct Hr as [-> ->]. reflexivity.
Defined.

End Access.
