(* ===== verification/ShareMode.v ===== *)
(** Share modes (deny modes) and the parking of a refused CREATE:
    [internal/parent/sharemode.go] and [sharewait.go].

    An [*Open] is its identity, a [Z], with [0] for nil.  [fstat] on the owner's
    descriptor, which [entryLive] consults, is the argument [live]: the key of
    the file behind a handle, [None] when the handle has lost its descriptor.
    A waiter is the number of its channel. *)

From S2P Require Import Prelude Smb2 LockRanges Access.

Module ShareMode.
Import Access.

Definition shareAccessRead : Z := 0x00000001.
Definition shareAccessWrite : Z := 0x00000002.
Definition shareAccessDelete : Z := 0x00000004.

Definition sharingReadAccess : Z :=
  union [AccessFileReadData; accFileExecute; AccessGenericRead; AccessGenericExecute; AccessGenericAll].
Definition sharingWriteAccess : Z :=
  union [AccessFileWriteData; AccessFileAppendData; AccessGenericWrite; AccessGenericAll].
Definition sharingDeleteAccess : Z := union [accDelete; AccessGenericAll].
Definition sharingAttrOnlyAccess : Z := union [accFileReadAttributes; accFileWriteAttributes; accSynchronize].

(** [m & bit != 0] *)
Definition hasBit (m bit : Z) : bool := negb (Z.land m bit =? 0).

Record shareModeEntry := mkEntry {
  e_owner : Z; e_read : bool; e_write : bool; e_del : bool; e_attrOnly : bool; e_shared : Z }.

Definition newShareModeEntry (owner desired share : Z) : shareModeEntry :=
  mkEntry owner (hasBit desired sharingReadAccess) (hasBit desired sharingWriteAccess)
    (hasBit desired sharingDeleteAccess) (andnot desired sharingAttrOnlyAccess =? 0) share.

Definition shareConflict (existing incoming : shareModeEntry) : bool :=
  if negb (Bool.eqb (e_attrOnly existing) (e_attrOnly incoming)) then false else
  if e_read incoming && negb (hasBit (e_shared existing) shareAccessRead) then true else
  if e_write incoming && negb (hasBit (e_shared existing) shareAccessWrite) then true else
  if e_del incoming && negb (hasBit (e_shared existing) shareAccessDelete) then true else
  if e_read existing && negb (hasBit (e_shared incoming) shareAccessRead) then true else
  if e_write existing && negb (hasBit (e_shared incoming) shareAccessWrite) then true else
  if e_del existing && negb (hasBit (e_shared incoming) shareAccessDelete) then true else
  false.

(** [waiters] holds the channels parked on a file, [fresh] the next channel,
    [closed] the channels that were closed. *)
Record shareModeTable := mkTable {
  byFile : gmap fileKey (list shareModeEntry);
  owners : gmap Z fileKey;
  waiters : gmap fileKey (list nat);
  fresh : nat;
  closed : gset nat }.

Definition newShareModeTable : shareModeTable := mkTable ∅ ∅ ∅ 0 ∅.

Definition entries (t : shareModeTable) (key : fileKey) : list shareModeEntry := default [] (byFile t !! key).
Definition parkedOn (t : shareModeTable) (key : fileKey) : list nat := default [] (waiters t !! key).

Definition shareModeApplies (isDir isStream isPipe hasFile : bool) : bool :=
  negb isDir && negb isStream && negb isPipe && hasFile.

Definition entryLive (live : Z -> option fileKey) (e : shareModeEntry) (key : fileKey) : bool :=
  if e_owner e =? 0 then false else
  match live (e_owner e) with None => false | Some k => bool_decide (k = key) end.

(** [store]: an emptied slot is deleted. *)
Definition storeEntries (m : gmap fileKey (list shareModeEntry)) (key : fileKey) (ents : list shareModeEntry) :=
  match ents with [] => delete key m | _ => <[key := ents]> m end.

Definition checkLocked (live : Z -> option fileKey) (t : shareModeTable) (key : fileKey) (desired share : Z) : bool :=
  let probe := newShareModeEntry 0 desired share in
  negb (existsb (fun e => entryLive live e key && shareConflict e probe) (entries t key)).

Definition acquireLocked (live : Z -> option fileKey) (t : shareModeTable) (key : fileKey)
    (o desired share : Z) : bool * shareModeTable :=
  let incoming := newShareModeEntry o desired share in
  if bool_decide (is_Some (owners t !! o)) then (true, t) else
  let ents := entries t key in
  let kept := filter (fun e => entryLive live e key = true) ents in
  let dead := filter (fun e => entryLive live e key = false) ents in
  let own := fold_left (fun m e => delete (e_owner e) m) dead (owners t) in
  if existsb (fun e => shareConflict e incoming) kept
  then (false, mkTable (storeEntries (byFile t) key kept) own (waiters t) (fresh t) (closed t))
  else (true, mkTable (storeEntries (byFile t) key (kept ++ [incoming])) (<[o := key]> own)
                (waiters t) (fresh t) (closed t)).

Definition wakeLocked (t : shareModeTable) (key : fileKey) : shareModeTable :=
  match parkedOn t key with
  | [] => t
  | ws => mkTable (byFile t) (owners t) (delete key (waiters t)) (fresh t) (list_to_set ws ∪ closed t)
  end.

Definition release (t : shareModeTable) (o : Z) : shareModeTable :=
  if o =? 0 then t else
  match owners t !! o with
  | None => t
  | Some key =>
      let kept := filter (fun e => (e_owner e =? o) = false) (entries t key) in
      wakeLocked (mkTable (storeEntries (byFile t) key kept) (delete o (owners t))
                    (waiters t) (fresh t) (closed t)) key
  end.

(** The first entry of [from] becomes [to]'s. *)
Fixpoint retarget (ents : list shareModeEntry) (from to : Z) : list shareModeEntry :=
  match ents with
  | [] => []
  | e :: ents =>
      if e_owner e =? from
      then mkEntry to (e_read e) (e_write e) (e_del e) (e_attrOnly e) (e_shared e) :: ents
      else e :: retarget ents from to
  end.

Definition transfer (t : shareModeTable) (from to : Z) : shareModeTable :=
  if (from =? 0) || (to =? 0) || (from =? to) then t else
  match owners t !! from with
  | None => t
  | Some key =>
      mkTable (<[key := retarget (entries t key) from to]> (byFile t))
        (<[to := key]> (delete from (owners t))) (waiters t) (fresh t) (closed t)
  end.

Definition registerWaiterLocked (t : shareModeTable) (key : fileKey) : shareModeTable * nat :=
  (mkTable (byFile t) (owners t) (<[key := parkedOn t key ++ [fresh t]]> (waiters t)) (S (fresh t)) (closed t),
   fresh t).

Definition acquireOrWait (live : Z -> option fileKey) (t : shareModeTable) (key : fileKey) (o desired share : Z)
    : bool * option nat * shareModeTable :=
  let '(ok, t) := acquireLocked live t key o desired share in
  if ok then (true, None, t)
  else let '(t, w) := registerWaiterLocked t key in (false, Some w, t).

Fixpoint remove_first (w : nat) (ws : list nat) : option (list nat) :=
  match ws with
  | [] => None
  | x :: ws => if bool_decide (x = w) then Some ws else cons x <$> remove_first w ws
  end.

Definition unwait (t : shareModeTable) (key : fileKey) (w : nat) : shareModeTable :=
  match remove_first w (parkedOn t key) with
  | None => t
  | Some ws =>
      mkTable (byFile t) (owners t)
        (match ws with [] => delete key (waiters t) | _ => <[key := ws]> (waiters t) end)
        (fresh t) (closed t)
  end.

(** ** Interleavings: any sequence of the table's operations *)

Inductive action :=
  | AcquireOrWait (live : Z -> option fileKey) (key : fileKey) (o desired share : Z)
  | Release (o : Z)
  | Transfer (from to : Z)
  | Unwait (key : fileKey) (w : nat).

Definition exec (t : shareModeTable) (a : action) : shareModeTable :=
  match a with
  | AcquireOrWait live key o desired share => (acquireOrWait live t key o desired share).2
  | Release o => release t o
  | Transfer from to => transfer t from to
  | Unwait key w => unwait t key w
  end.

(** A handle is an allocated object, and a reservation moves to a fresh one. *)
Definition enabled (t : shareModeTable) (a : action) : Prop :=
  match a with
  | AcquireOrWait _ _ o _ _ => o <> 0
  | Transfer _ to => owners t !! to = None
  | _ => True
  end.

Inductive trace : shareModeTable -> list action -> shareModeTable -> Prop :=
  | trace_nil t : trace t [] t
  | trace_cons t a acts t' : enabled t a -> trace (exec t a) acts t' -> trace t (a :: acts) t'.

(** ** [waitForShareMode]

    The environment is a script: before each time the waiter looks, other
    connections run a list of actions; when the script ends the deadline has
    fired.  [waits] is the connection's count of parked CREATEs, which the
    claim adds one to and every return gives back. *)

Definition maxSharingWaits : Z := 4.

Definition beginSharingWait (waits : Z) : bool * Z :=
  if maxSharingWaits <? waits + 1 then (false, waits) else (true, waits + 1).
Definition endSharingWait (waits : Z) : Z := waits - 1.

Section Wait.
Context (live : Z -> option fileKey) (key : fileKey) (o desired share : Z).

Fixpoint wait_loop (t : shareModeTable) (w : nat) (script : list (list action)) : bool * shareModeTable * list nat :=
  match script with
  | [] => (false, unwait t key w, [w])
  | acts :: script =>
      let t := fold_left exec acts t in
      if bool_decide (w ∈ closed t) then
        match acquireOrWait live t key o desired share with
        | (true, _, t) => (true, t, [w])
        | (false, Some w', t) =>
            let '(ok, t, ws) := wait_loop t w' script in (ok, t, w :: ws)
        | (false, None, t) => (false, t, [w])
        end
      else wait_loop t w script
  end.

(** The result, the table, the connection's count, and the channels this CREATE
    registered. *)
Definition acquireShareMode (t : shareModeTable) (waits : Z) (script : list (list action))
    : bool * shareModeTable * Z * list nat :=
  match acquireOrWait live t key o desired share with
  | (true, _, t) => (true, t, waits, [])
  | (false, Some w, t) =>
      match beginSharingWait waits with
      | (false, waits) => (false, unwait t key w, waits, [w])
      | (true, waits) =>
          let '(ok, t, ws) := wait_loop t w script in (ok, t, endSharingWait waits, ws)
      end
  | (false, None, t) => (false, t, waits, [])
  end.
End Wait.

(** ** The sharing check *)

(** What [holder] shares covers what [other] does. *)
Definition tolerates (holder other : shareModeEntry) : Prop :=
  (e_read other = true -> hasBit (e_shared holder) shareAccessRead = true) /\
  (e_write other = true -> hasBit (e_shared holder) shareAccessWrite = true) /\
  (e_del other = true -> hasBit (e_shared holder) shareAccessDelete = true).

Lemma guard_false (want allowed rest : bool) :
  (if want && negb allowed then true else rest) = false <-> (want = true -> allowed = true) /\ rest = false.
Proof. destruct want, allowed, rest; simpl; intuition congruence. Qed.

Lemma shareConflict_false a b : shareConflict a b = false <->
  e_attrOnly a <> e_attrOnly b \/ (tolerates a b /\ tolerates b a).
Proof.
  unfold shareConflict, tolerates. destruct (Bool.eqb_spec (e_attrOnly a) (e_attrOnly b)); simpl; [|tauto].
  rewrite !guard_false. tauto.
Qed.

Lemma shareConflict_sym a b : shareConflict a b = shareConflict b a.
Proof.
  destruct (shareConflict a b) eqn:Hab, (shareConflict b a) eqn:Hba; try done; exfalso.
  - apply shareConflict_false in Hba. assert (shareConflict a b = false); [|congruence].
    apply shareConflict_false. destruct Hba as [|[]]; auto.
  - apply shareConflict_false in Hab. assert (shareConflict b a = false); [|congruence].
    apply shareConflict_false. destruct Hab as [|[]]; auto.
Qed.

(** ** The invariant *)

Record TInv (t : shareModeTable) : Prop := {
  i_owner : forall key e, e ∈ entries t key -> owners t !! e_owner e = Some key /\ e_owner e <> 0;
  i_entry : forall key o, owners t !! o = Some key -> exists e, e ∈ entries t key /\ e_owner e = o;
  i_nodup : forall key, NoDup (map e_owner (entries t key));
  i_compat : forall key a b, a ∈ entries t key -> b ∈ entries t key ->
    e_owner a <> e_owner b -> shareConflict a b = false }.

Lemma entries_store m key key' ents :
  default [] (storeEntries m key ents !! key') = if decide (key = key') then ents else default [] (m !! key').
Proof.
  unfold storeEntries. case_decide as Hk; [subst key'|].
  - destruct ents; [by rewrite lookup_delete_eq|by rewrite lookup_insert_eq].
  - destruct ents; [by rewrite lookup_delete_ne|by rewrite lookup_insert_ne].
Qed.

Lemma lookup_delete_all dead (m : gmap Z fileKey) o :
  fold_left (fun m e => delete (e_owner e) m) dead m !! o =
  if decide (o ∈ map e_owner dead) then None else m !! o.
Proof.
  revert m. induction dead as [|e dead IH]; intros m; simpl; [done|]. rewrite IH.
  destruct (decide (o = e_owner e)) as [->|Hne].
  - rewrite lookup_delete_eq. rewrite (decide_True (P := e_owner e ∈ _ :: _)) by (apply elem_of_cons; by left).
    by case_decide.
  - rewrite lookup_delete_ne by done. apply decide_ext. rewrite elem_of_cons. intuition congruence.
Qed.

Lemma NoDup_owner_inj ents a b : NoDup (map e_owner ents) -> a ∈ ents -> b ∈ ents -> e_owner a = e_owner b -> a = b.
Proof.
  induction ents as [|e ents IH]; simpl; intros Hn Ha Hb He; [by apply not_elem_of_nil in Ha|].
  apply NoDup_cons in Hn as [Hni Hn]. apply elem_of_cons in Ha as [->|Ha], Hb as [->|Hb]; [done|..].
  - exfalso. apply Hni. rewrite He. by apply list_elem_of_fmap_2.
  - exfalso. apply Hni. rewrite <- He. by apply list_elem_of_fmap_2.
  - auto.
Qed.

Lemma sublist_map_filter (P : shareModeEntry -> Prop) `{!forall x, Decision (P x)} ents :
  NoDup (map e_owner ents) -> NoDup (map e_owner (filter P ents)).
Proof.
  induction ents as [|e ents IH]; simpl; intros Hn; [done|]. apply NoDup_cons in Hn as [Hni Hn].
  rewrite filter_cons. case_decide; [|auto]. simpl. apply NoDup_cons. split; [|auto].
  intros Hin. apply list_elem_of_fmap in Hin as (e' & He & Hin). apply list_elem_of_filter in Hin as [_ Hin].
  apply Hni. rewrite He. by apply list_elem_of_fmap_2.
Qed.

(** [t'] is [t] without the entries of one file that fail [P], and without
    their owners. *)
Definition sweeps (t t' : shareModeTable) (key : fileKey) (P : shareModeEntry -> Prop) : Prop :=
  (forall key' e, e ∈ entries t' key' <-> e ∈ entries t key' /\ (key' = key -> P e)) /\
  (forall key', NoDup (map e_owner (entries t' key'))) /\
  (forall o k, owners t' !! o = Some k <->
     owners t !! o = Some k /\ (forall e, e ∈ entries t key -> e_owner e = o -> P e)).

Lemma sweep_TInv t t' key P : TInv t -> sweeps t t' key P -> TInv t'.
Proof.
  intros [Ho He Hn Hc] (Hse & Hsn & Hso). split.
  - intros key' e Hin. apply Hse in Hin as [Hin HP]. destruct (Ho key' e Hin) as [Hoo Hne].
    split; [|done]. apply Hso. split; [done|]. intros e' Hin' Heq.
    destruct (Ho key e' Hin') as [Hoo' _]. rewrite Heq, Hoo in Hoo'. injection Hoo' as <-.
    rewrite (NoDup_owner_inj _ e' e (Hn key') Hin' Hin Heq). by apply HP.
  - intros key' o Hoo. apply Hso in Hoo as [Hoo HP]. destruct (He key' o Hoo) as (e & Hin & Heo).
    exists e. split; [|done]. apply Hse. split; [done|]. intros ->. by apply HP.
  - done.
  - intros key' a b Ha Hb. apply Hse in Ha as [Ha _], Hb as [Hb _]. by apply (Hc key').
Qed.

Lemma acquire_sweeps live t key w f c : TInv t ->
  let kept := filter (fun e => entryLive live e key = true) (entries t key) in
  let dead := filter (fun e => entryLive live e key = false) (entries t key) in
  sweeps t (mkTable (storeEntries (byFile t) key kept) (fold_left (fun m e => delete (e_owner e) m) dead (owners t)) w f c)
    key (fun e => entryLive live e key = true).
Proof.
  intros Hi. split_and!.
  - intros key' e. unfold entries at 1. simpl. rewrite entries_store. case_decide; [subst|].
    + rewrite list_elem_of_filter. tauto.
    + unfold entries. tauto || (split; [intros; split; [done|congruence]|tauto]).
  - intros key'. unfold entries. simpl. rewrite entries_store. case_decide.
    + apply sublist_map_filter, (i_nodup t Hi).
    + apply (i_nodup t Hi).
  - intros o k. simpl. rewrite lookup_delete_all. case_decide as Hd.
    + split; [done|]. intros [_ HP]. apply list_elem_of_fmap in Hd as (e & -> & Hd).
      apply list_elem_of_filter in Hd as [Hf Hin]. by rewrite HP in Hf.
    + split; [|by intros [? _]]. intros Hk. split; [done|]. intros e Hin <-.
      destruct (entryLive live e key) eqn:Hl; [done|]. exfalso. apply Hd.
      apply list_elem_of_fmap_2, list_elem_of_filter. done.
Qed.

(** Recording a new reservation that conflicts with none. *)
Lemma TInv_add t t' key e : TInv t -> owners t !! e_owner e = None -> e_owner e <> 0 ->
  (forall a, a ∈ entries t key -> shareConflict a e = false) ->
  (forall key', entries t' key' = if decide (key = key') then entries t key ++ [e] else entries t key') ->
  owners t' = <[e_owner e := key]> (owners t) -> TInv t'.
Proof.
  intros Hi Hno Hnz Hok Hent Hown. pose proof Hi as [Ho He Hn Hc].
  assert (forall key' a, a ∈ entries t' key' <-> a ∈ entries t key' \/ (key' = key /\ a = e)) as Hin.
  { intros key' a. rewrite Hent. case_decide; [subst|]; rewrite ?elem_of_app, ?list_elem_of_singleton; intuition congruence. }
  assert (forall key' a, a ∈ entries t key' -> e_owner a <> e_owner e) as Hne.
  { intros key' a Ha Heq. destruct (Ho key' a Ha) as [Hx _]. congruence. }
  split.
  - intros key' a Ha. rewrite Hown. apply Hin in Ha as [Ha|[-> ->]]; [|by rewrite lookup_insert_eq].
    rewrite lookup_insert_ne by (intros Heq; by apply (Hne key' a)). by apply Ho.
  - intros key' o. rewrite Hown. destruct (decide (e_owner e = o)) as [<-|].
    + rewrite lookup_insert_eq. intros [= <-]. exists e. split; [|done]. apply Hin. auto.
    + rewrite lookup_insert_ne by done. intros Hoo. destruct (He _ _ Hoo) as (a & ? & ?). exists a.
      split; [|done]. apply Hin. auto.
  - intros key'. rewrite Hent. case_decide; [|apply Hn]. rewrite map_app. apply NoDup_app. split; [apply Hn|].
    split; [|apply NoDup_singleton]. intros o Hoin Hos. apply list_elem_of_singleton in Hos as ->.
    apply list_elem_of_fmap in Hoin as (a & Heq & Ha). by apply (Hne key a).
  - intros key' a b Ha Hb Hab. apply Hin in Ha as [Ha|[-> ->]], Hb as [Hb|[? ->]]; subst.
    + by apply (Hc key').
    + by apply Hok.
    + rewrite shareConflict_sym. by apply Hok.
    + done.
Qed.

Lemma acquireLocked_TInv live t key o desired share : TInv t -> o <> 0 ->
  TInv (acquireLocked live t key o desired share).2.
Proof.
  intros Hi Hz. unfold acquireLocked. case_bool_decide as Hd; [done|].
  set (kept := filter _ _). set (own := fold_left _ _ _).
  pose proof (acquire_sweeps live t key (waiters t) (fresh t) (closed t) Hi) as Hs.
  fold kept own in Hs. cbv zeta in Hs. fold own in Hs. pose proof (sweep_TInv _ _ _ _ Hi Hs) as Hi1.
  destruct (existsb _ kept) eqn:Hx; [done|]. simpl.
  eapply (TInv_add _ _ key (newShareModeEntry o desired share) Hi1).
  - simpl. destruct (own !! o) eqn:Hown; [|done]. destruct Hs as (_ & _ & Hso).
    apply Hso in Hown as [Hown _]. exfalso. apply Hd. by eexists.
  - done.
  - intros a Ha. destruct (shareConflict a _) eqn:Hsc; [|done].
    assert (existsb (fun e => shareConflict e (newShareModeEntry o desired share)) kept = true); [|congruence].
    apply existsb_exists. exists a. split; [|done]. apply list_elem_of_In.
    revert Ha. unfold entries. simpl. rewrite entries_store, decide_True by done. done.
  - intros key'. unfold entries. simpl. rewrite !entries_store. rewrite (decide_True (P := key = key)) by done. by case_decide.
  - done.
Qed.

Lemma entries_wake t key key' : entries (wakeLocked t key) key' = entries t key'.
Proof. unfold wakeLocked. by destruct (parkedOn t key). Qed.
Lemma owners_wake t key : owners (wakeLocked t key) = owners t.
Proof. unfold wakeLocked. by destruct (parkedOn t key). Qed.

Lemma TInv_ext t t' : (forall key, entries t' key = entries t key) -> owners t' = owners t -> TInv t -> TInv t'.
Proof.
  intros He Ho [H1 H2 H3 H4].
  split; [intros key e|intros key o|intros key|intros key a b]; [rewrite He, Ho; apply H1| |rewrite He; apply H3|rewrite !He; apply H4].
  rewrite Ho. intros Hoo. destruct (H2 key o Hoo) as (e & ? & ?). exists e. by rewrite He.
Qed.

Lemma release_TInv t o : TInv t -> TInv (release t o).
Proof.
  intros Hi. unfold release. destruct (o =? 0); [done|]. destruct (owners t !! o) as [key|] eqn:Ho; [|done].
  eapply TInv_ext; [intros; apply entries_wake|apply owners_wake|].
  apply (sweep_TInv t _ key (fun e => (e_owner e =? o) = false) Hi). split_and!.
  - intros key' e. unfold entries at 1. simpl. rewrite entries_store. case_decide; [subst|].
    + rewrite list_elem_of_filter. tauto.
    + split; [intros; split; [done|congruence]|by intros [? _]].
  - intros key'. unfold entries. simpl. rewrite entries_store. case_decide.
    + apply sublist_map_filter, (i_nodup t Hi).
    + apply (i_nodup t Hi).
  - intros o' k. simpl. destruct (decide (o = o')) as [<-|Hne].
    + rewrite lookup_delete_eq. split; [done|]. intros [_ HP].
      destruct (i_entry t Hi key o Ho) as (e & Hin & He). specialize (HP e Hin He). lia.
    + rewrite lookup_delete_ne by done. split; [intros Hk; split; [done|]|by intros [? _]].
      intros e Hin <-. lia.
Qed.

Definition retargeted (from to : Z) (e : shareModeEntry) : shareModeEntry :=
  if e_owner e =? from then mkEntry to (e_read e) (e_write e) (e_del e) (e_attrOnly e) (e_shared e) else e.

Lemma retarget_map ents from to : NoDup (map e_owner ents) -> retarget ents from to = map (retargeted from to) ents.
Proof.
  induction ents as [|e ents IH]; simpl; intros Hn; [done|]. apply NoDup_cons in Hn as [Hni Hn].
  unfold retargeted at 1. destruct (Z.eqb_spec (e_owner e) from) as [<-|]; [|by rewrite IH]. f_equal.
  clear IH Hn. induction ents as [|e' ents IH]; simpl in *; [done|]. apply not_elem_of_cons in Hni as [? ?].
  unfold retargeted at 1. destruct (Z.eqb_spec (e_owner e') (e_owner e)); [congruence|]. by rewrite <- IH.
Qed.

Lemma shareConflict_retargeted from to a b :
  shareConflict (retargeted from to a) (retargeted from to b) = shareConflict a b.
Proof. unfold retargeted. by destruct (e_owner a =? from), (e_owner b =? from). Qed.

Lemma transfer_TInv t from to : TInv t -> owners t !! to = None -> TInv (transfer t from to).
Proof.
  intros Hi Hto. unfold transfer. destruct (Z.eqb_spec from 0), (Z.eqb_spec to 0), (Z.eqb_spec from to); simpl; try done.
  destruct (owners t !! from) as [key|] eqn:Ho; [|done]. pose proof Hi as [H1 H2 H3 H4].
  rewrite retarget_map by apply H3.
  assert (forall key' e, e ∈ entries t key' -> e_owner e <> to) as Hne.
  { intros key' e Hin <-. destruct (H1 key' e Hin). congruence. }
  assert (forall key', key' <> key -> forall e, e ∈ entries t key' -> e_owner e <> from) as Hnf.
  { intros key' Hk e Hin <-. destruct (H1 key' e Hin). congruence. }
  assert (forall key', default [] (<[key := map (retargeted from to) (entries t key)]> (byFile t) !! key') =
     map (retargeted from to) (entries t key')) as Hent.
  { intros key'. destruct (decide (key = key')) as [<-|Hk]; [by rewrite lookup_insert_eq|].
    rewrite lookup_insert_ne by done. fold (entries t key'). symmetry. rewrite <- (map_id (entries t key')) at 2.
    apply map_ext_in. intros e Hin%list_elem_of_In. unfold retargeted.
    destruct (Z.eqb_spec (e_owner e) from); [|done]. exfalso. by eapply (Hnf key'). }
  split; unfold entries; simpl; intros key'; rewrite Hent.
  - intros e Hin. apply list_elem_of_fmap in Hin as (a & -> & Hin). destruct (H1 key' a Hin) as [Hoa Hza].
    unfold retargeted. destruct (Z.eqb_spec (e_owner a) from); simpl.
    + rewrite lookup_insert_eq. split; congruence.
    + rewrite lookup_insert_ne, lookup_delete_ne by (try done; intros ->; by eapply Hne). done.
  - intros o Hoo. destruct (decide (to = o)) as [<-|].
    + rewrite lookup_insert_eq in Hoo. injection Hoo as <-. destruct (H2 key from Ho) as (a & Hin & Ha).
      exists (retargeted from to a). split; [by apply list_elem_of_fmap_2|]. unfold retargeted. by rewrite Ha, Z.eqb_refl.
    + rewrite lookup_insert_ne in Hoo by done. apply lookup_delete_Some in Hoo as [Hof Hoo].
      destruct (H2 key' o Hoo) as (a & Hin & Ha). exists (retargeted from to a). split; [by apply list_elem_of_fmap_2|].
      unfold retargeted. destruct (Z.eqb_spec (e_owner a) from); [congruence|done].
  - rewrite map_map. assert (forall e, e_owner (retargeted from to e) = if e_owner e =? from then to else e_owner e) as Hr.
    { intros e. unfold retargeted. by destruct (e_owner e =? from). }
    rewrite (map_ext _ _ Hr), <- (map_map e_owner (fun o => if o =? from then to else o)).
    apply NoDup_fmap_2_strong; [|apply H3]. intros x y Hx Hy. apply list_elem_of_fmap in Hx as (a & -> & Hx).
    apply list_elem_of_fmap in Hy as (b & -> & Hy). pose proof (Hne key' a Hx). pose proof (Hne key' b Hy).
    destruct (Z.eqb_spec (e_owner a) from), (Z.eqb_spec (e_owner b) from); congruence.
  - intros a b Ha Hb. apply list_elem_of_fmap in Ha as (a' & -> & Ha), Hb as (b' & -> & Hb).
    rewrite shareConflict_retargeted. intros Hab. apply (H4 key'); [done|done|].
    intros Heq. apply Hab. unfold retargeted. rewrite Heq. by destruct (e_owner b' =? from).
Qed.

Lemma exec_TInv t a : TInv t -> enabled t a -> TInv (exec t a).
Proof.
  intros Hi He. destruct a as [live key o desired share|o|from to|key w]; simpl in *.
  - pose proof (acquireLocked_TInv live t key o desired share Hi He) as Ha. unfold acquireOrWait.
    destruct (acquireLocked _ _ _ _ _ _) as [[] t']; [done|]. by eapply TInv_ext; [| |exact Ha].
  - by apply release_TInv.
  - by apply transfer_TInv.
  - unfold unwait. destruct (remove_first _ _); [|done]. by eapply TInv_ext; [| |exact Hi].
Qed.

Lemma trace_TInv t acts t' : trace t acts t' -> TInv t -> TInv t'.
Proof. induction 1 as [|t a acts t' He _ IH]; [done|]. intros Hi. by apply IH, exec_TInv. Qed.

Lemma TInv_new : TInv newShareModeTable.
Proof.
  split; unfold entries; simpl; intros key; rewrite ?lookup_empty; simpl.
  - intros e He. by apply not_elem_of_nil in He.
  - intros o. by rewrite lookup_empty.
  - apply NoDup_nil_2.
  - intros a b Ha. by apply not_elem_of_nil in Ha.
Qed.


(** The pre-open check of a truncating CREATE answers what the reservation
    itself would: it passes exactly when [acquireLocked] would grant, and asking
    reserves nothing. *)
Lemma check_predicts_acquire live t key o desired share :
  owners t !! o = None ->
  checkLocked live t key desired share = (acquireLocked live t key o desired share).1.
Proof.
  intros Ho. unfold checkLocked, acquireLocked. rewrite Ho. rewrite bool_decide_false by (by intros [? ?]).
  change (fun e => shareConflict e (newShareModeEntry o desired share))
    with (fun e => shareConflict e (newShareModeEntry 0 desired share)).
  assert (forall ents, existsb (fun e => entryLive live e key && shareConflict e (newShareModeEntry 0 desired share)) ents =
    existsb (fun e => shareConflict e (newShareModeEntry 0 desired share))
      (filter (fun e => entryLive live e key = true) ents)) as Hf.
  { intros ents. induction ents as [|e ents IH]; simpl; [done|]. rewrite filter_cons.
    destruct (entryLive live e key); simpl; by rewrite IH. }
  rewrite Hf. by destruct (existsb _ (filter _ _)).
Qed.

(** ** Waiters *)

Record WInv (t : shareModeTable) : Prop := {
  w_lt : forall key w, w ∈ parkedOn t key -> (w < fresh t)%nat /\ w ∉ closed t;
  w_closed : forall w, w ∈ closed t -> (w < fresh t)%nat;
  w_nodup : forall key, NoDup (parkedOn t key);
  w_key : forall key key' w, w ∈ parkedOn t key -> w ∈ parkedOn t key' -> key = key' }.

(** A channel that was allocated and is registered nowhere. *)
Definition gone (t : shareModeTable) (w : nat) : Prop := (w < fresh t)%nat /\ forall key, w ∉ parkedOn t key.

(** What an operation may do to the waiters: register [fresh t] somewhere, or
    take registrations away, closing or not. *)
Record wstep (t t' : shareModeTable) : Prop := {
  ws_fresh : (fresh t <= fresh t')%nat;
  ws_parked : forall key w, w ∈ parkedOn t' key -> w ∈ parkedOn t key \/ w = fresh t /\ (fresh t < fresh t')%nat }.

Lemma wstep_gone t t' w : wstep t t' -> gone t w -> gone t' w.
Proof.
  intros [Hf Hp] [Hl Hn]. split; [lia|]. intros key Hin. apply Hp in Hin as [Hin|[-> _]]; [by apply (Hn key)|lia].
Qed.

Lemma parked_wake t key key' w : w ∈ parkedOn (wakeLocked t key) key' <-> w ∈ parkedOn t key' /\ key' <> key.
Proof.
  unfold wakeLocked. destruct (parkedOn t key) as [|x ws] eqn:Hp.
  - split; [|by intros [? _]]. intros Hin. split; [done|]. intros ->. rewrite Hp in Hin. by apply not_elem_of_nil in Hin.
  - unfold parkedOn. simpl. destruct (decide (key = key')) as [<-|].
    + rewrite lookup_delete_eq. simpl. rewrite elem_of_nil. intuition.
    + rewrite lookup_delete_ne by done. intuition congruence.
Qed.

Lemma closed_wake t key w : w ∈ closed (wakeLocked t key) <-> w ∈ closed t \/ w ∈ parkedOn t key.
Proof.
  unfold wakeLocked. destruct (parkedOn t key) as [|x ws]; cbn [closed].
  - rewrite elem_of_nil. tauto.
  - rewrite elem_of_union, elem_of_list_to_set. tauto.
Qed.

Lemma remove_first_spec w ws ws' : NoDup ws -> remove_first w ws = Some ws' ->
  w ∈ ws /\ NoDup ws' /\ forall x, x ∈ ws' <-> x ∈ ws /\ x <> w.
Proof.
  revert ws'. induction ws as [|y ws IH]; intros ws' Hn; [done|]. cbn [remove_first].
  apply NoDup_cons in Hn as [Hni Hn]. case_bool_decide as Hy.
  - intros [= <-]. subst y. split; [apply elem_of_cons; by left|]. split; [done|]. intros x.
    rewrite elem_of_cons. split; [intros Hx; split; [by right|by intros ->]|by intros [[->|?] ?]].
  - destruct (remove_first w ws) as [ws1|]; [|done]. simpl. intros [= <-].
    destruct (IH ws1 Hn eq_refl) as (Hw & Hn1 & Hx). split; [apply elem_of_cons; by right|]. split.
    + apply NoDup_cons. split; [|done]. rewrite Hx. tauto.
    + intros x. rewrite !elem_of_cons, Hx. intuition congruence.
Qed.

Lemma remove_first_None w ws : remove_first w ws = None -> w ∉ ws.
Proof.
  induction ws as [|y ws IH]; cbn [remove_first]; [intros _; apply not_elem_of_nil|].
  case_bool_decide as Hy; [done|]. destruct (remove_first w ws); [done|]. intros _.
  rewrite not_elem_of_cons. auto.
Qed.

Lemma parked_unwait t key w key' x : WInv t ->
  x ∈ parkedOn (unwait t key w) key' <-> x ∈ parkedOn t key' /\ ~ (key' = key /\ x = w).
Proof.
  intros Hw. unfold unwait. destruct (remove_first w (parkedOn t key)) as [ws|] eqn:Hr.
  - destruct (remove_first_spec _ _ _ (w_nodup t Hw key) Hr) as (_ & _ & Hx).
    assert (parkedOn (mkTable (byFile t) (owners t)
      (match ws with [] => delete key (waiters t) | _ => <[key := ws]> (waiters t) end) (fresh t) (closed t)) key' =
      if decide (key = key') then ws else parkedOn t key') as ->.
    { unfold parkedOn. simpl. case_decide as Hk; [subst|].
      - destruct ws; [by rewrite lookup_delete_eq|by rewrite lookup_insert_eq].
      - destruct ws; [by rewrite lookup_delete_ne|by rewrite lookup_insert_ne]. }
    case_decide; [subst; rewrite Hx|]; intuition congruence.
  - apply remove_first_None in Hr. split; [|by intros [? _]]. intros Hin. split; [done|]. intros [-> ->]. done.
Qed.

Lemma unwait_WInv t key w : WInv t -> WInv (unwait t key w).
Proof.
  intros Hw. pose proof Hw as [H1 H2 H3 H4].
  assert (fresh (unwait t key w) = fresh t /\ closed (unwait t key w) = closed t) as [Hf Hc].
  { unfold unwait. by destruct (remove_first _ _). }
  split; rewrite ?Hf, ?Hc.
  - intros key' x Hx. apply parked_unwait in Hx as [Hx _]; [|done]. by apply (H1 key').
  - done.
  - intros key'. unfold unwait. destruct (remove_first w (parkedOn t key)) as [ws|] eqn:Hr; [|done].
    destruct (remove_first_spec _ _ _ (H3 key) Hr) as (_ & Hn & _). unfold parkedOn. simpl.
    destruct (decide (key = key')) as [<-|].
    + destruct ws; [rewrite lookup_delete_eq; by apply NoDup_nil_2|by rewrite lookup_insert_eq].
    + destruct ws; [rewrite lookup_delete_ne by done|rewrite lookup_insert_ne by done]; apply H3.
  - intros k k' x Hx Hx'. apply parked_unwait in Hx as [Hx _], Hx' as [Hx' _]; [|done..]. by apply (H4 _ _ x).
Qed.

Lemma wake_WInv t key : WInv t -> WInv (wakeLocked t key).
Proof.
  intros [H1 H2 H3 H4].
  assert (fresh (wakeLocked t key) = fresh t) as Hf by (unfold wakeLocked; by destruct (parkedOn t key)).
  split; rewrite ?Hf.
  - intros k w Hw. apply parked_wake in Hw as [Hw Hk]. split; [by apply (H1 k)|].
    rewrite closed_wake. intros [Hc|Hc]; [by apply (H1 k w Hw)|]. apply Hk. by apply (H4 _ _ w).
  - intros w Hw. apply closed_wake in Hw as [Hw|Hw]; [auto|by apply (H1 key)].
  - intros k. unfold wakeLocked, parkedOn. destruct (default [] (waiters t !! key)) eqn:Hp; simpl; [apply H3|].
    destruct (decide (key = k)) as [<-|]; [rewrite lookup_delete_eq; apply NoDup_nil_2|].
    rewrite lookup_delete_ne by done. apply H3.
  - intros k k' w Hk Hk'. apply parked_wake in Hk as [Hk _], Hk' as [Hk' _]. by apply (H4 _ _ w).
Qed.

Lemma WInv_ext t t' : waiters t' = waiters t -> fresh t' = fresh t -> closed t' = closed t -> WInv t -> WInv t'.
Proof. intros Hw Hf Hc [H1 H2 H3 H4]. by split; unfold parkedOn; rewrite ?Hw, ?Hf, ?Hc. Qed.

Lemma register_parked t key key' : parkedOn (registerWaiterLocked t key).1 key' =
  if decide (key = key') then parkedOn t key ++ [fresh t] else parkedOn t key'.
Proof.
  unfold parkedOn. simpl. case_decide as Hk; [subst key'; by rewrite lookup_insert_eq|by rewrite lookup_insert_ne].
Qed.

Lemma register_WInv t key : WInv t -> WInv (registerWaiterLocked t key).1.
Proof.
  intros [H1 H2 H3 H4].
  assert (forall k w, w ∈ parkedOn (registerWaiterLocked t key).1 k -> w ∈ parkedOn t k \/ k = key /\ w = fresh t) as Hin.
  { intros k w. rewrite register_parked. case_decide; [subst|auto]. rewrite elem_of_app, list_elem_of_singleton. intuition. }
  assert (fresh t ∉ closed t) as Hnf by (intros Hc; apply H2 in Hc; lia).
  assert (forall k, fresh t ∉ parkedOn t k) as Hnp by (intros k Hc; apply H1 in Hc as [? _]; lia).
  split.
  - intros k w Hw. simpl. apply Hin in Hw as [Hw|[_ ->]]; [|split; [lia|done]]. destruct (H1 k w Hw). split; [lia|done].
  - intros w Hw. apply H2 in Hw. simpl. lia.
  - intros k. rewrite register_parked. case_decide; [|apply H3]. apply NoDup_app. split; [apply H3|].
    split; [|apply NoDup_singleton]. intros w Hw Hs. apply list_elem_of_singleton in Hs as ->. by apply (Hnp key).
  - intros k k' w Hk Hk'. apply Hin in Hk as [Hk|[-> ->]], Hk' as [Hk'|[? ?]]; subst; try done.
    + by apply (H4 _ _ w).
    + by apply Hnp in Hk.
    + by apply Hnp in Hk'.
Qed.

Lemma acquireLocked_waiters live t key o desired share :
  let t' := (acquireLocked live t key o desired share).2 in
  waiters t' = waiters t /\ fresh t' = fresh t /\ closed t' = closed t.
Proof. unfold acquireLocked. case_bool_decide; [done|]. by destruct (existsb _ _). Qed.

Lemma exec_WInv t a : WInv t -> WInv (exec t a) /\ wstep t (exec t a).
Proof.
  intros Hw. assert (forall t', waiters t' = waiters t -> fresh t' = fresh t -> closed t' = closed t -> WInv t' /\ wstep t t') as Hsame.
  { intros t' H1 H2 H3. split; [by eapply WInv_ext|]. split; [lia|]. unfold parkedOn. rewrite H1. auto. }
  destruct a as [live key o desired share|o|from to|key w]; simpl.
  - unfold acquireOrWait. pose proof (acquireLocked_waiters live t key o desired share) as (H1 & H2 & H3).
    destruct (acquireLocked _ _ _ _ _ _) as [[] t1]; simpl in *; [by apply Hsame|].
    assert (WInv t1) as Hw1 by (by eapply WInv_ext). split; [by apply (register_WInv t1)|].
    split; [simpl; lia|]. intros key' w Hin. pose proof (register_parked t1 key key') as Hr. simpl in *.
    rewrite Hr in Hin. assert (parkedOn t1 key' = parkedOn t key') as Hp by (unfold parkedOn; by rewrite H1).
    case_decide; [subst key'|rewrite Hp in Hin; auto]. apply elem_of_app in Hin as [Hin|Hin]; [rewrite Hp in Hin; auto|].
    apply list_elem_of_singleton in Hin as ->. right. lia.
  - unfold release. destruct (o =? 0); [by apply Hsame|]. destruct (owners t !! o) as [key|]; [|by apply Hsame].
    set (t1 := mkTable _ _ _ _ _). assert (WInv t1) as Hw1 by (by apply (WInv_ext t)).
    split; [by apply wake_WInv|]. split.
    + unfold wakeLocked. destruct (parkedOn t1 key); simpl; lia.
    + intros key' w Hin. apply parked_wake in Hin as [Hin _]. auto.
  - unfold transfer. destruct (_ || _ || _); [by apply Hsame|]. destruct (owners t !! from); by apply Hsame.
  - split; [by apply unwait_WInv|]. split; [unfold unwait; destruct (remove_first _ _); simpl; lia|].
    intros key' x Hx. apply parked_unwait in Hx as [? _]; auto.
Qed.

(** ** No wake-up is lost *)

(** Some reservation on [key] refuses the request. *)
Definition refused (t : shareModeTable) (key : fileKey) (desired share : Z) : Prop :=
  exists e, e ∈ entries t key /\ shareConflict e (newShareModeEntry 0 desired share) = true.

(** The sweep of dead entries finds nothing: every handle on the file still has
    its descriptor. *)
Definition all_live (t : shareModeTable) (a : action) : Prop :=
  match a with
  | AcquireOrWait live key _ _ _ => forall e, e ∈ entries t key -> entryLive live e key = true
  | _ => True
  end.

Inductive others (key : fileKey) (w : nat) : shareModeTable -> shareModeTable -> Prop :=
  | others_nil t : others key w t t
  | others_cons t a t' : enabled t a -> all_live t a -> a <> Unwait key w ->
      others key w (exec t a) t' -> others key w t t'.

Lemma filter_live live key (ents : list shareModeEntry) : (forall e, e ∈ ents -> entryLive live e key = true) ->
  filter (fun e => entryLive live e key = true) ents = ents.
Proof.
  induction ents as [|e ents IH]; intros Hl; [done|].
  rewrite filter_cons_True by (apply Hl, elem_of_cons; by left).
  f_equal. apply IH. intros x Hx. apply Hl, elem_of_cons. by right.
Qed.

Lemma acquire_keeps live t k o desired share key e :
  all_live t (AcquireOrWait live k o desired share) -> e ∈ entries t key ->
  e ∈ entries (acquireLocked live t k o desired share).2 key.
Proof.
  intros Hl He. unfold acquireLocked. case_bool_decide; [done|]. simpl in Hl. rewrite filter_live by done.
  destruct (existsb _ _); unfold entries; simpl; rewrite entries_store; case_decide; subst; try done.
  apply elem_of_app. by left.
Qed.

Lemma refused_ext t t' key desired share : entries t' key = entries t key ->
  refused t key desired share -> refused t' key desired share.
Proof. unfold refused. by intros ->. Qed.

Lemma transfer_refused t from to key desired share : TInv t ->
  refused t key desired share -> refused (transfer t from to) key desired share.
Proof.
  intros Hi (e & He & Hc). unfold transfer. destruct (_ || _ || _); [by exists e|].
  destruct (owners t !! from) as [k|]; [|by exists e].
  destruct (decide (k = key)) as [->|Hk].
  - exists (retargeted from to e). unfold entries at 1. simpl. rewrite lookup_insert_eq, retarget_map by apply (i_nodup t Hi).
    split; [by apply list_elem_of_fmap_2|]. unfold retargeted. by destruct (e_owner e =? from).
  - exists e. unfold entries. simpl. by rewrite lookup_insert_ne.
Qed.

Lemma closed_exec t a w : w ∈ closed t -> w ∈ closed (exec t a).
Proof.
  intros Hc. destruct a as [live key o desired share|o|from to|key x]; simpl.
  - unfold acquireOrWait. pose proof (acquireLocked_waiters live t key o desired share) as (_ & _ & H3).
    destruct (acquireLocked _ _ _ _ _ _) as [[] t1]; simpl in *; by rewrite H3.
  - unfold release. destruct (o =? 0); [done|]. destruct (owners t !! o); [|done]. apply closed_wake. by left.
  - unfold transfer. destruct (_ || _ || _); [done|]. by destruct (owners t !! from).
  - unfold unwait. by destruct (remove_first _ _).
Qed.

Lemma parked_step t a key w desired share :
  TInv t -> WInv t -> w ∈ parkedOn t key -> refused t key desired share ->
  all_live t a -> a <> Unwait key w ->
  w ∈ closed (exec t a) \/ (w ∈ parkedOn (exec t a) key /\ refused (exec t a) key desired share).
Proof.
  intros Hi Hw Hp Hr Hl Hn. destruct a as [live k o d s|o|from to|k x]; simpl.
  - right. destruct Hr as (e & He & Hc). pose proof (acquire_keeps live t k o d s key e Hl He) as Hk.
    unfold acquireOrWait. pose proof (acquireLocked_waiters live t k o d s) as (H1 & _ & _).
    destruct (acquireLocked _ _ _ _ _ _) as [ok t1]; simpl in *.
    assert (w ∈ parkedOn t1 key) as Hp1 by (unfold parkedOn in *; by rewrite H1).
    destruct ok; [split; [done|by exists e]|]. split; [|by exists e].
    pose proof (register_parked t1 k key) as Hreg. simpl in *. rewrite Hreg.
    case_decide; [subst; apply elem_of_app; by left|done].
  - unfold release. destruct (o =? 0); [by right|]. destruct (owners t !! o) as [k|]; [|by right].
    set (t1 := mkTable _ _ _ _ _). rewrite closed_wake, parked_wake.
    destruct (decide (key = k)) as [<-|Hk]; [left; by right|right]. split; [done|].
    apply (refused_ext t); [|done]. rewrite entries_wake. unfold entries. simpl. rewrite entries_store.
    by rewrite decide_False.
  - right. split; [|by apply transfer_refused].
    unfold transfer. destruct (_ || _ || _); [done|]. by destruct (owners t !! from).
  - right. split; [|apply (refused_ext t); [|done]; unfold unwait; by destruct (remove_first _ _)].
    apply parked_unwait; [done|]. split; [done|]. intros [-> ->]. done.
Qed.

Lemma WInv_new : WInv newShareModeTable.
Proof.
  split; unfold parkedOn; simpl; intros key; rewrite ?lookup_empty; simpl.
  - intros w Hw. by apply not_elem_of_nil in Hw.
  - intros Hw. by apply not_elem_of_empty in Hw.
  - apply NoDup_nil_2.
  - intros key' w Hw. by apply not_elem_of_nil in Hw.
Qed.

Lemma trace_WInv t acts t' : trace t acts t' -> WInv t -> WInv t'.
Proof. induction 1 as [|t a acts t' He _ IH]; [done|]. intros Hi. by apply IH, exec_WInv. Qed.

Lemma others_closed key w t t' : others key w t t' -> w ∈ closed t -> w ∈ closed t'.
Proof. induction 1 as [|t a t' He Hl Hne _ IH]; [done|]. intros Hc. by apply IH, closed_exec. Qed.

Lemma acquireOrWait_refused live t key o desired share w t1 :
  acquireOrWait live t key o desired share = (false, Some w, t1) ->
  w = fresh t /\ w ∈ parkedOn t1 key /\ refused t1 key desired share.
Proof.
  unfold acquireOrWait. pose proof (acquireLocked_waiters live t key o desired share) as (_ & H2 & _).
  unfold acquireLocked in *. case_bool_decide; [done|]. destruct (existsb _ _) eqn:Hx; [|done].
  simpl in *. intros [= <- <-]. split; [done|]. split.
  - unfold parkedOn. simpl. rewrite lookup_insert_eq. simpl. apply elem_of_app. right. by apply list_elem_of_singleton.
  - apply existsb_exists in Hx as (e & He & Hc). exists e. unfold entries. simpl.
    rewrite entries_store, decide_True by done. split; [by apply list_elem_of_In|done].
Qed.


(** ** A wait leaves nothing behind *)

Lemma run_gone acts t w : WInv t -> gone t w -> gone (fold_left exec acts t) w.
Proof.
  revert t. induction acts as [|a acts IH]; intros t Hw Hg; simpl; [done|].
  destruct (exec_WInv t a Hw) as [Hw' Hs]. apply IH; [done|]. by apply (wstep_gone t).
Qed.

Lemma run_WInv acts t : WInv t -> WInv (fold_left exec acts t).
Proof.
  revert t. induction acts as [|a acts IH]; intros t Hw; simpl; [done|]. by apply IH, exec_WInv.
Qed.

Lemma run_allocated acts t w : WInv t -> (w < fresh t)%nat -> (w < fresh (fold_left exec acts t))%nat.
Proof.
  revert t. induction acts as [|a acts IH]; intros t Hw Hl; simpl; [done|].
  destruct (exec_WInv t a Hw) as [Hw' [Hf _]]. apply IH; [done|lia].
Qed.

Section Leaves.
Context (live : Z -> option fileKey) (key : fileKey) (o desired share : Z).

(** The request's own attempt, granted or not. *)
Lemma attempt_spec t : WInv t ->
  match acquireOrWait live t key o desired share with
  | (true, w, t') => w = None /\ WInv t' /\ is_Some (owners t' !! o) /\ wstep t t'
  | (false, w, t') => w = Some (fresh t) /\ WInv t' /\ fresh t ∈ parkedOn t' key /\
      fresh t' = S (fresh t) /\ wstep t t'
  end.
Proof.
  intros Hw. pose proof (exec_WInv t (AcquireOrWait live key o desired share) Hw) as [Hw' Hs].
  simpl in *. pose proof (fun w t1 => acquireOrWait_refused live t key o desired share w t1) as Href.
  unfold acquireOrWait in *. pose proof (acquireLocked_waiters live t key o desired share) as (_ & H2 & _).
  destruct (acquireLocked live t key o desired share) as [ok t1] eqn:Ha. destruct ok; simpl in *.
  - split_and!; [done|done| |done]. unfold acquireLocked in Ha. case_bool_decide as Hd; [injection Ha as <-; done|].
    destruct (existsb _ _); [done|]. injection Ha as <-. simpl. rewrite lookup_insert_eq. by eexists.
  - destruct (Href (fresh t1) _ eq_refl) as (He & Hp & _). rewrite <- He. by split_and!.
Qed.

(** Once closed or given up, a channel is registered nowhere. *)
Lemma unwait_gone t w : WInv t -> w ∈ parkedOn t key -> gone (unwait t key w) w.
Proof.
  intros Hw Hp. destruct (w_lt t Hw key w Hp). split.
  - unfold unwait. by destruct (remove_first _ _).
  - intros k Hk. apply parked_unwait in Hk as [Hk Hn]; [|done]. apply Hn. split; [|done]. by apply (w_key t Hw _ _ w).
Qed.

Lemma closed_gone t w : WInv t -> w ∈ closed t -> gone t w.
Proof.
  intros Hw Hc. split; [by apply (w_closed t Hw)|]. intros k Hk. by destruct (w_lt t Hw k w Hk).
Qed.

(** A channel is registered on [key], or nowhere. *)
Definition ours (t : shareModeTable) (w : nat) : Prop := w ∈ parkedOn t key \/ gone t w.

Lemma run_ours acts t w : WInv t -> ours t w ->
  ours (fold_left exec acts t) w.
Proof.
  revert t. induction acts as [|a acts IH]; intros t Hw Ho; simpl; [done|].
  destruct (exec_WInv t a Hw) as [Hw' Hs]. apply IH; [done|].
  destruct Ho as [Hp|Hg]; [|right; by apply (wstep_gone t)].
  destruct (decide (w ∈ parkedOn (exec t a) key)) as [|Hn]; [by left|right].
  destruct (w_lt t Hw key w Hp). destruct Hs as [Hf Hpk]. split; [lia|]. intros k Hk.
  apply Hpk in Hk as Hk2. destruct Hk2 as [Hk2|[-> _]]; [|lia].
  rewrite (w_key t Hw k key w Hk2 Hp) in Hk. done.
Qed.

Lemma unwait_ours t w : WInv t -> ours t w -> gone (unwait t key w) w.
Proof.
  intros Hw [Hp|[Hl Hg]]; [by apply unwait_gone|]. split.
  - unfold unwait. by destruct (remove_first _ _).
  - intros k Hk. apply parked_unwait in Hk as [Hk _]; [|done]. by apply (Hg k).
Qed.

Lemma wait_loop_gone script t w : WInv t -> ours t w ->
  let '(ok, t', ws) := wait_loop live key o desired share t w script in
  WInv t' /\ Forall (gone t') ws /\ (forall x, gone t x -> gone t' x) /\ (ok = true -> is_Some (owners t' !! o)).
Proof.
  revert t w. induction script as [|acts script IH]; intros t w Hw Ho; cbn [wait_loop].
  - split_and!; [by apply unwait_WInv|apply Forall_singleton; by apply unwait_ours| |done].
    intros x Hg. apply (wstep_gone t); [|done]. by apply (exec_WInv t (Unwait key w)).
  - pose proof (run_WInv acts t Hw) as Hw1. pose proof (run_ours acts t w Hw Ho) as Ho1.
    pose proof (fun x => run_gone acts t x Hw) as Hg1. set (t1 := fold_left exec acts t) in *.
    case_bool_decide as Hc.
    + pose proof (closed_gone t1 w Hw1 Hc) as Hgw. pose proof (attempt_spec t1 Hw1) as Ha.
      destruct (acquireOrWait live t1 key o desired share) as [[[] w'] t2].
      * destruct Ha as (-> & Hw2 & Hs2 & Hst). split_and!; [done| | |done].
        -- apply Forall_singleton. by apply (wstep_gone t1).
        -- intros x Hx. by apply (wstep_gone t1), Hg1.
      * destruct Ha as (-> & Hw2 & Hp2 & Hf2 & Hst). specialize (IH t2 (fresh t1) Hw2 (or_introl Hp2)).
        destruct (wait_loop live key o desired share t2 (fresh t1) script) as [[ok t3] ws].
        destruct IH as (Hw3 & Hws & Hg3 & Hok). split_and!; [done| | |done].
        -- apply Forall_cons. split; [by apply Hg3, (wstep_gone t1)|done].
        -- intros x Hx. by apply Hg3, (wstep_gone t1), Hg1.
    + specialize (IH t1 w Hw1 Ho1). destruct (wait_loop live key o desired share t1 w script) as [[ok t3] ws].
      destruct IH as (Hw3 & Hws & Hg3 & Hok). split_and!; auto.
Qed.
End Leaves.

(** A CREATE that waits for a share mode always gives back what it took:
    whatever the other connections do while it is parked, when it returns every
    channel it registered is out of the table, its connection's count of parked
    CREATEs is what it was, and it
    reports success only if the handle holds a reservation.  On a connection
    already at [maxSharingWaits] the answer is that of the first attempt. *)
Theorem acquireShareMode_leaves_nothing (live : Z -> option fileKey) (acts : list action) (t0 : shareModeTable)
    (key : fileKey) (o desired share waits : Z) (script : list (list action)) :
  trace newShareModeTable acts t0 ->
  let '(ok, t', waits', ws) := acquireShareMode live key o desired share t0 waits script in
  Forall (gone t') ws /\ waits' = waits /\ (ok = true -> is_Some (owners t' !! o)) /\
  (maxSharingWaits <= waits -> ok = (acquireOrWait live t0 key o desired share).1.1).
Proof.
  intros Ht. pose proof (trace_WInv _ _ _ Ht WInv_new) as Hw. unfold acquireShareMode.
  pose proof (attempt_spec live key o desired share t0 Hw) as Ha.
  destruct (acquireOrWait live t0 key o desired share) as [[[] w] t1].
  - destruct Ha as (-> & Hw1 & Ho & _). by split_and!.
  - destruct Ha as (-> & Hw1 & Hp & _ & _). unfold beginSharingWait.
    destruct (Z.ltb_spec maxSharingWaits (waits + 1)).
    + split_and!; [apply Forall_singleton; by apply unwait_gone|done|done|done].
    + pose proof (wait_loop_gone live key o desired share script t1 (fresh t0) Hw1 (or_introl Hp)) as Hl.
      destruct (wait_loop live key o desired share t1 (fresh t0) script) as [[ok t'] ws].
      destruct Hl as (_ & Hws & _ & Hok). unfold endSharingWait. split_and!; [done|lia|done|lia].
Qed.

(** ** Witnesses *)

(** ** A refusal reserves nothing for the handle *)

(** An action of another connection: not for handle [o]. *)
Definition spares (o : Z) (a : action) : Prop :=
  match a with AcquireOrWait _ _ o' _ _ => o' <> o | Transfer _ to => to <> o | _ => True end.

Lemma acquireLocked_owners live t key o desired share o' : o' <> o -> owners t !! o' = None -> owners (acquireLocked live t key o desired share).2 !! o' = None.
Proof.
  intros Hne Ho. unfold acquireLocked. case_bool_decide; [done|]. cbv zeta.
  assert (Hd : forall dead (m : gmap Z fileKey), m !! o' = None -> fold_left (fun m e => delete (e_owner e) m) dead m !! o' = None).
  { induction dead as [|e dead IH]; intros m Hm; [done|]. cbn [fold_left]. apply IH. apply lookup_delete_None. by right. }
  destruct (existsb _ _); cbn [snd owners]; [by apply Hd|]. rewrite lookup_insert_ne by done. by apply Hd.
Qed.

Lemma acquireLocked_refused_owners live t key o desired share : owners t !! o = None ->
  (acquireLocked live t key o desired share).1 = false -> owners (acquireLocked live t key o desired share).2 !! o = None.
Proof.
  intros Ho. unfold acquireLocked. rewrite bool_decide_eq_false_2 by (rewrite Ho; by intros []). cbv zeta.
  assert (Hd : forall dead (m : gmap Z fileKey), m !! o = None -> fold_left (fun m e => delete (e_owner e) m) dead m !! o = None).
  { induction dead as [|e dead IH]; intros m Hm; [done|]. cbn [fold_left]. apply IH. apply lookup_delete_None. by right. }
  destruct (existsb _ _); cbn [fst snd owners]; [intros _; by apply Hd|done].
Qed.

Lemma owners_unwait t key w : owners (unwait t key w) = owners t.
Proof. unfold unwait. by destruct (remove_first w (parkedOn t key)). Qed.

Lemma owners_acquireOrWait live t key o desired share : owners (acquireOrWait live t key o desired share).2 = owners (acquireLocked live t key o desired share).2.
Proof. unfold acquireOrWait. destruct (acquireLocked live t key o desired share) as [[] t']; [done|]. by destruct (registerWaiterLocked t' key) eqn:Hr; injection Hr as <- <-. Qed.

Lemma exec_spares o t a : spares o a -> owners t !! o = None -> owners (exec t a) !! o = None.
Proof.
  intros Hs Ho. destruct a as [live key o' desired share|o'|from to|key w]; cbn [exec].
  - rewrite owners_acquireOrWait. apply acquireLocked_owners; [by apply not_eq_sym|done].
  - unfold release. destruct (o' =? 0); [done|]. destruct (owners t !! o'); [|done]. rewrite owners_wake. cbn [owners]. apply lookup_delete_None. by right.
  - unfold transfer. destruct (_ || _ || _); [done|]. destruct (owners t !! from) as [k|]; [|done]. cbn [owners]. rewrite lookup_insert_ne by done. apply lookup_delete_None. by right.
  - by rewrite owners_unwait.
Qed.

Lemma acquireOrWait_unowned live t key o desired share w : owners t !! o = None ->
  (acquireOrWait live t key o desired share).1 = (false, w) -> owners (acquireOrWait live t key o desired share).2 !! o = None.
Proof.
  intros Ho Hr. rewrite owners_acquireOrWait. apply acquireLocked_refused_owners; [done|]. unfold acquireOrWait in Hr.
  destruct (acquireLocked live t key o desired share) as [[] t']; [done|done].
Qed.

Lemma acquireShareMode_unowned live key o desired share t n script : Forall (Forall (spares o)) script -> owners t !! o = None ->
  let '(ok, t', _, _) := acquireShareMode live key o desired share t n script in ok = false -> owners t' !! o = None.
Proof.
  intros Hs Ho. assert (Hrun : forall acts t, Forall (spares o) acts -> owners t !! o = None -> owners (fold_left exec acts t) !! o = None).
  { induction acts as [|a acts IH]; intros t1 Ha H1; [done|]. apply Forall_cons in Ha as [Ha Has]. cbn [fold_left]. apply IH; [done|]. by apply exec_spares. }
  assert (Hloop : forall script, Forall (Forall (spares o)) script -> forall t w, owners t !! o = None ->
    let '(ok, t', _) := wait_loop live key o desired share t w script in ok = false -> owners t' !! o = None).
  { intros sc. induction sc as [|acts script' IH]; intros Hsc t1 w H1; cbn [wait_loop]; [intros _; by rewrite owners_unwait|].
    apply Forall_cons in Hsc as [Ha Hsc]. pose proof (Hrun acts t1 Ha H1) as H2. set (t2 := fold_left exec acts t1) in *.
    case_bool_decide; [|by apply IH]. destruct (acquireOrWait live t2 key o desired share) as [[ok w'] t3] eqn:Hq. destruct ok; [done|].
    pose proof (acquireOrWait_unowned live t2 key o desired share w' H2) as H3. rewrite Hq in H3. specialize (H3 eq_refl). cbn [snd] in H3.
    destruct w' as [w'|]; [|done]. specialize (IH Hsc t3 w' H3). by destruct (wait_loop live key o desired share t3 w' script') as [[ok t4] ws]. }
  unfold acquireShareMode. destruct (acquireOrWait live t key o desired share) as [[ok w] t1] eqn:Hq. destruct ok; [done|].
  pose proof (acquireOrWait_unowned live t key o desired share w Ho) as H1. rewrite Hq in H1. specialize (H1 eq_refl). cbn [snd] in H1.
  destruct w as [w|]; [|done]. destruct (beginSharingWait n) as [[] n']; [|intros _; rewrite owners_unwait; exact H1].
  specialize (Hloop script Hs t1 w H1). by destruct (wait_loop live key o desired share t1 w script) as [[ok t2] ws].
Qed.


(** Handle 1 reads and lets others read, handle 2 reads likewise, and handle 3
    asks for a deny-all open. *)
Definition ex_live : Z -> option fileKey := fun _ => Some (1, 1).
Definition ex_acts : list action := [AcquireOrWait ex_live (1, 1) 1 1 1; AcquireOrWait ex_live (1, 1) 2 1 1].
Definition ex_t : shareModeTable := fold_left exec ex_acts newShareModeTable.

Lemma ex_trace : trace newShareModeTable ex_acts ex_t.
Proof. apply trace_cons; [done|]. apply trace_cons; [done|]. apply trace_nil. Qed.



Lemma acquireShareMode_leaves_nothing_witness :
  let '(ok, t', waits', ws) := acquireShareMode ex_live (1, 1) 3 1 0 ex_t 0 [[Release 1]; [Release 2]] in
  ok = true /\ waits' = 0 /\ Forall (gone t') ws.
Proof.
  pose proof (acquireShareMode_leaves_nothing ex_live ex_acts ex_t (1, 1) 3 1 0 0 [[Release 1]; [Release 2]] ex_trace) as Hs.
  assert ((acquireShareMode ex_live (1, 1) 3 1 0 ex_t 0 [[Release 1]; [Release 2]]).1.1.1 = true) as Hok
    by (vm_compute; reflexivity).
  destruct (acquireShareMode _ _ _ _ _ _ _ _) as [[[ok t'] waits'] ws]. destruct Hs as (H1 & H2 & _).
  split; [exact Hok|]. split; [exact H2|exact H1].
Defined.

End ShareMode.
