(* ===== verification/Sessions.v ===== *)
(** Sessions and the ownership of handles: [internal/parent/session.go] and
    [sessionindex.go].

    A handle ([*Open]) is its identity, its FileID and its tree; a session keeps
    the handles it owns in the map [opens], and taking a handle out of that map
    is what transfers the duty to release it.  Each operation below runs under
    the lock the code takes, so an interleaving of connections is a sequence of
    operations. *)

From S2P Require Import Prelude Smb2 Utf.

Module Session.

Record Open := mkOpen { open_id : Z; FileID : bytes; open_tree : option Z }.

#[export] Instance Open_eq_dec : EqDecision Open.
Proof. solve_decision. Defined.

(** [trees] is the set of the connected TreeIds; [nextTreeID] is a [uint32]. *)
Record Session := mkSession {
  trees : gset Z; opens : gmap bytes Open; dead : bool; nextTreeID : Z }.

Definition newSession : Session := mkSession ∅ ∅ false 0.

(** [initTables]: the maps exist from the start here; the counter is bumped off
    zero. *)
Definition initTables (s : Session) : Session :=
  if nextTreeID s =? 0 then mkSession (trees s) (opens s) (dead s) 1 else s.

Definition AddTree (s : Session) : Session * Z :=
  let s := initTables s in
  let id := (nextTreeID s + 1) mod 2 ^ 32 in
  (mkSession ({[id]} ∪ trees s) (opens s) (dead s) id, id).

Definition GetTree (s : Session) (id : Z) : bool := bool_decide (id ∈ trees s).

(** [RemoveTree] has no caller: a tree goes with its handles, below. *)
Definition RemoveTree (s : Session) (id : Z) : Session := mkSession (trees s ∖ {[id]}) (opens s) (dead s) (nextTreeID s).
Definition TreeCount (s : Session) : Z := Z.of_nat (size (trees s)).

Definition on_tree (id : Z) (o : Open) : bool :=
  match open_tree o with Some t => t =? id | None => false end.

Definition RemoveTreeAndOpens (s : Session) (id : Z) : Session * list Open :=
  (mkSession (trees s ∖ {[id]}) (filter (fun p => on_tree id p.2 = false) (opens s)) (dead s) (nextTreeID s),
   (map_to_list (filter (fun p => on_tree id p.2 = true) (opens s))).*2).

Definition TakeAllOpens (s : Session) : Session * list Open :=
  (mkSession ∅ ∅ true (nextTreeID s), (map_to_list (opens s)).*2).

Definition OpenCount (s : Session) : Z := Z.of_nat (size (opens s)).

Definition AddOpen (s : Session) (o : Open) : Session * bool :=
  if dead s then (s, false) else
  let s := initTables s in
  (mkSession (trees s) (<[FileID o := o]> (opens s)) (dead s) (nextTreeID s), true).

Definition AddOpenToTree (s : Session) (o : Open) (treeID : Z) : Session * bool :=
  if dead s then (s, false) else
  if negb (bool_decide (treeID ∈ trees s)) then (s, false) else
  let s := initTables s in
  (mkSession (trees s) (<[FileID o := o]> (opens s)) (dead s) (nextTreeID s), true).

Definition GetOpen (s : Session) (id : bytes) : option Open := opens s !! id.

Definition RemoveOpen (s : Session) (id : bytes) : Session * option Open :=
  (mkSession (trees s) (delete id (opens s)) (dead s) (nextTreeID s), opens s !! id).

(** ** Interleavings, with a ledger of the handles that went in and came out *)

Inductive op :=
  | OAddTree
  | OAddOpen (o : Open)
  | OAddOpenToTree (o : Open) (treeID : Z)
  | ORemoveOpen (id : bytes)
  | ORemoveTreeAndOpens (id : Z)
  | OTakeAllOpens.

(** The session, the handles it accepted, the handles handed to a remover. *)
Definition exec (s : Session) (a : op) : Session * list Open * list Open :=
  match a with
  | OAddTree => ((AddTree s).1, [], [])
  | OAddOpen o => let '(s', ok) := AddOpen s o in (s', if ok then [o] else [], [])
  | OAddOpenToTree o t => let '(s', ok) := AddOpenToTree s o t in (s', if ok then [o] else [], [])
  | ORemoveOpen id => let '(s', r) := RemoveOpen s id in (s', [], option_list r)
  | ORemoveTreeAndOpens id => let '(s', r) := RemoveTreeAndOpens s id in (s', [], r)
  | OTakeAllOpens => let '(s', r) := TakeAllOpens s in (s', [], r)
  end.

(** A FileID is 16 random bytes, and a handle that a CREATE puts on a tree was
    built for that tree. *)
Definition enabled (s : Session) (a : op) : Prop :=
  match a with
  | OAddOpen o => opens s !! FileID o = None
  | OAddOpenToTree o t => opens s !! FileID o = None /\ open_tree o = Some t
  | _ => True
  end.

Inductive trace : Session -> list Open -> list Open -> Prop :=
  | trace_new : trace newSession [] []
  | trace_step s added taken a : trace s added taken -> enabled s a ->
      trace (exec s a).1.1 (added ++ (exec s a).1.2) (taken ++ (exec s a).2).

Definition owned (s : Session) : list Open := (map_to_list (opens s)).*2.

Lemma owned_insert (m : gmap bytes Open) (o : Open) : m !! FileID o = None ->
  (map_to_list (<[FileID o := o]> m)).*2 ≡ₚ o :: (map_to_list m).*2.
Proof. intros He. by rewrite map_to_list_insert. Qed.

Lemma owned_split (P : bytes * Open -> Prop) `{!forall x, Decision (P x)} (m : gmap bytes Open) :
  (map_to_list m).*2 ≡ₚ (map_to_list (filter P m)).*2 ++ (map_to_list (filter (fun p => ~ P p) m)).*2.
Proof.
  rewrite <- fmap_app. apply fmap_Permutation, NoDup_Permutation.
  - apply NoDup_map_to_list.
  - apply NoDup_app. split_and!; [apply NoDup_map_to_list| |apply NoDup_map_to_list].
    intros [k o] H1 H2. apply elem_of_map_to_list, map_lookup_filter_Some in H1 as [_ H1].
    by apply elem_of_map_to_list, map_lookup_filter_Some in H2 as [_ H2].
  - intros [k o]. rewrite elem_of_app, !elem_of_map_to_list, !map_lookup_filter_Some.
    destruct (decide (P (k, o))); tauto.
Qed.

Lemma exec_owned s a : enabled s a -> owned s ++ (exec s a).1.2 ≡ₚ owned (exec s a).1.1 ++ (exec s a).2.
Proof.
  intros He. unfold owned. destruct a as [|o|o t|id|id|]; simpl in *.
  - unfold initTables. by destruct (nextTreeID s =? 0).
  - unfold AddOpen, initTables. destruct (dead s); simpl; [done|].
    destruct (nextTreeID s =? 0); simpl; rewrite app_nil_r, owned_insert by done; by rewrite Permutation_app_comm.
  - destruct He as [He _]. unfold AddOpenToTree, initTables. destruct (dead s); simpl; [done|].
    destruct (negb _); simpl; [done|].
    destruct (nextTreeID s =? 0); simpl; rewrite app_nil_r, owned_insert by done; by rewrite Permutation_app_comm.
  - rewrite app_nil_r. destruct (opens s !! id) as [o|] eqn:Ho; simpl.
    + rewrite <- (map_to_list_delete (opens s) id o Ho). simpl. by rewrite Permutation_app_comm.
    + by rewrite delete_id, app_nil_r.
  - rewrite app_nil_r, (owned_split (fun p => on_tree id p.2 = false)). apply Permutation_app_head.
    assert (filter (fun p => ~ on_tree id p.2 = false) (opens s) = filter (fun p => on_tree id p.2 = true) (opens s)) as ->;
      [|done].
    apply map_filter_ext. intros k o _. simpl. by destruct (on_tree id o).
  - by rewrite map_to_list_empty, app_nil_r.
Qed.

Lemma exec_dead s a : enabled s a -> (dead s = true -> opens s = ∅) ->
  (dead (exec s a).1.1 = true -> opens (exec s a).1.1 = ∅).
Proof.
  intros He Hi. destruct a as [|o|o t|id|id|]; simpl.
  - unfold initTables. by destruct (nextTreeID s =? 0).
  - unfold AddOpen, initTables. destruct (dead s) eqn:Hd; simpl; [auto|].
    destruct (nextTreeID s =? 0); simpl; congruence.
  - unfold AddOpenToTree, initTables. destruct (dead s) eqn:Hd; simpl; [auto|].
    destruct (negb _); simpl; [congruence|]. destruct (nextTreeID s =? 0); simpl; congruence.
  - intros Hd. by rewrite Hi, delete_empty.
  - intros Hd. by rewrite Hi, map_filter_empty.
  - done.
Qed.

(** C7: Every handle a session accepts is handed to exactly one remover, exactly
    once, or is still in the map, under any interleaving of CREATE, CLOSE,
    TREE_DISCONNECT, LOGOFF and teardown: what was accepted is, as a multiset,
    what was taken out plus what is left.  Once the session is dead nothing is
    left, so nothing can be orphaned behind a teardown. *)
Theorem handles_released_once (s : Session) (added taken : list Open) :
  trace s added taken ->
  added ≡ₚ taken ++ owned s /\ (dead s = true -> added ≡ₚ taken /\ forall o, (AddOpen s o).2 = false).
Proof.
  intros Ht. assert (added ≡ₚ taken ++ owned s /\ (dead s = true -> opens s = ∅)) as [Hp Hd].
  { induction Ht as [|s added taken a _ [Hp Hd] He]; [done|]. split.
    - rewrite Hp, <- app_assoc, (exec_owned s a He). rewrite <- app_assoc. apply Permutation_app_head.
      by rewrite Permutation_app_comm.
    - by apply exec_dead. }
  split; [done|]. intros Hds. split.
  - rewrite Hp. unfold owned. rewrite (Hd Hds), map_to_list_empty. simpl. by rewrite app_nil_r.
  - intros o. unfold AddOpen. by rewrite Hds.
Qed.

(** Operations a file CREATE can race with: no handle is added but through its
    tree. *)
Inductive file_trace : Session -> Prop :=
  | file_new : file_trace newSession
  | file_step s a : file_trace s -> enabled s a -> (forall o, a <> OAddOpen o) -> file_trace (exec s a).1.1.

(** No file handle is ever left on a disconnected tree, however a CREATE
    that parked races TREE_DISCONNECT, LOGOFF and teardown: every handle in the
    map names a tree that is still connected, so some request can still reach
    it. *)
Theorem no_handle_on_dead_tree (s : Session) (o : Open) :
  file_trace s -> o ∈ owned s -> exists t, open_tree o = Some t /\ t ∈ trees s.
Proof.
  intros Ht. assert (forall id o, opens s !! id = Some o -> exists t, open_tree o = Some t /\ t ∈ trees s) as Hm.
  { induction Ht as [|s a _ IH He Ha]; intros id o0.
    { simpl. by rewrite lookup_empty. }
    destruct a as [|o1|o1 t|id'|id'|]; simpl in *.
    - unfold initTables. intros Ho. assert (opens s !! id = Some o0) as Ho' by (by destruct (nextTreeID s =? 0)).
      destruct (IH _ _ Ho') as (t & ? & ?). exists t. split; [done|]. destruct (nextTreeID s =? 0); set_solver.
    - by destruct (Ha o1).
    - destruct He as [_ Htr]. unfold AddOpenToTree, initTables. destruct (dead s); simpl; [apply IH|].
      case_bool_decide as Hin; simpl; [|apply IH].
      assert (forall n, <[FileID o1 := o1]> (opens s) !! id = Some o0 ->
        exists t0, open_tree o0 = Some t0 /\ t0 ∈ trees (mkSession (trees s) (<[FileID o1:=o1]> (opens s)) (dead s) n)) as Hx.
      { intros n. rewrite lookup_insert_Some. intros [[_ <-]|[_ Ho]]; [by exists t|by apply IH in Ho]. }
      by destruct (nextTreeID s =? 0); simpl; apply (Hx 0).
    - rewrite lookup_delete_Some. intros [_ Ho]. by apply IH in Ho.
    - rewrite map_lookup_filter_Some. intros [Ho Hf]. simpl in Hf. destruct (IH _ _ Ho) as (t & Het & Hin).
      exists t. split; [done|]. unfold on_tree in Hf. rewrite Het in Hf. apply Z.eqb_neq in Hf. set_solver.
    - by rewrite lookup_empty. }
  intros Ho. unfold owned in Ho. apply list_elem_of_fmap in Ho as ([id o'] & -> & Ho).
  apply elem_of_map_to_list in Ho. by apply (Hm id).
Qed.

(** ** Witnesses *)

Definition ex_open : Open := mkOpen 7 [Byte.x01] (Some 2).
Definition ex_session : Session := (exec (exec newSession OAddTree).1.1 (OAddOpenToTree ex_open 2)).1.1.

Lemma handles_released_once_witness :
  [ex_open] ≡ₚ [ex_open] ++ owned (exec ex_session OTakeAllOpens).1.1.
Proof.
  assert (trace (exec ex_session OTakeAllOpens).1.1 [ex_open] [ex_open]) as Ht.
  { apply (trace_step ex_session [ex_open] [] OTakeAllOpens); [|done].
    apply (trace_step (exec newSession OAddTree).1.1 [] [] (OAddOpenToTree ex_open 2)); [|by vm_compute].
    apply (trace_step newSession [] [] OAddTree); [apply trace_new|done]. }
  exact (proj1 (handles_released_once _ _ _ Ht)).
Defined.

Lemma no_handle_on_dead_tree_witness : exists t, open_tree ex_open = Some t /\ t ∈ trees ex_session.
Proof.
  apply (no_handle_on_dead_tree ex_session ex_open).
  - apply file_step; [|by vm_compute|done]. apply (file_step newSession OAddTree); [apply file_new|done|done].
  - apply list_elem_of_In. vm_compute. by left.
Defined.

End Session.

(** ** The sessions of one connection

    [nextSessionID] is the process-wide counter; a SessionId is never reused
    (the counter is 64 bits wide, so [Z] is exact for any reachable count). *)

Module SessionTable.

Definition maxHalfOpenSessions : Z := 64.

Record SessionTable := mkTable { byID : gset Z; halfOpen : gset Z }.

Definition NewSessionTable : SessionTable := mkTable ∅ ∅.

Definition allocSessionID (nextSessionID : Z) : Z * Z := (nextSessionID + 1, nextSessionID + 1).

Definition NewHalfOpen (t : SessionTable) (ctr : Z) : SessionTable * Z * option Z :=
  if maxHalfOpenSessions <=? Z.of_nat (size (halfOpen t)) then (t, ctr, None) else
  let '(id, ctr) := allocSessionID ctr in
  (mkTable ({[id]} ∪ byID t) ({[id]} ∪ halfOpen t), ctr, Some id).

Definition MarkAuthenticated (t : SessionTable) (id : Z) : SessionTable :=
  mkTable (byID t) (halfOpen t ∖ {[id]}).

Definition RemoveSession (t : SessionTable) (id : Z) : SessionTable :=
  mkTable (byID t ∖ {[id]}) (halfOpen t ∖ {[id]}).

Definition HalfOpenCount (t : SessionTable) : Z := Z.of_nat (size (halfOpen t)).

Definition GetSession (t : SessionTable) (id : Z) : bool := bool_decide (id ∈ byID t).

Inductive step : SessionTable * Z -> SessionTable * Z -> Prop :=
  | step_new t c : step (t, c) (NewHalfOpen t c).1
  | step_other t c c' : c <= c' -> step (t, c) (t, c')   (* other connections allocate ids *)
  | step_auth t c id : step (t, c) (MarkAuthenticated t id, c)
  | step_remove t c id : step (t, c) (RemoveSession t id, c).

Definition reachable (st : SessionTable * Z) : Prop := rtc step (NewSessionTable, 0) st.

Definition Inv (st : SessionTable * Z) : Prop :=
  Z.of_nat (size (halfOpen st.1)) <= maxHalfOpenSessions /\ halfOpen st.1 ⊆ byID st.1 /\
  (forall id, id ∈ byID st.1 -> 0 < id <= st.2) /\ 0 <= st.2.

Lemma size_difference_le (X Y : gset Z) : (size (X ∖ Y) <= size X)%nat.
Proof. apply subseteq_size. set_solver. Qed.

Lemma step_Inv st st' : Inv st -> step st st' -> Inv st'.
Proof.
  intros (H1 & H2 & H3 & H4) Hs. destruct Hs as [t c|t c c' Hc|t c id|t c id]; unfold Inv; simpl in *.
  - unfold NewHalfOpen. destruct (Z.leb_spec maxHalfOpenSessions (Z.of_nat (size (halfOpen t)))); simpl; [done|].
    split_and!; [|set_solver| |lia].
    + pose proof (size_union_alt {[c + 1]} (halfOpen t)) as Hsz. rewrite size_singleton in Hsz.
      pose proof (size_difference_le (halfOpen t) {[c + 1]}). lia.
    + intros id Hid. apply elem_of_union in Hid as [->%elem_of_singleton|Hid]; [lia|]. specialize (H3 id Hid). lia.
  - split_and!; [done|done| |lia]. intros id Hid. specialize (H3 id Hid). lia.
  - pose proof (size_difference_le (halfOpen t) {[id]}). split_and!; [lia|set_solver|done|done].
  - pose proof (size_difference_le (halfOpen t) {[id]}). split_and!; [lia|set_solver| |done].
    intros id' Hid. apply H3. set_solver.
Qed.

Lemma reachable_Inv st : reachable st -> Inv st.
Proof.
  assert (forall a b, rtc step a b -> Inv a -> Inv b) as Hi.
  { induction 1 as [|a b c Hs _ IH]; [done|]. intros Ha. by apply IH, (step_Inv a). }
  intros Hr. apply (Hi _ _ Hr). split_and!; [by vm_compute|done| |done].
  intros id Hid. by apply not_elem_of_empty in Hid.
Qed.

(** A connection never holds more than 64 half-open sessions, whatever a
    peer that has not authenticated sends; every half-open session is one the
    table serves; and a fresh SessionId is positive and was never handed out
    before, so an id names one session for the life of the server. *)
Theorem half_open_bounded (t : SessionTable) (ctr : Z) :
  reachable (t, ctr) ->
  Z.of_nat (size (halfOpen t)) <= maxHalfOpenSessions /\ halfOpen t ⊆ byID t /\
  (forall id, id ∈ byID t -> 0 < id <= ctr) /\
  match NewHalfOpen t ctr with
  | (t', ctr', Some id) => 0 < id /\ (id ∉ byID t) /\ ctr < ctr'
  | (t', ctr', None) => t' = t
  end.
Proof.
  intros (H1 & H2 & H3 & H4)%reachable_Inv. simpl in *. split_and!; [done..|].
  unfold NewHalfOpen. destruct (_ <=? _); [done|]. simpl.
  split_and!; [lia| |lia]. intros Hid. specialize (H3 _ Hid). lia.
Qed.

Lemma half_open_bounded_witness :
  Z.of_nat (size (halfOpen (NewHalfOpen NewSessionTable 0).1.1)) <= maxHalfOpenSessions.
Proof.
  apply (half_open_bounded (NewHalfOpen NewSessionTable 0).1.1 (NewHalfOpen NewSessionTable 0).1.2).
  apply rtc_once. exact (step_new NewSessionTable 0).
Defined.

End SessionTable.

(** ** The server-wide index and PreviousSessionId *)

Module SessionIndex.

(** An authenticated session as the index sees it, and the connection that owns
    it: an identity and its ClientGuid. *)
Record session := mkSess { ID : Z; Authenticated : bool; IsGuest : bool; UserName : bytes }.
Record sessionHost := mkHost { host_id : Z; clientGuid : bytes }.
Record sessionIndexEntry := mkEntry { sess : session; host : sessionHost }.

Abbreviation SessionIndex := (gmap Z sessionIndexEntry).

Section Fold.
(** [unicode.SimpleFold], as the representative of a rune's folding orbit: the
    Unicode table behind [strings.EqualFold]. *)
Variable fold : Z -> Z.

Definition EqualFold (a b : bytes) : bool := bool_decide (map fold (Utf8.runes a) = map fold (Utf8.runes b)).

Definition register (idx : SessionIndex) (s : session) (h : sessionHost) : SessionIndex :=
  if ID s =? 0 then idx else <[ID s := mkEntry s h]> idx.

Definition unregister (idx : SessionIndex) (id : Z) : SessionIndex := delete id idx.

Definition unregisterHost (idx : SessionIndex) (h : sessionHost) : SessionIndex :=
  filter (fun p => (host_id (host p.2) =? host_id h) = false) idx.

Definition maySupersede (e : sessionIndexEntry) (by_ : session) (byGuid : bytes) : bool :=
  let prev := sess e in
  if negb (Authenticated prev) || negb (Authenticated by_) then false else
  if negb (Bool.eqb (IsGuest prev) (IsGuest by_)) then false else
  if negb (EqualFold (UserName prev) (UserName by_)) then false else
  if IsGuest by_ && negb (bool_decide (clientGuid (host e) = byGuid)) then false else
  true.

(** The index afterwards, and the session to close on its owner. *)
Definition supersede (idx : SessionIndex) (prevID : Z) (by_ : session) (byGuid : bytes)
    : SessionIndex * option sessionIndexEntry :=
  if (prevID =? 0) || (prevID =? ID by_) then (idx, None) else
  match idx !! prevID with
  | None => (idx, None)
  | Some e =>
      if negb (maySupersede e by_ byGuid) then (idx, None)
      else (delete prevID idx, Some e)
  end.

(** A PreviousSessionId closes another session only for the principal that
    owns it: both authenticated, the same user name up to case, both guests or
    neither, and two guests only from the same client machine.  Every refusal
    leaves the index as it was; a success removes that one entry, so of two
    reconnects naming the same session at most one closes it. *)
Theorem supersede_same_principal (idx : SessionIndex) (prevID : Z) (by_ : session) (byGuid : bytes) :
  match supersede idx prevID by_ byGuid with
  | (idx', Some e) =>
      idx !! prevID = Some e /\ idx' = delete prevID idx /\ prevID <> ID by_ /\
      Authenticated (sess e) = true /\ Authenticated by_ = true /\
      IsGuest (sess e) = IsGuest by_ /\ EqualFold (UserName (sess e)) (UserName by_) = true /\
      (IsGuest by_ = true -> clientGuid (host e) = byGuid) /\
      forall by2 guid2, (supersede idx' prevID by2 guid2).2 = None
  | (idx', None) => idx' = idx
  end.
Proof.
  unfold supersede. destruct (Z.eqb_spec prevID 0); [done|]. destruct (Z.eqb_spec prevID (ID by_)); [done|]. simpl.
  destruct (idx !! prevID) as [e|] eqn:He; [|done].
  destruct (maySupersede e by_ byGuid) eqn:Hm; simpl; [|done].
  unfold maySupersede in Hm.
  destruct (Authenticated (sess e)), (Authenticated by_); try done. simpl in Hm.
  destruct (Bool.eqb_spec (IsGuest (sess e)) (IsGuest by_)) as [Hg|]; [|done]. simpl in Hm.
  destruct (EqualFold (UserName (sess e)) (UserName by_)); [|done]. simpl in Hm.
  split_and!; try done.
  - intros Hgu. rewrite Hgu in Hm. simpl in Hm. by case_bool_decide.
  - intros by2 guid2. unfold supersede. rewrite lookup_delete_eq. by destruct (prevID =? ID by2).
Qed.

End Fold.
End SessionIndex.
