(* ===== verification/CreateCtx.v ===== *)
(** CREATE: the request decoder and response encoder of
    [internal/smb2/create.go], the create-context chain, and what
    [internal/parent/durable.go] and [timewarp.go] read out of it. *)

From S2P Require Import Prelude Smb2 Utf Requests.

Module Create.

Record CreateRequest := mkCreateRequest {
  RequestedOplock : Z; ImpersonationLevel : Z; DesiredAccess : Z; ReqFileAttributes : Z;
  ShareAccess : Z; CreateDisposition : Z; CreateOptions : Z; ReqName : bytes; ReqCreateContexts : bytes }.

Definition DecodeCreateRequest (body : bytes) : res CreateRequest :=
  if len body <? 56 then Err ErrShortBuffer else
  ss ← u16 body 0;
  if negb (ss =? 57) then Err ErrBadStructureSize else
  opl ← at8 body 3;
  imp ← u32 body 4;
  acc ← u32 body 24;
  att ← u32 body 28;
  shr ← u32 body 32;
  dis ← u32 body 36;
  opt ← u32 body 40;
  nameOffAbs ← u16 body 44;
  nameLen ← u16 body 46;
  ccOffAbs ← u32 body 48;
  ccLen ← u32 body 52;
  name ← (if 0 <? nameLen then
            let off := nameOffAbs - headerSize in
            if (off <? 0) || (len body <? off + nameLen) then Err ErrShortBuffer else
            d ← slice body off (off + nameLen); Ok (Names.decodeUTF16LE d)
          else Ok []);
  ctxs ← (if 0 <? ccLen then
            let off := ccOffAbs - headerSize in
            if (off <? 0) || (len body <? off + ccLen) then Err ErrShortBuffer else
            slice body off (off + ccLen)
          else Ok []);
  Ok (mkCreateRequest opl imp acc att shr dis opt name ctxs).

Record CreateResponse := mkCreateResponse {
  OplockLevel : Z; RespFlags : Z; CreateAction : Z; CreationTime : Z; LastAccessTime : Z;
  LastWriteTime : Z; ChangeTime : Z; AllocationSize : Z; EndOfFile : Z; FileAttributes : Z;
  FileID : bytes; CreateContexts : bytes }.

Definition fixed : Z := 88.

(** The padding loop runs zero times: 88 is a multiple of 8. *)
Definition pad8 (b : bytes) : bytes := b ++ zeros ((8 - len b mod 8) mod 8).

Definition EncodeCreateResponse (r : CreateResponse) : bytes :=
  let body := writes (zeros fixed)
    [(0, le16 89); (2, le8 (OplockLevel r)); (3, le8 (RespFlags r)); (4, le32 (CreateAction r));
     (8, le64 (CreationTime r)); (16, le64 (LastAccessTime r)); (24, le64 (LastWriteTime r));
     (32, le64 (ChangeTime r)); (40, le64 (AllocationSize r)); (48, le64 (EndOfFile r));
     (56, le32 (FileAttributes r)); (64, FileID r)] in
  if len (CreateContexts r) =? 0 then writes body [(80, le32 0); (84, le32 0)] ++ [Byte.x00] else
  let body := pad8 body in
  let ctxOffset := len body + headerSize in
  writes body [(80, le32 ctxOffset); (84, le32 (len (CreateContexts r)))] ++ CreateContexts r.

(** ** The create-context chain *)

Record CreateContext := mkCtx { Name : bytes; Data : bytes }.

#[export] Instance CreateContext_eq_dec : EqDecision CreateContext.
Proof. solve_decision. Defined.

(** [IterateCreateContexts]: [fn] threads the state its closure captures and
    says whether to go on.  Every round moves [off] forward, so [len raw]
    rounds are enough; running out of fuel counts as a panic. *)
Fixpoint iterate {S} (fuel : nat) (raw : bytes) (fn : S -> CreateContext -> S * bool) (off : Z) (s : S) : res S :=
  match fuel with
  | O => Panic
  | Datatypes.S fuel =>
      if len raw <=? off then Ok s else
      if len raw - off <? 16 then Ok s else
      next ← u32 raw off;
      nameOff ← u16 raw (off + 4);
      nameLen ← u16 raw (off + 6);
      dataOff ← u16 raw (off + 10);
      dataLen ← u32 raw (off + 12);
      name ← (if (0 <? nameLen) && (off + nameOff + nameLen <=? len raw)
              then slice raw (off + nameOff) (off + nameOff + nameLen) else Ok []);
      data ← (if (0 <? dataLen) && (off + dataOff + dataLen <=? len raw)
              then slice raw (off + dataOff) (off + dataOff + dataLen) else Ok []);
      let '(s, go) := fn s (mkCtx name data) in
      if negb go then Ok s else
      if next =? 0 then Ok s else iterate fuel raw fn (off + next) s
  end.

Definition IterateCreateContexts {S} (raw : bytes) (fn : S -> CreateContext -> S * bool) (s : S) : res S :=
  iterate (Datatypes.S (length raw)) raw fn 0 s.

(** One entry of [EncodeCreateContexts], from [entryStart] on. *)
Definition encode_entry (c : CreateContext) (last : bool) : bytes :=
  let hdr := writes (zeros 16) [(4, le16 16); (6, le16 (len (Name c))); (12, le32 (len (Data c)))] in
  let r := pad8 (hdr ++ Name c) in
  let r := splice 10 (le16 (len r)) r ++ Data c in
  if last then r else let r := pad8 r in splice 0 (le32 (len r)) r.

Fixpoint EncodeCreateContexts (ctxs : list CreateContext) : bytes :=
  match ctxs with
  | [] => []
  | [c] => encode_entry c true
  | c :: rest => encode_entry c false ++ EncodeCreateContexts rest
  end.

(** ** What the server reads out of the chain *)

Definition tagDH2Q : bytes := [Byte.x44; Byte.x48; Byte.x32; Byte.x51].
Definition tagDHnQ : bytes := [Byte.x44; Byte.x48; Byte.x6e; Byte.x51].
Definition tagDH2C : bytes := [Byte.x44; Byte.x48; Byte.x32; Byte.x43].
Definition tagDHnC : bytes := [Byte.x44; Byte.x48; Byte.x6e; Byte.x43].
Definition tagRqLs : bytes := [Byte.x52; Byte.x71; Byte.x4c; Byte.x73].
Definition tagTwrp : bytes := [Byte.x54; Byte.x57; Byte.x72; Byte.x70].

Definition leaseNone : Z := 0x00.
Definition rqLsV1Size : Z := 32.
Definition rqLsV2Size : Z := 52.

Record durableRequest := mkDurReq { dq_present : bool; dq_v2 : bool; dq_timeout : Z; dq_flags : Z; dq_guid : bytes }.
Record durableReconnect := mkDurRec { dc_present : bool; dc_v2 : bool; dc_fileID : bytes; dc_guid : bytes }.
Record leaseRequest := mkLease { lr_present : bool; lr_v2 : bool; lr_key : bytes; lr_state : Z }.

Definition zeroGuid : bytes := zeros 16.

Definition no_request : durableRequest * durableReconnect * leaseRequest :=
  (mkDurReq false false 0 0 zeroGuid, mkDurRec false false zeroGuid zeroGuid, mkLease false false zeroGuid 0).

Definition eqTag (name tag : bytes) : bool := bool_decide (name = tag).

(** The closure of [parseDurableContexts]; its reads are inside the data it has
    just measured. *)
Definition durable_step (st : durableRequest * durableReconnect * leaseRequest) (c : CreateContext)
    : (durableRequest * durableReconnect * leaseRequest) * bool :=
  let '(dq, dc, lr) := st in
  let d := Data c in
  let st :=
    if eqTag (Name c) tagDH2Q then
      if 32 <=? len d
      then (mkDurReq true true (le_combine (get d 0 4)) (le_combine (get d 4 4)) (get d 16 16), dc, lr)
      else st
    else if eqTag (Name c) tagDHnQ then
      (mkDurReq true false (dq_timeout dq) (dq_flags dq) (dq_guid dq), dc, lr)
    else if eqTag (Name c) tagDH2C then
      if 36 <=? len d then (dq, mkDurRec true true (get d 0 16) (get d 16 16), lr) else st
    else if eqTag (Name c) tagDHnC then
      if 16 <=? len d then (dq, mkDurRec true false (get d 0 16) (dc_guid dc), lr) else st
    else if eqTag (Name c) tagRqLs then
      if 20 <=? len d
      then (dq, dc, mkLease true (rqLsV2Size <=? len d) (get d 0 16) (le_combine (get d 16 4)))
      else st
    else st in
  (st, true).

Definition parseDurableContexts (raw : bytes) : res (durableRequest * durableReconnect * leaseRequest) :=
  if len raw =? 0 then Ok no_request else IterateCreateContexts raw durable_step no_request.

Definition hasTimewarpContext (raw : bytes) : res bool :=
  if len raw =? 0 then Ok false else
  IterateCreateContexts raw (fun found c => if eqTag (Name c) tagTwrp then (true, false) else (found, true)) false.

Definition encodeDH2QResponse (timeout flags : Z) : bytes := writes (zeros 8) [(0, le32 timeout); (4, le32 flags)].
Definition encodeDHnQResponse : bytes := zeros 8.
Definition encodeRqLsResponse (key : bytes) (granted : Z) (v2 : bool) : bytes :=
  writes (zeros (if v2 then rqLsV2Size else rqLsV1Size)) [(0, key); (16, le32 granted)].

(** ** Theorems *)

Lemma iterate_safe {S} fuel raw (fn : S -> CreateContext -> S * bool) off s :
  0 <= off -> 1 <= Z.of_nat fuel -> len raw < off + Z.of_nat fuel -> safe (iterate fuel raw fn off s).
Proof.
  revert off s. induction fuel as [|fuel IH]; intros off s Ho H1 Hf; [lia|]. cbn [iterate].
  destruct (Z.leb_spec (len raw) off); [done|]. destruct (Z.ltb_spec (len raw - off) 16); [done|].
  apply safe_bind; [nopanic|intros next Hnext]. apply u32_inv in Hnext.
  do 4 (apply safe_bind; [nopanic|intros ? ?]). nopanic.
  apply IH; lia.
Qed.

Lemma IterateCreateContexts_safe {S} raw (fn : S -> CreateContext -> S * bool) s :
  safe (IterateCreateContexts raw fn s).
Proof. apply iterate_safe; unfold len; lia. Qed.

(** No CREATE request, and no create-context chain in it, however malformed,
    makes the server panic or loop: decoding the body, looking for a durable
    request, a reconnect or a lease, and looking for a timewarp token all
    return. *)
Theorem create_never_panics (body raw : bytes) :
  safe (DecodeCreateRequest body) /\ safe (parseDurableContexts raw) /\ safe (hasTimewarpContext raw).
Proof.
  split; [|split].
  - unfold DecodeCreateRequest, headerSize. nopanic.
  - unfold parseDurableContexts. destruct (_ =? 0); [done|]. apply IterateCreateContexts_safe.
  - unfold hasTimewarpContext. destruct (_ =? 0); [done|]. apply IterateCreateContexts_safe.
Qed.

(** ** The chain round-trips *)

Lemma pad8_len b : len (pad8 b) = len b + (8 - len b mod 8) mod 8.
Proof. unfold pad8. rewrite len_app, len_zeros; [done|]. apply Z.mod_pos_bound. lia. Qed.

Lemma pad8_range b : len b <= len (pad8 b) < len b + 8.
Proof. rewrite pad8_len. pose proof (Z.mod_pos_bound (8 - len b mod 8) 8 ltac:(lia)). lia. Qed.

Lemma get_pad8 b off n : 0 <= off -> 0 <= n -> off + n <= len b -> get (pad8 b) off n = get b off n.
Proof. intros. unfold pad8. by apply get_app_l. Qed.

(** The names and data a context can have: what its 16-bit offsets and 32-bit
    lengths can express. *)
Definition wf_ctx (c : CreateContext) : Prop := len (Name c) + 24 < 2 ^ 16 /\ len (Data c) + 2 ^ 17 < 2 ^ 32.

Definition ctx_hdr (c : CreateContext) : bytes :=
  writes (zeros 16) [(4, le16 16); (6, le16 (len (Name c))); (12, le32 (len (Data c)))].

Lemma ctx_hdr_spec c : len (ctx_hdr c) = 16 /\ get (ctx_hdr c) 0 4 = zeros 4 /\ get (ctx_hdr c) 4 2 = le16 16 /\
  get (ctx_hdr c) 6 2 = le16 (len (Name c)) /\ get (ctx_hdr c) 12 4 = le32 (len (Data c)).
Proof.
  unfold ctx_hdr. assert (fits (len (zeros 16)) [(4, le16 16); (6, le16 (len (Name c))); (12, le32 (len (Data c)))]) as Hf.
  { rewrite len_zeros by lia. fits_tac. }
  split_and!; [by rewrite (len_writes _ _ 16) by (by rewrite ?len_zeros in * by lia)|wfield; by apply get_zeros|by wfield..].
Qed.

Record entry_spec (c : CreateContext) (e : bytes) (next : Z) : Prop := {
  es_next : get e 0 4 = le32 next;
  es_nameOff : get e 4 2 = le16 16;
  es_nameLen : get e 6 2 = le16 (len (Name c));
  es_dataLen : get e 12 4 = le32 (len (Data c));
  es_data : exists dataOff, 16 + len (Name c) <= dataOff < 2 ^ 16 /\ get e 10 2 = le16 dataOff /\
     get e dataOff (len (Data c)) = Data c /\ dataOff + len (Data c) <= len e;
  es_name : get e 16 (len (Name c)) = Name c }.

Lemma encode_entry_spec c last : wf_ctx c ->
  entry_spec c (encode_entry c last) (if last then 0 else len (encode_entry c last)) /\
  16 <= len (encode_entry c last) < 2 ^ 32.
Proof.
  intros [Hn Hd]. pose proof (len_nonneg (Name c)). pose proof (len_nonneg (Data c)).
  destruct (ctx_hdr_spec c) as (Hl & G0 & G4 & G6 & G12).
  unfold encode_entry. fold (ctx_hdr c). set (r := pad8 (ctx_hdr c ++ Name c)).
  assert (len (ctx_hdr c ++ Name c) = 16 + len (Name c)) as Hb by (rewrite len_app; lia).
  pose proof (pad8_range (ctx_hdr c ++ Name c)) as Hr. fold r in Hr. rewrite Hb in Hr.
  assert (len (splice 10 (le16 (len r)) r) = len r) as Hs by (rewrite len_splice by side; done).
  set (e := splice 10 (le16 (len r)) r ++ Data c).
  assert (len e = len r + len (Data c)) as He by (unfold e; rewrite len_app; lia).
  assert (entry_spec c e 0) as Hspec.
  { split; [| | | |exists (len r)|]; unfold e.
    - by field1; field1; unfold r; rewrite get_pad8, get_app_l by side.
    - by field1; field1; unfold r; rewrite get_pad8, get_app_l by side.
    - by field1; field1; unfold r; rewrite get_pad8, get_app_l by side.
    - by field1; field1; unfold r; rewrite get_pad8, get_app_l by side.
    - split; [lia|]. split; [by rewrite get_app_l, get_splice_eq by side|]. split; [|unfold e in He; lia].
      rewrite get_app_r, Hs, Z.sub_diag by side. by apply get_all.
    - rewrite get_app_l, get_splice_ne by side. unfold r. rewrite get_pad8, get_app_r, Hl, Z.sub_diag by side.
      by apply get_all. }
  destruct last; [split; [done|lia]|]. pose proof (pad8_range e) as Hp.
  assert (len (splice 0 (le32 (len (pad8 e))) (pad8 e)) = len (pad8 e)) as Hs2 by (rewrite len_splice by side; done).
  rewrite Hs2. split; [|lia]. destruct Hspec as [_ P4 P6 P12 (dOff & Ho & P10 & Pd & Pl) Pn].
  split; [| | | |exists dOff|].
  - by rewrite get_splice_eq by side.
  - by rewrite get_splice_ne, get_pad8 by side.
  - by rewrite get_splice_ne, get_pad8 by side.
  - by rewrite get_splice_ne, get_pad8 by side.
  - split; [done|]. split; [by rewrite get_splice_ne, get_pad8 by side|].
    split; [by rewrite get_splice_ne, get_pad8 by side|lia].
  - by rewrite get_splice_ne, get_pad8 by side.
Qed.

(** One round on a well-formed entry. *)
Lemma iterate_entry {S} fuel pre c e post next (fn : S -> CreateContext -> S * bool) s :
  wf_ctx c -> entry_spec c e next -> 16 <= len e -> 0 <= next < 2 ^ 32 ->
  iterate (Datatypes.S fuel) (pre ++ e ++ post) fn (len pre) s =
    let '(s, go) := fn s c in
    if negb go then Ok s else if next =? 0 then Ok s else iterate fuel (pre ++ e ++ post) fn (len pre + next) s.
Proof.
  intros [Hwn Hwd] [P0 P4 P6 P12 (dOff & Ho & P10 & Pd & Pl) Pn] He Hnext.
  pose proof (len_nonneg pre). pose proof (len_nonneg post). pose proof (len_nonneg (Name c)).
  pose proof (len_nonneg (Data c)).
  assert (len (pre ++ e ++ post) = len pre + len e + len post) as Hl by (rewrite !len_app; lia).
  cbn [iterate]. destruct (Z.leb_spec (len (pre ++ e ++ post)) (len pre)); [lia|].
  destruct (Z.ltb_spec (len (pre ++ e ++ post) - len pre) 16); [lia|].
  rewrite (u32_Ok _ (len pre)), (u32_Ok _ (len pre + 12)), !u16_Ok by lia. cbn [mbind outcome_bind].
  pose proof (get_mid pre e post 0 4 ltac:(lia) ltac:(lia) ltac:(lia)) as Hg0. rewrite Z.add_0_r in Hg0. rewrite Hg0, P0.
  rewrite (get_mid _ _ _ 4), (get_mid _ _ _ 6), (get_mid _ _ _ 10), P4, P6, P10 by lia.
  rewrite (get_mid _ _ _ 12), P12 by lia.
  rewrite !(le_combine_le_split 2 _ (2 ^ 16) eq_refl), !(le_combine_le_split 4 _ (2 ^ 32) eq_refl) by lia.
  assert ((if (0 <? len (Name c)) && (len pre + 16 + len (Name c) <=? len (pre ++ e ++ post))
     then slice (E:=err) (pre ++ e ++ post) (len pre + 16) (len pre + 16 + len (Name c)) else Ok []) = Ok (Name c)) as ->.
  { destruct (Z.ltb_spec 0 (len (Name c))); simpl.
    - destruct (Z.leb_spec (len pre + 16 + len (Name c)) (len (pre ++ e ++ post))); [|lia].
      rewrite slice_Ok by lia. replace (len pre + 16 + len (Name c) - (len pre + 16)) with (len (Name c)) by lia.
      by rewrite get_mid, Pn by lia.
    - by rewrite (len_zero (Name c)) by lia. }
  assert ((if (0 <? len (Data c)) && (len pre + dOff + len (Data c) <=? len (pre ++ e ++ post))
     then slice (E:=err) (pre ++ e ++ post) (len pre + dOff) (len pre + dOff + len (Data c)) else Ok []) = Ok (Data c)) as ->.
  { destruct (Z.ltb_spec 0 (len (Data c))); simpl.
    - destruct (Z.leb_spec (len pre + dOff + len (Data c)) (len (pre ++ e ++ post))); [|lia].
      rewrite slice_Ok by lia. replace (len pre + dOff + len (Data c) - (len pre + dOff)) with (len (Data c)) by lia.
      by rewrite get_mid, Pd by lia.
    - by rewrite (len_zero (Data c)) by lia. }
  cbn [mbind outcome_bind]. by destruct c.
Qed.

(** Running the callback over a list, stopping when it says so. *)
Fixpoint fold_until {S} (fn : S -> CreateContext -> S * bool) (cs : list CreateContext) (s : S) : S :=
  match cs with
  | [] => s
  | c :: cs => let '(s, go) := fn s c in if go then fold_until fn cs s else s
  end.

Lemma iterate_encode {S} (fn : S -> CreateContext -> S * bool) ctxs fuel pre s :
  Forall wf_ctx ctxs -> ctxs <> [] -> (length ctxs <= fuel)%nat ->
  iterate fuel (pre ++ EncodeCreateContexts ctxs) fn (len pre) s = Ok (fold_until fn ctxs s).
Proof.
  revert fuel pre s. induction ctxs as [|c ctxs IH]; intros fuel pre s Hw Hne Hf; [done|].
  apply Forall_cons in Hw as [Hc Hw]. destruct fuel as [|fuel]; [simpl in Hf; lia|].
  destruct ctxs as [|c' ctxs].
  - destruct (encode_entry_spec c true Hc) as [Hs [Hl _]]. change (EncodeCreateContexts [c]) with (encode_entry c true).
    rewrite <- (app_nil_r (encode_entry c true)), (iterate_entry _ _ c _ _ 0) by (done || lia).
    cbn [fold_until]. destruct (fn s c) as [s' []]; done.
  - destruct (encode_entry_spec c false Hc) as [Hs [Hl Hu]].
    change (EncodeCreateContexts (c :: c' :: ctxs)) with (encode_entry c false ++ EncodeCreateContexts (c' :: ctxs)).
    rewrite (iterate_entry _ _ c _ _ _ _ _ Hc Hs) by lia.
    cbn [fold_until]. destruct (fn s c) as [s' []]; cbn [negb]; [|done].
    destruct (Z.eqb_spec (len (encode_entry c false)) 0); [lia|].
    rewrite app_assoc, <- len_app. apply IH; [done|done|cbn [length] in *; lia].
Qed.

Lemma encode_length ctxs : Forall wf_ctx ctxs -> Z.of_nat (length ctxs) <= len (EncodeCreateContexts ctxs).
Proof.
  induction 1 as [|c ctxs Hc _ IH]; [done|]. destruct ctxs as [|c' ctxs].
  - destruct (encode_entry_spec c true Hc) as [_ [? _]].
    change (EncodeCreateContexts [c]) with (encode_entry c true). unfold Datatypes.length. lia.
  - destruct (encode_entry_spec c false Hc) as [_ [? _]].
    change (EncodeCreateContexts (c :: c' :: ctxs)) with (encode_entry c false ++ EncodeCreateContexts (c' :: ctxs)).
    rewrite len_app. cbn [length] in *. lia.
Qed.

Lemma IterateCreateContexts_encode {S} (fn : S -> CreateContext -> S * bool) ctxs s : Forall wf_ctx ctxs ->
  IterateCreateContexts (EncodeCreateContexts ctxs) fn s = Ok (fold_until fn ctxs s).
Proof.
  intros Hw. unfold IterateCreateContexts. destruct ctxs as [|c ctxs]; [done|].
  apply (iterate_encode fn (c :: ctxs) _ [] s Hw); [done|].
  pose proof (encode_length _ Hw) as Hl. unfold len in Hl. cbn [length] in *. lia.
Qed.

Lemma fold_until_collect ctxs acc : fold_until (fun l c => (l ++ [c], true)) ctxs acc = acc ++ ctxs.
Proof.
  revert acc. induction ctxs as [|c ctxs IH]; intros acc; simpl; [by rewrite app_nil_r|].
  by rewrite IH, <- app_assoc.
Qed.

(** A create-context chain the server writes is read back exactly: walking
    [EncodeCreateContexts ctxs] calls the callback with the contexts [ctxs], in
    order, names and data intact and padding dropped, until the callback stops;
    in particular collecting them gives [ctxs]. *)
Theorem contexts_roundtrip {S} (fn : S -> CreateContext -> S * bool) (ctxs : list CreateContext) (s : S) :
  Forall wf_ctx ctxs ->
  IterateCreateContexts (EncodeCreateContexts ctxs) fn s = Ok (fold_until fn ctxs s) /\
  IterateCreateContexts (EncodeCreateContexts ctxs) (fun l c => (l ++ [c], true)) [] = Ok ctxs.
Proof.
  intros Hw. split; [by apply IterateCreateContexts_encode|].
  rewrite IterateCreateContexts_encode by done. by rewrite fold_until_collect.
Qed.

Lemma contexts_roundtrip_witness :
  IterateCreateContexts (EncodeCreateContexts [mkCtx tagRqLs (zeros 52); mkCtx tagDH2Q (zeros 32)])
    (fun l c => (l ++ [c], true)) [] = Ok [mkCtx tagRqLs (zeros 52); mkCtx tagDH2Q (zeros 32)].
Proof.
  apply (contexts_roundtrip (fun l c => (l ++ [c], true)) [mkCtx tagRqLs (zeros 52); mkCtx tagDH2Q (zeros 32)] []).
  repeat (apply Forall_cons; split; [split; vm_compute; reflexivity|]). apply Forall_nil. exact I.
Defined.

End Create.
