(* ===== verification/Durable.v ===== *)
(** Durable handles: [internal/parent/durable.go], and [releaseConnOpens] of
    [conn.go].

    Times are nanoseconds ([Z]); [None] is the zero [time.Time] of an attached
    entry.  A handle is its identity.  Each table operation also returns the
    handles it disposed of through [releaseOpen]. *)

From S2P Require Import Prelude Smb2 Requests CreateCtx LockRanges Access ShareMode Sessions.

Module Durable.

Definition durableKey : Type := bytes * bytes.

Record durableEntry := mkEntry {
  open : Z; deadline : option Z; timeout : Z; shareName : bytes; userName : bytes }.

Abbreviation DurableTable := (gmap durableKey durableEntry).

Definition attached (e : durableEntry) : bool := match deadline e with None => true | Some _ => false end.

Definition expired (e : durableEntry) (now : Z) : bool :=
  match deadline e with None => false | Some d => d <? now end.

(** The table, whether the open is now durable, the handles released. *)
Definition Register (t : DurableTable) (k : durableKey) (o tmo : Z) (share user : bytes)
    : DurableTable * bool * list Z :=
  let superseded := match t !! k with Some prev => negb (open prev =? o) | None => false end in
  let prev_attached := match t !! k with Some prev => attached prev | None => false end in
  let prev_open := match t !! k with Some prev => [open prev] | None => [] end in
  if tmo <=? 0 then (delete k t, false, if superseded && negb prev_attached then prev_open else []) else
  if superseded && prev_attached then (t, false, []) else
  (<[k := mkEntry o None tmo share user]> t, true, if superseded then prev_open else []).

Definition Detach (t : DurableTable) (k : durableKey) (now : Z) : DurableTable :=
  match t !! k with
  | Some e =>
      if negb (attached e) then t
      else <[k := mkEntry (open e) (Some (now + timeout e)) (timeout e) (shareName e) (userName e)]> t
  | None => t
  end.

Definition Reclaim (t : DurableTable) (k : durableKey) (now : Z) : DurableTable * option Z * list Z :=
  match t !! k with
  | None => (t, None, [])
  | Some e => if expired e now then (delete k t, None, [open e]) else (delete k t, Some (open e), [])
  end.

Definition reclaimChecked (t : DurableTable) (k : durableKey) (share user : bytes) (requireDetached : bool) (now : Z)
    : DurableTable * option Z * list Z :=
  match t !! k with
  | None => (t, None, [])
  | Some e =>
      if expired e now then (delete k t, None, [open e]) else
      if requireDetached && attached e then (t, None, []) else
      if negb (bool_decide (shareName e = share)) then (t, None, []) else
      if negb (bool_decide (userName e = user)) then (t, None, []) else
      (delete k t, Some (open e), [])
  end.

Definition reclaimForReconnect (t : DurableTable) (k : durableKey) (share user : bytes) (now : Z) :=
  reclaimChecked t k share user true now.

Definition Has (t : DurableTable) (k : durableKey) (now : Z) : bool :=
  match t !! k with None => false | Some e => negb (expired e now) end.

Definition RemoveEntry (t : DurableTable) (k : durableKey) : DurableTable := delete k t.

Definition Expire (t : DurableTable) (now : Z) : DurableTable * list Z :=
  (filter (fun p => expired p.2 now = false) t,
   map (fun p => open p.2) (map_to_list (filter (fun p => expired p.2 now = true) t))).

(** ** The table's ledger: what went in, what the table released, what it gave
    back to a caller *)

Inductive op :=
  | ORegister (k : durableKey) (o tmo : Z) (share user : bytes)
  | ODetach (k : durableKey) (now : Z)
  | OReclaim (k : durableKey) (now : Z)
  | OReconnect (k : durableKey) (share user : bytes) (now : Z)
  | ORemove (k : durableKey)
  | OExpire (now : Z).

Definition held (t : DurableTable) : list Z := map (fun p => open p.2) (map_to_list t).

Definition at_slot (t : DurableTable) (k : durableKey) : list Z :=
  match t !! k with Some e => [open e] | None => [] end.

(** The table, then: newly registered, released, given back. *)
Definition exec (t : DurableTable) (a : op) : DurableTable * list Z * list Z * list Z :=
  match a with
  | ORegister k o tmo share user =>
      let '(t', ok, rel) := Register t k o tmo share user in
      let same := bool_decide (at_slot t k = [o]) in
      (t', if ok && negb same then [o] else [], rel,
       if (tmo <=? 0) && bool_decide (rel = []) then at_slot t k else [])
  | ODetach k now => (Detach t k now, [], [], [])
  | OReclaim k now => let '(t', r, rel) := Reclaim t k now in (t', [], rel, option_list r)
  | OReconnect k share user now =>
      let '(t', r, rel) := reclaimForReconnect t k share user now in (t', [], rel, option_list r)
  | ORemove k => (RemoveEntry t k, [], [], at_slot t k)
  | OExpire now => let '(t', rel) := Expire t now in (t', [], rel, [])
  end.

Inductive trace : DurableTable -> list Z -> list Z -> list Z -> Prop :=
  | trace_new : trace ∅ [] [] []
  | trace_step t reg rel back a : trace t reg rel back ->
      trace (exec t a).1.1.1 (reg ++ (exec t a).1.1.2) (rel ++ (exec t a).1.2) (back ++ (exec t a).2).

Lemma held_insert t k e : t !! k = None -> held (<[k := e]> t) ≡ₚ open e :: held t.
Proof. intros He. unfold held. by rewrite map_to_list_insert. Qed.

Lemma held_slot t k : held t ≡ₚ at_slot t k ++ held (delete k t).
Proof.
  unfold at_slot. destruct (t !! k) as [e|] eqn:He; [|by rewrite delete_id].
  rewrite <- (insert_delete_id t k e He) at 1. rewrite held_insert by apply lookup_delete_eq. done.
Qed.

Lemma held_replace t k e : held (<[k := e]> t) ≡ₚ open e :: held (delete k t).
Proof. rewrite <- insert_delete_eq. apply held_insert. apply lookup_delete_eq. Qed.

Lemma held_slot_last t k e : t !! k = Some e -> held t ≡ₚ held (delete k t) ++ [open e].
Proof. intros He. rewrite (held_slot t k). unfold at_slot. rewrite He. by rewrite Permutation_app_comm. Qed.

Lemma held_filter t (P : durableKey * durableEntry -> Prop) `{!forall x, Decision (P x)} :
  held t ≡ₚ held (filter P t) ++ held (filter (fun p => ~ P p) t).
Proof.
  unfold held. rewrite <- map_app. apply Permutation_map, NoDup_Permutation.
  - apply NoDup_map_to_list.
  - apply NoDup_app. split_and!; [apply NoDup_map_to_list| |apply NoDup_map_to_list].
    intros [k e] H1 H2. apply elem_of_map_to_list, map_lookup_filter_Some in H1 as [_ H1].
    by apply elem_of_map_to_list, map_lookup_filter_Some in H2 as [_ H2].
  - intros [k e]. rewrite elem_of_app, !elem_of_map_to_list, !map_lookup_filter_Some.
    destruct (decide (P (k, e))); tauto.
Qed.

Lemma exec_held t a :
  let '(t', reg, rel, back) := exec t a in held t ++ reg ≡ₚ held t' ++ rel ++ back.
Proof.
  destruct a as [k o tmo share user|k now|k now|k share user now|k|now]; simpl.
  - assert (held t ≡ₚ at_slot t k ++ held (delete k t)) as Hh by apply held_slot.
    unfold Register. unfold at_slot in *.
    destruct (Z.leb_spec tmo 0) as [_|_]; simpl.
    + rewrite app_nil_r. destruct (t !! k) as [e|]; simpl in *; [|by rewrite !app_nil_r].
      destruct (negb (open e =? o) && negb (attached e)); simpl; rewrite Hh;
        change (open e :: held (delete k t)) with ([open e] ++ held (delete k t)); by rewrite Permutation_app_comm.
    + destruct (t !! k) as [e|] eqn:He; simpl in *.
      * destruct (Z.eqb_spec (open e) o) as [<-|Hne]; simpl.
        -- rewrite bool_decide_true by done. simpl. rewrite held_replace, Hh. simpl. by rewrite app_nil_r.
        -- destruct (attached e); simpl; [by rewrite !app_nil_r|].
           rewrite bool_decide_false by congruence. simpl. rewrite held_replace, Hh. simpl.
           rewrite (Permutation_app_comm _ [o]), (Permutation_app_comm _ [open e]). simpl. apply perm_swap.
      * rewrite held_replace, Hh. simpl. rewrite app_nil_r. by rewrite Permutation_app_comm.
  - unfold Detach. rewrite !app_nil_r. destruct (t !! k) as [e|] eqn:He; [|done].
    destruct (attached e); simpl; [|done]. rewrite held_replace, (held_slot t k). unfold at_slot. by rewrite He.
  - unfold Reclaim. destruct (t !! k) as [e|] eqn:He; simpl; [|by rewrite !app_nil_r].
    pose proof (held_slot_last t k e He) as Hh. destruct (expired e now); simpl; by rewrite !app_nil_r.
  - unfold reclaimForReconnect, reclaimChecked. destruct (t !! k) as [e|] eqn:He; [|by rewrite !app_nil_r].
    pose proof (held_slot_last t k e He) as Hh. repeat case_match; simplify_eq; simpl; by rewrite ?app_nil_r.
  - unfold RemoveEntry. rewrite app_nil_r. etrans; [apply (held_slot t k)|]. by rewrite Permutation_app_comm.
  - rewrite app_nil_r. etrans; [apply (held_filter t (fun p => expired p.2 now = false))|].
    apply Permutation_app_head. rewrite app_nil_r. unfold held.
    assert (filter (fun p => ~ expired p.2 now = false) t = filter (fun p => expired p.2 now = true) t) as ->; [|done].
    apply map_filter_ext. intros k e _. simpl. by destruct (expired e now).
Qed.

Lemma ledger_perm {A} (h h' d r r1 b b1 : list A) : h ++ d ≡ₚ h' ++ r1 ++ b1 ->
  (h ++ r ++ b) ++ d ≡ₚ h' ++ (r ++ r1) ++ (b ++ b1).
Proof.
  intros Hp. trans ((h ++ d) ++ (r ++ b)).
  { rewrite <- !(app_assoc h). apply Permutation_app_head. by rewrite Permutation_app_comm. }
  rewrite Hp, <- !app_assoc. apply Permutation_app_head.
  trans ((r ++ b) ++ (r1 ++ b1)); [by rewrite (Permutation_app_comm (r ++ b)), <- !app_assoc|].
  rewrite <- !app_assoc. apply Permutation_app_head. rewrite !app_assoc. apply Permutation_app_tail.
  by rewrite Permutation_app_comm.
Qed.

(** C19: The table accounts for every durable handle: what was registered is, as
    a multiset, what is still in the table, what the table itself disposed of
    and what it gave back to a caller.  So a handle registered once is disposed
    of or handed over at most once, never both, under any interleaving of
    registrations, disconnects, reconnects, closes and sweeps. *)
Theorem durable_ledger (t : DurableTable) (reg rel back : list Z) :
  trace t reg rel back -> reg ≡ₚ held t ++ rel ++ back /\ (NoDup reg -> NoDup (held t ++ rel ++ back)).
Proof.
  intros Ht. assert (reg ≡ₚ held t ++ rel ++ back) as Hp.
  { induction Ht as [|t reg rel back a _ IH]; [done|]. pose proof (exec_held t a) as He.
    destruct (exec t a) as [[[t' reg1] rel1] back1]. simpl. rewrite IH. by apply ledger_perm. }
  split; [done|]. by rewrite Hp.
Qed.

(** The table never closes the descriptor of a handle a live connection is
    using: every handle it disposes of sat in an entry whose connection was
    gone, and either its reclaim time had run out or a new registration of the
    same key superseded it. *)
Theorem durable_releases_only_detached (t : DurableTable) (a : op) (o : Z) :
  o ∈ (exec t a).1.2 ->
  exists k e, t !! k = Some e /\ open e = o /\ attached e = false /\
    match a with
    | ORegister k' o' _ _ _ => k' = k /\ o' <> o
    | OReclaim k' now | OReconnect k' _ _ now => k' = k /\ expired e now = true
    | OExpire now => expired e now = true
    | _ => False
    end.
Proof.
  assert (forall e now, expired e now = true -> attached e = false) as Hatt.
  { intros e now. unfold expired, attached. by destruct (deadline e). }
  destruct a as [k o' tmo share user|k now|k now|k share user now|k|now]; simpl.
  - unfold Register. destruct (t !! k) as [e|] eqn:He; simpl;
      [|destruct (tmo <=? 0); simpl; by intros ?%not_elem_of_nil].
    destruct (Z.leb_spec tmo 0) as [_|_]; destruct (Z.eqb_spec (open e) o'), (attached e) eqn:Ha; simpl;
      try (by intros ?%not_elem_of_nil); intros ->%list_elem_of_singleton; by exists k, e.
  - by intros ?%not_elem_of_nil.
  - unfold Reclaim. destruct (t !! k) as [e|] eqn:He; simpl; [|by intros ?%not_elem_of_nil].
    destruct (expired e now) eqn:Hx; simpl; [|by intros ?%not_elem_of_nil].
    intros ->%list_elem_of_singleton. exists k, e. split_and!; eauto.
  - unfold reclaimForReconnect, reclaimChecked. destruct (t !! k) as [e|] eqn:He; simpl; [|by intros ?%not_elem_of_nil].
    destruct (expired e now) eqn:Hx; simpl.
    + intros ->%list_elem_of_singleton. exists k, e. split_and!; eauto.
    + repeat case_match; simplify_eq; simpl; by intros ?%not_elem_of_nil.
  - by intros ?%not_elem_of_nil.
  - intros Ho. apply list_elem_of_fmap in Ho as ([k e] & -> & Ho).
    apply elem_of_map_to_list, map_lookup_filter_Some in Ho as [He Hx]. exists k, e. simpl in *. split_and!; eauto.
Qed.

(** A reconnect takes over a durable handle only if the handle's connection
    is gone, its time has not run out, and the reconnect comes on the same share
    and from the same user; it then consumes the entry.  A refused attempt
    leaves every other entry, and unless it had expired this one, untouched. *)
Theorem reconnect_same_principal (t : DurableTable) (k : durableKey) (share user : bytes) (now : Z) :
  match reclaimForReconnect t k share user now with
  | (t', Some o, rel) =>
      exists e, t !! k = Some e /\ open e = o /\ attached e = false /\ expired e now = false /\
        shareName e = share /\ userName e = user /\ t' = delete k t /\ rel = []
  | (t', None, rel) =>
      match t !! k with
      | Some e => if expired e now then t' = delete k t /\ rel = [open e] else t' = t /\ rel = []
      | None => t' = t /\ rel = []
      end
  end.
Proof.
  unfold reclaimForReconnect, reclaimChecked. destruct (t !! k) as [e|] eqn:He; [|done].
  destruct (expired e now) eqn:Hx; [done|]. destruct (attached e) eqn:Ha; simpl; [done|].
  case_bool_decide; simpl; [|done]. case_bool_decide; simpl; [|done]. by exists e.
Qed.

(** ** The teardown of a connection *)

(** A handle as [releaseConnOpens] sees it, and what it does with it. *)
Record connOpen := mkConnOpen { co_id : Z; co_hasFile : bool; co_durable : bool; co_key : durableKey }.

Inductive disposal := Kept | Detached | Disposed.

(** One round of [releaseConnOpens]; [Disposed] is the share-mode release, the
    lock release and the close, in that order. *)
Definition release_conn_open (t : DurableTable) (o : connOpen) (now : Z) : DurableTable * disposal :=
  if negb (co_hasFile o) then (t, Kept) else
  if co_durable o && Has t (co_key o) now then (Detach t (co_key o) now, Detached)
  else (t, Disposed).

Fixpoint releaseConnOpens (t : DurableTable) (os : list connOpen) (now : Z) : DurableTable * list disposal :=
  match os with
  | [] => (t, [])
  | o :: os =>
      let '(t, d) := release_conn_open t o now in
      let '(t, ds) := releaseConnOpens t os now in (t, d :: ds)
  end.

(** A durable directory is never reclaimed and never expires: it has no
    descriptor, so the teardown of its connection skips it before starting its
    countdown, and its entry stays in the table, attached to a connection that
    is gone, refusing every reconnect and surviving every sweep. *)
Theorem durable_directory_leaks (o : connOpen) (tmo now now' : Z) (share user : bytes) :
  co_hasFile o = false -> co_durable o = true -> 0 < tmo ->
  let t := (Register ∅ (co_key o) (co_id o) tmo share user).1.1 in
  let t' := (releaseConnOpens t [o] now).1 in
  (Expire t' now').1 !! co_key o = t' !! co_key o /\ is_Some (t' !! co_key o) /\
  (reclaimForReconnect t' (co_key o) share user now').1.2 = None.
Proof.
  intros Hf Hd Ht. unfold Register. rewrite lookup_empty. destruct (Z.leb_spec tmo 0); [lia|]. simpl.
  unfold release_conn_open. rewrite Hf. simpl. split_and!.
  - rewrite lookup_insert_eq. apply map_lookup_filter_Some. split; [by rewrite lookup_insert_eq|done].
  - rewrite lookup_insert_eq. by eexists.
  - unfold reclaimForReconnect, reclaimChecked. by rewrite lookup_insert_eq.
Qed.

(** A file's entry does start its countdown, and a sweep after it is over
    disposes of it. *)
Lemma durable_file_expires t k e now now' : t !! k = Some e -> attached e = true -> now + timeout e < now' ->
  Expire (Detach t k now) now' = (filter (fun p => expired p.2 now' = false) (Detach t k now),
    (Expire (Detach t k now) now').2) /\ open e ∈ (Expire (Detach t k now) now').2 /\
  (Expire (Detach t k now) now').1 !! k = None.
Proof.
  intros He Ha Hn. split; [done|]. unfold Detach. rewrite He, Ha. simpl. set (e' := mkEntry _ _ _ _ _).
  assert (expired e' now' = true) as Hx by (unfold expired; simpl; lia). split.
  - apply list_elem_of_fmap. exists (k, e'). split; [done|]. apply elem_of_map_to_list, map_lookup_filter_Some.
    by rewrite lookup_insert_eq.
  - apply map_lookup_filter_None. right. intros e1. rewrite lookup_insert_eq. intros [= <-]. simpl. by rewrite Hx.
Qed.

(** ** Reclaiming a handle: [handleDurableReconnect]

    [info] is what the handle's struct holds; [openRW] and [openRO] are whether
    the two [os.OpenFile] calls succeed; [newid] is the replacement [*Open]. *)

Record savedOpen := mkSaved { so_fid : bytes; so_isDir : bool; so_granted : Z }.

Definition durableWriteAccess : Z :=
  Access.union [Access.AccessFileWriteData; Access.AccessFileAppendData; Access.AccessGenericWrite;
                Access.AccessGenericAll].

Inductive reconnectResult := NotReclaimed | SessionDeleted | Reclaimed (durable : bool).

(** [releaseOpen] on each handle: its share-mode half. *)
Definition release_all (sm : ShareMode.shareModeTable) (os : list Z) := fold_left ShareMode.release os sm.

Definition handleDurableReconnect (d : DurableTable) (sm : ShareMode.shareModeTable) (s : Session.Session)
    (info : Z -> savedOpen) (k : durableKey) (share user : bytes) (now tmo tree newid : Z) (openRW openRO : bool)
    : DurableTable * ShareMode.shareModeTable * Session.Session * reconnectResult :=
  match reclaimForReconnect d k share user now with
  | (d, None, rel) => (d, release_all sm rel, s, NotReclaimed)
  | (d, Some saved, _) =>
      let i := info saved in
      if negb (so_isDir i) && negb openRW &&
         (ShareMode.hasBit (so_granted i) durableWriteAccess || negb openRO)
      then (d, ShareMode.release sm saved, s, NotReclaimed)
      else
        let sm := ShareMode.transfer sm saved newid in
        match Session.AddOpen s (Session.mkOpen newid (so_fid i) (Some tree)) with
        | (s, false) => (d, ShareMode.release sm newid, s, SessionDeleted)
        | (s, true) =>
            let '(d, ok, rel) := Register d k newid tmo share user in
            (d, release_all sm rel, s, Reclaimed ok)
        end
  end.

Lemma owners_release sm o o' : ShareMode.owners (ShareMode.release sm o) !! o' =
  if decide (o = o' /\ o <> 0) then None else ShareMode.owners sm !! o'.
Proof.
  unfold ShareMode.release. destruct (Z.eqb_spec o 0) as [->|Hz].
  { by rewrite decide_False by (by intros [_ ?]). }
  destruct (ShareMode.owners sm !! o) as [key|] eqn:Ho.
  - rewrite ShareMode.owners_wake. simpl. destruct (decide (o = o')) as [<-|].
    + by rewrite lookup_delete_eq, decide_True.
    + by rewrite lookup_delete_ne, decide_False by (done || by intros [? _]).
  - case_decide as Hd; [|done]. by destruct Hd as [<- _].
Qed.

Lemma owners_transfer sm from to o : from <> 0 -> to <> 0 -> from <> to -> ShareMode.owners sm !! to = None ->
  ShareMode.owners (ShareMode.transfer sm from to) !! o =
    if decide (o = to) then ShareMode.owners sm !! from else
    if decide (o = from) then None else ShareMode.owners sm !! o.
Proof.
  intros H1 H2 H3 Hto. unfold ShareMode.transfer.
  destruct (Z.eqb_spec from 0), (Z.eqb_spec to 0), (Z.eqb_spec from to); [lia..|]. simpl.
  destruct (ShareMode.owners sm !! from) as [key|] eqn:Hf; simpl.
  - case_decide as Ho; [subst; by rewrite lookup_insert_eq|]. rewrite lookup_insert_ne by done.
    case_decide; [subst; by rewrite lookup_delete_eq|by rewrite lookup_delete_ne].
  - case_decide; [by subst|]. case_decide; by subst.
Qed.


(** ** The durable grant and the lease of a fresh CREATE *)

(** The connection's cap on the timeout, if it has a table. *)
Definition applyDurableAndLease (d : DurableTable) (cap : option Z) (clientGuid : bytes) (o : Z) (fid : bytes)
    (dq : Create.durableRequest) (lr : Create.leaseRequest) (baseCtxs share user : bytes)
    : res (DurableTable * list Z * bool * bytes) :=
  ctxs ← (if 0 <? len baseCtxs
          then Create.IterateCreateContexts baseCtxs (fun l c => (l ++ [c], true)) []
          else Ok []);
  let '(d, rel, durable, ctxs) :=
    match cap with
    | Some cap =>
        if Create.dq_present dq && (0 <? cap) then
          let tmo :=
            if Create.dq_v2 dq && (0 <? Create.dq_timeout dq)
            then Z.min (Create.dq_timeout dq * 1000000) cap else cap in
          let createGuid := if Create.dq_v2 dq then Create.dq_guid dq else fid in
          match Register d (clientGuid, createGuid) o tmo share user with
          | (d, true, rel) =>
              (d, rel, true,
               ctxs ++ [if Create.dq_v2 dq
                        then Create.mkCtx Create.tagDH2Q (Create.encodeDH2QResponse (tmo / 1000000) 0)
                        else Create.mkCtx Create.tagDHnQ Create.encodeDHnQResponse])
          | (d, false, rel) => (d, rel, false, ctxs)
          end
        else (d, [], false, ctxs)
    | None => (d, [], false, ctxs)
    end in
  let ctxs :=
    if Create.lr_present lr
    then ctxs ++ [Create.mkCtx Create.tagRqLs
           (Create.encodeRqLsResponse (Create.lr_key lr) Create.leaseNone (Create.lr_v2 lr))]
    else ctxs in
  Ok (d, rel, durable, Create.EncodeCreateContexts ctxs).

Lemma len_encodeRqLs key granted v2 : len key = 16 ->
  len (Create.encodeRqLsResponse key granted v2) = if v2 then 52 else 32.
Proof.
  intros Hk. unfold Create.encodeRqLsResponse, Create.rqLsV1Size, Create.rqLsV2Size.
  destruct v2; (apply len_writes; [fits_tac|apply len_zeros; lia]).
Qed.

Lemma get_encodeRqLs key granted v2 : len key = 16 ->
  get (Create.encodeRqLsResponse key granted v2) 0 16 = key /\
  get (Create.encodeRqLsResponse key granted v2) 16 4 = le32 granted.
Proof.
  intros Hk. unfold Create.encodeRqLsResponse, Create.rqLsV1Size, Create.rqLsV2Size.
  assert (fits (len (zeros (if v2 then 52 else 32))) [(0, key); (16, le32 granted)]) as Hf.
  { destruct v2; rewrite len_zeros by lia; fits_tac. }
  split; by wfield.
Qed.

Lemma collect_contexts (base : list Create.CreateContext) : Forall Create.wf_ctx base ->
  (if 0 <? len (Create.EncodeCreateContexts base)
   then Create.IterateCreateContexts (Create.EncodeCreateContexts base) (fun l c => (l ++ [c], true)) []
   else Ok []) = Ok base.
Proof.
  intros Hw. rewrite Create.IterateCreateContexts_encode, Create.fold_until_collect by done. simpl.
  destruct (Z.ltb_spec 0 (len (Create.EncodeCreateContexts base))); [done|].
  pose proof (Create.encode_length base Hw). destruct base; [done|simpl in *; lia].
Qed.

Lemma wf_small name data : len name = 4 -> len data <= 52 -> Create.wf_ctx (Create.mkCtx name data).
Proof. intros Hn Hd. split; simpl; lia. Qed.

Lemma lease_spec (lr : Create.leaseRequest) : len (Create.lr_key lr) = 16 ->
  let l := Create.mkCtx Create.tagRqLs
             (Create.encodeRqLsResponse (Create.lr_key lr) Create.leaseNone (Create.lr_v2 lr)) in
  Create.wf_ctx l /\ get (Create.Data l) 0 16 = Create.lr_key lr /\ get (Create.Data l) 16 4 = le32 Create.leaseNone /\
  len (Create.Data l) = (if Create.lr_v2 lr then 52 else 32).
Proof.
  intros Hk. simpl. destruct (get_encodeRqLs _ Create.leaseNone (Create.lr_v2 lr) Hk) as [H1 H2].
  pose proof (len_encodeRqLs _ Create.leaseNone (Create.lr_v2 lr) Hk). split_and!; [|done..].
  apply wf_small; [done|]. destruct (Create.lr_v2 lr); lia.
Qed.

Lemma Register_true t k o tmo share user t' rel : Register t k o tmo share user = (t', true, rel) ->
  t' !! k = Some (mkEntry o None tmo share user).
Proof.
  unfold Register. destruct (tmo <=? 0); [done|]. destruct (t !! k) as [e|]; simpl.
  - destruct (negb (open e =? o) && attached e); [done|]. intros [= <- _]. by rewrite lookup_insert_eq.
  - intros [= <- _]. by rewrite lookup_insert_eq.
Qed.

(** The contexts of a CREATE response: [base], then a grant, then a lease. *)
Definition create_answer (cap o : Z) (dq : Create.durableRequest) (lr : Create.leaseRequest)
    (base : list Create.CreateContext) (r : res (DurableTable * list Z * bool * bytes)) : Prop :=
  match r with
  | Ok (d', rel, durable, out) =>
      exists grants lease,
        Create.IterateCreateContexts out (fun l c => (l ++ [c], true)) [] = Ok (base ++ grants ++ lease) /\
        (durable = true -> exists k e, d' !! k = Some e /\ open e = o /\ attached e = true /\ 0 < timeout e <= cap /\
           map Create.Name grants = [if Create.dq_v2 dq then Create.tagDH2Q else Create.tagDHnQ]) /\
        (durable = false -> grants = []) /\
        (if Create.lr_present lr
         then exists l, lease = [l] /\ Create.Name l = Create.tagRqLs /\ get (Create.Data l) 0 16 = Create.lr_key lr /\
              get (Create.Data l) 16 4 = le32 Create.leaseNone /\
              len (Create.Data l) = (if Create.lr_v2 lr then 52 else 32)
         else lease = [])
  | _ => False
  end.

Lemma create_answer_intro (cap o : Z) (dq : Create.durableRequest) (lr : Create.leaseRequest)
    (base grants : list Create.CreateContext) (d' : DurableTable) (rel : list Z) (durable : bool) :
  Forall Create.wf_ctx base -> len (Create.lr_key lr) = 16 -> Forall Create.wf_ctx grants ->
  (durable = true -> exists k e, d' !! k = Some e /\ open e = o /\ attached e = true /\ 0 < timeout e <= cap /\
     map Create.Name grants = [if Create.dq_v2 dq then Create.tagDH2Q else Create.tagDHnQ]) ->
  (durable = false -> grants = []) ->
  create_answer cap o dq lr base (Ok (d', rel, durable, Create.EncodeCreateContexts
    (if Create.lr_present lr
     then (base ++ grants) ++ [Create.mkCtx Create.tagRqLs
             (Create.encodeRqLsResponse (Create.lr_key lr) Create.leaseNone (Create.lr_v2 lr))]
     else base ++ grants))).
Proof.
  intros Hb Hk Hg H1 H2. pose proof (lease_spec lr Hk) as (Hlw & Hl). set (l := Create.mkCtx Create.tagRqLs _) in *.
  exists grants, (if Create.lr_present lr then [l] else []).
  split_and!; [|done|done|destruct (Create.lr_present lr); [by exists l|done]].
  destruct (Create.lr_present lr); rewrite Create.IterateCreateContexts_encode, Create.fold_until_collect;
    rewrite <- ?app_assoc, ?app_nil_r; rewrite ?Forall_app, ?Forall_singleton; done.
Qed.

(** What a CREATE answers to a durable and a lease request: the contexts
    already built, then the durable grant if and only if the table took the
    handle, in the version the client asked with and never longer than the
    server's cap, then a lease that echoes the client's key in the size of its
    request and caches nothing. *)
Theorem create_grants (d : DurableTable) (cap : Z) (clientGuid fid share user : bytes) (o : Z)
    (dq : Create.durableRequest) (lr : Create.leaseRequest) (base : list Create.CreateContext) :
  Forall Create.wf_ctx base -> 0 < cap -> len (Create.lr_key lr) = 16 -> 0 <= Create.dq_timeout dq ->
  create_answer cap o dq lr base
    (applyDurableAndLease d (Some cap) clientGuid o fid dq lr (Create.EncodeCreateContexts base) share user).
Proof.
  intros Hb Hcap Hk Ht. unfold applyDurableAndLease. rewrite collect_contexts by done. cbn [mbind outcome_bind].
  pose proof (fun d' rel durable grants => create_answer_intro cap o dq lr base grants d' rel durable Hb Hk) as Hfin.
  destruct (Create.dq_present dq); simpl.
  2: { specialize (Hfin d [] false [] (proj2 (Forall_nil _) I)). rewrite !app_nil_r in Hfin. by apply Hfin. }
  destruct (Z.ltb_spec 0 cap); [|lia].
  set (tmo := if Create.dq_v2 dq && (0 <? Create.dq_timeout dq) then _ else _).
  assert (0 < tmo <= cap) as Htm.
  { unfold tmo. destruct (Create.dq_v2 dq); simpl; [|lia]. destruct (Z.ltb_spec 0 (Create.dq_timeout dq)); lia. }
  set (k := (clientGuid, if Create.dq_v2 dq then Create.dq_guid dq else fid)).
  destruct (Register d k o tmo share user) as [[d' ok] rel] eqn:Hreg. destruct ok.
  - apply Hfin.
    + apply Forall_singleton. destruct (Create.dq_v2 dq); by apply wf_small.
    + intros _. exists k. eexists. split; [by eapply Register_true|]. simpl.
      split_and!; [done|done|lia|lia|by destruct (Create.dq_v2 dq)].
    + done.
  - specialize (Hfin d' rel false [] (proj2 (Forall_nil _) I)). rewrite !app_nil_r in Hfin. by apply Hfin.
Qed.

(** ** Witnesses *)

Definition ex_k : durableKey := ([Byte.x01], [Byte.x02]).

Lemma durable_ledger_witness : [7; 8] ≡ₚ [8; 7].
Proof.
  pose proof (trace_step ∅ [] [] [] (ORegister ex_k 7 5 [] []) trace_new) as H1.
  pose proof (trace_step _ _ _ _ (ODetach ex_k 10) H1) as H2.
  pose proof (trace_step _ _ _ _ (ORegister ex_k 8 5 [] []) H2) as H3.
  exact (proj1 (durable_ledger _ _ _ _ H3)).
Defined.

Lemma durable_releases_only_detached_witness :
  exists k e, Detach (Register ∅ ex_k 7 5 [] []).1.1 ex_k 10 !! k = Some e /\ open e = 7 /\ attached e = false.
Proof.
  destruct (durable_releases_only_detached (Detach (Register ∅ ex_k 7 5 [] []).1.1 ex_k 10) (OExpire 16) 7)
    as (k & e & H1 & H2 & H3 & _); [|by exists k, e].
  apply list_elem_of_In. vm_compute. by left.
Defined.

Lemma durable_directory_leaks_witness :
  let o := mkConnOpen 7 false true ex_k in
  (reclaimForReconnect (releaseConnOpens (Register ∅ ex_k 7 5 [] []).1.1 [o] 10).1 ex_k [] [] 1000).1.2 = None.
Proof. apply (durable_directory_leaks (mkConnOpen 7 false true ex_k) 5 10 1000 [] []); [done|done|lia]. Defined.


Lemma create_grants_witness :
  is_ok (applyDurableAndLease ∅ (Some 60000000000) (zeros 16) 7 (zeros 16)
    (Create.mkDurReq true true 1000 0 (zeros 16)) (Create.mkLease true true (zeros 16) 7)
    (Create.EncodeCreateContexts [Create.mkCtx Create.tagTwrp (zeros 8)]) [] []) = true.
Proof.
  assert (Forall Create.wf_ctx [Create.mkCtx Create.tagTwrp (zeros 8)]) as Hw by (apply Forall_singleton; by apply wf_small).
  pose proof (create_grants ∅ 60000000000 (zeros 16) (zeros 16) [] [] 7
    (Create.mkDurReq true true 1000 0 (zeros 16)) (Create.mkLease true true (zeros 16) 7)
    [Create.mkCtx Create.tagTwrp (zeros 8)] Hw eq_refl eq_refl ltac:(simpl; lia)) as Hg.
  revert Hg. generalize (applyDurableAndLease ∅ (Some 60000000000) (zeros 16) 7 (zeros 16)
    (Create.mkDurReq true true 1000 0 (zeros 16)) (Create.mkLease true true (zeros 16) 7)
    (Create.EncodeCreateContexts [Create.mkCtx Create.tagTwrp (zeros 8)]) [] []).
  intros [v|e|] Hg; [reflexivity|destruct Hg..].
Defined.

End Durable.
