(* ===== verification/Wildcard.v ===== *)
(** SMB search patterns: [internal/parent/wildcard.go], and the case folding it
    shares with the path resolver, [FoldRune] of [internal/vfs/norm.go].

    A byte offset into an immutable string is the suffix that starts there, so
    the scan's four offsets are suffixes of the pattern and of the name. *)

From S2P Require Import Prelude Utf.

Module Wildcard.

Definition star : Z := 0x2A.
Definition question : Z := 0x3F.
Definition RuneSelf : Z := 0x80.

(** A byte that starts no valid sequence is its own negative sentinel. *)
Definition decodeRune (s : bytes) : Z * Z :=
  let '(r, size) := Utf8.decode_rune s in
  if (r =? RuneError) && (size =? 1) then
    match s with c :: _ => (- b2z c, 1) | [] => (r, size) end
  else (r, size).

(** The rune at the start of a string: the ASCII test the loop writes out, then
    [decodeRune]. *)
Definition first_rune (s : bytes) : Z * Z :=
  match s with
  | c :: _ => if RuneSelf <=? b2z c then decodeRune s else (b2z c, 1)
  | [] => (0, 0)
  end.

Definition advance (s : bytes) : bytes := drop (Z.to_nat (first_rune s).2) s.

(** The loop that runs when the name is consumed. *)
Fixpoint all_stars (p : bytes) : bool :=
  match p with
  | [] => true
  | c :: p => if negb (b2z c =? star) then false else all_stars p
  end.

Section Fold.
(** [unicode.SimpleFold]: the next rune of the folding orbit. *)
Variable SimpleFold : Z -> Z.

Definition asciiLower (a : Z) : Z := if (0x41 <=? a) && (a <=? 0x5A) then a + 0x20 else a.

(** The walk of [a]'s orbit from [r]; an orbit has at most four runes, so four
    steps are enough (see [foldEqual_orbit]). *)
Fixpoint orbit_walk (fuel : nat) (a b r : Z) : bool :=
  match fuel with
  | O => false
  | S fuel => if r =? a then false else if r =? b then true else orbit_walk fuel a b (SimpleFold r)
  end.

Definition foldEqual (a b : Z) : bool :=
  if a =? b then true else
  if (a <? RuneSelf) && (b <? RuneSelf) then asciiLower a =? asciiLower b
  else orbit_walk 4 a b (SimpleFold a).

(** [vfs.FoldRune], its loop with the same bound. *)
Fixpoint orbit_min (fuel : nat) (r lo f : Z) : Z :=
  match fuel with
  | O => lo
  | S fuel => if f =? r then lo else orbit_min fuel r (if f <? lo then f else lo) (SimpleFold f)
  end.

Definition FoldRune (r : Z) : Z := orbit_min 4 r r (SimpleFold r).

Definition same_char (caseSensitive : bool) (pc nc : Z) : bool :=
  (pc =? question) || (pc =? nc) || (negb caseSensitive && foldEqual pc nc).

(** The scan: what is left of the pattern and of the name, and the backtrack
    point, if a [*] was met.  [None] is an index out of range or too little
    fuel; [match_total] shows neither happens. *)
Fixpoint scan (fuel : nat) (cs : bool) (p n : bytes) (back : option (bytes * bytes)) : option bool :=
  match fuel with
  | O => None
  | S fuel =>
      let backtrack :=
        match back with
        | None => Some false
        | Some (_, []) => None
        | Some (starP, starN) => scan fuel cs starP (advance starN) (Some (starP, advance starN))
        end in
      match n, p with
      | [], _ => Some (all_stars p)
      | _, [] => backtrack
      | _, _ =>
          if (first_rune p).1 =? star then
            match advance p with
            | [] => Some true
            | p' => scan fuel cs p' n (Some (p', n))
            end
          else if same_char cs (first_rune p).1 (first_rune n).1
               then scan fuel cs (advance p) (advance n) back
               else backtrack
      end
  end.

(** The number of iterations [O(len(pattern) * len(name))] allows. *)
Definition scan_fuel (p n : bytes) : nat := length n * (length p + 1) + length p + 1.

Definition matchSMBPattern (pattern name : bytes) (caseSensitive : bool) : option bool :=
  if bool_decide (pattern = []) || bool_decide (pattern = [z2b star]) then Some true
  else scan (scan_fuel pattern name) caseSensitive pattern name None.

(** ** The grammar *)

(** A string as the runes the matcher sees. *)
Fixpoint toks_fuel (fuel : nat) (s : bytes) : list Z :=
  match fuel, s with
  | S fuel, _ :: _ => (first_rune s).1 :: toks_fuel fuel (advance s)
  | _, _ => []
  end.
Definition toks (s : bytes) : list Z := toks_fuel (length s) s.

(** [*] matches any run of characters, [?] exactly one, everything else itself
    up to the share's case rule. *)
Inductive Glob (cs : bool) : list Z -> list Z -> Prop :=
  | glob_nil : Glob cs [] []
  | glob_skip ps ns : Glob cs ps ns -> Glob cs (star :: ps) ns
  | glob_take ps n ns : Glob cs (star :: ps) ns -> Glob cs (star :: ps) (n :: ns)
  | glob_char p ps n ns : p <> star -> same_char cs p n = true -> Glob cs ps ns -> Glob cs (p :: ps) (n :: ns).

Lemma first_rune_size (s : bytes) : s <> [] -> 1 <= (first_rune s).2 <= len s.
Proof.
  destruct s as [|c s]; [done|intros _]. unfold first_rune, decodeRune, len. cbn [length].
  destruct (RuneSelf <=? b2z c); [|simpl; lia].
  pose proof (Utf8.decode_rune_size (c :: s) ltac:(done)) as Hs. unfold len in Hs.
  destruct (Utf8.decode_rune (c :: s)) as [r k]. case_match; simpl in *; lia.
Qed.

Lemma advance_length (s : bytes) : s <> [] -> (length (advance s) < length s)%nat.
Proof.
  intros Hs. pose proof (first_rune_size s Hs). unfold advance, len in *. rewrite length_drop. lia.
Qed.

Lemma toks_fuel_enough fuel (s : bytes) : (length s <= fuel)%nat -> toks_fuel fuel s = toks s.
Proof.
  unfold toks. generalize (le_n (length s)). generalize (length s) at 2 4 as m.
  revert s. induction fuel as [|fuel IH]; intros s m Hm Hf.
  { destruct s; [by destruct m|simpl in Hf; lia]. }
  destruct s as [|c s]; [by destruct m|]. destruct m as [|m]; [simpl in Hm; lia|].
  cbn [toks_fuel]. f_equal. pose proof (advance_length (c :: s) ltac:(done)). apply IH; simpl in *; lia.
Qed.

Lemma toks_cons (s : bytes) : s <> [] -> toks s = (first_rune s).1 :: toks (advance s).
Proof.
  intros Hs. pose proof (advance_length s Hs). destruct s as [|c s]; [done|].
  unfold toks at 1. cbn [length toks_fuel]. f_equal. apply toks_fuel_enough. simpl in *. lia.
Qed.

Lemma toks_nil : toks [] = [].
Proof. done. Qed.

Lemma lor_big a b : 0 <= a -> 0 <= b -> 64 <= a \/ 64 <= b -> 64 <= Z.lor a b.
Proof.
  intros Ha Hb Hor. assert (Hp : 0 < Z.lor a b).
  { apply Z.le_neq. split; [by apply Z.lor_nonneg|]. intros He. symmetry in He.
    apply Z.lor_eq_0_iff in He. lia. }
  apply (Z.log2_le_pow2 _ 6 Hp). rewrite Z.log2_lor by done.
  destruct Hor as [H|H]; apply (Z.log2_le_pow2 _ 6) in H; lia.
Qed.

Lemma shl_land x m k j : m = Z.ones j -> 0 <= j -> 0 <= k -> Z.shiftl (Z.land x m) k = x mod 2 ^ j * 2 ^ k.
Proof. intros -> Hj Hk. by rewrite Z.shiftl_mul_pow2, Z.land_ones. Qed.

(** A rune outside ASCII is not decoded from ASCII metacharacters. *)
Lemma decode_rune_big (c : Byte.byte) (t : bytes) : 0x80 <= b2z c -> 64 <= (Utf8.decode_rune (c :: t)).1.
Proof.
  intros Hc. pose proof (byte.unsigned_range c). unfold Utf8.decode_rune.
  rewrite (proj2 (Z.ltb_ge _ _) Hc). unfold Utf8.between.
  assert (Hb : 64 <= RuneError) by done.
  assert (Hm : forall x, 0 <= x mod 64) by (intros x; pose proof (Z.mod_pos_bound x 64); lia).
  repeat (case_match; cbn [fst]; try done).
  all: repeat match goal with H : (_ && _) = true |- _ => apply andb_prop in H; destruct H end.
  all: rewrite ?Z.leb_le in *.
  all: rewrite ?(shl_land _ 0x1F 6 5), ?(shl_land _ 0x0F 12 4), ?(shl_land _ 0x07 18 3),
    ?(shl_land _ 0x3F 6 6), ?(shl_land _ 0x3F 12 6), ?(Utf8.land_mod _ 6 0x3F) by done.
  all: repeat match goal with |- context [2 ^ ?k] => let v := eval vm_compute in (2 ^ k) in change (2 ^ k) with v end.
  all: unfold Utf8.second_ok, Utf8.between, Utf8.is_cont in *.
  all: repeat match goal with
    | H : context [if (?x =? ?y) then _ else _] |- _ => destruct (Z.eqb_spec x y)
    | H : (_ && _) = true |- _ => apply andb_prop in H; destruct H
    | H : (_ <=? _) = true |- _ => apply Z.leb_le in H
    end.
  all: repeat match goal with
    | |- _ /\ _ => split
    | |- 0 <= Z.lor _ _ => apply Z.lor_nonneg
    | |- 64 <= Z.lor _ _ => apply lor_big
    | |- 64 <= Z.lor _ _ \/ _ => left
    end.
  all: Z.to_euclidean_division_equations; lia.
Qed.

Lemma first_rune_meta (c : Byte.byte) (t : bytes) (m : Z) : 0 <= m < 64 ->
  (first_rune (c :: t)).1 = m <-> b2z c = m.
Proof.
  intros Hm. unfold first_rune, RuneSelf. destruct (Z.leb_spec 128 (b2z c)) as [Hc|]; [|done].
  pose proof (decode_rune_big c t Hc). unfold decodeRune.
  destruct (Utf8.decode_rune (c :: t)) as [r k]. simpl in *. case_match; simpl; lia.
Qed.

Lemma all_stars_toks (p : bytes) : all_stars p = true <-> Forall (eq star) (toks p).
Proof.
  induction p as [|c p IH]; [split; [constructor|done]|].
  rewrite toks_cons by done. cbn [all_stars]. rewrite Forall_cons.
  pose proof (first_rune_meta c p star ltac:(unfold star; lia)) as Hm.
  destruct (Z.eqb_spec (b2z c) star) as [He|Hn]; simpl.
  - assert (Ha : advance (c :: p) = p).
    { unfold advance, first_rune. rewrite He. done. }
    rewrite Ha, IH. intuition.
  - split; [done|]. intros [Hs _]. symmetry in Hs. tauto.
Qed.

(** ** The grammar's own laws *)

Lemma glob_star (cs : bool) ps ns : Glob cs (star :: ps) ns <-> exists k, (k <= length ns)%nat /\ Glob cs ps (drop k ns).
Proof.
  split.
  - remember (star :: ps) as q eqn:Hq. intros Hg. induction Hg as [| |ps' n ns Hg IH|]; simplify_eq.
    + by exists 0%nat; split; [lia|].
    + destruct (IH eq_refl) as (k & Hk & Hg'). exists (S k). split; [simpl; lia|done].
  - intros (k & Hk & Hg). revert ns Hk Hg. induction k as [|k IH]; intros ns Hk Hg; [by constructor|].
    destruct ns as [|n ns]; [simpl in Hk; lia|]. apply glob_take, IH; [simpl in Hk; lia|done].
Qed.

Lemma glob_star_suffix (cs : bool) ps ns k : Glob cs (star :: ps) (drop k ns) -> Glob cs (star :: ps) ns.
Proof.
  rewrite !glob_star. intros (j & Hj & Hg). rewrite length_drop in Hj. rewrite drop_drop in Hg.
  destruct (decide (k <= length ns)%nat); [exists (k + j)%nat; split; [lia|done]|].
  exists (length ns). split; [done|]. rewrite drop_all. rewrite drop_ge in Hg by lia. done.
Qed.

Lemma glob_lits (cs : bool) (lits ps ns : list Z) : Forall (fun c => c <> star) lits ->
  Glob cs (lits ++ ps) ns -> (length lits <= length ns)%nat /\ Glob cs ps (drop (length lits) ns).
Proof.
  intros Hl. revert ns. induction Hl as [|c lits Hc Hl IH]; intros ns Hg; [split; [simpl; lia|done]|].
  inversion Hg; simplify_eq. destruct (IH _ ltac:(eassumption)). simpl. split; [lia|done].
Qed.

Lemma glob_empty (cs : bool) ps : Glob cs ps [] <-> Forall (eq star) ps.
Proof.
  split.
  - remember [] as ns eqn:Hn. intros Hg. induction Hg; simplify_eq; auto.
  - induction 1 as [|c ps <- _ IH]; [constructor|by apply glob_skip].
Qed.

Lemma glob_cons (cs : bool) p ps n ns : p <> star ->
  Glob cs (p :: ps) (n :: ns) -> same_char cs p n = true /\ Glob cs ps ns.
Proof. intros Hp Hg. inversion Hg; congruence || done. Qed.

Lemma glob_nil_inv (cs : bool) ns : Glob cs [] ns -> ns = [].
Proof. by inversion 1. Qed.

(** ** The scan decides the grammar *)

(** Between a star and here the pattern had no star and took as many runes of
    the name as it has. *)
Definition since (sp p sn n : bytes) : Prop :=
  exists lits taken, toks sp = lits ++ toks p /\ toks sn = taken ++ toks n /\
    length lits = length taken /\ Forall (fun c => c <> star) lits /\
    (length p <= length sp)%nat /\ (length n <= length sn)%nat.

Definition back_ok (back : option (bytes * bytes)) (p n : bytes) : Prop :=
  match back with Some (sp, sn) => since sp p sn n | None => True end.

(** What is left to try at the backtrack point. *)
Definition retry (cs : bool) (back : option (bytes * bytes)) : Prop :=
  match back with
  | Some (sp, sn) => exists k, (1 <= k <= length (toks sn))%nat /\ Glob cs (toks sp) (drop k (toks sn))
  | None => False
  end.

Definition cost (p n : bytes) (back : option (bytes * bytes)) : nat :=
  match back with
  | Some (sp, sn) => length sn * (length sp + 1) + length p
  | None => length n * (length p + 1) + length p
  end.

Lemma since_refl (p n : bytes) : since p p n n.
Proof. by exists [], []. Qed.

Lemma since_step (sp p sn n : bytes) : since sp p sn n -> p <> [] -> n <> [] -> (first_rune p).1 <> star ->
  since sp (advance p) sn (advance n).
Proof.
  intros (lits & taken & Hp & Hn & Hl & Hf & Hlp & Hln) Hpe Hne Hs.
  pose proof (advance_length p Hpe). pose proof (advance_length n Hne).
  rewrite (toks_cons p), (toks_cons n) in * by done.
  exists (lits ++ [(first_rune p).1]), (taken ++ [(first_rune n).1]).
  rewrite <- !app_assoc, !length_app. split_and!; try done; try lia; [simpl; lia|].
  apply Forall_app. split; [done|by constructor].
Qed.

Lemma retry_end (cs : bool) back p n : back_ok back p n -> toks n = [] -> ~ retry cs back.
Proof.
  destruct back as [[sp sn]|]; [|by intros _ _ []]. intros (lits & taken & Hp & Hn & Hl & Hf & _) He (k & Hk & Hg).
  rewrite Hp in Hg. apply glob_lits in Hg as [Hle _]; [|done].
  rewrite Hn, He, app_nil_r in *. rewrite length_drop in Hle. lia.
Qed.

Lemma retry_star (cs : bool) back p n q : back_ok back p n -> toks p = star :: q -> retry cs back ->
  Glob cs (toks p) (toks n).
Proof.
  destruct back as [[sp sn]|]; [|by intros _ _ []]. intros (lits & taken & Hp & Hn & Hl & Hf & _) He (k & Hk & Hg).
  rewrite Hp in Hg. apply glob_lits in Hg as [_ Hg]; [|done].
  rewrite Hn, drop_drop, Hl, Nat.add_comm, drop_app_add in Hg.
  rewrite He in *. by eapply glob_star_suffix.
Qed.

Lemma backtrack_ok (cs : bool) sp sn : sn <> [] ->
  retry cs (Some (sp, sn)) <-> Glob cs (toks sp) (toks (advance sn)) \/ retry cs (Some (sp, advance sn)).
Proof.
  intros Hs. simpl. rewrite (toks_cons sn Hs). simpl. split.
  - intros ([|[|k]] & Hk & Hg); [lia|by left|right]. exists (S k). split; [lia|done].
  - intros [Hg|(k & Hk & Hg)]; [exists 1%nat; split; [lia|done]|exists (S k); split; [lia|done]].
Qed.

Lemma scan_spec (fuel : nat) (cs : bool) p n back : back_ok back p n -> (cost p n back < fuel)%nat ->
  exists b, scan fuel cs p n back = Some b /\ (b = true <-> Glob cs (toks p) (toks n) \/ retry cs back).
Proof.
  revert p n back. induction fuel as [|fuel IH]; intros p n back Hok Hc; [lia|]. cbn [scan].
  (* the backtrack, once this position is known to fail *)
  assert (Hback : n <> [] -> ~ Glob cs (toks p) (toks n) -> exists b,
    match back with
    | None => Some false
    | Some (_, []) => None
    | Some (starP, (_ :: _) as starN) => scan fuel cs starP (advance starN) (Some (starP, advance starN))
    end = Some b /\ (b = true <-> Glob cs (toks p) (toks n) \/ retry cs back)).
  { intros Hne Hf. destruct back as [[sp sn]|]; [|exists false; split; [done|]; simpl; split; [discriminate|tauto]].
    pose proof Hok as (_ & _ & _ & _ & _ & _ & Hlp & Hln).
    assert (Hsn : sn <> []) by (intros ->; destruct n; simpl in *; [done|lia]).
    pose proof (advance_length sn Hsn).
    destruct (IH sp (advance sn) (Some (sp, advance sn))) as (b & Hb & Hiff); [apply since_refl|simpl in *; nia|].
    exists b. rewrite Hiff, (backtrack_ok cs sp sn Hsn). destruct sn; [done|]. split; [done|tauto]. }
  destruct n as [|cn n'].
  { exists (all_stars p). split; [done|]. rewrite all_stars_toks, toks_nil, glob_empty.
    pose proof (retry_end cs back p [] Hok eq_refl). tauto. }
  set (n := cn :: n') in *. assert (Hn : n <> []) by done.
  destruct p as [|cp p'].
  { apply Hback; [done|]. intros Hg. apply glob_nil_inv in Hg. by rewrite toks_cons in Hg. }
  set (p := cp :: p') in *. assert (Hp : p <> []) by done.
  pose proof (advance_length p Hp). pose proof (advance_length n Hn).
  pose proof (toks_cons p Hp) as Htp. pose proof (toks_cons n Hn) as Htn.
  destruct (Z.eqb_spec (first_rune p).1 star) as [Hs|Hs].
  - rewrite Hs in Htp.
    assert (Hr : retry cs back -> Glob cs (toks p) (toks n)) by (by apply (retry_star _ _ _ _ (toks (advance p)))).
    destruct (advance p) as [|ca pa] eqn:Ha.
    + exists true. split; [done|]. split; [|done]. intros _. left. rewrite Htp, glob_star.
      exists (length (toks n)). split; [done|]. rewrite drop_all. constructor.
    + rewrite <- Ha in *. clear ca pa Ha.
      destruct (IH (advance p) n (Some (advance p, n))) as (b & Hb & Hiff); [apply since_refl| |].
      { destruct back as [[sp sn]|]; unfold cost in *.
        - destruct Hok as (_ & _ & _ & _ & _ & _ & Hlp & Hln).
          pose proof (Nat.mul_le_mono (length n) (length sn) (length (advance p) + 1) (length sp + 1)). lia.
        - pose proof (Nat.mul_le_mono (length n) (length n) (length (advance p) + 1) (length p + 1)). lia. }
      exists b. split; [done|]. rewrite Hiff, Htp, glob_star. unfold retry at 1. split.
      * intros [Hg|(k & Hk & Hg)]; left; [exists 0%nat; split; [lia|done]|exists k; split; [lia|done]].
      * intros [Hg|Hg]; [|apply Hr in Hg; rewrite Htp, glob_star in Hg].
        all: destruct Hg as ([|k] & Hk & Hg); [by left|right; exists (S k); split; [lia|done]].
  - destruct (same_char cs (first_rune p).1 (first_rune n).1) eqn:Hm.
    + destruct (IH (advance p) (advance n) back) as (b & Hb & Hiff).
      { destruct back as [[sp sn]|]; [by apply since_step|done]. }
      { destruct back as [[sp sn]|]; unfold cost in *; [lia|].
        pose proof (Nat.mul_le_mono (length (advance n)) (length n) (length (advance p) + 1) (length p + 1)). lia. }
      exists b. split; [done|]. rewrite Hiff, Htp, Htn. split; (intros [Hg|Hg]; [left|by right]).
      * by constructor.
      * by apply glob_cons in Hg as [_ ?].
    + apply Hback; [done|]. rewrite Htp, Htn. intros Hg. apply glob_cons in Hg; [|done]. destruct Hg. congruence.
Qed.

(** C24: The two-pointer scan with one backtrack point decides the pattern
    grammar, for every pattern and every name, valid UTF-8 or not, and answers
    within [len(name) * (len(pattern) + 1) + len(pattern) + 1] iterations; an
    empty pattern matches everything. *)
Theorem matchSMBPattern_spec (pattern name : bytes) (caseSensitive : bool) :
  exists b, matchSMBPattern pattern name caseSensitive = Some b /\
    (b = true <-> pattern = [] \/ Glob caseSensitive (toks pattern) (toks name)).
Proof.
  unfold matchSMBPattern. case_bool_decide as He; simpl; [exists true; tauto|].
  case_bool_decide as Hs; simpl.
  { exists true. split; [done|]. split; [|done]. intros _. right. subst.
    change (toks [z2b star]) with [star]. rewrite glob_star. exists (length (toks name)).
    split; [done|]. rewrite drop_all. constructor. }
  destruct (scan_spec (scan_fuel pattern name) caseSensitive pattern name None) as (b & Hb & Hiff); [done| |].
  { unfold scan_fuel. simpl. lia. }
  exists b. split; [done|]. rewrite Hiff. simpl. tauto.
Qed.

(** ** Case folding: the matcher and the resolver *)

(** The documented behaviour of [SimpleFold]: it cycles through an orbit of at
    most four runes, leaves what is no code point alone, and relates two ASCII
    runes when they are the same letter. *)
Record simple_fold : Prop := {
  orbit_period : forall r, exists j, (1 <= j <= 4)%nat /\ Nat.iter j SimpleFold r = r;
  orbit_ascii : forall a b, 0 <= a < RuneSelf -> 0 <= b < RuneSelf ->
    (exists j, Nat.iter j SimpleFold a = b) <-> asciiLower a = asciiLower b;
  orbit_invalid : forall r, r < 0 -> SimpleFold r = r
}.

Definition same (a b : Z) : Prop := exists j, Nat.iter j SimpleFold a = b.

(** The four lengths an orbit can have. *)
Lemma orbit_cases (Hf : simple_fold) a :
  let x := SimpleFold a in let y := SimpleFold x in let z := SimpleFold y in
  (x = a) \/ (x <> a /\ y = a) \/ (x <> a /\ y <> a /\ z = a) \/
  (x <> a /\ y <> a /\ z <> a /\ SimpleFold z = a).
Proof.
  intros x y z. destruct (orbit_period Hf a) as (j & Hj & He).
  destruct (decide (x = a)); [tauto|]. destruct (decide (y = a)); [tauto|].
  destruct (decide (z = a)); [tauto|]. repeat right.
  assert (j = 1 \/ j = 2 \/ j = 3 \/ j = 4)%nat as [->|[->|[->| ->]]] by lia; simpl in He; tauto.
Qed.

Lemma iter_fixed (j : nat) a : SimpleFold a = a -> Nat.iter j SimpleFold a = a.
Proof. intros He. induction j as [|j IH]; simpl; congruence. Qed.

Lemma same_walk (Hf : simple_fold) a b : same a b <->
  a = b \/ SimpleFold a = b \/ SimpleFold (SimpleFold a) = b \/ SimpleFold (SimpleFold (SimpleFold a)) = b.
Proof.
  split.
  - intros [j <-]. induction j as [|j IH]; [by left|]. simpl. pose proof (orbit_cases Hf a) as Hc. simpl in Hc.
    destruct IH as [<-|[<-|[<-|<-]]]; intuition congruence.
  - intros [H|[H|[H|H]]]; [by exists 0%nat|by exists 1%nat|by exists 2%nat|by exists 3%nat].
Qed.

Lemma same_sym (Hf : simple_fold) a b : same a b -> same b a.
Proof.
  pose proof (orbit_cases Hf a) as Hc. simpl in Hc. rewrite !same_walk by done.
  intros [<-|[<-|[<-|<-]]]; intuition congruence.
Qed.

Lemma same_trans a b c : same a b -> same b c -> same a c.
Proof. intros [i <-] [j <-]. exists (j + i)%nat. by rewrite Nat.iter_add. Qed.

Lemma foldEqual_orbit (Hf : simple_fold) a b : foldEqual a b = true <-> same a b.
Proof.
  unfold foldEqual. destruct (Z.eqb_spec a b) as [->|Hn]; [split; [by exists 0%nat|done]|].
  destruct ((a <? RuneSelf) && (b <? RuneSelf)) eqn:Ha.
  - apply andb_prop in Ha as [Ha Hb]. apply Z.ltb_lt in Ha, Hb. rewrite Z.eqb_eq.
    destruct (Z.ltb_spec a 0) as [Hneg|], (Z.ltb_spec b 0) as [Hnegb|]; [..|by rewrite <- (orbit_ascii Hf)].
    all: split; [intros He|intros Hs; exfalso; apply Hn].
    all: try (unfold asciiLower in He; repeat case_match; lia).
    all: try (destruct Hs as [j <-]; symmetry; apply iter_fixed, (orbit_invalid Hf); lia).
    apply (same_sym Hf) in Hs. destruct Hs as [j <-]. apply iter_fixed, (orbit_invalid Hf). lia.
  - rewrite same_walk by done. pose proof (orbit_cases Hf a) as Hc. simpl in Hc. cbn [orbit_walk].
    repeat match goal with |- context [?x =? ?y] => destruct (Z.eqb_spec x y) end; intuition congruence.
Qed.

Lemma orbit_min_S fuel r lo f :
  orbit_min (S fuel) r lo f = if f =? r then lo else orbit_min fuel r (Z.min lo f) (SimpleFold f).
Proof.
  cbn [orbit_min]. case_match; [done|]. f_equal. destruct (Z.ltb_spec f lo); lia.
Qed.

Lemma orbit_min_same fuel r lo f : same r lo -> same r f -> same r (orbit_min fuel r lo f).
Proof.
  revert lo f. induction fuel as [|fuel IH]; intros lo f Hl Hf; [done|]. rewrite orbit_min_S.
  case_match; [done|]. apply IH; [destruct (Z.min_spec lo f) as [[_ ->]|[_ ->]]; done|].
  eapply same_trans; [exact Hf|by exists 1%nat].
Qed.

Lemma FoldRune_same a : same a (FoldRune a).
Proof. apply orbit_min_same; [by exists 0%nat|by exists 1%nat]. Qed.

Lemma FoldRune_least (Hf : simple_fold) a b : same a b -> FoldRune a <= b.
Proof.
  rewrite same_walk by done. pose proof (orbit_cases Hf a) as Hc. simpl in Hc.
  unfold FoldRune. rewrite !orbit_min_S. cbn [orbit_min].
  set (x := SimpleFold a) in *. set (y := SimpleFold x) in *. set (z := SimpleFold y) in *.
  assert (Hy : x = a -> y = a) by (intros He; unfold y; rewrite He; exact He).
  assert (x = a -> z = a) by (intros He; unfold z; rewrite (Hy He); exact He).
  assert (y = a -> z = x) by (unfold z; intros ->; done).
  clearbody x y z.
  repeat match goal with |- context [?u =? ?v] => destruct (Z.eqb_spec u v) end; lia.
Qed.

(** The pattern matcher and the path resolver agree on what "the same
    letter" means: [foldEqual] holds exactly when the two runes have the same
    [FoldRune] representative, for every two runes, ASCII, invalid bytes and
    sentinels included; and that relation is an equivalence. *)
Theorem foldEqual_FoldRune (Hf : simple_fold) (a b : Z) :
  foldEqual a b = (FoldRune a =? FoldRune b) /\ FoldRune (FoldRune a) = FoldRune a.
Proof.
  assert (Hs : forall a b, same a b -> FoldRune a = FoldRune b).
  { intros x y H. apply Z.le_antisymm; apply (FoldRune_least Hf).
    - eapply same_trans; [exact H|apply FoldRune_same].
    - eapply same_trans; [apply (same_sym Hf), H|apply FoldRune_same]. }
  split; [|symmetry; apply Hs, FoldRune_same].
  apply eq_true_iff_eq. rewrite Z.eqb_eq, foldEqual_orbit by done. split; [apply Hs|].
  intros He. eapply same_trans; [apply FoldRune_same|]. rewrite He. apply (same_sym Hf), FoldRune_same.
Qed.
End Fold.

(** The ASCII letters and the Kelvin sign's orbit. *)
Definition ex_fold (r : Z) : Z :=
  if r =? 0x4B then 0x6B else if r =? 0x6B then 0x212A else if r =? 0x212A then 0x4B else
  if (0x41 <=? r) && (r <=? 0x5A) then r + 0x20 else if (0x61 <=? r) && (r <=? 0x7A) then r - 0x20 else r.

Lemma ex_fold_ok : simple_fold ex_fold.
Proof.
  assert (Hiter : forall a b, (exists j, Nat.iter j ex_fold a = b) <->
    a = b \/ ex_fold a = b \/ ex_fold (ex_fold a) = b).
  { intros a b. split.
    - intros [j <-]. induction j as [|j IH]; [by left|]. simpl.
      destruct IH as [<-|[<-|<-]]; [tauto..|]. unfold ex_fold. repeat case_match; lia.
    - intros [H|[H|H]]; [by exists 0%nat|by exists 1%nat|by exists 2%nat]. }
  split.
  - intros r. destruct (decide (r = 0x4B \/ r = 0x6B \/ r = 0x212A)) as [H|H].
    + exists 3%nat. split; [lia|]. by destruct H as [->|[->| ->]].
    + exists 2%nat. split; [lia|]. simpl. unfold ex_fold. repeat case_match; lia.
  - intros a b Ha Hb. unfold RuneSelf in *. rewrite Hiter. unfold asciiLower, ex_fold. repeat case_match; lia.
  - intros r Hr. unfold ex_fold. repeat case_match; lia.
Qed.

Lemma foldEqual_FoldRune_witness :
  foldEqual ex_fold 0x6B 0x212A = true /\ FoldRune ex_fold (FoldRune ex_fold 0x6B) = FoldRune ex_fold 0x6B.
Proof. apply (foldEqual_FoldRune ex_fold ex_fold_ok 0x6B 0x212A). Defined.

(** [*.t?t] against [notes.txt], and [IMG[1].*] taken literally. *)
Example pattern_example :
  matchSMBPattern ex_fold (map z2b [42; 46; 84; 63; 116]) (map z2b [110; 46; 120; 46; 116; 120; 116]) false = Some true.
Proof. vm_compute. reflexivity. Qed.
End Wildcard.
