(* ===== verification/CopyChunk.v ===== *)
(** Server-side copy: [internal/parent/copychunk.go] and [copychunk_linux.go].

    A file is its contents, [disk] maps an inode to them, and a descriptor is an
    inode.  What the kernel answers to each system call is a script, so the
    theorems hold whatever it does: short copies, refusals, failures. *)

From S2P Require Import Prelude Smb2 Requests Access.
Import Access.

Module CopyChunk.

Definition maxCopyChunkCount : Z := 256.
Definition maxCopyChunkSize : Z := 2 ^ 20.
Definition maxCopyChunkTotal : Z := 16 * 2 ^ 20.

Definition copyChunkReadAccess : Z := union [AccessFileReadData; AccessGenericRead; AccessGenericAll].
Definition copyChunkWriteAccess : Z :=
  union [AccessFileWriteData; AccessFileAppendData; AccessGenericWrite; AccessGenericAll].

Definition copyChunkLimits : bytes :=
  Ioctl.EncodeSrvCopyChunkResponse maxCopyChunkCount maxCopyChunkSize maxCopyChunkTotal.

(** ** Resume keys *)

Record resumeKeyEntry := mkKeyEntry { k_open : Z; k_sess : Z }.
Record resumeKeyTable := mkKeys { byKey : gmap bytes resumeKeyEntry; byOpen : gmap Z bytes }.

Definition noKeys : resumeKeyTable := mkKeys ∅ ∅.

(** [random] is what [rand.Read] fills the key with, or its failure. *)
Definition issue (t : resumeKeyTable) (sess open : Z) (random : option bytes) : resumeKeyTable * option bytes :=
  let mint (t : resumeKeyTable) :=
    match random with
    | None => (t, None)
    | Some key => (mkKeys (<[key := mkKeyEntry open sess]> (byKey t)) (<[open := key]> (byOpen t)), Some key)
    end in
  match byOpen t !! open with
  | Some key =>
      match byKey t !! key with
      | Some e => if k_sess e =? sess then (t, Some key)
                  else mint (mkKeys (delete key (byKey t)) (delete open (byOpen t)))
      | None => mint (mkKeys (delete key (byKey t)) (delete open (byOpen t)))
      end
  | None => mint t
  end.

Definition resolve (t : resumeKeyTable) (key : bytes) (sess : Z) : option Z :=
  match byKey t !! key with
  | Some e => if negb (k_sess e =? sess) then None else Some (k_open e)
  | None => None
  end.

Definition releaseKey (t : resumeKeyTable) (open : Z) : resumeKeyTable :=
  match byOpen t !! open with
  | Some key => mkKeys (delete key (byKey t)) (delete open (byOpen t))
  | None => t
  end.

Definition clear (t : resumeKeyTable) : resumeKeyTable := noKeys.

(** ** Validation *)

Definition maxFileOffset : Z := 2 ^ 63 - 1.

Fixpoint check_sizes (chunks : list Ioctl.SrvCopyChunk) (total : Z) : bool :=
  match chunks with
  | [] => true
  | ch :: rest =>
      if (Ioctl.Length ch =? 0) || (maxCopyChunkSize <? Ioctl.Length ch) then false else
      let total := (total + Ioctl.Length ch) mod 2 ^ 64 in
      if maxCopyChunkTotal <? total then false else check_sizes rest total
  end.

Fixpoint check_ranges (chunks : list Ioctl.SrvCopyChunk) (srcSize : Z) : Z * bool :=
  match chunks with
  | [] => (StatusSuccess, true)
  | ch :: rest =>
      if (maxFileOffset <? Ioctl.SourceOffset ch) || (maxFileOffset <? Ioctl.TargetOffset ch)
      then (StatusInvalidParameter, false) else
      let srcEnd := (Ioctl.SourceOffset ch + Ioctl.Length ch) mod 2 ^ 64 in
      if (maxFileOffset <? srcEnd) || (maxFileOffset <? (Ioctl.TargetOffset ch + Ioctl.Length ch) mod 2 ^ 64)
      then (StatusInvalidParameter, false) else
      if srcSize <? srcEnd then (StatusInvalidViewSize, false) else check_ranges rest srcSize
  end.

Definition validateCopyChunks (chunks : list Ioctl.SrvCopyChunk) (srcSize : Z) : Z * bool :=
  if check_sizes chunks 0 then check_ranges chunks srcSize else (StatusInvalidParameter, false).

Fixpoint chunksOverlap (chunks : list Ioctl.SrvCopyChunk) : bool :=
  match chunks with
  | [] => false
  | ch :: rest =>
      let n := Ioctl.Length ch in
      if (Ioctl.SourceOffset ch <? (Ioctl.TargetOffset ch + n) mod 2 ^ 64) &&
         (Ioctl.TargetOffset ch <? (Ioctl.SourceOffset ch + n) mod 2 ^ 64)
      then true else chunksOverlap rest
  end.

(** [statOk]: both [fstat] calls succeed. *)
Definition sameUnderlyingFile (statOk : bool) (a b : Z) : bool := statOk && (a =? b).

(** ** Files *)

Abbreviation disk := (gmap Z bytes).
Definition contents (d : disk) (ino : Z) : bytes := default [] (d !! ino).

(** [pread] and [pwrite]: a read stops at the end of the file, a write past it
    fills the gap with zeros. *)
Definition pread (f : bytes) (off n : Z) : bytes := get f off n.
Definition pwrite (f : bytes) (off : Z) (d : bytes) : bytes :=
  match d with [] => f | _ => splice off d (f ++ zeros (off + len d - len f)) end.

Definition write_at (d : disk) (ino off : Z) (data : bytes) : disk :=
  match data with [] => d | _ => <[ino := pwrite (contents d ino) off data]> d end.

(** What [copy_file_range] answers: [k] bytes at most, or an errno. *)
Inductive kernelErrno := K_ENOSYS | K_EXDEV | K_EINVAL | K_EOPNOTSUPP | K_EPERM | K_ETXTBSY | K_EBADF | K_EINTR
  | K_other (e : errno).
Inductive kernelAnswer := KCopied (k : Z) | KFails (e : kernelErrno).

Inductive copyErr := errCopyRangeUnsupported | CopyErr (e : errno).

Definition copyFileRange (d : disk) (dst src srcOff dstOff length : Z) (ans : kernelAnswer)
    : disk * Z * option copyErr :=
  if length <=? 0 then (d, 0, None) else
  match ans with
  | KFails (K_other e) => (d, 0, Some (CopyErr e))
  | KFails _ => (d, 0, Some errCopyRangeUnsupported)
  | KCopied k =>
      let data := pread (contents d src) srcOff (Z.min k length) in
      (write_at d dst dstOff data, len data, None)
  end.

(** What [ReadAt] and [WriteAt] answer: all of it, or [k] bytes and an error. *)
Inductive readAnswer := ReadAll | ReadFails (k : Z) (e : errno).
Inductive writeAnswer := WriteAll | WriteShort (k : Z) | WriteFails (k : Z) (e : errno).

Inductive readErr := EOF | ReadErr (e : errno).

Definition ReadAt (f : bytes) (off want : Z) (ans : readAnswer) : bytes * option readErr :=
  match ans with
  | ReadAll => let data := pread f off want in (data, if len data <? want then Some EOF else None)
  | ReadFails k e => (pread f off (Z.min k want), Some (ReadErr e))
  end.

Definition WriteAt (d : disk) (ino off : Z) (data : bytes) (ans : writeAnswer) : disk * Z * option errno :=
  match ans with
  | WriteAll => (write_at d ino off data, len data, None)
  | WriteShort k => let data := get data 0 k in (write_at d ino off data, len data, None)
  | WriteFails k e => let data := get data 0 k in (write_at d ino off data, len data, Some e)
  end.

Definition copyBufSize : Z := 256 * 2 ^ 10.

Section CopyRange.
Context (kern : nat -> kernelAnswer) (rd : nat -> readAnswer) (wr : nat -> writeAnswer).
Context (dst src srcOff dstOff length : Z).

(** The two loops of [copyRange], with the number of system calls made so far;
    an iteration that continues has copied a byte, so [length + 1] are enough. *)
Fixpoint kernel_loop (fuel c : nat) (d : disk) (done : Z) : option (disk * Z * option errno) :=
  match fuel with
  | O => None
  | S fuel =>
      if done <? length then
        match copyFileRange d dst src (srcOff + done) (dstOff + done) (length - done) (kern c) with
        | (d, _, Some errCopyRangeUnsupported) => Some (d, done, None)
        | (d, _, Some (CopyErr e)) => Some (d, done, Some e)
        | (d, n, None) => if n =? 0 then Some (d, done, None) else kernel_loop fuel (S c) d (done + n)
        end
      else Some (d, done, None)
  end.

Fixpoint portable_loop (fuel c : nat) (d : disk) (done : Z) : option (disk * Z * option errno) :=
  match fuel with
  | O => None
  | S fuel =>
      if done <? length then
        let want := Z.min (length - done) copyBufSize in
        let '(data, rerr) := ReadAt (contents d src) (srcOff + done) want (rd c) in
        let '(d, w, werr) :=
          if 0 <? len data then WriteAt d dst (dstOff + done) data (wr c) else (d, 0, None) in
        let done := done + w in
        match werr with
        | Some e => Some (d, done, Some e)
        | None =>
            if negb (w =? len data) then Some (d, done, Some EOTHER) else
            match rerr with
            | Some EOF => Some (d, done, Some EOTHER)
            | Some (ReadErr e) => Some (d, done, Some e)
            | None => portable_loop fuel (S c) d done
            end
        end
      else Some (d, done, None)
  end.

Definition copyRange (d : disk) : option (disk * Z * option errno) :=
  let fuel := S (Z.to_nat length) in
  match kernel_loop fuel 0 d 0 with
  | Some (d, done, None) => if length <=? done then Some (d, done, None) else portable_loop fuel 0 d done
  | r => r
  end.
End CopyRange.

(** ** The handlers *)

Record copyOpen := mkCopyOpen {
  co_id : Z; co_file : option Z; co_isDir : bool; co_isPipe : bool; co_isStream : bool;
  co_granted : Z; co_treeReadOnly : bool }.

(** A response: a status, and the output buffer of an IOCTL response or none. *)
Definition answer : Type := Z * option bytes.

(** [target] is [sess.GetOpen(req.FileID)]. *)
Definition handleResumeKey (t : resumeKeyTable) (sess : Z) (open : option copyOpen) (random : option bytes)
    : resumeKeyTable * answer :=
  match open with
  | None => (t, (StatusInvalidParameter, None))
  | Some o =>
      if co_isPipe o || co_isStream o then (t, (StatusNotSupported, None)) else
      match issue t sess (co_id o) random with
      | (t, None) => (t, (StatusInsufficientResources, None))
      | (t, Some key) => (t, (StatusSuccess, Some (Ioctl.EncodeResumeKeyResponse key)))
      end
  end.

Definition script : Type := (nat -> kernelAnswer) * (nat -> readAnswer) * (nat -> writeAnswer).

(** The copy loop from chunk [i]: the disk and what the response reports. *)
Fixpoint copy_loop (scr : nat -> script) (dst src : Z) (chunks : list Ioctl.SrvCopyChunk)
    (i : nat) (chunksWritten total : Z) (d : disk) : option (disk * answer) :=
  match chunks with
  | [] => Some (d, (StatusSuccess, Some (Ioctl.EncodeSrvCopyChunkResponse chunksWritten 0 total)))
  | ch :: rest =>
      let '(kern, rd, wr) := scr i in
      match copyRange kern rd wr dst src (Ioctl.SourceOffset ch) (Ioctl.TargetOffset ch) (Ioctl.Length ch) d with
      | None => None
      | Some (d, n, err) =>
          let total := (total + n) mod 2 ^ 32 in
          let fail e := Some (d, (statusFromErr (Some e),
                                  Some (Ioctl.EncodeSrvCopyChunkResponse chunksWritten n total))) in
          match err with
          | Some e => fail e
          | None => if negb (n =? Ioctl.Length ch) then fail EOTHER
                    else copy_loop scr dst src rest (S i) ((chunksWritten + 1) mod 2 ^ 32) total d
          end
      end
  end.

(** [opens] is the store the resume keys' handles live in. *)
Definition handleCopyChunk (ctlCode : Z) (target : option copyOpen) (input : bytes) (keys : resumeKeyTable) (sess : Z)
    (opens : Z -> option copyOpen) (srcStat : option errno) (statOk : bool) (scr : nat -> script) (d : disk)
    : option (disk * answer) :=
  let err st := Some (d, (st, None)) in
  let refusal := Some (d, (StatusInvalidParameter, Some copyChunkLimits)) in
  match target with
  | None => err StatusInvalidParameter
  | Some t =>
      match co_file t with
      | None => err StatusInvalidParameter
      | Some dst =>
          if co_isDir t || co_isPipe t || co_isStream t then err StatusInvalidParameter else
          if co_treeReadOnly t then err StatusAccessDenied else
          if Z.land (co_granted t) copyChunkWriteAccess =? 0 then err StatusAccessDenied else
          if (ctlCode =? Ioctl.FsctlSrvCopyChunk) && (Z.land (co_granted t) copyChunkReadAccess =? 0)
          then err StatusAccessDenied else
          match Ioctl.DecodeSrvCopyChunkCopy input maxCopyChunkCount with
          | Ok cc =>
              match resolve keys (Ioctl.SourceKey cc) sess ≫= opens with
              | None => err StatusObjectNameNotFound
              | Some s =>
                  match co_file s with
                  | None => err StatusInvalidParameter
                  | Some src =>
                      if co_isDir s || co_isPipe s || co_isStream s then err StatusInvalidParameter else
                      if Z.land (co_granted s) copyChunkReadAccess =? 0 then err StatusAccessDenied else
                      match srcStat with
                      | Some e => err (statusFromErr (Some e))
                      | None =>
                          match validateCopyChunks (Ioctl.Chunks cc) (len (contents d src)) with
                          | (st, false) => if st =? StatusInvalidParameter then refusal else err st
                          | (_, true) =>
                              if sameUnderlyingFile statOk src dst && chunksOverlap (Ioctl.Chunks cc) then refusal
                              else copy_loop scr dst src (Ioctl.Chunks cc) 0 0 0 d
                          end
                      end
                  end
              end
          | _ => refusal
          end
      end
  end.

(** ** Reads and writes of a file *)

Lemma len_zeros_max n : len (zeros n) = Z.max 0 n.
Proof. unfold len, zeros. rewrite length_replicate. lia. Qed.

Lemma len_pwrite f off (d : bytes) : 0 <= off -> d <> [] -> len (pwrite f off d) = Z.max (len f) (off + len d).
Proof.
  intros Ho Hd. destruct d as [|b d]; [done|]. unfold pwrite.
  pose proof (len_nonneg (b :: d)). pose proof (len_nonneg f).
  rewrite len_splice; rewrite ?len_app, ?len_zeros_max; lia.
Qed.

Lemma len_pwrite_ge f off (d : bytes) : 0 <= off -> len f <= len (pwrite f off d).
Proof. intros Ho. destruct (decide (d = [])) as [->|]; [done|]. rewrite len_pwrite by done. lia. Qed.

Lemma lookup_pwrite f off (d : bytes) (i : nat) : 0 <= off -> d <> [] ->
  pwrite f off d !! i =
    if decide (off <= Z.of_nat i < off + len d) then d !! (i - Z.to_nat off)%nat
    else (f ++ zeros (off + len d - len f)) !! i.
Proof.
  intros Ho Hd. destruct d as [|b d]; [done|]. unfold pwrite.
  pose proof (len_nonneg f). apply lookup_splice; [done|]. rewrite len_app, len_zeros_max. lia.
Qed.

Lemma lookup_extended f n (i : nat) :
  (f ++ zeros n) !! i = if decide (Z.of_nat i < len f) then f !! i
                        else if decide (Z.of_nat i < len f + n) then Some Byte.x00 else None.
Proof.
  unfold len. case_decide; [by rewrite lookup_app_l by lia|]. rewrite lookup_app_r by lia.
  case_decide; unfold zeros.
  - by rewrite lookup_replicate_2 by lia.
  - apply lookup_ge_None. rewrite length_replicate. lia.
Qed.

Lemma lookup_byte_None (l : bytes) (i : nat) : len l <= Z.of_nat i -> l !! i = None.
Proof. intros H. apply lookup_ge_None. unfold len in H. lia. Qed.

(** Two writes one after the other are one. *)
Lemma pwrite_pwrite f off (a b : bytes) : 0 <= off -> pwrite (pwrite f off a) (off + len a) b = pwrite f off (a ++ b).
Proof.
  intros Ho. destruct (decide (a = [])) as [->|Ha]; [by rewrite len_nil, Z.add_0_r|].
  destruct (decide (b = [])) as [->|Hb]; [by rewrite app_nil_r|].
  pose proof (len_nonneg a). pose proof (len_nonneg b). pose proof (len_nonneg f).
  apply list_eq. intros i. rewrite !lookup_pwrite, !lookup_extended, len_pwrite, !len_app
    by (lia || done || by destruct a).
  rewrite lookup_pwrite, lookup_extended by (lia || done).
  repeat case_decide; try lia; try done.
  - rewrite lookup_app_r by (unfold len in *; lia). f_equal. unfold len in *. lia.
  - rewrite lookup_app_l by (unfold len in *; lia). done.
Qed.

(** A write leaves a range it does not touch as it was. *)
Lemma pread_pwrite f off (d : bytes) p n : 0 <= off -> 0 <= p -> 0 <= n -> p + n <= len f ->
  p + n <= off \/ off + len d <= p -> pread (pwrite f off d) p n = pread f p n.
Proof.
  intros Ho Hp Hn Hf Hd. destruct (decide (d = [])) as [->|He]; [done|].
  unfold pread. apply list_eq. intros i. rewrite !lookup_get by lia. case_decide; [|done].
  rewrite lookup_pwrite, decide_False, lookup_extended by (lia || done). by rewrite decide_True by lia.
Qed.

Lemma pread_app f p n m : 0 <= p -> 0 <= n -> 0 <= m -> pread f p n ++ pread f (p + n) m = pread f p (n + m).
Proof.
  intros. unfold pread, get. rewrite !Z2Nat.inj_add by lia. by rewrite <- take_take_drop, drop_drop.
Qed.

Lemma len_pread f p n : 0 <= p -> 0 <= n -> p + n <= len f -> len (pread f p n) = n.
Proof. intros. unfold pread. by apply len_get. Qed.

Lemma pread_max f p n : pread f p n = pread f p (Z.max 0 n).
Proof. unfold pread, get. f_equal. lia. Qed.

Lemma get_pread f p n j : 0 <= n -> get (pread f p n) 0 j = pread f p (Z.min (Z.max 0 j) n).
Proof. intros Hn. unfold pread, get. rewrite drop_0, take_take. f_equal. lia. Qed.

Lemma contents_write_at d ino off (data : bytes) ino' :
  contents (write_at d ino off data) ino' = if decide (ino' = ino) then pwrite (contents d ino) off data else contents d ino'.
Proof.
  unfold write_at, contents. destruct data as [|b data]; [case_decide; by subst|].
  case_decide; [subst; by rewrite lookup_insert_eq|by rewrite lookup_insert_ne].
Qed.

Lemma write_at_twice d ino off (a b : bytes) : 0 <= off ->
  write_at (write_at d ino off a) ino (off + len a) b = write_at d ino off (a ++ b).
Proof.
  intros Ho. destruct (decide (a = [])) as [->|Ha]; [by rewrite len_nil, Z.add_0_r|].
  destruct (decide (b = [])) as [->|Hb]; [by rewrite app_nil_r|].
  pose proof (contents_write_at d ino off a ino) as Hc. rewrite decide_True in Hc by done.
  pose proof (pwrite_pwrite (contents d ino) off a b Ho) as Hp.
  destruct a as [|x a]; [done|]. destruct b as [|y b]; [done|]. unfold write_at at 1. rewrite Hc, Hp.
  unfold write_at. simpl. by rewrite insert_insert_eq.
Qed.

(** ** [copyRange] copies a prefix of the range, all of it unless it fails *)

Section Range.
Context (kern : nat -> kernelAnswer) (rd : nat -> readAnswer) (wr : nat -> writeAnswer).
Context (dst src srcOff dstOff length : Z) (d0 : disk).
Context (Hs : 0 <= srcOff) (Hd : 0 <= dstOff) (Hl : 0 <= length)
  (Hin : srcOff + length <= len (contents d0 src))
  (Hdis : src <> dst \/ srcOff + length <= dstOff \/ dstOff + length <= srcOff).

Definition copied (d : disk) (n : Z) : Prop :=
  d = write_at d0 dst dstOff (pread (contents d0 src) srcOff n).

(** Reading on from a partial copy reads what the source held. *)
Lemma copied_read d n k : copied d n -> 0 <= n -> 0 <= k -> n + k <= length ->
  pread (contents d src) (srcOff + n) k = pread (contents d0 src) (srcOff + n) k.
Proof.
  intros -> Hn Hk Hnk. rewrite contents_write_at. case_decide; [subst|done].
  apply pread_pwrite; try lia. rewrite len_pread by lia. destruct Hdis as [?|[?|?]]; [done|lia..].
Qed.

Lemma copied_step d n k : copied d n -> 0 <= n -> 0 <= k -> n + k <= length ->
  copied (write_at d dst (dstOff + n) (pread (contents d src) (srcOff + n) k)) (n + k).
Proof.
  intros Hc Hn Hk Hnk. rewrite (copied_read d n k) by done. unfold copied in *. subst d.
  rewrite <- (pread_app _ _ n k) by lia. rewrite <- write_at_twice by done.
  by rewrite len_pread by lia.
Qed.

Lemma copied_zero : copied d0 0.
Proof. unfold copied, pread. by rewrite get_zero_len. Qed.

Lemma kernel_loop_spec fuel c d done : copied d done -> 0 <= done <= length -> length - done < Z.of_nat fuel ->
  exists d' n e, kernel_loop kern dst src srcOff dstOff length fuel c d done = Some (d', n, e) /\
    copied d' n /\ 0 <= n <= length.
Proof.
  revert c d done. induction fuel as [|fuel IH]; intros c d done Hc Hn Hf; [lia|]. cbn [kernel_loop].
  destruct (Z.ltb_spec done length) as [Hlt|]; [|by exists d, done, None].
  unfold copyFileRange. destruct (Z.leb_spec (length - done) 0); [lia|].
  destruct (kern c) as [k|e]; [|destruct e; by eexists d, done, _].
  rewrite pread_max. set (k' := Z.max 0 (Z.min k (length - done))).
  rewrite (copied_read d done k'), len_pread, <- (copied_read d done k') by (lia || done).
  destruct (Z.eqb_spec k' 0) as [Hz|Hz].
  - exists (write_at d dst (dstOff + done) (pread (contents d src) (srcOff + done) k')), done, None.
    rewrite Hz. unfold pread. by rewrite get_zero_len.
  - apply IH; [apply copied_step; (done || lia)|lia|lia].
Qed.

Lemma portable_loop_spec fuel c d done : copied d done -> 0 <= done <= length -> length - done < Z.of_nat fuel ->
  exists d' n e, portable_loop rd wr dst src srcOff dstOff length fuel c d done = Some (d', n, e) /\
    copied d' n /\ 0 <= n <= length /\ (e = None -> n = length).
Proof.
  revert c d done. induction fuel as [|fuel IH]; intros c d done Hc Hn Hf; [lia|]. cbn [portable_loop].
  destruct (Z.ltb_spec done length) as [Hlt|]; [|exists d, done, None; split_and!; try done; lia].
  set (want := Z.min (length - done) copyBufSize).
  assert (Hw : 1 <= want <= length - done) by (unfold want, copyBufSize; lia).
  (* what was read, and whether the loop goes on after it *)
  assert (Hread : exists k, 0 <= k <= want /\ ReadAt (contents d src) (srcOff + done) want (rd c) =
    (pread (contents d src) (srcOff + done) k, (ReadAt (contents d src) (srcOff + done) want (rd c)).2) /\
    ((ReadAt (contents d src) (srcOff + done) want (rd c)).2 = None -> k = want)).
  { unfold ReadAt. destruct (rd c) as [|k e]; [by exists want; split_and!; try lia|].
    exists (Z.max 0 (Z.min k want)). split_and!; [lia..| |done]. by rewrite pread_max. }
  destruct Hread as (k & Hk & -> & Hkw). set (rerr := (ReadAt _ _ _ _).2) in *. clearbody rerr.
  set (data := pread _ _ _). assert (Hdata : len data = k).
  { unfold data. rewrite (copied_read d done k), len_pread by (lia || done). done. }
  (* what was written *)
  assert (Hwrite : exists w werr,
    (if 0 <? len data then WriteAt d dst (dstOff + done) data (wr c) else (d, 0, None)) =
      (write_at d dst (dstOff + done) (pread (contents d src) (srcOff + done) w), w, werr) /\ 0 <= w <= k).
  { rewrite Hdata. destruct (Z.ltb_spec 0 k).
    - assert (Hpre : forall j, get data 0 j = pread (contents d src) (srcOff + done) (Z.min (Z.max 0 j) k) /\
        len (get data 0 j) = Z.min (Z.max 0 j) k).
      { intros j. unfold data. rewrite get_pread by lia. split; [done|].
        rewrite (copied_read d done), len_pread by (lia || done). done. }
      unfold WriteAt. destruct (wr c) as [|j|j e].
      + exists k, None. rewrite Hdata. split; [done|lia].
      + destruct (Hpre j) as [Hj1 Hj2]. eexists _, _. rewrite Hj2, Hj1. split; [done|lia].
      + destruct (Hpre j) as [Hj1 Hj2]. eexists _, _. rewrite Hj2, Hj1. split; [done|lia].
    - exists 0, None. unfold pread. by rewrite get_zero_len; split; [|lia]. }
  destruct Hwrite as (w & werr & -> & Hwk).
  assert (Hc' : copied (write_at d dst (dstOff + done) (pread (contents d src) (srcOff + done) w)) (done + w))
    by (apply copied_step; (done || lia)).
  set (d' := write_at _ _ _ _) in *. clearbody d'.
  destruct werr as [e|]; [exists d', (done + w), (Some e); split_and!; (done || lia)|].
  destruct (Z.eqb_spec w (len data)) as [He|]; simpl; [|exists d', (done + w), (Some EOTHER); split_and!; (done || lia)].
  destruct rerr as [[|e]|]; [eexists d', (done + w), _; split_and!; (done || lia)..|].
  apply IH; [done|lia|]. rewrite Hkw in Hdata by done. lia.
Qed.

Lemma copyRange_spec : exists d' n e, copyRange kern rd wr dst src srcOff dstOff length d0 = Some (d', n, e) /\
  copied d' n /\ 0 <= n <= length /\ (e = None -> n = length).
Proof.
  unfold copyRange. destruct (kernel_loop_spec (S (Z.to_nat length)) 0 d0 0) as (d1 & n & e & -> & Hc & Hn).
  { apply copied_zero. } { lia. } { lia. }
  destruct e as [e|]; [exists d1, n, (Some e); split_and!; (done || lia)|].
  destruct (Z.leb_spec length n); [exists d1, n, None; split_and!; (done || lia)|].
  apply portable_loop_spec; (done || lia).
Qed.
End Range.

(** ** What validation lets through *)

Definition wire_chunk (ch : Ioctl.SrvCopyChunk) : Prop :=
  0 <= Ioctl.SourceOffset ch < 2 ^ 64 /\ 0 <= Ioctl.TargetOffset ch < 2 ^ 64 /\ 0 <= Ioctl.Length ch < 2 ^ 32.

Definition sum_lengths (chunks : list Ioctl.SrvCopyChunk) : Z :=
  fold_right (fun ch n => Ioctl.Length ch + n) 0 chunks.

(** A chunk that lies in a source of [size] bytes and in what POSIX can address. *)
Definition fits_chunk (size : Z) (ch : Ioctl.SrvCopyChunk) : Prop :=
  0 <= Ioctl.SourceOffset ch /\ 0 <= Ioctl.TargetOffset ch /\ 1 <= Ioctl.Length ch <= maxCopyChunkSize /\
  Ioctl.SourceOffset ch + Ioctl.Length ch <= size /\ Ioctl.TargetOffset ch + Ioctl.Length ch <= maxFileOffset.

Definition apart_chunk (ch : Ioctl.SrvCopyChunk) : Prop :=
  Ioctl.SourceOffset ch + Ioctl.Length ch <= Ioctl.TargetOffset ch \/
  Ioctl.TargetOffset ch + Ioctl.Length ch <= Ioctl.SourceOffset ch.

Lemma decode_chunks_wire (b : bytes) (i : Z) (n : nat) cs :
  Ioctl.decode_chunks b i n = Ok cs -> Forall wire_chunk cs /\ length cs = n.
Proof.
  revert i cs. induction n as [|n IH]; intros i cs Hd; cbn [Ioctl.decode_chunks] in Hd; bind_inv; subst; [done|].
  match goal with H : Ioctl.decode_chunks _ _ _ = Ok _ |- _ => apply IH in H as [Hf Hl] end.
  repeat match goal with
    | H : u64 _ _ = Ok _ |- _ => apply u64_inv in H
    | H : u32 _ _ = Ok _ |- _ => apply u32_inv in H
    end.
  split; [constructor; [by split_and!; simpl; lia|done]|simpl; lia].
Qed.

Lemma DecodeSrvCopyChunkCopy_wire (b : bytes) maxChunks cc : Ioctl.DecodeSrvCopyChunkCopy b maxChunks = Ok cc ->
  Forall wire_chunk (Ioctl.Chunks cc) /\ 1 <= len (Ioctl.Chunks cc) <= maxChunks.
Proof.
  unfold Ioctl.DecodeSrvCopyChunkCopy. intros Hd. case_match; [done|]. bind_inv.
  repeat (case_match; [done|]). bind_inv. subst. cbn [Ioctl.Chunks].
  match goal with H : Ioctl.decode_chunks _ _ _ = Ok _ |- _ => apply decode_chunks_wire in H as [Hf Hl] end.
  match goal with H : u32 _ _ = Ok _ |- _ => apply u32_inv in H end.
  repeat match goal with
    | H : (_ =? _) = false |- _ => apply Z.eqb_neq in H
    | H : (_ <? _) = false |- _ => apply Z.ltb_ge in H
    end.
  split; [done|]. unfold len. lia.
Qed.

Lemma check_sizes_spec chunks total : Forall wire_chunk chunks -> 0 <= total <= maxCopyChunkTotal ->
  check_sizes chunks total = true ->
  Forall (fun ch => 1 <= Ioctl.Length ch <= maxCopyChunkSize) chunks /\ total + sum_lengths chunks <= maxCopyChunkTotal.
Proof.
  intros Hw. revert total. induction Hw as [|ch chunks Hc Hw IH]; intros total Ht; cbn [check_sizes sum_lengths fold_right].
  { intros _. split; [constructor|lia]. }
  destruct Hc as (_ & _ & Hl).
  destruct (Z.eqb_spec (Ioctl.Length ch) 0); [done|]. destruct (Z.ltb_spec maxCopyChunkSize (Ioctl.Length ch)); [done|].
  cbn [orb]. rewrite Z.mod_small by (unfold maxCopyChunkTotal in *; lia).
  destruct (Z.ltb_spec maxCopyChunkTotal (total + Ioctl.Length ch)); [done|].
  intros Hr. apply IH in Hr as [Hf Hs]; [|lia]. split; [constructor; [lia|done]|]. unfold sum_lengths in Hs. lia.
Qed.

Lemma check_ranges_spec chunks size st ok : Forall wire_chunk chunks ->
  Forall (fun ch => 1 <= Ioctl.Length ch <= maxCopyChunkSize) chunks -> check_ranges chunks size = (st, ok) ->
  if ok then Forall (fits_chunk size) chunks else st <> StatusSuccess.
Proof.
  intros Hw Hl. revert st ok. induction Hw as [|ch chunks (Hc1 & Hc2 & Hc3) Hw IH]; intros st ok.
  { intros [= <- <-]. constructor. }
  apply Forall_cons in Hl as [Hlc Hl]. cbn [check_ranges].
  repeat match goal with |- context [?a <? ?b] => destruct (Z.ltb_spec a b) end; cbn [orb];
    try (intros [= <- <-]; done).
  intros Hr. apply (IH Hl) in Hr. destruct ok; [|done]. constructor; [|done].
  rewrite !Z.mod_small in * by (unfold maxCopyChunkSize, maxFileOffset in *; lia). unfold fits_chunk. lia.
Qed.

Lemma chunksOverlap_spec chunks size : Forall (fits_chunk size) chunks -> size <= maxFileOffset ->
  chunksOverlap chunks = false -> Forall apart_chunk chunks.
Proof.
  intros Hf Hs. induction Hf as [|ch chunks (H1 & H2 & H3 & H4 & H5) Hf IH]; [constructor|]. cbn [chunksOverlap].
  rewrite !Z.mod_small by (unfold maxFileOffset in *; lia).
  destruct (_ && _) eqn:Ho; [done|]. intros Hr. constructor; [|by apply IH].
  apply andb_false_iff in Ho. rewrite !Z.ltb_ge in Ho. unfold apart_chunk. lia.
Qed.

(** ** The copy *)

(** [n] bytes of a chunk copied. *)
Definition copy_part (dst src : Z) (d : disk) (ch : Ioctl.SrvCopyChunk) (n : Z) : disk :=
  write_at d dst (Ioctl.TargetOffset ch) (pread (contents d src) (Ioctl.SourceOffset ch) n).

Definition copy_chunk (dst src : Z) (d : disk) (ch : Ioctl.SrvCopyChunk) : disk :=
  copy_part dst src d ch (Ioctl.Length ch).

Lemma len_contents_copy dst src d ch n ino : 0 <= Ioctl.TargetOffset ch ->
  len (contents d ino) <= len (contents (copy_part dst src d ch n) ino).
Proof.
  intros Ht. unfold copy_part. rewrite contents_write_at. case_decide; [subst; by apply len_pwrite_ge|done].
Qed.

Lemma statusFromErr_not_success e : statusFromErr (Some e) <> StatusSuccess.
Proof. by destruct e. Qed.

(** How a copy loop can end: every chunk, or some chunks, part of the next one
    and a failure, with the counts the response reports. *)
Definition loop_result (dst src : Z) (chunks : list Ioctl.SrvCopyChunk) (cw total : Z) (d d' : disk) (st : Z)
    (body : bytes) : Prop :=
  (st = StatusSuccess /\ d' = fold_left (copy_chunk dst src) chunks d /\
     body = Ioctl.EncodeSrvCopyChunkResponse (cw + len chunks) 0 (total + sum_lengths chunks)) \/
  (st <> StatusSuccess /\ exists done ch rest n, chunks = done ++ ch :: rest /\ 0 <= n <= Ioctl.Length ch /\
     d' = copy_part dst src (fold_left (copy_chunk dst src) done d) ch n /\
     body = Ioctl.EncodeSrvCopyChunkResponse (cw + len done) n (total + sum_lengths done + n)).

Lemma loop_result_cons dst src ch chunks cw total d d' st body :
  loop_result dst src chunks (cw + 1) (total + Ioctl.Length ch) (copy_chunk dst src d ch) d' st body ->
  loop_result dst src (ch :: chunks) cw total d d' st body.
Proof.
  intros [(-> & -> & ->)|(Hst & done' & ch' & rest & n & -> & Hn & -> & ->)]; [left|right].
  - split_and!; [done..|]. rewrite len_cons. unfold sum_lengths. simpl. f_equal; lia.
  - split; [done|]. exists (ch :: done'), ch', rest, n. split_and!; [done|lia..|done|].
    rewrite len_cons. unfold sum_lengths. simpl. f_equal; lia.
Qed.

Lemma copy_loop_spec (scr : nat -> script) dst src chunks i cw total d :
  Forall (fits_chunk (len (contents d src))) chunks -> src <> dst \/ Forall apart_chunk chunks ->
  0 <= cw -> cw + len chunks < 2 ^ 32 -> 0 <= total -> total + sum_lengths chunks < 2 ^ 32 ->
  exists d' st body, copy_loop scr dst src chunks i cw total d = Some (d', (st, Some body)) /\
    loop_result dst src chunks cw total d d' st body.
Proof.
  revert i cw total d. induction chunks as [|ch chunks IH]; intros i cw total d Hf Ha Hcw Hcw' Ht Ht'.
  { eexists d, _, _. split; [done|]. left.
    split_and!; [done..|]. unfold sum_lengths, len. simpl. f_equal; lia. }
  apply Forall_cons in Hf as [Hc Hf]. pose proof Hc as (H1 & H2 & H3 & H4 & H5).
  rewrite len_cons in Hcw'. unfold sum_lengths in Ht'. cbn [fold_right] in Ht'. fold (sum_lengths chunks) in Ht'.
  assert (Hsum : 0 <= sum_lengths chunks).
  { clear -Hf. induction Hf as [|c cs (_ & _ & ? & _) _ IH]; unfold sum_lengths in *; simpl; lia. }
  pose proof (len_nonneg chunks). cbn [copy_loop]. destruct (scr i) as [[kern rd] wr].
  destruct (copyRange_spec kern rd wr dst src (Ioctl.SourceOffset ch) (Ioctl.TargetOffset ch) (Ioctl.Length ch) d)
    as (d1 & n & e & -> & Hcp & Hn & He); [lia..| |].
  { destruct Ha as [|Ha]; [by left|right]. apply Forall_cons in Ha as [Ha _]. done. }
  rewrite (Z.mod_small (total + n)) by lia.
  assert (Hfail : forall e, exists d' st body,
    Some (d1, (statusFromErr (Some e), Some (Ioctl.EncodeSrvCopyChunkResponse cw n (total + n)))) =
      Some (d', (st, Some body)) /\ loop_result dst src (ch :: chunks) cw total d d' st body).
  { intros e'. eexists _, _, _. split; [done|]. right. split; [apply statusFromErr_not_success|].
    exists [], ch, chunks, n. split_and!; [done|lia..|exact Hcp|].
    unfold sum_lengths, len. simpl. f_equal; lia. }
  destruct e as [e|]; [apply Hfail|]. destruct (Z.eqb_spec n (Ioctl.Length ch)) as [->|]; simpl; [|apply (Hfail EOTHER)].
  assert (Hd1 : d1 = copy_chunk dst src d ch) by exact Hcp. rewrite (Z.mod_small (cw + 1)) by lia.
  destruct (IH (S i) (cw + 1) (total + Ioctl.Length ch) d1) as (d' & st & body & -> & Hr); [..|lia|lia|lia|lia|].
  - eapply Forall_impl; [exact Hf|]. intros c (? & ? & ? & ? & ?). rewrite Hd1.
    pose proof (len_contents_copy dst src d ch (Ioctl.Length ch) src H2). unfold copy_chunk, fits_chunk. lia.
  - destruct Ha as [|Ha]; [by left|right]. by apply Forall_cons in Ha as [_ Ha].
  - exists d', st, body. split; [done|]. apply loop_result_cons. by rewrite <- Hd1.
Qed.

(** C18: A server-side copy, whatever the kernel answers to its system calls and
    whatever the request holds, either changes nothing and is refused, or copies
    the request's chunks in order: all of them under STATUS_SUCCESS, or a prefix
    of them and a prefix of the next under a failure, and the response reports
    exactly what was copied.  It is only ever performed between a source this
    session holds the key of and may read, and a target it may write that is on a
    writable share; it asks for at most 256 chunks and 16 MiB, reads only inside
    the source file, and never writes a chunk over its own source. *)
Theorem copychunk_spec (ctlCode : Z) (target : option copyOpen) (input : bytes) (keys : resumeKeyTable) (sess : Z)
    (opens : Z -> option copyOpen) (srcStat : option errno) (scr : nat -> script) (d : disk)
    (Hsize : forall ino, len (contents d ino) <= maxFileOffset) :
  exists d' st body, handleCopyChunk ctlCode target input keys sess opens srcStat true scr d = Some (d', (st, body)) /\
    ((st <> StatusSuccess /\ d' = d) \/
     exists t dst s src cc b, target = Some t /\ co_file t = Some dst /\ co_treeReadOnly t = false /\
       Z.land (co_granted t) copyChunkWriteAccess <> 0 /\
       Ioctl.DecodeSrvCopyChunkCopy input maxCopyChunkCount = Ok cc /\
       (exists e, byKey keys !! Ioctl.SourceKey cc = Some e /\ k_sess e = sess /\ opens (k_open e) = Some s) /\
       co_file s = Some src /\ Z.land (co_granted s) copyChunkReadAccess <> 0 /\
       len (Ioctl.Chunks cc) <= maxCopyChunkCount /\ sum_lengths (Ioctl.Chunks cc) <= maxCopyChunkTotal /\
       Forall (fits_chunk (len (contents d src))) (Ioctl.Chunks cc) /\
       (src <> dst \/ Forall apart_chunk (Ioctl.Chunks cc)) /\
       body = Some b /\ loop_result dst src (Ioctl.Chunks cc) 0 0 d d' st b).
Proof.
  assert (Hrefuse : forall (st : Z) (ob : option bytes) (P : disk -> Z -> option bytes -> Prop), st <> StatusSuccess ->
    exists d' st' body, Some (d, (st, ob)) = Some (d', (st', body)) /\
      ((st' <> StatusSuccess /\ d' = d) \/ P d' st' body))
    by (intros st ob P ?; exists d, st, ob; tauto).
  unfold handleCopyChunk. destruct target as [t|]; [|by apply Hrefuse].
  destruct (co_file t) as [dst|] eqn:Htf; [|by apply Hrefuse].
  destruct (_ || _ || _); [by apply Hrefuse|].
  destruct (co_treeReadOnly t) eqn:Hro; [by apply Hrefuse|].
  destruct (Z.eqb_spec (Z.land (co_granted t) copyChunkWriteAccess) 0) as [|Hgw]; [by apply Hrefuse|].
  destruct (_ && _); [by apply Hrefuse|].
  destruct (Ioctl.DecodeSrvCopyChunkCopy input maxCopyChunkCount) as [cc|e|] eqn:Hdec; [|by apply Hrefuse..].
  destruct (resolve keys (Ioctl.SourceKey cc) sess ≫= opens) as [s|] eqn:Hres; [|by apply Hrefuse].
  destruct (co_file s) as [src|] eqn:Hsf; [|by apply Hrefuse].
  destruct (_ || _ || _); [by apply Hrefuse|].
  destruct (Z.eqb_spec (Z.land (co_granted s) copyChunkReadAccess) 0) as [|Hgr]; [by apply Hrefuse|].
  destruct srcStat as [e|]; [by apply Hrefuse, statusFromErr_not_success|].
  apply DecodeSrvCopyChunkCopy_wire in Hdec as Hw. destruct Hw as [Hw Hcount].
  unfold validateCopyChunks. destruct (check_sizes (Ioctl.Chunks cc) 0) eqn:Hsz; [|by apply Hrefuse].
  apply check_sizes_spec in Hsz as [Hl Hsum]; [|done|unfold maxCopyChunkTotal; lia].
  destruct (check_ranges _ _) as [st ok] eqn:Hrg. apply check_ranges_spec in Hrg; [|done..].
  destruct ok; [|destruct (Z.eqb_spec st StatusInvalidParameter); by apply Hrefuse].
  destruct (sameUnderlyingFile true src dst && _) eqn:Hov; [by apply Hrefuse|].
  assert (Hap : src <> dst \/ Forall apart_chunk (Ioctl.Chunks cc)).
  { apply andb_false_iff in Hov as [Hov|Hov]; [left; by apply Z.eqb_neq in Hov|right].
    by eapply chunksOverlap_spec. }
  destruct (copy_loop_spec scr dst src (Ioctl.Chunks cc) 0 0 0 d) as (d' & st' & body & -> & Hr); try done.
  { unfold maxCopyChunkCount in *. lia. } { unfold maxCopyChunkTotal in *. lia. }
  exists d', st', (Some body). split; [done|]. right. exists t, dst, s, src, cc, body.
  split_and!; try done; [|lia].
  unfold resolve in Hres. destruct (byKey keys !! Ioctl.SourceKey cc) as [e|]; [|done].
  destruct (Z.eqb_spec (k_sess e) sess); [|done]. by exists e.
Qed.

(** ** Resume keys over time *)

Inductive keyOp :=
  | Issue (sess open : Z) (random : option bytes)
  | ReleaseKey (open : Z)
  | Clear.

Definition exec_key (t : resumeKeyTable) (a : keyOp) : resumeKeyTable :=
  match a with
  | Issue sess open random => (issue t sess open random).1
  | ReleaseKey open => releaseKey t open
  | Clear => clear t
  end.

(** 24 random bytes are not a key in use. *)
Definition fresh_key (t : resumeKeyTable) (a : keyOp) : Prop :=
  match a with Issue _ _ (Some key) => byKey t !! key = None | _ => True end.

Inductive key_trace : resumeKeyTable -> Prop :=
  | key_new : key_trace noKeys
  | key_step t a : key_trace t -> fresh_key t a -> key_trace (exec_key t a).

(** The two maps are inverse to each other. *)
Definition KInv (t : resumeKeyTable) : Prop :=
  (forall o key, byOpen t !! o = Some key -> exists s, byKey t !! key = Some (mkKeyEntry o s)) /\
  (forall key e, byKey t !! key = Some e -> byOpen t !! k_open e = Some key).

Lemma KInv_delete t o key : KInv t -> byOpen t !! o = Some key ->
  KInv (mkKeys (delete key (byKey t)) (delete o (byOpen t))).
Proof.
  intros [H1 H2] Ho. destruct (H1 o key Ho) as [s Hk]. split; simpl.
  - intros o' key' Hl. apply lookup_delete_Some in Hl as [Hne Hl]. destruct (H1 o' key' Hl) as [s' Hs].
    exists s'. rewrite lookup_delete_ne; [done|]. intros <-. rewrite Hk in Hs. congruence.
  - intros key' e Hl. apply lookup_delete_Some in Hl as [Hne Hl]. apply H2 in Hl as Hb.
    rewrite lookup_delete_ne; [done|]. intros He. congruence.
Qed.

Lemma KInv_insert t o s key : KInv t -> byOpen t !! o = None -> byKey t !! key = None ->
  KInv (mkKeys (<[key := mkKeyEntry o s]> (byKey t)) (<[o := key]> (byOpen t))).
Proof.
  intros [H1 H2] Ho Hk. split; simpl.
  - intros o' key' Hl. apply lookup_insert_Some in Hl as [[<- <-]|[Hne Hl]].
    + exists s. by rewrite lookup_insert_eq.
    + destruct (H1 o' key' Hl) as [s' Hs]. exists s'. rewrite lookup_insert_ne; [done|congruence].
  - intros key' e Hl. apply lookup_insert_Some in Hl as [[<- <-]|[Hne Hl]].
    + simpl. by rewrite lookup_insert_eq.
    + apply H2 in Hl. rewrite lookup_insert_ne; [done|congruence].
Qed.

Lemma KInv_release t o : KInv t -> KInv (releaseKey t o).
Proof. intros Hi. unfold releaseKey. destruct (byOpen t !! o) eqn:Ho; [by apply KInv_delete|done]. Qed.

(** [issue] re-issues the key the session has, or drops the handle's key and
    mints a fresh one. *)
Lemma issue_cases t sess open random : KInv t ->
  (exists key, byOpen t !! open = Some key /\ byKey t !! key = Some (mkKeyEntry open sess) /\
     issue t sess open random = (t, Some key)) \/
  issue t sess open random =
    match random with
    | None => (releaseKey t open, None)
    | Some key => (mkKeys (<[key := mkKeyEntry open sess]> (byKey (releaseKey t open)))
                          (<[open := key]> (byOpen (releaseKey t open))), Some key)
    end.
Proof.
  intros [H1 H2]. unfold issue, releaseKey. destruct (byOpen t !! open) as [key|] eqn:Ho; [|by right].
  destruct (H1 open key Ho) as [s Hk]. rewrite Hk. simpl. destruct (Z.eqb_spec s sess) as [->|]; [left|by right].
  by exists key.
Qed.

Lemma byOpen_release t o : byOpen (releaseKey t o) !! o = None.
Proof. unfold releaseKey. destruct (byOpen t !! o) eqn:Ho; [simpl; by rewrite lookup_delete_eq|done]. Qed.

Lemma byKey_release t o key : byKey t !! key = None -> byKey (releaseKey t o) !! key = None.
Proof.
  intros Hk. unfold releaseKey. destruct (byOpen t !! o) as [k|]; [simpl|done].
  destruct (decide (k = key)) as [->|]; [by rewrite lookup_delete_eq|by rewrite lookup_delete_ne].
Qed.

Lemma KInv_trace t : key_trace t -> KInv t.
Proof.
  induction 1 as [|t a _ Hi Hf]; [split; intros ? ?; by rewrite ?lookup_empty|]. destruct a as [sess o random|o|]; simpl.
  - destruct (issue_cases t sess o random Hi) as [(key & _ & _ & ->)| ->]; [done|].
    destruct random as [key|]; simpl in *; [|by apply KInv_release].
    apply KInv_insert; [by apply KInv_release|apply byOpen_release|by apply byKey_release].
  - by apply KInv_release.
  - split; intros ? ?; by rewrite ?lookup_empty.
Qed.

(** A resume key is a capability of one session for one open handle: a key
    that resolves was issued to that session for that handle, which has no other
    key; asking again gives the same key; and once the handle is released no key
    resolves to it, for any session. *)
Theorem resume_keys_scoped (t : resumeKeyTable) (key : bytes) (sess sess' o : Z) (random : option bytes) :
  key_trace t -> resolve t key sess = Some o ->
  byOpen t !! o = Some key /\ issue t sess o random = (t, Some key) /\
  (sess' <> sess -> resolve t key sess' = None) /\
  forall key' s, resolve (releaseKey t o) key' s <> Some o.
Proof.
  intros Ht Hr. apply KInv_trace in Ht as Hi. unfold resolve in Hr.
  destruct (byKey t !! key) as [[o' s]|] eqn:Hk; [|done]. simpl in Hr.
  destruct (Z.eqb_spec s sess) as [->|]; [|done]. injection Hr as ->.
  pose proof (proj2 Hi key _ Hk) as Ho. simpl in Ho. split_and!.
  - done.
  - destruct (issue_cases t sess o random Hi) as [(key' & Ho' & _ & ->)|He]; [congruence|].
    unfold issue. rewrite Ho, Hk. simpl. by rewrite Z.eqb_refl.
  - intros Hne. unfold resolve. rewrite Hk. simpl. by destruct (Z.eqb_spec sess sess').
  - intros key' s Hs. unfold resolve in Hs. destruct (byKey (releaseKey t o) !! key') as [e|] eqn:He; [|done].
    apply (KInv_release t o Hi) in He. destruct (negb _); [done|]. injection Hs as Hs.
    rewrite Hs, byOpen_release in He. done.
Qed.

(** ** Examples *)

Definition ex_key : bytes := replicate 24 Byte.x07.
Definition ex_keys : resumeKeyTable := exec_key noKeys (Issue 1 10 (Some ex_key)).

Lemma resume_keys_scoped_witness :
  byOpen ex_keys !! 10 = Some ex_key /\ resolve ex_keys ex_key 2 = None.
Proof.
  destruct (resume_keys_scoped ex_keys ex_key 1 2 10 None) as (H1 & _ & H2 & _).
  - apply key_step; [constructor|reflexivity].
  - vm_compute. reflexivity.
  - split; [exact H1|apply H2; lia].
Defined.

(** Handle 10 reads inode 1; the IOCTL is issued on a handle of inode 2. *)
Definition ex_source : copyOpen := mkCopyOpen 10 (Some 1) false false false AccessFileReadData false.
Definition ex_target : copyOpen := mkCopyOpen 11 (Some 2) false false false AccessFileWriteData false.
Definition ex_disk : disk := {[ 1 := [Byte.x61; Byte.x62; Byte.x63; Byte.x64] ]}.
Definition ex_input : bytes :=
  writes (zeros 56) [(0, ex_key); (24, le_split 4 1); (32, le_split 8 1); (40, le_split 8 2); (48, le_split 4 3)].

Lemma copychunk_spec_witness : exists d' body,
  handleCopyChunk Ioctl.FsctlSrvCopyChunkWrite (Some ex_target) ex_input ex_keys 1
    (fun o => if o =? 10 then Some ex_source else None) None true
    (fun _ => (fun c => if decide (c = 0)%nat then KCopied 2 else KFails K_EXDEV, fun _ => ReadAll, fun _ => WriteAll)) ex_disk
  = Some (d', (StatusSuccess, body)) /\ contents d' 2 = [Byte.x00; Byte.x00; Byte.x62; Byte.x63; Byte.x64].
Proof.
  destruct (copychunk_spec Ioctl.FsctlSrvCopyChunkWrite (Some ex_target) ex_input ex_keys 1
    (fun o => if o =? 10 then Some ex_source else None) None
    (fun _ => (fun c => if decide (c = 0)%nat then KCopied 2 else KFails K_EXDEV, fun _ => ReadAll, fun _ => WriteAll))
    ex_disk) as (d' & st & body & He & _).
  - intros ino. unfold contents, ex_disk. destruct (decide (ino = 1)) as [->|].
    + rewrite lookup_singleton_eq. vm_compute. discriminate.
    + rewrite lookup_singleton_ne by done. vm_compute. discriminate.
  - exists d', body. assert (Hst : st = StatusSuccess).
    { match type of He with ?l = _ => let v := eval vm_compute in (match l with Some (_, (s, _)) => s | None => 0 end) in
        assert (Hv : match l with Some (_, (s, _)) => s | None => 0 end = v) by (vm_compute; reflexivity) end.
      rewrite He in Hv. rewrite Hv. reflexivity. }
    subst st. split; [exact He|].
    match type of He with ?l = _ =>
      assert (Hv : match l with Some (d, _) => contents d 2 | None => [] end = [Byte.x00; Byte.x00; Byte.x62; Byte.x63; Byte.x64])
        by (vm_compute; reflexivity) end.
    rewrite He in Hv. exact Hv.
Defined.
End CopyChunk.
