(* ===== verification/Vfs.v ===== *)
(** Path containment: [internal/vfs/path.go] over the standard library's
    [path/filepath] on a system whose separator is [/].

    A path is its bytes.  What the file system answers to [lstat] and to
    [filepath.EvalSymlinks] is a parameter of the functions that ask it. *)

From S2P Require Import Prelude.

Module Vfs.

Definition slash : Byte.byte := Byte.x2f.
Definition backslash : Byte.byte := Byte.x5c.
Definition dot : bytes := [Byte.x2e].
Definition dotdot : bytes := [Byte.x2e; Byte.x2e].

(** ** [strings] and [path/filepath] *)

(** [strings.Split(s, "/")] *)
Fixpoint Split (s : bytes) : list bytes :=
  match s with
  | [] => [[]]
  | c :: s =>
      if bool_decide (c = slash) then [] :: Split s
      else match Split s with
           | x :: xs => (c :: x) :: xs
           | [] => [[c]]
           end
  end.

(** [strings.Join(l, "/")] *)
Fixpoint JoinWith (l : list bytes) : bytes :=
  match l with
  | [] => []
  | [x] => x
  | x :: l => x ++ slash :: JoinWith l
  end.

Fixpoint HasPrefix (s prefix : bytes) : bool :=
  match prefix, s with
  | [], _ => true
  | p :: prefix, c :: s => bool_decide (c = p) && HasPrefix s prefix
  | _ :: _, [] => false
  end.

Definition ReplaceBackslash (s : bytes) : bytes := map (fun c => if bool_decide (c = backslash) then slash else c) s.

Definition TrimSlash (s : bytes) : bytes :=
  match s with c :: t => if bool_decide (c = slash) then t else s | [] => [] end.

Definition rooted (s : bytes) : bool := match s with c :: _ => bool_decide (c = slash) | [] => false end.

(** [filepath.Clean]: the components kept so far are a stack, last one first.
    Empty components and [.] are dropped; [..] removes the component before it,
    is dropped at the root and kept at the start of a relative path. *)
Definition clean_step (abs : bool) (acc : list bytes) (c : bytes) : list bytes :=
  if bool_decide (c = []) || bool_decide (c = dot) then acc else
  if bool_decide (c = dotdot) then
    match acc with
    | top :: rest => if bool_decide (top = dotdot) then c :: acc else rest
    | [] => if abs then [] else [c]
    end
  else c :: acc.

Definition clean_comps (abs : bool) (l : list bytes) : list bytes := rev (fold_left (clean_step abs) l []).

Definition Clean (path : bytes) : bytes :=
  if rooted path then slash :: JoinWith (clean_comps true (Split path)) else
  match JoinWith (clean_comps false (Split path)) with [] => dot | out => out end.

(** [filepath.Join] of two elements. *)
Definition Join (a b : bytes) : bytes :=
  match a, b with
  | [], [] => []
  | [], _ => Clean b
  | _, [] => Clean a
  | _, _ => Clean (a ++ slash :: b)
  end.

(** [path[:i+1]], [i] the last separator. *)
Fixpoint upto_last_slash (s : bytes) : bytes :=
  match s with
  | [] => []
  | c :: s =>
      if bool_decide (slash ∈ s) then c :: upto_last_slash s
      else if bool_decide (c = slash) then [c] else []
  end.

(** [filepath.Dir] *)
Definition Dir (path : bytes) : bytes := Clean (upto_last_slash path).

(** ** [internal/vfs/path.go] *)

Inductive vfsErr := ErrTraversal | ErrDanglingLink.

Definition Resolve (root smbPath : bytes) : bytes + vfsErr :=
  let root := Clean root in
  let p := TrimSlash (ReplaceBackslash smbPath) in
  match p with
  | [] => inl root
  | _ =>
      let full := Clean (Join root p) in
      if negb (bool_decide (full = root)) && negb (HasPrefix full (root ++ [slash]))
      then inr ErrTraversal else inl full
  end.

Definition contained (canonRoot p : bytes) : bool :=
  bool_decide (p = canonRoot) || HasPrefix p (canonRoot ++ [slash]).

Inductive lstatAnswer := LExists | LNotExist | LOther.
Inductive evalAnswer := EPath (p : bytes) | ENotExist | EFails.

Section Secure.
Context (Lstat : bytes -> lstatAnswer) (EvalSymlinks : bytes -> evalAnswer).

(** The loop of step 3: the deepest ancestor that exists, or [None] when the
    check ends there because nothing can be followed. *)
Fixpoint deepest (fuel : nat) (checkPath : bytes) : option (option bytes) :=
  match fuel with
  | O => None
  | S fuel =>
      match Lstat checkPath with
      | LExists => Some (Some checkPath)
      | LOther => Some None
      | LNotExist =>
          let parent := Dir checkPath in
          if bool_decide (parent = checkPath) then Some None else deepest fuel parent
      end
  end.

(** Steps 4 and 5. *)
Definition check_real (canonRoot lexical checkPath : bytes) : bytes + vfsErr :=
  match EvalSymlinks checkPath with
  | ENotExist =>
      match EvalSymlinks (Dir checkPath) with
      | EPath parent => if contained canonRoot (Clean parent) then inr ErrDanglingLink else inr ErrTraversal
      | _ => inr ErrTraversal
      end
  | EFails => inr ErrTraversal
  | EPath real => if contained canonRoot (Clean real) then inl lexical else inr ErrTraversal
  end.

(** [None]: the walk to the deepest existing ancestor does not end; see
    [resolve_secure_contained]. *)
Definition ResolveSecure (root smbPath : bytes) : option (bytes + vfsErr) :=
  match Resolve root smbPath with
  | inr e => Some (inr e)
  | inl lexical =>
      match EvalSymlinks root with
      | EPath canonRoot =>
          match deepest (S (length lexical)) lexical with
          | None => None
          | Some None => Some (inl lexical)
          | Some (Some checkPath) => Some (check_real (Clean canonRoot) lexical checkPath)
          end
      | _ => Some (inl lexical)
      end
  end.

Definition ResolveLink (root path : bytes) : bytes + vfsErr :=
  match EvalSymlinks (Clean root) with
  | EPath canonRoot =>
      match EvalSymlinks path with
      | EPath target => if contained (Clean canonRoot) (Clean target) then inl (Clean target) else inr ErrTraversal
      | ENotExist => inr ErrDanglingLink
      | EFails => inr ErrTraversal
      end
  | _ => inr ErrTraversal
  end.
End Secure.

(** ** Components *)

(** A name a directory entry can have, other than the two dots. *)
Definition good (c : bytes) : Prop := c <> [] /\ c <> dot /\ c <> dotdot /\ slash ∉ c.

Lemma Split_nonempty s : Split s <> [].
Proof. destruct s as [|c s]; simpl; [done|]. case_bool_decide; [done|]. by destruct (Split s). Qed.

Lemma Split_noslash (c : bytes) : slash ∉ c -> Split c = [c].
Proof.
  induction c as [|b c IH]; intros H; [done|]. apply not_elem_of_cons in H as [Hb Hc]. simpl.
  rewrite bool_decide_false by done. by rewrite IH.
Qed.

Lemma Split_app_slash (a b : bytes) : Split (a ++ slash :: b) = Split a ++ Split b.
Proof.
  induction a as [|c a IH]; simpl; [done|]. case_bool_decide; [by rewrite IH|].
  rewrite IH. destruct (Split a) as [|x xs] eqn:Ha; [by apply Split_nonempty in Ha|done].
Qed.

Lemma Split_comps s : Forall (fun c => slash ∉ c) (Split s).
Proof.
  induction s as [|c s IH]; simpl; [repeat constructor; by apply not_elem_of_nil|].
  case_bool_decide; [constructor; [by apply not_elem_of_nil|done]|].
  destruct (Split s) as [|x xs] eqn:Hs; [by apply Split_nonempty in Hs|]. apply Forall_cons in IH as [Hx Hxs].
  constructor; [|done]. apply not_elem_of_cons. split; [congruence|done].
Qed.

Lemma JoinWith_cons x l : l <> [] -> JoinWith (x :: l) = x ++ slash :: JoinWith l.
Proof. by destruct l. Qed.

Lemma JoinWith_app l1 l2 : l1 <> [] -> l2 <> [] -> JoinWith (l1 ++ l2) = JoinWith l1 ++ slash :: JoinWith l2.
Proof.
  induction l1 as [|x l1 IH]; intros H1 H2; [done|]. destruct l1 as [|y l1].
  - simpl. by destruct l2.
  - cbn [app]. rewrite JoinWith_cons by done. change (y :: l1 ++ l2) with ((y :: l1) ++ l2).
    rewrite IH by done. rewrite (JoinWith_cons x (y :: l1)) by done. by rewrite <- app_assoc.
Qed.

Lemma Split_JoinWith l : l <> [] -> Forall (fun c => slash ∉ c) l -> Split (JoinWith l) = l.
Proof.
  induction l as [|x l IH]; intros Hn Hf; [done|]. apply Forall_cons in Hf as [Hx Hf].
  destruct l as [|y l]; [simpl; by apply Split_noslash|].
  rewrite JoinWith_cons, Split_app_slash, Split_noslash, IH by done. done.
Qed.

Lemma clean_step_good acc c : Forall good acc -> slash ∉ c -> Forall good (clean_step true acc c).
Proof.
  intros Ha Hc. unfold clean_step. repeat (case_bool_decide; simpl; try done).
  - destruct acc as [|top rest]; [done|]. apply Forall_cons in Ha as [Ht Ha].
    rewrite bool_decide_false; [done|apply Ht].
  - constructor; [|done]. by split_and!.
Qed.

Lemma clean_fold_good l acc : Forall good acc -> Forall (fun c => slash ∉ c) l ->
  Forall good (fold_left (clean_step true) l acc).
Proof.
  intros Ha Hl. revert acc Ha. induction Hl as [|c l Hc Hl IH]; intros acc Ha; [done|].
  simpl. apply IH. by apply clean_step_good.
Qed.

Lemma clean_comps_good l : Forall (fun c => slash ∉ c) l -> Forall good (clean_comps true l).
Proof. intros Hl. apply Forall_rev, clean_fold_good; [constructor|done]. Qed.

Lemma clean_fold_id l acc : Forall good l -> fold_left (clean_step true) l acc = rev l ++ acc.
Proof.
  intros Hl. revert acc. induction Hl as [|c l (H1 & H2 & H3 & H4) Hl IH]; intros acc; [done|].
  simpl. rewrite IH. unfold clean_step. rewrite !bool_decide_false by done. simpl. by rewrite <- app_assoc.
Qed.

Lemma good_noslash l : Forall good l -> Forall (fun c => slash ∉ c) l.
Proof. intros Hl. eapply Forall_impl; [exact Hl|]. by intros c (_ & _ & _ & ?). Qed.

(** [path] names the absolute location [cs]. *)
Definition abs_path (cs : list bytes) : bytes := slash :: JoinWith cs.

Lemma Split_abs cs : Forall good cs -> Split (abs_path cs) = [] :: match cs with [] => [[]] | _ => cs end.
Proof.
  intros Hg. unfold abs_path. cbn [Split]. rewrite bool_decide_true by done. f_equal.
  destruct cs as [|c cs]; [done|]. apply Split_JoinWith; [done|by apply good_noslash].
Qed.

Lemma Clean_abs cs : Forall good cs -> Clean (abs_path cs) = abs_path cs.
Proof.
  intros Hg. unfold Clean. change (rooted (abs_path cs)) with (bool_decide (slash = slash)).
  rewrite bool_decide_true, Split_abs by done. unfold clean_comps. cbn [fold_left].
  change (clean_step true [] []) with (@nil bytes). destruct cs as [|c cs]; [done|].
  by rewrite clean_fold_id, app_nil_r, rev_involutive.
Qed.

Lemma Clean_rooted p : rooted p = true -> exists cs, Forall good cs /\ Clean p = abs_path cs.
Proof.
  intros Hr. unfold Clean. rewrite Hr. exists (clean_comps true (Split p)).
  split; [apply clean_comps_good, Split_comps|done].
Qed.

Lemma HasPrefix_spec s p : HasPrefix s p = true <-> exists t, s = p ++ t.
Proof.
  revert s. induction p as [|b p IH]; intros s; [split; [by exists s|by destruct s]|].
  destruct s as [|c s]; simpl; [split; [done|by intros [t Ht]]|].
  rewrite andb_true_iff, bool_decide_eq_true, IH. split.
  - intros [-> [t ->]]. by exists t.
  - intros [t [= -> ->]]. split; [done|by exists t].
Qed.

Lemma JoinWith_nil_inv l : Forall good l -> JoinWith l = [] -> l = [].
Proof.
  intros Hl. destruct Hl as [|c l (Hc & _) _]; [done|]. destruct l; simpl; [done|]. by destruct c.
Qed.

(** A byte prefix up to a separator is a prefix of components. *)
Lemma abs_path_prefix R cs : Forall good R -> Forall good cs ->
  HasPrefix (abs_path cs) (abs_path R ++ [slash]) = true <-> R <> [] /\ exists l, l <> [] /\ cs = R ++ l.
Proof.
  intros HR Hcs. rewrite HasPrefix_spec. split.
  - intros [t Ht]. unfold abs_path in Ht. injection Ht as Ht. rewrite <- app_assoc in Ht. simpl in Ht.
    destruct R as [|r R].
    { simpl in Ht. exfalso. destruct Hcs as [|c cs (Hc & _ & _ & Hs) _]; [done|].
      assert (Hh : head (JoinWith (c :: cs)) = head c) by (destruct c; [done|by destruct cs]).
      rewrite Ht in Hh. destruct c as [|b c]; [done|]. injection Hh as <-. apply Hs. by left. }
    split; [done|]. exists (Split t). split; [apply Split_nonempty|].
    rewrite <- (Split_JoinWith (r :: R)), <- Split_app_slash, <- Ht by (done || by apply good_noslash).
    symmetry. apply Split_JoinWith; [|by apply good_noslash]. intros ->. by apply app_cons_not_nil in Ht.
  - intros (HR0 & l & Hl & ->). exists (JoinWith l). unfold abs_path. rewrite JoinWith_app by done.
    simpl. by rewrite <- app_assoc.
Qed.

(** ** Resolve *)

Lemma rooted_Join root p : rooted root = true -> p <> [] -> rooted (root ++ slash :: p) = true /\
  Join root p = Clean (root ++ slash :: p).
Proof. intros Hr Hp. destruct root as [|c root]; [done|]. destruct p as [|b p]; [done|]. done. Qed.

Lemma full_path root p : rooted root = true -> p <> [] ->
  exists cs, Forall good cs /\ Clean (Join (Clean root) p) = abs_path cs.
Proof.
  intros Hr Hp. destruct (Clean_rooted root Hr) as (R & HR & ->).
  destruct (rooted_Join (abs_path R) p) as [Hrr ->]; [by apply bool_decide_true|done|].
  destruct (Clean_rooted _ Hrr) as (cs & Hcs & ->). exists cs. split; [done|by apply Clean_abs].
Qed.

(** The components of the request, as the server reads them. *)
Definition request (smbPath : bytes) : bytes := TrimSlash (ReplaceBackslash smbPath).

Lemma resolve_shape root smbPath R : rooted root = true -> Forall good R -> Clean root = abs_path R ->
  (exists cs, Forall good cs /\ Resolve root smbPath = inl (abs_path (R ++ cs))) \/
  Resolve root smbPath = inr ErrTraversal.
Proof.
  intros Hr HR HC. unfold Resolve. fold (request smbPath).
  destruct (request smbPath) as [|b p] eqn:Hq; [left; exists []; by rewrite app_nil_r, HC|].
  destruct (full_path root (b :: p) Hr ltac:(done)) as (cs & Hcs & ->). rewrite HC.
  destruct (negb _ && negb _) eqn:Hn; [by right|left]. apply andb_false_iff in Hn as [Hn|Hn]; apply negb_false_iff in Hn.
  - apply bool_decide_eq_true in Hn. rewrite Hn. exists []. by rewrite app_nil_r.
  - apply abs_path_prefix in Hn as (_ & l & _ & ->); [|done..]. apply Forall_app in Hcs as [_ Hl]. by exists l.
Qed.

(** Containment.  Whatever a client asks for, [Resolve] answers a path whose
    components are the root's followed by ordinary names (no empty component, no
    dot, no dot-dot), or refuses; the root itself is the only other answer.  And
    it refuses nothing it should not: when the root is not the root of the file
    system, a request made of ordinary names resolves to that location. *)
Theorem resolve_contained (root smbPath : bytes) (R : list bytes) :
  rooted root = true -> Forall good R -> Clean root = abs_path R ->
  match Resolve root smbPath with
  | inl full => exists cs, Forall good cs /\ full = abs_path (R ++ cs)
  | inr e => e = ErrTraversal
  end /\
  forall cs, cs <> [] -> Forall good cs -> R <> [] -> request smbPath = JoinWith cs ->
    Resolve root smbPath = inl (abs_path (R ++ cs)).
Proof.
  intros Hr HR HC. split.
  { destruct (resolve_shape root smbPath R Hr HR HC) as [(cs & Hcs & ->)| ->]; [by exists cs|done]. }
  unfold Resolve. fold (request smbPath).
  intros cs Hne Hg HRn ->. assert (Hj : JoinWith cs <> []) by (intros Hj; by apply JoinWith_nil_inv in Hj).
    destruct (JoinWith cs) as [|b p] eqn:Hp; [done|]. rewrite HC.
    assert (Hfull : Clean (Join (abs_path R) (b :: p)) = abs_path (R ++ cs)).
    { destruct (rooted_Join (abs_path R) (b :: p)) as [_ ->]; [by apply bool_decide_true|done|].
      assert (He : abs_path R ++ slash :: b :: p = abs_path (R ++ cs)).
      { unfold abs_path. rewrite <- Hp, JoinWith_app by done. done. }
      rewrite He. assert (Hall : Forall good (R ++ cs)) by by apply Forall_app. by rewrite !Clean_abs. }
    rewrite Hfull. replace (HasPrefix (abs_path (R ++ cs)) (abs_path R ++ [slash])) with true.
    { simpl. by rewrite andb_false_r. }
    symmetry. apply abs_path_prefix; [done|by apply Forall_app|]. split; [done|by exists cs].
Qed.

(** A share whose root is the root of the file system serves nothing but
    that root: the prefix test compares with two separators, so every request
    that names something under it is refused as a traversal. *)
Theorem root_share_refuses (smbPath : bytes) (cs : list bytes) :
  cs <> [] -> Forall good cs -> request smbPath = JoinWith cs -> Resolve [slash] smbPath = inr ErrTraversal.
Proof.
  intros Hne Hg Hq. unfold Resolve. change (Clean [slash]) with (abs_path []). fold (request smbPath). rewrite Hq.
  assert (Hj : JoinWith cs <> []) by (intros Hj; by apply JoinWith_nil_inv in Hj).
  destruct (JoinWith cs) as [|b p] eqn:Hp; [done|].
  destruct (rooted_Join (abs_path []) (b :: p)) as [_ ->]; [done..|].
  assert (He : Clean (abs_path [] ++ slash :: b :: p) = abs_path cs).
  { rewrite <- Hp. unfold Clean. change (rooted (abs_path [] ++ slash :: JoinWith cs)) with true. cbn iota.
    unfold abs_path. change (JoinWith []) with (@nil Byte.byte). cbn [app Split]. rewrite !bool_decide_true by done.
    rewrite Split_JoinWith by (done || by apply good_noslash). unfold clean_comps. cbn [fold_left].
    change (clean_step true (clean_step true [] []) []) with (@nil bytes).
    by rewrite clean_fold_id, app_nil_r, rev_involutive. }
  rewrite He, Clean_abs by done. rewrite bool_decide_false.
  2: { unfold abs_path. rewrite Hp. done. }
  replace (HasPrefix (abs_path cs) (abs_path [] ++ [slash])) with false; [done|]. symmetry.
  apply not_true_iff_false. rewrite abs_path_prefix by (done || constructor). by intros [? _].
Qed.

(** ** ResolveSecure *)

Lemma contained_spec C P : Forall good C -> Forall good P ->
  contained (abs_path C) (abs_path P) = true -> exists l, P = C ++ l.
Proof.
  intros HC HP Hc. apply orb_prop in Hc as [Hc|Hc].
  - apply bool_decide_eq_true in Hc. exists []. rewrite app_nil_r.
    unfold abs_path in Hc. injection Hc as Hc.
    destruct (decide (P = [])) as [->|HPn].
    { destruct (decide (C = [])) as [->|]; [done|]. symmetry in Hc. by apply JoinWith_nil_inv in Hc. }
    destruct (decide (C = [])) as [->|HCn]; [by apply JoinWith_nil_inv in Hc|].
    rewrite <- (Split_JoinWith P), Hc by (done || by apply good_noslash).
    apply Split_JoinWith; [done|by apply good_noslash].
  - apply abs_path_prefix in Hc as (_ & l & _ & ->); [|done..]. by exists l.
Qed.

Lemma upto_last_slash_app a c : slash ∉ c -> upto_last_slash (a ++ slash :: c) = a ++ [slash].
Proof.
  intros Hc. induction a as [|x a IH]; cbn [app upto_last_slash].
  - by rewrite bool_decide_false, bool_decide_true.
  - rewrite bool_decide_true, IH; [done|]. apply elem_of_app. right. by left.
Qed.

(** The parent of a location. *)
Lemma Dir_abs cs c : Forall good (cs ++ [c]) -> Dir (abs_path (cs ++ [c])) = abs_path cs.
Proof.
  intros Hg. apply Forall_app in Hg as [Hcs Hc]. apply Forall_singleton in Hc as (H1 & H2 & H3 & H4). unfold Dir.
  destruct (decide (cs = [])) as [->|Hn].
  { change (abs_path ([] ++ [c])) with ([] ++ slash :: c). by rewrite upto_last_slash_app. }
  unfold abs_path at 1. rewrite JoinWith_app by done. change (JoinWith [c]) with c.
  rewrite app_comm_cons, upto_last_slash_app by done. fold (abs_path cs).
  assert (Hs : Split (abs_path cs ++ [slash]) = [] :: cs ++ [[]]).
  { rewrite Split_app_slash, Split_abs by done. by destruct cs. }
  unfold Clean. change (rooted (abs_path cs ++ [slash])) with true. cbn iota. rewrite Hs.
  unfold clean_comps. cbn [fold_left]. rewrite fold_left_app. change (clean_step true [] []) with (@nil bytes).
  rewrite (clean_fold_id cs []), app_nil_r by done. cbn [fold_left]. unfold clean_step at 1. simpl.
  by rewrite rev_involutive.
Qed.

Lemma Dir_root : Dir (abs_path []) = abs_path [].
Proof. vm_compute. reflexivity. Qed.

Lemma length_abs_snoc cs c : (length (abs_path cs) < length (abs_path (cs ++ [c])) \/ c = [])%nat.
Proof.
  destruct (decide (c = [])); [by right|left]. unfold abs_path. simpl. destruct (decide (cs = [])) as [->|].
  - simpl. destruct c; [done|simpl; lia].
  - rewrite JoinWith_app by done. rewrite length_app. simpl. lia.
Qed.

(** The walk ends, at the deepest ancestor that exists. *)
Definition walk_result (Lstat : bytes -> lstatAnswer) (cs : list bytes) (r : option bytes) : Prop :=
  match r with
  | Some p => exists k, (k <= length cs)%nat /\ p = abs_path (take k cs) /\ Lstat p = LExists /\
      forall j, (k < j <= length cs)%nat -> Lstat (abs_path (take j cs)) = LNotExist
  | None => Lstat (abs_path []) = LNotExist \/ exists k, Lstat (abs_path (take k cs)) = LOther
  end.

Lemma walk_result_snoc Lstat cs c r : Lstat (abs_path (cs ++ [c])) = LNotExist ->
  walk_result Lstat cs r -> walk_result Lstat (cs ++ [c]) r.
Proof.
  intros Hl. assert (Htk : forall j, (j <= length cs)%nat -> take j (cs ++ [c]) = take j cs)
    by (intros; by apply take_app_le).
  destruct r as [p|]; simpl; rewrite ?length_app.
  - intros (k & Hk & -> & He & Hj). exists k. rewrite Htk by done. split_and!; [lia|done|done|].
    intros j Hjk. destruct (decide (j <= length cs)%nat); [rewrite Htk by done; apply Hj; lia|].
    rewrite take_ge by (rewrite length_app; simpl in *; lia). done.
  - intros [|[k Hk]]; [by left|right]. exists (min k (length cs)). rewrite Htk by lia.
    destruct (decide (k <= length cs)%nat); [by rewrite Nat.min_l by done|].
    rewrite Nat.min_r by lia. rewrite take_ge in Hk by lia. by rewrite take_ge.
Qed.

Lemma deepest_spec (Lstat : bytes -> lstatAnswer) fuel cs : Forall good cs -> (length (abs_path cs) < fuel)%nat ->
  exists r, deepest Lstat fuel (abs_path cs) = Some r /\ walk_result Lstat cs r.
Proof.
  revert cs. induction fuel as [|fuel IH]; intros cs Hg Hf; [lia|]. cbn [deepest].
  destruct (Lstat (abs_path cs)) eqn:Hl.
  - eexists. split; [done|]. exists (length cs). rewrite firstn_all. split_and!; [done..|lia].
  - destruct (decide (cs = [])) as [->|Hne].
    { rewrite Dir_root, bool_decide_true by done. eexists. split; [done|by left]. }
    destruct (exists_last Hne) as (init & c & ->).
    rewrite Dir_abs by done. apply Forall_app in Hg as Hg2. destruct Hg2 as [Hi Hc]. rewrite Forall_singleton in Hc.
    assert (Hlt : (length (abs_path init) < length (abs_path (init ++ [c])))%nat).
    { destruct (length_abs_snoc init c) as [|He]; [done|]. by destruct Hc as [Hc _]. }
    rewrite bool_decide_false by (intros He; rewrite <- He in Hlt; lia).
    destruct (IH init Hi ltac:(lia)) as (r & Hr & Hspec). exists r. split; [done|by apply walk_result_snoc].
  - eexists. split; [done|]. right. exists (length cs). by rewrite firstn_all.
Qed.

(** The lexical location under the root; unless the existing ancestors could not
    be examined, the deepest of them, with every symbolic link followed, lies in
    the canonical root. *)
Definition located (Lstat : bytes -> lstatAnswer) (EvalSymlinks : bytes -> evalAnswer) (R C : list bytes) (full : bytes) : Prop :=
  exists cs, full = abs_path (R ++ cs) /\ Forall good cs /\
    (walk_result Lstat (R ++ cs) None \/
     exists k real l, (k <= length (R ++ cs))%nat /\ Lstat (abs_path (take k (R ++ cs))) = LExists /\
       (forall j, (k < j <= length (R ++ cs))%nat -> Lstat (abs_path (take j (R ++ cs))) = LNotExist) /\
       EvalSymlinks (abs_path (take k (R ++ cs))) = EPath real /\ Clean real = abs_path (C ++ l)).

Lemma ResolveSecure_answer (Lstat : bytes -> lstatAnswer) (EvalSymlinks : bytes -> evalAnswer)
    (root smbPath : bytes) (R C : list bytes) :
  rooted root = true -> Forall good R -> Clean root = abs_path R ->
  EvalSymlinks root = EPath (abs_path C) -> Forall good C ->
  (forall p q, EvalSymlinks p = EPath q -> rooted q = true) ->
  exists r, ResolveSecure Lstat EvalSymlinks root smbPath = Some r /\
    match r with
    | inl full => located Lstat EvalSymlinks R C full
    | inr ErrDanglingLink => exists p parent l, Lstat p = LExists /\ EvalSymlinks p = ENotExist /\
        EvalSymlinks (Dir p) = EPath parent /\ Clean parent = abs_path (C ++ l)
    | inr ErrTraversal => True
    end.
Proof.
  intros Hr HR HC Hcr HCg Heval. unfold ResolveSecure.
  destruct (resolve_shape root smbPath R Hr HR HC) as [(cs & Hcs & ->)| ->]; [|by eexists].
  rewrite Hcr, Clean_abs by done. assert (Hall : Forall good (R ++ cs)) by by apply Forall_app.
  assert (Hin : forall p q, EvalSymlinks p = EPath q -> contained (abs_path C) (Clean q) = true ->
    exists l, Clean q = abs_path (C ++ l)).
  { intros p q He Hc. destruct (Clean_rooted q (Heval _ _ He)) as (Q & HQ & HQe). rewrite HQe in *.
    apply contained_spec in Hc as [l ->]; [by exists l|done..]. }
  destruct (deepest_spec Lstat (S (length (abs_path (R ++ cs)))) (R ++ cs) Hall ltac:(lia)) as (w & -> & Hw).
  destruct w as [p|]; [|eexists; split; [done|]; exists cs; split_and!; [done..|by left]].
  eexists. split; [done|]. unfold check_real. pose proof Hw as (k & Hk & Hp & He & Hj).
  destruct (EvalSymlinks p) as [real| |] eqn:Hreal; [| |done].
  - destruct (contained (abs_path C) (Clean real)) eqn:Hc; [|done]. destruct (Hin p real Hreal Hc) as [l Hl].
    exists cs. split_and!; [done..|]. right. exists k, real, l. subst p. by split_and!.
  - destruct (EvalSymlinks (Dir p)) as [parent| |] eqn:Hpar; [|done..].
    destruct (contained (abs_path C) (Clean parent)) eqn:Hc; [|done]. destruct (Hin _ _ Hpar Hc) as [l Hl].
    by exists p, parent, l.
Qed.


(** ** Examples *)

Definition ex_root : bytes := [slash; Byte.x73].
Definition ex_abs (p : bytes) : bytes := abs_path [[Byte.x73]; p].

(** [\..\s\./a] under [/s]. *)
Definition ex_path : bytes :=
  [backslash; Byte.x2e; Byte.x2e; backslash; Byte.x73; backslash; Byte.x2e; slash; Byte.x61].

Lemma resolve_contained_witness :
  exists cs, Forall good cs /\ Resolve ex_root ex_path = inl (abs_path ([[Byte.x73]] ++ cs)).
Proof.
  assert (HR : Forall good [[Byte.x73]]).
  { apply Forall_singleton. split_and!; [done..|]. intros H. by apply list_elem_of_singleton in H. }
  destruct (resolve_contained ex_root ex_path [[Byte.x73]] eq_refl HR eq_refl) as [H _].
  destruct (Resolve ex_root ex_path) as [full|e] eqn:He.
  - destruct H as (cs & Hcs & ->). by exists cs.
  - assert (Hok : (match Resolve ex_root ex_path with inl _ => true | inr _ => false end) = true) by (vm_compute; reflexivity).
    rewrite He in Hok. discriminate.
Defined.

Lemma root_share_refuses_witness : Resolve [slash] [Byte.x61] = inr ErrTraversal.
Proof.
  apply (root_share_refuses [Byte.x61] [[Byte.x61]]); [done| |reflexivity].
  apply Forall_singleton. split_and!; [done..|]. intros H. by apply list_elem_of_singleton in H.
Defined.

(** [/s/l] is a link out of the share, to [/x]. *)
Definition ex_eval (p : bytes) : evalAnswer :=
  if bool_decide (p = ex_abs [Byte.x6c]) then EPath [slash; Byte.x78] else if rooted p then EPath p else EFails.

End Vfs.
