(* ===== verification/Norm.v ===== *)
(** The normalisation-insensitive lookup of a name: [internal/vfs/norm.go] and
    [ResolveSecureNorm] of [path.go], with [filepath.Rel].

    The file system answers [Lstat], [EvalSymlinks] and [ReadDir] (sorted, as
    [os.ReadDir] is); the normal forms NFC and NFD are golang.org/x/text's. *)

From S2P Require Import Prelude Smb2 Utf Vfs Wildcard.

Module Norm.

(** ** [filepath.Rel] of two absolute paths, by components *)

Definition elems (p : bytes) : list bytes := filter (fun c => c <> []) (Vfs.Split (Vfs.Clean p)).
Fixpoint rel_elems (b t : list bytes) : list bytes :=
  match b, t with
  | x :: b', y :: t' => if bool_decide (x = y) then rel_elems b' t' else map (fun _ => Vfs.dotdot) b ++ t
  | _, _ => map (fun _ => Vfs.dotdot) b ++ t
  end.
Definition Rel (base targ : bytes) : option bytes :=
  if negb (Bool.eqb (Vfs.rooted base) (Vfs.rooted targ)) then None else
  match rel_elems (elems base) (elems targ) with [] => Some Vfs.dot | l => Some (Vfs.JoinWith l) end.

(** ** [norm.go] *)

Definition RuneSelf : Z := 0x80.

(** [asciiFolds]: U+037E, U+1FEF and U+212A, as the bytes [WriteRune] writes. *)
Definition asciiFolds (c : Byte.byte) : option bytes :=
  if b2z c =? 0x3B then Some (Utf8.encode_rune 0x037E) else
  if b2z c =? 0x60 then Some (Utf8.encode_rune 0x1FEF) else
  if b2z c =? 0x4B then Some (Utf8.encode_rune 0x212A) else None.

Definition maxASCIIFoldPositions : nat := 3.

(** The first loop of [asciiFoldVariants]: the foldable positions, or [None]
    for a name it gives up on. *)
Fixpoint fold_positions (leaf : bytes) (i : Z) (pos : list Z) : option (list Z) :=
  match leaf with
  | [] => Some pos
  | c :: leaf =>
      if RuneSelf <=? b2z c then None else
      match asciiFolds c with
      | Some _ => let pos := pos ++ [i] in
                  if bool_decide (maxASCIIFoldPositions < length pos)%nat then None else fold_positions leaf (i + 1) pos
      | None => fold_positions leaf (i + 1) pos
      end
  end.

(** The string one mask selects, from [prev] on. *)
Fixpoint variant (leaf : bytes) (prev i mask : Z) (pos : list Z) : bytes :=
  match pos with
  | [] => drop (Z.to_nat prev) leaf
  | p :: pos =>
      if Z.land mask (Z.shiftl 1 i) =? 0 then variant leaf prev (i + 1) mask pos
      else get leaf prev (p - prev) ++ default [] (leaf !! Z.to_nat p ≫= asciiFolds) ++ variant leaf (p + 1) (i + 1) mask pos
  end.

Definition asciiFoldVariants (leaf : bytes) : list bytes * bool :=
  match fold_positions leaf 0 [] with
  | None => ([], false)
  | Some [] => ([], true)
  | Some pos => (map (fun mask => variant leaf 0 0 mask pos) (seqZ 1 (2 ^ len pos - 1)), true)
  end.

Section Env.
Context (Lstat : bytes -> Vfs.lstatAnswer) (EvalSymlinks : bytes -> Vfs.evalAnswer) (ReadDir : bytes -> option (list bytes)).
Context (NFC NFD : bytes -> bytes) (SimpleFold : Z -> Z).

(** The loop of [foldKeyAppend] on a string already in NFC. *)
Fixpoint fold_loop (fuel : nat) (s : bytes) : bytes :=
  match fuel, s with
  | S fuel, c :: t =>
      if b2z c <? RuneSelf then (if (0x61 <=? b2z c) && (b2z c <=? 0x7A) then z2b (b2z c - 0x20) else c) :: fold_loop fuel t else
      let '(r, size) := Utf8.decode_rune s in
      if (r =? RuneError) && (size =? 1) then Byte.xff :: c :: fold_loop fuel t
      else Utf8.encode_rune (Wildcard.FoldRune SimpleFold r) ++ fold_loop fuel (drop (Z.to_nat size) s)
  | _, _ => []
  end.

Definition foldKeyAppend (dst s : bytes) : bytes := let s := NFC s in dst ++ fold_loop (length s) s.

Definition leafExists (parentDir leaf : bytes) : bool :=
  match Lstat (Vfs.Join parentDir leaf) with Vfs.LExists => true | _ => false end.

Definition ResolveNorm (parentDir requestedLeaf : bytes) (foldCase : bool) : option bytes :=
  if leafExists parentDir requestedLeaf then Some requestedLeaf else
  let nfcRequested := NFC requestedLeaf in
  let nfdRequested := NFD requestedLeaf in
  if negb (bool_decide (nfcRequested = requestedLeaf)) && leafExists parentDir nfcRequested then Some nfcRequested else
  if negb (bool_decide (nfdRequested = requestedLeaf)) && negb (bool_decide (nfdRequested = nfcRequested)) && leafExists parentDir nfdRequested
  then Some nfdRequested else
  let '(variants, exhaustive) := asciiFoldVariants requestedLeaf in
  match List.find (leafExists parentDir) variants with
  | Some v => Some v
  | None =>
      if exhaustive && negb foldCase then None else
      match ReadDir parentDir with
      | None => None
      | Some entries =>
          if foldCase then
            let want := foldKeyAppend [] nfcRequested in
            List.find (fun e => bool_decide (foldKeyAppend [] e = want)) entries
          else List.find (fun e => bool_decide (NFC e = nfcRequested)) entries
      end
  end.

(** ** [ResolveSecureNorm] *)

Fixpoint walk_components (foldCase : bool) (current : bytes) (components : list bytes) : bytes :=
  match components with
  | [] => current
  | comp :: components =>
      if bool_decide (comp = []) || bool_decide (comp = Vfs.dot) then walk_components foldCase current components else
      if bool_decide (comp = Vfs.dotdot) then walk_components foldCase (Vfs.Dir current) components else
      let resolved := default comp (ResolveNorm current comp foldCase) in
      walk_components foldCase (Vfs.Join current resolved) components
  end.

Definition ResolveSecureNorm (root smbPath : bytes) (foldCase : bool) : option (bytes + Vfs.vfsErr) :=
  let root := Vfs.Clean root in
  let p := Vfs.TrimSlash (Vfs.ReplaceBackslash smbPath) in
  match p with
  | [] => Vfs.ResolveSecure Lstat EvalSymlinks root smbPath
  | _ =>
      match Vfs.Resolve root smbPath with
      | inr e => Some (inr e)
      | inl lexical =>
          match Lstat lexical with
          | Vfs.LExists => Vfs.ResolveSecure Lstat EvalSymlinks root smbPath
          | _ =>
              let current := walk_components foldCase root (Vfs.Split p) in
              match Rel root current with
              | None => Some (inr Vfs.ErrTraversal)
              | Some rel => Vfs.ResolveSecure Lstat EvalSymlinks root rel
              end
          end
      end
  end.

(** ** The names an ASCII name is canonically equivalent to *)

Inductive class : bytes -> bytes -> Prop :=
  | class_nil : class [] []
  | class_same c s x : class s x -> class (c :: s) (c :: x)
  | class_fold c b s x : asciiFolds c = Some b -> class s x -> class (c :: s) (b ++ x).

Definition ascii (s : bytes) : Prop := Forall (fun c => b2z c < RuneSelf) s.

(** The foldable positions, and the string a list of choices selects. *)
Fixpoint positions (s : bytes) (i : Z) : list Z :=
  match s with
  | [] => []
  | c :: s => match asciiFolds c with Some _ => i :: positions s (i + 1) | None => positions s (i + 1) end
  end.

Fixpoint choose (s : bytes) (bits : list bool) : bytes :=
  match s with
  | [] => []
  | c :: s =>
      match asciiFolds c, bits with
      | Some b, bit :: bits => (if bit then b else [c]) ++ choose s bits
      | _, _ => c :: choose s bits
      end
  end.

Lemma class_choose s x : class s x <-> exists bits, length bits = length (positions s 0) /\ x = choose s bits.
Proof.
  assert (Hp : forall s i j, length (positions s i) = length (positions s j)).
  { clear. induction s as [|c s IH]; intros i j; [done|]. cbn [positions]. destruct (asciiFolds c); cbn [length]; by rewrite (IH (i + 1) (j + 1)). }
  split.
  - induction 1 as [|c s x _ (bits & Hl & ->)|c b s x Hb _ (bits & Hl & ->)].
    + by exists [].
    + destruct (asciiFolds c) as [b|] eqn:Hc; cbn [positions choose]; rewrite Hc.
      * exists (false :: bits). cbn [length choose]. by rewrite Hl, (Hp s 0 (0 + 1)).
      * exists bits. by rewrite Hl, (Hp s 0 (0 + 1)).
    + exists (true :: bits). cbn [positions choose]. rewrite Hb. cbn [length]. by rewrite Hl, (Hp s 0 (0 + 1)).
  - intros (bits & Hl & ->). revert bits Hl. induction s as [|c s IH]; intros bits Hl; [constructor|].
    cbn [positions choose] in *. destruct (asciiFolds c) as [b|] eqn:Hc.
    + destruct bits as [|bit bits]; [discriminate|]. cbn [length] in Hl. injection Hl as Hl. rewrite (Hp s _ 0) in Hl.
      destruct bit; [by apply class_fold, IH|]. by apply class_same, IH.
    + rewrite (Hp s _ 0) in Hl. by apply class_same, IH.
Qed.

Fixpoint mask_bits (n : nat) (i mask : Z) : list bool :=
  match n with O => [] | S n => negb (Z.land mask (Z.shiftl 1 i) =? 0) :: mask_bits n (i + 1) mask end.

Lemma variant_choose mask s pre prev i : 0 <= prev <= len pre ->
  variant (pre ++ s) prev i mask (positions s (len pre)) =
  drop (Z.to_nat prev) pre ++ choose s (mask_bits (length (positions s (len pre))) i mask).
Proof.
  assert (Hd : forall (pre : bytes) c prev, 0 <= prev <= len pre -> drop (Z.to_nat prev) (pre ++ [c]) = drop (Z.to_nat prev) pre ++ [c]).
  { intros q c n Hn. apply drop_app_le. unfold len in Hn. lia. }
  assert (Ha : forall (pre : bytes) c s, pre ++ c :: s = (pre ++ [c]) ++ s) by (intros; by rewrite <- (assoc_L (++))).
  revert pre prev i. induction s as [|c s IH]; intros pre prev i Hp; [cbn [positions variant choose length mask_bits]; by rewrite !app_nil_r|].
  assert (IH' : forall prev i, 0 <= prev <= len pre + 1 -> variant ((pre ++ [c]) ++ s) prev i mask (positions s (len pre + 1)) =
    drop (Z.to_nat prev) (pre ++ [c]) ++ choose s (mask_bits (length (positions s (len pre + 1))) i mask)).
  { intros prev' i' Hp'. pose proof (IH (pre ++ [c]) prev' i') as H. assert (Hl : len (pre ++ [c]) = len pre + 1) by (rewrite len_app; unfold len; cbn; lia).
    rewrite Hl in H. by apply H. }
  cbn [positions choose]. destruct (asciiFolds c) as [b|] eqn:Hc; cbn [length mask_bits variant].
  - rewrite Ha. destruct (Z.land mask _ =? 0); cbn [negb].
    + rewrite IH', Hd by lia. by rewrite <- (assoc_L (++)).
    + rewrite IH' by lia. rewrite drop_ge by (rewrite length_app; unfold len; cbn; lia).
      rewrite lookup_app_l by (rewrite length_app; unfold len; cbn; lia).
      rewrite lookup_app_r by (unfold len; lia). replace (Z.to_nat (len pre) - length pre)%nat with 0%nat by (unfold len; lia). cbn [lookup list_lookup mbind option_bind].
      rewrite Hc. cbn [default from_option app]. f_equal. unfold get. rewrite drop_app_le by (rewrite length_app; unfold len in *; lia).
      rewrite drop_app_le by (unfold len in *; lia). rewrite <- (assoc_L (++)). rewrite take_app_le by (rewrite length_drop; unfold len in *; lia).
      apply take_ge. rewrite length_drop. unfold len in *. lia.
  - rewrite Ha, IH', Hd by lia. by rewrite <- (assoc_L (++)).
Qed.

Lemma fold_positions_spec leaf i pos q : (length pos <= 3)%nat -> fold_positions leaf i pos = Some q ->
  ascii leaf /\ q = pos ++ positions leaf i /\ (length q <= 3)%nat.
Proof.
  revert i pos. induction leaf as [|c leaf IH]; intros i pos Hl; cbn [fold_positions positions].
  - intros [= <-]. split; [constructor|]. by rewrite app_nil_r.
  - destruct (Z.leb_spec RuneSelf (b2z c)) as [|Hc]; [done|]. destruct (asciiFolds c) as [b|].
    + case_bool_decide as Hn; [done|]. intros (Ha & -> & Hq)%IH; [|unfold maxASCIIFoldPositions in Hn; lia].
      split; [by constructor|]. by rewrite <- (assoc_L (++)) in *.
    + intros (Ha & -> & Hq)%IH; [|done]. split; [by constructor|done].
Qed.

Lemma choose_none s n : choose s (replicate n false) = s.
Proof.
  revert n. induction s as [|c s IH]; intros n; [done|]. cbn [choose]. destruct (asciiFolds c); [|by rewrite IH].
  destruct n; cbn [replicate]; [|by rewrite IH]. f_equal. apply (IH 0%nat).
Qed.

(** Every choice of at most three positions is some mask. *)
Lemma masks_complete (bits : list bool) : (length bits <= 3)%nat ->
  bits = replicate (length bits) false \/
  exists mask, mask ∈ seqZ 1 (2 ^ Z.of_nat (length bits) - 1) /\ mask_bits (length bits) 0 mask = bits.
Proof.
  intros Hl. assert (Hm : forall mask, (1 <= mask < 2 ^ Z.of_nat (length bits)) -> mask ∈ seqZ 1 (2 ^ Z.of_nat (length bits) - 1)).
  { intros mask Hr. apply elem_of_seqZ. lia. }
  destruct bits as [|b0 [|b1 [|b2 [|b3 bits]]]]; [by left| | | |cbn in Hl; lia].
  - destruct b0; [right; exists 1|by left]. split; [apply Hm; cbn; lia|done].
  - destruct b0, b1; [right; exists 3|right; exists 1|right; exists 2|by left]; (split; [apply Hm; cbn; lia|done]).
  - destruct b0, b1, b2; [right; exists 7|right; exists 3|right; exists 5|right; exists 1|right; exists 6|right; exists 2|right; exists 4|by left];
      (split; [apply Hm; cbn; lia|done]).
Qed.

(** What [asciiFoldVariants] calls exhaustive is. *)
Lemma variants_exhaustive leaf vs : asciiFoldVariants leaf = (vs, true) ->
  ascii leaf /\ forall x, class leaf x <-> x = leaf \/ x ∈ vs.
Proof.
  unfold asciiFoldVariants. destruct (fold_positions leaf 0 []) as [q|] eqn:Hf; [|done].
  apply fold_positions_spec in Hf as (Ha & Hq & Hl); [|cbn; lia]. cbn [app] in Hq.
  assert (Hv : forall mask, variant leaf 0 0 mask q = choose leaf (mask_bits (length q) 0 mask)).
  { intros mask. pose proof (variant_choose mask leaf [] 0 0 ltac:(unfold len; cbn; lia)) as Hc. cbn [app] in Hc.
    change (len (@nil Byte.byte)) with 0 in Hc. rewrite Hq, Hc. by rewrite drop_nil. }
  intros Hr. split; [done|]. intros x. rewrite class_choose, <- Hq. split.
  - intros (bits & Hb & ->). destruct (masks_complete bits ltac:(lia)) as [Hn|(mask & Hin & Hm)]; [left; rewrite Hn; apply choose_none|].
    right. destruct q as [|p q]; [destruct bits; [|done]; by apply elem_of_nil in Hin|]. injection Hr as <-.
    apply list_elem_of_fmap. exists mask.
    split; [change (choose leaf bits = variant leaf 0 0 mask (p :: q)); by rewrite Hv, <- Hb, Hm|unfold len; by rewrite <- Hb].
  - assert (Hlen : forall n i mask, length (mask_bits n i mask) = n) by (induction n; intros; cbn; auto).
    intros [->|Hin]; [exists (replicate (length q) false); by rewrite length_replicate, choose_none|].
    destruct q as [|p q]; [by injection Hr as <-; apply elem_of_nil in Hin|]. injection Hr as <-.
    apply list_elem_of_fmap in Hin as (mask & -> & _). exists (mask_bits (length (p :: q)) 0 mask). split; [apply Hlen|apply Hv].
Qed.

Lemma variants_not_exhaustive leaf vs : asciiFoldVariants leaf = (vs, false) -> vs = [].
Proof. unfold asciiFoldVariants. destruct (fold_positions leaf 0 []) as [[|p q]|]; [done..|by intros [= <-]]. Qed.

Lemma asciiFolds_bytes c b : asciiFolds c = Some b -> (exists d r, b = d :: r /\ RuneSelf <= b2z d) /\ Vfs.slash ∉ b.
Proof.
  unfold asciiFolds. destruct (_ =? _); [|destruct (_ =? _); [|destruct (_ =? _); [|done]]]; intros [= <-]; (split; [|by vm_compute; set_solver]).
  all: eexists _, _; split; [vm_compute; reflexivity|vm_compute; discriminate].
Qed.

Lemma class_ascii s x : class s x -> ascii x -> s = x.
Proof.
  induction 1 as [|c s x _ IH|c b s x Hb _ IH]; intros Hx; [done| |].
  - apply Forall_cons in Hx as [_ Hx]. by rewrite IH.
  - apply asciiFolds_bytes in Hb as [(d & r & -> & Hd) _]. cbn [app] in Hx. apply Forall_cons in Hx as [Hx _]. lia.
Qed.

Lemma class_good s x : class s x -> Vfs.good s -> Vfs.good x.
Proof.
  intros Hc (H1 & H2 & H3 & H4). assert (Ha : forall y, ascii y -> s <> y -> x <> y) by (intros y Hy Hn ->; by apply Hn, class_ascii).
  split; [apply Ha; [constructor|done]|]. split; [apply Ha; [repeat constructor|done]|]. split; [apply Ha; [repeat constructor|done]|].
  clear Ha H1 H2 H3. induction Hc as [|c s x _ IH|c b s x Hb _ IH]; [done| |].
  - apply not_elem_of_cons in H4 as [Hn H4]. apply not_elem_of_cons. auto.
  - apply not_elem_of_cons in H4 as [_ H4]. apply not_elem_of_app. split; [by apply asciiFolds_bytes in Hb as [_ ?]|auto].
Qed.

(** ** A lookup *)

(** What two names that are the same to the lookup share. *)
Definition canonical (foldCase : bool) (s : bytes) : bytes :=
  if foldCase then fold_loop (length (NFC s)) (NFC s) else NFC s.

(** A directory that can be listed, and whose entries are found under their own
    spelling only. *)
Record directory (parent : bytes) (entries : list bytes) : Prop := {
  dir_read : ReadDir parent = Some entries;
  dir_good : Forall Vfs.good entries;
  dir_lstat : forall n, Vfs.good n -> Lstat (Vfs.Join parent n) = Vfs.LExists <-> n ∈ entries }.

(** The documented laws of the normal forms, on the names at hand: they are
    names, NFC is idempotent and absorbs NFD, and an ASCII name's canonical
    equivalents are those the three singletons give. *)
Record normal_forms (leaf : bytes) (entries : list bytes) : Prop := {
  nf_good : Vfs.good (NFC leaf) /\ Vfs.good (NFD leaf);
  nf_idem : NFC (NFC leaf) = NFC leaf;
  nf_nfd : NFC (NFD leaf) = NFC leaf;
  nf_ascii : ascii leaf -> forall x, x ∈ entries -> NFC x = NFC leaf <-> class leaf x }.

Lemma leafExists_spec parent entries n : directory parent entries -> Vfs.good n -> leafExists parent n = true <-> n ∈ entries.
Proof.
  intros Hd Hn. unfold leafExists. rewrite <- (dir_lstat _ _ Hd n Hn). by destruct (Lstat _).
Qed.

Lemma canonical_NFC foldCase a b : NFC a = NFC b -> canonical foldCase a = canonical foldCase b.
Proof. unfold canonical. by intros ->. Qed.


(** Whatever the directories hold, the path that comes out went through the
    lexical and the symbolic-link check. *)
Lemma ResolveSecureNorm_checked root smbPath foldCase full :
  ResolveSecureNorm root smbPath foldCase = Some (inl full) ->
  exists rel, Vfs.ResolveSecure Lstat EvalSymlinks (Vfs.Clean root) rel = Some (inl full).
Proof.
  unfold ResolveSecureNorm. destruct (Vfs.TrimSlash _); [by exists smbPath|]. destruct (Vfs.Resolve _ smbPath); [|done].
  destruct (Lstat _); [by exists smbPath|..]. all: destruct (Rel _ _) as [rel|]; [by exists rel|done].
Qed.

(** The normalisation-insensitive resolution always answers, and never
    leaves the share: whatever entries the directories hold and whichever of
    them it substitutes for the components asked for, a path it hands out is a
    location under the share's root whose deepest existing ancestor, every
    symbolic link followed, is still in the share. *)
Theorem norm_contained (root smbPath : bytes) (foldCase : bool) (R C : list bytes) :
  Vfs.rooted root = true -> Forall Vfs.good R -> Vfs.Clean root = Vfs.abs_path R ->
  EvalSymlinks (Vfs.Clean root) = Vfs.EPath (Vfs.abs_path C) -> Forall Vfs.good C ->
  (forall p q, EvalSymlinks p = Vfs.EPath q -> Vfs.rooted q = true) ->
  exists r, ResolveSecureNorm root smbPath foldCase = Some r /\
    match r with inl full => Vfs.located Lstat EvalSymlinks R C full | inr _ => True end.
Proof.
  intros Hr HR HC Hcr HCg Heval.
  assert (Hans : forall rel, exists r, Vfs.ResolveSecure Lstat EvalSymlinks (Vfs.Clean root) rel = Some r /\
    match r with inl full => Vfs.located Lstat EvalSymlinks R C full | inr _ => True end).
  { intros rel. destruct (Vfs.ResolveSecure_answer Lstat EvalSymlinks (Vfs.Clean root) rel R C) as (r & Hres & Hl); try done.
    - rewrite HC. by apply bool_decide_eq_true_2.
    - by rewrite HC, Vfs.Clean_abs.
    - exists r. split; [done|]. by destruct r. }
  unfold ResolveSecureNorm. destruct (Vfs.TrimSlash _); [apply Hans|]. destruct (Vfs.Resolve _ smbPath); [|by eexists].
  destruct (Lstat _); [apply Hans|..]. all: destruct (Rel _ _); [apply Hans|by eexists].
Qed.
End Env.

(** ** Examples: the Kelvin sign on disk, and a directory link out of the share *)

Definition ex_kelvin : bytes := Utf8.encode_rune 0x212A ++ [Byte.x31].
Definition ex_leaf : bytes := [Byte.x4b; Byte.x31].
Definition ex_entries : list bytes := [[Byte.x61]; ex_kelvin].
Definition ex_parent : bytes := [Vfs.slash; Byte.x73].
Definition ex_lstat (p : bytes) : Vfs.lstatAnswer :=
  if bool_decide (p ∈ map (Vfs.Join ex_parent) ex_entries) || bool_decide (p = ex_parent) then Vfs.LExists else Vfs.LNotExist.
(** NFC on these names: the Kelvin sign becomes its ASCII equivalent. *)
Definition ex_nfc (s : bytes) : bytes := if bool_decide (s = ex_kelvin) then ex_leaf else s.
Definition ex_dir (p : bytes) : option (list bytes) := if bool_decide (p = ex_parent) then Some ex_entries else None.

Lemma Join_good_inj n m : Vfs.good n -> Vfs.good m -> Vfs.Join ex_parent n = Vfs.Join ex_parent m -> n = m.
Proof.
  intros Hn Hm. assert (HJ : forall x, Vfs.good x -> Vfs.Join ex_parent x = Vfs.abs_path [[Byte.x73]; x]).
  { intros x Hx. destruct (Vfs.rooted_Join ex_parent x eq_refl ltac:(apply Hx)) as [_ ->].
    change (ex_parent ++ Vfs.slash :: x) with (Vfs.abs_path [[Byte.x73]; x]). apply Vfs.Clean_abs.
    repeat constructor; try done; try (by vm_compute; set_solver); apply Hx. }
  rewrite !HJ by done. by intros [= ->].
Qed.


Definition ex_eval (p : bytes) : Vfs.evalAnswer := if Vfs.rooted p then Vfs.EPath p else Vfs.EFails.

Lemma norm_contained_witness : exists full,
  ResolveSecureNorm ex_lstat ex_eval ex_dir ex_nfc ex_nfc (fun r => r) ex_parent ex_leaf false = Some (inl full) /\
  full = ex_parent ++ Vfs.slash :: ex_kelvin /\ Vfs.located ex_lstat ex_eval [[Byte.x73]] [[Byte.x73]] full.
Proof.
  assert (HR : Forall Vfs.good [[Byte.x73]]) by (repeat constructor; try done; vm_compute; set_solver).
  destruct (norm_contained ex_lstat ex_eval ex_dir ex_nfc ex_nfc (fun r => r) ex_parent ex_leaf false [[Byte.x73]] [[Byte.x73]]) as (r & Hr & Hl).
  - reflexivity.
  - exact HR.
  - reflexivity.
  - vm_compute. reflexivity.
  - exact HR.
  - intros p q. unfold ex_eval. destruct (Vfs.rooted p) eqn:Hp; [by intros [= <-]|done].
  - assert (Hv : ResolveSecureNorm ex_lstat ex_eval ex_dir ex_nfc ex_nfc (fun r => r) ex_parent ex_leaf false =
      Some (inl (ex_parent ++ Vfs.slash :: ex_kelvin))) by (vm_compute; reflexivity).
    rewrite Hv in Hr. injection Hr as <-. exists (ex_parent ++ Vfs.slash :: ex_kelvin). split; [exact Hv|split; [reflexivity|exact Hl]].
Defined.
End Norm.
