(* ===== verification/Smb3.v ===== *)
(** The SMB 3.x cryptography: [internal/smb3].

    AES, HMAC-SHA256 and GCM are the standard library's; they are functions of
    the model's sections, with what the code relies on as hypotheses.  CMAC,
    CCM, the key derivation, signing and the transform header are the program's
    own. *)

From S2P Require Import Prelude Smb2.

Module Smb3.

Definition xorBytes (a b : bytes) : bytes := zip_with (fun x y => z2b (Z.lxor (b2z x) (b2z y))) a b.

(** A message cut in blocks of 16 bytes, the last one possibly shorter. *)
Fixpoint blocks_fuel (fuel : nat) (l : bytes) : list bytes :=
  match fuel, l with
  | S fuel, _ :: _ => take 16 l :: blocks_fuel fuel (drop 16 l)
  | _, _ => []
  end.
Definition blocks (l : bytes) : list bytes := blocks_fuel (length l) l.

Definition byte_at (b : bytes) (i : nat) : Z := match b !! i with Some x => b2z x | None => 0 end.

Definition be32 (v : Z) : bytes := be_split 4 v.

Section Crypto.
Context (AES : bytes -> bytes -> bytes) (HMAC : bytes -> bytes -> bytes).
Context (GCMSeal : bytes -> bytes -> bytes -> bytes -> bytes).
Context (GCMOpen : bytes -> bytes -> bytes -> bytes -> option bytes).

(** ** [cmac.go] *)

Definition cmacChunk : Z := 4096.

(** The shifted block and the bit that leaves it on the left. *)
Fixpoint shift_left (l : bytes) : bytes * Z :=
  match l with
  | [] => ([], 0)
  | b :: l =>
      let '(out, overflow) := shift_left l in
      (z2b (Z.lor (Z.shiftl (b2z b) 1) overflow) :: out, if Z.land (b2z b) 0x80 =? 0 then 0 else 1)
  end.
Definition leftShift (l : bytes) : bytes := (shift_left l).1.

Definition xor_last (k : bytes) : bytes := splice 15 [z2b (Z.lxor (byte_at k 15) 0x87)] k.

Definition cmacSubkeys (key : bytes) : bytes * bytes :=
  let L := AES key (zeros 16) in
  let k1 := leftShift L in
  let k1 := if Z.land (byte_at L 0) 0x80 =? 0 then k1 else xor_last k1 in
  let k2 := leftShift k1 in
  (k1, if Z.land (byte_at k1 0) 0x80 =? 0 then k2 else xor_last k2).

(** [cipher.NewCBCEncrypter]: the ciphertext and the chaining state. *)
Fixpoint CryptBlocks (key iv : bytes) (bs : list bytes) : bytes * bytes :=
  match bs with
  | [] => ([], iv)
  | b :: bs =>
      let c := AES key (xorBytes b iv) in
      let '(out, iv) := CryptBlocks key c bs in (c ++ out, iv)
  end.

(** The prefix pass: [x] is the last ciphertext block of the last chunk. *)
Fixpoint cmac_prefix (fuel : nat) (key iv msg : bytes) (off prefixLen : Z) (x : bytes) : option bytes :=
  match fuel with
  | O => None
  | S fuel =>
      if off <? prefixLen then
        let end_ := Z.min (off + cmacChunk) prefixLen in
        let '(scratch, iv) := CryptBlocks key iv (blocks (get msg off (end_ - off))) in
        cmac_prefix fuel key iv msg (off + cmacChunk) prefixLen (get scratch (end_ - off - 16) 16)
      else Some x
  end.

Definition CMAC (key msg : bytes) : option bytes :=
  let '(k1, k2) := cmacSubkeys key in
  let complete := (0 <? len msg) && (len msg mod 16 =? 0) in
  let prefixLen := if complete then len msg - 16 else len msg / 16 * 16 in
  let rem := get msg prefixLen (len msg - prefixLen) in
  let lastBlock := if complete then xorBytes rem k1
                   else xorBytes (splice (len rem) [z2b 0x80] (splice 0 rem (zeros 16))) k2 in
  x ← (if 0 <? prefixLen then cmac_prefix (S (length msg)) key (zeros 16) msg 0 prefixLen (zeros 16)
       else Some (zeros 16));
  Some (AES key (xorBytes lastBlock x)).

(** RFC 4493, 2.4: chain the blocks before the last one, then the last one
    masked with a subkey, padded with a one bit when it is not whole. *)
Definition rfc4493 (key msg : bytes) : bytes :=
  let '(k1, k2) := cmacSubkeys key in
  let n := if len msg =? 0 then 1 else (len msg + 15) / 16 in
  let whole := 16 * (n - 1) in
  let last := get msg whole (len msg - whole) in
  let mlast := if len last =? 16 then xorBytes last k1
               else xorBytes (last ++ z2b 0x80 :: zeros (15 - len last)) k2 in
  let x := fold_left (fun x b => AES key (xorBytes b x)) (blocks (get msg 0 whole)) (zeros 16) in
  AES key (xorBytes mlast x).

(** ** [kdf.go] *)

Definition kdf_block (key label context : bytes) (L i : Z) : bytes :=
  HMAC key (be32 i ++ label ++ [Byte.x00] ++ context ++ be32 L).

Fixpoint kdf_loop (fuel : nat) (key label context : bytes) (L i : Z) (out : bytes) : option bytes :=
  match fuel with
  | O => None
  | S fuel =>
      if (len out * 8) mod 2 ^ 32 <? L
      then kdf_loop fuel key label context L ((i + 1) mod 2 ^ 32) (out ++ kdf_block key label context L i)
      else Some out
  end.

Definition KDF (key label context : bytes) (L : Z) : option bytes :=
  out ← kdf_loop (Z.to_nat (L / 256) + 2) key label context L 1 []; Some (get out 0 (L / 8)).

(** ** [ccm.go] *)

Definition ccmNonceSize : Z := 11.
Definition ccmTagSize : Z := 16.
Definition ccmL : Z := 4.

Definition ctEq (a b : bytes) : bool :=
  if negb (len a =? len b) then false
  else fold_left Z.lor (zip_with (fun x y => Z.lxor (b2z x) (b2z y)) a b) 0 =? 0.

Definition mac_step (key mac blk : bytes) : bytes := AES key (xorBytes mac blk).

(** [copy(blk[:], d)] into a zero block. *)
Definition pad16 (d : bytes) : bytes := d ++ zeros (16 - len d).

(** The two loops over the plaintext: whole blocks, then what is left. *)
Definition mac_blocks (key mac : bytes) (bs : list bytes) : bytes := fold_left (fun m b => mac_step key m (pad16 b)) bs mac.

Definition aad_stream (aad : bytes) : bytes :=
  let al := len aad in
  let lbuf := if al <? 0xFF00 then be_split 2 al else [Byte.xff; Byte.xfe] ++ be_split 4 al in
  let stream := lbuf ++ aad in
  stream ++ zeros (- len stream mod 16).

Definition computeTag (key nonce plaintext aad : bytes) : bytes :=
  let flags := Z.lor (Z.lor (if 0 <? len aad then 0x40 else 0) (Z.shiftl ((ccmTagSize - 2) / 2) 3)) (ccmL - 1) in
  let b0 := writes (zeros 16) [(0, [z2b flags]); (1, nonce); (12, be32 (len plaintext))] in
  let mac := AES key b0 in
  let mac := if 0 <? len aad then mac_blocks key mac (blocks (aad_stream aad)) else mac in
  mac_blocks key mac (blocks plaintext).

Definition ctr_block (nonce : bytes) (counter : Z) : bytes :=
  writes (zeros 16) [(0, [z2b (ccmL - 1)]); (1, nonce); (12, be32 counter)].

Fixpoint ctr_loop (fuel : nat) (key nonce : bytes) (counter : Z) (inp : bytes) : bytes :=
  match fuel, inp with
  | S fuel, _ :: _ =>
      xorBytes (take 16 inp) (AES key (ctr_block nonce counter)) ++
      ctr_loop fuel key nonce ((counter + 1) mod 2 ^ 32) (drop 16 inp)
  | _, _ => []
  end.

Definition ctrXor (key nonce inp : bytes) : bytes := ctr_loop (length inp) key nonce 1 inp.

Definition ctrEncryptTag (key nonce tag : bytes) : bytes := xorBytes tag (AES key (ctr_block nonce 0)).

(** [Seal] and [Open] of the CCM mode; a nonce of another size panics in
    [Seal], which [newAEAD]'s caller rules out. *)
Definition ccmSeal (key nonce plaintext aad : bytes) : bytes :=
  ctrXor key nonce plaintext ++ get (ctrEncryptTag key nonce (computeTag key nonce plaintext aad)) 0 ccmTagSize.

Definition ccmOpen (key nonce ciphertext aad : bytes) : option bytes :=
  if negb (len nonce =? ccmNonceSize) then None else
  if len ciphertext <? ccmTagSize then None else
  let ctLen := len ciphertext - ccmTagSize in
  let ct := get ciphertext 0 ctLen in
  let gotTag := get ciphertext ctLen ccmTagSize in
  let pt := ctrXor key nonce ct in
  let encExpTag := ctrEncryptTag key nonce (computeTag key nonce pt aad) in
  if negb (ctEq gotTag (get encExpTag 0 ccmTagSize)) then None else Some pt.

(** ** [sign.go] *)

Definition SignAlgoHMACSHA256 : Z := 0x0000.
Definition SignAlgoAESCMAC : Z := 0x0001.
Definition SignAlgoAESGMAC : Z := 0x0002.

Definition hmacSHA256Sign (key msg : bytes) : bytes := get (HMAC key msg) 0 16.

(** The nonce of the GMAC signature. *)
Definition gmac_nonce (msg : bytes) : bytes :=
  get msg 24 8 ++ le_split 4 (Z.land (le_combine (get msg 16 4)) (Z.lor 0x1 0x2)).

(** [aes.NewCipher] takes keys of 16, 24 or 32 bytes. *)
Definition aes_key (key : bytes) : bool := (len key =? 16) || (len key =? 24) || (len key =? 32).

Definition gmacSign (key msg : bytes) : bytes :=
  if negb (aes_key key) then zeros 16
  else pad16 (get (GCMSeal key (gmac_nonce msg) [] msg) 0 16).

Definition computeMAC (algo : Z) (key msg : bytes) : bytes :=
  if algo =? SignAlgoAESGMAC then gmacSign key msg else
  if algo =? SignAlgoHMACSHA256 then hmacSHA256Sign key msg else
  match CMAC key msg with Some m => m | None => [] end.

Definition zero_signature (msg : bytes) : bytes := splice 48 (zeros 16) msg.

Definition SignMessage (algo : Z) (signingKey msg : bytes) : bytes :=
  if len msg <? 64 then msg else
  let msg := zero_signature msg in
  let msg := splice 16 [z2b (Z.lor (byte_at msg 16) 0x08)] msg in
  splice 48 (computeMAC algo signingKey msg) msg.

Definition VerifyMessage (algo : Z) (signingKey msg : bytes) : bool :=
  if len msg <? 64 then false else
  bool_decide (computeMAC algo signingKey (zero_signature msg) = get msg 48 16).

(** ** [encrypt.go] *)

Definition TransformHeaderSize : Z := 52.
Definition TransformFlagEncrypted : Z := 0x0001.
Definition transformAADStart : Z := 20.
Definition transformAADLen : Z := 32.
Definition transformProtocolID : bytes := [Byte.xfd; Byte.x53; Byte.x4d; Byte.x42].

Inductive transformErr :=
  | ErrShortTransform | ErrBadTransformID | ErrUnknownCipher | ErrTransformDecrypt | ErrShortTransformBody
  | ErrNotEncrypted | ErrKeyLength | ErrNonceLength.

Definition CipherAES128CCM : Z := 0x0001.
Definition CipherAES128GCM : Z := 0x0002.
Definition CipherAES256CCM : Z := 0x0003.
Definition CipherAES256GCM : Z := 0x0004.

Definition CipherKeyBits (cipherID : Z) : Z :=
  if (cipherID =? CipherAES256CCM) || (cipherID =? CipherAES256GCM) then 256 else 128.

(** A [cipher.AEAD] and its nonce length. *)
Record aead := mkAEAD {
  Seal : bytes -> bytes -> bytes -> bytes; AeadOpen : bytes -> bytes -> bytes -> option bytes; nonceLen : Z }.

Definition gcm (key : bytes) : aead := mkAEAD (GCMSeal key) (GCMOpen key) 12.
Definition newCCM (key : bytes) : aead := mkAEAD (ccmSeal key) (ccmOpen key) 11.

Definition newAEAD (cipherID : Z) (rawKey : bytes) : outcome transformErr aead :=
  if (cipherID =? CipherAES128GCM) || (cipherID =? CipherAES128CCM) then
    if len rawKey <? 16 then Err ErrKeyLength else
    if cipherID =? CipherAES128GCM then Ok (gcm (get rawKey 0 16)) else Ok (newCCM (get rawKey 0 16))
  else if (cipherID =? CipherAES256GCM) || (cipherID =? CipherAES256CCM) then
    if len rawKey <? 32 then Err ErrKeyLength else
    if cipherID =? CipherAES256GCM then Ok (gcm (get rawKey 0 32)) else Ok (newCCM (get rawKey 0 32))
  else Err ErrUnknownCipher.

(** [nonceCounter.Add(1)] and the process's random prefix. *)
Definition nextNonce (counter : Z) (prefix : bytes) (n : Z) : Z * bytes :=
  let counter := (counter + 1) mod 2 ^ 64 in (counter, get (le_split 8 counter ++ prefix) 0 n).

Definition IsTransform (buf : bytes) : bool := (4 <=? len buf) && bool_decide (get buf 0 4 = transformProtocolID).

Definition DecryptTransform (cipherID : Z) (key frame : bytes) : outcome transformErr (bytes * Z) :=
  if len frame <? TransformHeaderSize then Err ErrShortTransform else
  if negb (IsTransform frame) then Err ErrBadTransformID else
  origSize ← u32 frame 36;
  flags ← u16 frame 42;
  sessID ← u64 frame 44;
  if Z.land flags TransformFlagEncrypted =? 0 then Err ErrNotEncrypted else
  ciphertext ← slice frame TransformHeaderSize (len frame);
  if len ciphertext <? origSize then Err ErrShortTransformBody else
  a ← newAEAD cipherID key;
  nonce ← slice frame 20 (20 + nonceLen a);
  tag ← slice frame 4 20;
  aad ← slice frame transformAADStart (transformAADStart + transformAADLen);
  match AeadOpen a nonce (ciphertext ++ tag) aad with
  | None => Err ErrTransformDecrypt
  | Some pt => Ok (pt, sessID)
  end.

(** The process's nonce counter before, the frame and the counter after. *)
Definition EncryptTransform (counter : Z) (prefix : bytes) (cipherID : Z) (key : bytes) (sessID : Z) (plaintext : bytes)
    : outcome transformErr bytes * Z :=
  match newAEAD cipherID key with
  | Ok a =>
      if (16 <? nonceLen a) || (nonceLen a <? 8) then (Err ErrNonceLength, counter) else
      let '(counter, nonce) := nextNonce counter prefix (nonceLen a) in
      let out := writes (zeros TransformHeaderSize)
        [(0, transformProtocolID); (20, nonce); (36, le_split 4 (len plaintext));
         (42, le_split 2 TransformFlagEncrypted); (44, le_split 8 sessID)] in
      let aad := get out transformAADStart transformAADLen in
      let sealed := out ++ Seal a nonce plaintext aad in
      let tagOff := len sealed - 16 in
      (Ok (get (splice 4 (get sealed tagOff 16) sealed) 0 tagOff), counter)
  | Err e => (Err e, counter)
  | Panic => (Panic, counter)
  end.

(** ** What the code relies on *)

Record primitives : Prop := {
  AES_len : forall k b, len (AES k b) = 16;
  HMAC_len : forall k m, len (HMAC k m) = 32;
  GCM_len : forall k n p a, len (GCMSeal k n p a) = len p + 16;
  GCM_open : forall k n p a, GCMOpen k n (GCMSeal k n p a) a = Some p
}.

(** ** Exclusive or and blocks *)

Lemma len_xorBytes a b : len (xorBytes a b) = Z.min (len a) (len b).
Proof. unfold xorBytes, len. rewrite length_zip_with. lia. Qed.

Lemma byte_xor_cancel (x y : Byte.byte) : z2b (Z.lxor (b2z (z2b (Z.lxor (b2z x) (b2z y)))) (b2z y)) = x.
Proof.
  pose proof (byte.unsigned_range x). pose proof (byte.unsigned_range y).
  rewrite byte.unsigned_of_Z. unfold byte.wrap. rewrite Z.mod_small by (apply lxor_range; lia).
  rewrite Z.lxor_assoc, Z.lxor_nilpotent, Z.lxor_0_r. apply byte.of_Z_unsigned.
Qed.

Lemma xor_cancel a k : len a <= len k -> xorBytes (xorBytes a k) k = a.
Proof.
  unfold xorBytes, len. revert k. induction a as [|x a IH]; intros [|y k] Hl; simpl in *; try done.
  f_equal; [apply byte_xor_cancel|]. apply IH. lia.
Qed.

Lemma blocks_fuel_enough fuel l : (length l <= fuel)%nat -> blocks_fuel fuel l = blocks l.
Proof.
  unfold blocks. generalize (le_n (length l)). generalize (length l) at 2 4 as m.
  revert l. induction fuel as [|fuel IH]; intros l m Hm Hf.
  { destruct l; [by destruct m|simpl in Hf; lia]. }
  destruct l as [|x l]; [by destruct m|]. destruct m as [|m]; [simpl in Hm; lia|].
  cbn [blocks_fuel]. f_equal. apply IH; rewrite length_drop; simpl in *; lia.
Qed.

Lemma blocks_cons l : l <> [] -> blocks l = take 16 l :: blocks (drop 16 l).
Proof.
  intros Hl. destruct l as [|x l]; [done|]. unfold blocks at 1. cbn [length blocks_fuel]. f_equal.
  apply blocks_fuel_enough. rewrite length_drop. simpl. lia.
Qed.

Lemma blocks_app (n : nat) a b : length a = (16 * n)%nat -> blocks (a ++ b) = blocks a ++ blocks b.
Proof.
  revert a. induction n as [|n IH]; intros a Ha; [by destruct a|].
  assert (Ha0 : a <> []) by (intros ->; simpl in Ha; lia).
  rewrite (blocks_cons (a ++ b)) by (by destruct a). rewrite (blocks_cons a) by done. cbn [app].
  rewrite take_app_le, drop_app_le by lia. rewrite IH; [done|]. rewrite length_drop. lia.
Qed.

(** ** CTR and CCM *)

Lemma ctr_loop_enough fuel key nonce c l : (length l <= fuel)%nat -> ctr_loop fuel key nonce c l = ctr_loop (length l) key nonce c l.
Proof.
  generalize (le_n (length l)). generalize (length l) at 2 4 as m.
  revert c l. induction fuel as [|fuel IH]; intros c l m Hm Hf.
  { destruct l; [by destruct m|simpl in Hf; lia]. }
  destruct l as [|x l]; [by destruct m|]. destruct m as [|m]; [simpl in Hm; lia|].
  cbn [ctr_loop]. f_equal. apply IH; rewrite length_drop; simpl in *; lia.
Qed.

Lemma ctr_loop_cons key nonce c l : l <> [] ->
  ctr_loop (length l) key nonce c l = xorBytes (take 16 l) (AES key (ctr_block nonce c)) ++
    ctr_loop (length (drop 16 l)) key nonce ((c + 1) mod 2 ^ 32) (drop 16 l).
Proof.
  intros Hl. destruct l as [|x l]; [done|]. cbn [length ctr_loop]. f_equal.
  apply ctr_loop_enough. rewrite length_drop. simpl. lia.
Qed.

Lemma len_ctr_loop (P : primitives) fuel key nonce c l : (length l <= fuel)%nat -> len (ctr_loop fuel key nonce c l) = len l.
Proof.
  revert c l. induction fuel as [|fuel IH]; intros c l Hf; [destruct l; [done|simpl in Hf; lia]|].
  destruct l as [|x l]; [done|]. cbn [ctr_loop].
  rewrite len_app, len_xorBytes, (AES_len P), IH by (rewrite length_drop; simpl in *; lia).
  unfold len. rewrite length_take, length_drop. lia.
Qed.

Lemma len_ctrXor (P : primitives) key nonce l : len (ctrXor key nonce l) = len l.
Proof. by apply len_ctr_loop. Qed.

(** Decrypting is encrypting again: the key stream depends on the nonce and the
    position only. *)
Lemma ctrXor_involutive (P : primitives) key nonce l : ctrXor key nonce (ctrXor key nonce l) = l.
Proof.
  unfold ctrXor. generalize 1 as c. remember (length l) as n eqn:Hn. revert l Hn.
  induction n as [n IH] using lt_wf_ind. intros l -> c. destruct (decide (l = [])) as [->|Hl]; [done|].
  rewrite (ctr_loop_cons key nonce c l Hl). set (ks := AES key (ctr_block nonce c)). set (h := xorBytes (take 16 l) ks).
  set (rest := ctr_loop (length (drop 16 l)) key nonce ((c + 1) mod 2 ^ 32) (drop 16 l)).
  assert (Hks : len ks = 16) by apply (AES_len P).
  assert (Hh : len h = Z.min (len l) 16).
  { unfold h. rewrite len_xorBytes, Hks. unfold len. rewrite length_take. lia. }
  assert (Hlr : len rest = len (drop 16 l)) by by apply len_ctr_loop.
  assert (Hlen : length (h ++ rest) = length l).
  { unfold len in *. rewrite length_app, length_drop in *. lia. }
  assert (Hne : h ++ rest <> []) by (intros He; rewrite He in Hlen; destruct l; simpl in Hlen; [done|lia]).
  assert (Hsplit : take 16 (h ++ rest) = h /\ drop 16 (h ++ rest) = rest).
  { destruct (decide (16 <= length l)%nat).
    - assert (length h = 16%nat) by (unfold len in *; lia). by rewrite take_app_length', drop_app_length'.
    - assert (rest = []) as ->. { apply len_zero. rewrite Hlr. unfold len. rewrite length_drop. lia. }
      rewrite app_nil_r. split; [apply take_ge|apply drop_ge]; unfold len in *; lia. }
  destruct Hsplit as [H1 H2]. rewrite (ctr_loop_cons key nonce c (h ++ rest) Hne), H1, H2. unfold h. fold ks.
  rewrite xor_cancel by (unfold len in *; rewrite length_take; lia).
  rewrite <- (take_drop 16 l) at 2. f_equal. unfold rest. apply (IH (length (drop 16 l))); [|done].
  rewrite length_drop. destruct l; [done|simpl; lia].
Qed.

Lemma ctEq_refl a : ctEq a a = true.
Proof.
  unfold ctEq. rewrite Z.eqb_refl. simpl. apply Z.eqb_eq.
  assert (Hz : forall (l : bytes) (z : Z), fold_left Z.lor (zip_with (fun x y => Z.lxor (b2z x) (b2z y)) l l) z = z).
  { induction l as [|x l IH]; intros z; [done|]. simpl. rewrite Z.lxor_nilpotent, Z.lor_0_r. apply IH. }
  apply Hz.
Qed.

Lemma len_mac_blocks (P : primitives) key mac bs : len mac = 16 -> len (mac_blocks key mac bs) = 16.
Proof.
  unfold mac_blocks. revert mac. induction bs as [|b bs IH]; intros mac Hm; [done|]. simpl. apply IH.
  unfold mac_step. apply (AES_len P).
Qed.

Lemma len_computeTag (P : primitives) key nonce pt aad : len (computeTag key nonce pt aad) = 16.
Proof.
  unfold computeTag. apply (len_mac_blocks P). destruct (0 <? len aad); [apply (len_mac_blocks P)|]; apply (AES_len P).
Qed.

Lemma len_ctrEncryptTag (P : primitives) key nonce tag : len tag = 16 -> len (ctrEncryptTag key nonce tag) = 16.
Proof. intros H. unfold ctrEncryptTag. rewrite len_xorBytes, H, (AES_len P). done. Qed.

Lemma len_ccmSeal (P : primitives) key nonce pt aad : len (ccmSeal key nonce pt aad) = len pt + 16.
Proof.
  unfold ccmSeal. rewrite len_app, (len_ctrXor P), len_get; [done|lia|done|].
  rewrite len_ctrEncryptTag by (done || by apply len_computeTag). done.
Qed.

(** CCM decrypts what it encrypted, for every 128-bit block cipher, every
    plaintext and associated data: with an 11-byte nonce, [Open] accepts the
    output of [Seal] and returns the plaintext, and [Seal] adds exactly the
    16-byte tag; [Open] refuses an input too short to hold a tag. *)
Theorem ccm_roundtrip (P : primitives) (key nonce pt aad ct : bytes) : len nonce = ccmNonceSize ->
  ccmOpen key nonce (ccmSeal key nonce pt aad) aad = Some pt /\
  len (ccmSeal key nonce pt aad) = len pt + ccmTagSize /\
  (len ct < ccmTagSize -> ccmOpen key nonce ct aad = None).
Proof.
  intros Hn. pose proof (len_ccmSeal P key nonce pt aad) as Hl. unfold ccmTagSize. split_and!; [|done|].
  - pose proof (len_nonneg pt). unfold ccmOpen, ccmTagSize. rewrite Hn, Z.eqb_refl, Hl. simpl.
    destruct (Z.ltb_spec (len pt + 16) 16); [lia|]. replace (len pt + 16 - 16) with (len pt) by lia.
    set (tag := get (ctrEncryptTag key nonce (computeTag key nonce pt aad)) 0 ccmTagSize).
    assert (Htag : len tag = 16).
    { unfold tag, ccmTagSize. rewrite len_get; [done|lia|lia|]. rewrite len_ctrEncryptTag by (done || by apply len_computeTag). done. }
    assert (Hs : ccmSeal key nonce pt aad = ctrXor key nonce pt ++ tag) by done. rewrite Hs.
    rewrite get_app_exact by (by rewrite (len_ctrXor P)).
    rewrite get_app_r, (len_ctrXor P), Z.sub_diag, get_all by (rewrite ?(len_ctrXor P); lia).
    rewrite (ctrXor_involutive P). fold ccmTagSize. fold tag. by rewrite ctEq_refl.
  - intros Hc. unfold ccmOpen, ccmTagSize. rewrite Hn, Z.eqb_refl. simpl. destruct (Z.ltb_spec (len ct) 16); [done|lia].
Qed.

(** ** The transform header *)

Lemma splice_app_l off (d a b : bytes) : 0 <= off -> off + len d <= len a -> splice off d (a ++ b) = splice off d a ++ b.
Proof.
  intros Ho Hd. unfold splice, len in *. rewrite take_app_le, drop_app_le by lia. by rewrite <- !app_assoc.
Qed.

Lemma get_app_both (a b : bytes) n : 0 <= n -> get (a ++ b) 0 (len a + n) = a ++ get b 0 n.
Proof.
  intros Hn. unfold get, len. rewrite !drop_0, Z2Nat.inj_add, Nat2Z.id by lia. by rewrite take_app_add.
Qed.

Lemma splice_splice off (a b s : bytes) : 0 <= off -> len a = len b -> off + len a <= len s ->
  splice off a (splice off b s) = splice off a s.
Proof.
  intros Ho He Hl. apply list_eq. intros i. rewrite !lookup_splice; rewrite ?len_splice; try lia.
  case_decide; [done|]. by rewrite decide_False by lia.
Qed.

Lemma splice_get off n (s : bytes) : 0 <= off -> 0 <= n -> off + n <= len s -> splice off (get s off n) s = s.
Proof.
  intros Ho Hn Hl. apply list_eq. intros i. rewrite lookup_splice by (rewrite ?len_get; lia).
  case_decide as Hi; [|done]. rewrite len_get in Hi by lia. rewrite lookup_get, decide_True by lia. f_equal. lia.
Qed.

Definition header_fields (nonce : bytes) (n sessID : Z) : list (Z * bytes) :=
  [(0, transformProtocolID); (20, nonce); (36, le_split 4 n); (42, le_split 2 TransformFlagEncrypted); (44, le_split 8 sessID)].

Definition transform_header (nonce : bytes) (n sessID : Z) : bytes :=
  writes (zeros TransformHeaderSize) (header_fields nonce n sessID).

Lemma transform_fits nonce n sessID : 8 <= len nonce <= 16 -> fits 52 (header_fields nonce n sessID).
Proof. intros H. unfold header_fields, transformProtocolID. fits_tac. Qed.

Lemma len_transform_header nonce n sessID : 8 <= len nonce <= 16 -> len (transform_header nonce n sessID) = 52.
Proof. intros H. apply len_writes; [by apply transform_fits|done]. Qed.

(** What [EncryptTransform] builds: the header with the tag moved into it, and
    the ciphertext. *)
Lemma EncryptTransform_frame (P : primitives) counter prefix cid key sessID pt a :
  newAEAD cid key = Ok a -> len prefix = 8 -> 0 <= counter -> counter + 1 < 2 ^ 64 ->
  let nonce := (nextNonce counter prefix (nonceLen a)).2 in
  let hdr := transform_header nonce (len pt) sessID in
  let s := Seal a nonce pt (get hdr 20 32) in
  EncryptTransform counter prefix cid key sessID pt = (Ok (splice 4 (get s (len pt) 16) hdr ++ get s 0 (len pt)), counter + 1) /\
  11 <= nonceLen a <= 12 /\ len nonce = nonceLen a /\ get nonce 0 8 = le_split 8 (counter + 1) /\
  len s = len pt + 16 /\ AeadOpen a nonce s (get hdr 20 32) = Some pt.
Proof.
  intros Ha Hp Hc Hc' nonce hdr s.
  assert (Hnl : 11 <= nonceLen a <= 12 /\ forall n p ad, len n = nonceLen a ->
    len (Seal a n p ad) = len p + 16 /\ AeadOpen a n (Seal a n p ad) ad = Some p).
  { unfold newAEAD in Ha. repeat case_match; try discriminate; injection Ha as <-; simpl; (split; [lia|intros n p ad Hn]).
    all: try (split; [apply (GCM_len P)|apply (GCM_open P)]).
    all: destruct (ccm_roundtrip P (get key 0 16) n p ad [] Hn) as (? & ? & _) ||
         destruct (ccm_roundtrip P (get key 0 32) n p ad [] Hn) as (? & ? & _).
    all: try (destruct (ccm_roundtrip P (get key 0 32) n p ad [] Hn) as (? & ? & _)); by split. }
  destruct Hnl as [Hnl Hseal].
  assert (Hn : len nonce = nonceLen a /\ get nonce 0 8 = le_split 8 (counter + 1)).
  { unfold nonce, nextNonce. cbn [snd]. rewrite Z.mod_small by lia. split.
    - apply len_get; [lia|lia|]. rewrite len_app, len_le_split, Hp. lia.
    - transitivity (get (le_split 8 (counter + 1) ++ prefix) 0 8); [|by apply get_app_exact; rewrite len_le_split].
      unfold get. rewrite !drop_0, take_take. f_equal. lia. }
  destruct Hn as [Hn Hn8]. destruct (Hseal nonce pt (get hdr 20 32) Hn) as [Hls Hopen]. fold s in Hls, Hopen.
  assert (Hh : len hdr = 52) by (apply len_transform_header; lia). pose proof (len_nonneg pt).
  split_and!; try done; try lia. unfold EncryptTransform. rewrite Ha.
  destruct (Z.ltb_spec 16 (nonceLen a)); [lia|]. destruct (Z.ltb_spec (nonceLen a) 8); [lia|]. cbn [orb].
  unfold nonce in *. destruct (nextNonce counter prefix (nonceLen a)) as [c' n'] eqn:Hnn.
  assert (c' = counter + 1) as ->.
  { unfold nextNonce in Hnn. injection Hnn as <- _. by rewrite Z.mod_small by lia. }
  cbn [snd] in *. f_equal. f_equal. unfold transformAADStart, transformAADLen. fold (header_fields n' (len pt) sessID).
  fold (transform_header n' (len pt) sessID). fold hdr. fold s.
  rewrite len_app, Hh, Hls. replace (52 + (len pt + 16) - 16) with (len hdr + len pt) by lia.
  rewrite get_app_r, Z.add_simpl_l by lia.
  rewrite splice_app_l by (rewrite ?len_get; lia).
  rewrite <- (len_splice 4 (get s (len pt) 16) hdr) by (rewrite ?len_get; lia). by apply get_app_both.
Qed.

(** The header's fields survive the tag. *)
Lemma transform_fields nonce n sessID tag b : 8 <= len nonce <= 16 -> 0 <= n < 2 ^ 32 -> 0 <= sessID < 2 ^ 64 -> len tag = 16 ->
  let frame := splice 4 tag (transform_header nonce n sessID) ++ b in
  get frame 0 4 = transformProtocolID /\ get frame 4 16 = tag /\ get frame 20 (len nonce) = nonce /\
  le_combine (get frame 36 4) = n /\ le_combine (get frame 42 2) = TransformFlagEncrypted /\
  le_combine (get frame 44 8) = sessID /\ get frame 20 32 = get (transform_header nonce n sessID) 20 32 /\
  get frame 52 (len b) = b /\ len frame = 52 + len b.
Proof.
  intros Hn Hsz Hs Ht frame. pose proof (len_transform_header nonce n sessID Hn) as Hh.
  assert (Hl : len (splice 4 tag (transform_header nonce n sessID)) = 52) by (rewrite len_splice; lia).
  pose proof (len_nonneg b).
  assert (Hin : forall off k, 0 <= off -> 0 <= k -> off + k <= 52 -> off + k <= 4 \/ 20 <= off ->
    get frame off k = get (transform_header nonce n sessID) off k).
  { intros off k ? ? ? ?. unfold frame. rewrite get_app_l, get_splice_ne by lia. done. }
  rewrite (Hin 0), (Hin 20 (len nonce)), (Hin 36), (Hin 42), (Hin 44), (Hin 20 32) by lia. clear Hin.
  pose proof (transform_fits nonce n sessID Hn) as Hf. unfold transform_header in *. unfold header_fields in Hf |- *. unfold TransformHeaderSize in *.
  change 52 with (len (zeros 52)) in Hf. unfold TransformFlagEncrypted, transformProtocolID in *.
  split_and!.
  - by wfield.
  - unfold frame. rewrite get_app_l, get_splice_eq by lia. done.
  - erewrite (get_writes_at _ _ 1%nat); [reflexivity|reflexivity|exact Hf|done|]. aparts.
  - wfield. by fields.
  - wfield. by fields.
  - wfield. by fields.
  - done.
  - unfold frame. rewrite get_app_r by lia. rewrite Hl. by apply get_all.
  - unfold frame. rewrite len_app. lia.
Qed.

(** C13: A frame the server encrypts is decrypted to the same message and the same
    SessionId by whoever holds the key, for each of the four ciphers: the tag
    moves into the header's signature field and back, the nonce and the
    associated data are the ones the seal used, and the frame is the message's
    length and a 52-byte header. *)
Theorem transform_roundtrip (P : primitives) (counter : Z) (prefix key pt : bytes) (cid sessID : Z) (a : aead) :
  newAEAD cid key = Ok a -> len prefix = 8 -> 0 <= counter -> counter + 1 < 2 ^ 64 ->
  len pt < 2 ^ 32 -> 0 <= sessID < 2 ^ 64 ->
  exists frame, EncryptTransform counter prefix cid key sessID pt = (Ok frame, counter + 1) /\
    IsTransform frame = true /\ len frame = TransformHeaderSize + len pt /\
    DecryptTransform cid key frame = Ok (pt, sessID).
Proof.
  intros Ha Hp Hc Hc' Hpt Hs. pose proof (len_nonneg pt).
  destruct (EncryptTransform_frame P counter prefix cid key sessID pt a Ha Hp Hc Hc') as (He & Hnl & Hn & _ & Hls & Ho).
  set (nonce := (nextNonce counter prefix (nonceLen a)).2) in *. set (hdr := transform_header nonce (len pt) sessID) in *.
  set (s := Seal a nonce pt (get hdr 20 32)) in *. eexists. split; [exact He|].
  assert (Htag : len (get s (len pt) 16) = 16) by (rewrite len_get; lia).
  assert (Hct : len (get s 0 (len pt)) = len pt) by (rewrite len_get; lia).
  destruct (transform_fields nonce (len pt) sessID (get s (len pt) 16) (get s 0 (len pt)))
    as (F1 & F2 & F3 & F4 & F5 & F6 & F7 & F8 & F9); [lia..|]. fold hdr in F1, F2, F3, F4, F5, F6, F7, F8, F9.
  set (frame := splice 4 (get s (len pt) 16) hdr ++ get s 0 (len pt)) in *. rewrite Hct in F8, F9. clearbody frame.
  assert (HI : IsTransform frame = true).
  { unfold IsTransform. rewrite F1, bool_decide_true by done. destruct (Z.leb_spec 4 (len frame)); [done|lia]. }
  split_and!; [exact HI|unfold TransformHeaderSize; lia|]. unfold DecryptTransform. rewrite HI.
  unfold TransformHeaderSize, transformAADStart, transformAADLen. destruct (Z.ltb_spec (len frame) 52); [lia|]. cbn [negb].
  rewrite u32_Ok, u16_Ok, u64_Ok by lia. cbn [mbind outcome_bind]. rewrite F4, F5, F6. cbn [Z.land Z.eqb].
  change (Z.land TransformFlagEncrypted TransformFlagEncrypted =? 0) with false. cbn iota.
  rewrite (slice_Ok frame 52 (len frame)), F9, Z.add_simpl_l, F8 by lia. cbn [mbind outcome_bind].
  rewrite Hct, Z.ltb_irrefl, Ha. cbn [mbind outcome_bind].
  rewrite (slice_Ok frame 20 (20 + nonceLen a)), Z.add_simpl_l, <- Hn, F3 by lia. cbn [mbind outcome_bind].
  rewrite (slice_Ok frame 4 20), (slice_Ok frame 20 (20 + 32)) by lia. cbn [mbind outcome_bind].
  change (20 - 4) with 16. change (20 + 32 - 20) with 32. rewrite F2, F7.
  assert (Hsp : get s 0 (len pt) ++ get s (len pt) 16 = s).
  { unfold get. rewrite drop_0. rewrite <- (take_drop (Z.to_nat (len pt)) s) at 3. f_equal. apply take_ge.
    rewrite length_drop. unfold len in *. lia. }
  by rewrite Hsp, Ho.
Qed.

(** ** Nonces *)

(** One process: the frames it encrypts, in order. *)
Fixpoint encrypt_all (counter : Z) (prefix : bytes) (reqs : list (Z * bytes * Z * bytes))
    : list (outcome transformErr bytes) :=
  match reqs with
  | [] => []
  | (cid, key, sessID, pt) :: reqs =>
      let '(r, counter) := EncryptTransform counter prefix cid key sessID pt in
      r :: encrypt_all counter prefix reqs
  end.

Lemma EncryptTransform_nonce (P : primitives) counter prefix cid key sessID pt :
  len prefix = 8 -> 0 <= counter -> counter + 1 < 2 ^ 64 ->
  match EncryptTransform counter prefix cid key sessID pt with
  | (Ok frame, c) => c = counter + 1 /\ le_combine (get frame 20 8) = counter + 1
  | (_, c) => c = counter
  end.
Proof.
  intros Hp Hc Hc'. destruct (newAEAD cid key) as [a|e|] eqn:Ha; [|unfold EncryptTransform; by rewrite Ha..].
  destruct (EncryptTransform_frame P counter prefix cid key sessID pt a Ha Hp Hc Hc') as (-> & Hnl & Hn & Hn8 & Hls & _).
  set (nonce := (nextNonce counter prefix (nonceLen a)).2) in *. set (hdr := transform_header nonce (len pt) sessID) in *.
  set (s := Seal a nonce pt (get hdr 20 32)) in *. split; [done|]. pose proof (len_nonneg pt).
  assert (Hh : len hdr = 52) by (apply len_transform_header; lia).
  assert (Htag : len (get s (len pt) 16) = 16) by (rewrite len_get; lia).
  assert (Hsp : len (splice 4 (get s (len pt) 16) hdr) = 52) by (rewrite len_splice; lia).
  rewrite get_app_l, get_splice_ne by lia.
  assert (Hg : get hdr 20 (len nonce) = nonce).
  { pose proof (transform_fits nonce (len pt) sessID ltac:(lia)) as Hf. unfold hdr, transform_header, header_fields in *.
    unfold transformProtocolID, TransformHeaderSize in *. change 52 with (len (zeros 52)) in Hf.
    erewrite (get_writes_at _ _ 1%nat); [reflexivity|reflexivity|exact Hf|done|]. aparts. }
  assert (Hg8 : get hdr 20 8 = get nonce 0 8).
  { rewrite <- Hg. unfold get. rewrite drop_0, take_take. f_equal. lia. }
  rewrite Hg8, Hn8. by apply (le_combine_le_split 8 _ (2 ^ 64)); [done|lia].
Qed.

Lemma encrypt_all_range (P : primitives) counter prefix reqs i frame :
  len prefix = 8 -> 0 <= counter -> counter + len reqs < 2 ^ 64 ->
  encrypt_all counter prefix reqs !! i = Some (Ok frame) -> counter < le_combine (get frame 20 8).
Proof.
  intros Hp. revert counter i. induction reqs as [|[[[cid key] sessID] pt] reqs IH]; intros counter i Hc Hl Hi; [done|].
  rewrite len_cons in Hl. pose proof (len_nonneg reqs). cbn [encrypt_all] in Hi.
  pose proof (EncryptTransform_nonce P counter prefix cid key sessID pt Hp Hc ltac:(lia)) as Hn.
  destruct (EncryptTransform counter prefix cid key sessID pt) as [[f|e|] c].
  all: destruct i as [|i]; cbn in Hi; [simplify_eq; try lia|].
  all: apply IH in Hi; lia.
Qed.

(** No two frames this process ever encrypts carry the same nonce, whatever
    the sessions, keys and ciphers and however many requests fail in between,
    for as many frames as a 64-bit counter counts. *)
Theorem nonces_unique (P : primitives) (prefix : bytes) (reqs : list (Z * bytes * Z * bytes)) (i j : nat) (f g : bytes) :
  len prefix = 8 -> len reqs < 2 ^ 64 -> i <> j ->
  encrypt_all 0 prefix reqs !! i = Some (Ok f) -> encrypt_all 0 prefix reqs !! j = Some (Ok g) ->
  get f 20 8 <> get g 20 8.
Proof.
  intros Hp Hl. assert (Hg : forall counter i j f g, 0 <= counter -> counter + len reqs < 2 ^ 64 -> (i < j)%nat ->
    encrypt_all counter prefix reqs !! i = Some (Ok f) -> encrypt_all counter prefix reqs !! j = Some (Ok g) ->
    le_combine (get f 20 8) < le_combine (get g 20 8)).
  { clear Hl i j f g. induction reqs as [|[[[cid key] sessID] pt] rest IH]; intros counter i j f g Hc Hl Hij Hi Hj; [done|].
    rewrite len_cons in Hl. pose proof (len_nonneg rest). cbn [encrypt_all] in Hi, Hj.
    pose proof (EncryptTransform_nonce P counter prefix cid key sessID pt Hp Hc ltac:(lia)) as Hn.
    destruct j as [|j]; [lia|]. destruct (EncryptTransform counter prefix cid key sessID pt) as [r c]. cbn in Hi, Hj.
    assert (Hcc : 0 <= c /\ c + len rest < 2 ^ 64) by (destruct r; lia).
    destruct i as [|i]; [|cbn in Hi; eapply IH; [..|exact Hi|exact Hj]; lia].
    cbn in Hi. injection Hi as ->. destruct Hn as [-> Hf].
    pose proof (encrypt_all_range P (counter + 1) prefix rest j g Hp ltac:(lia) ltac:(lia) Hj). lia. }
  intros Hij Hi Hj He. destruct (Nat.lt_total i j) as [H|[H|H]]; [|done|].
  - pose proof (Hg 0 i j f g ltac:(lia) ltac:(lia) H Hi Hj). rewrite He in *. lia.
  - pose proof (Hg 0 j i g f ltac:(lia) ltac:(lia) H Hj Hi). rewrite He in *. lia.
Qed.

(** ** CMAC is RFC 4493 *)

Definition cbc_chain (key iv : bytes) (bs : list bytes) : bytes := fold_left (fun x b => AES key (xorBytes b x)) bs iv.

Lemma CryptBlocks_cbc (P : primitives) key iv bs : bs <> [] ->
  (CryptBlocks key iv bs).2 = cbc_chain key iv bs /\
  get (CryptBlocks key iv bs).1 (16 * len bs - 16) 16 = cbc_chain key iv bs /\ len (CryptBlocks key iv bs).1 = 16 * len bs.
Proof.
  revert iv. induction bs as [|b bs IH]; intros iv Hb; [done|]. cbn [CryptBlocks cbc_chain fold_left].
  set (c := AES key (xorBytes b iv)). assert (Hc : len c = 16) by apply (AES_len P).
  rewrite len_cons. destruct (decide (bs = [])) as [->|Hne].
  - cbn. rewrite app_nil_r. split_and!; [done|by apply get_all|done].
  - destruct (IH c Hne) as (H1 & H2 & H3). destruct (CryptBlocks key c bs) as [out iv']. cbn [fst snd] in *.
    pose proof (len_nonneg bs). assert (1 <= len bs) by (destruct bs; [done|rewrite len_cons; pose proof (len_nonneg bs); lia]).
    split_and!; [done| |rewrite len_app; lia]. rewrite get_app_r by lia.
    transitivity (get out (16 * len bs - 16) 16); [f_equal; lia|exact H2].
Qed.

Lemma len_blocks (k : nat) l : length l = (16 * k)%nat -> len (blocks l) = Z.of_nat k.
Proof.
  revert l. induction k as [|k IH]; intros l Hl; [by destruct l|].
  rewrite blocks_cons by (intros ->; simpl in Hl; lia). rewrite len_cons, IH; [lia|]. rewrite length_drop. lia.
Qed.

Lemma get_split (l : bytes) n m : 0 <= n -> 0 <= m -> get l 0 (n + m) = get l 0 n ++ get l n m.
Proof. intros. unfold get. rewrite !drop_0, Z2Nat.inj_add by lia. by rewrite take_take_drop. Qed.

Lemma blocks_get_split (l : bytes) (n m : Z) : 0 <= n -> n mod 16 = 0 -> 0 <= m -> n + m <= len l ->
  blocks (get l 0 (n + m)) = blocks (get l 0 n) ++ blocks (get l n m).
Proof.
  intros Hn Hm Hm0 Hl. rewrite get_split by lia. apply (blocks_app (Z.to_nat (n / 16))).
  pose proof (len_get l 0 n ltac:(lia) Hn ltac:(lia)) as Hg. unfold len in Hg.
  apply Z.div_exact in Hm; [|done]. lia.
Qed.

Lemma cmac_prefix_spec (P : primitives) fuel key msg off prefixLen iv x :
  0 <= off -> off mod 16 = 0 -> prefixLen mod 16 = 0 -> prefixLen <= len msg -> Z.max 0 (prefixLen - off) < Z.of_nat fuel ->
  (off < prefixLen /\ iv = cbc_chain key (zeros 16) (blocks (get msg 0 off))) \/
  (prefixLen <= off /\ x = cbc_chain key (zeros 16) (blocks (get msg 0 prefixLen))) ->
  cmac_prefix fuel key iv msg off prefixLen x = Some (cbc_chain key (zeros 16) (blocks (get msg 0 prefixLen))).
Proof.
  revert off iv x. induction fuel as [|fuel IH]; intros off iv x Ho Hm Hpm Hl Hf Hst; [lia|]. cbn [cmac_prefix].
  destruct Hst as [[Hlt ->]|[Hge ->]]; [|by rewrite (proj2 (Z.ltb_ge _ _) Hge)].
  rewrite (proj2 (Z.ltb_lt _ _) Hlt). unfold cmacChunk. set (end_ := Z.min (off + 4096) prefixLen).
  assert (Hem : end_ mod 16 = 0 /\ off < end_ <= prefixLen).
  { split; [|lia]. destruct (Z.min_spec (off + 4096) prefixLen) as [[_ He]|[_ He]]; unfold end_; rewrite He; [|done].
    change 4096 with (256 * 16). by rewrite Z.mod_add. }
  destruct Hem as [Hem Hend].
  assert (Hk : exists k, (0 < k)%nat /\ end_ - off = 16 * Z.of_nat k).
  { exists (Z.to_nat (end_ / 16 - off / 16)). apply Z.div_exact in Hem, Hm; [lia..|done|done]. }
  destruct Hk as (k & Hk & Hlen).
  assert (Hbl : len (blocks (get msg off (end_ - off))) = Z.of_nat k).
  { apply len_blocks. pose proof (len_get msg off (end_ - off) ltac:(lia) ltac:(lia) ltac:(lia)) as Hg.
    unfold len in Hg. lia. }
  destruct (CryptBlocks_cbc P key (cbc_chain key (zeros 16) (blocks (get msg 0 off))) (blocks (get msg off (end_ - off))))
    as (H1 & H2 & H3). { intros He. rewrite He in Hbl. unfold len in Hbl. simpl in Hbl. lia. }
  destruct (CryptBlocks _ _ _) as [scratch iv']. cbn [fst snd] in *. rewrite Hbl in H2. rewrite <- Hlen in H2.
  assert (Hch : cbc_chain key (cbc_chain key (zeros 16) (blocks (get msg 0 off))) (blocks (get msg off (end_ - off))) =
    cbc_chain key (zeros 16) (blocks (get msg 0 end_))).
  { replace end_ with (off + (end_ - off)) at 2 by lia. rewrite blocks_get_split by lia. unfold cbc_chain.
    by rewrite <- fold_left_app. }
  rewrite Hch in H1, H2. apply IH; [lia|change 4096 with (256 * 16); by rewrite Z.mod_add|done|done|lia|].
  destruct (decide (off + 4096 < prefixLen)); [left|right]; (split; [lia|]).
  - rewrite H1. do 3 f_equal. lia.
  - rewrite H2. do 3 f_equal. lia.
Qed.

Lemma drop_zeros (k : nat) n : drop k (zeros n) = zeros (n - Z.of_nat k).
Proof. unfold zeros. rewrite drop_replicate. f_equal. lia. Qed.

Lemma splice_pad (d : bytes) x : len d < 16 ->
  splice (len d) [x] (splice 0 d (zeros 16)) = d ++ x :: zeros (15 - len d).
Proof.
  intros Hd. assert (H0 : splice 0 d (zeros 16) = d ++ zeros (16 - len d)).
  { unfold splice. cbn [Z.to_nat take app]. by rewrite drop_zeros. }
  rewrite H0. unfold splice. rewrite take_app_length' by (unfold len; lia). cbn [app]. do 2 f_equal.
  rewrite drop_app_ge by (unfold len; simpl; lia). rewrite drop_zeros. f_equal. unfold len in *. simpl. lia.
Qed.

Lemma CMAC_rfc (P : primitives) (key msg : bytes) : CMAC key msg = Some (rfc4493 key msg).
Proof.
  unfold CMAC, rfc4493. destruct (cmacSubkeys key) as [k1 k2]. pose proof (len_nonneg msg).
  set (n := if len msg =? 0 then 1 else (len msg + 15) / 16).
  set (complete := (0 <? len msg) && (len msg mod 16 =? 0)).
  set (prefixLen := if complete then len msg - 16 else len msg / 16 * 16).
  assert (Hw : 16 * (n - 1) = prefixLen /\ 0 <= prefixLen <= len msg /\ prefixLen mod 16 = 0 /\
    (complete = true -> len msg - prefixLen = 16) /\ (complete = false -> len msg - prefixLen < 16)).
  { unfold n, prefixLen, complete. destruct (Z.eqb_spec (len msg) 0), (Z.ltb_spec 0 (len msg)), (Z.eqb_spec (len msg mod 16) 0);
      cbn [andb]; split_and!; try done; Z.to_euclidean_division_equations; lia. }
  destruct Hw as (-> & Hp & Hpm & Hc1 & Hc2). set (rem := get msg prefixLen (len msg - prefixLen)).
  assert (Hr : len rem = len msg - prefixLen) by (apply len_get; lia).
  assert (Hlast : (if complete then xorBytes rem k1
                   else xorBytes (splice (len rem) [z2b 128] (splice 0 rem (zeros 16))) k2) =
    (if len rem =? 16 then xorBytes rem k1 else xorBytes (rem ++ z2b 128 :: zeros (15 - len rem)) k2)).
  { destruct complete; destruct (Z.eqb_spec (len rem) 16); [done|lia..|]. f_equal.
    apply splice_pad. specialize (Hc2 eq_refl). lia. }
  rewrite Hlast. change (fold_left _ (blocks (get msg 0 prefixLen)) (zeros 16)) with
    (cbc_chain key (zeros 16) (blocks (get msg 0 prefixLen))).
  destruct (Z.ltb_spec 0 prefixLen) as [Hpos|].
  - rewrite (cmac_prefix_spec P (S (length msg)) key msg 0 prefixLen (zeros 16) (zeros 16)); try done; try lia.
    + unfold len in *. lia.
    + by left.
  - assert (prefixLen = 0) as -> by lia. done.
Qed.


(** ** Signing *)

Lemma len_computeMAC (P : primitives) algo key msg : len (computeMAC algo key msg) = 16.
Proof.
  unfold computeMAC. destruct (algo =? SignAlgoAESGMAC).
  - unfold gmacSign. destruct (negb _); [done|]. unfold pad16.
    assert (Hd : len (get (GCMSeal key (gmac_nonce msg) [] msg) 0 16) = 16).
    { apply len_get; [lia|lia|]. rewrite (GCM_len P). unfold len. simpl. lia. }
    rewrite len_app, Hd. done.
  - destruct (algo =? SignAlgoHMACSHA256).
    + unfold hmacSHA256Sign. rewrite len_get; [done|lia|lia|]. rewrite (HMAC_len P). lia.
    + rewrite (CMAC_rfc P). unfold rfc4493. destruct (cmacSubkeys key). apply (AES_len P).
Qed.

Lemma flag_signed (b : bytes) v : 20 <= len b ->
  Z.testbit (le_combine (get (splice 16 [z2b (Z.lor v 0x08)] b) 16 4)) 3 = true.
Proof.
  intros Hl. unfold get, splice, len in *. rewrite drop_app_length' by (rewrite length_take; lia).
  change (Z.to_nat 4) with 4%nat. change (take 4 ([z2b (Z.lor v 8)] ++ ?l)) with (z2b (Z.lor v 8) :: take 3 l).
  change (le_combine (?h :: ?t)) with (Z.lor (b2z h) (Z.shiftl (le_combine t) 8)).
  rewrite Z.lor_spec, byte.unsigned_of_Z. unfold byte.wrap.
  rewrite (Z.mod_pow2_bits_low (Z.lor v 8) 8 3), Z.lor_spec by lia. change (Z.testbit 8 3) with true.
  by rewrite orb_true_r.
Qed.

(** What signing does to a message. *)
Lemma SignMessage_spec (P : primitives) (algo : Z) (key msg : bytes) : 64 <= len msg ->
  exists body, SignMessage algo key msg = splice 48 (computeMAC algo key body) body /\
    len body = len msg /\ zero_signature (SignMessage algo key msg) = body /\
    Z.testbit (le_combine (get body 16 4)) 3 = true /\
    forall off n, 0 <= off -> 0 <= n -> off + n <= len msg -> off + n <= 16 \/ (17 <= off /\ off + n <= 48) \/ 64 <= off ->
      get (SignMessage algo key msg) off n = get msg off n.
Proof.
  intros Hl. set (flag := z2b (Z.lor (byte_at (zero_signature msg) 16) 0x08)).
  set (body := splice 16 [flag] (zero_signature msg)). exists body.
  assert (Hz : len (zeros 16) = 16) by done. pose proof (len_computeMAC P algo key body) as Hm.
  assert (Hzs : len (zero_signature msg) = len msg) by (unfold zero_signature; rewrite len_splice; lia).
  assert (Hf : len [flag] = 1) by done. assert (Hb : len body = len msg) by (unfold body; rewrite len_splice; lia).
  assert (Hs : SignMessage algo key msg = splice 48 (computeMAC algo key body) body).
  { unfold SignMessage. destruct (Z.ltb_spec (len msg) 64); [lia|done]. }
  split_and!; [done|done| | |].
  - rewrite Hs. unfold zero_signature at 1. rewrite splice_splice by lia. apply list_eq. intros i.
    rewrite lookup_splice by lia. unfold body. rewrite lookup_splice by lia.
    rewrite Hf. unfold zero_signature. rewrite lookup_splice by lia. repeat case_decide; (done || lia).
  - apply (flag_signed (zero_signature msg)). lia.
  - intros off n Ho Hn Hle Hr. rewrite Hs, get_splice_ne by lia. unfold body.
    rewrite get_splice_ne by lia. unfold zero_signature. apply get_splice_ne; lia.
Qed.

Lemma len_SignMessage (P : primitives) algo key msg : len (SignMessage algo key msg) = len msg.
Proof.
  destruct (Z.ltb_spec (len msg) 64) as [Hl|Hl]; [unfold SignMessage; by rewrite (proj2 (Z.ltb_lt _ _) Hl)|].
  destruct (SignMessage_spec P algo key msg Hl) as (body & -> & Hb & _).
  rewrite len_splice; rewrite ?(len_computeMAC P); lia.
Qed.

(** What the server signs, verifies: for each signing algorithm, key and
    message of at least a header, the signed message passes verification with
    the same key; signing sets the signed flag and changes nothing else but the
    signature field; and a message passes only with the signature this key
    gives the rest of it. *)
Theorem sign_verify (P : primitives) (algo : Z) (key msg : bytes) : Header.HeaderSize <= len msg ->
  let signed := SignMessage algo key msg in
  VerifyMessage algo key signed = true /\ len signed = len msg /\
  Z.testbit (le_combine (get signed 16 4)) 3 = true /\
  (forall off n, 0 <= off -> 0 <= n -> off + n <= len msg -> off + n <= 16 \/ (17 <= off /\ off + n <= 48) \/ 64 <= off ->
     get signed off n = get msg off n) /\
  (VerifyMessage algo key msg = true -> get msg 48 16 = computeMAC algo key (zero_signature msg)).
Proof.
  intros Hl signed. unfold Header.HeaderSize in Hl. pose proof (len_SignMessage P algo key msg) as Hlen.
  destruct (SignMessage_spec P algo key msg Hl) as (body & Hs & Hb & Hz & Hbit & Hkeep). fold signed in Hs, Hz, Hkeep, Hlen.
  pose proof (len_computeMAC P algo key body) as Hm. split_and!; try done.
  - unfold VerifyMessage. destruct (Z.ltb_spec (len signed) 64); [lia|]. rewrite Hz. apply bool_decide_eq_true.
    rewrite Hs. symmetry. apply get_splice_eq; lia.
  - by rewrite Hs, get_splice_ne by lia.
  - unfold VerifyMessage. destruct (Z.ltb_spec (len msg) 64); [done|]. intros Hv. by apply bool_decide_eq_true in Hv.
Qed.

(** ** Key derivation *)

Lemma KDF_one (P : primitives) key label context L : L = 128 \/ L = 256 ->
  KDF key label context L = Some (get (kdf_block key label context L 1) 0 (L / 8)).
Proof.
  intros HL. assert (Hk : len (kdf_block key label context L 1) = 32) by apply (HMAC_len P). unfold KDF.
  destruct HL as [-> | ->].
  - change (Z.to_nat (128 / 256) + 2)%nat with 2%nat. cbn [kdf_loop]. by rewrite app_nil_l, Hk.
  - change (Z.to_nat (256 / 256) + 2)%nat with 3%nat. cbn [kdf_loop]. by rewrite app_nil_l, Hk.
Qed.

(** The keys a session derives fit what they are for: for each cipher the
    server can negotiate, the cipher key has the length [newAEAD] asks for, so
    encryption never fails for its key; and every 128-bit key is one AES takes,
    so the GMAC signer never falls back to its zero tag. *)
Theorem derived_keys_fit (P : primitives) (key label context : bytes) (cid : Z) :
  CipherAES128CCM <= cid <= CipherAES256GCM ->
  (exists k a, KDF key label context (CipherKeyBits cid) = Some k /\ newAEAD cid k = Ok a /\
     len k = CipherKeyBits cid / 8) /\
  exists k, KDF key label context 128 = Some k /\ len k = 16 /\ aes_key k = true.
Proof.
  intros Hc. assert (Hlen : forall L, L = 128 \/ L = 256 ->
    len (get (kdf_block key label context L 1) 0 (L / 8)) = L / 8).
  { intros L HL. assert (Hk : len (kdf_block key label context L 1) = 32) by apply (HMAC_len P).
    assert (Hd : 0 <= L / 8 <= 32) by (destruct HL as [-> | ->]; by vm_compute).
    apply len_get; [lia|lia|]. rewrite Hk. lia. }
  split.
  - assert (cid = 1 \/ cid = 2 \/ cid = 3 \/ cid = 4) as [-> |[-> |[-> | ->]]]
      by (unfold CipherAES128CCM, CipherAES256GCM in Hc; lia).
    all: unfold CipherKeyBits; cbn; rewrite KDF_one by (done || tauto); eexists _, _; split; [reflexivity|].
    all: unfold newAEAD; cbn; rewrite Hlen by tauto; by split.
  - exists (get (kdf_block key label context 128 1) 0 (128 / 8)). pose proof (Hlen 128 ltac:(tauto)) as Hl.
    split_and!; [by rewrite KDF_one by tauto|done|]. unfold aes_key. by rewrite Hl.
Qed.
End Crypto.

(** The GMAC nonce takes the async bit from any header: a synchronous response
    has 1 there, an asynchronous one 3, and a CANCEL request without the async
    flag 0.  The comment on [gmacSign] masks with the redirect bit alone and sets
    the async bit for CANCEL requests only. *)
Theorem gmac_nonce_async_bit :
  let h flags cmd := Header.mkHeader 1 0 cmd 1 flags 0 7 0 9 (zeros 16) in
  (exists b, Header.EncodeHeader (zeros 64) (h 0x1 Const.CommandChangeNotify) = Ok b /\ get (gmac_nonce b) 8 1 = [Byte.x01]) /\
  (exists b, Header.EncodeAsyncHeader (zeros 64) (h 0x1 Const.CommandChangeNotify) 5 = Ok b /\
     get (gmac_nonce b) 8 1 = [Byte.x03]) /\
  (exists b, Header.EncodeHeader (zeros 64) (h 0 Const.CommandCancel) = Ok b /\ get (gmac_nonce b) 8 1 = [Byte.x00]).
Proof. repeat split; eexists; (split; [reflexivity|vm_compute; reflexivity]). Qed.

(** ** Examples: primitives that satisfy the laws, without any secrecy *)

Definition ex_AES (k b : bytes) : bytes := take 16 (b ++ zeros 16).
Definition ex_HMAC (k m : bytes) : bytes := take 32 (m ++ zeros 32).
Definition ex_Seal (k n p a : bytes) : bytes := p ++ zeros 16.
Definition ex_Open (k n c a : bytes) : option bytes := Some (take (length c - 16) c).

Lemma ex_primitives : primitives ex_AES ex_HMAC ex_Seal ex_Open.
Proof.
  split.
  - intros k b. unfold ex_AES, len, zeros. rewrite length_take, length_app, length_replicate. lia.
  - intros k b. unfold ex_HMAC, len, zeros. rewrite length_take, length_app, length_replicate. lia.
  - intros k n p a. unfold ex_Seal. by rewrite len_app.
  - intros k n p a. unfold ex_Open, ex_Seal. f_equal. rewrite length_app. apply take_app_length'. unfold zeros. simpl. lia.
Qed.

Definition ex_key : bytes := replicate 32 Byte.x2a.

Lemma ccm_roundtrip_witness :
  ccmOpen ex_AES ex_key (replicate 11 Byte.x01) (ccmSeal ex_AES ex_key (replicate 11 Byte.x01) [Byte.x68; Byte.x69] [Byte.x61]) [Byte.x61]
  = Some [Byte.x68; Byte.x69].
Proof.
  apply (ccm_roundtrip ex_AES ex_HMAC ex_Seal ex_Open ex_primitives ex_key (replicate 11 Byte.x01) [Byte.x68; Byte.x69] [Byte.x61] []).
  reflexivity.
Defined.

Lemma transform_roundtrip_witness : exists frame,
  DecryptTransform ex_AES ex_Seal ex_Open CipherAES256CCM ex_key frame = Ok ([Byte.x68; Byte.x69], 7).
Proof.
  destruct (transform_roundtrip ex_AES ex_HMAC ex_Seal ex_Open ex_primitives 0 (zeros 8) ex_key [Byte.x68; Byte.x69]
    CipherAES256CCM 7 (newCCM ex_AES (get ex_key 0 32))) as (frame & _ & _ & _ & H).
  - reflexivity.
  - reflexivity.
  - lia.
  - lia.
  - reflexivity.
  - lia.
  - exists frame. exact H.
Defined.

Definition ex_reqs : list (Z * bytes * Z * bytes) := [(CipherAES128GCM, ex_key, 7, [Byte.x68]); (9, ex_key, 7, []); (CipherAES128CCM, ex_key, 8, [])].

Lemma nonces_unique_witness : exists f g,
  encrypt_all ex_AES ex_Seal ex_Open 0 (zeros 8) ex_reqs !! 0%nat = Some (Ok f) /\
  encrypt_all ex_AES ex_Seal ex_Open 0 (zeros 8) ex_reqs !! 2%nat = Some (Ok g) /\ get f 20 8 <> get g 20 8.
Proof.
  do 2 eexists. split; [vm_compute; reflexivity|]. split; [vm_compute; reflexivity|].
  apply (nonces_unique ex_AES ex_HMAC ex_Seal ex_Open ex_primitives (zeros 8) ex_reqs 0 2).
  - reflexivity.
  - reflexivity.
  - lia.
  - vm_compute. reflexivity.
  - vm_compute. reflexivity.
Defined.


Lemma sign_verify_witness :
  VerifyMessage ex_AES ex_HMAC ex_Seal SignAlgoAESCMAC ex_key
    (SignMessage ex_AES ex_HMAC ex_Seal SignAlgoAESCMAC ex_key (replicate 70 Byte.x33)) = true.
Proof.
  apply (sign_verify ex_AES ex_HMAC ex_Seal ex_Open ex_primitives SignAlgoAESCMAC ex_key (replicate 70 Byte.x33)).
  vm_compute. discriminate.
Defined.

Lemma derived_keys_fit_witness : exists k, KDF ex_HMAC ex_key [] [] 128 = Some k /\ len k = 16.
Proof.
  destruct (derived_keys_fit ex_AES ex_HMAC ex_Seal ex_Open ex_primitives ex_key [] [] CipherAES256GCM) as [_ (k & Hk & Hl & _)].
  - vm_compute. split; discriminate.
  - exists k. split; [exact Hk|exact Hl].
Defined.
End Smb3.
