(* ===== verification/Frames.v ===== *)
(** Frames and chains: the NBSS framing of [internal/transport/nbss.go], the
    credits of [credits.go], the chain a frame holds ([serveFrame] and
    [frameNeedsSerialExecution] of [internal/parent/conn.go]) and the compounded
    responses of [compound.go]. *)

From S2P Require Import Prelude Smb2 Smb3.

Module Nbss.

Definition FrameHeaderSize : Z := 4.
Definition frameTypeSessionMessage : Z := 0x00.
Definition MaxFrameSize : Z := 16 * 1024 * 1024.

Inductive frameErr := ErrUnsupportedFrameType | ErrFrameTooLarge | ErrUnexpectedEOF | ErrShortPreframed.

(** [io.ReadFull]: the bytes and what is left of the stream. *)
Definition ReadFull (r : bytes) (n : Z) : option (bytes * bytes) :=
  if len r <? n then None else Some (get r 0 n, drop (Z.to_nat n) r).

(** The payload and the rest of the stream. *)
Definition ReadFrame (r : bytes) (maxSize : Z) : (bytes * bytes) + frameErr :=
  match ReadFull r 4 with
  | Some (hdr, r) =>
      let at_ i := le_combine (get hdr i 1) in
      if negb (at_ 0 =? frameTypeSessionMessage) then inr ErrUnsupportedFrameType else
      let length := Z.lor (Z.lor (Z.shiftl (at_ 1) 16) (Z.shiftl (at_ 2) 8)) (at_ 3) in
      if maxSize <? length then inr ErrFrameTooLarge else
      if length =? 0 then inl ([], r) else
      match ReadFull r length with Some (payload, r) => inl (payload, r) | None => inr ErrUnexpectedEOF end
  | None => inr ErrUnexpectedEOF
  end.

(** The buffer with its header filled in. *)
Definition PutFrameHeader (buf : bytes) : bytes + frameErr :=
  if len buf <? FrameHeaderSize then inr ErrShortPreframed else
  let n := len buf - FrameHeaderSize in
  if 0xFFFFFF <? n then inr ErrFrameTooLarge else
  inl (writes buf [(0, [z2b frameTypeSessionMessage]); (1, [z2b (Z.shiftr n 16)]); (2, [z2b (Z.shiftr n 8)]); (3, [z2b n])]).

Definition WriteFrame (payload : bytes) : bytes + frameErr :=
  if 0xFFFFFF <? len payload then inr ErrFrameTooLarge else PutFrameHeader (zeros FrameHeaderSize ++ payload).

Lemma frame_length n : 0 <= n <= 0xFFFFFF ->
  Z.lor (Z.lor (Z.shiftl (b2z (z2b (Z.shiftr n 16))) 16) (Z.shiftl (b2z (z2b (Z.shiftr n 8))) 8)) (b2z (z2b n)) = n.
Proof.
  intros Hn. rewrite !byte.unsigned_of_Z. unfold byte.wrap. apply Z.bits_inj'. intros i Hi.
  rewrite !Z.lor_spec, !Z.shiftl_spec by done.
  destruct (Z.ltb_spec i 8).
  { rewrite !(Z.testbit_neg_r _ (i - _)) by lia. by rewrite Z.mod_pow2_bits_low by lia. }
  rewrite (Z.mod_pow2_bits_high n 8 i) by lia. rewrite orb_false_r. destruct (Z.ltb_spec i 16).
  { rewrite (Z.testbit_neg_r _ (i - 16)) by lia. rewrite Z.mod_pow2_bits_low, Z.shiftr_spec by lia. rewrite orb_false_l.
    by replace (i - 8 + 8) with i by lia. }
  rewrite (Z.mod_pow2_bits_high (Z.shiftr n 8)) by lia. rewrite orb_false_r. destruct (Z.ltb_spec i 24).
  { rewrite Z.mod_pow2_bits_low, Z.shiftr_spec by lia. by replace (i - 16 + 16) with i by lia. }
  rewrite Z.mod_pow2_bits_high by lia. symmetry. apply (range_bits 24); lia.
Qed.

Lemma le_combine_one (b : Byte.byte) : le_combine [b] = b2z b.
Proof. change (le_combine [b]) with (Z.lor (b2z b) (Z.shiftl 0 8)). by rewrite Z.shiftl_0_l, Z.lor_0_r. Qed.

(** A frame the server writes is read back: [ReadFrame] takes exactly the
    payload off the stream and leaves what follows it, whenever the reader's cap
    admits the payload; a payload a 24-bit length cannot express is refused and
    nothing is written. *)
Theorem frame_roundtrip (payload rest : bytes) (maxSize : Z) : len payload <= maxSize ->
  match WriteFrame payload with
  | inl frame => len frame = FrameHeaderSize + len payload /\ ReadFrame (frame ++ rest) maxSize = inl (payload, rest)
  | inr e => e = ErrFrameTooLarge /\ 0xFFFFFF < len payload
  end.
Proof.
  intros Hm. unfold WriteFrame. destruct (Z.ltb_spec 0xFFFFFF (len payload)) as [|Hl]; [done|].
  pose proof (len_nonneg payload). pose proof (len_nonneg rest).
  unfold PutFrameHeader, FrameHeaderSize. rewrite len_app. change (len (zeros 4)) with 4.
  destruct (Z.ltb_spec (4 + len payload) 4); [lia|]. rewrite Z.add_simpl_l.
  destruct (Z.ltb_spec 0xFFFFFF (len payload)); [lia|]. set (n := len payload) in *.
  set (ps := [(0, [z2b frameTypeSessionMessage]); (1, [z2b (Z.shiftr n 16)]); (2, [z2b (Z.shiftr n 8)]); (3, [z2b n])]).
  assert (Hw : writes (zeros 4 ++ payload) ps =
    [z2b frameTypeSessionMessage; z2b (Z.shiftr n 16); z2b (Z.shiftr n 8); z2b n] ++ payload).
  { unfold ps, writes, zeros. cbn [fold_left fst snd]. unfold splice. done. }
  rewrite Hw. split; [by rewrite len_app|]. set (h := [z2b frameTypeSessionMessage; _; _; _]).
  assert (Hrf : ReadFull ((h ++ payload) ++ rest) 4 = Some (h, payload ++ rest)).
  { unfold ReadFull. rewrite !len_app. change (len h) with 4. fold n.
    destruct (Z.ltb_spec (4 + n + len rest) 4); [lia|]. by rewrite <- app_assoc, get_app_exact. }
  unfold ReadFrame. rewrite Hrf. cbv zeta.
  change (get h 0 1) with [z2b frameTypeSessionMessage]. change (get h 1 1) with [z2b (Z.shiftr n 16)].
  change (get h 2 1) with [z2b (Z.shiftr n 8)]. change (get h 3 1) with [z2b n]. rewrite !le_combine_one.
  change (negb (b2z (z2b frameTypeSessionMessage) =? frameTypeSessionMessage)) with false. cbn iota.
  rewrite frame_length by lia. rewrite (proj2 (Z.ltb_ge _ _) Hm). destruct (Z.eqb_spec n 0) as [Hz|].
  - apply len_zero in Hz. by rewrite Hz.
  - unfold ReadFull. rewrite len_app. destruct (Z.ltb_spec (len payload + len rest) n); [lia|].
    rewrite get_app_exact by done. do 2 f_equal. apply drop_app_length'. unfold n, len. lia.
Qed.

Lemma frame_roundtrip_witness : exists frame, WriteFrame [Byte.x61] = inl frame /\
  ReadFrame (frame ++ [Byte.x62]) 16 = inl ([Byte.x61], [Byte.x62]).
Proof.
  pose proof (frame_roundtrip [Byte.x61] [Byte.x62] 16 ltac:(vm_compute; discriminate)) as H.
  eexists. split; [reflexivity|]. exact (proj2 H).
Defined.
End Nbss.

Module Credits.

Definition creditWindow : Z := 512.

Definition grantCredits (creditCharge reqCredit : Z) : Z :=
  let floor := if creditCharge <? 1 then 1 else creditCharge in
  let g := reqCredit in
  let g := if g <? floor then floor else g in
  let g := if creditWindow <? g then creditWindow else g in
  if g <? floor then floor else g.

(** A response always gives back the credits its request was charged, and at
    least one; what a client asks for beyond that is granted up to the window,
    which only the charge itself exceeds; and the grant fits its 16-bit field. *)
Theorem grantCredits_spec (creditCharge reqCredit : Z) :
  0 <= creditCharge < 2 ^ 16 -> 0 <= reqCredit < 2 ^ 16 ->
  let g := grantCredits creditCharge reqCredit in
  1 <= g < 2 ^ 16 /\ creditCharge <= g /\
  g = Z.max (Z.max 1 creditCharge) (Z.min creditWindow reqCredit) /\
  (creditWindow < g -> g = creditCharge).
Proof.
  intros Hc Hr. unfold grantCredits, creditWindow. cbv zeta.
  repeat case_match; lia.
Qed.

Lemma grantCredits_spec_witness : 1 <= grantCredits 8 128 < 2 ^ 16 /\ grantCredits 8 128 = 128.
Proof.
  destruct (grantCredits_spec 8 128) as (H & _ & He & _); [lia|lia|]. split; [exact H|]. rewrite He. reflexivity.
Defined.
End Credits.

Module Chain.

(** ** Walking the chain of an inbound frame *)

(** The loop of [serveFrame], the dispatch apart: the messages in order, each
    with its header, and whether the walk ended well. *)
Fixpoint walk_loop (fuel : nat) (frame : bytes) (off : Z) : list (Header.Header * bytes) * bool :=
  match fuel with
  | O => ([], true)
  | S fuel =>
      if off <? len frame then
        if len frame - off <? Header.HeaderSize then ([], false) else
        match Header.DecodeHeader (get frame off Header.HeaderSize) with
        | Ok hdr =>
            let next := Header.NextCommand hdr in
            if next =? 0 then ([(hdr, get frame off (len frame - off))], true) else
            if next <? Header.HeaderSize then ([], false) else
            let end_ := off + next in
            if len frame <? end_ then ([], false) else
            let '(msgs, ok) := walk_loop fuel frame end_ in
            ((hdr, get frame off (end_ - off)) :: msgs, ok)
        | _ => ([], false)
        end
      else ([], true)
  end.

(** Each message takes at least a header, so [length frame] steps are enough. *)
Definition walk (frame : bytes) : list (Header.Header * bytes) * bool := walk_loop (S (length frame)) frame 0.

(** [frameNeedsSerialExecution] *)
Fixpoint serial_loop (fuel : nat) (frame : bytes) (off : Z) : bool :=
  match fuel with
  | O => true
  | S fuel =>
      if off <? len frame then
        if len frame - off <? Header.HeaderSize then true else
        match Header.DecodeHeader (get frame off Header.HeaderSize) with
        | Ok hdr =>
            if Header.Command hdr =? Const.CommandSessionSetup then true else
            let next := Header.NextCommand hdr in
            if next =? 0 then false else
            if next <? Header.HeaderSize then true else
            if len frame <? off + next then true else serial_loop fuel frame (off + next)
        | _ => true
        end
      else true
  end.

Definition frameNeedsSerialExecution (frame : bytes) : bool := serial_loop (S (length frame)) frame 0.

(** One message of the walk: a whole header, inside the frame. *)
Definition message_ok (frame : bytes) (p : Header.Header * bytes) : Prop :=
  Header.HeaderSize <= len p.2 /\ exists off, 0 <= off /\ off + len p.2 <= len frame /\ p.2 = get frame off (len p.2) /\
    Header.DecodeHeader (get frame off Header.HeaderSize) = Ok p.1.

Lemma walk_loop_spec fuel frame off msgs ok : 0 <= off -> walk_loop fuel frame off = (msgs, ok) ->
  Forall (message_ok frame) msgs.
Proof.
  revert off msgs ok. induction fuel as [|fuel IH]; intros off msgs ok Ho; cbn [walk_loop]; [by intros [= <- <-]|].
  unfold Header.HeaderSize. destruct (Z.ltb_spec off (len frame)); [|by intros [= <- <-]].
  destruct (Z.ltb_spec (len frame - off) 64); [by intros [= <- <-]|].
  destruct (Header.DecodeHeader (get frame off 64)) as [hdr|e|] eqn:Hd; [|by intros [= <- <-]..].
  destruct (Z.eqb_spec (Header.NextCommand hdr) 0).
  { intros [= <- <-]. constructor; [|constructor]. split; simpl; rewrite len_get by lia; [unfold Header.HeaderSize; lia|].
    exists off. split_and!; [lia|lia|done|done]. }
  destruct (Z.ltb_spec (Header.NextCommand hdr) 64); [by intros [= <- <-]|].
  destruct (Z.ltb_spec (len frame) (off + Header.NextCommand hdr)); [by intros [= <- <-]|].
  destruct (walk_loop fuel frame (off + Header.NextCommand hdr)) as [ms o] eqn:Hw. intros [= <- <-].
  constructor; [|eapply IH; [|exact Hw]; lia]. split; simpl; rewrite len_get by lia; [unfold Header.HeaderSize; lia|].
  exists off. split_and!; [lia|lia|done|done].
Qed.

Lemma serial_loop_walk fuel frame off : 0 <= off -> len frame - off < Z.of_nat fuel ->
  serial_loop fuel frame off = false ->
  (walk_loop fuel frame off).2 = true /\ (walk_loop fuel frame off).1 <> [] /\
  Forall (fun p => Header.Command p.1 <> Const.CommandSessionSetup) (walk_loop fuel frame off).1.
Proof.
  revert off. induction fuel as [|fuel IH]; intros off Ho Hf; cbn [serial_loop walk_loop]; [done|].
  unfold Header.HeaderSize. destruct (Z.ltb_spec off (len frame)); [|done].
  destruct (Z.ltb_spec (len frame - off) 64); [done|].
  destruct (Header.DecodeHeader (get frame off 64)) as [hdr|e|]; [|done..].
  destruct (Z.eqb_spec (Header.Command hdr) Const.CommandSessionSetup); [done|].
  destruct (Z.eqb_spec (Header.NextCommand hdr) 0); [simpl; repeat constructor; done|].
  destruct (Z.ltb_spec (Header.NextCommand hdr) 64); [done|].
  destruct (Z.ltb_spec (len frame) (off + Header.NextCommand hdr)); [done|].
  intros Hs. apply IH in Hs as (Hw1 & Hw2 & Hw3); [|lia|lia].
  destruct (walk_loop fuel frame (off + Header.NextCommand hdr)) as [ms o]. simpl in *. split_and!; [done|done|].
  by constructor.
Qed.

(** The server's walk of a chain reads only inside the frame, every message
    it dispatches has a whole header, and a frame that is handed to the worker
    pool is a well-formed chain with no SESSION_SETUP in it: that command, the
    one that must not run beside another, and every malformed frame, are run
    alone. *)
Theorem parallel_frames (frame : bytes) :
  Forall (message_ok frame) (walk frame).1 /\
  (frameNeedsSerialExecution frame = false ->
     (walk frame).2 = true /\ (walk frame).1 <> [] /\
     Forall (fun p => Header.Command p.1 <> Const.CommandSessionSetup) (walk frame).1).
Proof.
  split.
  - unfold walk. destruct (walk_loop _ _ _) as [msgs ok] eqn:Hw. eapply walk_loop_spec; [|exact Hw]. done.
  - intros Hs. apply serial_loop_walk; [done|unfold len; lia|done].
Qed.

(** ** Compounded responses *)

Definition padTo8 (n : Z) : Z := let r := n mod 8 in if negb (r =? 0) then n + 8 - r else n.

(** A finished response without its NBSS headroom, the session it belongs to
    and whether it goes out encrypted. *)
Record pendingMsg := mkPending { pm_msg : bytes; pm_sess : option Z; pm_encrypt : bool }.

Definition compoundMemberLen (msg : bytes) (last : bool) : Z := if last then len msg else padTo8 (len msg).

(** The members [flush] sends together: those that share the first one's session
    and encryption decision. *)
Definition same_group (a b : pendingMsg) : bool :=
  bool_decide (pm_sess a = pm_sess b) && Bool.eqb (pm_encrypt a) (pm_encrypt b).

Fixpoint span (m : pendingMsg) (msgs : list pendingMsg) : list pendingMsg * list pendingMsg :=
  match msgs with
  | x :: rest => if same_group x m then let '(g, r) := span m rest in (x :: g, r) else ([], msgs)
  | [] => ([], [])
  end.

Fixpoint groups_fuel (fuel : nat) (msgs : list pendingMsg) : list (list pendingMsg) :=
  match fuel, msgs with
  | S fuel, m :: rest => let '(g, r) := span m rest in (m :: g) :: groups_fuel fuel r
  | _, _ => []
  end.
Definition flush_groups (msgs : list pendingMsg) : list (list pendingMsg) := groups_fuel (length msgs) msgs.

Section Compound.
Context (AES HMAC : bytes -> bytes -> bytes) (GCMSeal : bytes -> bytes -> bytes -> bytes -> bytes)
  (GCMOpen : bytes -> bytes -> bytes -> bytes -> option bytes).

(** [signResponse]: the key a session signs with, empty for none. *)
Definition signResponse (algo : Z) (signingKey : Z -> bytes) (sess : option Z) (msg : bytes) : bytes :=
  match sess with
  | Some s => if len (signingKey s) =? 0 then msg else Smb3.SignMessage AES HMAC GCMSeal algo (signingKey s) msg
  | None => msg
  end.

(** One member of the frame: its padding, its NextCommand, then its signature. *)
Definition member (algo : Z) (signingKey : Z -> bytes) (sess : option Z) (encrypt last : bool) (msg : bytes) : bytes :=
  let n := compoundMemberLen msg last in
  let m := splice Header.NextCommandOffset (le_split 4 (if last then 0 else n)) (msg ++ zeros (n - len msg)) in
  if encrypt then m else signResponse algo signingKey sess m.

Fixpoint members (algo : Z) (signingKey : Z -> bytes) (sess : option Z) (encrypt : bool) (msgs : list bytes) : list bytes :=
  match msgs with
  | [] => []
  | [m] => [member algo signingKey sess encrypt true m]
  | m :: rest => member algo signingKey sess encrypt false m :: members algo signingKey sess encrypt rest
  end.

(** [sendCompound], for two members or more: the plaintext of the frame. *)
Definition compound (algo : Z) (signingKey : Z -> bytes) (sess : option Z) (encrypt : bool) (msgs : list bytes) : bytes :=
  concat (members algo signingKey sess encrypt msgs).

(** An SMB2 message: a header that decodes, in a buffer. *)
Definition smb2_message (m : bytes) : Prop :=
  Header.HeaderSize <= len m /\ get m 0 4 = Header.protocolID /\ le_combine (get m 4 2) = Header.headerStructureSize.

Lemma padTo8_spec n : 0 <= n -> n <= padTo8 n < n + 8 /\ padTo8 n mod 8 = 0.
Proof.
  intros Hn. unfold padTo8. pose proof (Z.mod_pos_bound n 8 eq_refl).
  destruct (Z.eqb_spec (n mod 8) 0) as [He|He]; simpl; [lia|]. split; [lia|].
  rewrite (Z.div_mod n 8) at 1 by done. replace (8 * (n / 8) + n mod 8 + 8 - n mod 8) with ((n / 8 + 1) * 8) by lia.
  by rewrite Z.mod_mul.
Qed.

Lemma compoundMemberLen_spec msg last : len msg <= compoundMemberLen msg last < len msg + 8 /\
  (last = false -> compoundMemberLen msg last mod 8 = 0) /\ (last = true -> compoundMemberLen msg last = len msg).
Proof.
  pose proof (padTo8_spec (len msg) (len_nonneg msg)). unfold compoundMemberLen. destruct last; split_and!; try lia; done.
Qed.

(** A response: a message whose length an [int32] holds. *)
Definition response (m : bytes) : Prop := smb2_message m /\ len m < 2 ^ 31.

(** What a client reads in a member. *)
Record member_ok (last : bool) (msg m : bytes) : Prop := {
  mem_len : len m = compoundMemberLen msg last;
  mem_msg : smb2_message m;
  mem_next : exists h, Header.DecodeHeader (get m 0 64) = Ok h /\
    Header.NextCommand h = if last then 0 else compoundMemberLen msg last;
  mem_body : get m 64 (len msg - 64) = get msg 64 (len msg - 64);
  mem_status : get m 8 8 = get msg 8 8 /\ get m 24 24 = get msg 24 24
}.

Lemma smb2_decode m : smb2_message m -> exists h, Header.DecodeHeader (get m 0 64) = Ok h /\
  Header.NextCommand h = le_combine (get m 20 4).
Proof.
  unfold smb2_message, Header.HeaderSize. intros (Hl & Hp & Hs).
  assert (Hsub : forall off n, 0 <= off -> 0 <= n -> off + n <= 64 -> get (get m 0 64) off n = get m off n).
  { intros off n ? ? ?. apply list_eq. intros i. rewrite !lookup_get by lia. case_decide; [|done].
    rewrite decide_True by lia. f_equal. }
  eexists. rewrite Header.DecodeHeader_fields; [split; [reflexivity|cbn [Header.NextCommand]; by rewrite Hsub by lia]|..].
  - rewrite len_get; lia.
  - by rewrite Hsub by lia.
  - by rewrite Hsub by lia.
Qed.

Lemma signResponse_keeps (P : Smb3.primitives AES HMAC GCMSeal GCMOpen) algo signingKey sess m : 64 <= len m ->
  len (signResponse algo signingKey sess m) = len m /\
  forall off n, 0 <= off -> 0 <= n -> off + n <= len m -> off + n <= 16 \/ (17 <= off /\ off + n <= 48) \/ 64 <= off ->
    get (signResponse algo signingKey sess m) off n = get m off n.
Proof.
  intros Hl. unfold signResponse. destruct sess as [s|]; [|done]. destruct (len (signingKey s) =? 0); [done|].
  split; [by apply (Smb3.len_SignMessage AES HMAC GCMSeal GCMOpen P)|].
  by destruct (Smb3.SignMessage_spec AES HMAC GCMSeal GCMOpen P algo (signingKey s) m Hl) as (? & _ & _ & _ & _ & ?).
Qed.

Lemma member_spec (P : Smb3.primitives AES HMAC GCMSeal GCMOpen) algo signingKey sess encrypt last msg :
  response msg -> member_ok last msg (member algo signingKey sess encrypt last msg).
Proof.
  intros [(Hl & Hp & Hs) Hmax]. unfold Header.HeaderSize in Hl.
  destruct (compoundMemberLen_spec msg last) as (Hn & _ & _). set (n := compoundMemberLen msg last) in *.
  set (next := if last then 0 else n). set (padded := msg ++ zeros (n - len msg)).
  assert (Hlp : len padded = n) by (unfold padded; rewrite len_app, len_zeros; lia).
  set (m0 := splice 20 (le_split 4 next) padded).
  assert (H4 : len (le_split 4 next) = 4) by done. assert (Hl0 : len m0 = n) by (unfold m0; rewrite len_splice; lia).
  (* the member keeps what the message had, but for the two fields *)
  assert (Hkeep : exists m, member algo signingKey sess encrypt last msg = m /\ len m = n /\
    forall off k, 0 <= off -> 0 <= k -> off + k <= n -> off + k <= 16 \/ (17 <= off /\ off + k <= 48) \/ 64 <= off ->
      get m off k = get m0 off k).
  { unfold member. fold n. fold next. fold padded. change Header.NextCommandOffset with 20. fold m0.
    destruct encrypt; [by exists m0|]. destruct (signResponse_keeps P algo signingKey sess m0) as [Hk1 Hk2]; [lia|].
    eexists. split; [done|]. rewrite Hk1. split; [done|]. rewrite <- Hl0. exact Hk2. }
  destruct Hkeep as (m & -> & Hlm & Hk).
  assert (Hmsg : forall off k, 0 <= off -> 0 <= k -> off + k <= len msg ->
    off + k <= 16 \/ (24 <= off /\ off + k <= 48) \/ 64 <= off -> get m off k = get msg off k).
  { intros off k ? ? ? ?. rewrite Hk by lia. unfold m0. rewrite get_splice_ne by lia. unfold padded. by rewrite get_app_l by lia. }
  assert (Hsm : smb2_message m).
  { split; [unfold Header.HeaderSize; lia|]. rewrite !Hmsg by lia. done. }
  split; [done|done| |apply Hmsg; lia|split; apply Hmsg; lia].
  destruct (smb2_decode m Hsm) as (h & Hd & Hnx). exists h. split; [done|]. rewrite Hnx, Hk by lia.
  unfold m0. rewrite get_splice_eq by lia. apply (le_combine_le_split 4 next (2 ^ 32)); [done|].
  unfold next. destruct last; lia.
Qed.

(** Walking what [sendCompound] sent gives the members back. *)
Lemma walk_members (P : Smb3.primitives AES HMAC GCMSeal GCMOpen) algo signingKey sess encrypt msgs pre fuel :
  msgs <> [] -> Forall response msgs ->
  let ms := members algo signingKey sess encrypt msgs in
  len (concat ms) < Z.of_nat fuel ->
  exists out, walk_loop fuel (pre ++ concat ms) (len pre) = (out, true) /\ out.*2 = ms.
Proof.
  revert pre fuel. induction msgs as [|msg msgs IH]; intros pre fuel Hne Hf ms Hfuel; [done|].
  apply Forall_cons in Hf as [Hm Hf]. destruct fuel as [|fuel]; [pose proof (len_nonneg (concat ms)); lia|].
  set (last := match msgs with [] => true | _ => false end).
  assert (Hms : ms = member algo signingKey sess encrypt last msg :: members algo signingKey sess encrypt msgs)
    by (unfold ms, last; by destruct msgs).
  destruct (member_spec P algo signingKey sess encrypt last msg Hm) as [Hl Hsm (h & Hd & Hnx) _ _].
  set (m := member algo signingKey sess encrypt last msg) in *. rewrite Hms in *. cbn [concat] in *.
  rewrite len_app in Hfuel. set (tl := concat (members algo signingKey sess encrypt msgs)) in *.
  pose proof Hsm as [Hl64 _]. unfold Header.HeaderSize in Hl64. pose proof (len_nonneg pre). pose proof (len_nonneg tl).
  cbn [walk_loop]. rewrite !len_app. unfold Header.HeaderSize.
  destruct (Z.ltb_spec (len pre) (len pre + (len m + len tl))); [|lia].
  destruct (Z.ltb_spec (len pre + (len m + len tl) - len pre) 64); [lia|].
  assert (Hg : forall k, 0 <= k <= len m -> get (pre ++ m ++ tl) (len pre) k = get m 0 k).
  { intros k Hk. rewrite get_app_r by lia. rewrite Z.sub_diag. by rewrite get_app_l by lia. }
  rewrite Hg, Hd by lia. rewrite Hnx. unfold last. destruct msgs as [|msg' msgs].
  - assert (tl = []) as -> by done. rewrite Z.eqb_refl, len_nil, Z.add_0_r, Z.add_simpl_l. eexists. split; [done|].
    cbn. rewrite Hg by lia. by rewrite get_all.
  - fold last. change (compoundMemberLen msg false) with (compoundMemberLen msg last). rewrite <- Hl.
    destruct (Z.eqb_spec (len m) 0); [lia|]. destruct (Z.ltb_spec (len m) 64); [lia|].
    destruct (Z.ltb_spec (len pre + (len m + len tl)) (len pre + len m)); [lia|].
    destruct (IH (pre ++ m) fuel ltac:(done) Hf) as (out & Hout & Hsnd). { fold tl. lia. }
    fold tl in Hout. rewrite <- app_assoc, len_app in Hout. rewrite Hout. eexists. split; [done|].
    cbn. rewrite Hsnd, Z.add_simpl_l, Hg by lia. by rewrite get_all.
Qed.

(** What a client reads in the [i]-th message of the frame. *)
Definition reads_as (msg : bytes) (p : Header.Header * bytes) : Prop :=
  get p.2 8 8 = get msg 8 8 /\ get p.2 24 24 = get msg 24 24 /\
  get p.2 64 (len msg - 64) = get msg 64 (len msg - 64) /\ len msg <= len p.2 < len msg + 8.

Lemma members_read (P : Smb3.primitives AES HMAC GCMSeal GCMOpen) algo signingKey sess encrypt msgs out :
  Forall response msgs -> out.*2 = members algo signingKey sess encrypt msgs -> Forall2 reads_as msgs out.
Proof.
  intros Hf. revert out. induction Hf as [|msg msgs Hm Hf IH]; intros out Ho; [by destruct out|].
  assert (Hms : members algo signingKey sess encrypt (msg :: msgs) =
    member algo signingKey sess encrypt (match msgs with [] => true | _ => false end) msg ::
    members algo signingKey sess encrypt msgs) by by destruct msgs.
  rewrite Hms in Ho. destruct out as [|p out]; [done|]. injection Ho as Hp Ho. constructor; [|by apply IH].
  destruct (member_spec P algo signingKey sess encrypt (match msgs with [] => true | _ => false end) msg Hm)
    as [Hl _ _ Hb [Hs1 Hs2]]. unfold reads_as. rewrite Hp, Hs1, Hs2, Hb, Hl. split_and!; try done.
  all: apply (compoundMemberLen_spec msg).
Qed.

(** A compounded response parses: walking the frame the server builds out of
    several responses, by the NextCommand of each header, ends well and yields
    exactly one message per response, in order, each with the status, command,
    MessageId, SessionId and body of its response and at most seven bytes of
    padding; what is read is byte for byte what was signed. *)
Theorem compound_parses (P : Smb3.primitives AES HMAC GCMSeal GCMOpen) (algo : Z) (signingKey : Z -> bytes)
    (sess : option Z) (encrypt : bool) (msgs : list bytes) :
  msgs <> [] -> Forall response msgs ->
  exists out, walk (compound algo signingKey sess encrypt msgs) = (out, true) /\
    Forall2 reads_as msgs out /\ out.*2 = members algo signingKey sess encrypt msgs.
Proof.
  intros Hne Hf. destruct (walk_members P algo signingKey sess encrypt msgs [] (S (length (compound algo signingKey sess encrypt msgs))) Hne Hf)
    as (out & Hw & Ho). { unfold compound, len. lia. }
  exists out. split_and!; [exact Hw|by eapply members_read|done].
Qed.
End Compound.

(** ** Grouping *)

Lemma span_spec m msgs : let '(g, r) := span m msgs in
  msgs = g ++ r /\ Forall (fun x => same_group x m = true) g /\
  match r with x :: _ => same_group x m = false | [] => True end.
Proof.
  induction msgs as [|x msgs IH]; simpl; [done|]. destruct (same_group x m) eqn:Hx; [|done].
  destruct (span m msgs) as [g r]. destruct IH as (-> & Hg & Hr). by split_and!; [|constructor|].
Qed.

Lemma length_span m msgs : (length (span m msgs).2 <= length msgs)%nat.
Proof.
  pose proof (span_spec m msgs) as Hs. destruct (span m msgs) as [g r]. destruct Hs as (-> & _).
  rewrite length_app. simpl. lia.
Qed.

(** A group of [flush]: not empty, one session, one encryption decision. *)
Definition group_ok (g : list pendingMsg) : Prop :=
  match g with m :: _ => Forall (fun x => pm_sess x = pm_sess m /\ pm_encrypt x = pm_encrypt m) g | [] => False end.

(** [flush] sends every response of a chain exactly once and in order,
    whatever sessions the chain named: the groups it sends, one frame each, are
    the buffered responses cut in runs, and each run has one session and one
    encryption decision, so a frame never mixes keys. *)
Theorem flush_partition (msgs : list pendingMsg) :
  concat (flush_groups msgs) = msgs /\ Forall group_ok (flush_groups msgs).
Proof.
  unfold flush_groups. generalize (le_n (length msgs)). generalize (length msgs) at 2 3 4 as fuel.
  intros fuel. revert msgs. induction fuel as [|fuel IH]; intros msgs Hl.
  { destruct msgs; [split; [done|constructor]|simpl in Hl; lia]. }
  destruct msgs as [|m rest]; [split; [done|constructor]|]. cbn [groups_fuel].
  pose proof (span_spec m rest) as Hs. pose proof (length_span m rest) as Hlen.
  destruct (span m rest) as [g r]. destruct Hs as (-> & Hg & _). simpl in Hlen, Hl. rewrite length_app in *.
  destruct (IH r ltac:(lia)) as [H1 H2]. split; [cbn [concat]; by rewrite H1|]. constructor; [|done].
  constructor; [done|]. eapply Forall_impl; [exact Hg|]. intros x Hx. apply andb_prop in Hx as [Hx1 Hx2].
  apply bool_decide_eq_true in Hx1. by apply eqb_prop in Hx2.
Qed.

(** ** [buildResponse] *)


Definition buildResponse (reqHdr : Header.Header) (status : Z) (body : bytes) : bytes :=
  let respHdr := Header.mkHeader (Header.CreditCharge reqHdr) status (Header.Command reqHdr)
    (Credits.grantCredits (Header.CreditCharge reqHdr) (Header.CreditResponse reqHdr)) Const.FlagServerToRedir 0
    (Header.MessageID reqHdr) (Header.TreeID reqHdr) (Header.SessionID reqHdr) (zeros 16) in
  match Header.EncodeHeader (zeros Header.HeaderSize) respHdr with Ok h => h ++ body | _ => zeros Header.HeaderSize ++ body end.

Lemma buildResponse_response reqHdr status body : len body < 2 ^ 30 -> response (buildResponse reqHdr status body).
Proof.
  intros Hb. unfold buildResponse, Header.EncodeHeader. set (h := Header.mkHeader _ _ _ _ _ _ _ _ _ _).
  change (len (zeros Header.HeaderSize) <? Header.HeaderSize) with false. cbn iota.
  pose proof (Header.header_fits h 64 eq_refl ltac:(lia)) as Hf. pose proof (len_nonneg body).
  assert (Hl : len (writes (zeros Header.HeaderSize) (Header.header_writes h)) = 64) by by apply len_writes.
  unfold response, smb2_message, Header.HeaderSize in *. rewrite len_app, Hl. split; [|lia]. split; [lia|].
  rewrite !get_app_l by lia. unfold Header.header_writes in *. change 64 with (len (zeros 64)) in Hf.
  unfold Header.protocolID, Header.headerStructureSize in *. split; [by wfield|]. wfield. by fields.
Qed.

Definition ex_req : Header.Header := Header.mkHeader 1 0 5 8 0 0 3 1 9 (zeros 16).

Lemma compound_parses_witness : exists out,
  walk (compound Smb3.ex_AES Smb3.ex_HMAC Smb3.ex_Seal 1 (fun _ => Smb3.ex_key) (Some 9) false
    [buildResponse ex_req 0 [Byte.x09]; buildResponse ex_req 5 [Byte.x09; Byte.x00]]) = (out, true) /\ length out = 2%nat.
Proof.
  destruct (compound_parses Smb3.ex_AES Smb3.ex_HMAC Smb3.ex_Seal Smb3.ex_Open Smb3.ex_primitives 1
    (fun _ => Smb3.ex_key) (Some 9) false [buildResponse ex_req 0 [Byte.x09]; buildResponse ex_req 5 [Byte.x09; Byte.x00]])
    as (out & Hw & Hr & _).
  - discriminate.
  - repeat constructor; apply buildResponse_response; reflexivity.
  - exists out. split; [exact Hw|]. apply Forall2_length in Hr. by rewrite <- Hr.
Defined.
End Chain.
