(* ===== verification/Dispatch.v ===== *)
(** The dispatcher: [Dispatch] and the helpers around it in
    [internal/parent/dispatch.go], and the frame loop of [ServeConn] in
    [conn.go].

    The world [W] is what the command handlers share; a handler is a function of
    it, and reports its responses, the FileID of a CREATE that succeeded, and
    whether the connection goes on.  The handlers themselves are the subject of
    the other files. *)

From S2P Require Import Prelude Smb2 Smb3 Frames.
Import Const Header.

Module Dispatch.

(** ** FileIDs in a body *)

Definition fileIDOffsetInBody (cmd : Z) : Z :=
  if (cmd =? CommandClose) || (cmd =? CommandFlush) || (cmd =? CommandIoctl) || (cmd =? CommandLock) then 8 else
  if (cmd =? CommandRead) || (cmd =? CommandWrite) || (cmd =? CommandSetInfo) then 16 else
  if cmd =? CommandQueryInfo then 24 else
  if (cmd =? CommandQueryDirectory) || (cmd =? CommandChangeNotify) then 8 else -1.

Definition previousHandleFileID : bytes := replicate 16 Byte.xff.

Definition hasPreviousHandleSentinel (cmd : Z) (body : bytes) : bool :=
  let off := fileIDOffsetInBody cmd in
  if (off <? 0) || (len body <? off + 16) then false else bool_decide (get body off 16 = previousHandleFileID).

Definition encryptionExempt (cmd : Z) : bool :=
  (cmd =? CommandTreeConnect) || (cmd =? CommandTreeDisconnect) || (cmd =? CommandLogoff) ||
  (cmd =? CommandEcho) || (cmd =? CommandCancel) || (cmd =? CommandOplockBreak).

(** ** The state of a chain *)

Record reply := mkResponse { r_status : Z; r_body : bytes; r_sess : option Z }.

Record chain := mkChain {
  LastCreatedFileID : bytes; HasLastCreated : bool; lastChainStatus : Z; encryptChain : bool; pending : list reply }.

Definition forFrame (encrypted : bool) : chain := mkChain (zeros 16) false StatusSuccess encrypted [].

Definition respond (c : chain) (status : Z) (body : bytes) (sess : option Z) : chain :=
  mkChain (LastCreatedFileID c) (HasLastCreated c) status (encryptChain c) (pending c ++ [mkResponse status body sess]).

Definition errBody : bytes := z2b 0x09 :: zeros 8.
Definition respondError (c : chain) (status : Z) (sess : option Z) : chain := respond c status errBody sess.

Definition SubstitutePreviousHandleFileID (c : chain) (cmd : Z) (body : bytes) : bytes :=
  if negb (HasLastCreated c) then body else
  let off := fileIDOffsetInBody cmd in
  if (off <? 0) || (len body <? off + 16) then body else
  if bool_decide (get body off 16 = previousHandleFileID) then splice off (LastCreatedFileID c) body else body.

(** ** The gate *)

Record sessInfo := mkSess {
  s_id : Z; Authenticated : bool; IsGuest : bool; SigningKey : bytes; C2SCipherKey : bytes; S2CCipherKey : bytes;
  gotEncrypted : bool }.

Record policy := mkPolicy { RequireEncryption : bool; RequireSigning : bool }.

(** Answer and drop the connection, answer and go on, or run the command. *)
Inductive verdict := Drop (status : Z) (sess : option Z) | Refuse (status : Z) (sess : option Z) | Admit.

Definition flag_set (flags bit : Z) : bool := negb (Z.land flags bit =? 0).

Definition gate (pol : policy) (verify : bytes -> bytes -> bool) (sess : option sessInfo) (hdr : Header) (frame : bytes)
    (encrypted : bool) : verdict :=
  match sess with
  | None => Drop StatusUserSessionDeleted None
  | Some s =>
      if negb (Authenticated s) then Drop StatusAccessDenied None else
      if negb (IsGuest s) && (0 <? len (SigningKey s)) then
        if RequireEncryption pol && negb encrypted && negb (encryptionExempt (Command hdr))
        then Refuse StatusAccessDenied (Some (s_id s)) else
        if negb encrypted then
          if RequireSigning pol || flag_set (Flags hdr) FlagSigned then
            if negb (flag_set (Flags hdr) FlagSigned) || negb (verify (SigningKey s) frame)
            then Drop StatusAccessDenied (Some (s_id s)) else Admit
          else Admit
        else Admit
      else Admit
  end.

Definition willEncryptResponse (cipher : Z) (encryptChain : bool) (sess : option sessInfo) : bool :=
  match sess with
  | Some s => (0 <? len (S2CCipherKey s)) && negb (cipher =? 0) && (gotEncrypted s || encryptChain)
  | None => false
  end.

Section Run.
Context {W : Type}.
Context (handler : W -> Header -> bytes -> sessInfo -> W * list (Z * bytes) * option bytes * bool).
Context (cancelNotify : W -> Z -> W).
Context (pol : policy) (verify : bytes -> bytes -> bool) (sessions : W -> Z -> option sessInfo).

(** What a handler answered, buffered. *)
Definition answered (c : chain) (s : sessInfo) (rs : list (Z * bytes)) (created : option bytes) : chain :=
  let c := match created with
           | Some fid => mkChain fid true (lastChainStatus c) (encryptChain c) (pending c)
           | None => c
           end in
  fold_left (fun c r => respond c r.1 r.2 (Some (s_id s))) rs c.

(** The commands with a handler of their own. *)
Definition handled_command (cmd : Z) : bool :=
  bool_decide (cmd ∈ [CommandTreeConnect; CommandTreeDisconnect; CommandCreate; CommandRead; CommandWrite; CommandFlush;
    CommandSetInfo; CommandClose; CommandQueryDirectory; CommandQueryInfo; CommandIoctl; CommandLogoff;
    CommandChangeNotify; CommandLock]).

(** The switch of [Dispatch]. *)
Definition run_command (w : W) (c : chain) (hdr : Header) (body : bytes) (s : sessInfo) : W * chain * bool :=
  let cmd := Command hdr in
  if handled_command cmd then
    let '(w, rs, created, keep) := handler w hdr body s in (w, answered c s rs created, keep) else
  if cmd =? CommandEcho then (w, respond c StatusSuccess (z2b 0x04 :: zeros 3) (Some (s_id s)), true) else
  if cmd =? CommandCancel then (cancelNotify w (MessageID hdr), c, true) else
  if cmd =? CommandOplockBreak then (w, respondError c StatusInvalidOplockProtocol (Some (s_id s)), true) else
  (w, respondError c StatusNotSupported (Some (s_id s)), true).

(** Between the gate and the switch: the "previous handle" of a related chain. *)
Definition dispatch_admitted (w : W) (c : chain) (hdr : Header) (body : bytes) (s : sessInfo) : W * chain * bool :=
  if flag_set (Flags hdr) FlagRelatedOps then
    let sentinel := hasPreviousHandleSentinel (Command hdr) body in
    let closesLiveHandle := sentinel && HasLastCreated c && (Command hdr =? CommandClose) in
    if sentinel && negb (lastChainStatus c =? StatusSuccess) && negb closesLiveHandle
    then (w, respondError c (lastChainStatus c) (Some (s_id s)), true) else
    let body := SubstitutePreviousHandleFileID c (Command hdr) body in
    let c := if closesLiveHandle then mkChain (LastCreatedFileID c) false (lastChainStatus c) (encryptChain c) (pending c)
             else c in
    run_command w c hdr body s
  else run_command w c hdr body s.

Definition dispatch (w : W) (c : chain) (hdr : Header) (frame : bytes) : W * chain * bool :=
  let sess := sessions w (SessionID hdr) in
  match gate pol verify sess hdr frame (encryptChain c), sess with
  | Drop st os, _ => (w, respondError c st os, false)
  | Refuse st os, _ => (w, respondError c st os, true)
  | Admit, Some s => dispatch_admitted w c hdr (drop 64 frame) s
  | Admit, None => (w, c, false)
  end.

(** [serveFrame]: the messages of the chain in order, until one ends the
    connection. *)
Context (sessionSetup : W -> Header -> bytes -> W * bool).

Fixpoint serve (w : W) (c : chain) (msgs : list (Header * bytes)) : W * chain * bool :=
  match msgs with
  | [] => (w, c, true)
  | (hdr, msg) :: rest =>
      let '(w, c, keep) :=
        if Command hdr =? CommandSessionSetup then let '(w, ok) := sessionSetup w hdr msg in (w, c, ok)
        else dispatch w c hdr msg in
      if keep then serve w c rest else (w, c, false)
  end.

Definition serveFrame (w : W) (frame : bytes) (encrypted : bool) : W * chain * bool :=
  let '(msgs, ok) := Chain.walk frame in
  let '(w, c, keep) := serve w (forFrame encrypted) msgs in (w, c, keep && ok).

(** The decryption step of the read loop: the frame to serve and whether it came
    encrypted, or the connection ends.  [setGotEncrypted] records on the session
    that its answers are to be encrypted. *)
Context (cipher : Z) (decrypt : Z -> bytes -> bytes -> outcome Smb3.transformErr (bytes * Z)).
Context (setGotEncrypted : W -> Z -> W).

Definition unwrap (w : W) (frame : bytes) : option (W * bytes * bool) :=
  if Smb3.IsTransform frame then
    if cipher =? 0 then None else
    if len frame <? Smb3.TransformHeaderSize then None else
    let sessID := le_combine (get frame 44 8) in
    match sessions w sessID with
    | None => None
    | Some s =>
        if len (C2SCipherKey s) =? 0 then None else
        match decrypt cipher (C2SCipherKey s) frame with
        | Ok (plain, _) => Some (setGotEncrypted w sessID, plain, true)
        | _ => None
        end
    end
  else Some (w, frame, false).

Definition read_frame (w : W) (frame : bytes) : option (W * chain * bool) :=
  '(w, plain, encrypted) ← unwrap w frame; Some (serveFrame w plain encrypted).

(** ** The gate *)

(** What the policy asks of a message on session [s]. *)
Definition admissible (s : sessInfo) (hdr : Header) (frame : bytes) (encrypted : bool) : Prop :=
  Authenticated s = true /\
  (IsGuest s = false -> 0 < len (SigningKey s) -> encrypted = false ->
     (RequireEncryption pol = true -> encryptionExempt (Command hdr) = true) /\
     (RequireSigning pol = true \/ flag_set (Flags hdr) FlagSigned = true ->
        flag_set (Flags hdr) FlagSigned = true /\ verify (SigningKey s) frame = true)).

Lemma gate_admit s hdr frame encrypted :
  admissible s hdr frame encrypted <-> gate pol verify (Some s) hdr frame encrypted = Admit.
Proof.
  unfold admissible, gate. destruct (Authenticated s), (IsGuest s), encrypted, (RequireEncryption pol),
    (RequireSigning pol), (encryptionExempt (Command hdr)), (flag_set (Flags hdr) FlagSigned),
    (verify (SigningKey s) frame); destruct (Z.ltb_spec 0 (len (SigningKey s))); simpl;
    (split; [intros (?&Hq); try done; try (destruct Hq as [Hq1 Hq2]; [done|done|done|]; try (by specialize (Hq1 eq_refl));
      by (destruct Hq2; [auto|..]))|intros Hv; try done; split_and!; try done; intros; try lia;
      split; intros; try done; by destruct_or?]).
Qed.

Lemma gate_refuses sess hdr frame encrypted :
  (exists s, sess = Some s /\ gate pol verify sess hdr frame encrypted = Admit) \/
  (exists st os, st <> StatusSuccess /\ (gate pol verify sess hdr frame encrypted = Drop st os \/
                                       gate pol verify sess hdr frame encrypted = Refuse st os)).
Proof.
  destruct sess as [s|]; [|right; do 2 eexists; split; [|by left]; done].
  unfold gate. repeat case_match; solve [by left; eauto|right; do 2 eexists; (split; [|by (left + right)]); done].
Qed.

(** C2: No command runs past the inbound policy: [Dispatch] runs a message exactly
    when its session exists and has authenticated and the message meets the
    policy (on a session with keys: encrypted, or exempt when encryption is
    required, and signed with a signature that verifies whenever signing is
    required or a signature is claimed); any other message changes nothing and
    is answered with one error response. *)
Theorem gate_spec (w : W) (c : chain) (hdr : Header) (frame : bytes) :
  (exists s, sessions w (SessionID hdr) = Some s /\ admissible s hdr frame (encryptChain c) /\
     dispatch w c hdr frame = dispatch_admitted w c hdr (drop 64 frame) s) \/
  ((~ exists s, sessions w (SessionID hdr) = Some s /\ admissible s hdr frame (encryptChain c)) /\
   exists st os keep, st <> StatusSuccess /\ dispatch w c hdr frame = (w, respondError c st os, keep)).
Proof.
  unfold dispatch. destruct (gate_refuses (sessions w (SessionID hdr)) hdr frame (encryptChain c)) as [(s & Hs & Hg)|(st & os & Hst & Hg)].
  - left. exists s. rewrite Hs in *. split_and!; [done|by apply gate_admit|by rewrite Hg].
  - right. split; [|destruct Hg as [-> | ->]; eauto 6].
    intros (s & Hs & Ha%gate_admit). rewrite Hs, Ha in Hg. by destruct Hg.
Qed.

(** ** Related chains *)

Definition related (m : Header * bytes) : Prop := flag_set (Flags m.1) FlagRelatedOps = true.
Definition names_previous (m : Header * bytes) : Prop :=
  hasPreviousHandleSentinel (Command m.1) (drop 64 m.2) = true.
Definition admitted (s : sessInfo) (encrypted : bool) (m : Header * bytes) : Prop :=
  (forall w, sessions w (SessionID m.1) = Some s) /\ gate pol verify (Some s) m.1 m.2 encrypted = Admit /\
  Command m.1 <> CommandSessionSetup.

Lemma serve_admitted s w c m rest : admitted s (encryptChain c) m ->
  serve w c (m :: rest) =
  let '(w, c, keep) := dispatch_admitted w c m.1 (drop 64 m.2) s in
  if (keep : bool) then serve w c rest else (w, c, false).
Proof.
  destruct m as [hdr msg]. intros (Hs & Hg & Hc). cbn [fst snd serve] in *.
  rewrite (proj2 (Z.eqb_neq _ _) Hc). unfold dispatch. by rewrite Hs, Hg.
Qed.

(** The message's body with the FileID of the CREATE in it. *)
Definition substituted (fid : bytes) (m : Header * bytes) : bytes :=
  splice (fileIDOffsetInBody (Command m.1)) fid (drop 64 m.2).

Lemma substitute_sentinel c cmd body : HasLastCreated c = true -> hasPreviousHandleSentinel cmd body = true ->
  SubstitutePreviousHandleFileID c cmd body = splice (fileIDOffsetInBody cmd) (LastCreatedFileID c) body.
Proof.
  unfold SubstitutePreviousHandleFileID, hasPreviousHandleSentinel. intros ->. simpl.
  destruct (_ || _); [done|]. by case_bool_decide.
Qed.

(** What the chain owes for messages it refused to run. *)
Definition inherit (c : chain) (s : sessInfo) (ms : list (Header * bytes)) : chain :=
  fold_left (fun c _ => respondError c (lastChainStatus c) (Some (s_id s))) ms c.

Lemma inherit_spec c s ms :
  LastCreatedFileID (inherit c s ms) = LastCreatedFileID c /\ HasLastCreated (inherit c s ms) = HasLastCreated c /\
  lastChainStatus (inherit c s ms) = lastChainStatus c /\ encryptChain (inherit c s ms) = encryptChain c /\
  pending (inherit c s ms) = pending c ++ map (fun _ => mkResponse (lastChainStatus c) errBody (Some (s_id s))) ms.
Proof.
  revert c. induction ms as [|m ms IH]; intros c; [by rewrite app_nil_r|].
  change (inherit c s (m :: ms)) with (inherit (respondError c (lastChainStatus c) (Some (s_id s))) s ms).
  destruct (IH (respondError c (lastChainStatus c) (Some (s_id s)))) as (-> & -> & -> & -> & ->).
  simpl. by rewrite <- (assoc_L (++)).
Qed.

Lemma serve_inherit s w c ms rest :
  lastChainStatus c <> StatusSuccess ->
  Forall (fun m => admitted s (encryptChain c) m /\ related m /\ names_previous m /\ Command m.1 <> CommandClose) ms ->
  serve w c (ms ++ rest) = serve w (inherit c s ms) rest.
Proof.
  intros Hst Hf. revert c Hst Hf. induction ms as [|m ms IH]; intros c Hst Hf; [done|].
  apply Forall_cons in Hf as [(Ha & Hr & Hn & Hc) Hf]. rewrite <- app_comm_cons, (serve_admitted s) by done.
  unfold dispatch_admitted. rewrite Hr, Hn, (proj2 (Z.eqb_neq _ _) Hst), (proj2 (Z.eqb_neq _ _) Hc), andb_false_r.
  cbn [andb negb]. rewrite IH by done. done.
Qed.

Lemma answered_spec c s rs created :
  LastCreatedFileID (answered c s rs created) = default (LastCreatedFileID c) created /\
  HasLastCreated (answered c s rs created) = (HasLastCreated c || bool_decide (is_Some created)) /\
  lastChainStatus (answered c s rs created) = default (lastChainStatus c) (fst <$> last rs) /\
  encryptChain (answered c s rs created) = encryptChain c /\
  pending (answered c s rs created) = pending c ++ map (fun r => mkResponse r.1 r.2 (Some (s_id s))) rs.
Proof.
  unfold answered. revert c created. induction rs as [|r rs IH] using rev_ind; intros c created.
  - destruct created; cbn; by rewrite ?orb_true_r, ?orb_false_r, ?app_nil_r.
  - rewrite fold_left_app. cbn [fold_left]. destruct (IH c created) as (H1 & H2 & H3 & H4 & H5). cbn [respond LastCreatedFileID HasLastCreated lastChainStatus encryptChain pending].
    rewrite H1, H2, H4, H5, last_snoc, map_app, (assoc_L (++)). done.
Qed.

(** A handled, related message that is run: its previous-handle FileID is the one
    the chain created. *)
Lemma run_sentinel s w c m :
  HasLastCreated c = true -> related m -> names_previous m -> handled_command (Command m.1) = true ->
  lastChainStatus c = StatusSuccess \/ Command m.1 = CommandClose ->
  dispatch_admitted w c m.1 (drop 64 m.2) s =
  let '(w, rs, created, keep) := handler w m.1 (substituted (LastCreatedFileID c) m) s in
  (w, answered (mkChain (LastCreatedFileID c) (negb (Command m.1 =? CommandClose)) (lastChainStatus c) (encryptChain c) (pending c))
        s rs created, keep).
Proof.
  intros Hh Hr Hn Hc Hst. unfold dispatch_admitted, run_command. rewrite Hr, Hn, Hh, Hc, substitute_sentinel by done.
  assert (Hrun : negb (lastChainStatus c =? StatusSuccess) && negb (Command m.1 =? CommandClose) = false).
  { destruct Hst as [-> | ->]; [done|]. by rewrite Z.eqb_refl, andb_false_r. }
  cbn [andb]. rewrite Hrun. fold (substituted (LastCreatedFileID c) m).
  destruct (handler _ _ _ _) as [[[w' rs] created] keep]. destruct (Command m.1 =? CommandClose); [done|].
  destruct c; simpl in *; subst; done.
Qed.


(** Once the handle is closed, a further member that names it is not refused when
    the CLOSE succeeded: its handler runs, on the sentinel itself. *)
Theorem second_sentinel_runs (w : W) (c : chain) (m : Header * bytes) (s : sessInfo) :
  HasLastCreated c = false -> lastChainStatus c = StatusSuccess -> related m -> names_previous m ->
  dispatch_admitted w c m.1 (drop 64 m.2) s = run_command w c m.1 (drop 64 m.2) s.
Proof.
  intros Hh Hst Hr Hn. unfold dispatch_admitted, SubstitutePreviousHandleFileID. by rewrite Hr, Hn, Hh, Hst, andb_false_r.
Qed.

(** Nothing ties the messages of an encrypted frame to the session whose key
    opened it: any authenticated session of the connection a plaintext header
    names runs the message, unsigned, whatever the policy requires and whatever
    the signature check would say. *)
Theorem encrypted_frame_runs_on_any_session (w w' : W) (frame plain msg : bytes) (hdr : Header) (s : sessInfo) :
  unwrap w frame = Some (w', plain, true) -> Chain.walk plain = ([(hdr, msg)], true) ->
  Command hdr <> CommandSessionSetup -> sessions w' (SessionID hdr) = Some s -> Authenticated s = true ->
  read_frame w frame =
  Some (let '(w, c, keep) := dispatch_admitted w' (forFrame true) hdr (drop 64 msg) s in
        if (keep : bool) then (w, c, true) else (w, c, false)).
Proof.
  intros Hu Hw Hc Hs Ha. unfold read_frame, serveFrame. rewrite Hu. cbn [mbind option_bind]. rewrite Hw. cbn [serve].
  rewrite (proj2 (Z.eqb_neq _ _) Hc). unfold dispatch. rewrite Hs.
  replace (gate pol verify (Some s) hdr msg (encryptChain (forFrame true))) with Admit
    by (symmetry; apply gate_admit; by split).
  destruct (dispatch_admitted _ _ _ _ _) as [[w1 c1] []]; done.
Qed.

End Run.

(** ** A run of the chain macOS sends *)

Definition log := list (Z * bytes).
Definition ex_sess : sessInfo := mkSess 7 true false (zeros 16) (zeros 16) (zeros 16) false.
Definition ex_other : sessInfo := mkSess 8 true false (zeros 16) (zeros 16) (zeros 16) false.
Definition ex_sessions (w : log) (id : Z) : option sessInfo :=
  if id =? 7 then Some ex_sess else if id =? 8 then Some ex_other else None.
Definition ex_fid : bytes := replicate 16 Byte.x42.
Definition ex_verify (key frame : bytes) : bool := bool_decide (get frame 48 16 = replicate 16 Byte.x5a).

(** A SET_INFO fails with ACCESS_DENIED, everything else succeeds; the log keeps
    the command and the FileID it was given. *)
Definition ex_handler (w : log) (hdr : Header) (body : bytes) (s : sessInfo) : log * list (Z * bytes) * option bytes * bool :=
  let cmd := Command hdr in
  let w := w ++ [(cmd, if fileIDOffsetInBody cmd <? 0 then [] else get body (fileIDOffsetInBody cmd) 16)] in
  if cmd =? CommandSetInfo then (w, [(StatusAccessDenied, [])], None, true) else
  (w, [(StatusSuccess, [])], if cmd =? CommandCreate then Some ex_fid else None, true).

Definition ex_header (cmd flags sid : Z) : Header := mkHeader 1 0 cmd 1 flags 0 5 1 sid (replicate 16 Byte.x5a).
Definition ex_msg (cmd flags sid : Z) (body : bytes) : Header * bytes :=
  (ex_header cmd flags sid, default [] (match EncodeHeader (zeros 64) (ex_header cmd flags sid) with Ok b => Some b | _ => None end) ++ body).
Definition ex_flags : Z := Z.lor FlagSigned FlagRelatedOps.


(** Session 7's key opens a frame whose message is for session 8 and bears no
    signature. *)
Definition ex_plain : bytes := (ex_msg CommandLogoff 0 8 (z2b 4 :: zeros 3)).2.
Definition ex_frame : bytes :=
  map z2b [0xFD; 0x53; 0x4D; 0x42] ++ zeros 40 ++ le64 7 ++ ex_plain.
Definition ex_decrypt (cipher : Z) (key frame : bytes) : outcome Smb3.transformErr (bytes * Z) := Ok (drop 52 frame, 7).

Lemma encrypted_frame_runs_on_any_session_witness :
  (fst ∘ fst) <$> read_frame ex_handler (fun w _ => w) (mkPolicy true true) (fun _ _ => false) ex_sessions (fun w _ _ => (w, true)) 2
    ex_decrypt (fun w _ => w) [] ex_frame = Some [(CommandLogoff, [])].
Proof.
  rewrite (encrypted_frame_runs_on_any_session ex_handler (fun w _ => w) (mkPolicy true true) (fun _ _ => false) ex_sessions
    (fun w _ _ => (w, true)) 2 ex_decrypt (fun w _ => w) [] [] ex_frame ex_plain ex_plain (ex_header CommandLogoff 0 8) ex_other);
    try (vm_compute; reflexivity); vm_compute; discriminate.
Defined.

End Dispatch.
