(* ===== verification/Spnego.v ===== *)
(** SPNEGO, the envelope of the NTLM messages: [internal/smb2/spnego.go].

    [derTLV] and the walk over a negotiation token report failure with a
    boolean; here that is [Err tt], and reading out of range is [Panic]. *)

From S2P Require Import Prelude Smb2 Utf.

Module Spnego.

(** [NegotiateSecurityBlob], [ntlmsspMagic], [ntlmsspOID] *)
Definition NegotiateSecurityBlob : bytes := map z2b
  [0x60; 0x1c; 0x06; 0x06; 0x2b; 0x06; 0x01; 0x05; 0x05; 0x02; 0xa0; 0x12; 0x30; 0x10; 0xa0; 0x0e; 0x30; 0x0c;
   0x06; 0x0a; 0x2b; 0x06; 0x01; 0x04; 0x01; 0x82; 0x37; 0x02; 0x02; 0x0a].
Definition ntlmsspMagic : bytes := map z2b [0x4e; 0x54; 0x4c; 0x4d; 0x53; 0x53; 0x50; 0x00].
Definition ntlmsspOID : bytes := map z2b [0x06; 0x0a; 0x2b; 0x06; 0x01; 0x04; 0x01; 0x82; 0x37; 0x02; 0x02; 0x0a].

(** [bytes.HasPrefix] and [bytes.Index]; [None] for -1. *)
Definition HasPrefix (s pre : bytes) : bool := bool_decide (take (length pre) s = pre).

Fixpoint Index (s sub : bytes) : option Z :=
  if HasPrefix s sub then Some 0 else
  match s with [] => None | _ :: s => Z.succ <$> Index s sub end.

(** ** DER *)

Definition der_length (b : bytes) : Z := fold_left (fun l x => Z.lor (Z.shiftl l 8) (b2z x)) b 0.

Definition derTLV (b : bytes) : outcome unit (Z * bytes * bytes) :=
  if len b <? 2 then Err tt else
  tag ← at8 b 0;
  if Z.land tag 0x1f =? 0x1f then Err tt else
  l0 ← at8 b 1;
  '(length, i) ← (if negb (Z.land l0 0x80 =? 0) then
                    let n := Z.land l0 0x7f in
                    if (n =? 0) || (3 <? n) || (len b <? 2 + n) then Err tt else
                    d ← slice b 2 (2 + n); Ok (der_length d, 2 + n)
                  else Ok (l0, 2));
  if len b - i <? length then Err tt else
  content ← slice b i (i + length);
  rest ← slice b (i + length) (len b);
  Ok (tag, content, rest).

Definition wrapTLV (tag : Z) (content : bytes) : bytes :=
  let n := len content in
  z2b tag ::
  (if n <? 0x80 then [z2b n] else
   if n <? 0x100 then [z2b 0x81; z2b n] else
   if n <? 0x10000 then [z2b 0x82; z2b (Z.shiftr n 8); z2b n] else
   [z2b 0x83; z2b (Z.shiftr n 16); z2b (Z.shiftr n 8); z2b n]) ++ content.

(** ** The token inside a negotiation token *)

(** The walk over the SEQUENCE.  Every round takes at least two bytes, so
    [length seq] rounds are enough; running out of fuel counts as a panic. *)
Fixpoint token_loop (fuel : nat) (seq : bytes) : outcome unit bytes :=
  match fuel with
  | O => Panic
  | S fuel =>
      if 0 <? len seq then
        '(t, c, rest) ← derTLV seq;
        if t =? 0xa2 then
          '(it, token, _) ← derTLV c;
          if negb (it =? 0x04) then Err tt else Ok token
        else token_loop fuel rest
      else Err tt
  end.

(** One element with the tag that is expected there. *)
Definition expect (tag : Z) (b : bytes) : outcome unit (bytes * bytes) :=
  '(t, c, rest) ← derTLV b; if negb (t =? tag) then Err tt else Ok (c, rest).

Definition spnegoInnerToken (blob : bytes) : outcome unit bytes :=
  '(tag, content, _) ← derTLV blob;
  seq ← (if tag =? 0x60 then
           '(_, rest) ← expect 0x06 content;
           '(negTokenInit, _) ← expect 0xa0 rest;
           '(inner, _) ← expect 0x30 negTokenInit;
           Ok inner
         else if tag =? 0xa1 then
           '(inner, _) ← expect 0x30 content;
           Ok inner
         else Err tt);
  token_loop (S (length seq)) seq.

(** The fallback: the buffer from the first signature on. *)
Definition scan_magic (blob : bytes) : res bytes :=
  match Index blob ntlmsspMagic with
  | Some idx => slice blob idx (len blob)
  | None => Err ErrNoNTLMSSP
  end.

Definition UnwrapNTLM (blob : bytes) : res bytes :=
  match spnegoInnerToken blob with
  | Ok tok => if HasPrefix tok ntlmsspMagic then Ok tok else scan_magic blob
  | Err _ => scan_magic blob
  | Panic => Panic
  end.

Definition SPNEGOAcceptCompleted : Z := 0x00.
Definition SPNEGOAcceptIncomplete : Z := 0x01.

Definition WrapNTLMResp (state : Z) (ntlm : bytes) : bytes :=
  let includeSupportedMech := state =? SPNEGOAcceptIncomplete in
  let seqContents := wrapTLV 0xa0 (wrapTLV 0x0a [z2b state]) in
  let seqContents := if includeSupportedMech then seqContents ++ wrapTLV 0xa1 ntlmsspOID else seqContents in
  let seqContents := if 0 <? len ntlm then seqContents ++ wrapTLV 0xa2 (wrapTLV 0x04 ntlm) else seqContents in
  wrapTLV 0xa1 (wrapTLV 0x30 seqContents).

(** ** DER round trip *)

Lemma shiftr_byte n k : 0 <= k -> b2z (z2b (Z.shiftr n k)) = (n / 2 ^ k) mod 256.
Proof. intros. rewrite byte.unsigned_of_Z. unfold byte.wrap. by rewrite Z.shiftr_div_pow2. Qed.

Lemma lor_shl l x : 0 <= x < 256 -> Z.lor (Z.shiftl l 8) x = l * 256 + x.
Proof. intros Hx. rewrite Z.shiftl_mul_pow2 by lia. by apply (Utf8.lor_add 8 l). Qed.

Lemma der_length_1 n : 0 <= n < 256 -> der_length [z2b n] = n.
Proof. intros. unfold der_length. cbn [fold_left]. by rewrite Utf8.b2z_z2b by lia. Qed.

Lemma der_length_2 n : 0 <= n < 65536 -> der_length [z2b (Z.shiftr n 8); z2b n] = n.
Proof.
  intros. unfold der_length. cbn [fold_left]. rewrite !lor_shl by apply byte.unsigned_range.
  rewrite shiftr_byte, byte.unsigned_of_Z by lia. unfold byte.wrap. change (2 ^ 8) with 256. Z.div_mod_to_equations. lia.
Qed.

Lemma der_length_3 n : 0 <= n < 2 ^ 24 -> der_length [z2b (Z.shiftr n 16); z2b (Z.shiftr n 8); z2b n] = n.
Proof.
  intros. unfold der_length. cbn [fold_left]. rewrite !lor_shl by apply byte.unsigned_range.
  rewrite !shiftr_byte, byte.unsigned_of_Z by lia. unfold byte.wrap. change (2 ^ 8) with 256. change (2 ^ 16) with 65536.
  Z.div_mod_to_equations. lia.
Qed.

(** The tags DER gives one byte. *)
Definition tag_ok (tag : Z) : Prop := 0 <= tag < 256 /\ Z.land tag 0x1f <> 0x1f.

Lemma at8_byte (b : bytes) (i : nat) x : b !! i = Some x -> at8 (E:=unit) b (Z.of_nat i) = Ok (b2z x).
Proof.
  intros Hi. assert (Hl : (i < length b)%nat) by (by eapply lookup_lt_Some).
  rewrite at8_Ok by (unfold len; lia). f_equal. replace (get b (Z.of_nat i) 1) with [x].
  - change (Z.lor (b2z x) (Z.shiftl 0 8) = b2z x). by rewrite Z.shiftl_0_l, Z.lor_0_r.
  - unfold get. rewrite Nat2Z.id. change (Z.to_nat 1) with 1%nat. by rewrite (drop_S b x i Hi).
Qed.

(** The header of an element, its content and what follows it. *)
Lemma derTLV_header tag l0 pre content rest : tag_ok tag -> 0 <= l0 < 256 ->
  (Z.land l0 0x80 = 0 /\ pre = [] /\ l0 = len content) \/
  (Z.land l0 0x80 <> 0 /\ Z.land l0 0x7f = len pre /\ 1 <= len pre <= 3 /\ der_length pre = len content) ->
  derTLV (z2b tag :: z2b l0 :: pre ++ content ++ rest) = Ok (tag, content, rest).
Proof.
  intros [Ht Htag] Hl0 Hpre. unfold derTLV. set (b := z2b tag :: z2b l0 :: pre ++ content ++ rest).
  assert (Hb : len b = 2 + len pre + len content + len rest) by (unfold b; rewrite !len_cons, !len_app; lia).
  pose proof (len_nonneg pre). pose proof (len_nonneg content). pose proof (len_nonneg rest).
  rewrite (proj2 (Z.ltb_ge _ _)) by lia.
  rewrite (at8_byte b 0 (z2b tag) eq_refl : at8 b 0 = _), Utf8.b2z_z2b by done. cbn [mbind outcome_bind].
  rewrite (proj2 (Z.eqb_neq _ _) Htag).
  rewrite (at8_byte b 1 (z2b l0) eq_refl : at8 b 1 = _), Utf8.b2z_z2b by done. cbn [mbind outcome_bind].
  assert (Hget : forall lo x y z, b = x ++ y ++ z -> len x = lo -> get b lo (len y) = y).
  { intros lo x y z -> <-. pose proof (len_nonneg x). pose proof (len_nonneg y). rewrite get_app_r by lia. rewrite Z.sub_diag. by apply get_app_exact. }
  assert (Hrest : forall i, i = 2 + len pre ->
    (if len b - i <? len content then Err tt
     else content0 ← slice b i (i + len content); rest0 ← slice b (i + len content) (len b); Ok (tag, content0, rest0)) =
    Ok (tag, content, rest)).
  { intros i ->. rewrite (proj2 (Z.ltb_ge _ _)) by lia. rewrite slice_Ok by lia. cbn [mbind outcome_bind].
    rewrite slice_Ok by lia. cbn [mbind outcome_bind]. rewrite Z.add_simpl_l.
    replace (len b - (2 + len pre + len content)) with (len rest) by lia.
    rewrite (Hget _ (z2b tag :: z2b l0 :: pre) content rest) by (done || (rewrite !len_cons; lia)).
    rewrite (Hget _ (z2b tag :: z2b l0 :: pre ++ content) rest []); [done| |rewrite !len_cons, len_app; lia].
    unfold b. rewrite app_nil_r. simpl. by rewrite (assoc_L (++)). }
  destruct Hpre as [(Hz & -> & ->)|(Hz & Hn & Hr & Hd)].
  - rewrite (proj2 (Z.eqb_eq _ _) Hz). cbn [negb mbind outcome_bind]. by apply Hrest.
  - rewrite (proj2 (Z.eqb_neq _ _) Hz), Hn. cbn [negb]. rewrite (proj2 (Z.eqb_neq (len pre) 0)), (proj2 (Z.ltb_ge 3 (len pre))), (proj2 (Z.ltb_ge (len b) (2 + len pre))) by lia.
    cbn [orb]. rewrite slice_Ok by lia. cbn [mbind outcome_bind]. rewrite Z.add_simpl_l.
    rewrite (Hget 2 [z2b tag; z2b l0] pre (content ++ rest)) by done. rewrite Hd. by apply Hrest.
Qed.

(** An element the server wrote is read back with what follows it. *)
Lemma derTLV_wrapTLV tag content rest : tag_ok tag -> len content < 2 ^ 24 ->
  derTLV (wrapTLV tag content ++ rest) = Ok (tag, content, rest).
Proof.
  intros Ht Hl. pose proof (len_nonneg content). unfold wrapTLV. set (n := len content) in *. cbv zeta.
  repeat match goal with |- context [if ?x <? ?y then _ else _] => destruct (Z.ltb_spec x y) end;
    cbn [app]; rewrite <- ?(assoc_L (++)).
  - apply (derTLV_header tag n []); [done|lia|left]. split_and!; [|done|done].
    apply Z.bits_inj'. intros i Hi. rewrite Z.land_spec, Z.bits_0. destruct (Z.ltb_spec i 7).
    + change 0x80 with (2 ^ 7). rewrite Z.pow2_bits_false by lia. apply andb_false_r.
    + rewrite (range_bits 7 ltac:(lia) n) by lia. done.
  - apply (derTLV_header tag 0x81 [z2b n]); [done|lia|right]. split_and!; try done. by apply der_length_1.
  - apply (derTLV_header tag 0x82 [z2b (Z.shiftr n 8); z2b n]); [done|lia|right]. split_and!; try done. apply der_length_2; lia.
  - apply (derTLV_header tag 0x83 [z2b (Z.shiftr n 16); z2b (Z.shiftr n 8); z2b n]); [done|lia|right].
    split_and!; try done. by apply der_length_3.
Qed.

Lemma derTLV_wrapTLV_nil tag content : tag_ok tag -> len content < 2 ^ 24 ->
  derTLV (wrapTLV tag content) = Ok (tag, content, []).
Proof. intros. rewrite <- (app_nil_r (wrapTLV tag content)). by apply derTLV_wrapTLV. Qed.

Lemma len_wrapTLV tag content : 2 + len content <= len (wrapTLV tag content) <= 5 + len content.
Proof.
  unfold wrapTLV. rewrite len_cons, len_app. pose proof (len_nonneg content).
  repeat case_match; rewrite ?len_cons, ?len_nil; lia.
Qed.

(** ** What unwrapping returns *)

Lemma derTLV_inv b tag content rest : derTLV b = Ok (tag, content, rest) ->
  exists hdr, b = hdr ++ content ++ rest /\ 2 <= len hdr.
Proof.
  unfold derTLV. destruct (Z.ltb_spec (len b) 2) as [|Hb]; [done|]. intros H.
  apply bind_Ok_inv in H as (v0 & _ & H). destruct (Z.land v0 0x1f =? 0x1f); [done|].
  apply bind_Ok_inv in H as (l0 & Hl0 & H). apply at8_inv in Hl0.
  apply bind_Ok_inv in H as ([l i] & Hp & H). assert (Hi : 2 <= i).
  { revert Hp. destruct (negb _); [|intros Hp; injection Hp; lia]. destruct (_ || _); [done|]. intros Hp. apply bind_Ok_inv in Hp as (d & Hd & Hp). injection Hp as <- <-.
    apply slice_inv in Hd as (_ & ? & _). lia. }
  destruct (len b - i <? l); [done|].
  apply bind_Ok_inv in H as (c & Hc & H). apply bind_Ok_inv in H as (r & Hr & [= <- <- <-]).
  apply slice_inv in Hc as (-> & ? & ? & _). apply slice_inv in Hr as (-> & ? & ? & _).
  exists (get b 0 i). rewrite len_get by lia. split; [|lia]. unfold get. rewrite !drop_0.
  rewrite <- (take_drop (Z.to_nat i) b) at 1. f_equal. rewrite <- (take_drop (Z.to_nat (i + l - i)) (drop (Z.to_nat i) b)) at 1.
  f_equal. rewrite drop_drop. replace (Z.to_nat i + Z.to_nat (i + l - i))%nat with (Z.to_nat (i + l)) by lia.
  symmetry. apply take_ge. rewrite length_drop. unfold len. lia.
Qed.

Lemma der_length_nonneg d : 0 <= der_length d.
Proof.
  unfold der_length. assert (Hf : forall a, 0 <= a -> 0 <= fold_left (fun l x => Z.lor (Z.shiftl l 8) (b2z x)) d a); [|by apply Hf].
  induction d as [|x d IH]; intros a Ha; [done|]. cbn [fold_left]. apply IH. apply Z.lor_nonneg.
  pose proof (byte.unsigned_range x). split; [apply Z.shiftl_nonneg; lia|lia].
Qed.

Lemma derTLV_safe b : safe (derTLV b).
Proof.
  unfold derTLV. destruct (Z.ltb_spec (len b) 2); [done|].
  destruct (at8 b 0) as [tag| |] eqn:Ht; [|done|by rewrite at8_Ok in Ht by lia]. cbn [mbind outcome_bind].
  destruct (_ =? 0x1f); [done|].
  destruct (at8 b 1) as [l0| |] eqn:Hl0; [|done|by rewrite at8_Ok in Hl0 by lia]. apply at8_inv in Hl0. cbn [mbind outcome_bind].
  apply safe_bind.
  { destruct (negb _); [|done]. destruct (_ || _) eqn:Ho; [done|]. apply orb_false_iff in Ho as [_ Ho%Z.ltb_ge].
    assert (0 <= Z.land l0 127) by (apply Z.land_nonneg; lia). rewrite slice_Ok by lia. done. }
  intros [l i] Hp. destruct (Z.ltb_spec (len b - i) l); [done|].
  assert (Hi : 2 <= i /\ 0 <= l).
  { revert Hp. destruct (negb _); [|intros Hp; injection Hp; lia]. destruct (_ || _); [done|]. intros Hp.
    apply bind_Ok_inv in Hp as (d & Hd & Hp). injection Hp as <- <-. apply slice_inv in Hd as (_ & ? & _).
    split; [lia|apply der_length_nonneg]. }
  rewrite slice_Ok by lia. cbn [mbind outcome_bind]. by rewrite slice_Ok by lia.
Qed.

(** A contiguous part of a buffer. *)
Definition part (t b : bytes) : Prop := exists pre post, b = pre ++ t ++ post.

#[local] Instance part_preorder : PreOrder part.
Proof.
  split.
  - intros b. exists [], []. by rewrite app_nil_r.
  - intros a b c (p1 & q1 & ->) (p2 & q2 & ->). exists (p2 ++ p1), (q1 ++ q2). by rewrite <- !(assoc_L (++)).
Qed.

Lemma derTLV_parts b tag content rest : derTLV b = Ok (tag, content, rest) ->
  part content b /\ part rest b /\ len content + len rest + 2 <= len b.
Proof.
  intros H. apply derTLV_inv in H as (hdr & -> & Hh). rewrite !len_app. split_and!; [by exists hdr, rest| |lia].
  exists (hdr ++ content), []. by rewrite app_nil_r, <- (assoc_L (++)).
Qed.

Lemma token_loop_spec fuel seq : len seq < Z.of_nat fuel ->
  safe (token_loop fuel seq) /\ forall t, token_loop fuel seq = Ok t -> part t seq.
Proof.
  revert seq. induction fuel as [|fuel IH]; intros seq Hf; [pose proof (len_nonneg seq); lia|]. cbn [token_loop].
  destruct (Z.ltb_spec 0 (len seq)); [|done]. pose proof (derTLV_safe seq) as Hs.
  destruct (derTLV seq) as [[[t c] rest]| |] eqn:Hd; [|done|done]. cbn [mbind outcome_bind].
  apply derTLV_parts in Hd as (Hc & Hr & Hl). destruct (t =? 0xa2).
  - pose proof (derTLV_safe c). destruct (derTLV c) as [[[it tok] r]| |] eqn:Hd; [|done|done]. cbn [mbind outcome_bind].
    apply derTLV_parts in Hd as (Ht & _). case_match; [done|]. split; [done|]. intros ? [= <-]. by etrans.
  - pose proof (len_nonneg c). destruct (IH rest) as [H1 H2]; [lia|]. split; [done|]. intros u Hu. etrans; [by apply H2|done].
Qed.

Lemma expect_spec tag b : safe (expect tag b) /\ forall c rest, expect tag b = Ok (c, rest) -> part c b /\ part rest b.
Proof.
  unfold expect. pose proof (derTLV_safe b). destruct (derTLV b) as [[[t c] rest]| |] eqn:Hd; [|done|done].
  cbn [mbind outcome_bind]. apply derTLV_parts in Hd as (? & ? & _). case_match; [done|]. split; [done|]. by intros ? ? [= <- <-].
Qed.

Lemma spnegoInnerToken_spec blob :
  safe (spnegoInnerToken blob) /\ forall t, spnegoInnerToken blob = Ok t -> part t blob.
Proof.
  unfold spnegoInnerToken. pose proof (derTLV_safe blob). destruct (derTLV blob) as [[[tag c] rest]| |] eqn:Hd; [|done|done].
  cbn [mbind outcome_bind]. apply derTLV_parts in Hd as (Hc & _).
  set (m := if tag =? 0x60 then _ else _).
  assert (Hm : safe m /\ forall seq, m = Ok seq -> part seq blob).
  { subst m. destruct (tag =? 0x60); [|destruct (tag =? 0xa1); [|done]].
    - destruct (expect_spec 0x06 c) as [S1 Q1]. destruct (expect 0x06 c) as [[? r1]| |]; [|done|done]. cbn [mbind outcome_bind].
      destruct (Q1 _ _ eq_refl) as [_ P1]. destruct (expect_spec 0xa0 r1) as [S2 Q2].
      destruct (expect 0xa0 r1) as [[i ?]| |]; [|done|done]. cbn [mbind outcome_bind]. destruct (Q2 _ _ eq_refl) as [P2 _].
      destruct (expect_spec 0x30 i) as [S3 Q3]. destruct (expect 0x30 i) as [[s ?]| |]; [|done|done]. cbn [mbind outcome_bind].
      destruct (Q3 _ _ eq_refl) as [P3 _]. split; [done|]. intros ? [= <-]. by rewrite P3, P2, P1.
    - destruct (expect_spec 0x30 c) as [S3 Q3]. destruct (expect 0x30 c) as [[s ?]| |]; [|done|done]. cbn [mbind outcome_bind].
      destruct (Q3 _ _ eq_refl) as [P3 _]. split; [done|]. intros ? [= <-]. by rewrite P3. }
  destruct Hm as [Hs Hp]. destruct m as [seq| |]; [|done|done]. cbn [mbind outcome_bind].
  destruct (token_loop_spec (S (length seq)) seq) as [H1 H2]; [unfold len; lia|]. split; [done|].
  intros t Ht. etrans; [by apply H2|by apply Hp].
Qed.

Lemma HasPrefix_app s pre : HasPrefix s pre = true <-> exists post, s = pre ++ post.
Proof.
  unfold HasPrefix. rewrite bool_decide_eq_true. split.
  - intros H. exists (drop (length pre) s). rewrite <- H at 1. by rewrite take_drop.
  - intros [post ->]. by rewrite take_app_length.
Qed.

Lemma Index_spec s sub :
  match Index s sub with
  | Some i => 0 <= i <= len s /\ HasPrefix (drop (Z.to_nat i) s) sub = true
  | None => forall pre post, s <> pre ++ sub ++ post
  end.
Proof.
  induction s as [|x s IH]; cbn [Index].
  - destruct (HasPrefix [] sub) eqn:Hp; [done|]. intros pre post He. symmetry in He. apply app_eq_nil in He as [_ He].
    apply app_eq_nil in He as [-> _]. done.
  - destruct (HasPrefix (x :: s) sub) eqn:Hp; [rewrite len_cons; pose proof (len_nonneg s); split; [lia|done]|].
    destruct (Index s sub) as [i|]; cbn [fmap option_fmap option_map].
    + destruct IH as [Hi IH]. rewrite len_cons. split; [lia|]. replace (Z.to_nat (Z.succ i)) with (S (Z.to_nat i)) by lia. done.
    + intros pre post He. destruct pre as [|y pre]; simpl in He.
      * rewrite <- not_true_iff_false in Hp. apply Hp, HasPrefix_app. eauto.
      * injection He as -> He. by eapply IH.
Qed.

Lemma scan_magic_spec blob :
  safe (scan_magic blob) /\
  (forall t, scan_magic blob = Ok t -> part t blob /\ HasPrefix t ntlmsspMagic = true) /\
  (forall e, scan_magic blob = Err e -> forall pre post, blob <> pre ++ ntlmsspMagic ++ post).
Proof.
  pose proof (Index_spec blob ntlmsspMagic) as Hi. unfold scan_magic. destruct (Index blob ntlmsspMagic) as [i|]; [|done].
  destruct Hi as [Hr Hp]. rewrite slice_Ok by lia. split_and!; [done| |done]. intros ? [= <-].
  replace (get blob i (len blob - i)) with (drop (Z.to_nat i) blob).
  - split; [|done]. exists (take (Z.to_nat i) blob), []. by rewrite app_nil_r, take_drop.
  - unfold get. rewrite take_ge; [done|]. rewrite length_drop. unfold len. lia.
Qed.

Lemma UnwrapNTLM_safe blob : safe (UnwrapNTLM blob).
Proof.
  unfold UnwrapNTLM. destruct (scan_magic_spec blob) as [Hs _], (spnegoInnerToken_spec blob) as [Hi _].
  destruct (spnegoInnerToken blob); [by destruct (HasPrefix _ _)|done|done].
Qed.

(** Whatever the security buffer holds, unwrapping it returns without a panic:
    either a contiguous part of the buffer that starts with the NTLMSSP
    signature, or an error, and then the signature occurs nowhere in the buffer;
    a bare NTLMSSP message is its own result. *)
Theorem unwrap_spec (blob : bytes) :
  safe (UnwrapNTLM blob) /\
  (forall t, UnwrapNTLM blob = Ok t -> part t blob /\ HasPrefix t ntlmsspMagic = true) /\
  (forall e, UnwrapNTLM blob = Err e -> forall pre post, blob <> pre ++ ntlmsspMagic ++ post) /\
  (HasPrefix blob ntlmsspMagic = true -> UnwrapNTLM blob = Ok blob).
Proof.
  unfold UnwrapNTLM. pose proof (scan_magic_spec blob) as Hscan.
  destruct (spnegoInnerToken_spec blob) as [Hs Ht].
  assert (Hbare : HasPrefix blob ntlmsspMagic = true -> spnegoInnerToken blob = Err tt \/ exists t, spnegoInnerToken blob = Ok t /\ False).
  { intros [post ->]%HasPrefix_app. left. unfold spnegoInnerToken.
    destruct (derTLV (ntlmsspMagic ++ post)) as [[[tag c] r]|[]|] eqn:Hd; [|done|by apply derTLV_safe in Hd].
    assert (tag = 0x4e) as ->; [|done]. unfold derTLV in Hd. case_match; [done|].
    apply bind_Ok_inv in Hd as (v & Hv & Hd). rewrite (at8_byte (ntlmsspMagic ++ post) 0 Byte.x4e eq_refl : at8 _ 0 = _) in Hv. injection Hv as <-.
    case_match; [done|]. apply bind_Ok_inv in Hd as (? & _ & Hd). apply bind_Ok_inv in Hd as ([? ?] & _ & Hd).
    case_match; [done|]. apply bind_Ok_inv in Hd as (? & _ & Hd). apply bind_Ok_inv in Hd as (? & _ & Hd). by injection Hd as <- <- <-. }
  assert (Hself : HasPrefix blob ntlmsspMagic = true -> scan_magic blob = Ok blob).
  { intros Hp. unfold scan_magic. replace (Index blob ntlmsspMagic) with (Some 0) by (destruct blob; cbn [Index]; by rewrite Hp).
    pose proof (len_nonneg blob). rewrite slice_Ok by lia. f_equal. apply get_all. lia. }
  destruct Hscan as (S1 & S2 & S3). destruct (spnegoInnerToken blob) as [tok|[]|] eqn:Htok; [|by auto|done].
  destruct (HasPrefix tok ntlmsspMagic) eqn:Hp.
  - split_and!; [done| |done|intros Hb; destruct (Hbare Hb) as [|(? & _ & [])]; done].
    intros ? [= <-]. split; [by apply Ht|done].
  - auto.
Qed.

(** ** The token a client sent *)

Definition elements (els : list (Z * bytes)) : bytes := concat (map (fun e => wrapTLV e.1 e.2) els).

(** [NegTokenInit] in its GSS-API frame, and [NegTokenResp]. *)
Definition init_token (oid : bytes) (els : list (Z * bytes)) : bytes :=
  wrapTLV 0x60 (wrapTLV 0x06 oid ++ wrapTLV 0xa0 (wrapTLV 0x30 (elements els))).
Definition resp_token (els : list (Z * bytes)) : bytes := wrapTLV 0xa1 (wrapTLV 0x30 (elements els)).

Lemma tag_ok_const tag : bool_decide (0 <= tag < 256) && negb (Z.land tag 0x1f =? 0x1f) = true -> tag_ok tag.
Proof. intros [H1%bool_decide_eq_true H2%negb_true_iff]%andb_prop. split; [done|]. by apply Z.eqb_neq. Qed.

Ltac tag := apply tag_ok_const; reflexivity.
Ltac wlen := repeat match goal with
  | H : context [len (wrapTLV ?t ?c)] |- _ => lazymatch goal with
      | K : 2 + len c <= len (wrapTLV t c) <= _ |- _ => fail
      | _ => pose proof (len_wrapTLV t c) end
  | |- context [len (wrapTLV ?t ?c)] => lazymatch goal with
      | K : 2 + len c <= len (wrapTLV t c) <= _ |- _ => fail
      | _ => pose proof (len_wrapTLV t c) end
  end; lia.

Ltac der := first [rewrite derTLV_wrapTLV by (tag || wlen) | rewrite derTLV_wrapTLV_nil by (tag || wlen)];
  cbn [mbind outcome_bind negb Z.eqb Pos.eqb].

Lemma token_loop_elements fuel before token junk after :
  Forall (fun e => tag_ok e.1 /\ e.1 <> 0xa2) before ->
  len (elements (before ++ (0xa2, wrapTLV 0x04 token ++ junk) :: after)) < 2 ^ 24 ->
  (length before < fuel)%nat ->
  token_loop fuel (elements (before ++ (0xa2, wrapTLV 0x04 token ++ junk) :: after)) = Ok token.
Proof.
  revert fuel. induction before as [|[t c] before IH]; intros [|fuel] Hf Hl Hn; [lia| |simpl in Hn; lia|]; cbn [app] in *.
  - unfold elements in *. cbn [map concat fst snd token_loop] in *. rewrite len_app in Hl.
    pose proof (len_nonneg (concat (map (fun e => wrapTLV e.1 e.2) after))) as Hpos.
    pose proof (len_wrapTLV 0xa2 (wrapTLV 0x04 token ++ junk)) as Hw. rewrite len_app in Hw. pose proof (len_nonneg junk).
    pose proof (len_wrapTLV 0x04 token). pose proof (len_nonneg token).
    rewrite (proj2 (Z.ltb_lt _ _)) by (rewrite len_app; lia). rewrite derTLV_wrapTLV by (tag || (rewrite len_app; lia)).
    cbn [mbind outcome_bind]. rewrite derTLV_wrapTLV by (tag || lia). done.
  - apply Forall_cons in Hf as [[Ht Ha] Hf]. unfold elements in *. cbn [map concat fst snd token_loop] in *. rewrite len_app in Hl.
    match type of Hl with _ + len ?e < _ => pose proof (len_nonneg e) end. pose proof (len_wrapTLV t c). pose proof (len_nonneg c).
    rewrite (proj2 (Z.ltb_lt _ _)) by (rewrite len_app; lia). rewrite derTLV_wrapTLV by (done || lia). cbn [mbind outcome_bind].
    rewrite (proj2 (Z.eqb_neq _ _) Ha). apply IH; [done|lia|simpl in Hn; lia].
Qed.

Lemma elements_length els : (length els <= length (elements els))%nat.
Proof.
  unfold elements. induction els as [|[t c] els IH]; [done|]. cbn [map concat length]. rewrite length_app.
  pose proof (len_wrapTLV t c) as H. pose proof (len_nonneg c). unfold len in *. cbn [fst snd]. lia.
Qed.

Lemma unwrap_token (oid token junk tail blob : bytes) (before after : list (Z * bytes)) :
  let els := before ++ (0xa2, wrapTLV 0x04 token ++ junk) :: after in
  Forall (fun e => tag_ok e.1 /\ e.1 <> 0xa2) before ->
  blob = init_token oid els ++ tail \/ blob = resp_token els ++ tail ->
  len blob < 2 ^ 24 -> HasPrefix token ntlmsspMagic = true ->
  UnwrapNTLM blob = Ok token.
Proof.
  intros els Hb Hblob Hl Hp. enough (spnegoInnerToken blob = Ok token) as Hin by (unfold UnwrapNTLM; by rewrite Hin, Hp).
  assert (Hloop : len (elements els) < 2 ^ 24 -> token_loop (S (length (elements els))) (elements els) = Ok token).
  { intros. apply token_loop_elements; [done|done|]. pose proof (elements_length els).
    assert (length before < length els)%nat by (unfold els; rewrite length_app; simpl; lia). lia. }
  pose proof (len_nonneg tail). pose proof (len_nonneg (elements els)). pose proof (len_nonneg oid). unfold spnegoInnerToken, expect. destruct Hblob as [-> | ->].
  - unfold init_token in *. set (inner := wrapTLV 0x06 oid ++ _) in *.
    assert (Hi : len inner = len (wrapTLV 0x06 oid) + len (wrapTLV 0xa0 (wrapTLV 0x30 (elements els)))) by apply len_app.
    rewrite len_app in Hl. der. unfold inner. do 3 der. apply Hloop. wlen.
  - unfold resp_token in *. rewrite len_app in Hl. do 2 der. apply Hloop. wlen.
Qed.

(** The NTLM message a client put in a SPNEGO token comes out exactly, in
    either kind of negotiation token, whatever optional elements precede it and
    whatever DER follows it (a mechListMIC, trailing bytes): the message
    integrity code is computed over the bytes the client hashed.  So does the message of a token the
    server itself wraps. *)
Theorem token_exact (oid token junk tail blob : bytes) (before after : list (Z * bytes)) (state : Z) :
  let els := before ++ (0xa2, wrapTLV 0x04 token ++ junk) :: after in
  Forall (fun e => tag_ok e.1 /\ e.1 <> 0xa2) before ->
  blob = init_token oid els ++ tail \/ blob = resp_token els ++ tail \/ blob = WrapNTLMResp state token ++ tail ->
  len blob < 2 ^ 24 -> HasPrefix token ntlmsspMagic = true ->
  UnwrapNTLM blob = Ok token.
Proof.
  intros els Hb [H|[H|H]] Hl Hp; [apply (unwrap_token oid token junk tail blob before after); auto..|].
  assert (Ht : 0 < len token).
  { apply HasPrefix_app in Hp as [post ->]. rewrite len_app. pose proof (len_nonneg post). change (len ntlmsspMagic) with 8. lia. }
  pose (before' := (0xa0, wrapTLV 0x0a [z2b state]) :: (if state =? SPNEGOAcceptIncomplete then [(0xa1, ntlmsspOID)] else [])).
  apply (unwrap_token oid token [] tail blob before' []); [|right|done|done].
  - unfold before'. apply Forall_cons. split; [split; [tag|discriminate]|]. case_match; [|done].
    apply Forall_singleton. split; [tag|discriminate].
  - rewrite H. unfold WrapNTLMResp, resp_token, elements, before'. rewrite (proj2 (Z.ltb_lt 0 (len token))) by done.
    destruct (state =? SPNEGOAcceptIncomplete); cbn [app map concat fst snd]; by rewrite !app_nil_r, ?(assoc_L (++)).
Qed.

Lemma token_exact_witness :
  let token := ntlmsspMagic ++ zeros 8 in
  UnwrapNTLM (init_token ntlmsspOID ([(0xa0, wrapTLV 0x30 ntlmsspOID)] ++ (0xa2, wrapTLV 0x04 token ++ []) :: [(0xa3, zeros 20)]) ++ zeros 3) = Ok token.
Proof.
  intros token. apply (token_exact ntlmsspOID token [] (zeros 3) _ [(0xa0, wrapTLV 0x30 ntlmsspOID)] [(0xa3, zeros 20)] 1);
    [|left; reflexivity|vm_compute; reflexivity|vm_compute; reflexivity].
  apply Forall_singleton. split; [apply tag_ok_const; reflexivity|discriminate].
Defined.

End Spnego.
