(* ===== verification/Negotiate.v ===== *)
(** NEGOTIATE: the messages of [internal/smb2/negotiate.go], the choice of
    dialect, cipher and signing algorithm in [selection.go], the preauth hash of
    [preauth.go] and the exchange of [internal/parent/negotiator.go].

    SHA-512, the random bytes and the clock are parameters. *)

From Stdlib Require Import Sorting.Sorted.
From S2P Require Import Prelude Smb2 Utf Frames Spnego.

Module Negotiate.

Definition Dialect202 : Z := 0x0202.
Definition Dialect210 : Z := 0x0210.
Definition Dialect300 : Z := 0x0300.
Definition Dialect302 : Z := 0x0302.
Definition Dialect311 : Z := 0x0311.

Definition NegotiateSigningEnabled : Z := 0x0001.
Definition NegotiateSigningRequired : Z := 0x0002.
Definition CapLargeMTU : Z := 0x00000004.
Definition CapEncryption : Z := 0x00000040.

Definition CtxPreauthIntegrityCaps : Z := 0x0001.
Definition CtxEncryptionCaps : Z := 0x0002.
Definition CtxSigningCaps : Z := 0x0008.

Definition CipherAES128CCM : Z := 0x0001.
Definition CipherAES128GCM : Z := 0x0002.
Definition CipherAES256CCM : Z := 0x0003.
Definition CipherAES256GCM : Z := 0x0004.
Definition HashSHA512 : Z := 0x0001.
Definition SigningHMACSHA256 : Z := 0x0000.
Definition SigningAESCMAC : Z := 0x0001.
Definition SigningAESGMAC : Z := 0x0002.

Definition negotiateRequestStructureSize : Z := 36.
Definition negotiateResponseStructureSize : Z := 65.
Definition headerSize : Z := 64.

Record PreauthIntegrityContext := mkPreauthCtx { HashAlgorithms : list Z; Salt : bytes }.

Record NegotiateRequest := mkNegReq {
  SecurityMode : Z; Capabilities : Z; ClientGuid : bytes; Dialects : list Z;
  PreauthIntegrity : PreauthIntegrityContext; Encryption : option (list Z); SigningCaps : option (list Z) }.

(** ** Arrays of 16-bit values *)

(** [n] values from offset [off] on. *)
Fixpoint decode_u16s (b : bytes) (off : Z) (n : nat) : res (list Z) :=
  match n with
  | O => Ok []
  | S n => v ← u16 b off; rest ← decode_u16s b (off + 2) n; Ok (v :: rest)
  end.

Definition encode_u16s (vs : list Z) : bytes := concat (map le16 vs).

(** ** The negotiate contexts *)

Definition decodePreauth (d : bytes) : res PreauthIntegrityContext :=
  if len d <? 4 then Err ErrShortBuffer else
  hashCount ← u16 d 0;
  saltLen ← u16 d 2;
  let need := 4 + hashCount * 2 + saltLen in
  if len d <? need then Err ErrShortBuffer else
  salt ← slice d (4 + hashCount * 2) (4 + hashCount * 2 + saltLen);
  hs ← decode_u16s d 4 (Z.to_nat hashCount);
  Ok (mkPreauthCtx hs salt).

(** [decodeEncryption] and [decodeSigningCaps] read the same layout. *)
Definition decodeEncryption (d : bytes) : res (list Z) :=
  if len d <? 2 then Err ErrShortBuffer else
  n ← u16 d 0;
  if len d <? 2 + n * 2 then Err ErrShortBuffer else
  decode_u16s d 2 (Z.to_nat n).
Definition decodeSigningCaps (d : bytes) : res (list Z) := decodeEncryption d.

Definition encodePreauth (p : PreauthIntegrityContext) : bytes :=
  le16 (len (HashAlgorithms p)) ++ le16 (len (Salt p)) ++ encode_u16s (HashAlgorithms p) ++ Salt p.
Definition encodeEncryption (e : list Z) : bytes := le16 (len e) ++ encode_u16s e.
Definition encodeSigningCaps (s : list Z) : bytes := le16 (len s) ++ encode_u16s s.

(** Rounding up to the next multiple of eight. *)
Definition align8 (off : Z) : Z := let pad := Z.land off 7 in if negb (pad =? 0) then off + (8 - pad) else off.

(** The [switch] on the type of a context. *)
Definition apply_ctx (ctype : Z) (data : bytes) (req : NegotiateRequest) : res NegotiateRequest :=
  if ctype =? CtxPreauthIntegrityCaps then
    pic ← decodePreauth data;
    Ok (mkNegReq (SecurityMode req) (Capabilities req) (ClientGuid req) (Dialects req) pic (Encryption req) (SigningCaps req))
  else if ctype =? CtxEncryptionCaps then
    ec ← decodeEncryption data;
    Ok (mkNegReq (SecurityMode req) (Capabilities req) (ClientGuid req) (Dialects req) (PreauthIntegrity req) (Some ec) (SigningCaps req))
  else if ctype =? CtxSigningCaps then
    sc ← decodeSigningCaps data;
    Ok (mkNegReq (SecurityMode req) (Capabilities req) (ClientGuid req) (Dialects req) (PreauthIntegrity req) (Encryption req) (Some sc))
  else Ok req.

Fixpoint decode_ctxs (body : bytes) (off : Z) (n : nat) (req : NegotiateRequest) : res NegotiateRequest :=
  match n with
  | O => Ok req
  | S n =>
      if len body <? off + 8 then Err ErrShortBuffer else
      ctype ← u16 body off;
      dlen ← u16 body (off + 2);
      let dstart := off + 8 in
      let dend := dstart + dlen in
      if len body <? dend then Err ErrShortBuffer else
      data ← slice body dstart dend;
      req ← apply_ctx ctype data req;
      decode_ctxs body (align8 dend) n req
  end.

Definition DecodeNegotiateRequest (body : bytes) : res NegotiateRequest :=
  if len body <? negotiateRequestStructureSize then Err ErrShortBuffer else
  ss ← u16 body 0;
  if negb (ss =? negotiateRequestStructureSize) then Err ErrBadStructureSize else
  dialectCount ← u16 body 2;
  sm ← u16 body 4;
  caps ← u32 body 8;
  guid ← slice body 12 28;
  ctxOffsetAbs ← u32 body 28;
  ctxCount ← u16 body 32;
  if len body <? negotiateRequestStructureSize + dialectCount * 2 then Err ErrShortBuffer else
  ds ← decode_u16s body negotiateRequestStructureSize (Z.to_nat dialectCount);
  let req := mkNegReq sm caps guid ds (mkPreauthCtx [] []) None None in
  if negb (bool_decide (Dialect311 ∈ ds)) then Ok req else
  if ctxCount =? 0 then Ok req else
  if ctxOffsetAbs <? headerSize then Err ErrContextOffset else
  decode_ctxs body (ctxOffsetAbs - headerSize) (Z.to_nat ctxCount) req.

(** ** The response *)

Record NegotiateResponse := mkNegResp {
  rSecurityMode : Z; rDialect : Z; rServerGuid : bytes; rCapabilities : Z; rMaxTransactSize : Z; rMaxReadSize : Z;
  rMaxWriteSize : Z; rSystemTime : Z; rServerStartTime : Z; rSecurityBuffer : bytes;
  rPreauthIntegrity : option PreauthIntegrityContext; rEncryption : option (list Z); rSigningCaps : option (list Z) }.

Definition pad8 (b : bytes) : bytes := b ++ zeros ((- len b) mod 8).

Definition appendCtx (body : bytes) (t : Z) (data : bytes) (padAfter : bool) : bytes :=
  let body := body ++ (le16 t ++ le16 (len data) ++ zeros 4) ++ data in
  if padAfter then pad8 body else body.

Definition is_some {A} (o : option A) : bool := match o with Some _ => true | None => false end.

Definition response_writes (r : NegotiateResponse) (ctxCount : Z) : list (Z * bytes) :=
  [(0, [z2b negotiateResponseStructureSize]); (2, le16 (rSecurityMode r)); (4, le16 (rDialect r)); (6, le16 ctxCount);
   (8, rServerGuid r); (24, le32 (rCapabilities r)); (28, le32 (rMaxTransactSize r)); (32, le32 (rMaxReadSize r));
   (36, le32 (rMaxWriteSize r)); (40, le64 (rSystemTime r)); (48, le64 (rServerStartTime r));
   (56, le16 (64 + headerSize)); (58, le16 (len (rSecurityBuffer r)))].

Definition EncodeNegotiateResponse (r : NegotiateResponse) : res bytes :=
  let is311 := rDialect r =? Dialect311 in
  match rPreauthIntegrity r with
  | None =>
      if is311 then Err ErrNoPreauthContext
      else Ok (writes (zeros 64) (response_writes r 0) ++ rSecurityBuffer r)
  | Some pre =>
      if is311 then
        let ctxCount := 1 + (if is_some (rEncryption r) then 1 else 0) + (if is_some (rSigningCaps r) then 1 else 0) in
        let body := pad8 (writes (zeros 64) (response_writes r ctxCount) ++ rSecurityBuffer r) in
        let body := splice 60 (le32 (len body + headerSize)) body in
        let body := appendCtx body CtxPreauthIntegrityCaps (encodePreauth pre) true in
        let body := match rEncryption r with Some e => appendCtx body CtxEncryptionCaps (encodeEncryption e) true | None => body end in
        let body := match rSigningCaps r with Some s => appendCtx body CtxSigningCaps (encodeSigningCaps s) false | None => body end in
        Ok body
      else Ok (writes (zeros 64) (response_writes r 0) ++ rSecurityBuffer r)
  end.

(** ** The selection *)

Record Selection := mkSel { Dialect : Z; Cipher : Z; Hash : Z; SigningAlgo : Z }.

Definition SupportedDialects : list Z := [Dialect311; Dialect302; Dialect300; Dialect210; Dialect202].
Definition SupportedCiphers : list Z := [CipherAES256GCM; CipherAES128GCM; CipherAES256CCM; CipherAES128CCM].
Definition SupportedSigningAlgos : list Z := [SigningAESCMAC; SigningAESGMAC].

(** The nested loops: the first of [ours] that occurs in [theirs]. *)
Fixpoint first_common (ours theirs : list Z) : option Z :=
  match ours with
  | [] => None
  | o :: ours => if bool_decide (o ∈ theirs) then Some o else first_common ours theirs
  end.

Definition Select (req : NegotiateRequest) (requireEncryption : bool) : res Selection :=
  match first_common SupportedDialects (Dialects req) with
  | None => Err ErrNoCommonDialect
  | Some d =>
      hash ← (if d =? Dialect311 then
                if bool_decide (HashSHA512 ∈ HashAlgorithms (PreauthIntegrity req)) then Ok HashSHA512 else Err ErrNoPreauthSHA512
              else Ok 0);
      let cipher :=
        if d =? Dialect311 then
          match Encryption req with Some cs => default 0 (first_common SupportedCiphers cs) | None => 0 end
        else if (d =? Dialect300) || (d =? Dialect302) then
          if negb (Z.land (Capabilities req) CapEncryption =? 0) then CipherAES128CCM else 0
        else 0 in
      if requireEncryption && (cipher =? 0) then Err ErrNoCommonCipher else
      algo ← (if d =? Dialect311 then
                match SigningCaps req with
                | Some (a :: rest) =>
                    match first_common SupportedSigningAlgos (a :: rest) with
                    | Some s => Ok s
                    | None => Err ErrNoCommonSigningAlgo
                    end
                | _ => Ok SigningAESCMAC
                end
              else if (d =? Dialect300) || (d =? Dialect302) then Ok SigningAESCMAC
              else Ok SigningHMACSHA256);
      Ok (mkSel d cipher hash algo)
  end.

(** ** The exchange *)

Section Exchange.
Context (SHA512 : bytes -> bytes).

(** [PreauthHash]: H_n = SHA-512(H_(n-1) || msg_n) from 64 zero bytes. *)
Definition NewPreauthHash : bytes := zeros 64.
Definition Update (state msg : bytes) : bytes := SHA512 (state ++ msg).

Record NegotiatorOptions := mkOpts { RequireEncryption : bool; RequireSigning : bool; MaxIOSize : Z; ServerStartTime : Z }.

(** What the exchange draws: the server's GUID, the salt, the clock, and the
    GUID and clock of an upgrade response. *)
Record draws := mkDraws { d_guid : bytes; d_salt : bytes; d_now : Z; d_guid1 : bytes; d_now1 : Z }.

Record Connection := mkConn {
  cClientGuid : bytes; cServerGuid : bytes; cSelection : Selection; cPreauth : bytes; cMaxIOSize : Z;
  NegotiatedSecurityMode : Z; NegotiatedCapabilities : Z; NegotiateRequestMsg : bytes; NegotiateResponseMsg : bytes }.

Inductive negErr :=
  | ReadFailed | FrameTooShort | BadHeader (e : err) | ExpectedNegotiate | BadBody (e : err) | SelectFailed (e : err)
  | EncodeFailed (e : err).

Definition map_err {E E' A} (f : E -> E') (m : outcome E A) : outcome E' A :=
  match m with Ok a => Ok a | Err e => Err (f e) | Panic => Panic end.

Definition full_message (h : Header.Header) (body : bytes) : res bytes :=
  h ← Header.EncodeHeader (zeros Header.HeaderSize) h; Ok (h ++ body).

(** [writeMultiProtocolUpgradeResponse]: the message. *)
Definition upgradeResponse (guid : bytes) (now : Z) : res bytes :=
  full_message (Header.mkHeader 1 0 Const.CommandNegotiate (Credits.grantCredits 1 1) Const.FlagServerToRedir 0 0 0 0 (zeros 16))
    (writes (zeros 64)
      [(0, [z2b 65]); (2, [z2b 0x01]); (4, [z2b 0xFF; z2b 0x02]); (8, guid); (28, map z2b [0; 0; 0x10; 0]);
       (32, map z2b [0; 0; 0x10; 0]); (36, map z2b [0; 0; 0x10; 0]); (40, le64 now)]).

Definition isSMB1 (frame : bytes) : bool :=
  (4 <=? len frame) && bool_decide (get frame 0 4 = map z2b [0xFF; 0x53; 0x4D; 0x42]).

(** The response to a request that was accepted. *)
Definition announce (opts : NegotiatorOptions) (d : draws) (req : NegotiateRequest) (sel : Selection) : NegotiateResponse :=
  let maxIO := if MaxIOSize opts =? 0 then 8 * 2 ^ 20 else MaxIOSize opts in
  let secMode := if RequireSigning opts then Z.lor NegotiateSigningEnabled NegotiateSigningRequired else NegotiateSigningEnabled in
  let caps := if negb (Cipher sel =? 0) && (Dialect300 <=? Dialect sel) then Z.lor CapLargeMTU CapEncryption else CapLargeMTU in
  let is311 := Dialect sel =? Dialect311 in
  mkNegResp secMode (Dialect sel) (d_guid d) caps maxIO maxIO maxIO (d_now d) (ServerStartTime opts) Spnego.NegotiateSecurityBlob
    (if is311 then Some (mkPreauthCtx [Hash sel] (d_salt d)) else None)
    (if is311 && negb (Cipher sel =? 0) then Some [Cipher sel] else None)
    (if is311 && is_some (SigningCaps req) then Some [SigningAlgo sel] else None).

(** The SMB2 NEGOTIATE frame: the connection and the message sent back. *)
Definition negotiate_frame (opts : NegotiatorOptions) (d : draws) (frame : bytes) : outcome negErr (Connection * bytes) :=
  if len frame <? Header.HeaderSize then Err FrameTooShort else
  h ← slice frame 0 Header.HeaderSize;
  hdr ← map_err BadHeader (Header.DecodeHeader h);
  if negb (Header.Command hdr =? Const.CommandNegotiate) then Err ExpectedNegotiate else
  body ← slice frame Header.HeaderSize (len frame);
  req ← map_err BadBody (DecodeNegotiateRequest body);
  sel ← map_err SelectFailed (Select req (RequireEncryption opts));
  let preauth := if Dialect sel =? Dialect311 then Update NewPreauthHash frame else NewPreauthHash in
  let r := announce opts d req sel in
  body ← map_err EncodeFailed (EncodeNegotiateResponse r);
  full ← map_err EncodeFailed (full_message
    (Header.mkHeader 1 0 Const.CommandNegotiate (Credits.grantCredits (Header.CreditCharge hdr) (Header.CreditResponse hdr))
       Const.FlagServerToRedir 0 (Header.MessageID hdr) 0 0 (zeros 16)) body);
  let preauth := if Dialect sel =? Dialect311 then Update preauth full else preauth in
  Ok (mkConn (ClientGuid req) (d_guid d) sel preauth (rMaxReadSize r) (rSecurityMode r) (rCapabilities r) frame full, full).

(** [Negotiate] on the frames that arrive: what is written, and the outcome. *)
Definition Negotiate (opts : NegotiatorOptions) (d : draws) (frames : list bytes) : list bytes * outcome negErr Connection :=
  match frames with
  | [] => ([], Err ReadFailed)
  | frame :: rest =>
      let go frame out :=
        match negotiate_frame opts d frame with
        | Ok (c, full) => (out ++ [full], Ok c)
        | Err e => (out, Err e)
        | Panic => (out, Panic)
        end in
      if isSMB1 frame then
        match upgradeResponse (d_guid1 d) (d_now1 d) with
        | Ok up => match rest with [] => ([up], Err ReadFailed) | frame :: _ => go frame [up] end
        | Err e => ([], Err (EncodeFailed e))
        | Panic => ([], Panic)
        end
      else go frame []
  end.
End Exchange.

(** ** The selection is the best both sides support *)

Lemma first_common_spec ours theirs :
  match first_common ours theirs with
  | Some o => o ∈ theirs /\ exists pre post, ours = pre ++ o :: post /\ Forall (fun p => p ∉ theirs) pre
  | None => Forall (fun o => o ∉ theirs) ours
  end.
Proof.
  induction ours as [|o ours IH]; cbn [first_common]; [done|]. case_bool_decide as Ho.
  - split; [done|]. by exists [], ours.
  - destruct (first_common ours theirs) as [p|]; [|by constructor].
    destruct IH as (? & pre & post & -> & Hf). split; [done|]. exists (o :: pre), post. split; [done|]. by constructor.
Qed.

Lemma first_common_some ours theirs o : first_common ours theirs = Some o -> o ∈ ours /\ o ∈ theirs.
Proof.
  intros H. pose proof (first_common_spec ours theirs) as Hs. rewrite H in Hs. destruct Hs as (? & pre & post & -> & _).
  split; [|done]. rewrite elem_of_app, elem_of_cons. auto.
Qed.

Lemma first_common_none ours theirs o : first_common ours theirs = None -> o ∈ ours -> o ∉ theirs.
Proof.
  intros H. pose proof (first_common_spec ours theirs) as Hs. rewrite H in Hs. rewrite Forall_forall in Hs. auto.
Qed.

(** In a list in descending order, what is found is the greatest in common. *)
Lemma first_common_max ours theirs o : StronglySorted Z.ge ours -> first_common ours theirs = Some o ->
  forall p, p ∈ ours -> p ∈ theirs -> p <= o.
Proof.
  intros Hs. induction Hs as [|x ours _ IH Hx]; cbn [first_common]; [done|]. case_bool_decide as Ho.
  - intros [= ->] p [->|Hp]%elem_of_cons _; [lia|]. rewrite Forall_forall in Hx. specialize (Hx p Hp). lia.
  - intros H p [->|Hp]%elem_of_cons Ht; [done|]. by apply IH.
Qed.

(** A cipher the client can use under dialect [d]. *)
Definition offers_cipher (req : NegotiateRequest) (d c : Z) : Prop :=
  c ∈ SupportedCiphers /\
  (d = Dialect311 /\ (exists cs, Encryption req = Some cs /\ c ∈ cs) \/
   (d = Dialect300 \/ d = Dialect302) /\ Z.land (Capabilities req) CapEncryption <> 0 /\ c = CipherAES128CCM).

Lemma cipher_spec req d cipher : cipher =
    (if d =? Dialect311 then
       match Encryption req with Some cs => default 0 (first_common SupportedCiphers cs) | None => 0 end
     else if (d =? Dialect300) || (d =? Dialect302) then
       if negb (Z.land (Capabilities req) CapEncryption =? 0) then CipherAES128CCM else 0
     else 0) ->
  (cipher = 0 /\ forall c, ~ offers_cipher req d c) \/
  (cipher <> 0 /\ offers_cipher req d cipher /\
     exists pre post, SupportedCiphers = pre ++ cipher :: post /\ Forall (fun c => ~ offers_cipher req d c) pre).
Proof.
  intros ->. unfold offers_cipher. destruct (Z.eqb_spec d Dialect311) as [->|Hd].
  - destruct (Encryption req) as [cs|].
    + pose proof (first_common_spec SupportedCiphers cs) as H. destruct (first_common SupportedCiphers cs) as [c|]; cbn [default from_option]; unfold id.
      * right. destruct H as (Hc & pre & post & He & Hf).
        assert (Hs : c ∈ SupportedCiphers) by (rewrite He, elem_of_app, elem_of_cons; auto).
        split_and!; [intros ->; apply (bool_decide_eq_true_2 _) in Hs; discriminate Hs|done|left; eauto|].
        exists pre, post. split; [done|]. eapply Forall_impl; [exact Hf|]. intros x Hx (_ & [(_ & cs' & [= <-] & ?)|([?|?] & _)]); done.
      * left. split; [done|]. rewrite Forall_forall in H. intros c (Hc & [(_ & cs' & [= <-] & Hin)|([?|?] & _)]); [by eapply H|done|done].
    + left. split; [done|]. intros c (_ & [(_ & ? & ? & _)|([?|?] & _)]); done.
  - assert (Hn : forall c, d <> Dialect300 -> d <> Dialect302 -> ~ offers_cipher req d c).
    { intros c H1 H2 (_ & [(? & _)|([?|?] & _)]); done. }
    destruct (Z.eqb_spec d Dialect300) as [->|H300]; [|destruct (Z.eqb_spec d Dialect302) as [->|H302]; [|left; split; [done|]; intros c; by apply Hn]].
    all: cbn [orb]; destruct (Z.eqb_spec (Z.land (Capabilities req) CapEncryption) 0) as [Hz|Hz]; cbn [negb];
      [left; split; [done|]; intros c (_ & [(? & _)|(_ & ? & _)]); done|right].
    all: split_and!; [done|by repeat constructor|by auto|].
    all: exists [CipherAES256GCM; CipherAES128GCM; CipherAES256CCM], []; split; [done|].
    all: repeat constructor; intros (_ & [(? & _)|(_ & _ & ?)]); done.
Qed.

(** The algorithms a connection runs under are the best both sides support:
    the highest dialect in common; the cipher the server prefers among those the
    client can use under it, and none only if there is none and encryption is
    not required; a signing algorithm the client listed, if it listed any.  Each
    refusal means what it says. *)
Theorem select_spec (req : NegotiateRequest) (requireEncryption : bool) :
  let common d := d ∈ SupportedDialects /\ d ∈ Dialects req in
  match Select req requireEncryption with
  | Ok sel =>
      (common (Dialect sel) /\ forall d, common d -> d <= Dialect sel) /\
      ((Cipher sel = 0 /\ requireEncryption = false /\ forall c, ~ offers_cipher req (Dialect sel) c) \/
       (Cipher sel <> 0 /\ offers_cipher req (Dialect sel) (Cipher sel) /\
          exists pre post, SupportedCiphers = pre ++ Cipher sel :: post /\ Forall (fun c => ~ offers_cipher req (Dialect sel) c) pre)) /\
      (if Dialect sel =? Dialect311
       then HashSHA512 ∈ HashAlgorithms (PreauthIntegrity req) /\ Hash sel = HashSHA512 /\ SigningAlgo sel ∈ SupportedSigningAlgos /\
            (forall a l, SigningCaps req = Some (a :: l) -> SigningAlgo sel ∈ a :: l)
       else SigningAlgo sel = if Dialect300 <=? Dialect sel then SigningAESCMAC else SigningHMACSHA256)
  | Err ErrNoCommonDialect => forall d, ~ common d
  | Err ErrNoPreauthSHA512 => common Dialect311 /\ HashSHA512 ∉ HashAlgorithms (PreauthIntegrity req)
  | Err ErrNoCommonCipher =>
      requireEncryption = true /\ exists d, common d /\ (forall d', common d' -> d' <= d) /\ forall c, ~ offers_cipher req d c
  | Err ErrNoCommonSigningAlgo =>
      common Dialect311 /\ exists a l, SigningCaps req = Some (a :: l) /\ forall s, s ∈ SupportedSigningAlgos -> s ∉ a :: l
  | _ => False
  end.
Proof.
  intros common. unfold Select. destruct (first_common SupportedDialects (Dialects req)) as [d|] eqn:Hd.
  2: { intros d [H1 H2]. by eapply first_common_none. }
  assert (Hc : common d) by by apply first_common_some.
  assert (Hmax : forall p, common p -> p <= d).
  { intros p [H1 H2]. eapply first_common_max; [|exact Hd|done|done]. repeat constructor; unfold Z.ge; done. }
  set (cipher := if d =? Dialect311 then _ else _). pose proof (cipher_spec req d cipher eq_refl) as Hcip. clearbody cipher.
  set (hash := if d =? Dialect311 then if bool_decide _ then _ else _ else _).
  assert (Hh : (hash = Err ErrNoPreauthSHA512 /\ d = Dialect311 /\ HashSHA512 ∉ HashAlgorithms (PreauthIntegrity req)) \/
    exists h, hash = Ok h /\ (d = Dialect311 -> HashSHA512 ∈ HashAlgorithms (PreauthIntegrity req) /\ h = HashSHA512)).
  { subst hash. destruct (Z.eqb_spec d Dialect311); [|right; exists 0; split; [done|by intros]].
    case_bool_decide; [right; by eexists|by left]. }
  destruct Hh as [(-> & -> & Hsha)|(h & -> & Hh)]; [done|]. cbn [mbind outcome_bind].
  destruct (requireEncryption && (cipher =? 0)) eqn:Hreq.
  { apply andb_prop in Hreq as [-> ->%Z.eqb_eq]. split; [done|]. exists d. split_and!; [done|done|]. by destruct Hcip as [[_ ?]|[? _]]. }
  assert (Hcip' : (cipher = 0 /\ requireEncryption = false /\ forall c, ~ offers_cipher req d c) \/
    (cipher <> 0 /\ offers_cipher req d cipher /\
     exists pre post, SupportedCiphers = pre ++ cipher :: post /\ Forall (fun c => ~ offers_cipher req d c) pre)).
  { destruct Hcip as [[-> ?]|?]; [left|by right]. destruct requireEncryption; done. }
  destruct (Z.eqb_spec d Dialect311) as [->|H311].
  - destruct (Hh eq_refl) as [Hin ->]. destruct (SigningCaps req) as [[|a l]|] eqn:Hsc; cbn [mbind outcome_bind Dialect Cipher Hash SigningAlgo].
    1,3: rewrite Z.eqb_refl; split_and!; [exact Hc|exact Hmax|exact Hcip'|exact Hin|done|by repeat constructor|by intros].
    destruct (first_common SupportedSigningAlgos (a :: l)) as [s|] eqn:Hs; cbn [mbind outcome_bind Dialect Cipher Hash SigningAlgo].
    + apply first_common_some in Hs as [? ?]. rewrite Z.eqb_refl. split_and!; try done. by intros ? ? [= <- <-].
    + split; [done|]. exists a, l. split; [done|]. intros s Hin'. by eapply first_common_none.
  - assert (Hd' : d = Dialect302 \/ d = Dialect300 \/ d = Dialect210 \/ d = Dialect202).
    { destruct Hc as [Hc _]. revert Hc. unfold SupportedDialects. rewrite !elem_of_cons, elem_of_nil. intros [|[|[|[|[|[]]]]]]; auto. done. }
    destruct Hd' as [-> |[-> |[-> | ->]]]; cbn; split_and!; done.
Qed.

(** ** No NEGOTIATE request makes the decoder panic *)

Lemma decode_u16s_safe b off n : 0 <= off -> off + 2 * Z.of_nat n <= len b -> safe (decode_u16s b off n).
Proof.
  revert off. induction n as [|n IH]; intros off Ho Hl; [done|]. cbn [decode_u16s].
  rewrite u16_Ok by lia. cbn [mbind outcome_bind]. apply safe_bind; [apply IH; lia|done].
Qed.

Lemma decodePreauth_safe d : safe (decodePreauth d).
Proof.
  unfold decodePreauth. nopanic. apply decode_u16s_safe; lia.
Qed.

Lemma decodeEncryption_safe d : safe (decodeEncryption d).
Proof. unfold decodeEncryption. nopanic. apply decode_u16s_safe; lia. Qed.

Lemma apply_ctx_safe ctype data req : safe (apply_ctx ctype data req).
Proof.
  unfold apply_ctx, decodeSigningCaps. pose proof (decodePreauth_safe data). pose proof (decodeEncryption_safe data).
  repeat case_match; try done; by apply safe_bind.
Qed.

Lemma align8_spec n : 0 <= n -> align8 n = n + (- n) mod 8.
Proof.
  intros Hn. unfold align8. rewrite (Utf8.land_mod n 3) by done. change (2 ^ 3) with 8.
  destruct (Z.eqb_spec (n mod 8) 0); cbn [negb]; Z.div_mod_to_equations; lia.
Qed.

Lemma decode_ctxs_safe body off n req : 0 <= off -> safe (decode_ctxs body off n req).
Proof.
  revert off req. induction n as [|n IH]; intros off req Ho; [done|]. cbn [decode_ctxs].
  destruct (Z.ltb_spec (len body) (off + 8)); [done|].
  destruct (u16 body off) as [ct| |] eqn:Hct; [|done|by rewrite u16_Ok in Hct by lia]. cbn [mbind outcome_bind].
  destruct (u16 body (off + 2)) as [dl| |] eqn:Hdl; [|done|by rewrite u16_Ok in Hdl by lia]. cbn [mbind outcome_bind].
  apply u16_inv in Hdl. destruct (Z.ltb_spec (len body) (off + 8 + dl)); [done|]. rewrite slice_Ok by lia. cbn [mbind outcome_bind].
  apply safe_bind; [apply apply_ctx_safe|]. intros req' _. apply IH. rewrite align8_spec by lia.
  pose proof (Z.mod_pos_bound (- (off + 8 + dl)) 8 eq_refl). lia.
Qed.

Lemma DecodeNegotiateRequest_safe body : safe (DecodeNegotiateRequest body).
Proof.
  unfold DecodeNegotiateRequest, negotiateRequestStructureSize, headerSize. nopanic.
  - apply decode_u16s_safe; lia.
  - apply decode_ctxs_safe. lia.
Qed.

(** ** The contexts of a response *)

Definition u16_list (vs : list Z) : Prop := Forall (fun v => 0 <= v < 2 ^ 16) vs /\ len vs < 2 ^ 15 - 1.

Lemma len_encode_u16s vs : len (encode_u16s vs) = 2 * len vs.
Proof.
  unfold encode_u16s. induction vs as [|v vs IH]; [done|]. cbn [map concat]. rewrite len_app, len_le_split, IH, len_cons. lia.
Qed.

Lemma u16_at pre v post : 0 <= v < 2 ^ 16 -> u16 (E:=err) (pre ++ le16 v ++ post) (len pre) = Ok v.
Proof.
  intros Hv. pose proof (len_nonneg pre). pose proof (len_nonneg post).
  rewrite u16_Ok by (rewrite ?len_app, ?len_le_split; lia). f_equal.
  rewrite get_app_r, Z.sub_diag, get_app_exact by (rewrite ?len_le_split; lia). by apply (le_combine_le_split 2 v (2 ^ 16)).
Qed.

Lemma decode_u16s_encode pre vs post : Forall (fun v => 0 <= v < 2 ^ 16) vs ->
  decode_u16s (pre ++ encode_u16s vs ++ post) (len pre) (length vs) = Ok vs.
Proof.
  intros Hv. revert pre. induction Hv as [|v vs Hv _ IH]; intros pre; [done|]. cbn [length decode_u16s].
  unfold encode_u16s. cbn [map concat]. rewrite <- (assoc_L (++)). rewrite u16_at by done. cbn [mbind outcome_bind].
  specialize (IH (pre ++ le16 v)). rewrite len_app, len_le_split in IH. rewrite <- (assoc_L (++)) in IH.
  change (Z.of_nat 2) with 2 in IH. unfold encode_u16s in IH. by rewrite IH.
Qed.

Lemma decodeEncryption_encode vs : u16_list vs -> decodeEncryption (encodeEncryption vs) = Ok vs.
Proof.
  intros [Hv Hl]. unfold decodeEncryption, encodeEncryption. pose proof (len_nonneg vs).
  assert (Hn : len (le16 (len vs) ++ encode_u16s vs) = 2 + 2 * len vs) by (rewrite len_app, len_le_split, len_encode_u16s; lia).
  rewrite Hn, (proj2 (Z.ltb_ge _ _)) by lia. rewrite (u16_at [] (len vs) (encode_u16s vs) ltac:(lia) : u16 (le16 (len vs) ++ encode_u16s vs) 0 = _). cbn [mbind outcome_bind].
  rewrite (proj2 (Z.ltb_ge _ _)) by lia. pose proof (decode_u16s_encode (le16 (len vs)) vs [] Hv) as Hd.
  rewrite app_nil_r, len_le_split in Hd. replace (Z.to_nat (len vs)) with (length vs) by (unfold len; lia). exact Hd.
Qed.

Lemma decodePreauth_encode p : u16_list (HashAlgorithms p) -> len (Salt p) < 2 ^ 16 -> decodePreauth (encodePreauth p) = Ok p.
Proof.
  intros [Hv Hl] Hs. destruct p as [hs salt]. unfold decodePreauth, encodePreauth. cbn [HashAlgorithms Salt] in *.
  pose proof (len_nonneg hs). pose proof (len_nonneg salt). set (d := le16 (len hs) ++ le16 (len salt) ++ encode_u16s hs ++ salt).
  assert (Hn : len d = 4 + 2 * len hs + len salt) by (unfold d; rewrite !len_app, !len_le_split, len_encode_u16s; lia).
  rewrite Hn, (proj2 (Z.ltb_ge _ 4)) by lia.
  rewrite (u16_at [] (len hs) (le16 (len salt) ++ encode_u16s hs ++ salt) ltac:(lia) : u16 d 0 = _). cbn [mbind outcome_bind].
  rewrite (u16_at (le16 (len hs)) (len salt) (encode_u16s hs ++ salt) ltac:(lia) : u16 d 2 = _). cbn [mbind outcome_bind].
  rewrite (proj2 (Z.ltb_ge _ _)) by lia. rewrite slice_Ok by lia. cbn [mbind outcome_bind].
  pose proof (decode_u16s_encode (le16 (len hs) ++ le16 (len salt)) hs salt Hv) as Hd.
  rewrite len_app, !len_le_split, <- (assoc_L (++)) in Hd. fold d in Hd. change (Z.of_nat 2 + Z.of_nat 2) with 4 in Hd.
  replace (Z.to_nat (len hs)) with (length hs) by (unfold len; lia). rewrite Hd. cbn [mbind outcome_bind]. do 2 f_equal.
  replace d with ((le16 (len hs) ++ le16 (len salt) ++ encode_u16s hs) ++ salt) by (unfold d; by rewrite <- !(assoc_L (++))).
  rewrite get_app_r by (rewrite ?len_app, ?len_le_split, ?len_encode_u16s; lia).
  rewrite !len_app, !len_le_split, len_encode_u16s. rewrite <- (get_all salt (len salt) eq_refl) at 3. f_equal; lia.
Qed.

(** A chain of contexts after [base]; only the last may go without padding. *)
Fixpoint chain_ctxs (base : bytes) (ctxs : list (Z * bytes)) (lastPad : bool) : bytes :=
  match ctxs with
  | [] => base
  | [c] => appendCtx base c.1 c.2 lastPad
  | c :: rest => chain_ctxs (appendCtx base c.1 c.2 true) rest lastPad
  end.

Lemma appendCtx_prefix base t data pad : exists s,
  appendCtx base t data pad = base ++ (le16 t ++ le16 (len data) ++ zeros 4) ++ data ++ s.
Proof.
  unfold appendCtx, pad8. destruct pad; eexists; rewrite <- !(assoc_L (++)); [done|]. by rewrite (app_nil_r data).
Qed.

Lemma chain_prefix base ctxs lastPad : exists s, chain_ctxs base ctxs lastPad = base ++ s.
Proof.
  revert base. induction ctxs as [|c ctxs IH]; intros base; [exists []; by rewrite app_nil_r|].
  destruct (appendCtx_prefix base c.1 c.2 true) as [s1 H1]. destruct (appendCtx_prefix base c.1 c.2 lastPad) as [s2 H2].
  destruct ctxs as [|c' ctxs]; [rewrite H2 || (cbn [chain_ctxs]; rewrite H2); by eexists|].
  destruct (IH (appendCtx base c.1 c.2 true)) as [s Hs]. change (chain_ctxs base (c :: c' :: ctxs) lastPad) with
    (chain_ctxs (appendCtx base c.1 c.2 true) (c' :: ctxs) lastPad). rewrite Hs, H1, <- !(assoc_L (++)). by eexists.
Qed.

Lemma len_appendCtx base t data : len (appendCtx base t data true) = align8 (len base + 8 + len data).
Proof.
  pose proof (len_nonneg base). pose proof (len_nonneg data). rewrite align8_spec by lia. unfold appendCtx, pad8.
  rewrite !len_app, !len_le_split. rewrite !len_zeros by (done || apply Z.mod_pos_bound; lia).
  change (Z.of_nat 2) with 2. f_equal; [lia|]. f_equal. lia.
Qed.

(** One step of the walk. *)
Lemma decode_ctxs_step base t data s n req : 0 <= t < 2 ^ 16 -> len data < 2 ^ 16 ->
  decode_ctxs (base ++ (le16 t ++ le16 (len data) ++ zeros 4) ++ data ++ s) (len base) (S n) req =
  (apply_ctx t data req ≫= decode_ctxs (base ++ (le16 t ++ le16 (len data) ++ zeros 4) ++ data ++ s)
     (align8 (len base + 8 + len data)) n).
Proof.
  intros Ht Hd. set (body := base ++ _). cbn [decode_ctxs]. pose proof (len_nonneg base). pose proof (len_nonneg data). pose proof (len_nonneg s).
  assert (Hl : len body = len base + 8 + len data + len s) by (unfold body; rewrite !len_app, !len_le_split; change (len (zeros 4)) with 4; lia).
  rewrite (proj2 (Z.ltb_ge _ _)) by lia.
  assert (R1 : u16 (E:=err) body (len base) = Ok t) by (unfold body; rewrite <- !(assoc_L (++)); by apply u16_at).
  assert (R2 : u16 (E:=err) body (len base + 2) = Ok (len data)).
  { pose proof (u16_at (base ++ le16 t) (len data) (zeros 4 ++ data ++ s) ltac:(lia)) as Hu.
    rewrite len_app, len_le_split in Hu. unfold body. rewrite <- !(assoc_L (++)) in *. exact Hu. }
  assert (R3 : slice (E:=err) body (len base + 8) (len base + 8 + len data) = Ok data).
  { rewrite slice_Ok by lia. f_equal. unfold body. rewrite (assoc_L (++) base).
    rewrite get_app_r by (rewrite ?len_app, ?len_le_split; change (len (zeros 4)) with 4; lia).
    rewrite !len_app, !len_le_split. change (len (zeros 4)) with 4. rewrite Z.add_simpl_l.
    replace (len base + 8 - (len base + (Z.of_nat 2 + (Z.of_nat 2 + 4)))) with 0 by lia. by apply get_app_exact. }
  rewrite R1. cbn [mbind outcome_bind]. rewrite R2. cbn [mbind outcome_bind]. rewrite (proj2 (Z.ltb_ge _ _)) by lia. by rewrite R3.
Qed.

Lemma decode_chain base ctxs lastPad req : Forall (fun c => 0 <= c.1 < 2 ^ 16 /\ len c.2 < 2 ^ 16) ctxs ->
  decode_ctxs (chain_ctxs base ctxs lastPad) (len base) (length ctxs) req =
  foldl (fun m c => m ≫= apply_ctx c.1 c.2) (Ok req) ctxs.
Proof.
  intros Hf. revert base req. induction Hf as [|c ctxs [Ht Hd] Hf IH]; intros base req; [done|].
  assert (Hfold : forall m : res NegotiateRequest, foldl (fun m c => m ≫= apply_ctx c.1 c.2) m ctxs =
    (m ≫= fun r => foldl (fun m c => m ≫= apply_ctx c.1 c.2) (Ok r) ctxs)).
  { clear. induction ctxs as [|c ctxs IH]; intros m; [by destruct m|]. cbn [foldl]. rewrite IH.
    destruct m as [r| |]; cbn [mbind outcome_bind]; [by rewrite <- IH|done|done]. }
  cbn [foldl length]. rewrite Hfold. cbn [mbind outcome_bind].
  destruct ctxs as [|c' ctxs].
  - cbn [chain_ctxs]. destruct (appendCtx_prefix base c.1 c.2 lastPad) as [s ->]. rewrite (decode_ctxs_step base c.1 c.2) by done. done.
  - change (chain_ctxs base (c :: c' :: ctxs) lastPad) with (chain_ctxs (appendCtx base c.1 c.2 true) (c' :: ctxs) lastPad).
    destruct (chain_prefix (appendCtx base c.1 c.2 true) (c' :: ctxs) lastPad) as [s' Hs'].
    destruct (appendCtx_prefix base c.1 c.2 true) as [s Hs]. rewrite Hs'.
    assert (He : appendCtx base c.1 c.2 true ++ s' = base ++ (le16 c.1 ++ le16 (len c.2) ++ zeros 4) ++ c.2 ++ s ++ s')
      by (rewrite Hs, <- !(assoc_L (++)); done).
    rewrite He, (decode_ctxs_step base c.1 c.2 (s ++ s')) by done. rewrite <- He, <- Hs', <- (len_appendCtx base c.1).
    destruct (apply_ctx c.1 c.2 req) as [r| |]; cbn [mbind outcome_bind]; [apply IH|done|done].
Qed.

(** ** What the client reads *)

(** The Go types of a response, and its lists as short as its length fields say. *)
Record wf_response (r : NegotiateResponse) : Prop := {
  wf_words : 0 <= rSecurityMode r < 2 ^ 16 /\ 0 <= rDialect r < 2 ^ 16 /\ 0 <= rCapabilities r < 2 ^ 32 /\
    0 <= rMaxTransactSize r < 2 ^ 32 /\ 0 <= rMaxReadSize r < 2 ^ 32 /\ 0 <= rMaxWriteSize r < 2 ^ 32;
  wf_guid : len (rServerGuid r) = 16;
  wf_secbuf : len (rSecurityBuffer r) < 2 ^ 16;
  wf_pre : forall p, rPreauthIntegrity r = Some p -> u16_list (HashAlgorithms p) /\ len (encodePreauth p) < 2 ^ 16;
  wf_enc : forall e, rEncryption r = Some e -> u16_list e;
  wf_sig : forall s, rSigningCaps r = Some s -> u16_list s }.

Record response_fields (r : NegotiateResponse) (body : bytes) : Prop := {
  f_mode : le_combine (get body 2 2) = rSecurityMode r;
  f_dialect : le_combine (get body 4 2) = rDialect r;
  f_guid : get body 8 16 = rServerGuid r;
  f_caps : le_combine (get body 24 4) = rCapabilities r;
  f_sizes : le_combine (get body 28 4) = rMaxTransactSize r /\ le_combine (get body 32 4) = rMaxReadSize r /\
    le_combine (get body 36 4) = rMaxWriteSize r;
  f_secbuf : le_combine (get body 56 2) = 128 /\ le_combine (get body 58 2) = len (rSecurityBuffer r) /\
    get body 64 (len (rSecurityBuffer r)) = rSecurityBuffer r }.

(** The fixed part, and the security buffer after it. *)
Lemma fixed_fields r n rest : wf_response r -> 0 <= n < 2 ^ 16 ->
  let b := writes (zeros 64) (response_writes r n) ++ rSecurityBuffer r ++ rest in
  response_fields r b /\ le_combine (get b 6 2) = n /\ len b = 64 + len (rSecurityBuffer r) + len rest /\ get b 60 4 = zeros 4.
Proof.
  intros [Hw Hg Hs _ _ _] Hn b. pose proof (len_nonneg (rSecurityBuffer r)). pose proof (len_nonneg rest).
  assert (Hf : fits 64 (response_writes r n)) by (unfold response_writes; fits_tac).
  assert (Hl : len (writes (zeros 64) (response_writes r n)) = 64) by by apply len_writes.
  assert (Hb : forall off k, 0 <= off -> 0 <= k -> off + k <= 64 -> get b off k = get (writes (zeros 64) (response_writes r n)) off k).
  { intros. unfold b. by rewrite get_app_l by (rewrite ?Hl; lia). }
  change 64 with (len (zeros 64)) in Hf. unfold response_writes in *.
  split_and!; [constructor; rewrite ?Hb by lia| | |].
  all: try (wfield; by fields).
  - split_and!; [by wfield; fields|by wfield; fields|]. unfold b. rewrite get_app_r by lia. rewrite Hl.
    by apply get_app_exact.
  - rewrite Hb by lia. wfield. by fields.
  - unfold b. rewrite !len_app, Hl. lia.
  - rewrite Hb by lia. by wfield.
Qed.

Lemma apply_pre p req : u16_list (HashAlgorithms p) -> len (Salt p) < 2 ^ 16 ->
  apply_ctx CtxPreauthIntegrityCaps (encodePreauth p) req =
  Ok (mkNegReq (SecurityMode req) (Capabilities req) (ClientGuid req) (Dialects req) p (Encryption req) (SigningCaps req)).
Proof. intros. unfold apply_ctx. cbn [Z.eqb Pos.eqb CtxPreauthIntegrityCaps]. by rewrite decodePreauth_encode. Qed.

Lemma apply_enc e req : u16_list e ->
  apply_ctx CtxEncryptionCaps (encodeEncryption e) req =
  Ok (mkNegReq (SecurityMode req) (Capabilities req) (ClientGuid req) (Dialects req) (PreauthIntegrity req) (Some e) (SigningCaps req)).
Proof. intros. unfold apply_ctx. cbn [Z.eqb Pos.eqb CtxPreauthIntegrityCaps CtxEncryptionCaps]. by rewrite decodeEncryption_encode. Qed.

Lemma apply_sig s req : u16_list s ->
  apply_ctx CtxSigningCaps (encodeSigningCaps s) req =
  Ok (mkNegReq (SecurityMode req) (Capabilities req) (ClientGuid req) (Dialects req) (PreauthIntegrity req) (Encryption req) (Some s)).
Proof.
  intros. unfold apply_ctx, decodeSigningCaps. cbn [Z.eqb Pos.eqb CtxPreauthIntegrityCaps CtxEncryptionCaps CtxSigningCaps].
  change encodeSigningCaps with encodeEncryption. by rewrite decodeEncryption_encode.
Qed.

(** The contexts of a 3.1.1 response, as [decode_ctxs] finds them from the offset
    and the count the fixed part announces. *)
Definition response_ctxs (body : bytes) : res NegotiateRequest :=
  decode_ctxs body (le_combine (get body 60 4) - headerSize) (Z.to_nat (le_combine (get body 6 2)))
    (mkNegReq 0 0 [] [] (mkPreauthCtx [] []) None None).

(** The contexts of [EncodeNegotiateResponse] as one chain. *)
Definition ctx_list (pre : PreauthIntegrityContext) (enc sig : option (list Z)) : list (Z * bytes) :=
  (CtxPreauthIntegrityCaps, encodePreauth pre) ::
  match enc with Some e => [(CtxEncryptionCaps, encodeEncryption e)] | None => [] end ++
  match sig with Some s => [(CtxSigningCaps, encodeSigningCaps s)] | None => [] end.

(** [injection] would evaluate the encoder. *)
Lemma Ok_inj {E A} (a b : A) : Ok (E:=E) a = Ok b -> a = b.
Proof. by intros [= ->]. Qed.

Lemma encode_chain r pre body : rDialect r = Dialect311 -> rPreauthIntegrity r = Some pre ->
  EncodeNegotiateResponse r = Ok body ->
  let ctxs := ctx_list pre (rEncryption r) (rSigningCaps r) in
  let base := pad8 (writes (zeros 64) (response_writes r (len ctxs)) ++ rSecurityBuffer r) in
  body = chain_ctxs (splice 60 (le32 (len base + headerSize)) base) ctxs (negb (is_some (rSigningCaps r))).
Proof.
  intros Hd Hp. unfold EncodeNegotiateResponse. rewrite Hp, Hd. change (Dialect311 =? Dialect311) with true. cbn iota.
  intros He. apply Ok_inj in He as <-. cbv zeta.
  replace (len (ctx_list pre (rEncryption r) (rSigningCaps r))) with
    (1 + (if is_some (rEncryption r) then 1 else 0) + (if is_some (rSigningCaps r) then 1 else 0)); [|by destruct (rEncryption r), (rSigningCaps r)].
  unfold ctx_list. destruct (rEncryption r), (rSigningCaps r); cbn [is_some negb app chain_ctxs fst snd]; reflexivity.
Qed.

Lemma encode_response r body : wf_response r -> EncodeNegotiateResponse r = Ok body ->
  response_fields r body /\
  (rDialect r <> Dialect311 -> le_combine (get body 6 2) = 0) /\
  (rDialect r = Dialect311 -> exists pre, rPreauthIntegrity r = Some pre /\
     response_ctxs body = Ok (mkNegReq 0 0 [] [] pre (rEncryption r) (rSigningCaps r))).
Proof.
  intros Hwf He. destruct (Z.eq_dec (rDialect r) Dialect311) as [Hd|Hd].
  2: { assert (body = writes (zeros 64) (response_writes r 0) ++ rSecurityBuffer r ++ []) as ->.
       { rewrite app_nil_r. unfold EncodeNegotiateResponse in He. rewrite (proj2 (Z.eqb_neq _ _) Hd) in He.
         destruct (rPreauthIntegrity r); by injection He as <-. }
       destruct (fixed_fields r 0 [] Hwf ltac:(lia)) as (H1 & H2 & _). by split_and!. }
  destruct (rPreauthIntegrity r) as [pre|] eqn:Hp; [|by unfold EncodeNegotiateResponse in He; rewrite Hp, Hd in He].
  pose proof (encode_chain r pre body Hd Hp He) as Hb. cbv zeta in Hb. clear He.
  set (ctxs := ctx_list pre (rEncryption r) (rSigningCaps r)) in *.
  assert (Hn : 1 <= len ctxs <= 3) by (unfold ctxs, ctx_list; destruct (rEncryption r), (rSigningCaps r); cbn [app]; rewrite ?len_cons, ?len_nil; lia).
  set (base := pad8 _) in Hb. destruct (wf_pre r Hwf pre Hp) as [Hhs Hpl].
  set (z := zeros ((- len (writes (zeros 64) (response_writes r (len ctxs)) ++ rSecurityBuffer r)) mod 8)).
  assert (Hbase : base = writes (zeros 64) (response_writes r (len ctxs)) ++ rSecurityBuffer r ++ z) by (unfold base, pad8; by rewrite <- (assoc_L (++))).
  destruct (fixed_fields r (len ctxs) z Hwf ltac:(lia)) as (F1 & F2 & F3 & _). rewrite <- Hbase in F1, F2, F3.
  pose proof (wf_secbuf r Hwf). pose proof (len_nonneg (rSecurityBuffer r)). pose proof (len_nonneg z).
  assert (Hz : len z < 8) by (unfold z; rewrite len_zeros; apply Z.mod_pos_bound; done).
  set (base' := splice 60 _ base) in Hb.
  assert (Hl' : len base' = len base) by (unfold base'; apply len_splice; [lia|rewrite len_le_split; lia]).
  destruct (chain_prefix base' ctxs (negb (is_some (rSigningCaps r)))) as [s Hs]. rewrite Hs in Hb.
  assert (Hkeep : forall off n, 0 <= off -> 0 <= n -> off + n <= 60 \/ 64 <= off -> off + n <= len base -> get body off n = get base off n).
  { intros. rewrite Hb, get_app_l by lia. unfold base'. apply get_splice_ne; rewrite ?len_le_split; lia. }
  split_and!; [|done|].
  - destruct F1 as [G1 G2 G3 G4 G5 G6]. constructor; rewrite ?Hkeep by lia; done.
  - intros _. exists pre. split; [done|]. unfold response_ctxs. rewrite (Hkeep 6 2) by lia. rewrite F2.
    assert (Hoff : le_combine (get body 60 4) = len base + headerSize).
    { rewrite Hb, get_app_l by lia. unfold base'. rewrite get_splice_eq by (rewrite ?len_le_split; lia).
      apply (le_combine_le_split 4 _ (2 ^ 32)); [done|]. unfold headerSize. lia. }
    rewrite Hoff, Z.add_simpl_r, <- Hl'. replace (Z.to_nat (len ctxs)) with (length ctxs) by (unfold len; lia).
    rewrite Hb, <- Hs. rewrite decode_chain.
    + assert (Hsl : len (Salt pre) < 2 ^ 16).
      { unfold encodePreauth in Hpl. rewrite !len_app, !len_le_split, len_encode_u16s in Hpl. pose proof (len_nonneg (HashAlgorithms pre)). lia. }
      pose proof (wf_enc r Hwf) as He. pose proof (wf_sig r Hwf) as Hsg. unfold ctxs, ctx_list.
      destruct (rEncryption r) as [e|], (rSigningCaps r) as [sg|]; cbn [app foldl fst snd];
        rewrite ?bind_Ok, apply_pre by done; cbn [mbind outcome_bind];
        rewrite ?apply_enc by auto; cbn [mbind outcome_bind]; rewrite ?apply_sig by auto; done.
    + assert (Hu : forall v, u16_list v -> len (encodeEncryption v) < 2 ^ 16).
      { intros v [_ Hv]. unfold encodeEncryption. rewrite len_app, len_le_split, len_encode_u16s. lia. }
      unfold ctxs, ctx_list. apply Forall_cons. split; [split; [done|exact Hpl]|]. apply Forall_app. split.
      * destruct (rEncryption r) as [e|] eqn:Hen; [|done]. apply Forall_singleton. split; [done|]. by apply Hu, (wf_enc r Hwf).
      * destruct (rSigningCaps r) as [e|] eqn:Hen; [|done]. apply Forall_singleton. split; [done|]. by apply Hu, (wf_sig r Hwf).
Qed.

(** ** The exchange *)

(** What the options and the draws are in Go. *)
Definition wf_options (opts : NegotiatorOptions) (d : draws) : Prop :=
  0 <= MaxIOSize opts < 2 ^ 32 /\ len (d_guid d) = 16 /\ len (d_salt d) = 32.

Lemma Select_values req re sel : Select req re = Ok sel ->
  Dialect sel ∈ SupportedDialects /\ (Cipher sel = 0 \/ Cipher sel ∈ SupportedCiphers) /\
  0 <= SigningAlgo sel <= 2 /\ (Dialect sel = Dialect311 -> Hash sel = HashSHA512).
Proof.
  unfold Select. destruct (first_common SupportedDialects (Dialects req)) as [d|] eqn:Hd; [|done].
  apply first_common_some in Hd as [Hd _]. set (cipher := if d =? Dialect311 then match Encryption req with _ => _ end else _).
  pose proof (cipher_spec req d cipher eq_refl) as Hcip. clearbody cipher. intros H.
  apply bind_Ok_inv in H as (h & Hh & H). destruct (re && (cipher =? 0)); [done|]. apply bind_Ok_inv in H as (a & Ha & H).
  apply Ok_inj in H as <-. cbn [Dialect Cipher Hash SigningAlgo]. split; [done|split; [|split]].
  - destruct Hcip as [[? _]|(_ & [? _] & _)]; auto.
  - revert Ha. destruct (d =? Dialect311); [|destruct (_ || _); intros [= <-]; unfold SigningAESCMAC, SigningHMACSHA256; lia].
    destruct (SigningCaps req) as [[|x l]|]; try (intros [= <-]; unfold SigningAESCMAC; lia).
    destruct (first_common SupportedSigningAlgos (x :: l)) as [s|] eqn:Hs; [|done]. intros [= <-].
    apply first_common_some in Hs as [Hs _]. revert Hs. unfold SupportedSigningAlgos, SigningAESCMAC, SigningAESGMAC.
    rewrite !elem_of_cons, elem_of_nil. lia.
  - intros ->. revert Hh. rewrite Z.eqb_refl. case_bool_decide; [by intros [= <-]|done].
Qed.

Lemma announce_wf opts d req sel : wf_options opts d -> Dialect sel ∈ SupportedDialects ->
  Cipher sel = 0 \/ Cipher sel ∈ SupportedCiphers -> 0 <= SigningAlgo sel <= 2 -> (Dialect sel = Dialect311 -> Hash sel = HashSHA512) ->
  wf_response (announce opts d req sel).
Proof.
  intros (Hio & Hg & Hs) Hd Hc Ha Hh. unfold announce.
  assert (Hd' : 0 <= Dialect sel < 2 ^ 16).
  { revert Hd. unfold SupportedDialects, Dialect311, Dialect302, Dialect300, Dialect210, Dialect202. rewrite !elem_of_cons, elem_of_nil. lia. }
  assert (Hc' : 0 <= Cipher sel < 2 ^ 16).
  { revert Hc. unfold SupportedCiphers, CipherAES256GCM, CipherAES128GCM, CipherAES256CCM, CipherAES128CCM. rewrite !elem_of_cons, elem_of_nil. lia. }
  assert (Hone : forall v, 0 <= v < 2 ^ 16 -> u16_list [v]) by (intros v Hv; split; [by constructor|done]).
  constructor; cbn [rSecurityMode rDialect rServerGuid rCapabilities rMaxTransactSize rMaxReadSize rMaxWriteSize rSecurityBuffer rPreauthIntegrity rEncryption rSigningCaps].
  - split_and!; try lia; repeat case_match; (done || lia).
  - done.
  - done.
  - intros p. destruct (Z.eqb_spec (Dialect sel) Dialect311) as [He|]; [|done]. intros [= <-]. cbn [HashAlgorithms].
    rewrite (Hh He). split; [by apply Hone|]. unfold encodePreauth. rewrite !len_app, !len_le_split, len_encode_u16s.
    cbn [HashAlgorithms Salt]. rewrite Hs. change (len [HashSHA512]) with 1. lia.
  - intros e. destruct (_ && _); [|done]. intros [= <-]. by apply Hone.
  - intros e. destruct (_ && _); [|done]. intros [= <-]. apply Hone. lia.
Qed.

Section ExchangeSpec.
Context (SHA512 : bytes -> bytes).

Lemma map_err_Ok {E E' A} (f : E -> E') (m : outcome E A) a : map_err f m = Ok a -> m = Ok a.
Proof. destruct m; [by intros [= ->]|done|done]. Qed.

Lemma full_message_spec h body full : len (Header.Signature h) = 16 -> full_message h body = Ok full ->
  Header.HeaderSize <= len full /\ drop 64 full = body.
Proof.
  unfold full_message. intros Hsig H. apply bind_Ok_inv in H as (b & Hb & H). apply Ok_inj in H as <-.
  unfold Header.EncodeHeader in Hb. case_match; [done|]. apply Ok_inj in Hb as <-.
  pose proof (Header.header_fits h 64 Hsig ltac:(lia)) as Hf. pose proof (len_nonneg body).
  assert (Hl : len (writes (zeros Header.HeaderSize) (Header.header_writes h)) = 64) by by apply len_writes.
  unfold Header.HeaderSize in *. rewrite len_app, Hl. split; [lia|]. apply drop_app_length'. unfold len in Hl. lia.
Qed.

(** A NEGOTIATE that succeeds: the response the client reads is the announcement,
    and the connection is made of it. *)
Lemma negotiate_frame_inv opts d frame full c : wf_options opts d -> negotiate_frame SHA512 opts d frame = Ok (c, full) ->
  exists req sel, DecodeNegotiateRequest (drop 64 frame) = Ok req /\ Select req (RequireEncryption opts) = Ok sel /\
    let r := announce opts d req sel in
    wf_response r /\ EncodeNegotiateResponse r = Ok (drop 64 full) /\
    c = mkConn (ClientGuid req) (d_guid d) sel
      (if Dialect sel =? Dialect311 then Update SHA512 (if Dialect sel =? Dialect311 then Update SHA512 NewPreauthHash frame else NewPreauthHash) full
       else if Dialect sel =? Dialect311 then Update SHA512 NewPreauthHash frame else NewPreauthHash)
      (rMaxReadSize r) (rSecurityMode r) (rCapabilities r) frame full.
Proof.
  intros Hwf H. unfold negotiate_frame in H. destruct (Z.ltb_spec (len frame) Header.HeaderSize); [done|].
  unfold Header.HeaderSize in *.
  apply bind_Ok_inv in H as (hb & _ & H). apply bind_Ok_inv in H as (hdr & _ & H). destruct (negb _); [done|].
  apply bind_Ok_inv in H as (body & Hbody & H). apply bind_Ok_inv in H as (req & Hreq%map_err_Ok & H).
  apply bind_Ok_inv in H as (sel & Hsel%map_err_Ok & H). cbv zeta in H.
  apply bind_Ok_inv in H as (rb & Hrb%map_err_Ok & H). apply bind_Ok_inv in H as (f & Hf%map_err_Ok & H).
  apply Ok_inj in H. injection H as <- <-. apply full_message_spec in Hf as [_ ->]; [|done]. exists req, sel.
  assert (Hb : body = drop 64 frame).
  { apply slice_inv in Hbody as (-> & ? & _). unfold get. apply take_ge. rewrite length_drop. unfold len. lia. }
  rewrite <- Hb. destruct (Select_values _ _ _ Hsel) as (V1 & V2 & V3 & V4). by pose proof (announce_wf opts d req sel Hwf V1 V2 V3 V4).
Qed.

(** C17: Both ends leave NEGOTIATE with the same parameters: the response the server
    sends announces the dialect, the signing requirement, the capabilities and
    the sizes it will enforce; under 3.1.1 its contexts, read from the offset and
    count it gives, hold exactly the cipher and the signing algorithm it selected
    (none when it selected none) and the integrity hash is the chain over the two
    messages as they crossed the wire. *)
Theorem negotiate_agreement (opts : NegotiatorOptions) (d : draws) (frame full : bytes) (c : Connection) :
  wf_options opts d -> negotiate_frame SHA512 opts d frame = Ok (c, full) ->
  let body := drop 64 full in
  let sel := cSelection c in
  exists req, DecodeNegotiateRequest (drop 64 frame) = Ok req /\ Select req (RequireEncryption opts) = Ok sel /\
    cClientGuid c = ClientGuid req /\
    le_combine (get body 4 2) = Dialect sel /\ le_combine (get body 2 2) = NegotiatedSecurityMode c /\
    le_combine (get body 24 4) = NegotiatedCapabilities c /\ get body 8 16 = cServerGuid c /\
    (le_combine (get body 28 4) = cMaxIOSize c /\ le_combine (get body 32 4) = cMaxIOSize c /\ le_combine (get body 36 4) = cMaxIOSize c) /\
    (Z.land (NegotiatedSecurityMode c) NegotiateSigningRequired <> 0 <-> RequireSigning opts = true) /\
    (Z.land (NegotiatedCapabilities c) CapEncryption <> 0 <-> Cipher sel <> 0 /\ Dialect300 <= Dialect sel) /\
    if Dialect sel =? Dialect311 then
      response_ctxs body = Ok (mkNegReq 0 0 [] [] (mkPreauthCtx [HashSHA512] (d_salt d))
        (if Cipher sel =? 0 then None else Some [Cipher sel]) (if is_some (SigningCaps req) then Some [SigningAlgo sel] else None)) /\
      cPreauth c = SHA512 (SHA512 (zeros 64 ++ frame) ++ full)
    else le_combine (get body 6 2) = 0 /\ cPreauth c = zeros 64.
Proof.
  intros Hwf H body sel. subst body sel. destruct (negotiate_frame_inv _ _ _ _ _ Hwf H) as (req & sel & Hreq & Hsel & Hw & Hrb & ->). clear H.
  cbn [cSelection cClientGuid NegotiatedSecurityMode NegotiatedCapabilities cServerGuid cMaxIOSize cPreauth]. exists req.
  destruct (Select_values _ _ _ Hsel) as (V1 & V2 & V3 & V4).
  destruct (encode_response _ _ Hw Hrb) as ([G1 G2 G3 G4 (G5 & G6 & G7) _] & Hn & Hc).
  assert (Hcaps : Z.land (rCapabilities (announce opts d req sel)) CapEncryption <> 0 <-> Cipher sel <> 0 /\ Dialect300 <= Dialect sel).
  { unfold announce. cbn [rCapabilities]. destruct (Z.eqb_spec (Cipher sel) 0); cbn [negb andb]; [by split; [|intros [? _]]|].
    destruct (Z.leb_spec Dialect300 (Dialect sel)); split; [done|done|done|lia]. }
  assert (Hmode : Z.land (rSecurityMode (announce opts d req sel)) NegotiateSigningRequired <> 0 <-> RequireSigning opts = true).
  { unfold announce. cbn [rSecurityMode]. by destruct (RequireSigning opts). }
  split_and!; try done.
  destruct (Z.eqb_spec (Dialect sel) Dialect311) as [He|He].
  - destruct (Hc He) as (pre & Hp & ->). pose proof (V4 He) as Hh. split; [|done]. unfold announce in *. cbn [rPreauthIntegrity rEncryption rSigningCaps] in *.
    rewrite He, Z.eqb_refl in *. injection Hp as <-. rewrite Hh. cbn [andb]. by destruct (Cipher sel =? 0).
  - split; [by apply Hn|done].
Qed.

Lemma full_message_ok h body : len (Header.Signature h) = 16 ->
  exists full, full_message h body = Ok full /\ drop 64 full = body.
Proof.
  intros Hs. unfold full_message, Header.EncodeHeader. rewrite (proj2 (Z.ltb_ge _ _)) by done. cbn [mbind outcome_bind].
  eexists. split; [reflexivity|]. apply (full_message_spec h body); [done|].
  unfold full_message, Header.EncodeHeader. by rewrite (proj2 (Z.ltb_ge _ _)) by done.
Qed.

Lemma negotiate_frame_safe opts d frame : safe (negotiate_frame SHA512 opts d frame).
Proof.
  unfold negotiate_frame. destruct (Z.ltb_spec (len frame) Header.HeaderSize); [done|]. unfold Header.HeaderSize in *.
  rewrite (slice_Ok frame 0 64), (slice_Ok frame 64 (len frame)) by lia. cbn [mbind outcome_bind].
  assert (Hmap : forall {E A} (f : E -> negErr) (m : outcome E A), safe m -> safe (map_err f m)) by (intros ? ? ? []; done).
  apply safe_bind; [apply Hmap, Header.DecodeHeader_safe|intros hdr _]. destruct (negb _); [done|].
  cbn [mbind outcome_bind].
  apply safe_bind; [apply Hmap, DecodeNegotiateRequest_safe|intros req _].
  apply safe_bind; [apply Hmap|intros sel _].
  { unfold Select. destruct (first_common _ _); [|done]. apply safe_bind; [by repeat case_match|intros h _].
    destruct (_ && _); [done|]. apply safe_bind; [by repeat case_match|done]. }
  apply safe_bind; [apply Hmap; unfold EncodeNegotiateResponse; by repeat case_match|intros rb _].
  destruct (full_message_ok (Header.mkHeader 1 0 Const.CommandNegotiate (Credits.grantCredits (Header.CreditCharge hdr) (Header.CreditResponse hdr))
       Const.FlagServerToRedir 0 (Header.MessageID hdr) 0 0 (zeros 16)) rb eq_refl) as (f & -> & _). done.
Qed.

Lemma upgrade_spec guid now : len guid = 16 ->
  exists up, upgradeResponse guid now = Ok up /\ le_combine (get (drop 64 up) 4 2) = 0x02FF.
Proof.
  intros Hg. unfold upgradeResponse. match goal with |- context [full_message ?h ?b] => destruct (full_message_ok h b eq_refl) as (f & -> & Hd) end.
  exists f. split; [done|]. rewrite Hd.
  match goal with |- context [writes (zeros 64) ?ps] => assert (Hf : fits (len (zeros 64)) ps) by fits_tac end.
  by wfield.
Qed.

Lemma negotiate_frame_msgs opts d frame c full : negotiate_frame SHA512 opts d frame = Ok (c, full) ->
  NegotiateResponseMsg c = full /\ NegotiateRequestMsg c = frame.
Proof.
  unfold negotiate_frame. destruct (_ <? _); [done|]. intros H.
  apply bind_Ok_inv in H as (? & _ & H). apply bind_Ok_inv in H as (? & _ & H). destruct (negb _); [done|].
  apply bind_Ok_inv in H as (? & _ & H). apply bind_Ok_inv in H as (? & _ & H). apply bind_Ok_inv in H as (? & _ & H). cbv zeta in H.
  apply bind_Ok_inv in H as (? & _ & H). apply bind_Ok_inv in H as (? & _ & H). apply Ok_inj in H. by injection H as <- <-.
Qed.

(** No first frame, of any content, makes the negotiation panic, whether it is
    an SMB1 multi-protocol negotiate (answered with the 0x02FF upgrade, then
    negotiated on the next frame) or an SMB2 one; a refusal writes nothing but
    that upgrade, and a success ends with the response the connection records. *)
Theorem negotiate_total (opts : NegotiatorOptions) (d : draws) (frames : list bytes) : len (d_guid1 d) = 16 ->
  let '(out, r) := Negotiate SHA512 opts d frames in
  r <> Panic /\
  (forall e, r = Err e -> (length out <= 1)%nat /\ Forall (fun m => le_combine (get (drop 64 m) 4 2) = 0x02FF) out) /\
  (forall c, r = Ok c -> last out = Some (NegotiateResponseMsg c) /\ NegotiateRequestMsg c ∈ frames).
Proof.
  intros Hg. unfold Negotiate. destruct frames as [|frame rest].
  { split_and!; [done|intros; split; [simpl; lia|constructor]|done]. }
  assert (Hgo : forall frame out, (length out <= 1)%nat -> Forall (fun m => le_combine (get (drop 64 m) 4 2) = 0x02FF) out ->
    let '(out, r) := match negotiate_frame SHA512 opts d frame with
      | Ok (c, full) => (out ++ [full], Ok c) | Err e => (out, Err e) | Panic => (out, Panic) end in
    r <> Panic /\ (forall e, r = Err e -> (length out <= 1)%nat /\ Forall (fun m => le_combine (get (drop 64 m) 4 2) = 0x02FF) out) /\
    (forall c, r = Ok c -> last out = Some (NegotiateResponseMsg c) /\ NegotiateRequestMsg c = frame)).
  { intros f out Hl Hf. pose proof (negotiate_frame_safe opts d f). destruct (negotiate_frame SHA512 opts d f) as [[c full]|e|] eqn:Hn; [|done|done].
    apply negotiate_frame_msgs in Hn as [H1 H2]. split_and!; [done|done|]. intros ? [= <-]. rewrite last_snoc, H1, H2. done. }
  destruct (isSMB1 frame).
  - destruct (upgrade_spec (d_guid1 d) (d_now1 d) Hg) as (up & -> & Hup). destruct rest as [|f rest].
    + split_and!; [done| |done]. intros _ _. split; [done|]. by apply Forall_singleton.
    + specialize (Hgo f [up] ltac:(done) ltac:(by apply Forall_singleton)).
      destruct (negotiate_frame SHA512 opts d f) as [[c full]|e|]; destruct Hgo as (H1 & H2 & H3); (split_and!; [done|done|]);
      intros c' Hc; destruct (H3 c' Hc) as [? ->]; (split; [done|]); rewrite !elem_of_cons; auto.
  - specialize (Hgo frame [] ltac:(simpl; lia) ltac:(done)).
    destruct (negotiate_frame SHA512 opts d frame) as [[c full]|e|]; destruct Hgo as (H1 & H2 & H3); (split_and!; [done|done|]);
      intros c' Hc; destruct (H3 c' Hc) as [? ->]; (split; [done|]); rewrite !elem_of_cons; auto.
Qed.

End ExchangeSpec.

(** ** A 3.1.1 client that offers AES-128-GCM and AES-CMAC *)

Definition ex_request : bytes :=
  writes (zeros 102) [(0, le16 36); (2, le16 2); (4, le16 1); (8, le32 0x40); (28, le32 (64 + 40)); (32, le16 3);
    (36, le16 0x0302); (38, le16 0x0311);
    (40, le16 1); (42, le16 38); (48, le16 1); (50, le16 32); (52, le16 1)] ++ zeros 0.
Definition ex_ctxs : bytes := appendCtx (appendCtx (pad8 (take 86 ex_request)) CtxEncryptionCaps (encodeEncryption [2; 1]) true)
  CtxSigningCaps (encodeSigningCaps [2; 1]) false.
Definition ex_frame : bytes :=
  default [] (match Header.EncodeHeader (zeros 64) (Header.mkHeader 1 0 Const.CommandNegotiate 31 0 0 0 0 0 (zeros 16)) with
              | Ok h => Some h | _ => None end) ++ ex_ctxs.
Definition ex_opts : NegotiatorOptions := mkOpts true true 0 0.
Definition ex_draws : draws := mkDraws (zeros 16) (zeros 32) 5 (zeros 16) 5.
Definition ex_sha (b : bytes) : bytes := replicate 64 (z2b (len b)).
Definition ex_smb1 : bytes := map z2b [0xFF; 0x53; 0x4D; 0x42] ++ zeros 40.

Lemma negotiate_agreement_witness : exists c full, negotiate_frame ex_sha ex_opts ex_draws ex_frame = Ok (c, full) /\
  cSelection c = mkSel Dialect311 CipherAES128GCM HashSHA512 SigningAESCMAC /\
  response_ctxs (drop 64 full) = Ok (mkNegReq 0 0 [] [] (mkPreauthCtx [HashSHA512] (zeros 32)) (Some [CipherAES128GCM]) (Some [SigningAESCMAC])).
Proof.
  destruct (negotiate_frame ex_sha ex_opts ex_draws ex_frame) as [[c full]|e|] eqn:Hn; [|exfalso; vm_compute in Hn; discriminate..].
  assert (Hw : wf_options ex_opts ex_draws) by (split_and!; vm_compute; reflexivity || discriminate).
  destruct (negotiate_agreement ex_sha ex_opts ex_draws ex_frame full c Hw Hn) as (req & Hreq & Hsel & H).
  vm_compute in Hreq. injection Hreq as <-. exists c, full. split; [done|].
  assert (Hs : cSelection c = mkSel Dialect311 CipherAES128GCM HashSHA512 SigningAESCMAC) by (apply Ok_inj in Hsel as <-; reflexivity).
  split; [exact Hs|]. rewrite Hs in H. destruct H as (_ & _ & _ & _ & _ & _ & _ & _ & H & _). exact H.
Defined.

Lemma negotiate_total_witness :
  let '(out, r) := Negotiate ex_sha ex_opts ex_draws [ex_smb1; ex_frame] in length out = 2%nat /\ r <> Panic.
Proof.
  pose proof (negotiate_total ex_sha ex_opts ex_draws [ex_smb1; ex_frame] eq_refl) as H.
  destruct (Negotiate ex_sha ex_opts ex_draws [ex_smb1; ex_frame]) as [out r] eqn:Hn. split; [|apply H].
  vm_compute in Hn. by injection Hn as <- <-.
Defined.

End Negotiate.
