(* ===== verification/Ntlm.v ===== *)
(** NTLM: [internal/ntlm] (the messages, the AV pairs, the NTLMv2 proof and the
    message integrity code), [userdb/nthash.go], and the RC4 of
    [parent/session.go].

    HMAC-MD5, MD4 and [strings.ToUpper] are parameters. *)

From S2P Require Import Prelude Smb2 Utf.

Module Ntlm.

Definition Signature : bytes := map z2b [0x4e; 0x54; 0x4c; 0x4d; 0x53; 0x53; 0x50; 0x00].
Definition MessageTypeNegotiate : Z := 1.
Definition MessageTypeChallenge : Z := 2.
Definition MessageTypeAuthenticate : Z := 3.

Definition NegotiateUnicode : Z := 0x00000001.
Definition RequestTarget : Z := 0x00000004.
Definition NegotiateSign : Z := 0x00000010.
Definition NegotiateNTLM : Z := 0x00000200.
Definition NegotiateAlwaysSign : Z := 0x00008000.
Definition TargetTypeServer : Z := 0x00020000.
Definition NegotiateExtendedSessionSecurity : Z := 0x00080000.
Definition NegotiateTargetInfo : Z := 0x00800000.
Definition NegotiateVersion : Z := 0x02000000.
Definition Negotiate128 : Z := 0x20000000.
Definition NegotiateKeyExch : Z := 0x40000000.
Definition Negotiate56 : Z := 0x80000000.

Definition AVEOL : Z := 0.
Definition AVNbComputerName : Z := 1.
Definition AVNbDomainName : Z := 2.
Definition AVDnsComputerName : Z := 3.
Definition AVDnsDomainName : Z := 4.
Definition AVFlags : Z := 6.
Definition AVTimestamp : Z := 7.

Inductive ntlmErr := ErrShortMessage | ErrBadSignature | ErrBadMessageType | ErrTruncated | ErrAuthFailure.

(** ** AV pairs *)

Record AVPair := mkAV { ID : Z; Value : bytes }.

Definition EncodeAVList (pairs : list AVPair) : bytes :=
  concat (map (fun p => le16 (ID p) ++ le16 (len (Value p)) ++ Value p) pairs) ++ zeros 4.

(** Every round consumes four bytes or more: [length b] rounds are enough. *)
Fixpoint av_loop (fuel : nat) (b : bytes) : outcome ntlmErr (list AVPair) :=
  match fuel with
  | O => Panic
  | S fuel =>
      if len b <? 4 then Err ErrTruncated else
      id ← u16 b 0;
      l ← u16 b 2;
      if id =? AVEOL then Ok [] else
      if len b <? 4 + l then Err ErrTruncated else
      v ← slice b 4 (4 + l);
      rest ← slice b (4 + l) (len b);
      ps ← av_loop fuel rest;
      Ok (mkAV id v :: ps)
  end.
Definition DecodeAVList (b : bytes) : outcome ntlmErr (list AVPair) := av_loop (S (length b)) b.

(** ** The messages *)

Definition DecodeNegotiate (b : bytes) : outcome ntlmErr Z :=
  if len b <? 32 then Err ErrShortMessage else
  sig ← slice b 0 8;
  if negb (bool_decide (sig = Signature)) then Err ErrBadSignature else
  t ← u32 b 8;
  if negb (t =? MessageTypeNegotiate) then Err ErrBadMessageType else
  u32 b 12.

Record ChallengeMessage := mkChallenge { TargetName : bytes; cFlags : Z; Challenge : bytes; TargetInfo : list AVPair }.

Definition fixedSize : Z := 56.

Definition challenge_writes (m : ChallengeMessage) : list (Z * bytes) :=
  let targetName := Names.UTF16LE (TargetName m) in
  let avBytes := EncodeAVList (TargetInfo m) in
  [(0, Signature); (8, le32 MessageTypeChallenge);
   (12, le16 (len targetName)); (14, le16 (len targetName)); (16, le32 fixedSize);
   (20, le32 (cFlags m)); (24, Challenge m);
   (40, le16 (len avBytes)); (42, le16 (len avBytes)); (44, le32 (fixedSize + len targetName));
   (48, [z2b 10]); (49, [z2b 0]); (50, le16 22000); (55, [z2b 15])].

Definition EncodeChallenge (m : ChallengeMessage) : bytes :=
  writes (zeros fixedSize) (challenge_writes m) ++ Names.UTF16LE (TargetName m) ++ EncodeAVList (TargetInfo m).

Record AuthenticateMessage := mkAuth {
  LmResponse : bytes; NtResponse : bytes; DomainName : bytes; UserName : bytes; Workstation : bytes;
  EncryptedRandomSessionKey : bytes; Flags : Z; MIC : bytes; HasMIC : bool }.

(** [read]: the payload a descriptor (length, maximum, offset) points at. *)
Definition read_field (b : bytes) (off : Z) : outcome ntlmErr bytes :=
  l ← u16 b off;
  o ← u32 b (off + 4);
  if l =? 0 then Ok [] else
  if len b <? o + l then Err ErrShortMessage else slice b o (o + l).

(** The six payload descriptors of an AUTHENTICATE_MESSAGE. *)
Definition descriptors : list Z := [12; 20; 28; 36; 44; 52].

Definition maxInt : Z := 2 ^ 63 - 1.

Fixpoint smallest_loop (b : bytes) (offs : list Z) (m : Z) : outcome ntlmErr Z :=
  match offs with
  | [] => Ok m
  | off :: offs =>
      if len b <? off + 8 then Ok m else
      l ← u16 b off;
      o ← u32 b (off + 4);
      smallest_loop b offs (if (0 <? l) && (o <? m) then o else m)
  end.
Definition smallestPayloadOffset (b : bytes) : outcome ntlmErr Z := smallest_loop b descriptors maxInt.

Definition micOffset : Z := 72.

Definition DecodeAuthenticate (b : bytes) : outcome ntlmErr AuthenticateMessage :=
  if len b <? 64 then Err ErrShortMessage else
  sig ← slice b 0 8;
  if negb (bool_decide (sig = Signature)) then Err ErrBadSignature else
  t ← u32 b 8;
  if negb (t =? MessageTypeAuthenticate) then Err ErrBadMessageType else
  lm ← read_field b 12;
  nt ← read_field b 20;
  dom ← read_field b 28;
  usr ← read_field b 36;
  wks ← read_field b 44;
  key ← read_field b 52;
  fl ← u32 b 60;
  let str := if negb (Z.land fl NegotiateUnicode =? 0) then Names.ntlm_decodeUTF16LE else (fun s => s) in
  '(mic, has) ← (if micOffset + 16 <=? len b then
                   minPayload ← smallestPayloadOffset b;
                   if micOffset + 16 <=? minPayload then m ← slice b micOffset (micOffset + 16); Ok (m, true)
                   else Ok (zeros 16, false)
                 else Ok (zeros 16, false));
  Ok (mkAuth lm nt (str dom) (str usr) (str wks) key fl mic has).

(** [AuthenticateLen]: the loop over the descriptors; [None] is the early return. *)
Fixpoint extent_loop (b : bytes) (offs : list Z) (end_ : Z) : outcome ntlmErr (option Z) :=
  match offs with
  | [] => Ok (Some end_)
  | off :: offs =>
      if len b <? off + 8 then Ok None else
      l ← u16 b off;
      o ← u32 b (off + 4);
      extent_loop b offs (if l =? 0 then end_ else if end_ <? o + l then o + l else end_)
  end.

Definition AuthenticateLen (b : bytes) : outcome ntlmErr Z :=
  e ← extent_loop b descriptors 0;
  match e with
  | None => Ok (len b)
  | Some end_ => Ok (if (end_ =? 0) || (len b <? end_) then len b else end_)
  end.

(** ** The proof, the session key and the MIC *)

Definition MICFieldOffset : Z := 72.
Definition AVFlagMICPresent : Z := 0x00000002.

Definition msvAvFlags (ntResponse : bytes) : option Z :=
  if len ntResponse <? 44 then None else
  match DecodeAVList (drop 44 ntResponse) with
  | Ok pairs =>
      match filter (fun p => ID p = AVFlags /\ 4 <= len (Value p)) pairs with
      | p :: _ => Some (le_combine (get (Value p) 0 4))
      | [] => None
      end
  | _ => None
  end.

Definition MICRequired (ntResponse : bytes) : bool :=
  match msvAvFlags ntResponse with Some flags => negb (Z.land flags AVFlagMICPresent =? 0) | None => false end.

Section Crypto.
Context (HMAC_MD5 : bytes -> bytes -> bytes) (ToUpper : bytes -> bytes).

Definition utf16leUpper (s : bytes) : bytes := Names.utf16leDomain (ToUpper s).

Definition NTOWFv2 (ntHash username domain : bytes) : bytes :=
  HMAC_MD5 ntHash (utf16leUpper username ++ Names.utf16leDomain domain).

(** The session base key, or the refusal. *)
Definition VerifyNTLMv2 (ntHash username domain serverChallenge ntResponse : bytes) : option bytes :=
  if len ntResponse <? 16 + 8 then None else
  let clientNTProofStr := get ntResponse 0 16 in
  let temp := drop 16 ntResponse in
  let ntowfv2 := NTOWFv2 ntHash username domain in
  let expectedNTProofStr := HMAC_MD5 ntowfv2 (serverChallenge ++ temp) in
  if bool_decide (clientNTProofStr = expectedNTProofStr) then Some (HMAC_MD5 ntowfv2 expectedNTProofStr) else None.

Definition ComputeMIC (exportedSessionKey negotiate challenge authenticate : bytes) : bytes :=
  let zeroed := if MICFieldOffset + 16 <=? len authenticate then splice MICFieldOffset (zeros 16) authenticate else authenticate in
  HMAC_MD5 exportedSessionKey (negotiate ++ challenge ++ zeroed).

Definition VerifyMIC (exportedSessionKey negotiate challenge authenticate mic : bytes) : bool :=
  bool_decide (ComputeMIC exportedSessionKey negotiate challenge authenticate = mic).
End Crypto.

(** [NTHash]: MD4 of the password in UTF-16. *)
Definition NTHash (MD4 : bytes -> bytes) (password : bytes) : bytes := MD4 (Names.utf16leDomain password).

(** ** RC4 *)

Definition at_ (s : list Z) (i : Z) : Z := s !!! Z.to_nat i.
Definition swap (s : list Z) (i j : Z) : list Z := <[Z.to_nat i := at_ s j]> (<[Z.to_nat j := at_ s i]> s).

Fixpoint rc4_schedule (n : nat) (key : bytes) (i j : Z) (s : list Z) : list Z :=
  match n with
  | O => s
  | S n =>
      let j := Z.land (j + at_ s i + b2z (nth (Z.to_nat (i mod len key)) key Byte.x00)) 0xff in
      rc4_schedule n key (i + 1) j (swap s i j)
  end.

Fixpoint rc4_stream (n : nat) (i j : Z) (s : list Z) : list Z :=
  match n with
  | O => []
  | S n =>
      let i := Z.land (i + 1) 0xff in
      let j := Z.land (j + at_ s i) 0xff in
      let s := swap s i j in
      at_ s (Z.land (at_ s i + at_ s j) 0xff) :: rc4_stream n i j s
  end.

Definition rc4xor (key inp : bytes) : bytes :=
  let s := rc4_schedule 256 key 0 0 (map Z.of_nat (seq 0 256)) in
  zip_with (fun b k => z2b (Z.lxor (b2z b) k)) inp (rc4_stream (length inp) 0 0 s).

(** ** The decoders stay inside the message *)

Lemma av_loop_spec fuel b : len b < Z.of_nat fuel ->
  safe (av_loop fuel b) /\ forall ps, av_loop fuel b = Ok ps -> Forall (fun p => ID p <> AVEOL /\ len (Value p) < 2 ^ 16) ps.
Proof.
  revert b. induction fuel as [|fuel IH]; intros b Hf; [pose proof (len_nonneg b); lia|]. cbn [av_loop].
  destruct (Z.ltb_spec (len b) 4); [done|].
  destruct (u16 b 0) as [id| |] eqn:Hid; [|done|by rewrite u16_Ok in Hid by lia]. cbn [mbind outcome_bind].
  destruct (u16 b 2) as [l| |] eqn:Hl; [|done|by rewrite u16_Ok in Hl by lia]. cbn [mbind outcome_bind]. apply u16_inv in Hl.
  destruct (Z.eqb_spec id AVEOL); [split; [done|by intros ? [= <-]]|]. destruct (Z.ltb_spec (len b) (4 + l)); [done|].
  rewrite (slice_Ok b 4), (slice_Ok b (4 + l)) by lia. cbn [mbind outcome_bind].
  set (r := get b (4 + l) (len b - (4 + l))). assert (Hr : len r = len b - (4 + l)) by (unfold r; apply len_get; lia).
  destruct (IH r ltac:(lia)) as [H1 H2]. destruct (av_loop fuel r) as [ps| |]; [|done|done]. cbn [mbind outcome_bind].
  split; [done|]. intros ? [= <-]. constructor; [|by apply H2]. split; [done|]. cbn [Value]. rewrite len_get by lia. lia.
Qed.

Lemma avlist_safe b : safe (DecodeAVList b).
Proof. apply av_loop_spec. unfold len. lia. Qed.

Lemma read_field_spec b off : 0 <= off -> off + 8 <= len b ->
  safe (read_field b off) /\ forall d, read_field b off = Ok d ->
    len d = le_combine (get b off 2) /\ (d = [] \/ exists o, o + len d <= len b /\ d = get b o (len d) /\ o = le_combine (get b (off + 4) 4)).
Proof.
  intros Ho Hl. unfold read_field. destruct (u16 b off) as [l| |] eqn:Hul; [|done|by rewrite u16_Ok in Hul by lia].
  rewrite u16_Ok in Hul by lia. injection Hul as <-. pose proof (le_combine_range (get b off 2) 2 ltac:(apply len_get; lia)).
  cbn [mbind outcome_bind]. rewrite u32_Ok by lia. cbn [mbind outcome_bind]. set (l := le_combine (get b off 2)) in *.
  set (o := le_combine (get b (off + 4) 4)). pose proof (le_combine_range (get b (off + 4) 4) 4 ltac:(apply len_get; lia)).
  destruct (Z.eqb_spec l 0) as [Hz|]; [split; [done|]; intros ? [= <-]; auto|].
  destruct (Z.ltb_spec (len b) (o + l)); [done|]. rewrite slice_Ok by lia. split; [done|]. intros ? [= <-].
  rewrite Z.add_simpl_l. rewrite len_get by lia. split; [done|]. right. exists o. done.
Qed.

Lemma smallest_safe b offs m : Forall (fun off => 0 <= off) offs -> safe (smallest_loop b offs m).
Proof.
  intros Hf. revert m. induction Hf as [|off offs Ho _ IH]; intros m; [done|]. cbn [smallest_loop].
  destruct (Z.ltb_spec (len b) (off + 8)); [done|]. rewrite u16_Ok by lia. cbn [mbind outcome_bind]. rewrite u32_Ok by lia. apply IH.
Qed.

Lemma extent_safe b offs e : Forall (fun off => 0 <= off) offs -> safe (extent_loop b offs e).
Proof.
  intros Hf. revert e. induction Hf as [|off offs Ho _ IH]; intros e; [done|]. cbn [extent_loop].
  destruct (Z.ltb_spec (len b) (off + 8)); [done|]. rewrite u16_Ok by lia. cbn [mbind outcome_bind]. rewrite u32_Ok by lia. apply IH.
Qed.

Lemma extent_not_err b offs x e : Forall (fun off => 0 <= off) offs -> extent_loop b offs x <> Err e.
Proof.
  intros Hf. revert x. induction Hf as [|off offs Ho _ IH]; intros x; [done|]. cbn [extent_loop].
  destruct (Z.ltb_spec (len b) (off + 8)); [done|]. rewrite u16_Ok by lia. cbn [mbind outcome_bind]. rewrite u32_Ok by lia. apply IH.
Qed.

Lemma descriptors_pos : Forall (fun off => 0 <= off) descriptors.
Proof. unfold descriptors. repeat constructor; done. Qed.

Lemma DecodeAuthenticate_safe b : safe (DecodeAuthenticate b).
Proof.
  unfold DecodeAuthenticate. destruct (Z.ltb_spec (len b) 64); [done|]. apply safe_bind; [nopanic|intros sig _].
  destruct (negb _); [done|]. apply safe_bind; [nopanic|intros t _]. destruct (negb _); [done|].
  do 6 (apply safe_bind; [apply read_field_spec; lia|intros ? _]). apply safe_bind; [nopanic|intros fl _]. cbv zeta.
  apply safe_bind; [|by intros []]. destruct (Z.leb_spec (micOffset + 16) (len b)); [|done].
  apply safe_bind; [apply smallest_safe, descriptors_pos|intros mp _]. destruct (_ <=? mp); [|done]. unfold micOffset in *.
  by rewrite slice_Ok by lia.
Qed.

Lemma AuthenticateLen_ok b : exists n, AuthenticateLen b = Ok n /\ 0 <= n <= len b.
Proof.
  unfold AuthenticateLen. pose proof (extent_safe b descriptors 0 descriptors_pos) as Hs. pose proof (len_nonneg b).
  assert (He : forall offs e r, 0 <= e -> Forall (fun off => 0 <= off) offs -> extent_loop b offs e = Ok (Some r) -> 0 <= r).
  { induction offs as [|off offs IH]; intros e r He Hf; cbn [extent_loop]; [by intros [= <-]|]. apply Forall_cons in Hf as [? Hf].
    destruct (_ <? _); [done|]. intros Hr. apply bind_Ok_inv in Hr as (l & Hl & Hr). apply bind_Ok_inv in Hr as (o & Hoo & Hr).
    apply u16_inv in Hl. apply u32_inv in Hoo. eapply IH; [|exact Hf|exact Hr]. repeat case_match; lia. }
  destruct (extent_loop b descriptors 0) as [[e|]|e|] eqn:Hel; cbn [mbind outcome_bind]; [|by exists (len b)| |done].
  + apply He in Hel; [|lia|apply descriptors_pos]. eexists. split; [done|]. destruct (Z.eqb_spec e 0), (Z.ltb_spec (len b) e); simpl; lia.
  + exfalso. by apply (extent_not_err b descriptors 0 e descriptors_pos).
Qed.

(** No NTLM message, of any length and content, makes a decoder read or slice
    out of range; every payload of a decoded AUTHENTICATE_MESSAGE is as long as
    its descriptor says; and the length the MIC is computed over never exceeds
    the message. *)
Theorem ntlm_decoders_safe (b : bytes) :
  safe (DecodeNegotiate b) /\ safe (DecodeAuthenticate b) /\ safe (DecodeAVList b) /\
  (forall m, DecodeAuthenticate b = Ok m ->
     len (NtResponse m) = le_combine (get b 20 2) /\ len (LmResponse m) = le_combine (get b 12 2) /\
     len (EncryptedRandomSessionKey m) = le_combine (get b 52 2) /\ len (MIC m) = 16) /\
  exists n, AuthenticateLen b = Ok n /\ 0 <= n <= len b.
Proof.
  split_and!.
  - unfold DecodeNegotiate. nopanic.
  - apply DecodeAuthenticate_safe.
  - apply avlist_safe.
  - intros m. unfold DecodeAuthenticate. destruct (Z.ltb_spec (len b) 64); [done|]. intros Hm.
    apply bind_Ok_inv in Hm as (? & _ & Hm). destruct (negb _); [done|]. apply bind_Ok_inv in Hm as (? & _ & Hm). destruct (negb _); [done|].
    apply bind_Ok_inv in Hm as (lm & Hlm & Hm). apply bind_Ok_inv in Hm as (nt & Hnt & Hm). do 3 apply bind_Ok_inv in Hm as (? & _ & Hm).
    apply bind_Ok_inv in Hm as (k & Hk & Hm). apply bind_Ok_inv in Hm as (fl & _ & Hm). cbv zeta in Hm.
    apply bind_Ok_inv in Hm as ([mic has] & Hmic & [= <-]). cbn [NtResponse LmResponse EncryptedRandomSessionKey MIC].
    split_and!; [by apply (read_field_spec b 20 ltac:(lia) ltac:(lia))|by apply (read_field_spec b 12 ltac:(lia) ltac:(lia))|
      by apply (read_field_spec b 52 ltac:(lia) ltac:(lia))|].
    destruct (_ <=? len b); [|by injection Hmic as <- <-]. apply bind_Ok_inv in Hmic as (mp & _ & Hmic).
    destruct (_ <=? mp); [|by injection Hmic as <- <-]. apply bind_Ok_inv in Hmic as (m & Hs & [= <- <-]). by apply slice_inv in Hs as (_ & _ & _ & ?).
  - apply AuthenticateLen_ok.
Qed.

(** ** Round trips *)

Definition wf_pair (p : AVPair) : Prop := 0 < ID p < 2 ^ 16 /\ len (Value p) < 2 ^ 16.

Lemma av_loop_encode fuel ps tail : Forall wf_pair ps -> (length ps < fuel)%nat ->
  av_loop fuel (EncodeAVList ps ++ tail) = Ok ps.
Proof.
  intros Hf. revert fuel. induction Hf as [|[id v] ps [Hid Hv] _ IH]; intros [|fuel] Hn; [lia| |simpl in Hn; lia|]; cbn [ID Value] in *.
  - cbn [av_loop]. unfold EncodeAVList. cbn [map concat app]. rewrite len_app. change (len (zeros 4)) with 4. pose proof (len_nonneg tail).
    rewrite (proj2 (Z.ltb_ge _ _)) by lia. rewrite (u16_Ok _ 0), (u16_Ok _ 2) by (rewrite ?len_app; change (len (zeros 4)) with 4; lia).
    cbn [mbind outcome_bind]. rewrite get_app_l by (change (len (zeros 4)) with 4; lia). done.
  - unfold EncodeAVList. cbn [map concat ID Value]. rewrite <- !(assoc_L (++)). fold (EncodeAVList ps).
    assert (He : concat (map (fun p => le16 (ID p) ++ le16 (len (Value p)) ++ Value p) ps) ++ zeros 4 ++ tail = EncodeAVList ps ++ tail)
      by (unfold EncodeAVList; by rewrite <- (assoc_L (++))).
    rewrite He. clear He. set (rest := EncodeAVList ps ++ tail). set (b := le16 id ++ _). cbn [av_loop].
    pose proof (len_nonneg v). pose proof (len_nonneg rest).
    assert (Hb : len b = 4 + len v + len rest) by (unfold b; rewrite !len_app, !len_le_split; lia).
    rewrite (proj2 (Z.ltb_ge _ _)) by lia. rewrite (u16_Ok b 0), (u16_Ok b 2) by lia. cbn [mbind outcome_bind].
    assert (Hi : le_combine (get b 0 2) = id).
    { unfold b. rewrite get_app_exact by (by rewrite len_le_split). apply (le_combine_le_split 2 id (2 ^ 16)); [done|lia]. }
    assert (Hlv : get b 2 2 = le16 (len v)).
    { unfold b. rewrite get_app_r by (rewrite ?len_le_split; lia). rewrite len_le_split. by rewrite get_app_exact. }
    rewrite Hi, Hlv. rewrite (le_combine_le_split 2 (len v) (2 ^ 16)) by lia. cbn [mbind outcome_bind].
    rewrite (proj2 (Z.eqb_neq _ _)) by (unfold AVEOL; lia). rewrite (proj2 (Z.ltb_ge _ _)) by lia.
    rewrite (slice_Ok b 4), (slice_Ok b (4 + len v)) by lia. cbn [mbind outcome_bind]. rewrite Z.add_simpl_l.
    assert (Hg : get b 4 (len v) = v).
    { unfold b. rewrite (assoc_L (++)). rewrite get_app_r by (rewrite ?len_app, ?len_le_split; lia).
      rewrite len_app, !len_le_split. by apply get_app_exact. }
    assert (Hr : get b (4 + len v) (len b - (4 + len v)) = rest).
    { unfold b at 1. rewrite !(assoc_L (++)). rewrite get_app_r by (rewrite ?len_app, ?len_le_split; lia).
      rewrite !len_app, !len_le_split. replace (4 + len v - _) with 0 by lia. apply get_all. lia. }
    rewrite Hg, Hr. rewrite IH by (simpl in Hn; lia). done.
Qed.

Lemma length_EncodeAVList ps : (length ps <= length (EncodeAVList ps))%nat.
Proof.
  unfold EncodeAVList. rewrite length_app. induction ps as [|p ps IH]; [simpl; lia|]. cbn [map concat length].
  rewrite !length_app, !length_le_split. lia.
Qed.

Lemma DecodeAVList_encode ps tail : Forall wf_pair ps -> DecodeAVList (EncodeAVList ps ++ tail) = Ok ps.
Proof.
  intros Hf. apply av_loop_encode; [done|]. rewrite length_app. pose proof (length_EncodeAVList ps). lia.
Qed.

(** A client reads back the CHALLENGE_MESSAGE the server sends: the signature,
    the type, the flags and the challenge are where the layout puts them, and the
    two payload descriptors delimit exactly the target name and an AV list that
    decodes to the pairs that were encoded. *)
Theorem challenge_parses (m : ChallengeMessage) :
  len (Challenge m) = 8 -> 0 <= cFlags m < 2 ^ 32 -> Forall wf_pair (TargetInfo m) ->
  len (Names.UTF16LE (TargetName m)) < 2 ^ 16 -> len (EncodeAVList (TargetInfo m)) < 2 ^ 16 ->
  let b := EncodeChallenge m in
  get b 0 8 = Signature /\ le_combine (get b 8 4) = MessageTypeChallenge /\ le_combine (get b 20 4) = cFlags m /\
  get b 24 8 = Challenge m /\
  get b (le_combine (get b 16 4)) (le_combine (get b 12 2)) = Names.UTF16LE (TargetName m) /\
  DecodeAVList (get b (le_combine (get b 44 4)) (le_combine (get b 40 2))) = Ok (TargetInfo m).
Proof.
  intros Hc Hfl Hp Hn Ha b. subst b. unfold EncodeChallenge, challenge_writes. cbv zeta.
  remember (Names.UTF16LE (TargetName m)) as name eqn:Hname. remember (EncodeAVList (TargetInfo m)) as av eqn:Hav.
  match goal with |- context [writes _ ?l] => set (ws := l) end. pose proof (len_nonneg name). pose proof (len_nonneg av).
  assert (Hf : fits 56 ws) by (unfold ws, fixedSize; fits_tac).
  assert (Hl : len (writes (zeros 56) ws) = 56) by by apply len_writes.
  change (zeros fixedSize) with (zeros 56). set (b := writes (zeros 56) ws ++ name ++ av).
  assert (Hb : forall off k, 0 <= off -> 0 <= k -> off + k <= 56 -> get b off k = get (writes (zeros 56) ws) off k).
  { intros. unfold b. by rewrite get_app_l by (rewrite ?Hl; lia). }
  assert (Hr : forall off k, 56 <= off -> 0 <= k -> get b off k = get (name ++ av) (off - 56) k).
  { intros. unfold b. rewrite get_app_r by lia. by rewrite Hl. }
  clearbody b. change 56 with (len (zeros 56)) in Hf. subst ws. unfold fixedSize in *.
  assert (H16 : le_combine (get b 16 4) = 56) by (rewrite Hb by lia; wfield; by fields).
  assert (H12 : le_combine (get b 12 2) = len name) by (rewrite Hb by lia; wfield; by fields).
  assert (H44 : le_combine (get b 44 4) = 56 + len name) by (rewrite Hb by lia; wfield; by fields).
  assert (H40 : le_combine (get b 40 2) = len av) by (rewrite Hb by lia; wfield; by fields).
  rewrite H16, H12, H44, H40. split_and!.
  - rewrite Hb by lia. by wfield.
  - rewrite Hb by lia. wfield. by fields.
  - rewrite Hb by lia. wfield. by fields.
  - rewrite Hb by lia. by wfield.
  - rewrite Hr by lia. by apply get_app_exact.
  - rewrite Hr by lia. rewrite get_app_r by lia. replace (_ - 56 - _) with 0 by lia. rewrite get_all by done. subst av. rewrite <- (app_nil_r (EncodeAVList _)). by apply DecodeAVList_encode.
Qed.

Lemma challenge_parses_witness :
  let m := mkChallenge (map z2b [0x47; 0x4f]) NegotiateUnicode (zeros 8) [mkAV AVNbComputerName (map z2b [1; 2]); mkAV AVTimestamp (zeros 8)] in
  len (Challenge m) = 8 /\ DecodeAVList (get (EncodeChallenge m) (le_combine (get (EncodeChallenge m) 44 4)) (le_combine (get (EncodeChallenge m) 40 2))) = Ok (TargetInfo m).
Proof.
  intros m. split; [done|]. assert (Hw : Forall wf_pair (TargetInfo m)) by (repeat constructor; done).
  destruct (challenge_parses m eq_refl ltac:(done) Hw ltac:(done) ltac:(done)) as (_ & _ & _ & _ & _ & H). exact H.
Defined.

(** ** The message integrity code *)

Section Mic.
Context (HMAC_MD5 : bytes -> bytes -> bytes).

(** The three messages with the MIC field zeroed are what the code is computed over,
    so the MIC of a message does not depend on what its MIC field holds. *)
Lemma ComputeMIC_field key neg chal auth mic : 88 <= len auth -> len mic = 16 ->
  ComputeMIC HMAC_MD5 key neg chal (splice MICFieldOffset mic auth) = ComputeMIC HMAC_MD5 key neg chal auth.
Proof.
  intros Ha Hm. unfold ComputeMIC, MICFieldOffset. rewrite len_splice by lia.
  rewrite (proj2 (Z.leb_le _ _)) by lia. do 3 f_equal.
  apply list_eq. intros i. assert (len (zeros 16) = 16) by done. assert (len (splice 72 mic auth) = len auth) by (rewrite len_splice; lia).
  rewrite !lookup_splice by lia. repeat case_decide; first [done|lia].
Qed.

Lemma extent_same b b' offs e : (forall off, off ∈ offs -> 0 <= off /\ off + 8 <= 72) -> 72 <= len b -> 72 <= len b' ->
  (forall off n, 0 <= off -> 0 <= n -> off + n <= 72 -> get b off n = get b' off n) -> extent_loop b offs e = extent_loop b' offs e.
Proof.
  intros Ho Hb Hb' Hg. revert e. induction offs as [|off offs IH]; intros e; [done|]. cbn [extent_loop].
  destruct (Ho off ltac:(by left)). rewrite !(proj2 (Z.ltb_ge _ _)) by lia.
  rewrite !(u16_Ok _ off), !(u32_Ok _ (off + 4)) by lia. cbn [mbind outcome_bind]. rewrite !(Hg off), !(Hg (off + 4)) by lia.
  apply IH. intros o Hin. apply Ho. by right.
Qed.

(** The MIC round trip. A client that fills the MIC field of its
    AUTHENTICATE_MESSAGE with the code computed over the three messages is
    accepted, whatever SPNEGO tail follows the message and whatever the field
    held before; and no other code is accepted. *)
Theorem mic_roundtrip (HMAC16 : forall k m, len (HMAC_MD5 k m) = 16) (key neg chal auth tail mic : bytes) :
  88 <= len auth -> extent_loop auth descriptors 0 = Ok (Some (len auth)) -> len mic = 16 ->
  let sent := splice MICFieldOffset mic auth ++ tail in
  AuthenticateLen sent = Ok (len auth) /\
  VerifyMIC HMAC_MD5 key neg chal (get sent 0 (len auth)) (get sent MICFieldOffset 16) =
    bool_decide (mic = ComputeMIC HMAC_MD5 key neg chal auth).
Proof.
  intros Ha He Hm sent. assert (Hs : len (splice MICFieldOffset mic auth) = len auth) by (apply len_splice; unfold MICFieldOffset; lia).
  assert (Hg : forall off n, 0 <= off -> 0 <= n -> off + n <= 72 -> get sent off n = get auth off n).
  { intros. unfold sent. rewrite get_app_l, get_splice_ne by (unfold MICFieldOffset in *; lia). done. }
  assert (Hl : len sent = len auth + len tail) by (unfold sent; rewrite len_app; lia). pose proof (len_nonneg tail).
  split.
  - unfold AuthenticateLen. rewrite (extent_same sent auth descriptors 0) by (try done; try lia;
      intros off Hoff; unfold descriptors in Hoff; rewrite !elem_of_cons, elem_of_nil in Hoff; lia).
    rewrite He. cbn [mbind outcome_bind]. rewrite (proj2 (Z.eqb_neq _ _)), (proj2 (Z.ltb_ge _ _)) by lia. done.
  - unfold VerifyMIC. assert (Hf : get sent MICFieldOffset 16 = mic).
    { unfold sent. rewrite get_app_l, get_splice_eq by (unfold MICFieldOffset in *; lia). done. }
    assert (Ht : get sent 0 (len auth) = splice MICFieldOffset mic auth) by (apply get_app_exact; lia).
    rewrite Hf, Ht, ComputeMIC_field by done.
    apply bool_decide_ext. split; congruence.
Qed.

End Mic.

Lemma mic_roundtrip_witness :
  let hmac (k m : bytes) : bytes := take 16 (k ++ m ++ zeros 16) in
  let auth := splice 16 (le32 88) (splice 12 (le16 2) (zeros 90)) in
  exists mic, VerifyMIC hmac (zeros 4) [] [] (get (splice MICFieldOffset mic auth ++ zeros 7) 0 (len auth))
                (get (splice MICFieldOffset mic auth ++ zeros 7) MICFieldOffset 16) = true.
Proof.
  intros hmac auth. exists (ComputeMIC hmac (zeros 4) [] [] auth).
  assert (H16 : forall k m, len (hmac k m) = 16).
  { intros k m. unfold hmac, len. rewrite length_take, !length_app. change (length (zeros 16)) with 16%nat. lia. }
  destruct (mic_roundtrip hmac H16 (zeros 4) [] [] auth (zeros 7) (ComputeMIC hmac (zeros 4) [] [] auth)
    ltac:(done) ltac:(done) ltac:(apply H16)) as [_ H]. rewrite H. by apply bool_decide_eq_true_2.
Defined.

(** ** RC4 *)

Lemma len_swap s i j : length (swap s i j) = length s.
Proof. unfold swap. by rewrite !length_insert. Qed.

Lemma at_range s i : Forall (fun v => 0 <= v < 256) s -> 0 <= at_ s i < 256.
Proof.
  intros H. unfold at_. destruct (s !! Z.to_nat i) as [v|] eqn:E.
  - rewrite (list_lookup_total_correct _ _ _ E). by eapply Forall_lookup in H.
  - rewrite list_lookup_total_alt, E. vm_compute. done.
Qed.

Lemma swap_range s i j : Forall (fun v => 0 <= v < 256) s -> Forall (fun v => 0 <= v < 256) (swap s i j).
Proof. intros H. unfold swap. apply Forall_insert; [apply Forall_insert; [done|]|]; by apply at_range. Qed.

Lemma schedule_range n key i j s : Forall (fun v => 0 <= v < 256) s -> Forall (fun v => 0 <= v < 256) (rc4_schedule n key i j s).
Proof. revert i j s. induction n as [|n IH]; intros i j s H; cbn [rc4_schedule]; [done|]. by apply IH, swap_range. Qed.

Lemma stream_range n i j s : Forall (fun v => 0 <= v < 256) s -> Forall (fun v => 0 <= v < 256) (rc4_stream n i j s).
Proof.
  revert i j s. induction n as [|n IH]; intros i j s H; cbn [rc4_stream]; [done|].
  constructor; [by apply at_range, swap_range|by apply IH, swap_range].
Qed.

Lemma length_stream n i j s : length (rc4_stream n i j s) = n.
Proof. revert i j s. induction n as [|n IH]; intros i j s; cbn [rc4_stream length]; [done|]. by rewrite IH. Qed.

Lemma z2b_b2z b : z2b (b2z b) = b.
Proof. apply byte.of_Z_unsigned. Qed.

Lemma xor_stream_twice (inp : bytes) (ks : list Z) : Forall (fun v => 0 <= v < 256) ks -> length ks = length inp ->
  zip_with (fun b k => z2b (Z.lxor (b2z b) k)) (zip_with (fun b k => z2b (Z.lxor (b2z b) k)) inp ks) ks = inp.
Proof.
  revert inp. induction ks as [|k ks IH]; intros [|b inp] Hf Hl; [done..|]. cbn [zip_with]. apply Forall_cons in Hf as [Hk Hf].
  rewrite IH by (done || by injection Hl). f_equal. pose proof (byte.unsigned_range b).
  rewrite Utf8.b2z_z2b by (apply (lxor_range 8 ltac:(lia)); lia). by rewrite Z.lxor_assoc, Z.lxor_nilpotent, Z.lxor_0_r, z2b_b2z.
Qed.

(** RC4 undoes itself: the session key a client encrypted under the session
    base key is the one the server recovers, whatever the key and the length. *)
Theorem rc4_involutive (key inp : bytes) : rc4xor key (rc4xor key inp) = inp.
Proof.
  unfold rc4xor. set (s := rc4_schedule _ _ _ _ _). assert (Hs : Forall (fun v => 0 <= v < 256) s).
  { apply schedule_range. apply Forall_map, Forall_seq. intros j Hj. cbn. lia. }
  rewrite length_zip_with, length_stream, Nat.min_id. apply xor_stream_twice; [by apply stream_range|apply length_stream].
Qed.

End Ntlm.
