(* ===== verification/Config.v ===== *)
(** Configuration: [internal/config] — the command line, the TOML subset, the
    merge and the validation — and [internal/userdb/userdb.go].

    [time.ParseDuration], [strings.ToLower], the file system and the account
    database are parameters. *)

From Stdlib Require Import String Ascii.
From S2P Require Import Prelude Utf.

Module Config.

(** A Go string literal. *)
Definition lit (s : string) : bytes := map Ascii.byte_of_ascii (list_ascii_of_string s).
Arguments lit s%_string.
Definition ch (c : ascii) : Byte.byte := Ascii.byte_of_ascii c.
Arguments ch c%_char.
Definition quote : Byte.byte := z2b 0x22.

(** ** [config.go], [file.go], [cli.go]: the data *)

Record ServerConfig := mkServer {
  Listen : bytes; Netbios : bool; MDNS : bool; Encryption : bytes; Signing : bytes; DurableTimeout : Z;
  StateDir : bytes; PerUserPrivdrop : bool }.
Record LogConfig := mkLog { Level : bytes; Format : bytes }.
Record ShareConfig := mkShare { sName : bytes; sPath : bytes; ReadOnly : bool; GuestOK : bool }.
Record UserConfig := mkUser {
  uName : bytes; NTHash : bytes; SystemUser : bytes; SystemUID : Z; SystemGID : Z; AllowShares : list bytes }.
Record config := mkConfig { Server : ServerConfig; Log : LogConfig; Shares : list ShareConfig; Users : list UserConfig }.

Definition EncryptionRequired : bytes := lit "required".
Definition EncryptionPreferred : bytes := lit "preferred".
Definition EncryptionOff : bytes := lit "off".
Definition SigningRequired : bytes := lit "required".
Definition SigningPreferred : bytes := lit "preferred".

Definition Defaults : config :=
  mkConfig (mkServer (lit ":445") false true EncryptionRequired SigningRequired 60000000000 (lit "/var/run/gosamba") false)
    (mkLog (lit "info") (lit "text")) [] [].

(** A nil pointer is [None]; a nil slice is [None], an empty one [Some []]. *)
Record FileServer := mkFServer {
  fListen : option bytes; fNetbios : option bool; fMDNS : option bool; fEncryption : option bytes; fSigning : option bytes;
  fDurableTimeout : option bytes; fStateDir : option bytes; fPerUserPrivdrop : option bool }.
Record FileLog := mkFLog { fLevel : option bytes; fFormat : option bytes }.
Record FileShare := mkFShare { fsName : bytes; fsPath : bytes; fsReadOnly : bool; fsGuestOK : bool }.
Record FileUser := mkFUser {
  fuName : bytes; fuNTHash : bytes; fuNTHashHex : bytes; fuSystemUser : bytes; fuAllowShares : option (list bytes) }.
Record File := mkFile { fServer : FileServer; fLog : FileLog; fShares : list FileShare; fUsers : list FileUser }.

Definition noServer : FileServer := mkFServer None None None None None None None None.
Definition noFile : File := mkFile noServer (mkFLog None None) [] [].
Definition noShare : FileShare := mkFShare [] [] false false.
Definition noUser : FileUser := mkFUser [] (zeros 16) [] [] None.

Record CLIShare := mkCShare { csPath : bytes; csName : bytes }.
Record CLIUser := mkCUser { cuName : bytes; cuPassword : bytes; cuSystemUser : bytes }.
Record CLI := mkCLI {
  ConfigFile : option bytes; cListen : option bytes; cNetbios : option bool; cMDNS : option bool; NoEncryption : option bool;
  NoSigning : option bool; cDurableTimeout : option bytes; cStateDir : option bytes; cPerUserPrivdrop : option bool;
  LogLevel : option bytes; LogFormat : option bytes; cShares : list CLIShare; cUsers : list CLIUser }.

(** ** Strings of the standard library *)

(** [strings.Cut] at one byte. *)
Fixpoint Cut (s : bytes) (c : Byte.byte) : option (bytes * bytes) :=
  match s with
  | [] => None
  | d :: s =>
      if bool_decide (d = c) then Some ([], s) else
      match Cut s c with Some (a, b) => Some (d :: a, b) | None => None end
  end.

(** [strings.Split] at one byte. *)
Fixpoint Split (s : bytes) (c : Byte.byte) : list bytes :=
  match s with
  | [] => [[]]
  | d :: s =>
      if bool_decide (d = c) then [] :: Split s c else
      match Split s c with a :: rest => (d :: a) :: rest | [] => [[d]] end
  end.

Definition HasPrefix (s pre : bytes) : bool := bool_decide (take (length pre) s = pre).
Definition HasSuffix (s suf : bytes) : bool := HasPrefix (rev s) (rev suf).

(** The runes [unicode.IsSpace] holds of, encoded. *)
Definition spaces : list bytes :=
  map Utf8.encode_rune
    [0x20; 0x09; 0x0A; 0x0B; 0x0C; 0x0D; 0x85; 0xA0; 0x1680; 0x2000; 0x2001; 0x2002; 0x2003; 0x2004; 0x2005; 0x2006; 0x2007;
     0x2008; 0x2009; 0x200A; 0x2028; 0x2029; 0x202F; 0x205F; 0x3000].

Fixpoint trim_left (fuel : nat) (sps : list bytes) (s : bytes) : bytes :=
  match fuel with
  | O => s
  | S fuel =>
      match filter (fun sp => HasPrefix s sp = true) sps with
      | sp :: _ => trim_left fuel sps (drop (length sp) s)
      | [] => s
      end
  end.

(** [strings.TrimSpace]: the encodings of spaces, off either end. *)
Definition TrimSpace (s : bytes) : bytes :=
  let s := trim_left (length s) spaces s in rev (trim_left (length s) (map (@rev _) spaces) (rev s)).

(** ** [toml.go] *)

Inductive tomlSection := secRoot | secServer | secLog | secShare | secUser.

Inductive kvErr :=
  | ExpectedString | UnterminatedEscape | UnknownEscape | ExpectedBool | ExpectedArray | ExpectedQuoted
  | UnterminatedString | ExpectedComma | UnknownUserKey (key : bytes) | OutsideTable (key : bytes).

Inductive tomlErr :=
  | MalformedArrayHeader | MalformedHeader | ExpectedKV | EmptyKey | BadKV (e : kvErr).

Fixpoint strip (inStr : bool) (s : bytes) : bytes :=
  match s with
  | [] => []
  | c :: s' =>
      if bool_decide (c = quote) then c :: strip (negb inStr) s' else
      if bool_decide (c = ch "\") && inStr then c :: match s' with [] => [] | d :: s'' => d :: strip inStr s'' end else
      if bool_decide (c = ch "#") && negb inStr then [] else
      c :: strip inStr s'
  end.
Definition stripComment (s : bytes) : bytes := strip false s.

Definition escape (c : Byte.byte) : option Byte.byte :=
  if bool_decide (c = quote) then Some quote else
  if bool_decide (c = ch "\") then Some (ch "\") else
  if bool_decide (c = ch "n") then Some (z2b 10) else
  if bool_decide (c = ch "t") then Some (z2b 9) else
  if bool_decide (c = ch "r") then Some (z2b 13) else None.

Fixpoint unescape (inner : bytes) : outcome kvErr bytes :=
  match inner with
  | [] => Ok []
  | c :: inner =>
      if bool_decide (c = ch "\") then
        match inner with
        | [] => Err UnterminatedEscape
        | d :: inner => match escape d with Some e => r ← unescape inner; Ok (e :: r) | None => Err UnknownEscape end
        end
      else r ← unescape inner; Ok (c :: r)
  end.

(** [s[i]], an indexing that may panic. *)
Definition index {E} (s : bytes) (i : Z) : outcome E Byte.byte :=
  if i <? 0 then Panic else match s !! Z.to_nat i with Some c => Ok c | None => Panic end.

Definition parseString (s : bytes) : outcome kvErr bytes :=
  if len s <? 2 then Err ExpectedString else
  a ← index s 0;
  if negb (bool_decide (a = quote)) then Err ExpectedString else
  b ← index s (len s - 1);
  if negb (bool_decide (b = quote)) then Err ExpectedString else
  inner ← slice s 1 (len s - 1);
  unescape inner.

Definition parseBool (s : bytes) : outcome kvErr bool :=
  if bool_decide (s = lit "true") then Ok true else
  if bool_decide (s = lit "false") then Ok false else Err ExpectedBool.

(** The index of the closing quote, from index [i] on. *)
Fixpoint closing (s : bytes) (i : Z) : option Z :=
  match s with
  | [] => None
  | c :: s =>
      if bool_decide (c = ch "\") then match s with [] => None | _ :: s => closing s (i + 2) end else
      if bool_decide (c = quote) then Some i else closing s (i + 1)
  end.

(** Every round consumes a string and a comma: [length inner] rounds are enough. *)
Fixpoint array_loop (fuel : nat) (inner : bytes) : outcome kvErr (list bytes) :=
  match fuel with
  | O => Panic
  | S fuel =>
      if bool_decide (inner = []) then Ok [] else
      let inner := TrimSpace inner in
      if bool_decide (inner = []) then Ok [] else
      c ← index inner 0;
      if negb (bool_decide (c = quote)) then Err ExpectedQuoted else
      match closing (drop 1 inner) 1 with
      | None => Err UnterminatedString
      | Some e =>
          q ← slice inner 0 (e + 1);
          elem ← parseString q;
          rest ← slice inner (e + 1) (len inner);
          let rest := TrimSpace rest in
          if bool_decide (rest = []) then Ok [elem] else
          c ← index rest 0;
          if negb (bool_decide (c = ch ",")) then Err ExpectedComma else
          rest ← slice rest 1 (len rest);
          r ← array_loop fuel rest;
          Ok (elem :: r)
      end
  end.

Definition parseStringArray (s : bytes) : outcome kvErr (list bytes) :=
  let s := TrimSpace s in
  if len s <? 2 then Err ExpectedArray else
  a ← index s 0;
  if negb (bool_decide (a = ch "[")) then Err ExpectedArray else
  b ← index s (len s - 1);
  if negb (bool_decide (b = ch "]")) then Err ExpectedArray else
  inner ← slice s 1 (len s - 1);
  let inner := TrimSpace inner in
  if bool_decide (inner = []) then Ok [] else array_loop (S (length inner)) inner.

Definition applyServerKV (f : FileServer) (key v : bytes) : outcome kvErr FileServer :=
  let '(mkFServer li nb md en si dt sd pp) := f in
  if bool_decide (key = lit "listen") then s ← parseString v; Ok (mkFServer (Some s) nb md en si dt sd pp) else
  if bool_decide (key = lit "netbios") then b ← parseBool v; Ok (mkFServer li (Some b) md en si dt sd pp) else
  if bool_decide (key = lit "mdns") then b ← parseBool v; Ok (mkFServer li nb (Some b) en si dt sd pp) else
  if bool_decide (key = lit "encryption") then s ← parseString v; Ok (mkFServer li nb md (Some s) si dt sd pp) else
  if bool_decide (key = lit "signing") then s ← parseString v; Ok (mkFServer li nb md en (Some s) dt sd pp) else
  if bool_decide (key = lit "durable_timeout") then s ← parseString v; Ok (mkFServer li nb md en si (Some s) sd pp) else
  if bool_decide (key = lit "state_dir") then s ← parseString v; Ok (mkFServer li nb md en si dt (Some s) pp) else
  if bool_decide (key = lit "per_user_privdrop") then b ← parseBool v; Ok (mkFServer li nb md en si dt sd (Some b)) else
  Ok f.

Definition applyLogKV (f : FileLog) (key v : bytes) : outcome kvErr FileLog :=
  let '(mkFLog le fo) := f in
  if bool_decide (key = lit "level") then s ← parseString v; Ok (mkFLog (Some s) fo) else
  if bool_decide (key = lit "format") then s ← parseString v; Ok (mkFLog le (Some s)) else
  Ok f.

Definition applyShareKV (f : FileShare) (key v : bytes) : outcome kvErr FileShare :=
  let '(mkFShare na pa ro gu) := f in
  if bool_decide (key = lit "name") then s ← parseString v; Ok (mkFShare s pa ro gu) else
  if bool_decide (key = lit "path") then s ← parseString v; Ok (mkFShare na s ro gu) else
  if bool_decide (key = lit "read_only") then b ← parseBool v; Ok (mkFShare na pa b gu) else
  if bool_decide (key = lit "guest_ok") then b ← parseBool v; Ok (mkFShare na pa ro b) else
  Ok f.

Definition applyUserKV (f : FileUser) (key v : bytes) : outcome kvErr FileUser :=
  let '(mkFUser na h hex su al) := f in
  if bool_decide (key = lit "name") then s ← parseString v; Ok (mkFUser s h hex su al) else
  if bool_decide (key = lit "nt_hash") then s ← parseString v; Ok (mkFUser na h s su al) else
  if bool_decide (key = lit "system_user") then s ← parseString v; Ok (mkFUser na h hex s al) else
  if bool_decide (key = lit "allow_shares") then a ← parseStringArray v; Ok (mkFUser na h hex su (Some a)) else
  Err (UnknownUserKey key).

(** [&xs[len(xs)-1]], updated in place. *)
Definition update_last {A E} (none : E) (xs : list A) (g : A -> outcome E A) : outcome E (list A) :=
  match rev xs with
  | [] => Err none
  | x :: pre => y ← g x; Ok (rev pre ++ [y])
  end.

Definition applyKV (f : File) (cur : tomlSection) (key v : bytes) : outcome kvErr File :=
  let '(mkFile se lo sh us) := f in
  match cur with
  | secServer => se ← applyServerKV se key v; Ok (mkFile se lo sh us)
  | secLog => lo ← applyLogKV lo key v; Ok (mkFile se lo sh us)
  | secShare => sh ← update_last (OutsideTable key) sh (fun s => applyShareKV s key v); Ok (mkFile se lo sh us)
  | secUser => us ← update_last (OutsideTable key) us (fun u => applyUserKV u key v); Ok (mkFile se lo sh us)
  | secRoot => Ok f
  end.

(** One line of the file: the body of [decodeTOMLFile]'s loop. *)
Definition decode_line (st : File * tomlSection) (raw : bytes) : outcome tomlErr (File * tomlSection) :=
  let '(f, cur) := st in
  let line := TrimSpace (stripComment raw) in
  if bool_decide (line = []) then Ok (f, cur) else
  if HasPrefix line (lit "[[") then
    if negb (HasSuffix line (lit "]]")) then Err MalformedArrayHeader else
    name ← slice line 2 (len line - 2);
    let name := TrimSpace name in
    let '(mkFile se lo sh us) := f in
    Ok (if bool_decide (name = lit "share") then (mkFile se lo (sh ++ [noShare]) us, secShare) else
        if bool_decide (name = lit "user") then (mkFile se lo sh (us ++ [noUser]), secUser) else (f, secRoot))
  else if HasPrefix line (lit "[") then
    if negb (HasSuffix line (lit "]")) then Err MalformedHeader else
    name ← slice line 1 (len line - 1);
    let name := TrimSpace name in
    Ok (f, if bool_decide (name = lit "server") then secServer else if bool_decide (name = lit "log") then secLog else secRoot)
  else
    match Cut line (ch "=") with
    | None => Err ExpectedKV
    | Some (k, v) =>
        let key := TrimSpace k in
        if bool_decide (key = []) then Err EmptyKey else
        match applyKV f cur key (TrimSpace v) with
        | Ok f => Ok (f, cur)
        | Err e => Err (BadKV e)
        | Panic => Panic
        end
    end.

(** The loop; an error carries its line. *)
Fixpoint decode_lines (st : File * tomlSection) (lineNum : Z) (ls : list bytes) : outcome (Z * tomlErr) (File * tomlSection) :=
  match ls with
  | [] => Ok st
  | l :: ls =>
      match decode_line st l with
      | Ok st => decode_lines st (lineNum + 1) ls
      | Err e => Err (lineNum, e)
      | Panic => Panic
      end
  end.

(** The lines of a [bufio.Scanner]: no trailing newline, no trailing carriage
    return; [None] when a line does not fit its buffer. *)
Definition MaxScanTokenSize : Z := 64 * 1024.

Definition dropCR (l : bytes) : bytes :=
  match rev l with c :: r => if bool_decide (c = z2b 13) then rev r else l | [] => l end.

(** The lines, not yet without their carriage return. *)
Definition raw_lines (content : bytes) : list bytes :=
  let ls := Split content (z2b 10) in match rev ls with [] :: r => rev r | _ => ls end.

Inductive fileErr :=
  | StatFailed | TooPermissive | OpenFailed | LineError (line : Z) (e : tomlErr) | TooLong | NotHex (user : bytes) | BadHashLength (user : bytes).

(** A line the scanner cannot hold ends the loop; the lines before it were
    applied, their errors come first. *)
Definition fits_buffer (l : bytes) : bool := len l <? MaxScanTokenSize.

Fixpoint take_while (P : bytes -> bool) (ls : list bytes) : list bytes * bool :=
  match ls with
  | [] => ([], true)
  | l :: r => if P l then let '(a, ok) := take_while P r in (l :: a, ok) else ([], false)
  end.

Definition decodeTOML (content : bytes) : outcome fileErr File :=
  let '(ls, ok) := take_while fits_buffer (raw_lines content) in
  match decode_lines (noFile, secRoot) 1 (map dropCR ls) with
  | Ok (f, _) => if ok then Ok f else Err TooLong
  | Err (n, e) => Err (LineError n e)
  | Panic => Panic
  end.

(** ** [file.go] *)

(** [hex.DecodeString]. *)
Definition hex_digit (c : Byte.byte) : option Z :=
  let v := b2z c in
  if (0x30 <=? v) && (v <=? 0x39) then Some (v - 0x30) else
  if (0x61 <=? v) && (v <=? 0x66) then Some (v - 0x61 + 10) else
  if (0x41 <=? v) && (v <=? 0x46) then Some (v - 0x41 + 10) else None.

Fixpoint hex_decode (s : bytes) : option bytes :=
  match s with
  | [] => Some []
  | [_] => None
  | a :: b :: s =>
      match hex_digit a, hex_digit b, hex_decode s with
      | Some x, Some y, Some r => Some (z2b (Z.lor (Z.shiftl x 4) y) :: r)
      | _, _, _ => None
      end
  end.

Fixpoint decode_hashes (us : list FileUser) : outcome fileErr (list FileUser) :=
  match us with
  | [] => Ok []
  | u :: us =>
      if bool_decide (fuNTHashHex u = []) then us ← decode_hashes us; Ok (u :: us) else
      match hex_decode (fuNTHashHex u) with
      | None => Err (NotHex (fuName u))
      | Some raw =>
          if negb (len raw =? 16) then Err (BadHashLength (fuName u)) else
          us ← decode_hashes us;
          Ok (mkFUser (fuName u) raw (fuNTHashHex u) (fuSystemUser u) (fuAllowShares u) :: us)
      end
  end.

(** The octal mask 0027 is 0x17. [mode] are the permission bits [os.Stat] reports, [content] what the file holds. *)
Definition ParseFile (mode : option Z) (content : option bytes) : outcome fileErr File :=
  match mode with
  | None => Err StatFailed
  | Some mode =>
      if negb (Z.land mode 0x17 =? 0) then Err TooPermissive else
      match content with
      | None => Err OpenFailed
      | Some c =>
          f ← decodeTOML c;
          us ← decode_hashes (fUsers f);
          Ok (mkFile (fServer f) (fLog f) (fShares f) us)
      end
  end.

(** ** [cli.go] *)

Inductive cliErr :=
  | BadFlagSyntax (arg : bytes) | HelpRequested | UndefinedFlag (name : bytes) | BadBoolean (name : bytes) | NeedsArgument (name : bytes)
  | BadUserSpec (u : bytes) (fields : Z) | EmptyPassword (u : bytes).

Inductive flagKind := FString | FBool | FList.

Definition flags : list (bytes * flagKind) :=
  [(lit "share", FList); (lit "s", FList); (lit "user", FList); (lit "u", FList);
   (lit "config", FString); (lit "c", FString); (lit "listen", FString); (lit "l", FString);
   (lit "netbios", FBool); (lit "mdns", FBool); (lit "no-encryption", FBool); (lit "no-signing", FBool);
   (lit "durable-timeout", FString); (lit "state-dir", FString); (lit "per-user-privdrop", FBool);
   (lit "log-level", FString); (lit "log-format", FString)].

Definition flag_kind (name : bytes) : option flagKind :=
  match filter (fun f => f.1 = name) flags with f :: _ => Some f.2 | [] => None end.

(** [strconv.ParseBool]. *)
Definition ParseBool (v : bytes) : option bool :=
  if bool_decide (v ∈ [lit "1"; lit "t"; lit "T"; lit "TRUE"; lit "true"; lit "True"]) then Some true else
  if bool_decide (v ∈ [lit "0"; lit "f"; lit "F"; lit "FALSE"; lit "false"; lit "False"]) then Some false else None.

(** [flag.FlagSet.parseOne]: what one argument is; a '=' counts from the second
    byte of the name on. *)
Inductive arg := Positional | BadSyntax | Flag (name : bytes) (value : option bytes).

Definition classify (s : bytes) : arg :=
  match s with
  | a :: b :: s' =>
      if negb (bool_decide (a = ch "-")) then Positional else
      if bool_decide (b = ch "-") && bool_decide (s' = []) then Positional else
      let name := if bool_decide (b = ch "-") then s' else b :: s' in
      match name with
      | [] => BadSyntax
      | c :: rest =>
          if bool_decide (c = ch "-") || bool_decide (c = ch "=") then BadSyntax else
          match Cut rest (ch "=") with
          | Some (n, v) => Flag (c :: n) (Some v)
          | None => Flag name None
          end
      end
  | _ => Positional
  end.

(** The flags set, in order: a later one overwrites, a list flag appends. *)
Fixpoint parse_args (args : list bytes) : outcome cliErr (list (bytes * bytes)) :=
  match args with
  | [] => Ok []
  | s :: rest =>
      match classify s with
      | Positional => Ok []
      | BadSyntax => Err (BadFlagSyntax s)
      | Flag name value =>
          match flag_kind name with
          | None => Err (if bool_decide (name = lit "help") || bool_decide (name = lit "h") then HelpRequested else UndefinedFlag name)
          | Some FBool =>
              match ParseBool (default (lit "true") value) with
              | None => Err (BadBoolean name)
              | Some b => r ← parse_args rest; Ok ((name, if b then lit "true" else lit "false") :: r)
              end
          | Some _ =>
              match value, rest with
              | Some v, _ => r ← parse_args rest; Ok ((name, v) :: r)
              | None, [] => Err (NeedsArgument name)
              | None, v :: rest' => r ← parse_args rest'; Ok ((name, v) :: r)
              end
          end
      end
  end.

Definition values (names : list bytes) (set : list (bytes * bytes)) : list bytes :=
  (filter (fun p => p.1 ∈ names) set).*2.
Definition string_flag (names : list bytes) (set : list (bytes * bytes)) : option bytes := last (values names set).
Definition bool_flag (name : bytes) (set : list (bytes * bytes)) : option bool :=
  (fun v => bool_decide (v = lit "true")) <$> last (values [name] set).

Definition parse_share (s : bytes) : CLIShare :=
  match Cut s (ch "=") with Some (p, n) => mkCShare p n | None => mkCShare s [] end.

Definition parse_user (u : bytes) : outcome cliErr CLIUser :=
  match Split u (ch ":") with
  | [name; pw] => if bool_decide (pw = []) then Err (EmptyPassword u) else Ok (mkCUser name pw [])
  | [name; pw; su] => if bool_decide (pw = []) then Err (EmptyPassword u) else Ok (mkCUser name pw su)
  | parts => Err (BadUserSpec u (len parts))
  end.

Fixpoint parse_users (us : list bytes) : outcome cliErr (list CLIUser) :=
  match us with
  | [] => Ok []
  | u :: us => cu ← parse_user u; r ← parse_users us; Ok (cu :: r)
  end.

Definition ParseCLI (args : list bytes) : outcome cliErr CLI :=
  set ← parse_args args;
  let shareSpecs := values [lit "share"; lit "s"] set in
  let userSpecs := values [lit "user"; lit "u"] set in
  us ← parse_users userSpecs;
  Ok (mkCLI (string_flag [lit "config"; lit "c"] set) (string_flag [lit "listen"; lit "l"] set)
        (bool_flag (lit "netbios") set) (bool_flag (lit "mdns") set) (bool_flag (lit "no-encryption") set)
        (bool_flag (lit "no-signing") set) (string_flag [lit "durable-timeout"] set) (string_flag [lit "state-dir"] set)
        (bool_flag (lit "per-user-privdrop") set) (string_flag [lit "log-level"] set) (string_flag [lit "log-format"] set)
        (map parse_share shareSpecs) us).

(** ** [merge.go] *)

Inductive mergeErr := BadFileTimeout | BadCLITimeout | NoAbs (path : bytes).

Section Merge.
Context (ParseDuration : bytes -> option Z) (MD4 : bytes -> bytes).
(** [filepath.Abs] and the base of the cleaned path. *)
Context (absBase : bytes -> option bytes).

Definition defaultShareName (path : bytes) : outcome mergeErr bytes :=
  match absBase path with Some n => Ok n | None => Err (NoAbs path) end.

Definition or_default {A} (a : A) (v : option A) : A := match v with Some x => x | None => a end.

Definition timeout (e : mergeErr) (d : Z) (v : option bytes) : outcome mergeErr Z :=
  match v with
  | None => Ok d
  | Some v => match ParseDuration v with Some d => Ok d | None => Err e end
  end.

Definition merge_file_server (s : ServerConfig) (f : FileServer) : outcome mergeErr ServerConfig :=
  d ← timeout BadFileTimeout (DurableTimeout s) (fDurableTimeout f);
  Ok (mkServer (or_default (Listen s) (fListen f)) (or_default (Netbios s) (fNetbios f)) (or_default (MDNS s) (fMDNS f))
        (or_default (Encryption s) (fEncryption f)) (or_default (Signing s) (fSigning f)) d
        (or_default (StateDir s) (fStateDir f)) (or_default (PerUserPrivdrop s) (fPerUserPrivdrop f))).

Definition merge_cli_server (s : ServerConfig) (c : CLI) : outcome mergeErr ServerConfig :=
  d ← timeout BadCLITimeout (DurableTimeout s) (cDurableTimeout c);
  Ok (mkServer (or_default (Listen s) (cListen c)) (or_default (Netbios s) (cNetbios c)) (or_default (MDNS s) (cMDNS c))
        (if or_default false (NoEncryption c) then EncryptionOff else Encryption s)
        (if or_default false (NoSigning c) then SigningPreferred else Signing s) d
        (or_default (StateDir s) (cStateDir c)) (or_default (PerUserPrivdrop s) (cPerUserPrivdrop c))).

Definition share_name (name path : bytes) : outcome mergeErr bytes :=
  if bool_decide (name = []) then defaultShareName path else Ok name.

Fixpoint merge_shares (ss : list (bytes * bytes * bool * bool)) : outcome mergeErr (list ShareConfig) :=
  match ss with
  | [] => Ok []
  | (name, path, ro, guest) :: ss =>
      name ← share_name name path;
      r ← merge_shares ss;
      Ok (mkShare name path ro guest :: r)
  end.

Definition merge_file_user (u : FileUser) : UserConfig :=
  mkUser (fuName u) (fuNTHash u) (fuSystemUser u) 0 0 (match fuAllowShares u with None => [lit "*"] | Some l => l end).
Definition merge_cli_user (u : CLIUser) : UserConfig :=
  mkUser (cuName u) (MD4 (Names.utf16leDomain (cuPassword u))) (cuSystemUser u) 0 0 [lit "*"].

Definition Merge (cli : CLI) (file : File) : outcome mergeErr config :=
  srv ← merge_file_server (Server Defaults) (fServer file);
  srv ← merge_cli_server srv cli;
  let l := Log Defaults in
  let l := mkLog (or_default (Level l) (fLevel (fLog file))) (or_default (Format l) (fFormat (fLog file))) in
  let l := mkLog (or_default (Level l) (LogLevel cli)) (or_default (Format l) (LogFormat cli)) in
  shares ← merge_shares (map (fun s => (fsName s, fsPath s, fsReadOnly s, fsGuestOK s)) (fShares file) ++
                         map (fun s => (csName s, csPath s, false, false)) (cShares cli));
  Ok (mkConfig srv l shares (map merge_file_user (fUsers file) ++ map merge_cli_user (cUsers cli))).
End Merge.

(** ** [validate.go] *)

(** [strconv.Atoi]: a sign and decimal digits, in the range of an [int]. *)
Fixpoint digits (acc : Z) (s : bytes) : option Z :=
  match s with
  | [] => Some acc
  | c :: s => if (0x30 <=? b2z c) && (b2z c <=? 0x39) then digits (acc * 10 + (b2z c - 0x30)) s else None
  end.

Definition Atoi (s : bytes) : option Z :=
  let '(neg, ds) := match s with
    | c :: r => if bool_decide (c = ch "-") then (true, r) else if bool_decide (c = ch "+") then (false, r) else (false, s)
    | [] => (false, []) end in
  if bool_decide (ds = []) then None else
  match digits 0 ds with
  | None => None
  | Some n =>
      let v := if neg : bool then - n else n in
      if (- 2 ^ 63 <=? v) && (v <? 2 ^ 63) then Some v else None
  end.

(** The ids of a numeric spec; [Ok None] for a name. *)
Definition parseNumericSystemUser (spec : bytes) : outcome unit (option (Z * Z)) :=
  match Cut spec (ch "/") with
  | Some (u, g) => match Atoi u, Atoi g with Some u, Some g => Ok (Some (u, g)) | _, _ => Err () end
  | None => match Atoi spec with Some n => Ok (Some (n, n)) | None => Ok None end
  end.

Fixpoint last_index (s : bytes) (c : Byte.byte) : option Z :=
  match s with
  | [] => None
  | d :: s =>
      match last_index s c with
      | Some i => Some (i + 1)
      | None => if bool_decide (d = c) then Some 0 else None
      end
  end.
Definition first_index (s : bytes) (c : Byte.byte) : option Z := len ∘ fst <$> Cut s c.

(** [net.SplitHostPort]; [None] for an error. *)
Definition SplitHostPort (hostport : bytes) : option (bytes * bytes) :=
  match last_index hostport (ch ":") with
  | None => None
  | Some i =>
      let port := drop (Z.to_nat (i + 1)) hostport in
      let rest host j k :=
        if negb (bool_decide (Cut (drop (Z.to_nat j) hostport) (ch "[") = None)) then None else
        if negb (bool_decide (Cut (drop (Z.to_nat k) hostport) (ch "]") = None)) then None else Some (host, port) in
      if HasPrefix hostport (lit "[") then
        match first_index hostport (ch "]") with
        | None => None
        | Some e => if e + 1 =? i then rest (get hostport 1 (e - 1)) 1 (e + 1) else None
        end
      else
        let host := get hostport 0 i in
        if negb (bool_decide (Cut host (ch ":") = None)) then None else rest host 0 0
  end.

Inductive validateErr :=
  | BadListen | BadEncryption | BadSigning | BadLevel | BadFormat | NetbiosUnsupported
  | ShareNameEmpty (i : Z) | ShareNameReserved (n : bytes) | ShareDuplicate (n : bytes) | SharePath (n : bytes) | ShareNotDir (n : bytes)
  | UserNameEmpty (i : Z) | UserDuplicate (n : bytes) | NoCredential (n : bytes) | BadSystemUser (n : bytes) | UnknownSystemUser (n : bytes)
  | NonNumericId (n : bytes).

Section Validate.
Context (ToLower : bytes -> bytes).
(** [os.Stat]'s verdict on a directory, [os.Getuid] and [os.Getgid], and
    [user.Lookup]'s uid and gid, as the account database spells them. *)
Context (isDir : bytes -> option bool) (getuid getgid : Z) (lookup : bytes -> option (bytes * bytes)).

Fixpoint validate_shares (i : Z) (seen : gset bytes) (ss : list ShareConfig) : outcome validateErr () :=
  match ss with
  | [] => Ok ()
  | s :: ss =>
      let n := sName s in
      if bool_decide (n = []) then Err (ShareNameEmpty i) else
      if bool_decide (n = lit ".") || bool_decide (n = lit "..") then Err (ShareNameReserved n) else
      if bool_decide (ToLower n ∈ seen) then Err (ShareDuplicate n) else
      match isDir (sPath s) with
      | None => Err (SharePath n)
      | Some false => Err (ShareNotDir n)
      | Some true => validate_shares (i + 1) ({[ToLower n]} ∪ seen) ss
      end
  end.

Definition system_ids (u : UserConfig) : outcome validateErr (Z * Z) :=
  if bool_decide (SystemUser u = []) then Ok (getuid, getgid) else
  match parseNumericSystemUser (SystemUser u) with
  | Ok (Some ids) => Ok ids
  | Ok None =>
      match lookup (SystemUser u) with
      | None => Err (UnknownSystemUser (uName u))
      | Some (us, gs) =>
          match Atoi us, Atoi gs with Some x, Some y => Ok (x, y) | _, _ => Err (NonNumericId (uName u)) end
      end
  | _ => Err (BadSystemUser (uName u))
  end.

Fixpoint validate_users (i : Z) (seen : gset bytes) (us : list UserConfig) : outcome validateErr (list UserConfig) :=
  match us with
  | [] => Ok []
  | u :: us =>
      let n := uName u in
      if bool_decide (n = []) then Err (UserNameEmpty i) else
      if bool_decide (ToLower n ∈ seen) then Err (UserDuplicate n) else
      if bool_decide (NTHash u = zeros 16) then Err (NoCredential n) else
      ids ← system_ids u;
      r ← validate_users (i + 1) ({[ToLower n]} ∪ seen) us;
      Ok (mkUser n (NTHash u) (SystemUser u) ids.1 ids.2 (AllowShares u) :: r)
  end.

(** The configuration with its ids filled in. *)
Definition Validate (cfg : config) : outcome validateErr config :=
  let srv := Server cfg in
  if bool_decide (SplitHostPort (Listen srv) = None) then Err BadListen else
  if negb (bool_decide (Encryption srv ∈ [EncryptionRequired; EncryptionPreferred; EncryptionOff])) then Err BadEncryption else
  if negb (bool_decide (Signing srv ∈ [SigningRequired; SigningPreferred])) then Err BadSigning else
  if negb (bool_decide (Level (Log cfg) ∈ [lit "debug"; lit "info"; lit "warn"; lit "error"])) then Err BadLevel else
  if negb (bool_decide (Format (Log cfg) ∈ [lit "text"; lit "json"])) then Err BadFormat else
  if Netbios srv then Err NetbiosUnsupported else
  _ ← validate_shares 0 ∅ (Shares cfg);
  us ← validate_users 0 ∅ (Users cfg);
  Ok (mkConfig srv (Log cfg) (Shares cfg) us).
End Validate.

(** ** No file makes the reader panic *)

Lemma index_safe {E} (s : bytes) i : 0 <= i < len s -> exists c, index (E:=E) s i = Ok c.
Proof.
  unfold len. intros H. unfold index. rewrite (proj2 (Z.ltb_ge _ _)) by lia.
  destruct (lookup_lt_is_Some_2 s (Z.to_nat i)) as [c Hc]; [lia|]. rewrite Hc. by exists c.
Qed.

Lemma unescape_safe n s : (length s <= n)%nat -> safe (unescape s).
Proof.
  revert s. induction n as [|n IH]; intros [|c [|d s]] Hn; simpl in Hn |- *; try done; try lia.
  - by case_match.
  - case_match.
    + destruct (escape d); [|done]. apply safe_bind; [apply IH; lia|done].
    + apply safe_bind; [apply (IH (d :: s)); simpl; lia|done].
Qed.

Lemma parseString_safe s : safe (parseString s).
Proof.
  unfold parseString. destruct (Z.ltb_spec (len s) 2); [done|].
  destruct (index_safe (E:=kvErr) s 0) as [a ->]; [lia|]. cbn [mbind outcome_bind]. destruct (negb _); [done|].
  destruct (index_safe (E:=kvErr) s (len s - 1)) as [b ->]; [lia|]. cbn [mbind outcome_bind]. destruct (negb _); [done|].
  rewrite (slice_Ok s 1) by lia. by eapply unescape_safe.
Qed.

Lemma len_trim_left fuel sps s : (length (trim_left fuel sps s) <= length s)%nat.
Proof.
  revert s. induction fuel as [|fuel IH]; intros s; [done|]. cbn [trim_left]. destruct (filter _ sps) as [|sp ?]; [done|].
  etrans; [apply IH|]. rewrite length_drop. lia.
Qed.

Lemma length_TrimSpace s : (length (TrimSpace s) <= length s)%nat.
Proof. unfold TrimSpace. rewrite length_rev. etrans; [apply len_trim_left|]. rewrite length_rev. apply len_trim_left. Qed.

Lemma len_TrimSpace s : len (TrimSpace s) <= len s.
Proof. unfold len. pose proof (length_TrimSpace s). lia. Qed.

Lemma closing_range n s i e : (length s <= n)%nat -> closing s i = Some e -> i <= e < i + len s.
Proof.
  revert s i. induction n as [|n IH]; intros [|c s] i Hn; simpl in Hn; try done; try lia. cbn [closing]. case_bool_decide.
  - destruct s as [|d s]; [done|]. simpl in Hn. intros He. apply IH in He; [|lia]. rewrite !len_cons. lia.
  - case_bool_decide; [intros [= <-]; rewrite len_cons; pose proof (len_nonneg s); lia|].
    intros He. apply IH in He; [|lia]. rewrite len_cons. lia.
Qed.

Lemma array_safe fuel inner : (length inner < fuel)%nat -> safe (array_loop fuel inner).
Proof.
  revert inner. induction fuel as [|fuel IH]; intros inner Hf; [lia|]. cbn [array_loop]. case_bool_decide; [done|].
  pose proof (length_TrimSpace inner) as Ht. set (x := TrimSpace inner) in *. case_bool_decide as Hx; [done|].
  assert (0 < len x) by (unfold len; destruct x; [done|simpl; lia]).
  destruct (index_safe (E:=kvErr) x 0) as [c ->]; [lia|]. cbn [mbind outcome_bind]. destruct (negb _); [done|].
  destruct (closing (drop 1 x) 1) as [e|] eqn:He; [|done]. apply (closing_range _ _ _ _ (Nat.le_refl _)) in He.
  assert (len (drop 1 x) = len x - 1) by (unfold len in *; rewrite length_drop; lia).
  rewrite (slice_Ok x 0), (slice_Ok x (e + 1)) by lia. cbn [mbind outcome_bind]. apply safe_bind; [apply parseString_safe|intros elem _].
  set (r := get x (e + 1) _). assert (len r = len x - (e + 1)) by (unfold r; apply len_get; lia).
  pose proof (len_TrimSpace r). set (y := TrimSpace r) in *. case_bool_decide as Hy; [done|].
  assert (0 < len y) by (unfold len; destruct y; [done|simpl; lia]).
  destruct (index_safe (E:=kvErr) y 0) as [d ->]; [lia|]. cbn [mbind outcome_bind]. destruct (negb _); [done|].
  rewrite (slice_Ok y 1) by lia. cbn [mbind outcome_bind]. apply safe_bind; [|done]. apply IH.
  pose proof (len_get y 1 (len y - 1) ltac:(lia) ltac:(lia) ltac:(lia)). unfold len in *. lia.
Qed.

Lemma parseStringArray_safe s : safe (parseStringArray s).
Proof.
  unfold parseStringArray. set (x := TrimSpace s). destruct (Z.ltb_spec (len x) 2); [done|].
  destruct (index_safe (E:=kvErr) x 0) as [a ->]; [lia|]. cbn [mbind outcome_bind]. destruct (negb _); [done|].
  destruct (index_safe (E:=kvErr) x (len x - 1)) as [b ->]; [lia|]. cbn [mbind outcome_bind]. destruct (negb _); [done|].
  rewrite (slice_Ok x 1) by lia. cbn [mbind outcome_bind]. case_bool_decide; [done|]. apply array_safe. lia.
Qed.

Lemma parseBool_safe s : safe (parseBool s).
Proof. unfold parseBool. by repeat case_match. Qed.

#[local] Hint Resolve parseString_safe parseStringArray_safe parseBool_safe : core.

Ltac kv_safe := repeat first [case_bool_decide; [apply safe_bind; [auto|done]|] | done].

Lemma applyKV_safe f cur key v : safe (applyKV f cur key v).
Proof.
  assert (Hl : forall A (xs : list A) e g, (forall x, safe (g x)) -> safe (update_last (E:=kvErr) e xs g)).
  { intros A xs e g Hg. unfold update_last. destruct (rev xs); [done|]. apply safe_bind; [apply Hg|done]. }
  destruct f as [se lo sh us], cur; cbn [applyKV]; [done| | | |]; (apply safe_bind; [|done]).
  - destruct se. unfold applyServerKV. kv_safe.
  - destruct lo. unfold applyLogKV. kv_safe.
  - apply Hl. intros []. unfold applyShareKV. kv_safe.
  - apply Hl. intros []. unfold applyUserKV. kv_safe.
Qed.

Lemma HasPrefix_len s p : HasPrefix s p = true -> len p <= len s.
Proof. unfold HasPrefix. case_bool_decide as H; [|done]. intros _. unfold len. rewrite <- H at 1. rewrite length_take. lia. Qed.

Lemma HasPrefix_inv s p : HasPrefix s p = true -> exists t, s = p ++ t.
Proof.
  unfold HasPrefix. case_bool_decide as H; [|done]. intros _. exists (drop (length p) s). rewrite <- H at 1. by rewrite take_drop.
Qed.

Lemma brackets2 line : HasPrefix line (lit "[[") = true -> HasSuffix line (lit "]]") = true -> 4 <= len line.
Proof.
  intros [t ->]%HasPrefix_inv [u Hu]%HasPrefix_inv. destruct t as [|a [|b t]]; [discriminate Hu| |].
  - cbn in Hu. discriminate Hu.
  - rewrite len_app, !len_cons. change (len (lit "[[")) with 2. pose proof (len_nonneg t). lia.
Qed.

Lemma brackets1 line : HasPrefix line (lit "[") = true -> HasSuffix line (lit "]") = true -> 2 <= len line.
Proof.
  intros [t ->]%HasPrefix_inv [u Hu]%HasPrefix_inv. destruct t as [|a t]; [discriminate Hu|].
  rewrite len_app, !len_cons. change (len (lit "[")) with 1. pose proof (len_nonneg t). lia.
Qed.

Lemma decode_line_safe st raw : safe (decode_line st raw).
Proof.
  destruct st as [f cur]. unfold decode_line. set (line := TrimSpace _). case_bool_decide; [done|].
  destruct (HasPrefix line (lit "[[")) eqn:H2.
  - destruct (HasSuffix line (lit "]]")) eqn:Hs; [|done]. cbn [negb].
    pose proof (brackets2 line H2 Hs).
    rewrite (slice_Ok line 2) by lia. cbn [mbind outcome_bind]. destruct f. done.
  - destruct (HasPrefix line (lit "[")) eqn:H1.
    + destruct (HasSuffix line (lit "]")) eqn:Hs; [|done]. cbn [negb].
      pose proof (brackets1 line H1 Hs).
      rewrite (slice_Ok line 1) by lia. done.
    + destruct (Cut line _) as [[k v]|]; [|done]. case_bool_decide; [done|].
      pose proof (applyKV_safe f cur (TrimSpace k) (TrimSpace v)). by destruct (applyKV _ _ _ _).
Qed.

Lemma decode_lines_safe st n ls : safe (decode_lines st n ls).
Proof.
  revert st n. induction ls as [|l ls IH]; intros st n; [done|]. cbn [decode_lines].
  pose proof (decode_line_safe st l). destruct (decode_line st l); [apply IH|done|done].
Qed.

(** Reading a configuration file never panics, whatever its permissions and
    its content; and a file others may write or read, or the group may write, is
    refused before a byte of it is read. *)
Theorem parse_file_total (mode : option Z) (content : option bytes) :
  safe (ParseFile mode content) /\
  forall m, mode = Some m -> Z.land m 0x17 <> 0 -> ParseFile mode content = Err TooPermissive.
Proof.
  split; [|by intros m -> Hm; cbn [ParseFile]; rewrite (proj2 (Z.eqb_neq _ _))].
  unfold ParseFile. destruct mode as [m|]; [|done]. destruct (negb _); [done|]. destruct content as [c|]; [|done]. apply safe_bind.
  - unfold decodeTOML. destruct (take_while _ _) as [ls ok]. pose proof (decode_lines_safe (noFile, secRoot) 1 (map dropCR ls)).
    destruct (decode_lines _ _ _) as [[f cur]|[n e]|]; [by destruct ok|done|done].
  - intros f _. apply safe_bind; [|done]. induction (fUsers f) as [|u us IH]; [done|]. cbn [decode_hashes].
    case_bool_decide; [by apply safe_bind|]. destruct (hex_decode _); [|done]. destruct (negb _); [done|]. by apply safe_bind.
Qed.

(** ** What an operator writes is what the server reads

    A printer of the TOML subset: the specification the reader is measured
    against.  Strings hold any bytes. *)

Definition esc (c : Byte.byte) : bytes :=
  if bool_decide (c = quote) then [ch "\"; quote] else
  if bool_decide (c = ch "\") then [ch "\"; ch "\"] else
  if bool_decide (c = z2b 10) then [ch "\"; ch "n"] else
  if bool_decide (c = z2b 9) then [ch "\"; ch "t"] else
  if bool_decide (c = z2b 13) then [ch "\"; ch "r"] else [c].
Definition body (s : bytes) : bytes := concat (map esc s).
Definition print_string (s : bytes) : bytes := quote :: body s ++ [quote].
Definition print_bool (b : bool) : bytes := if b then lit "true" else lit "false".
Fixpoint print_items (l : list bytes) : bytes :=
  match l with [] => [] | [s] => print_string s | s :: l => print_string s ++ lit ", " ++ print_items l end.
Definition print_array (l : list bytes) : bytes := lit "[" ++ print_items l ++ lit "]".

Definition kv (key : string) (v : bytes) : bytes := lit key ++ lit " = " ++ v.
Definition opt {A} (key : string) (print : A -> bytes) (v : option A) : list bytes :=
  match v with Some v => [kv key (print v)] | None => [] end.

Definition print_server (f : FileServer) : list bytes :=
  lit "[server]" :: opt "listen" print_string (fListen f) ++ opt "netbios" print_bool (fNetbios f) ++
  opt "mdns" print_bool (fMDNS f) ++ opt "encryption" print_string (fEncryption f) ++
  opt "signing" print_string (fSigning f) ++ opt "durable_timeout" print_string (fDurableTimeout f) ++
  opt "state_dir" print_string (fStateDir f) ++ opt "per_user_privdrop" print_bool (fPerUserPrivdrop f).
Definition print_log (f : FileLog) : list bytes :=
  lit "[log]" :: opt "level" print_string (fLevel f) ++ opt "format" print_string (fFormat f).
Definition print_share (s : FileShare) : list bytes :=
  [lit "[[share]]"; kv "name" (print_string (fsName s)); kv "path" (print_string (fsPath s));
   kv "read_only" (print_bool (fsReadOnly s)); kv "guest_ok" (print_bool (fsGuestOK s))].
Definition print_user (u : FileUser) : list bytes :=
  [lit "[[user]]"; kv "name" (print_string (fuName u)); kv "nt_hash" (print_string (fuNTHashHex u));
   kv "system_user" (print_string (fuSystemUser u))] ++ opt "allow_shares" print_array (fuAllowShares u).
Definition print_lines (f : File) : list bytes :=
  print_server (fServer f) ++ print_log (fLog f) ++ concat (map print_share (fShares f)) ++ concat (map print_user (fUsers f)).
Definition print_file (f : File) : bytes := concat (map (fun l => l ++ [z2b 10]) (print_lines f)).

(** Graphical ASCII: neither end of the encoding of a space. *)
Definition hard (c : Byte.byte) : bool := (0x21 <=? b2z c) && (b2z c <=? 0x7E).

Lemma head_not_hard (l : list bytes) : forallb (fun sp => match sp with x :: _ => negb (hard x) | [] => false end) l = true ->
  forall c s, hard c = true -> filter (fun sp => HasPrefix (c :: s) sp = true) l = [].
Proof.
  intros Hl c s Hc. induction l as [|sp l IH]; [done|]. cbn [forallb] in Hl. apply andb_prop in Hl as [Hx Hl]. rewrite filter_cons_False; [by apply IH|].
  destruct sp as [|x sp]; [done|]. intros [t Ht]%HasPrefix_inv. injection Ht as -> _. by rewrite Hc in Hx.
Qed.

Lemma trim_left_hard fuel c s : hard c = true ->
  trim_left fuel spaces (c :: s) = c :: s /\ trim_left fuel (map (@rev _) spaces) (c :: s) = c :: s.
Proof. intros Hc. destruct fuel; [done|]. cbn [trim_left]. by rewrite !head_not_hard by (done || by vm_compute). Qed.

(** Text that starts and ends with graphical characters. *)
Definition solid (s : bytes) : Prop := exists c d t u, s = c :: t /\ rev s = d :: u /\ hard c = true /\ hard d = true.

Lemma solid_intro c m d : hard c = true -> hard d = true -> solid (c :: m ++ [d]).
Proof. intros. exists c, d, (m ++ [d]), (rev m ++ [c]). cbn [rev]. by rewrite rev_app_distr. Qed.

Lemma solid_app s m t : solid s -> solid t -> solid (s ++ m ++ t).
Proof.
  intros (c & _ & s' & _ & -> & _ & Hc & _) (_ & d & _ & u & _ & Hr & _ & Hd).
  exists c, d, (s' ++ m ++ t), (u ++ rev (m) ++ rev (c :: s')). split_and!; try done. by rewrite !rev_app_distr, Hr, <- (assoc_L (++)).
Qed.

Lemma trims_solid s fuel : solid s ->
  trim_left fuel spaces s = s /\ trim_left fuel (map (@rev _) spaces) (rev s) = rev s.
Proof.
  intros (c & d & t & u & -> & Hr & Hc & Hd). rewrite Hr. split; [by apply trim_left_hard|by apply trim_left_hard].
Qed.

Lemma TrimSpace_solid s : solid s -> TrimSpace s = s.
Proof.
  intros Hs. unfold TrimSpace. rewrite (proj1 (trims_solid s _ Hs)), (proj2 (trims_solid s _ Hs)). apply rev_involutive.
Qed.

Lemma TrimSpace_nil : TrimSpace [] = [].
Proof. done. Qed.

Lemma trim_left_space fuel s sps : trim_left (S fuel) ([ch " "] :: sps) (ch " " :: s) = trim_left fuel ([ch " "] :: sps) s.
Proof. cbn [trim_left]. rewrite filter_cons_True by done. done. Qed.

Lemma TrimSpace_before s : solid s -> TrimSpace (ch " " :: s) = s.
Proof.
  intros Hs. unfold TrimSpace. cbn [length].
  assert (H : trim_left (S (length s)) spaces (ch " " :: s) = s) by (etrans; [apply trim_left_space|apply (trims_solid s _ Hs)]).
  rewrite H, (proj2 (trims_solid s _ Hs)). apply rev_involutive.
Qed.

Lemma TrimSpace_after s : solid s -> TrimSpace (s ++ [ch " "]) = s.
Proof.
  intros Hs. unfold TrimSpace.
  assert (H : forall n, trim_left n spaces (s ++ [ch " "]) = s ++ [ch " "]).
  { intros n. destruct Hs as (c & d & t & u & -> & _ & Hc & _). by apply trim_left_hard. }
  rewrite H, rev_unit, length_app, Nat.add_comm. cbn [length Nat.add].
  etrans; [apply f_equal, trim_left_space|]. etrans; [apply f_equal, (trims_solid s _ Hs)|apply rev_involutive].
Qed.

Lemma unescape_esc c s : unescape (esc c ++ s) = (r ← unescape s; Ok (c :: r)).
Proof. unfold esc. repeat case_bool_decide; subst; cbn [app unescape]; try done. by rewrite bool_decide_eq_false_2. Qed.

Lemma unescape_body s : unescape (body s) = Ok s.
Proof. induction s as [|c s IH]; [done|]. unfold body in *. cbn [map concat]. by rewrite unescape_esc, IH. Qed.

Lemma solid_string s : solid (print_string s).
Proof. by apply solid_intro. Qed.

Lemma get_inner c (m : bytes) d : get (c :: m ++ [d]) 1 (len m) = m.
Proof. unfold get, len. rewrite Nat2Z.id. change (Z.to_nat 1) with 1%nat. apply take_app_length. Qed.

Lemma index_last {E} c (m : bytes) d : index (E:=E) (c :: m ++ [d]) (1 + len m) = Ok d.
Proof.
  pose proof (len_nonneg m). unfold index. rewrite (proj2 (Z.ltb_ge _ _)) by lia.
  replace (Z.to_nat (1 + len m)) with (S (length m)) by (unfold len; lia). change ((c :: m ++ [d]) !! S (length m)) with ((m ++ [d]) !! length m). by rewrite list_lookup_middle.
Qed.

Lemma parseString_print s : parseString (print_string s) = Ok s.
Proof.
  unfold parseString, print_string. pose proof (len_nonneg (body s)).
  assert (Hl : len (quote :: body s ++ [quote]) = 2 + len (body s)) by (rewrite len_cons, len_app; change (len [quote]) with 1; lia).
  rewrite (proj2 (Z.ltb_ge _ _)) by lia. change (index (E:=kvErr) (quote :: body s ++ [quote]) 0) with (Ok (E:=kvErr) quote).
  cbn [mbind outcome_bind]. rewrite bool_decide_eq_true_2 by done. cbn [negb]. rewrite Hl. replace (2 + len (body s) - 1) with (1 + len (body s)) by lia.
  rewrite index_last. cbn [mbind outcome_bind]. rewrite bool_decide_eq_true_2 by done. cbn [negb].
  rewrite slice_Ok by (rewrite ?Hl; lia). cbn [mbind outcome_bind]. rewrite Z.add_simpl_l, get_inner. apply unescape_body.
Qed.

Lemma strip_body s r : strip true (body s ++ r) = body s ++ strip true r.
Proof.
  induction s as [|c s IH]; [done|]. unfold body in *. cbn [map concat]. rewrite <- (assoc_L (++)). unfold esc at 1 3.
  repeat case_bool_decide; subst; cbn [app strip]; try by rewrite IH.
  rewrite !bool_decide_eq_false_2 by done. cbn [andb negb]. rewrite andb_false_r. by rewrite IH.
Qed.

Lemma strip_string s r : strip false (print_string s ++ r) = print_string s ++ strip false r.
Proof. unfold print_string. cbn [app strip]. rewrite <- !(assoc_L (++)), strip_body. done. Qed.

Lemma strip_plain p r : forallb (fun c => negb (bool_decide (c = quote)) && negb (bool_decide (c = ch "#"))) p = true ->
  strip false (p ++ r) = p ++ strip false r.
Proof.
  induction p as [|c p IH]; [done|]. cbn [forallb app strip]. intros H. apply andb_prop in H as [[H1 H2]%andb_prop H3].
  destruct (bool_decide (c = quote)); [done|]. rewrite andb_false_r. destruct (bool_decide (c = ch "#")); [done|]. cbn [andb]. by rewrite IH.
Qed.

Lemma closing_body s i r : closing (body s ++ quote :: r) i = Some (i + len (body s)).
Proof.
  revert i. induction s as [|c s IH]; intros i; [unfold body; simpl; f_equal; unfold len; simpl; lia|].
  unfold body in *. cbn [map concat]. rewrite <- (assoc_L (++)). unfold esc at 1 3.
  repeat case_bool_decide; subst; cbn [app closing]; try (rewrite bool_decide_eq_true_2 by done; rewrite IH, !len_cons; f_equal; lia).
  rewrite !bool_decide_eq_false_2 by done. rewrite IH, len_cons. f_equal. lia.
Qed.

Lemma solid_items s l : solid (print_items (s :: l)).
Proof.
  revert s. induction l as [|t l IH]; intros s; [apply solid_string|].
  change (print_items (s :: t :: l)) with (print_string s ++ lit ", " ++ print_items (t :: l)). apply solid_app; [apply solid_string|apply IH].
Qed.

Lemma solid_nonempty s : solid s -> s <> [].
Proof. by intros (c & d & t & u & -> & _). Qed.

Lemma len_print_string s : len (print_string s) = 2 + len (body s).
Proof. unfold print_string. rewrite len_cons, len_app. change (len [quote]) with 1. lia. Qed.

Lemma array_step fuel x s tl : x <> [] -> TrimSpace x = print_string s ++ tl -> TrimSpace tl = tl ->
  array_loop (S fuel) x =
    match tl with
    | [] => Ok [s]
    | d :: rest => if bool_decide (d = ch ",") then r ← array_loop fuel rest; Ok (s :: r) else Err ExpectedComma
    end.
Proof.
  intros Hx Ht Htl. cbn [array_loop]. rewrite bool_decide_eq_false_2 by done. rewrite Ht. rewrite bool_decide_eq_false_2 by done.
  pose proof (len_nonneg tl). pose proof (len_nonneg (body s)). pose proof (len_print_string s) as Hl.
  change (index (E:=kvErr) (print_string s ++ tl) 0) with (Ok (E:=kvErr) quote). cbn [mbind outcome_bind].
  rewrite bool_decide_eq_true_2 by done. cbn [negb].
  assert (Hc : closing (drop 1 (print_string s ++ tl)) 1 = Some (1 + len (body s))).
  { unfold print_string. cbn [app]. rewrite <- (assoc_L (++)). apply closing_body. }
  rewrite Hc. replace (1 + len (body s) + 1) with (len (print_string s)) by lia.
  rewrite (slice_Ok _ 0), (slice_Ok _ (len (print_string s))) by (rewrite ?len_app; lia). cbn [mbind outcome_bind].
  rewrite get_app_exact by lia. rewrite parseString_print. cbn [mbind outcome_bind].
  rewrite get_app_r, Z.sub_diag, get_all by (rewrite ?len_app; lia). rewrite Htl.
  destruct tl as [|d rest]; [done|]. rewrite bool_decide_eq_false_2 by done.
  change (index (E:=kvErr) (d :: rest) 0) with (Ok (E:=kvErr) d). cbn [mbind outcome_bind]. case_bool_decide; [|done]. cbn [negb].
  pose proof (len_nonneg rest). rewrite slice_Ok by (rewrite ?len_cons in *; lia). cbn [mbind outcome_bind].
  replace (get (d :: rest) 1 (len (d :: rest) - 1)) with rest; [done|].
  unfold get, len. cbn [length]. replace (Z.to_nat _) with (length rest) by lia. symmetry. apply firstn_all.
Qed.

Lemma solid_comma s l : solid (lit ", " ++ print_items (s :: l)).
Proof.
  destruct (solid_items s l) as (_ & d & _ & u & _ & Hr & _ & Hd). exists (ch ","), d, (ch " " :: print_items (s :: l)), (u ++ [ch " "; ch ","]).
  split_and!; try done. rewrite rev_app_distr, Hr. done.
Qed.

Lemma array_items s l pre fuel : pre = [] \/ pre = [ch " "] -> (length (s :: l) < fuel)%nat ->
  array_loop fuel (pre ++ print_items (s :: l)) = Ok (s :: l).
Proof.
  revert s pre fuel. induction l as [|t l IH]; intros s pre [|fuel] Hp Hf; simpl in Hf; try lia.
  - rewrite (array_step fuel _ s []); [done|by destruct Hp as [-> | ->]| |done].
    rewrite app_nil_r. destruct Hp as [-> | ->]; [apply TrimSpace_solid|apply TrimSpace_before]; apply solid_string.
  - rewrite (array_step fuel _ s (lit ", " ++ print_items (t :: l))).
    + change (lit ", " ++ print_items (t :: l)) with (ch "," :: [ch " "] ++ print_items (t :: l)).
      cbv iota beta. rewrite bool_decide_eq_true_2 by done. rewrite (IH t [ch " "] fuel) by (auto || simpl; lia). done.
    + by destruct Hp as [-> | ->].
    + change (print_string s ++ lit ", " ++ print_items (t :: l)) with (print_items (s :: t :: l)).
      destruct Hp as [-> | ->]; [apply TrimSpace_solid|apply TrimSpace_before]; apply solid_items.
    + apply TrimSpace_solid, solid_comma.
Qed.

Lemma solid_array l : solid (print_array l).
Proof. apply (solid_intro (ch "[") _ (ch "]")); done. Qed.

Lemma length_items l : (length l <= length (print_items l))%nat.
Proof.
  induction l as [|s [|t l] IH]; [done|unfold print_items, print_string; simpl; lia|].
  change (print_items (s :: t :: l)) with (print_string s ++ lit ", " ++ print_items (t :: l)). rewrite !length_app. simpl in *. lia.
Qed.

Lemma parseStringArray_print l : parseStringArray (print_array l) = Ok l.
Proof.
  unfold parseStringArray. rewrite (TrimSpace_solid _ (solid_array l)). unfold print_array. cbn [lit app].
  set (m := print_items l). pose proof (len_nonneg m).
  change (lit "[" ++ m ++ lit "]") with (ch "[" :: m ++ [ch "]"]).
  assert (Hl : len (ch "[" :: m ++ [ch "]"]) = 2 + len m) by (rewrite len_cons, len_app; change (len [ch "]"]) with 1; lia).
  rewrite (proj2 (Z.ltb_ge _ _)) by lia. change (index (E:=kvErr) (ch "[" :: m ++ [ch "]"]) 0) with (Ok (E:=kvErr) (ch "[")).
  cbn [mbind outcome_bind]. rewrite bool_decide_eq_true_2 by done. cbn [negb]. rewrite Hl. replace (2 + len m - 1) with (1 + len m) by lia.
  rewrite index_last. cbn [mbind outcome_bind]. rewrite bool_decide_eq_true_2 by done. cbn [negb].
  rewrite slice_Ok by (rewrite ?Hl; lia). cbn [mbind outcome_bind]. rewrite Z.add_simpl_l, get_inner.
  destruct l as [|s l]; [done|]. rewrite (TrimSpace_solid m) by apply solid_items.
  rewrite bool_decide_eq_false_2 by (apply solid_nonempty, solid_items). apply (array_items s l [] _); [by left|].
  pose proof (length_items (s :: l)). fold m in H0. lia.
Qed.

(** A value as it is printed: no comment in it, nothing to trim. *)
Definition value (v : bytes) : Prop := strip false v = v /\ solid v.

Lemma value_string s : value (print_string s).
Proof. split; [|apply solid_string]. rewrite <- (app_nil_r (print_string s)) at 1. by rewrite strip_string, app_nil_r. Qed.

Lemma value_bool b : value (print_bool b).
Proof. split; [by destruct b|]. destruct b; [apply (solid_intro (ch "t") (lit "ru") (ch "e"))|apply (solid_intro (ch "f") (lit "als") (ch "e"))]; done. Qed.

Lemma strip_items l r : strip false (print_items l ++ r) = print_items l ++ strip false r.
Proof.
  revert r. induction l as [|s [|t l] IH]; intros r; [done|apply strip_string|].
  change (print_items (s :: t :: l)) with (print_string s ++ lit ", " ++ print_items (t :: l)).
  by rewrite <- !(assoc_L (++)), strip_string, strip_plain, IH.
Qed.

Lemma value_array l : value (print_array l).
Proof.
  split; [|apply solid_array]. unfold print_array. rewrite strip_plain, strip_items by done. done.
Qed.

Definition key_char (c : Byte.byte) : bool := (0x61 <=? b2z c) && (b2z c <=? 0x7A) || (b2z c =? 0x5F).
Definition key (k : string) : bool := negb (bool_decide (lit k = [])) && forallb key_char (lit k).

Lemma key_char_spec c : key_char c = true ->
  hard c = true /\ c <> ch "=" /\ c <> ch "[" /\ c <> quote /\ c <> ch "#".
Proof. by destruct c. Qed.

Lemma Cut_key k (c : Byte.byte) s : forallb key_char k = true -> c = ch "=" -> Cut (k ++ lit " = " ++ s) c = Some (k ++ [ch " "], ch " " :: s).
Proof.
  intros Hk ->. induction k as [|d k IH]; [done|]. cbn [forallb] in Hk. apply andb_prop in Hk as [Hd Hk]. apply key_char_spec in Hd as (_ & Hd & _).
  cbn [app Cut]. rewrite bool_decide_eq_false_2 by done. change (lit " = " ++ s) with (lit " = " ++ s) in IH. by rewrite IH.
Qed.

Lemma solid_key k : key k = true -> solid (lit k).
Proof.
  unfold key. intros [Hn Hk]%andb_prop. case_bool_decide as He; [done|].
  destruct (lit k) as [|c t] eqn:E; [done|]. destruct (rev (c :: t)) as [|d u] eqn:Hr.
  { apply (f_equal (@length _)) in Hr. rewrite length_rev in Hr. done. }
  exists c, d, t, u. rewrite forallb_forall in Hk. split_and!; try done.
  - by apply key_char_spec, Hk; left.
  - apply key_char_spec, Hk. apply in_rev. rewrite Hr. by left.
Qed.

Lemma decode_kv f cur k v : key k = true -> value v ->
  decode_line (f, cur) (kv k v) =
    match applyKV f cur (lit k) v with Ok f => Ok (f, cur) | Err e => Err (BadKV e) | Panic => Panic end.
Proof.
  intros Hk [Hv Hs]. assert (Hsk := solid_key k Hk). assert (Hkk := Hk). unfold key in Hkk. apply andb_prop in Hkk as [_ Hkk].
  unfold decode_line, stripComment, kv.
  assert (Hst : strip false (lit k ++ lit " = " ++ v) = lit k ++ lit " = " ++ v).
  { rewrite strip_plain, strip_plain, Hv; [done|done|]. rewrite forallb_forall in Hkk |- *. intros c Hc. apply Hkk, key_char_spec in Hc as (_ & _ & _ & Hq & Hh).
    by rewrite !bool_decide_eq_false_2. }
  rewrite Hst, (TrimSpace_solid _ (solid_app _ _ _ Hsk Hs)).
  assert (Hp : forall p, HasPrefix (lit k ++ lit " = " ++ v) (ch "[" :: p) = false).
  { intros p. destruct Hsk as (c & d & t & u & E & _). rewrite E in Hkk |- *. cbn [forallb] in Hkk. apply andb_prop in Hkk as [Hc _].
    apply key_char_spec in Hc as (_ & _ & Hb & _). unfold HasPrefix. apply bool_decide_eq_false_2. intros H. by injection H as H _. }
  rewrite bool_decide_eq_false_2 by (apply solid_nonempty, solid_app; done).
  change (lit "[[") with (ch "[" :: [ch "["]). change (lit "[") with (ch "[" :: []). rewrite !Hp.
  rewrite (Cut_key _ _ _ Hkk eq_refl), TrimSpace_after, TrimSpace_before by done. by rewrite bool_decide_eq_false_2 by by apply solid_nonempty.
Qed.

(** [runs]: the lines take the reader from one state to another, wherever they stand. *)
Definition runs (st : File * tomlSection) (ls : list bytes) (st' : File * tomlSection) : Prop :=
  forall n, decode_lines st n ls = Ok st'.

Lemma runs_app st1 st2 st3 a b : runs st1 a st2 -> runs st2 b st3 -> runs st1 (a ++ b) st3.
Proof.
  intros Ha Hb. revert st1 Ha. induction a as [|l a IH]; intros st1 Ha n.
  - specialize (Ha n). cbn in Ha. injection Ha as ->. apply Hb.
  - cbn [app decode_lines]. pose proof (Ha n) as H. cbn [decode_lines] in H. destruct (decode_line st1 l) as [st| |] eqn:E; [|done|done].
    apply IH. intros m. specialize (Ha (m - 1)). cbn [decode_lines] in Ha. rewrite E in Ha. by replace (m - 1 + 1) with m in Ha by lia.
Qed.

Lemma runs_line st l st' : decode_line st l = Ok st' -> runs st [l] st'.
Proof. intros H n. cbn [decode_lines]. by rewrite H. Qed.

Lemma runs_kv f cur k v f' : key k = true -> value v -> applyKV f cur (lit k) v = Ok f' -> runs (f, cur) [kv k v] (f', cur).
Proof. intros Hk Hv Ha. apply runs_line. by rewrite decode_kv, Ha. Qed.

Lemma runs_opt {A} f cur k (print : A -> bytes) v f' : key k = true -> (forall a, value (print a)) ->
  match v with Some a => applyKV f cur (lit k) (print a) = Ok f' | None => f' = f end -> runs (f, cur) (opt k print v) (f', cur).
Proof. intros Hk Hv H. destruct v as [a|]; [by apply runs_kv|]. subst. intros n. done. Qed.

Lemma parseBool_print b : parseBool (print_bool b) = Ok b.
Proof. by destruct b. Qed.

Ltac kv_apply :=
  cbn [applyKV]; unfold applyServerKV, applyLogKV, applyShareKV, applyUserKV, update_last; rewrite ?rev_unit;
  repeat match goal with |- context [bool_decide (?a = ?b)] =>
    first [rewrite (bool_decide_eq_true_2 (a = b)) by reflexivity | rewrite (bool_decide_eq_false_2 (a = b)) by discriminate] end;
  rewrite ?parseString_print, ?parseBool_print, ?parseStringArray_print; cbn [mbind outcome_bind]; rewrite ?rev_involutive; reflexivity.
Ltac kv_value := first [apply value_string | apply value_bool | apply value_array].
Ltac opt_step f' :=
  eapply (runs_app _ (f', _)); [apply runs_opt; [done|intros; kv_value|]; match goal with |- match ?v with _ => _ end => destruct v; [kv_apply|reflexivity] end|].
Ltac opt_last := apply runs_opt; [done|intros; kv_value|]; match goal with |- match ?v with _ => _ end => destruct v; [kv_apply|reflexivity] end.
Ltac kv_step f' := eapply (runs_app _ (f', _) _ [_]); [apply runs_kv; [done|kv_value|kv_apply]|].
Ltac kv_last := apply runs_kv; [done|kv_value|kv_apply].

Lemma print_server_runs cur s lo sh us :
  runs (mkFile noServer lo sh us, cur) (print_server s) (mkFile s lo sh us, secServer).
Proof.
  destruct s as [li nb md en si dt sd pp]. unfold print_server. cbn [fListen fNetbios fMDNS fEncryption fSigning fDurableTimeout fStateDir fPerUserPrivdrop].
  apply (runs_app _ (mkFile noServer lo sh us, secServer) _ [_]); [by apply runs_line|]. unfold noServer.
  opt_step (mkFile (mkFServer li None None None None None None None) lo sh us).
  opt_step (mkFile (mkFServer li nb None None None None None None) lo sh us).
  opt_step (mkFile (mkFServer li nb md None None None None None) lo sh us).
  opt_step (mkFile (mkFServer li nb md en None None None None) lo sh us).
  opt_step (mkFile (mkFServer li nb md en si None None None) lo sh us).
  opt_step (mkFile (mkFServer li nb md en si dt None None) lo sh us).
  opt_step (mkFile (mkFServer li nb md en si dt sd None) lo sh us).
  opt_last.
Qed.

Lemma print_log_runs cur s l sh us :
  runs (mkFile s (mkFLog None None) sh us, cur) (print_log l) (mkFile s l sh us, secLog).
Proof.
  destruct l as [le fo]. unfold print_log. cbn [fLevel fFormat].
  apply (runs_app _ (mkFile s (mkFLog None None) sh us, secLog) _ [_]); [by apply runs_line|].
  opt_step (mkFile s (mkFLog le None) sh us). opt_last.
Qed.

Lemma print_share_runs cur s l sh us x :
  runs (mkFile s l sh us, cur) (print_share x) (mkFile s l (sh ++ [x]) us, secShare).
Proof.
  destruct x as [na pa ro gu]. unfold print_share. cbn [fsName fsPath fsReadOnly fsGuestOK].
  apply (runs_app _ (mkFile s l (sh ++ [noShare]) us, secShare) _ [_]); [by apply runs_line|]. unfold noShare.
  kv_step (mkFile s l (sh ++ [mkFShare na [] false false]) us). kv_step (mkFile s l (sh ++ [mkFShare na pa false false]) us).
  kv_step (mkFile s l (sh ++ [mkFShare na pa ro false]) us). kv_last.
Qed.

Lemma print_user_runs cur s l sh us x : fuNTHash x = zeros 16 ->
  runs (mkFile s l sh us, cur) (print_user x) (mkFile s l sh (us ++ [x]), secUser).
Proof.
  destruct x as [na h hx su al]. cbn [fuNTHash]. intros ->. unfold print_user. cbn [fuName fuNTHashHex fuSystemUser fuAllowShares].
  apply (runs_app _ (mkFile s l sh (us ++ [noUser]), secUser) _ [_]); [by apply runs_line|]. unfold noUser.
  kv_step (mkFile s l sh (us ++ [mkFUser na (zeros 16) [] [] None])). kv_step (mkFile s l sh (us ++ [mkFUser na (zeros 16) hx [] None])).
  kv_step (mkFile s l sh (us ++ [mkFUser na (zeros 16) hx su None])). opt_last.
Qed.

Lemma print_lines_runs f : Forall (fun u => fuNTHash u = zeros 16) (fUsers f) ->
  exists cur, runs (noFile, secRoot) (print_lines f) (f, cur).
Proof.
  destruct f as [s l sh us]. cbn [fUsers]. intros Hu. unfold print_lines. cbn [fServer fLog fShares fUsers].
  assert (Hs : forall cur sh0, exists cur', runs (mkFile s l sh0 [], cur) (concat (map print_share sh)) (mkFile s l (sh0 ++ sh) [], cur')).
  { clear Hu. induction sh as [|x sh IH]; intros cur sh0; [exists cur; rewrite app_nil_r; by intros n|].
    destruct (IH secShare (sh0 ++ [x])) as [cur' H]. exists cur'. cbn [map concat]. rewrite <- (assoc_L (++)) in H. eapply runs_app; [apply print_share_runs|exact H]. }
  assert (Hus : forall cur us0, exists cur', runs (mkFile s l sh us0, cur) (concat (map print_user us)) (mkFile s l sh (us0 ++ us), cur')).
  { induction Hu as [|x us Hx _ IH]; intros cur us0; [exists cur; rewrite app_nil_r; by intros n|].
    destruct (IH secUser (us0 ++ [x])) as [cur' H]. exists cur'. cbn [map concat]. rewrite <- (assoc_L (++)) in H. eapply runs_app; [by apply print_user_runs|exact H]. }
  destruct (Hs secLog []) as [c1 H1], (Hus c1 []) as [c2 H2]. exists c2.
  eapply runs_app; [apply print_server_runs|]. eapply runs_app; [apply print_log_runs|]. eapply runs_app; [exact H1|exact H2].
Qed.

(** The lines of the content. *)
Lemma Split_line l r : Forall (fun c => c <> z2b 10) l -> Split (l ++ z2b 10 :: r) (z2b 10) = l :: Split r (z2b 10).
Proof.
  induction 1 as [|c l Hc _ IH]; [done|]. cbn [app Split]. rewrite bool_decide_eq_false_2 by done. by rewrite IH.
Qed.

Lemma raw_lines_concat ls : Forall (Forall (fun c => c <> z2b 10)) ls ->
  raw_lines (concat (map (fun l => l ++ [z2b 10]) ls)) = ls.
Proof.
  intros Hf. unfold raw_lines. assert (Hs : Split (concat (map (fun l => l ++ [z2b 10]) ls)) (z2b 10) = ls ++ [[]]).
  { induction Hf as [|l ls Hl _ IH]; [done|]. cbn [map concat]. rewrite <- (assoc_L (++)). cbn [app]. rewrite Split_line by done. by rewrite IH. }
  rewrite Hs, rev_unit. apply rev_involutive.
Qed.

Lemma take_while_all P ls : Forall (fun l => P l = true) ls -> take_while P ls = (ls, true).
Proof. induction 1 as [|l ls Hl _ IH]; [done|]. cbn [take_while]. by rewrite Hl, IH. Qed.

(** Printed lines hold neither a newline nor a carriage return. *)
Definition flat (l : bytes) : Prop := Forall (fun c => c <> z2b 10 /\ c <> z2b 13) l.

Lemma flat_body s : flat (body s).
Proof.
  induction s as [|c s IH]; [by constructor|]. unfold body. cbn [map concat]. apply Forall_app. split; [|exact IH].
  unfold esc. repeat case_bool_decide; repeat constructor; done.
Qed.

Lemma flat_string s : flat (print_string s).
Proof. constructor; [done|]. apply Forall_app. split; [apply flat_body|by repeat constructor]. Qed.

Lemma flat_bool b : flat (print_bool b).
Proof. destruct b; by repeat constructor. Qed.

Lemma flat_items l : flat (print_items l).
Proof.
  induction l as [|s [|t l] IH]; [by constructor|apply flat_string|].
  change (print_items (s :: t :: l)) with (print_string s ++ lit ", " ++ print_items (t :: l)).
  repeat (apply Forall_app; split); [apply flat_string|by repeat constructor|exact IH].
Qed.

Lemma flat_array l : flat (print_array l).
Proof. repeat (apply Forall_app; split); [by repeat constructor|apply flat_items|by repeat constructor]. Qed.

Lemma flat_kv k v : key k = true -> flat v -> flat (kv k v).
Proof.
  intros Hk Hv. repeat (apply Forall_app; split); [|by repeat constructor|done].
  apply andb_prop in Hk as [_ Hk]. rewrite forallb_forall in Hk. apply Forall_forall. intros c Hc%list_elem_of_In%Hk. by destruct c.
Qed.

Lemma flat_opt {A} k (print : A -> bytes) v : key k = true -> (forall a, flat (print a)) -> Forall flat (opt k print v).
Proof. intros Hk Hf. destruct v; [|by constructor]. constructor; [by apply flat_kv|by constructor]. Qed.

#[local] Hint Resolve flat_string flat_bool flat_array : core.

Lemma flat_lines f : Forall flat (print_lines f).
Proof.
  unfold print_lines. repeat (apply Forall_app; split).
  - unfold print_server. constructor; [by repeat constructor|]. repeat (apply Forall_app; split); by apply flat_opt.
  - unfold print_log. constructor; [by repeat constructor|]. repeat (apply Forall_app; split); by apply flat_opt.
  - apply Forall_concat, Forall_map, Forall_true. intros s. unfold print_share. repeat (constructor; [first [by apply flat_kv|by repeat constructor]|]). by constructor.
  - apply Forall_concat, Forall_map, Forall_true. intros u. unfold print_user. apply Forall_app. split; [|by apply flat_opt].
    repeat (constructor; [first [by apply flat_kv|by repeat constructor]|]). by constructor.
Qed.

(** The configuration file round trip: whatever strings, booleans and arrays
    an operator's configuration holds, quotes, backslashes, comment signs,
    newlines and blanks included, the file that spells it is read back as
    exactly that configuration, and a key that was left out as absent - so an
    empty [allow_shares] is never mistaken for a missing one. *)
Theorem toml_roundtrip (f : File) :
  Forall (fun u => fuNTHash u = zeros 16) (fUsers f) -> Forall (fun l => len l < MaxScanTokenSize) (print_lines f) ->
  decodeTOML (print_file f) = Ok f.
Proof.
  intros Hu Hl. unfold decodeTOML, print_file. pose proof (flat_lines f) as Hf.
  rewrite raw_lines_concat by (eapply Forall_impl; [exact Hf|]; intros l H; eapply Forall_impl; [exact H|]; by intros ? []).
  rewrite take_while_all by (eapply Forall_impl; [exact Hl|]; intros l H; unfold fits_buffer; by apply Z.ltb_lt).
  assert (Hm : map dropCR (print_lines f) = print_lines f).
  { clear Hl. induction Hf as [|l ls Hfl _ IH]; [done|]. cbn [map]. rewrite IH. f_equal. unfold dropCR. destruct (rev l) as [|c r] eqn:Hr; [done|].
    rewrite bool_decide_eq_false_2; [done|]. intros ->. assert (Hin : z2b 13 ∈ l) by (apply list_elem_of_In, in_rev; rewrite Hr; by left).
    unfold flat in Hfl. rewrite Forall_forall in Hfl. by destruct (Hfl _ Hin). }
  rewrite Hm. destruct (print_lines_runs f Hu) as [cur Hr]. by rewrite (Hr 1).
Qed.

Definition ex_file : File :=
  mkFile (mkFServer (Some (lit ":445")) None (Some false) None None None (Some (lit " a#b\")) None) (mkFLog (Some (lit "warn")) None)
    [mkFShare (lit "work") (lit "/srv") true false]
    [mkFUser (lit "ann") (zeros 16) (lit "00ff") [] (Some []); mkFUser [quote; z2b 10] (zeros 16) [] [] (Some [lit "a, b"; []])].

Lemma toml_roundtrip_witness : decodeTOML (print_file ex_file) = Ok ex_file.
Proof. apply toml_roundtrip; repeat constructor; done. Defined.

(** ** A validated configuration is well formed *)

Section WellFormed.
Context (ToLower : bytes -> bytes) (isDir : bytes -> option bool) (getuid getgid : Z) (lookup : bytes -> option (bytes * bytes)).

Record well_formed (c : config) : Prop := {
  wf_listen : exists hp, SplitHostPort (Listen (Server c)) = Some hp;
  wf_encryption : Encryption (Server c) ∈ [EncryptionRequired; EncryptionPreferred; EncryptionOff];
  wf_signing : Signing (Server c) ∈ [SigningRequired; SigningPreferred];
  wf_netbios : Netbios (Server c) = false;
  wf_shares : Forall (fun s => sName s <> [] /\ sName s <> lit "." /\ sName s <> lit ".." /\ isDir (sPath s) = Some true) (Shares c);
  wf_share_names : NoDup (map (fun s => ToLower (sName s)) (Shares c));
  wf_users : Forall (fun u => uName u <> [] /\ NTHash u <> zeros 16) (Users c);
  wf_user_names : NoDup (map (fun u => ToLower (uName u)) (Users c)) }.

Lemma validate_shares_wf i seen ss : validate_shares ToLower isDir i seen ss = Ok () ->
  Forall (fun s => sName s <> [] /\ sName s <> lit "." /\ sName s <> lit ".." /\ isDir (sPath s) = Some true) ss /\
  NoDup (map (fun s => ToLower (sName s)) ss) /\ Forall (fun s => ToLower (sName s) ∉ seen) ss.
Proof.
  revert i seen. induction ss as [|s ss IH]; intros i seen; [by repeat constructor|]. cbn [validate_shares].
  case_bool_decide; [done|]. case_bool_decide; [done|]. case_bool_decide; [done|]. cbn [orb]. case_bool_decide; [done|].
  destruct (isDir (sPath s)) as [[]|] eqn:Hd; [|done|done]. intros (Q1 & Q2 & Q3)%IH.
  assert (Hn : Forall (fun s' => (ToLower (sName s') ∉ seen) /\ ToLower (sName s') <> ToLower (sName s)) ss).
  { eapply Forall_impl; [exact Q3|]. cbn. intros x. rewrite elem_of_union, elem_of_singleton. tauto. }
  split_and!.
  - by constructor.
  - cbn [map]. constructor; [|done]. intros (x & Hx & Hin)%list_elem_of_fmap. rewrite Forall_forall in Hn. apply Hn in Hin as [_ ?]. congruence.
  - constructor; [done|]. eapply Forall_impl; [exact Hn|]. by intros ? [].
Qed.

Lemma validate_users_wf i seen us us' : validate_users ToLower getuid getgid lookup i seen us = Ok us' ->
  Forall (fun u => uName u <> [] /\ NTHash u <> zeros 16) us' /\
  NoDup (map (fun u => ToLower (uName u)) us') /\ Forall (fun u => ToLower (uName u) ∉ seen) us' /\
  map (fun u => (uName u, NTHash u, SystemUser u, AllowShares u)) us' = map (fun u => (uName u, NTHash u, SystemUser u, AllowShares u)) us.
Proof.
  revert i seen us'. induction us as [|u us IH]; intros i seen us'; [intros [= <-]; by repeat constructor|]. cbn [validate_users].
  case_bool_decide; [done|]. case_bool_decide; [done|]. case_bool_decide; [done|].
  intros (ids & _ & (r & (Q1 & Q2 & Q3 & Q4)%IH & [= <-])%bind_Ok_inv)%bind_Ok_inv.
  assert (Hn : Forall (fun u' => (ToLower (uName u') ∉ seen) /\ ToLower (uName u') <> ToLower (uName u)) r).
  { eapply Forall_impl; [exact Q3|]. cbn. intros x. rewrite elem_of_union, elem_of_singleton. tauto. }
  split_and!.
  - by constructor.
  - cbn [map uName]. constructor; [|done]. intros (x & Hx & Hin)%list_elem_of_fmap. rewrite Forall_forall in Hn. apply Hn in Hin as [_ ?]. congruence.
  - constructor; [done|]. eapply Forall_impl; [exact Hn|]. by intros ? [].
  - cbn [map uName NTHash SystemUser AllowShares]. by rewrite Q4.
Qed.

(** C38: A configuration the server starts with is well formed: an address to
    listen on, known encryption and signing modes, every share an existing
    directory under a usable name, no two shares and no two users whose names
    agree in lower case, and no account without a credential - an all-zero hash,
    which anybody could answer for, never gets through.  Validation changes
    nothing but the users' system ids. *)
Theorem validate_well_formed (cfg cfg' : config) :
  Validate ToLower isDir getuid getgid lookup cfg = Ok cfg' ->
  well_formed cfg' /\ Server cfg' = Server cfg /\ Log cfg' = Log cfg /\ Shares cfg' = Shares cfg /\
  map (fun u => (uName u, NTHash u, SystemUser u, AllowShares u)) (Users cfg') =
  map (fun u => (uName u, NTHash u, SystemUser u, AllowShares u)) (Users cfg).
Proof.
  unfold Validate. case_bool_decide as Hl; [done|]. do 4 (case_bool_decide; [|done]). cbn [negb]. destruct (Netbios (Server cfg)) eqn:Hn; [done|].
  intros ([] & (S1 & S2 & _)%validate_shares_wf & (us & (U1 & U2 & _ & U3)%validate_users_wf & [= <-])%bind_Ok_inv)%bind_Ok_inv.
  split; [|done]. constructor; cbn [Server Shares Users]; try done. destruct (SplitHostPort _) as [hp|]; [by exists hp|done].
Qed.

End WellFormed.

Definition ex_config : config :=
  mkConfig (Server Defaults) (Log Defaults) [mkShare (lit "work") (lit "/srv") false false]
    [mkUser (lit "ann") (replicate 16 Byte.x07) (lit "1000/100") 0 0 [lit "*"]].

Lemma validate_well_formed_witness : exists cfg', Validate id (fun _ => Some true) 0 0 (fun _ => None) ex_config = Ok cfg' /\
  well_formed id (fun _ => Some true) cfg'.
Proof.
  eexists. split; [vm_compute; reflexivity|].
  refine (proj1 (validate_well_formed id (fun _ => Some true) 0 0 (fun _ => None) ex_config _ _)). vm_compute. reflexivity.
Defined.

(** ** [userdb.go]: the in-memory database *)

Record User := mkDBUser { dbName : bytes; dbHash : bytes; dbSystemUser : bytes; dbShares : list bytes }.
Section DB.
Context (ToLower : bytes -> bytes) (MD4 : bytes -> bytes).

Definition AddHash (db : gmap bytes User) (name hash systemUser : bytes) (shares : list bytes) : option (gmap bytes User) :=
  let k := ToLower name in
  match db !! k with
  | Some _ => None
  | None => Some (<[k := mkDBUser name hash systemUser (if bool_decide (shares = []) then [lit "*"] else shares)]> db)
  end.
Definition AddPlaintext (db : gmap bytes User) (name password systemUser : bytes) (shares : list bytes) : option (gmap bytes User) :=
  AddHash db name (MD4 (Names.utf16leDomain password)) systemUser shares.
Definition Lookup (db : gmap bytes User) (name : bytes) : option User := db !! ToLower name.
Definition Len (db : gmap bytes User) : Z := Z.of_nat (size db).

Theorem userdb_lookup (db db' : gmap bytes User) (name hash su : bytes) (shares : list bytes) (n : bytes) :
  AddHash db name hash su shares = Some db' ->
  Lookup db' n = (if bool_decide (ToLower n = ToLower name)
                  then Some (mkDBUser name hash su (if bool_decide (shares = []) then [lit "*"] else shares)) else Lookup db n) /\
  Len db' = Len db + 1.
Proof.
  unfold AddHash, Lookup, Len. destruct (db !! ToLower name) eqn:Hd; [done|]. intros [= <-]. split.
  - destruct (decide (ToLower n = ToLower name)) as [Hn|Hn];
      [rewrite (bool_decide_eq_true_2 _ Hn), Hn; apply lookup_insert_eq|rewrite (bool_decide_eq_false_2 _ Hn); by apply lookup_insert_ne].
  - rewrite map_size_insert_None by done. lia.
Qed.
End DB.

End Config.
