(* ===== verification/SessionSetup.v ===== *)
(** SESSION_SETUP: the multi-leg NTLM exchange of [internal/parent/session.go]
    ([HandleSessionSetup], [handleType1], [handleType3], [verifyMIC],
    [failAuth], [closePreviousSession]) and [closeSession] of
    [sessionindex.go].

    The hash functions, the case folding and the ciphers are parameters, and so
    are the draws of the random source, the clock, the account database's
    "nobody" and whether a frame could be written. *)

From S2P Require Import Prelude Smb2 Utf Requests Config Sessions Smb3 Frames Spnego Negotiate Ntlm Dispatch.
Import Smb2.Const.

Module Setup.

(** [Session]: the handshake, the keys and the identity; the trees and handles
    are those of [Sessions.v]. *)
Record session := mkSession {
  ID : Z; User : Config.UserConfig; IsGuest : bool;
  SigningKey : bytes; S2CCipherKey : bytes; C2SCipherKey : bytes; ApplicationKey : bytes;
  Authenticated : bool; gotEncrypted : bool; pendingChallenge : bytes;
  preauth : option bytes; ntlmNegotiate : bytes; ntlmChallenge : bytes; tables : Session.Session }.

Definition noUser : Config.UserConfig := Config.mkUser [] (zeros 16) [] 0 0 [].
Definition newSession (id : Z) : session :=
  mkSession id noUser false [] [] [] [] false false (zeros 8) None [] [] Session.newSession.

Definition set_preauth (s : session) (p : bytes) : session :=
  mkSession (ID s) (User s) (IsGuest s) (SigningKey s) (S2CCipherKey s) (C2SCipherKey s) (ApplicationKey s) (Authenticated s)
    (gotEncrypted s) (pendingChallenge s) (Some p) (ntlmNegotiate s) (ntlmChallenge s) (tables s).
Definition set_handshake (s : session) (challenge type1 type2 p : bytes) : session :=
  mkSession (ID s) (User s) (IsGuest s) (SigningKey s) (S2CCipherKey s) (C2SCipherKey s) (ApplicationKey s) (Authenticated s)
    (gotEncrypted s) challenge (Some p) type1 type2 (tables s).
Definition set_identity (s : session) (u : Config.UserConfig) (guest : bool) (sign s2c c2s app : bytes) : session :=
  mkSession (ID s) u guest sign s2c c2s app true (gotEncrypted s) (pendingChallenge s) (preauth s) [] [] (tables s).
Definition set_tables (s : session) (t : Session.Session) : session :=
  mkSession (ID s) (User s) (IsGuest s) (SigningKey s) (S2CCipherKey s) (C2SCipherKey s) (ApplicationKey s) (Authenticated s)
    (gotEncrypted s) (pendingChallenge s) (preauth s) (ntlmNegotiate s) (ntlmChallenge s) t.

(** The session as the server-wide index and as the dispatcher see it. *)
Definition index_entry (s : session) : SessionIndex.session :=
  SessionIndex.mkSess (ID s) (Authenticated s) (IsGuest s) (Config.uName (User s)).
Definition info (s : session) : Dispatch.sessInfo :=
  Dispatch.mkSess (ID s) (Authenticated s) (IsGuest s) (SigningKey s) (C2SCipherKey s) (S2CCipherKey s) (gotEncrypted s).

(** What a SESSION_SETUP reads and writes: this connection's session table, the
    process-wide counter and the server-wide index, with the handles a closed
    previous session gave up and the closes asked of other connections. *)
Record world := mkWorld {
  table : SessionTable.SessionTable; ctr : Z; sessions : gmap Z session; index : SessionIndex.SessionIndex;
  released : list Session.Open; remote : list SessionIndex.sessionIndexEntry }.

Definition Get (w : world) (id : Z) : option session :=
  if SessionTable.GetSession (table w) id then sessions w !! id else None.
Definition put (w : world) (s : session) : world :=
  mkWorld (table w) (ctr w) (<[ID s := s]> (sessions w)) (index w) (released w) (remote w).

(** What one exchange draws from outside. *)
Record draws := mkDraws { rnd : option bytes; now : Z; written : bool; nobody : option (Z * Z) }.

Inductive setupErr :=
  | BadRequest (e : err) | BadToken (e : err) | NtlmTooShort | UnexpectedType (t : Z) | TooManyHalfOpen | RandFailed | WriteFailed
  | EncodeFailed (e : err) | UnknownSession | BadAuthenticate (e : Ntlm.ntlmErr) | UnknownUser | BadProof
  | MICFieldMissing | MICNoHandshake | MICMismatch.

Record SessionSetupHandler := mkHandler {
  Conn : Negotiate.Connection; Users : list Config.UserConfig; Shares : list Config.ShareConfig; RequireEncryption : bool;
  Host : SessionIndex.sessionHost }.

Definition hasGuestShare (h : SessionSetupHandler) : bool := existsb Config.GuestOK (Shares h).

Definition guestSystemUser (nobody : option (Z * Z)) : Config.UserConfig :=
  let '(uid, gid) := match nobody with Some ids => ids | None => (65534, 65534) end in
  Config.mkUser (Config.lit "guest") (zeros 16) (Config.lit "nobody") uid gid [Config.lit "*"].

Definition forkPreauth (base : bytes) : bytes := base.

Section Handler.
Context (HMAC_MD5 : bytes -> bytes -> bytes) (ToUpper : bytes -> bytes) (fold : Z -> Z) (SHA512 : bytes -> bytes).
Context (AES HMAC : bytes -> bytes -> bytes) (GCMSeal : bytes -> bytes -> bytes -> bytes -> bytes).
Context (h : SessionSetupHandler).

Definition dialect : Z := Negotiate.Dialect (Negotiate.cSelection (Conn h)).
Definition cipher : Z := Negotiate.Cipher (Negotiate.cSelection (Conn h)).
Definition signingAlgo : Z := Negotiate.SigningAlgo (Negotiate.cSelection (Conn h)).

Definition challengeFlags : Z :=
  fold_right Z.lor 0 [Ntlm.NegotiateUnicode; Ntlm.NegotiateNTLM; Ntlm.NegotiateExtendedSessionSecurity; Ntlm.NegotiateTargetInfo;
    Ntlm.NegotiateAlwaysSign; Ntlm.RequestTarget; Ntlm.TargetTypeServer; Ntlm.Negotiate128; Ntlm.Negotiate56;
    Ntlm.NegotiateKeyExch; Ntlm.NegotiateVersion; Ntlm.NegotiateSign].

Definition challenge_message (challenge : bytes) (now : Z) : Ntlm.ChallengeMessage :=
  Ntlm.mkChallenge (Config.lit "GOSAMBA") challengeFlags challenge
    [Ntlm.mkAV Ntlm.AVNbComputerName (Names.UTF16LE (Config.lit "GOSAMBA"));
     Ntlm.mkAV Ntlm.AVNbDomainName (Names.UTF16LE (Config.lit "WORKGROUP"));
     Ntlm.mkAV Ntlm.AVDnsComputerName (Names.UTF16LE (Config.lit "gosamba"));
     Ntlm.mkAV Ntlm.AVDnsDomainName (Names.UTF16LE (Config.lit "workgroup"));
     Ntlm.mkAV Ntlm.AVTimestamp (le64 now)].

Definition respHeader (hdr : Header.Header) (status flags sid : Z) : Header.Header :=
  Header.mkHeader (Header.CreditCharge hdr) status CommandSessionSetup
    (Credits.grantCredits (Header.CreditCharge hdr) (Header.CreditResponse hdr)) flags 0 (Header.MessageID hdr) 0 sid (zeros 16).

Definition message (hd : Header.Header) (body : bytes) : outcome setupErr bytes :=
  Negotiate.map_err EncodeFailed (Negotiate.full_message hd body).

(** The state afterwards, the frames written, and the outcome: [Ok None] for a
    handshake under way, [Ok (Some id)] for a session that is up. *)
Definition result : Type := world * list bytes * outcome setupErr (option Z).

Definition handleType1 (w : world) (d : draws) (hdr : Header.Header) (type1 requestFrame : bytes) : result :=
  let '(t, c, oid) := SessionTable.NewHalfOpen (table w) (ctr w) in
  match oid with
  | None => (w, [], Err TooManyHalfOpen)
  | Some id =>
      let sess := newSession id in
      let w := put (mkWorld t c (sessions w) (index w) (released w) (remote w)) sess in
      match rnd d with
      | None => (w, [], Err RandFailed)
      | Some challenge =>
          let type2 := Ntlm.EncodeChallenge (challenge_message challenge (now d)) in
          let spnego := Spnego.WrapNTLMResp Spnego.SPNEGOAcceptIncomplete type2 in
          let body := SessionSetup.EncodeSessionSetupResponse 0 spnego in
          match message (respHeader hdr StatusMoreProcessingReq FlagServerToRedir id) body with
          | Ok full =>
              let p := Negotiate.Update SHA512 (Negotiate.Update SHA512 (forkPreauth (Negotiate.cPreauth (Conn h))) requestFrame) full in
              let w := put w (set_handshake sess challenge type1 type2 p) in
              if written d then (w, [full], Ok None) else (w, [], Err WriteFailed)
          | Err e => (w, [], Err e)
          | Panic => (w, [], Panic)
          end
      end
  end.

(** The refusal's response goes out whatever else fails; the cause is returned. *)
Definition failAuth (w : world) (d : draws) (hdr : Header.Header) (cause : setupErr) : result :=
  match message (respHeader hdr StatusLogonFailure FlagServerToRedir (Header.SessionID hdr)) (z2b 9 :: zeros 8) with
  | Ok full => (w, if written d then [full] else [], Err cause)
  | _ => (w, [], Err cause)
  end.

Definition find_user (name : bytes) : option Config.UserConfig :=
  match filter (fun u => SessionIndex.EqualFold fold (Config.uName u) name = true) (Users h) with u :: _ => Some u | [] => None end.

Definition verifyMIC (sess : session) (auth : Ntlm.AuthenticateMessage) (type3 exportedSessionKey : bytes) : outcome setupErr () :=
  if negb (Ntlm.MICRequired (Ntlm.NtResponse auth)) then Ok () else
  if negb (Ntlm.HasMIC auth) then Err MICFieldMissing else
  if bool_decide (ntlmNegotiate sess = []) || bool_decide (ntlmChallenge sess = []) then Err MICNoHandshake else
  n ← Negotiate.map_err BadAuthenticate (Ntlm.AuthenticateLen type3);
  authMsg ← slice type3 0 n;
  if Ntlm.VerifyMIC HMAC_MD5 exportedSessionKey (ntlmNegotiate sess) (ntlmChallenge sess) authMsg (Ntlm.MIC auth)
  then Ok () else Err MICMismatch.

Definition kdf (key label context : bytes) (L : Z) : bytes := default [] (Smb3.KDF HMAC key label context L).
Definition str0 (s : bytes) : bytes := s ++ [Byte.x00].

(** The keys of the dialect: signing, server to client, client to server,
    application; what the session has is kept where the dialect has none. *)
Definition deriveKeys (sess : session) (sessionKey : bytes) : bytes * bytes * bytes * bytes :=
  if dialect =? Negotiate.Dialect311 then
    let p := default (zeros 64) (preauth sess) in
    let cipherBits := Smb3.CipherKeyBits cipher in
    (kdf sessionKey (str0 (Config.lit "SMBSigningKey")) p 128, kdf sessionKey (str0 (Config.lit "SMBS2CCipherKey")) p cipherBits,
     kdf sessionKey (str0 (Config.lit "SMBC2SCipherKey")) p cipherBits, kdf sessionKey (str0 (Config.lit "SMBAppKey")) p 128)
  else if (dialect =? Negotiate.Dialect300) || (dialect =? Negotiate.Dialect302) then
    (kdf sessionKey (str0 (Config.lit "SMB2AESCMAC")) (str0 (Config.lit "SmbSign")) 128,
     kdf sessionKey (str0 (Config.lit "SMB2AESCCM")) (str0 (Config.lit "ServerOut")) 128,
     kdf sessionKey (str0 (Config.lit "SMB2AESCCM")) (str0 (Config.lit "ServerIn ")) 128,
     kdf sessionKey (str0 (Config.lit "SMB2APP")) (str0 (Config.lit "SmbRpc")) 128)
  else (sessionKey, S2CCipherKey sess, C2SCipherKey sess, ApplicationKey sess).

(** The key the client exported: its own, sent under the session base key, or
    that key itself. *)
Definition exportedKey (auth : Ntlm.AuthenticateMessage) (sbk : bytes) : bytes :=
  if negb (Z.land (Ntlm.Flags auth) Ntlm.NegotiateKeyExch =? 0) && (len (Ntlm.EncryptedRandomSessionKey auth) =? 16)
  then Ntlm.rc4xor sbk (Ntlm.EncryptedRandomSessionKey auth) else sbk.

(** [closeSession], on the connection that owns the session. *)
Definition closeSession (w : world) (e : SessionIndex.sessionIndexEntry) : world :=
  let id := SessionIndex.ID (SessionIndex.sess e) in
  if SessionIndex.host_id (SessionIndex.host e) =? SessionIndex.host_id (Host h) then
    match sessions w !! id with
    | Some s =>
        let '(t, os) := Session.TakeAllOpens (tables s) in
        mkWorld (SessionTable.RemoveSession (table w) id) (ctr w) (<[id := set_tables s t]> (sessions w)) (index w) (released w ++ os) (remote w)
    | None => mkWorld (SessionTable.RemoveSession (table w) id) (ctr w) (sessions w) (index w) (released w) (remote w)
    end
  else mkWorld (table w) (ctr w) (sessions w) (index w) (released w) (remote w ++ [e]).

Definition closePreviousSession (w : world) (prevID : Z) (sess : session) : world :=
  let '(idx, victim) := SessionIndex.supersede fold (index w) prevID (index_entry sess) (Negotiate.cClientGuid (Conn h)) in
  let w := mkWorld (table w) (ctr w) (sessions w) idx (released w) (remote w) in
  match victim with Some e => closeSession w e | None => w end.

(** After the client has proved who it is: the session is set up, the previous
    one closed, and the answer sent. *)
Definition complete (w : world) (d : draws) (hdr : Header.Header) (prevID : Z) (sess : session) (user : Config.UserConfig)
    (isGuest : bool) (keys : bytes * bytes * bytes * bytes) : result :=
  let '(sk, s2c, c2s, app) := keys in
  let sess := set_identity sess user isGuest sk s2c c2s app in
  let w := put w sess in
  let w := mkWorld (SessionTable.MarkAuthenticated (table w) (ID sess)) (ctr w) (sessions w) (SessionIndex.register (index w) (index_entry sess) (Host h))
             (released w) (remote w) in
  let w := closePreviousSession w prevID sess in
  let sessFlags := if isGuest then SessionSetup.SessionFlagIsGuest else
                   if RequireEncryption h && negb (cipher =? 0) then SessionSetup.SessionFlagEncryptData else 0 in
  let body := SessionSetup.EncodeSessionSetupResponse sessFlags (Spnego.WrapNTLMResp Spnego.SPNEGOAcceptCompleted []) in
  let hdrFlags := if isGuest then FlagServerToRedir else Z.lor FlagServerToRedir FlagSigned in
  match message (respHeader hdr StatusSuccess hdrFlags (ID sess)) body with
  | Ok full =>
      let full := if isGuest then full else Smb3.SignMessage AES HMAC GCMSeal signingAlgo (SigningKey sess) full in
      if written d then (w, [full], Ok (Some (ID sess))) else (w, [], Err WriteFailed)
  | Err e => (w, [], Err e)
  | Panic => (w, [], Panic)
  end.

Definition handleType3 (w : world) (d : draws) (hdr : Header.Header) (type3 requestFrame : bytes) (prevSessionID : Z) : result :=
  match Get w (Header.SessionID hdr) with
  | None => (w, [], Err UnknownSession)
  | Some sess =>
      match Ntlm.DecodeAuthenticate type3 with
      | Panic => (w, [], Panic)
      | Err e => (w, [], Err (BadAuthenticate e))
      | Ok auth =>
          let known := find_user (Ntlm.UserName auth) in
          let anonymous := bool_decide (Ntlm.UserName auth = []) || SessionIndex.EqualFold fold (Ntlm.UserName auth) (Config.lit "GUEST") in
          let who := match known with
            | Some u => Some (u, false)
            | None => if anonymous && hasGuestShare h then Some (guestSystemUser (nobody d), true) else None end in
          match who with
          | None => failAuth w d hdr UnknownUser
          | Some (user, isGuest) =>
              let p := match preauth sess with Some p => p | None => forkPreauth (Negotiate.cPreauth (Conn h)) end in
              let p := if dialect =? Negotiate.Dialect311 then Negotiate.Update SHA512 p requestFrame else p in
              let sess := set_preauth sess p in
              let w := put w sess in
              if isGuest then complete w d hdr prevSessionID sess user true (SigningKey sess, S2CCipherKey sess, C2SCipherKey sess, ApplicationKey sess)
              else
                match Ntlm.VerifyNTLMv2 HMAC_MD5 ToUpper (Config.NTHash user) (Ntlm.UserName auth) (Ntlm.DomainName auth)
                        (pendingChallenge sess) (Ntlm.NtResponse auth) with
                | None => failAuth w d hdr BadProof
                | Some sbk =>
                    let sessionKey := exportedKey auth sbk in
                    match verifyMIC sess auth type3 sessionKey with
                    | Panic => (w, [], Panic)
                    | Err e => failAuth w d hdr e
                    | Ok () => complete w d hdr prevSessionID sess user false (deriveKeys sess sessionKey)
                    end
                end
          end
      end
  end.

Definition HandleSessionSetup (w : world) (d : draws) (hdr : Header.Header) (body fullRequestFrame : bytes) : result :=
  match SessionSetup.DecodeSessionSetupRequest body with
  | Panic => (w, [], Panic)
  | Err e => (w, [], Err (BadRequest e))
  | Ok req =>
      match Spnego.UnwrapNTLM (SessionSetup.SecurityBuffer req) with
      | Panic => (w, [], Panic)
      | Err e => (w, [], Err (BadToken e))
      | Ok ntlmMsg =>
          if len ntlmMsg <? 12 then (w, [], Err NtlmTooShort) else
          let msgType := le_combine (get ntlmMsg 8 4) in
          if msgType =? Ntlm.MessageTypeNegotiate then handleType1 w d hdr ntlmMsg fullRequestFrame else
          if msgType =? Ntlm.MessageTypeAuthenticate
          then handleType3 w d hdr ntlmMsg fullRequestFrame (SessionSetup.PreviousSessionID req)
          else (w, [], Err (UnexpectedType msgType))
      end
  end.


(** ** The invariant of the tables *)

Record wf (w : world) : Prop := {
  wf_keys : forall id s, sessions w !! id = Some s -> ID s = id /\ 1 <= id <= ctr w;
  wf_table : forall id, id ∈ SessionTable.byID (table w) -> is_Some (sessions w !! id);
  wf_index : forall id e, index w !! id = Some e -> SessionIndex.ID (SessionIndex.sess e) = id;
  wf_ctr : 0 <= ctr w }.

Lemma message_ok hd body : len (Header.Signature hd) = 16 -> exists full, message hd body = Ok full.
Proof. intros H. unfold message. destruct (Negotiate.full_message_ok hd body H) as (full & -> & _). by exists full. Qed.

Lemma Get_Some w id s : Get w id = Some s <-> id ∈ SessionTable.byID (table w) /\ sessions w !! id = Some s.
Proof. unfold Get, SessionTable.GetSession. case_bool_decide; naive_solver. Qed.

Lemma Get_put w s id : ID s ∈ SessionTable.byID (table w) -> Get (put w s) id = if bool_decide (id = ID s) then Some s else Get w id.
Proof.
  intros Hin. unfold Get, put, SessionTable.GetSession. cbn [table sessions]. destruct (decide (id = ID s)) as [->|H].
  - rewrite !bool_decide_eq_true_2 by done. by rewrite lookup_insert_eq.
  - rewrite (bool_decide_eq_false_2 (id = ID s)) by done. destruct (bool_decide (id ∈ _)); [|done]. by rewrite lookup_insert_ne.
Qed.

Lemma wf_put w s : wf w -> ID s ∈ SessionTable.byID (table w) -> wf (put w s).
Proof.
  intros [Hk Ht Hi Hc] Hin. destruct (Ht _ Hin) as [s0 Hs0]. apply Hk in Hs0 as [_ Hr]. constructor; cbn [put sessions table index ctr]; try done.
  - intros id s' [[<- <-]|[_ H]]%lookup_insert_Some; [done|by apply Hk].
  - intros id Hid. destruct (decide (id = ID s)) as [->|]; [rewrite lookup_insert_eq; by eexists|rewrite lookup_insert_ne by done; by apply Ht].
Qed.

(** Closing an indexed session removes that one session of this connection and
    no other. *)
Lemma closeSession_spec w e : wf w ->
  wf (closeSession w e) /\ index (closeSession w e) = index w /\ ctr (closeSession w e) = ctr w /\
  (forall id, id <> SessionIndex.ID (SessionIndex.sess e) -> Get (closeSession w e) id = Get w id) /\
  (Get (closeSession w e) (SessionIndex.ID (SessionIndex.sess e)) = Get w (SessionIndex.ID (SessionIndex.sess e)) \/
   Get (closeSession w e) (SessionIndex.ID (SessionIndex.sess e)) = None).
Proof.
  intros [Hk Ht Hi Hc]. unfold closeSession. set (id0 := SessionIndex.ID _). destruct (_ =? _); [|split_and!; [by constructor|done..|by left]].
  assert (Hgone : SessionTable.GetSession (SessionTable.RemoveSession (table w) id0) id0 = false).
  { unfold SessionTable.GetSession, SessionTable.RemoveSession. cbn [SessionTable.byID]. apply bool_decide_eq_false_2. set_solver. }
  assert (Hrm : forall id, id <> id0 -> SessionTable.GetSession (SessionTable.RemoveSession (table w) id0) id = SessionTable.GetSession (table w) id).
  { intros id Hid. unfold SessionTable.GetSession, SessionTable.RemoveSession. cbn [SessionTable.byID]. apply bool_decide_ext. set_solver. }
  assert (Hin : forall id, id ∈ SessionTable.byID (SessionTable.RemoveSession (table w) id0) -> id ∈ SessionTable.byID (table w)).
  { intros id. unfold SessionTable.RemoveSession. cbn [SessionTable.byID]. set_solver. }
  destruct (sessions w !! id0) as [s|] eqn:Hs; [destruct (Session.TakeAllOpens (tables s)) as [t os]|].
  - split_and!; try done.
    + constructor; cbn [sessions table index ctr]; try done.
      * intros id s' [[<- <-]|[_ H]]%lookup_insert_Some; [by apply (Hk _ _ Hs)|by apply Hk].
      * intros id Hid%Hin%Ht. destruct (decide (id = id0)) as [->|]; [rewrite lookup_insert_eq; by eexists|rewrite lookup_insert_ne by congruence; done].
    + intros id Hid. unfold Get. cbn [table sessions]. rewrite Hrm by done. rewrite lookup_insert_ne by congruence. done.
    + right. unfold Get. cbn [table]. by rewrite Hgone.
  - split_and!; try done.
    + constructor; cbn [sessions table index ctr]; try done. intros id Hid%Hin. by apply Ht.
    + intros id Hid. unfold Get. cbn [table sessions]. by rewrite Hrm.
    + right. unfold Get. cbn [table]. by rewrite Hgone.
Qed.

Lemma supersede_index idx prev by_ guid : 
  SessionIndex.supersede fold idx prev by_ guid = (idx, None) \/
  exists e, idx !! prev = Some e /\ SessionIndex.supersede fold idx prev by_ guid = (delete prev idx, Some e) /\ prev <> SessionIndex.ID by_ /\
    SessionIndex.maySupersede fold e by_ guid = true.
Proof.
  unfold SessionIndex.supersede. destruct ((prev =? 0) || (prev =? SessionIndex.ID by_)) eqn:Hz; [by left|].
  apply orb_false_elim in Hz as [_ Hz%Z.eqb_neq]. destruct (idx !! prev) as [e|] eqn:He; [|by left].
  destruct (SessionIndex.maySupersede fold e by_ guid) eqn:Hm; [right; exists e; done|by left].
Qed.

Lemma closePrevious_spec w prev s : wf w ->
  wf (closePreviousSession w prev s) /\
  (closePreviousSession w prev s = w \/
   exists e, index w !! prev = Some e /\ prev <> ID s /\ SessionIndex.maySupersede fold e (index_entry s) (Negotiate.cClientGuid (Conn h)) = true) /\
  (forall id, id <> prev \/ id = ID s -> Get (closePreviousSession w prev s) id = Get w id) /\
  (Get (closePreviousSession w prev s) prev = Get w prev \/ Get (closePreviousSession w prev s) prev = None).
Proof.
  intros Hw. unfold closePreviousSession.
  destruct (SessionIndex.supersede fold (index w) prev (index_entry s) _) as [idx victim] eqn:E.
  destruct (supersede_index (index w) prev (index_entry s) (Negotiate.cClientGuid (Conn h))) as [Hl|(e & He & Hsup & Hne & Hmay)].
  - rewrite E in Hl. injection Hl as -> ->. destruct w. split_and!; [done|by left|done|by left].
  - rewrite E in Hsup. injection Hsup as -> ->.
    set (w1 := mkWorld _ _ _ _ _ _). assert (Hw1 : wf w1).
    { destruct Hw as [Hk Ht Hi Hc]. constructor; try done. unfold w1. cbn [index]. intros id e' [_ H]%lookup_delete_Some. by apply Hi. }
    destruct (closeSession_spec w1 e Hw1) as (H1 & _ & _ & H4 & H5). rewrite (wf_index _ Hw _ _ He) in H5. split_and!; [done|right; by exists e| |exact H5].
    intros id Hid. rewrite H4; [done|]. rewrite (wf_index _ Hw _ _ He). destruct Hid as [|Hid]; [done|by rewrite Hid].
Qed.

(** What setting a session up does to the tables. *)
Lemma complete_spec w d hdr prev sess user guest sk s2c c2s app :
  wf w -> ID sess ∈ SessionTable.byID (table w) ->
  let s' := set_identity sess user guest sk s2c c2s app in
  exists w' full,
    complete w d hdr prev sess user guest (sk, s2c, c2s, app) =
      (w', if written d then [if guest then full else Smb3.SignMessage AES HMAC GCMSeal signingAlgo sk full] else [],
       if written d then Ok (Some (ID sess)) else Err WriteFailed) /\
    wf w' /\ Get w' (ID sess) = Some s' /\ (forall id, id <> prev -> id <> ID sess -> Get w' id = Get w id) /\
    (Get w' prev = Get (put w s') prev \/
     prev <> ID sess /\ Get w' prev = None /\
     exists e, index w !! prev = Some e /\ SessionIndex.maySupersede fold e (index_entry s') (Negotiate.cClientGuid (Conn h)) = true).
Proof.
  intros Hw Hin s'. unfold complete. fold s'. set (w1 := mkWorld _ _ _ _ _ _).
  assert (HG1 : forall id, Get w1 id = Get (put w s') id) by done.
  assert (Hw1 : wf w1).
  { destruct (wf_put w s' Hw Hin) as [Hk Ht Hi Hc]. constructor; try done.
    intros id e. unfold w1, SessionIndex.register. cbn [index]. destruct (_ =? 0); [apply Hi|]. intros [[<- <-]|[_ H]]%lookup_insert_Some; [done|by apply Hi]. }
  destruct (closePrevious_spec w1 prev s' Hw1) as (Hw2 & Hcl & Hget & Hgone).
  edestruct (message_ok (respHeader hdr StatusSuccess (if guest then FlagServerToRedir else Z.lor FlagServerToRedir FlagSigned) (ID s'))) as [full Hfull]; [done|].
  rewrite Hfull. exists (closePreviousSession w1 prev s'), full. split_and!.
  - by destruct (written d).
  - done.
  - rewrite Hget by (by right). rewrite HG1, Get_put by done. by rewrite bool_decide_eq_true_2.
  - intros id Hp Hi. rewrite Hget by (by left). rewrite HG1, Get_put by done. by rewrite bool_decide_eq_false_2.
  - destruct Hcl as [-> |(e & He & Hne & Hmay)]; [by left|]. destruct Hgone as [Hg|Hg]; [by left|]. right. do 2 (split; [done|]). exists e. split; [|done].
    unfold w1, SessionIndex.register in He. cbn [index] in He. destruct (_ =? 0); [done|]. by rewrite lookup_insert_ne in He by done.
Qed.


(** A new half-open session: a fresh id, no other session touched. *)
Lemma newHalfOpen_spec w : wf w ->
  match SessionTable.NewHalfOpen (table w) (ctr w) with
  | (t, c, Some id) =>
      let w1 := put (mkWorld t c (sessions w) (index w) (released w) (remote w)) (newSession id) in
      id = ctr w + 1 /\ wf w1 /\ id ∈ SessionTable.byID t /\ (forall i, i <> id -> Get w1 i = Get w i) /\ Get w id = None
  | (t, c, None) => t = table w /\ c = ctr w
  end.
Proof.
  intros [Hk Ht Hi Hc]. unfold SessionTable.NewHalfOpen. destruct (_ <=? _); [done|]. cbn [SessionTable.allocSessionID].
  set (id := ctr w + 1). assert (Hfresh : sessions w !! id = None).
  { destruct (sessions w !! id) as [s|] eqn:E; [|done]. apply Hk in E. unfold id in E. lia. }
  split; [done|]. split; [|split; [cbn; set_solver|split]].
  - constructor; cbn [put sessions table index ctr newSession ID]; try done.
    + intros i s [[<- <-]|[_ H]]%lookup_insert_Some; [cbn; unfold id; lia|]. apply Hk in H as [? ?]. unfold id. split; [done|lia].
    + cbn [SessionTable.byID]. intros i [->%elem_of_singleton|Hin]%elem_of_union; [rewrite lookup_insert_eq; by eexists|].
      destruct (decide (i = id)) as [->|]; [rewrite lookup_insert_eq; by eexists|rewrite lookup_insert_ne by congruence; by apply Ht].
    + unfold id. lia.
  - intros i Hid. unfold Get, put. cbn [table sessions newSession ID]. unfold SessionTable.GetSession. cbn [SessionTable.byID].
    rewrite lookup_insert_ne by congruence. erewrite (bool_decide_ext (i ∈ {[id]} ∪ _)); [reflexivity|]. set_solver.
  - unfold Get. rewrite Hfresh. by destruct (SessionTable.GetSession _ _).
Qed.

(** Nothing a world promises to others changed. *)
Definition inert (w w' : world) : Prop := index w' = index w /\ released w' = released w /\ remote w' = remote w.

Lemma type1_spec w d hdr t1 req w' out r : wf w -> handleType1 w d hdr t1 req = (w', out, r) ->
  wf w' /\ inert w w' /\ (r = Ok None \/ exists e, r = Err e) /\ (forall i, i <> ctr w + 1 -> Get w' i = Get w i) /\
  (forall s, Get w' (ctr w + 1) = Some s -> Authenticated s = false) /\ Get w (ctr w + 1) = None.
Proof.
  intros Hw. unfold handleType1. pose proof (newHalfOpen_spec w Hw) as Hn.
  assert (Hnone : Get w (ctr w + 1) = None).
  { unfold Get. destruct (sessions w !! (ctr w + 1)) as [s|] eqn:E; [|by destruct (SessionTable.GetSession _ _)].
    apply (wf_keys _ Hw) in E. lia. }
  destruct (SessionTable.NewHalfOpen (table w) (ctr w)) as [[t c] [id|]].
  2: { intros [= <- <- <-]. split_and!; try done; [right; by eexists|congruence]. }
  cbv zeta in Hn. destruct Hn as (Hid & Hw1 & Hin & Hget & _). set (w1 := put _ _) in *.
  assert (Hnew : Get w1 id = Some (newSession id)).
  { unfold w1. rewrite Get_put by done. by rewrite bool_decide_eq_true_2. }
  assert (Hdone : wf w1 /\ inert w w1 /\ (forall i, i <> ctr w + 1 -> Get w1 i = Get w i) /\ (forall s, Get w1 (ctr w + 1) = Some s -> Authenticated s = false)).
  { split_and!; [done|done|by rewrite <- Hid|]. rewrite <- Hid, Hnew. by intros s [= <-]. }
  destruct (rnd d) as [ch|]; [|intros [= <- <- <-]; destruct Hdone as (? & ? & ? & ?); split_and!; try done; right; by eexists].
  edestruct (message_ok (respHeader hdr StatusMoreProcessingReq FlagServerToRedir id)) as [full Hfull]; [done|]. rewrite Hfull.
  match goal with |- context [put w1 ?s] => set (s2 := s) end. set (w2 := put w1 s2).
  assert (Hdone2 : wf w2 /\ inert w w2 /\ (forall i, i <> ctr w + 1 -> Get w2 i = Get w i) /\ (forall s, Get w2 (ctr w + 1) = Some s -> Authenticated s = false)).
  { assert (Hg : forall i, Get w2 i = if bool_decide (i = id) then Some s2 else Get w1 i) by (intros i; unfold w2; by rewrite Get_put).
    split_and!; [by apply wf_put|done| |].
    - intros i Hi. rewrite Hg, bool_decide_eq_false_2 by congruence. apply Hget. congruence.
    - rewrite <- Hid, Hg, bool_decide_eq_true_2 by done. by intros s [= <-]. }
  destruct Hdone2 as (? & ? & ? & ?). destruct (written d); intros [= <- <- <-]; split_and!; try done; [by left|right; by eexists].
Qed.

Lemma failAuth_spec w d hdr cause : exists out, failAuth w d hdr cause = (w, out, Err cause).
Proof. unfold failAuth. destruct (message _ _); by eexists. Qed.

(** What the peer that a session belongs to after a SESSION_SETUP has shown. *)
Definition guest_admitted (auth : Ntlm.AuthenticateMessage) : Prop :=
  find_user (Ntlm.UserName auth) = None /\ hasGuestShare h = true /\
  (Ntlm.UserName auth = [] \/ SessionIndex.EqualFold fold (Ntlm.UserName auth) (Config.lit "GUEST") = true).

Definition user_proved (s : session) (auth : Ntlm.AuthenticateMessage) (type3 : bytes) (u : Config.UserConfig) (key : bytes) : Prop :=
  u ∈ Users h /\ SessionIndex.EqualFold fold (Config.uName u) (Ntlm.UserName auth) = true /\
  let ntowf := Ntlm.NTOWFv2 HMAC_MD5 ToUpper (Config.NTHash u) (Ntlm.UserName auth) (Ntlm.DomainName auth) in
  let proof := HMAC_MD5 ntowf (pendingChallenge s ++ drop 16 (Ntlm.NtResponse auth)) in
  get (Ntlm.NtResponse auth) 0 16 = proof /\ key = exportedKey auth (HMAC_MD5 ntowf proof) /\
  (Ntlm.MICRequired (Ntlm.NtResponse auth) = true ->
     exists n, Ntlm.AuthenticateLen type3 = Ok n /\ Ntlm.HasMIC auth = true /\ ntlmNegotiate s <> [] /\ ntlmChallenge s <> [] /\
       Ntlm.MIC auth = Ntlm.ComputeMIC HMAC_MD5 key (ntlmNegotiate s) (ntlmChallenge s) (get type3 0 n)).

Lemma find_user_spec name u : find_user name = Some u -> u ∈ Users h /\ SessionIndex.EqualFold fold (Config.uName u) name = true.
Proof.
  unfold find_user. destruct (filter _ (Users h)) as [|u' us] eqn:E; [done|]. intros [= <-].
  assert (Hin : u' ∈ filter (fun u => SessionIndex.EqualFold fold (Config.uName u) name = true) (Users h)) by (rewrite E; left).
  by apply list_elem_of_filter in Hin as [? ?].
Qed.

Lemma verify_spec s auth u sbk :
  Ntlm.VerifyNTLMv2 HMAC_MD5 ToUpper (Config.NTHash u) (Ntlm.UserName auth) (Ntlm.DomainName auth) (pendingChallenge s) (Ntlm.NtResponse auth) = Some sbk ->
  let ntowf := Ntlm.NTOWFv2 HMAC_MD5 ToUpper (Config.NTHash u) (Ntlm.UserName auth) (Ntlm.DomainName auth) in
  let proof := HMAC_MD5 ntowf (pendingChallenge s ++ drop 16 (Ntlm.NtResponse auth)) in
  get (Ntlm.NtResponse auth) 0 16 = proof /\ sbk = HMAC_MD5 ntowf proof.
Proof. unfold Ntlm.VerifyNTLMv2. destruct (_ <? _); [done|]. cbv zeta. case_bool_decide as Hp; [|done]. by intros [= <-]. Qed.

Lemma verifyMIC_spec s auth type3 key : verifyMIC s auth type3 key = Ok () -> Ntlm.MICRequired (Ntlm.NtResponse auth) = true ->
  exists n, Ntlm.AuthenticateLen type3 = Ok n /\ Ntlm.HasMIC auth = true /\ ntlmNegotiate s <> [] /\ ntlmChallenge s <> [] /\
    Ntlm.MIC auth = Ntlm.ComputeMIC HMAC_MD5 key (ntlmNegotiate s) (ntlmChallenge s) (get type3 0 n).
Proof.
  unfold verifyMIC. intros H Hr. rewrite Hr in H. cbn [negb] in H. destruct (Ntlm.HasMIC auth); [|done]. cbn [negb] in H.
  case_bool_decide; [done|]. case_bool_decide; [done|]. cbn [orb] in H. apply bind_Ok_inv in H as (n & Hn & H).
  destruct (Ntlm.AuthenticateLen type3) as [n'| |]; try done. injection Hn as ->. apply bind_Ok_inv in H as (m & Hm & H).
  apply slice_inv in Hm as (Hm & _ & _ & _). rewrite Z.sub_0_r in Hm. exists n. split_and!; try done.
  unfold Ntlm.VerifyMIC in H. case_bool_decide as He; [|done]. by rewrite <- He, Hm.
Qed.


Lemma verifyMIC_safe s auth type3 key : safe (verifyMIC s auth type3 key).
Proof.
  unfold verifyMIC. destruct (negb _); [done|]. destruct (negb _); [done|]. destruct (_ || _); [done|].
  destruct (Ntlm.AuthenticateLen_ok type3) as (n & -> & Hn). cbn [Negotiate.map_err mbind outcome_bind].
  rewrite slice_Ok by lia. cbn [mbind outcome_bind]. by destruct (Ntlm.VerifyMIC _ _ _ _ _ _).
Qed.

(** The two ways a type-3 leg ends. *)
Definition refused (id : Z) (w w' : world) (r : outcome setupErr (option Z)) : Prop :=
  (exists e, r = Err e) /\ inert w w' /\
  ((forall i, Get w' i = Get w i) \/
   exists s p, Get w id = Some s /\ forall i, Get w' i = if bool_decide (i = id) then Some (set_preauth s p) else Get w i).

Definition folded (s : session) (frame : bytes) : bytes :=
  let p := match preauth s with Some p => p | None => forkPreauth (Negotiate.cPreauth (Conn h)) end in
  if dialect =? Negotiate.Dialect311 then Negotiate.Update SHA512 p frame else p.

Definition may_close (w : world) (prev : Z) (s : session) : Prop :=
  exists e, index w !! prev = Some e /\ SessionIndex.maySupersede fold e (index_entry s) (Negotiate.cClientGuid (Conn h)) = true.

Definition set_up (id prev : Z) (type3 frame : bytes) (d : draws) (w w' : world) (r : outcome setupErr (option Z)) : Prop :=
  exists s auth user guest keys,
    Get w id = Some s /\ Ntlm.DecodeAuthenticate type3 = Ok auth /\ r = (if written d then Ok (Some id) else Err WriteFailed) /\
    let s1 := set_preauth s (folded s frame) in
    let '(sk, s2c, c2s, app) := keys in
    let s' := set_identity s1 user guest sk s2c c2s app in
    Get w' id = Some s' /\ (forall i, i <> prev -> i <> id -> Get w' i = Get w i) /\
    (prev <> id -> Get w' prev = Get w prev \/ Get w' prev = None /\ may_close w prev s') /\
    ((guest = true /\ user = guestSystemUser (nobody d) /\ guest_admitted auth /\ keys = (SigningKey s, S2CCipherKey s, C2SCipherKey s, ApplicationKey s)) \/
     (guest = false /\ exists key, user_proved s auth type3 user key /\ keys = deriveKeys s1 key)).

Lemma refused_refl id w e : refused id w w (Err e).
Proof. split; [by eexists|]. split; [done|by left]. Qed.

Lemma failAuth_refused w w' d hdr id cause out r : inert w w' ->
  ((forall i, Get w' i = Get w i) \/
   exists s p, Get w id = Some s /\ forall i, Get w' i = if bool_decide (i = id) then Some (set_preauth s p) else Get w i) ->
  forall w2, failAuth w' d hdr cause = (w2, out, r) -> w2 = w' /\ refused id w w2 r.
Proof.
  intros Hi Hg w2 H. destruct (failAuth_spec w' d hdr cause) as [o Ho]. rewrite Ho in H. injection H as <- <- <-.
  split; [done|]. split; [by eexists|]. done.
Qed.

Lemma type3_spec w d hdr type3 frame prev w' out r : wf w -> handleType3 w d hdr type3 frame prev = (w', out, r) ->
  wf w' /\ (refused (Header.SessionID hdr) w w' r \/ set_up (Header.SessionID hdr) prev type3 frame d w w' r).
Proof.
  intros Hw. set (id := Header.SessionID hdr). unfold handleType3. fold id.
  destruct (Get w id) as [s|] eqn:Hs; [|intros [= <- <- <-]; split; [done|left; apply refused_refl]].
  pose proof (Ntlm.DecodeAuthenticate_safe type3) as Hsafe.
  destruct (Ntlm.DecodeAuthenticate type3) as [auth|e|] eqn:Hauth; [|intros [= <- <- <-]; split; [done|left; apply refused_refl]|done].
  match goal with |- context [match ?x with Some _ => _ | None => failAuth _ _ _ _ end] => set (who := x) end.
  assert (Hwho : forall u g, who = Some (u, g) ->
    (g = true /\ u = guestSystemUser (nobody d) /\ guest_admitted auth) \/ (g = false /\ find_user (Ntlm.UserName auth) = Some u)).
  { unfold who. destruct (find_user _) as [u0|] eqn:Hf; [intros u g [= <- <-]; by right|]. destruct (_ && hasGuestShare h) eqn:Hg; [|done].
    intros u g [= <- <-]. left. apply andb_prop in Hg as [Ha Hg]. do 4 (split; [done|]). apply orb_prop in Ha as [Ha|Ha]; [left; by apply bool_decide_eq_true in Ha|by right]. }
  clearbody who. destruct who as [[u g]|].
  2: { intros H. destruct (failAuth_spec w d hdr UnknownUser) as [o Ho]. rewrite Ho in H. injection H as <- <- <-. split; [done|]. left. apply refused_refl. }
  specialize (Hwho u g eq_refl). change (if dialect =? _ then _ else _) with (folded s frame). set (s1 := set_preauth s (folded s frame)).
  assert (HID : ID s1 = id) by (by apply Get_Some in Hs as [_ [? _]%(wf_keys _ Hw)]).
  assert (Hin : ID s1 ∈ SessionTable.byID (table w)) by (rewrite HID; by apply Get_Some in Hs as [? _]).
  assert (Hw1 : wf (put w s1)) by by apply wf_put.
  assert (Hg1 : forall i, Get (put w s1) i = if bool_decide (i = id) then Some s1 else Get w i) by (intros i; by rewrite Get_put, HID).
  assert (Hcomplete : forall keys w2, complete (put w s1) d hdr prev s1 u g keys = (w2, out, r) ->
    ((g = true /\ u = guestSystemUser (nobody d) /\ guest_admitted auth /\ keys = (SigningKey s, S2CCipherKey s, C2SCipherKey s, ApplicationKey s)) \/
     (g = false /\ exists key, user_proved s auth type3 u key /\ keys = deriveKeys s1 key)) -> wf w2 /\ set_up id prev type3 frame d w w2 r).
  { intros [[[sk s2c] c2s] app] w2 H Hwhy.
    destruct (complete_spec (put w s1) d hdr prev s1 u g sk s2c c2s app Hw1 Hin) as (w3 & full & Hc & Hw3 & Hget & Hoth & Hprev).
    rewrite Hc in H. injection H as <- <- <-. split; [done|]. exists s, auth, u, g, (sk, s2c, c2s, app).
    assert (HIDs : ID s = id) by exact HID. do 2 (split; [done|]). split; [by rewrite HIDs|].
    rewrite HID in Hget, Hoth. cbv zeta. fold s1. split; [done|]. split; [|split; [|done]].
    - intros i Hi1 Hi2. rewrite Hoth, Hg1 by congruence. by rewrite bool_decide_eq_false_2.
    - intros Hne. destruct Hprev as [Hp|(_ & Hp & Hm)]; [left|by right]. rewrite Hp. rewrite Get_put by done.
      change (ID (set_identity s1 u g sk s2c c2s app)) with (ID s1). by rewrite HID, bool_decide_eq_false_2, Hg1, bool_decide_eq_false_2 by done. }
  assert (Hrefuse : forall cause w2, failAuth (put w s1) d hdr cause = (w2, out, r) -> wf w2 /\ refused id w w2 r).
  { intros cause w2 H. destruct (failAuth_refused w (put w s1) d hdr id cause out r) with (w2 := w2) as [-> Hr]; try done.
    right. by exists s, (folded s frame). }
  destruct Hwho as [(-> & Hu & Hadm)|[-> Hf]].
  - intros H. apply Hcomplete in H as [Hw2 Hup]; [split; [done|by right]|]. left. by split_and!.
  - destruct (Ntlm.VerifyNTLMv2 _ _ _ _ _ _ _) as [sbk|] eqn:Hv; [|intros H; apply Hrefuse in H as [? ?]; split; [done|by left]].
    pose proof (verifyMIC_safe s1 auth type3 (exportedKey auth sbk)). destruct (verifyMIC _ _ _ _) as [[]|e|] eqn:Hm; [|intros H'; apply Hrefuse in H' as [? ?]; split; [done|by left]|done].
    intros H'. apply Hcomplete in H' as [Hw2 Hup]; [split; [done|by right]|]. right. split; [done|]. exists (exportedKey auth sbk). split; [|done].
    apply find_user_spec in Hf as [Hf1 Hf2]. pose proof (verify_spec s1 auth u sbk Hv) as [Hp Hsbk]. do 2 (split; [done|]). split; [done|].
    split; [by rewrite Hsbk|by apply (verifyMIC_spec s1)].
Qed.


(** ** What the exchange guarantees *)

Lemma HandleSessionSetup_cases w d hdr body frame w' out r : wf w -> HandleSessionSetup w d hdr body frame = (w', out, r) ->
  wf w' /\
  (refused (Header.SessionID hdr) w w' r \/
   (inert w w' /\ (r = Ok None \/ exists e, r = Err e) /\ (forall i, i <> ctr w + 1 -> Get w' i = Get w i) /\
    (forall s, Get w' (ctr w + 1) = Some s -> Authenticated s = false) /\ Get w (ctr w + 1) = None) \/
   exists req type3, SessionSetup.DecodeSessionSetupRequest body = Ok req /\ Spnego.UnwrapNTLM (SessionSetup.SecurityBuffer req) = Ok type3 /\
     set_up (Header.SessionID hdr) (SessionSetup.PreviousSessionID req) type3 frame d w w' r).
Proof.
  intros Hw. unfold HandleSessionSetup.
  assert (Hs : safe (SessionSetup.DecodeSessionSetupRequest body)) by (unfold SessionSetup.DecodeSessionSetupRequest, headerSize; nopanic).
  destruct (SessionSetup.DecodeSessionSetupRequest body) as [req|e|] eqn:Hreq; [|intros [= <- <- <-]; split; [done|left; apply refused_refl]|done].
  pose proof (Spnego.UnwrapNTLM_safe (SessionSetup.SecurityBuffer req)) as Hu.
  destruct (Spnego.UnwrapNTLM _) as [t|e|] eqn:Ht; [|intros [= <- <- <-]; split; [done|left; apply refused_refl]|done].
  destruct (_ <? 12); [intros [= <- <- <-]; split; [done|left; apply refused_refl]|]. cbv zeta.
  destruct (_ =? Ntlm.MessageTypeNegotiate).
  - intros (H1 & H2 & H3 & H4 & H5 & H6)%type1_spec; [|done]. split; [done|]. right. by left.
  - destruct (_ =? Ntlm.MessageTypeAuthenticate); [|intros [= <- <- <-]; split; [done|left; apply refused_refl]].
    intros [H1 [H2|H2]]%type3_spec; [| |done]; (split; [done|]); [by left|]. right. right. by exists req, t.
Qed.

(** The identity and the keys a session works with. *)
Definition credentials (s : session) : Config.UserConfig * bool * (bytes * bytes * bytes * bytes) :=
  (User s, IsGuest s, (SigningKey s, S2CCipherKey s, C2SCipherKey s, ApplicationKey s)).

(** C1: Authentication soundness. Whatever SESSION_SETUP a peer sends, a session
    that is authenticated afterwards either was before, as the same user with
    the same keys, or is the one the message names and the peer showed who it
    is: it answered this session's own challenge with the NTLMv2 proof of a
    configured user of that name, its message integrity code covers the three
    messages of this handshake whenever its response asserts one, and the keys
    are those derived from what it proved; or it is a guest, no configured user
    has that name, it is empty or GUEST, and some share admits guests.  The
    session tables stay well formed. *)
Theorem authentication_sound (w w' : world) (d : draws) (hdr : Header.Header) (body frame : bytes) (out : list bytes)
    (r : outcome setupErr (option Z)) :
  wf w -> HandleSessionSetup w d hdr body frame = (w', out, r) ->
  wf w' /\
  forall id s', Get w' id = Some s' -> Authenticated s' = true ->
    (exists s, Get w id = Some s /\ Authenticated s = true /\ credentials s' = credentials s) \/
    id = Header.SessionID hdr /\
    exists req type3 auth s,
      SessionSetup.DecodeSessionSetupRequest body = Ok req /\ Spnego.UnwrapNTLM (SessionSetup.SecurityBuffer req) = Ok type3 /\
      Ntlm.DecodeAuthenticate type3 = Ok auth /\ Get w id = Some s /\
      (IsGuest s' = true /\ guest_admitted auth \/
       IsGuest s' = false /\ exists key, user_proved s auth type3 (User s') key /\
         (SigningKey s', S2CCipherKey s', C2SCipherKey s', ApplicationKey s') = deriveKeys (set_preauth s (folded s frame)) key).
Proof.
  intros Hw H. apply HandleSessionSetup_cases in H as [Hw' Hc]; [|done]. split; [done|]. intros id s' Hs' Ha.
  assert (Hold : Get w id = Some s' -> exists s, Get w id = Some s /\ Authenticated s = true /\ credentials s' = credentials s) by (intros; by exists s').
  destruct Hc as [(_ & _ & [Hg|(s & p & Hs & Hg)])|[(_ & _ & Hg & Hn & _)|(req & t & Hreq & Ht & s & auth & u & g & [[[sk s2c] c2s] app] & Hs & Hau & _ & Hup)]].
  - left. apply Hold. by rewrite <- Hg.
  - left. rewrite Hg in Hs'. case_bool_decide as Hi; [|by apply Hold]. injection Hs' as <-. subst. by exists s.
  - left. destruct (decide (id = ctr w + 1)) as [->|Hne]; [by rewrite (Hn _ Hs') in Ha|]. apply Hold. by rewrite <- Hg.
  - cbv zeta in Hup. destruct Hup as (Hget & Hoth & Hprev & Hwhy). destruct (decide (id = Header.SessionID hdr)) as [->|Hne].
    + right. split; [done|]. exists req, t, auth, s. rewrite Hget in Hs'. injection Hs' as <-. do 4 (split; [done|]).
      destruct Hwhy as [(-> & _ & Hadm & _)|(-> & key & Hkey & Hd)]; [by left|]. right. split; [done|]. by exists key.
    + left. apply Hold. destruct (decide (id = SessionSetup.PreviousSessionID req)) as [->|]; [|by rewrite <- Hoth].
      destruct (Hprev Hne) as [<-|[Hn _]]; [done|by rewrite Hn in Hs'].
Qed.

(** A SESSION_SETUP that fails gains nothing and harms nobody: no session's
    identity, keys, handles or authentication changes, on this connection or any
    other, nothing is registered, closed or released - the PreviousSessionId of
    a peer that has not proved who it is is ignored - and no input makes the
    handler panic.  (A frame that cannot be written ends the connection.) *)
Theorem failed_setup_harmless (w w' : world) (d : draws) (hdr : Header.Header) (body frame : bytes) (out : list bytes)
    (r : outcome setupErr (option Z)) :
  wf w -> HandleSessionSetup w d hdr body frame = (w', out, r) ->
  r <> Panic /\
  forall e, r = Err e -> e <> WriteFailed ->
    index w' = index w /\ released w' = released w /\ remote w' = remote w /\
    forall id s, Get w id = Some s ->
      exists s', Get w' id = Some s' /\ credentials s' = credentials s /\ Authenticated s' = Authenticated s /\ tables s' = tables s.
Proof.
  intros Hw H. apply HandleSessionSetup_cases in H as [_ Hc]; [|done].
  destruct Hc as [([e0 ->] & (Hi & Hr & Hm) & Hg)|[((Hi & Hr & Hm) & Hres & Hg & _ & Hn)|(req & t & _ & _ & s & auth & u & g & ks & _ & _ & -> & _)]].
  - split; [done|]. intros e _ _. do 3 (split; [done|]). intros id s Hs. destruct Hg as [Hg|(s0 & p & Hs0 & Hg)].
    + exists s. by rewrite Hg.
    + rewrite Hg. case_bool_decide; [|by exists s]. subst. rewrite Hs in Hs0. injection Hs0 as <-. by eexists.
  - split; [by destruct Hres as [-> |[? ->]]|]. intros e _ _. do 3 (split; [done|]). intros id s Hs. exists s. rewrite Hg; [done|]. by intros ->; rewrite Hn in Hs.
  - split; [by destruct (written d)|]. intros e. destruct (written d); [done|]. by intros [= <-].
Qed.


(** The type-3 leg of a request, once it is decoded. *)
Lemma HandleSessionSetup_type3 w d hdr body frame req type3 auth :
  SessionSetup.DecodeSessionSetupRequest body = Ok req -> Spnego.UnwrapNTLM (SessionSetup.SecurityBuffer req) = Ok type3 ->
  Ntlm.DecodeAuthenticate type3 = Ok auth ->
  HandleSessionSetup w d hdr body frame = handleType3 w d hdr type3 frame (SessionSetup.PreviousSessionID req).
Proof.
  intros Hreq Ht Ha. unfold HandleSessionSetup. rewrite Hreq, Ht. unfold Ntlm.DecodeAuthenticate in Ha.
  destruct (Z.ltb_spec (len type3) 64); [done|]. rewrite (proj2 (Z.ltb_ge _ _)) by lia. cbv zeta.
  apply bind_Ok_inv in Ha as (sig & _ & Ha). destruct (negb _); [done|]. apply bind_Ok_inv in Ha as (t & Htt & Ha).
  destruct (Z.eqb_spec t Ntlm.MessageTypeAuthenticate) as [->|]; [|done]. rewrite u32_Ok in Htt by lia. injection Htt as Htt. by rewrite Htt.
Qed.

(** (A defect.) SESSION_SETUP is answered without a look at its signature and
    without asking whether the session is already up, so where some share admits
    guests, an unsigned anonymous type-3 message naming an authenticated session
    turns it into a guest's - keeping its trees and its open handles - and from
    then on the dispatcher admits every message on it unsigned and in the clear,
    whatever the server's policy requires. *)
Theorem anonymous_message_strips_session (w : world) (d : draws) (hdr : Header.Header) (body frame : bytes)
    (req : SessionSetup.SessionSetupRequest) (type3 : bytes) (auth : Ntlm.AuthenticateMessage) (s : session) :
  wf w -> Get w (Header.SessionID hdr) = Some s -> Authenticated s = true -> IsGuest s = false ->
  SessionSetup.DecodeSessionSetupRequest body = Ok req -> Spnego.UnwrapNTLM (SessionSetup.SecurityBuffer req) = Ok type3 ->
  Ntlm.DecodeAuthenticate type3 = Ok auth -> Ntlm.UserName auth = [] -> find_user [] = None -> hasGuestShare h = true -> written d = true ->
  exists w' out s',
    HandleSessionSetup w d hdr body frame = (w', out, Ok (Some (Header.SessionID hdr))) /\
    Get w' (Header.SessionID hdr) = Some s' /\ IsGuest s' = true /\ tables s' = tables s /\
    forall pol verify hdr2 frame2, Dispatch.gate pol verify (Some (info s')) hdr2 frame2 false = Dispatch.Admit.
Proof.
  intros Hw Hs Hauth Hng Hreq Ht Ha Hu Hf Hg Hwr. rewrite (HandleSessionSetup_type3 w d hdr body frame req type3 auth) by done.
  unfold handleType3. rewrite Hs, Ha, Hu, Hf, Hg. cbn [andb]. rewrite bool_decide_eq_true_2 by done. cbn [orb].
  change (if dialect =? _ then _ else _) with (folded s frame). set (s1 := set_preauth s (folded s frame)).
  assert (HID : ID s1 = Header.SessionID hdr) by (by apply Get_Some in Hs as [_ [? _]%(wf_keys _ Hw)]).
  assert (Hin : ID s1 ∈ SessionTable.byID (table w)) by (rewrite HID; by apply Get_Some in Hs as [? _]).
  destruct (complete_spec (put w s1) d hdr (SessionSetup.PreviousSessionID req) s1 (guestSystemUser (nobody d)) true (SigningKey s1) (S2CCipherKey s1)
              (C2SCipherKey s1) (ApplicationKey s1) (wf_put w s1 Hw Hin) Hin) as (w' & full & Hc & _ & Hget & _).
  rewrite Hwr in Hc. rewrite HID in Hc, Hget. exists w', [full]. eexists. split; [exact Hc|]. split; [exact Hget|]. split; [done|]. split; [done|].
  intros pol verify hdr2 frame2. unfold Dispatch.gate, info. done.
Qed.

(** After the type-1 leg. *)
Lemma type1_done w d hdr body frame w1 out : wf w -> HandleSessionSetup w d hdr body frame = (w1, out, Ok None) ->
  exists req type1 challenge resp,
    SessionSetup.DecodeSessionSetupRequest body = Ok req /\ Spnego.UnwrapNTLM (SessionSetup.SecurityBuffer req) = Ok type1 /\ type1 <> [] /\
    rnd d = Some challenge /\ out = [resp] /\ wf w1 /\
    let type2 := Ntlm.EncodeChallenge (challenge_message challenge (now d)) in
    message (respHeader hdr StatusMoreProcessingReq FlagServerToRedir (ctr w + 1))
      (SessionSetup.EncodeSessionSetupResponse 0 (Spnego.WrapNTLMResp Spnego.SPNEGOAcceptIncomplete type2)) = Ok resp /\
    Get w1 (ctr w + 1) = Some (set_handshake (newSession (ctr w + 1)) challenge type1 type2
      (Negotiate.Update SHA512 (Negotiate.Update SHA512 (Negotiate.cPreauth (Conn h)) frame) resp)).
Proof.
  intros Hw H. assert (Hw1 : wf w1) by by apply HandleSessionSetup_cases in H as [? _].
  unfold HandleSessionSetup in H. destruct (SessionSetup.DecodeSessionSetupRequest body) as [req|e|]; [|done|done].
  destruct (Spnego.UnwrapNTLM _) as [t|e|] eqn:Ht; [|done|done]. destruct (Z.ltb_spec (len t) 12) as [|Hlen]; [done|]. cbv zeta in H.
  destruct (_ =? Ntlm.MessageTypeNegotiate).
  2: { destruct (_ =? Ntlm.MessageTypeAuthenticate); [|done].
    apply type3_spec in H as [_ [([e He] & _)|(s & auth & u & g & ks & _ & _ & Hr & _)]]; [done| |done]. by destruct (written d). }
  unfold handleType1 in H. pose proof (newHalfOpen_spec w Hw) as Hn. destruct (SessionTable.NewHalfOpen _ _) as [[t2 c] [id|]]; [|done].
  cbv zeta in Hn. destruct Hn as (-> & Hw0 & Hin & _ & _). destruct (rnd d) as [ch|]; [|done].
  edestruct (message_ok (respHeader hdr StatusMoreProcessingReq FlagServerToRedir (ctr w + 1))) as [full Hfull]; [done|]. rewrite Hfull in H.
  destruct (written d); [|done]. injection H as <- <-. exists req, t, ch, full. split; [done|]. split; [done|].
  split; [intros ->; unfold len in Hlen; simpl in Hlen; lia|]. do 3 (split; [done|]). split; [exact Hfull|].
  rewrite Get_put by done. by rewrite bool_decide_eq_true_2.
Qed.



End Handler.

(** ** A concrete exchange *)

Section Example_.

Definition ex_md5 (k m : bytes) : bytes := take 16 (rev (m ++ k) ++ zeros 16).
Definition ex_sha512 (m : bytes) : bytes := take 64 (rev m ++ zeros 64).
Definition ex_ann : Config.UserConfig := Config.mkUser (Config.lit "a") (replicate 16 Byte.x07) [] 0 0 [Config.lit "*"].
Definition ex_conn : Negotiate.Connection :=
  Negotiate.mkConn (zeros 16) (zeros 16) (Negotiate.mkSel Negotiate.Dialect311 2 1 1) (zeros 64) 0 0 0 [] [].
Definition ex_handler : SessionSetupHandler :=
  mkHandler ex_conn [ex_ann] [Config.mkShare (Config.lit "pub") (Config.lit "/pub") true true] true (SessionIndex.mkHost 1 (zeros 16)).
Definition ex_world : world := mkWorld SessionTable.NewSessionTable 0 ∅ ∅ [] [].
Definition ex_draws : draws := mkDraws (Some (zeros 8)) 5 true None.
Definition ex_hdr (sid : Z) : Header.Header := Header.mkHeader 1 0 CommandSessionSetup 1 0 0 2 0 sid (zeros 16).
Definition ex_body (token : bytes) : bytes := writes (zeros 24) [(0, le16 25); (12, le16 88); (14, le16 (len token))] ++ token.
Definition ex_type1 : bytes := Ntlm.Signature ++ le32 1 ++ zeros 20.
Definition ex_temp : bytes := zeros 8.
Definition ex_proof (user : bytes) : bytes :=
  ex_md5 (Ntlm.NTOWFv2 ex_md5 id (Config.NTHash ex_ann) user []) (zeros 8 ++ ex_temp).
Definition ex_type3 (user : bytes) : bytes :=
  let nt := ex_proof user ++ ex_temp in
  writes (zeros 64) [(0, Ntlm.Signature); (8, le32 3); (20, le16 24); (24, le32 64); (36, le16 (len user * 2)); (40, le32 88);
    (60, le32 (Ntlm.NegotiateUnicode))] ++ nt ++ Names.UTF16LE user.

Abbreviation run := (HandleSessionSetup ex_md5 id id ex_sha512 Smb3.ex_AES Smb3.ex_HMAC Smb3.ex_Seal ex_handler).
Definition ex_run1 : result := run ex_world ex_draws (ex_hdr 0) (ex_body ex_type1) (zeros 70).
Definition ex_run3 (w : world) (user : bytes) : result := run w ex_draws (ex_hdr 1) (ex_body (ex_type3 user)) (zeros 90).
Definition ex_w1 : world := ex_run1.1.1.
Definition ex_w2 : world := (ex_run3 ex_w1 (Config.lit "a")).1.1.

Lemma ex_world_wf : wf ex_world.
Proof. constructor; cbn; try done; set_solver. Qed.

Lemma ex_run1_eq : ex_run1 = (ex_w1, ex_run1.1.2, Ok None).
Proof. vm_compute. reflexivity. Qed.

Lemma ex_run3_eq : ex_run3 ex_w1 (Config.lit "a") = (ex_w2, (ex_run3 ex_w1 (Config.lit "a")).1.2, Ok (Some 1)).
Proof. vm_compute. reflexivity. Qed.

Lemma authentication_sound_witness : wf ex_w1 /\ wf ex_w2 /\ exists s, Get ex_w2 1 = Some s /\ Authenticated s = true /\ IsGuest s = false.
Proof.
  assert (H1 : wf ex_w1) by (eapply authentication_sound; [exact ex_world_wf|exact ex_run1_eq]).
  split; [exact H1|]. split; [eapply authentication_sound; [exact H1|exact ex_run3_eq]|].
  destruct (Get ex_w2 1) as [s|] eqn:Hs; [|vm_compute in Hs; discriminate]. exists s. split; [done|].
  vm_compute in Hs. injection Hs as <-. split; reflexivity.
Defined.

(** The wrong name over the proof of the right one is refused. *)
Lemma failed_setup_harmless_witness :
  (ex_run3 ex_w1 (Config.lit "b")).2 = Err UnknownUser /\
  index (ex_run3 ex_w1 (Config.lit "b")).1.1 = index ex_w1.
Proof.
  split; [vm_compute; reflexivity|].
  assert (H1 : wf ex_w1) by (eapply HandleSessionSetup_cases; [exact ex_world_wf|exact ex_run1_eq]).
  assert (H : ex_run3 ex_w1 (Config.lit "b") =
    ((ex_run3 ex_w1 (Config.lit "b")).1.1, (ex_run3 ex_w1 (Config.lit "b")).1.2, Err UnknownUser)) by (vm_compute; reflexivity).
  refine (proj1 (proj2 (failed_setup_harmless ex_md5 id id ex_sha512 Smb3.ex_AES Smb3.ex_HMAC Smb3.ex_Seal ex_handler _ _ _ _ _ _ _ _ H1 H) UnknownUser _ _)); done.
Defined.

Definition opt_get {A} (d : A) (o : option A) : A := match o with Some a => a | None => d end.
Definition ok_get {E A} (d : A) (o : outcome E A) : A := match o with Ok a => a | _ => d end.
Definition ex_req (body : bytes) : SessionSetup.SessionSetupRequest :=
  ok_get {| SessionSetup.Flags := 0; SessionSetup.SecurityMode := 0; SessionSetup.Capabilities := 0; SessionSetup.Channel := 0;
            SessionSetup.PreviousSessionID := 0; SessionSetup.SecurityBuffer := [] |} (SessionSetup.DecodeSessionSetupRequest body).
Definition ex_auth (type3 : bytes) : Ntlm.AuthenticateMessage := ok_get (Ntlm.mkAuth [] [] [] [] [] [] 0 [] false) (Ntlm.DecodeAuthenticate type3).
Definition ex_session : session := opt_get (newSession 0) (Get ex_w2 1).

Ltac vmr := vm_compute; reflexivity.

Lemma anonymous_message_strips_session_witness :
  exists w' out s', ex_run3 ex_w2 [] = (w', out, Ok (Some 1)) /\ Get w' 1 = Some s' /\ IsGuest s' = true.
Proof.
  assert (H1 : wf ex_w1) by (eapply HandleSessionSetup_cases; [exact ex_world_wf|exact ex_run1_eq]).
  assert (H2 : wf ex_w2) by (eapply HandleSessionSetup_cases; [exact H1|exact ex_run3_eq]).
  destruct (anonymous_message_strips_session ex_md5 id id ex_sha512 Smb3.ex_AES Smb3.ex_HMAC Smb3.ex_Seal ex_handler ex_w2 ex_draws (ex_hdr 1)
              (ex_body (ex_type3 [])) (zeros 90) (ex_req (ex_body (ex_type3 []))) (ex_type3 []) (ex_auth (ex_type3 [])) ex_session H2
              ltac:(vmr) ltac:(vmr) ltac:(vmr) ltac:(vmr) ltac:(vmr) ltac:(vmr) ltac:(vmr) ltac:(vmr) ltac:(vmr) ltac:(vmr))
    as (w' & out & s' & E & Hg & Hi & _ & _).
  exists w', out, s'. split; [exact E|]. split; [exact Hg|exact Hi].
Defined.


End Example_.

End Setup.
