(* ===== verification/Async.v ===== *)
(** Asynchronous requests: the table of outstanding CHANGE_NOTIFY and blocking
    LOCK requests of a connection and the CHANGE_NOTIFY handler, from
    [internal/parent/dispatch.go].

    A registration is a pointer shared by the table, the goroutine that waits on
    it and whoever cancels it, so registrations live in a heap of their own.
    Each operation runs under the table's mutex. *)

From S2P Require Import Prelude Smb2 Utf Requests Vfs Norm Frames Dispatch.
Import Smb2.Const.

Module Async.

Record notifyReg := mkReg { r_open : Z; r_status : Z; r_cancelled : bool }.

Definition maxPreCancelled : Z := 256.

(** [heap] holds every registration ever made, [fresh] the next address;
    [running] the goroutines still waiting, with the MessageId each registered
    under. *)
Record asyncTable := mkAsync {
  heap : gmap nat notifyReg; fresh : nat; regs : gmap Z nat; preCancelled : gmap Z Z; nextID : Z; running : gmap nat Z }.

Definition newAsync : asyncTable := mkAsync ∅ 0 ∅ ∅ 0 ∅.

Definition nextAsyncID (t : asyncTable) : asyncTable * Z :=
  let id := (nextID t + 1) mod 2 ^ 64 in (mkAsync (heap t) (fresh t) (regs t) (preCancelled t) id (running t), id).

(** [registerNotify], with the goroutine started for it; a registration starts
    out with STATUS_CANCELLED. *)
Definition registerNotify (t : asyncTable) (msgID : Z) (open : Z) : asyncTable * nat :=
  let i := fresh t in
  match preCancelled t !! msgID with
  | Some status =>
      (mkAsync (<[i := mkReg open status true]> (heap t)) (S i) (regs t) (delete msgID (preCancelled t)) (nextID t)
         (<[i := msgID]> (running t)), i)
  | None =>
      (mkAsync (<[i := mkReg open StatusCancelled false]> (heap t)) (S i) (<[msgID := i]> (regs t)) (preCancelled t) (nextID t)
         (<[i := msgID]> (running t)), i)
  end.

Definition unregisterNotify (t : asyncTable) (msgID : Z) : asyncTable :=
  mkAsync (heap t) (fresh t) (delete msgID (regs t)) (preCancelled t) (nextID t) (running t).

Definition cancel_reg (status : Z) (r : notifyReg) : notifyReg := if r_cancelled r then r else mkReg (r_open r) status true.

Definition cancelNotify (t : asyncTable) (msgID status : Z) : asyncTable * bool :=
  match regs t !! msgID with
  | None =>
      let pre := if Z.of_nat (size (preCancelled t)) <? maxPreCancelled then <[msgID := status]> (preCancelled t) else preCancelled t in
      (mkAsync (heap t) (fresh t) (regs t) pre (nextID t) (running t), false)
  | Some i =>
      match heap t !! i with
      | Some r => if r_cancelled r then (t, false)
                  else (mkAsync (<[i := cancel_reg status r]> (heap t)) (fresh t) (regs t) (preCancelled t) (nextID t) (running t), true)
      | None => (t, false)
      end
  end.

(** The sweeps run over the registrations the table still lists. *)
Definition listed (t : asyncTable) (i : nat) : Prop := Exists (fun p => p.2 = i) (map_to_list (regs t)).
#[export] Instance listed_dec t i : Decision (listed t i).
Proof. unfold listed. apply _. Defined.

Definition sweep (P : Z -> bool) (t : asyncTable) : asyncTable :=
  mkAsync (map_imap (fun i r => Some (if bool_decide (listed t i) && P (r_open r) then cancel_reg StatusNotifyCleanup r else r)) (heap t))
    (fresh t) (regs t) (preCancelled t) (nextID t) (running t).

Definition cancelNotifiesForOpens (t : asyncTable) (opens : list Z) : asyncTable :=
  match opens with [] => t | _ => sweep (fun o => bool_decide (o ∈ opens)) t end.

Definition CancelAllNotifies (t : asyncTable) : asyncTable := sweep (fun _ => true) t.

Definition notifyStatus (t : asyncTable) (i : nat) : Z := match heap t !! i with Some r => r_status r | None => 0 end.

(** A goroutine's deferred [unregisterNotify], and its end. *)
Definition finish (t : asyncTable) (i : nat) : asyncTable :=
  match running t !! i with
  | Some msgID =>
      let t := unregisterNotify t msgID in
      mkAsync (heap t) (fresh t) (regs t) (preCancelled t) (nextID t) (delete i (running t))
  | None => t
  end.

(** ** What can happen, in any order *)

Inductive event :=
  | Register (msgID open : Z) | Cancel (msgID status : Z) | CloseOpens (opens : list Z) | Finish (i : nat) | CancelAll.

Definition exec (t : asyncTable) (e : event) : asyncTable :=
  match e with
  | Register m o => (registerNotify t m o).1
  | Cancel m s => (cancelNotify t m s).1
  | CloseOpens os => cancelNotifiesForOpens t os
  | Finish i => finish t i
  | CancelAll => CancelAllNotifies t
  end.

(** A client that never reuses the MessageId of a request that is outstanding. *)
Definition well_behaved (t : asyncTable) (e : event) : Prop :=
  match e with Register m _ => map_Forall (fun _ m' => m' <> m) (running t) | _ => True end.

Inductive trace (ok : asyncTable -> event -> Prop) : asyncTable -> Prop :=
  | trace_new : trace ok newAsync
  | trace_step t e : trace ok t -> ok t e -> trace ok (exec t e).

(** A goroutine that waits and has been told nothing: it will wait on. *)
Definition waits (t : asyncTable) (i : nat) : Prop :=
  is_Some (running t !! i) /\ exists r, heap t !! i = Some r /\ r_cancelled r = false.

Record Inv (t : asyncTable) : Prop := {
  inv_heap : forall i, is_Some (heap t !! i) <-> (i < fresh t)%nat;
  inv_run : forall i m, running t !! i = Some m -> (i < fresh t)%nat;
  inv_regs : forall m i, regs t !! m = Some i -> running t !! i = Some m;
  inv_waits : forall i m r, running t !! i = Some m -> heap t !! i = Some r -> r_cancelled r = false -> regs t !! m = Some i;
  inv_uniq : forall i j m, running t !! i = Some m -> running t !! j = Some m -> i = j;
  inv_pre : Z.of_nat (size (preCancelled t)) <= maxPreCancelled }.

Lemma listed_spec t i : listed t i <-> exists m, regs t !! m = Some i.
Proof.
  unfold listed. rewrite Exists_exists. split.
  - intros ([m j] & Hin%elem_of_map_to_list & Hj). simpl in Hj. subst. by exists m.
  - intros [m Hm]. exists (m, i). split; [by apply elem_of_map_to_list|done].
Qed.

Lemma lookup_sweep P t i : heap (sweep P t) !! i =
  (fun r => if bool_decide (listed t i) && P (r_open r) then cancel_reg StatusNotifyCleanup r else r) <$> heap t !! i.
Proof. unfold sweep. cbn [heap]. rewrite map_lookup_imap. by destruct (heap t !! i). Qed.

Lemma cancel_reg_cancelled s r : r_cancelled (cancel_reg s r) = true.
Proof. unfold cancel_reg. by destruct (r_cancelled r) eqn:E. Qed.

Lemma newAsync_Inv : Inv newAsync.
Proof.
  constructor; cbn; intros *; rewrite ?lookup_empty; try done. split; [by intros []|lia].
Qed.

(** Cancelling registrations in place keeps the invariant. *)
Lemma Inv_heap t h pre : Inv t -> (forall i, is_Some (h !! i) <-> is_Some (heap t !! i)) ->
  (forall i r', h !! i = Some r' -> r_cancelled r' = false -> exists r, heap t !! i = Some r /\ r_cancelled r = false) ->
  Z.of_nat (size pre) <= maxPreCancelled ->
  Inv (mkAsync h (fresh t) (regs t) pre (nextID t) (running t)).
Proof.
  intros [H1 H2 H3 H4 H5 H6] Hs Hc Hp. constructor; cbn; try done.
  - intros i. by rewrite Hs.
  - intros i m r' Hr Hh Hn. destruct (Hc _ _ Hh Hn) as (r & Hr' & Hcr). by eapply H4.
Qed.

Lemma Inv_sweep P t : Inv t -> Inv (sweep P t).
Proof.
  intros Hi. apply Inv_heap; [done| | |by apply inv_pre].
  - intros i. pose proof (lookup_sweep P t i) as Hl. unfold sweep in Hl. cbn [heap] in Hl. rewrite Hl. by rewrite fmap_is_Some.
  - intros i r'. pose proof (lookup_sweep P t i) as Hl. unfold sweep in Hl. cbn [heap] in Hl. rewrite Hl.
    intros (r & Hh & ->)%fmap_Some Hc. exists r. split; [done|]. destruct (_ && _); [by rewrite cancel_reg_cancelled in Hc|done].
Qed.

Lemma Inv_register t m o : Inv t -> map_Forall (fun _ m' => m' <> m) (running t) -> Inv (registerNotify t m o).1.
Proof.
  intros [H1 H2 H3 H4 H5 H6] Hm. unfold registerNotify.
  assert (Hrun : running t !! fresh t = None) by (destruct (running t !! fresh t) eqn:E; [apply H2 in E; lia|done]).
  assert (Hreg : forall i, regs t !! m <> Some i) by (intros i Hi%H3; by apply Hm in Hi).
  assert (Hheap : forall r i, is_Some (<[fresh t := r]> (heap t) !! i) <-> (i < S (fresh t))%nat).
  { intros r i. destruct (decide (i = fresh t)) as [->|]; [rewrite lookup_insert_eq; split; [lia|by eexists]|].
    rewrite lookup_insert_ne, H1 by done. lia. }
  assert (Hr2 : forall i m', <[fresh t := m]> (running t) !! i = Some m' -> i = fresh t /\ m' = m \/ i <> fresh t /\ running t !! i = Some m').
  { intros i m' [[<- <-]|[? ?]]%lookup_insert_Some; [by left|by right]. }
  assert (Hu : forall i j m', <[fresh t := m]> (running t) !! i = Some m' -> <[fresh t := m]> (running t) !! j = Some m' -> i = j).
  { intros i j m' [[-> ->]|[? Hi]]%Hr2 [[-> Hj]|[? Hj]]%Hr2; [done|by apply Hm in Hj|by apply Hm in Hi|by eapply H5]. }
  destruct (preCancelled t !! m) as [s|] eqn:Hp; constructor; cbn; try done.
  - intros i m' [[-> _]|[_ Hi%H2]]%Hr2; lia.
  - intros m' i Hi. assert (i <> fresh t) by (intros ->; apply H3 in Hi; congruence). rewrite lookup_insert_ne by done. by apply H3.
  - intros i m' r [[-> ->]|[Hne Hi]]%Hr2; [rewrite lookup_insert_eq; by intros [= <-]|]. rewrite lookup_insert_ne by done. by apply H4.
  - assert (size (delete m (preCancelled t)) <= size (preCancelled t))%nat by (rewrite map_size_delete, Hp; cbn; lia). lia.
  - intros i m' [[-> _]|[_ Hi%H2]]%Hr2; lia.
  - intros m' i [[<- <-]|[Hne Hi]]%lookup_insert_Some; [by rewrite lookup_insert_eq|].
    assert (i <> fresh t) by (intros ->; apply H3 in Hi; congruence). rewrite lookup_insert_ne by done. by apply H3.
  - intros i m' r [[-> ->]|[Hne Hi]]%Hr2; [intros _ _; by rewrite lookup_insert_eq|]. rewrite lookup_insert_ne by done. intros Hh Hc.
    rewrite lookup_insert_ne; [by eapply H4|]. intros ->. by apply Hm in Hi.
Qed.

Lemma Inv_finish t i : Inv t -> Inv (finish t i).
Proof.
  intros Hi. unfold finish. destruct (running t !! i) as [m|] eqn:Hm; [|done]. destruct Hi as [H1 H2 H3 H4 H5 H6].
  assert (Hr : forall j m', delete i (running t) !! j = Some m' -> j <> i /\ m' <> m /\ running t !! j = Some m').
  { intros j m' [Hne Hj]%lookup_delete_Some. split_and!; [done| |done]. intros ->. by apply Hne, (H5 i j m). }
  constructor; cbn; try done.
  - intros j m' (_ & _ & Hj)%Hr. by eapply H2.
  - intros m' j [Hne Hj]%lookup_delete_Some. apply H3 in Hj. rewrite lookup_delete_ne; [done|]. intros ->. congruence.
  - intros j m' r (_ & Hne & Hj)%Hr Hh Hc. rewrite lookup_delete_ne by done. by eapply H4.
  - intros j k m' (_ & _ & Hj)%Hr (_ & _ & Hk)%Hr. by eapply H5.
Qed.

Lemma Inv_cancel t m s : Inv t -> Inv (cancelNotify t m s).1.
Proof.
  intros Hi. unfold cancelNotify. destruct (regs t !! m) as [i|].
  - destruct (heap t !! i) as [r|] eqn:Hr; [|done]. destruct (r_cancelled r); [done|]. apply Inv_heap; [done| | |by apply inv_pre].
    + intros j. destruct (decide (j = i)) as [->|]; [rewrite lookup_insert_eq, Hr; by split|by rewrite lookup_insert_ne].
    + intros j r' [[<- <-]|[_ Hj]]%lookup_insert_Some Hc; [by rewrite cancel_reg_cancelled in Hc|by exists r'].
  - apply Inv_heap; [done|done|by eauto|]. pose proof (inv_pre _ Hi). destruct (Z.ltb_spec (Z.of_nat (size (preCancelled t))) maxPreCancelled); [|done].
    rewrite map_size_insert. destruct (preCancelled t !! m); simpl; lia.
Qed.

Lemma trace_Inv t : trace well_behaved t -> Inv t.
Proof.
  induction 1 as [|t e _ IH Hw]; [apply newAsync_Inv|]. destruct e; cbn [exec].
  - by apply Inv_register.
  - by apply Inv_cancel.
  - unfold cancelNotifiesForOpens. destruct opens; [done|by apply Inv_sweep].
  - by apply Inv_finish.
  - by apply Inv_sweep.
Qed.

(** After the teardown's sweep nothing waits. *)
Lemma sweep_all_silences t : Inv t -> forall i, ~ waits (CancelAllNotifies t) i.
Proof.
  intros Ht i [[m Hm] (r' & Hr' & Hc)]. unfold CancelAllNotifies in Hr'. rewrite lookup_sweep in Hr'. apply fmap_Some in Hr' as (r & Hr & ->).
  destruct (r_cancelled r) eqn:Hcr; [destruct (_ && _) in Hc; [by rewrite cancel_reg_cancelled in Hc|congruence]|].
  assert (Hl : listed t i) by (apply listed_spec; exists m; by eapply inv_waits). rewrite bool_decide_eq_true_2 in Hc by done. cbn [andb] in Hc. by rewrite cancel_reg_cancelled in Hc.
Qed.


(** A client that reuses the MessageId of an outstanding request: the second
    registration displaces the first, the first goroutine is listed nowhere, and
    the teardown's sweep leaves it waiting. *)
Definition ex_reused : asyncTable := (registerNotify (registerNotify newAsync 7 1).1 7 2).1.

Theorem reused_message_id_leaks : trace (fun _ _ => True) ex_reused /\ waits (CancelAllNotifies ex_reused) 0.
Proof.
  split.
  - apply (trace_step _ (exec newAsync (Register 7 1)) (Register 7 2)); [|done]. apply (trace_step _ newAsync (Register 7 1)); [constructor|done].
  - split; [by exists 7|]. eexists. split; [vm_compute; reflexivity|done].
Qed.


(** ** CHANGE_NOTIFY *)

Definition NotifyFileName : Z := 0x00000001.
Definition NotifyDirName : Z := 0x00000002.
Definition NotifyAttributes : Z := 0x00000004.
Definition NotifySize : Z := 0x00000008.
Definition NotifyLastWrite : Z := 0x00000010.

Definition FileActionAdded : Z := 1.
Definition FileActionRemoved : Z := 2.
Definition FileActionModified : Z := 3.
Definition FileActionRenamedOldName : Z := 4.
Definition FileActionRenamedNewName : Z := 5.
Definition NotifyWatchTree : Z := 0x0001.

(** [internal/inotify/types.go] *)
Inductive EventType := FolderCreate | FileCreate | Delete | Modified | MovedFrom | MovedTo | WatchStop.

Definition actionForEvent (t : EventType) : Z :=
  match t with
  | FileCreate | FolderCreate => FileActionAdded
  | Delete => FileActionRemoved
  | Modified => FileActionModified
  | MovedFrom => FileActionRenamedOldName
  | MovedTo => FileActionRenamedNewName
  | WatchStop => 0
  end.

Definition notifyFilterAllows (filter action : Z) : bool :=
  if filter =? 0 then true else
  if (action =? FileActionAdded) || (action =? FileActionRemoved) then negb (Z.land filter (Z.lor NotifyFileName NotifyDirName) =? 0) else
  if (action =? FileActionRenamedOldName) || (action =? FileActionRenamedNewName)
  then negb (Z.land filter (Z.lor NotifyFileName NotifyDirName) =? 0) else
  if action =? FileActionModified
  then negb (Z.land filter (Z.lor NotifyLastWrite (Z.lor NotifySize NotifyAttributes)) =? 0) else false.

Abbreviation Rel := Norm.Rel.

Definition slashes_back (s : bytes) : bytes := map (fun c => if bool_decide (c = Vfs.slash) then Vfs.backslash else c) s.

Record watch := mkWatch { w_path : bytes; watchTree : bool; w_filter : Z; maxOut : Z }.

Definition accept (w : watch) (path : bytes) (e : EventType) : option Notify.NotifyEntry :=
  match Rel (w_path w) path with
  | None => None
  | Some rel =>
      if negb (watchTree w) && bool_decide (Vfs.slash ∈ rel) then None else
      let action := actionForEvent e in
      if (action =? 0) || negb (notifyFilterAllows (w_filter w) action) then None
      else Some {| Notify.Action := action; Notify.Name := slashes_back rel |}
  end.

(** What the goroutine's selects may deliver, in the order they do. *)
Inductive input := Event (path : bytes) (e : EventType) | EventsClosed | Cancelled | Timer.

Definition stops (i : input) : bool := match i with EventsClosed | Event _ WatchStop => true | _ => false end.

(** The burst after the first entry: it ends with the timer, a cancel or the
    watcher. *)
Fixpoint drain_burst (w : watch) (inputs : list input) (entries : list Notify.NotifyEntry) : option (list Notify.NotifyEntry) :=
  match inputs with
  | [] => None
  | i :: inputs =>
      match i with
      | Timer | Cancelled | EventsClosed | Event _ WatchStop => Some entries
      | Event p e => drain_burst w inputs (entries ++ match accept w p e with Some x => [x] | None => [] end)
      end
  end.

(** The goroutine's loop; [None] while it still waits. *)
Fixpoint await (w : watch) (inputs : list input) : option (list Notify.NotifyEntry) :=
  match inputs with
  | [] => None
  | i :: inputs =>
      match i with
      | Cancelled | EventsClosed | Event _ WatchStop => Some []
      | Timer => await w inputs
      | Event p e => match accept w p e with Some x => drain_burst w inputs [x] | None => await w inputs end
      end
  end.

(** The completion: its status and its body. *)
Definition completion (w : watch) (cancel_status : Z) (entries : list Notify.NotifyEntry) : Z * bytes :=
  match entries with
  | [] => (cancel_status, Dispatch.errBody)
  | _ =>
      let buf := Notify.EncodeFileNotifyInformation entries in
      if negb (maxOut w =? 0) && (maxOut w <? len buf mod 2 ^ 32) then (StatusNotifyEnumDir, Notify.EncodeChangeNotifyResponse [])
      else (StatusSuccess, Notify.EncodeChangeNotifyResponse buf)
  end.

(** The frame [sendAsync] builds. *)
Definition sendAsync (reqHdr : Header.Header) (asyncID status : Z) (body : bytes) : bytes :=
  let respHdr := Header.mkHeader (Header.CreditCharge reqHdr) status (Header.Command reqHdr)
    (Credits.grantCredits (Header.CreditCharge reqHdr) (Header.CreditResponse reqHdr)) FlagServerToRedir 0
    (Header.MessageID reqHdr) 0 (Header.SessionID reqHdr) (zeros 16) in
  match Header.EncodeAsyncHeader (zeros Header.HeaderSize) respHdr asyncID with Ok h => h ++ body | _ => zeros Header.HeaderSize ++ body end.

(** A handle as the handler sees it, and what the handler answers: an error, or
    an interim response and a watch. *)
Record dirOpen := mkDirOpen { d_id : Z; d_isDir : bool; d_path : bytes }.
Inductive notifyAnswer := Refused (status : Z) | Parked (interim : bytes) (i : nat) (w : watch).

Definition handleChangeNotify (t : asyncTable) (GetOpen : bytes -> option dirOpen) (newWatcher : bytes -> bool) (hdr : Header.Header) (body : bytes)
    : asyncTable * notifyAnswer :=
  match Notify.DecodeChangeNotifyRequest body with
  | Ok req =>
      match GetOpen (Notify.FileID req) with
      | Some o =>
          if negb (d_isDir o) then (t, Refused StatusInvalidParameter) else
          if negb (newWatcher (d_path o)) then (t, Refused StatusNotSupported) else
          let '(t, asyncID) := nextAsyncID t in
          let w := mkWatch (d_path o) (Dispatch.flag_set (Notify.Flags req) NotifyWatchTree) (Notify.CompletionFilter req) (Notify.OutputBufferLength req) in
          let '(t, i) := registerNotify t (Header.MessageID hdr) (d_id o) in
          (t, Parked (sendAsync hdr asyncID StatusPending Dispatch.errBody) i w)
      | None =>
          if negb (Dispatch.flag_set (Header.Flags hdr) FlagRelatedOps) && bool_decide (Notify.FileID req = Dispatch.previousHandleFileID)
          then (t, Refused StatusNotSupported) else (t, Refused StatusInvalidParameter)
      end
  | _ => (t, Refused StatusInvalidParameter)
  end.

Definition seen (w : watch) (i : input) : option Notify.NotifyEntry := match i with Event p e => accept w p e | _ => None end.

Lemma drain_spec w inputs entries r : drain_burst w inputs entries = Some r ->
  exists used rest, inputs = used ++ rest /\ r = entries ++ omap (seen w) used.
Proof.
  revert entries. induction inputs as [|i inputs IH]; intros entries; [done|].
  assert (Hend : Some entries = Some r -> exists used rest, i :: inputs = used ++ rest /\ r = entries ++ omap (seen w) used).
  { intros [= <-]. exists [], (i :: inputs). by rewrite app_nil_r. }
  assert (Hgo : forall p e, i = Event p e -> drain_burst w inputs (entries ++ match accept w p e with Some x => [x] | None => [] end) = Some r ->
    exists used rest, i :: inputs = used ++ rest /\ r = entries ++ omap (seen w) used).
  { intros p e -> (used & rest & -> & ->)%IH. exists (Event p e :: used), rest. split; [done|]. cbn [omap list_omap seen].
    rewrite <- (assoc_L (++)). by destruct (accept w p e). }
  destruct i as [p []| | |]; cbn [drain_burst]; try exact Hend; by apply Hgo.
Qed.

Lemma await_spec w inputs r : await w inputs = Some r -> exists used rest, inputs = used ++ rest /\ r = omap (seen w) used.
Proof.
  induction inputs as [|i inputs IH]; [done|].
  assert (Hend : Some [] = Some r -> exists used rest, i :: inputs = used ++ rest /\ r = omap (seen w) used).
  { intros [= <-]. by exists [], (i :: inputs). }
  assert (Hgo : forall p e, i = Event p e -> match accept w p e with Some x => drain_burst w inputs [x] | None => await w inputs end = Some r ->
    exists used rest, i :: inputs = used ++ rest /\ r = omap (seen w) used).
  { intros p e ->. destruct (accept w p e) as [x|] eqn:Ha.
    - intros (used & rest & -> & ->)%drain_spec. exists (Event p e :: used), rest. split; [done|]. cbn [omap list_omap seen]. by rewrite Ha.
    - intros (used & rest & -> & ->)%IH. exists (Event p e :: used), rest. split; [done|]. cbn [omap list_omap seen]. by rewrite Ha. }
  destruct i as [p []| | |]; cbn [await]; try exact Hend; try by apply Hgo.
  intros (used & rest & -> & ->)%IH. by exists (Timer :: used), rest.
Qed.

(** A cancel, a closed watcher or a stop ends the wait, whatever came before:
    at worst it ends the burst. *)
Lemma await_ends w inputs i rest : i = Cancelled \/ stops i = true -> is_Some (await w (inputs ++ i :: rest)).
Proof.
  intros Hi. assert (Hd : forall inputs e, is_Some (drain_burst w (inputs ++ i :: rest) e)).
  { clear inputs. induction inputs as [|j inputs IH]; intros e; cbn [app drain_burst].
    - destruct Hi as [-> |Hs]; [by eexists|]. destruct i as [p []| | |]; try discriminate Hs; by eexists.
    - destruct j as [p []| | |]; try by eexists. all: apply IH. }
  induction inputs as [|j inputs IH]; cbn [app await].
  - destruct Hi as [-> |Hs]; [by eexists|]. destruct i as [p []| | |]; try discriminate Hs; by eexists.
  - destruct j as [p []| | |]; try by eexists. all: try exact IH. all: destruct (accept w p _); [apply Hd|exact IH].
Qed.

(** The reply to a CHANGE_NOTIFY. Whatever order events, cancels and the
    burst timer arrive in, a finished wait reports exactly the accepted ones
    among the events it consumed, in their order: each of a kind the client's
    filter asks for, and for a watch that is not recursive a name without a
    separator. Nothing accepted means the canceller's status; too much for the
    client's buffer means STATUS_NOTIFY_ENUM_DIR and no records; and a cancel or
    the end of the watcher always finishes the wait. *)
Theorem change_notify_reply (w : watch) (inputs : list input) (cancel_status : Z) :
  (forall entries, await w inputs = Some entries ->
     (exists used rest, inputs = used ++ rest /\ entries = omap (seen w) used) /\
     Forall (fun e => Notify.Action e <> 0 /\ notifyFilterAllows (w_filter w) (Notify.Action e) = true /\
                      (watchTree w = false -> Vfs.slash ∉ Notify.Name e)) entries /\
     let '(st, body) := completion w cancel_status entries in
     (entries = [] -> st = cancel_status) /\
     (entries <> [] -> let buf := Notify.EncodeFileNotifyInformation entries in len buf < 2 ^ 32 ->
        if negb (maxOut w =? 0) && (maxOut w <? len buf)
        then st = StatusNotifyEnumDir /\ body = Notify.EncodeChangeNotifyResponse []
        else st = StatusSuccess /\ body = Notify.EncodeChangeNotifyResponse buf)) /\
  (Exists (fun i => i = Cancelled \/ stops i = true) inputs -> is_Some (await w inputs)).
Proof.
  split.
  - intros entries (used & rest & Hin & He)%await_spec. split; [by exists used, rest|]. split.
    + subst entries. clear Hin. induction used as [|i used IH]; [by constructor|]. cbn [omap list_omap].
      destruct (seen w i) as [x|] eqn:Hx; [|done]. constructor; [|done]. destruct i as [p e| | |]; try discriminate Hx. cbn [seen] in Hx.
      unfold accept in Hx. destruct (Rel _ _) as [rel|]; [|done]. destruct (negb (watchTree w) && _) eqn:Ht; [done|].
      destruct (_ || _) eqn:Hf; [done|]. injection Hx as <-. cbn [Notify.Action Notify.Name].
      apply orb_false_elim in Hf as [Hz%Z.eqb_neq Hf%negb_false_iff]. split_and!; [done|done|]. intros Hw. rewrite Hw in Ht. cbn [negb andb] in Ht.
      apply bool_decide_eq_false in Ht. intros Hin. apply Ht. unfold slashes_back in Hin. apply list_elem_of_fmap in Hin as (c & Hc & Hin).
      case_bool_decide; [done|]. by subst.
    + destruct entries as [|x entries]; cbn [completion]; [by split|]. set (buf := Notify.EncodeFileNotifyInformation _).
      assert (Hb : len buf < 2 ^ 32 -> len buf mod 2 ^ 32 = len buf) by (intros; apply Z.mod_small; split; [apply len_nonneg|done]).
      destruct (negb _ && (_ <? len buf mod _)) eqn:Hc; (split; [done|]); intros _ Hl; rewrite (Hb Hl) in Hc; by rewrite Hc.
  - intros (i & Hin & Hi)%Exists_exists. apply list_elem_of_split in Hin as (l1 & l2 & ->). by apply await_ends.
Qed.

Lemma change_notify_reply_witness : exists entries,
  await (mkWatch (map z2b [0x2f; 0x73]) false 1 0) [Event (map z2b [0x2f; 0x73; 0x2f; 0x61]) FileCreate; Timer] = Some entries /\
  entries = [{| Notify.Action := 1; Notify.Name := map z2b [0x61] |}] /\
  Forall (fun e => Notify.Action e <> 0) entries.
Proof.
  eexists. split; [vm_compute; reflexivity|]. split; [vm_compute; reflexivity|].
  destruct (change_notify_reply (mkWatch (map z2b [0x2f; 0x73]) false 1 0) [Event (map z2b [0x2f; 0x73; 0x2f; 0x61]) FileCreate; Timer] 0) as [H _].
  destruct (H _ ltac:(vm_compute; reflexivity)) as (_ & Hf & _). eapply Forall_impl; [exact Hf|]. by intros ? [].
Defined.

End Async.
