(* ===== verification/LockWait.v ===== *)
(** The LOCK handler and the requests it parks: [handleLock], [startLockWait] and
    [awaitLock] of [internal/parent/lock.go].

    The lock table and the count of parked requests are the process's, a table of
    asynchronous requests is a connection's.  A parked request is a goroutine: its
    program counter stands between two operations on what it shares.  One attempt
    of [applyLockOps] is one step, as it is made under the handle's lock, which
    CLOSE takes exclusively. *)

From S2P Require Import Prelude Smb2 Requests Dispatch Async LockRanges.
Import Smb2.Const LockRanges.Locks.

Module LockWait.

Definition maxPendingLockWaits : Z := 256.
Definition interimLockBody : bytes := [z2b 9; z2b 0; z2b 0; z2b 0; z2b 0; z2b 0; z2b 0; z2b 0; z2b 0].

(** A handle as the handler finds it: which, and whether it has a [File]. *)
Record lockHandle := mkHandle { h_id : Z; h_file : bool }.

(** Before [releaseSignal], before the attempt, in the [select] on the channel,
    and at the two deferred calls. *)
Inductive pc := Subscribing | Trying (c : nat) | Selecting (c : nat) | Answered | Unregistered | Ended.
#[export] Instance pc_eq_dec : EqDecision pc.
Proof. solve_decision. Defined.

(** What [awaitLock] closes over; [wReg] is its registration, [wSent] the frames
    sent under its AsyncId. *)
Record wait := mkWait {
  wConn : nat; wHdr : Header.Header; wOpen : Z; wOps : list lockOp; wAsync : Z; wReg : nat; wPc : pc; wSent : list (Z * bytes) }.

(** [keys] is what [fstat] says of the open handles, [born] the handles there have
    been: a goroutine keeps its handle, so no other takes its place. *)
Record process := mkProcess {
  table : lockTable; keys : gmap Z fileKey; born : gset Z; pendingLockWaits : Z; conns : list Async.asyncTable; waits : list wait }.

Definition newProcess (n : nat) : process := mkProcess newLockTable ∅ ∅ 0 (replicate n Async.newAsync) [].

Definition keyFor (s : process) (open : Z) : option fileKey := keys s !! open.

Definition set_table (s : process) (m : lockTable) : process := mkProcess m (keys s) (born s) (pendingLockWaits s) (conns s) (waits s).
Definition set_conn (s : process) (k : nat) (a : Async.asyncTable) : process :=
  mkProcess (table s) (keys s) (born s) (pendingLockWaits s) (<[k := a]> (conns s)) (waits s).
Definition set_wait (s : process) (i : nat) (x : wait) : process :=
  mkProcess (table s) (keys s) (born s) (pendingLockWaits s) (conns s) (<[i := x]> (waits s)).
Definition add_pending (s : process) (d : Z) : process := mkProcess (table s) (keys s) (born s) (pendingLockWaits s + d) (conns s) (waits s).
Definition spawn (s : process) (x : wait) : process := mkProcess (table s) (keys s) (born s) (pendingLockWaits s) (conns s) (waits s ++ [x]).

Definition goto (x : wait) (p : pc) : wait := mkWait (wConn x) (wHdr x) (wOpen x) (wOps x) (wAsync x) (wReg x) p (wSent x).
(** [sendAsync], and the return. *)
Definition answer (x : wait) (status : Z) (body : bytes) : wait :=
  mkWait (wConn x) (wHdr x) (wOpen x) (wOps x) (wAsync x) (wReg x) Answered (wSent x ++ [(status, body)]).

(** [None] where the cap is reached. *)
Definition startLockWait (s : process) (k : nat) (hdr : Header.Header) (open : Z) (ops : list lockOp) : option process :=
  if maxPendingLockWaits <? pendingLockWaits s + 1 then None else
  a ← conns s !! k;
  let '(a, asyncID) := Async.nextAsyncID a in
  let '(a, reg) := Async.registerNotify a (Header.MessageID hdr) open in
  Some (spawn (set_conn (add_pending s 1) k a) (mkWait k hdr open ops asyncID reg Subscribing [(StatusPending, interimLockBody)])).

(** The answer of a handler that does not park: its status and its body. *)
Inductive reply := Reply (status : Z) (body : bytes) | Parked.

(** [configured] is [d.locks != nil]. *)
Definition handleLock (configured : bool) (GetOpen : bytes -> option lockHandle) (s : process) (k : nat) (hdr : Header.Header) (body : bytes)
    : process * reply :=
  let refuse status := (s, Reply status Dispatch.errBody) in
  match Lock.DecodeLockRequest body with
  | Ok req =>
      match GetOpen (Lock.FileID req) with
      | None => refuse StatusInvalidParameter
      | Some open =>
          if negb (h_file open) then refuse StatusInvalidParameter else
          if negb configured then refuse StatusInternalError else
          match decodeLockOps (Lock.Locks req) with
          | None => refuse StatusInvalidParameter
          | Some ops =>
              match applyLockOps (keyFor s) (table s) (h_id open) ops with
              | (m, _, None) => (set_table s m, Reply StatusSuccess Lock.EncodeLockResponse)
              | (m, idx, Some e) =>
                  let s := set_table s m in
                  let waits := bool_decide (e = errLockConflict) && match ops !! Z.to_nat idx with Some op => blocking op | None => false end in
                  match (if waits then startLockWait s k hdr (h_id open) ops else None) with
                  | Some s => (s, Parked)
                  | None => (s, Reply (lockStatus e) Dispatch.errBody)
                  end
              end
          end
      end
  | _ => refuse StatusInvalidParameter
  end.

(** ** [awaitLock] *)

Definition cancelled (s : process) (x : wait) : bool :=
  match conns s !! wConn x with
  | Some a => match Async.heap a !! wReg x with Some r => Async.r_cancelled r | None => false end
  | None => false
  end.

(** What a goroutine can do next: go on, or take one of the three cases of its
    [select] that are ready. *)
Inductive choice := Go | Released | Cancelled | TimedOut.

Definition attempt (s : process) (i : nat) (x : wait) (c : nat) : process :=
  match applyLockOps (keyFor s) (table s) (wOpen x) (wOps x) with
  | (m, _, None) => set_wait (set_table s m) i (answer x StatusSuccess Lock.EncodeLockResponse)
  | (m, idx, Some e) =>
      let again := bool_decide (e = errLockConflict) && match wOps x !! Z.to_nat idx with Some op => blocking op | None => false end in
      set_wait (set_table s m) i (if again then goto x (Selecting c) else answer x (lockStatus e) interimLockBody)
  end.

Definition turn (s : process) (i : nat) (x : wait) (ch : choice) : option process :=
  match wPc x, ch with
  | Subscribing, Go => let '(m, c) := releaseSignal (table s) in Some (set_wait (set_table s m) i (goto x (Trying c)))
  | Trying c, Go => Some (attempt s i x c)
  | Selecting c, Released => if bool_decide (c ∈ closed (table s)) then Some (set_wait s i (goto x Subscribing)) else None
  | Selecting c, Cancelled => if cancelled s x then Some (set_wait s i (answer x StatusCancelled interimLockBody)) else None
  | Selecting c, TimedOut => Some (set_wait s i (answer x StatusLockNotGranted interimLockBody))
  | Answered, Go => a ← conns s !! wConn x; Some (set_wait (set_conn s (wConn x) (Async.finish a (wReg x))) i (goto x Unregistered))
  | Unregistered, Go => Some (set_wait (add_pending s (-1)) i (goto x Ended))
  | _, _ => None
  end.

(** ** What a process does, in any order

    A file is opened, a handle is closed (its ranges given up, then its
    descriptor), a LOCK arrives, a parked one moves, or the connection's table of
    asynchronous requests changes for another reason: a CHANGE_NOTIFY, a CANCEL,
    the end of a handle or of the connection. *)

Inductive event :=
  | OpenFile (o : Z) (key : fileKey) | CloseFile (o : Z)
  | LockRequest (configured : bool) (GetOpen : bytes -> option lockHandle) (k : nat) (hdr : Header.Header) (body : bytes)
  | Turn (i : nat) (ch : choice)
  | Other (k : nat) (e : Async.event).

(** A goroutine's registration is taken out by itself only. *)
Definition foreign (s : process) (k : nat) (e : Async.event) : bool :=
  match e with Async.Finish j => forallb (fun x => negb (bool_decide (wConn x = k) && bool_decide (wReg x = j))) (waits s) | _ => true end.

Definition step (s : process) (e : event) : option process :=
  match e with
  | OpenFile o key => if bool_decide (o ∈ born s) then None else Some (mkProcess (table s) (<[o := key]> (keys s)) ({[o]} ∪ born s) (pendingLockWaits s) (conns s) (waits s))
  | CloseFile o => Some (mkProcess (releaseAll (keyFor s) (table s) o) (delete o (keys s)) (born s) (pendingLockWaits s) (conns s) (waits s))
  | LockRequest cf g k hdr body => Some (handleLock cf g s k hdr body).1
  | Turn i ch => x ← waits s !! i; turn s i x ch
  | Other k e => if foreign s k e then a ← conns s !! k; Some (set_conn s k (Async.exec a e)) else None
  end.

Inductive reachable (fits : process -> event -> Prop) (n : nat) : process -> Prop :=
  | reach_start : reachable fits n (newProcess n)
  | reach_step s e s' : reachable fits n s -> fits s e -> step s e = Some s' -> reachable fits n s'.

(** ** Requests and the lock table *)

Abbreviation op_words ops := (Forall (fun op => word64 (Lock.Offset (el op)) /\ word64 (Lock.Length (el op))) ops).

Lemma decode_elements_words body : forall cnt i ls, Lock.decode_elements body i cnt = Ok ls -> Forall (fun e => word64 (Lock.Offset e) /\ word64 (Lock.Length e)) ls.
Proof.
  induction cnt as [|cnt IH]; intros i ls; cbn [Lock.decode_elements]; [intros [= <-]; constructor|].
  intros H. apply bind_Ok_inv in H as (off & Ho & H). apply bind_Ok_inv in H as (l & Hl & H). apply bind_Ok_inv in H as (fl & _ & H). apply bind_Ok_inv in H as (rest & Hr & [= <-]).
  apply u64_inv in Ho, Hl. constructor; [done|by eapply IH].
Qed.

Lemma request_words body req ops : Lock.DecodeLockRequest body = Ok req -> decodeLockOps (Lock.Locks req) = Some ops -> op_words ops.
Proof.
  intros H Hd%decodeLockOps_spec. unfold Lock.DecodeLockRequest in H. destruct (len body <? 48); [done|]. apply bind_Ok_inv in H as (ss & _ & H). destruct (negb _); [done|].
  apply bind_Ok_inv in H as (cnt & _ & H). apply bind_Ok_inv in H as (sq & _ & H). apply bind_Ok_inv in H as (fid & _ & H). destruct (cnt =? 0); [done|]. destruct (len body <? 24 + cnt * 24); [done|].
  apply bind_Ok_inv in H as (ls & Hls%decode_elements_words & [= <-]). cbn [Lock.Locks] in Hd. destruct Hd as [<- _]. by rewrite Forall_map in Hls.
Qed.

Lemma reach_on m m' : Locks.reachable m -> steps m m' -> Locks.reachable m'.
Proof. intros Hm Hs. unfold Locks.reachable, steps in *. by etrans. Qed.
#[local] Hint Resolve reach_on : core.

Section Table.
Context (keyFor : Z -> option fileKey) (open : Z).

Lemma applyLock_steps m s l k : word64 s -> word64 l -> steps m (applyLock keyFor m open s l k).1.
Proof. intros Hs Hl. unfold applyLock. destruct (keyFor open) as [key|]; [|apply rtc_refl]. apply rtc_once. by apply step_apply. Qed.

Lemma fold_steps (f : lockRange -> lockKind) ds : forall m, words ds -> steps m (fold_left (fun m r => (applyLock keyFor m open (r_start r) (r_length r) (f r)).1) ds m).
Proof.
  induction ds as [|d ds IH]; intros m Hw; cbn [fold_left]; [apply rtc_refl|]. apply words_cons in Hw as [[Hs Hl] Hw].
  apply (transitivity (applyLock_steps m (r_start d) (r_length d) (f d) Hs ltac:(unfold word64; lia))). by apply IH.
Qed.

Lemma snapshot_words m : Locks.reachable m -> words (snapshotRanges keyFor m open).
Proof.
  intros Hr d Hd. unfold snapshotRanges in Hd. destruct (keyFor open) as [key|]; [|by apply elem_of_nil in Hd]. unfold snapshot in Hd. apply list_elem_of_filter in Hd as [_ Hd].
  by apply (good_word _ (inv_at_key _ key (linv_t _ (reachable_LInv _ Hr)))).
Qed.

Lemma restore_steps m snap : Locks.reachable m -> words snap -> steps m (restoreLocks keyFor m open snap).
Proof.
  intros Hm Hs. unfold restoreLocks. etrans; [apply (fold_steps (fun _ => lockUnlock))|by apply (fold_steps kind)].
  intros d Hd. apply rangesDiff_in in Hd as [Hd _]. by apply (snapshot_words m).
Qed.

Lemma apply_ops_steps multi snap ops : words snap -> forall m i, Locks.reachable m -> op_words ops -> steps m (apply_ops keyFor m open multi snap i ops).1.1.
Proof.
  intros Hsn. induction ops as [|op ops IH]; intros m i Hm Hw; cbn [apply_ops]; [apply rtc_refl|]. apply Forall_cons in Hw as [[Hs Hl] Hw].
  pose proof (applyLock_steps m _ _ (op_kind op) Hs Hl) as H1. destruct (applyLock _ _ _ _ _ _) as [m1 [e|]]; cbn [fst] in *.
  - destruct multi; [|done]. etrans; [exact H1|]. apply restore_steps; [|done]. by apply (reach_on m).
  - etrans; [exact H1|]. apply IH; [|done]. by apply (reach_on m).
Qed.

Lemma applyLockOps_steps m ops : Locks.reachable m -> op_words ops -> steps m (applyLockOps keyFor m open ops).1.1.
Proof. intros Hm Hw. unfold applyLockOps. apply apply_ops_steps; [|done|done]. destruct (1 <? len ops); [by apply snapshot_words|by intros ? ?%elem_of_nil]. Qed.

(** A handle whose descriptor is gone is granted nothing, and changes nothing. *)
Lemma closed_handle m ops : keyFor open = None -> ops <> [] -> exists i, applyLockOps keyFor m open ops = (m, i, Some errSys).
Proof.
  intros Hk Hne. destruct ops as [|op ops]; [done|]. unfold applyLockOps. exists 0. cbn [apply_ops]. unfold applyLock. rewrite Hk. f_equal. f_equal.
  destruct (1 <? len (op :: ops)); [|done]. unfold restoreLocks, snapshotRanges. by rewrite Hk.
Qed.

(** The range of another handle that stands in the way of an element. *)
Definition in_the_way (m : lockTable) (key : fileKey) (op : lockOp) (r : lockRange) : Prop :=
  r ∈ at_key (t m) key /\ r_owner r <> open /\ rangesOverlap (Lock.Offset (el op)) (Lock.Length (el op)) (r_start r) (r_length r) = true /\
  op_kind op <> lockUnlock /\ Lock.Length (el op) <> 0 /\ bool_decide (op_kind op = lockExclusive) || r_exclusive r = true.
End Table.

Section Blocked.
Context (keyFor : Z -> option fileKey) (open : Z) (key : fileKey) (Hkey : keyFor open = Some key).

Lemma elsewhere_trans a b c : same_elsewhere open key a b -> same_elsewhere open key b c -> same_elsewhere open key a c.
Proof. intros [H1 H2] [H3 H4]. split; intros; [by rewrite H3, H1|by rewrite H4, H2]. Qed.

Lemma way_moves m m' op r : same_elsewhere open key m m' -> in_the_way open m key op r <-> in_the_way open m' key op r.
Proof. intros [_ He]. unfold in_the_way. split; intros (H1 & H2 & H); (split; [by apply He|done]). Qed.

(** What refuses an element for a conflict. *)
Lemma refused_way m op : (applyLock keyFor m open (Lock.Offset (el op)) (Lock.Length (el op)) (op_kind op)).2 = Some errLockConflict -> exists r, in_the_way open m key op r.
Proof.
  rewrite (proj2 (applyLock_t keyFor open key Hkey _ _ _ _)). destruct (decide (Lock.Length (el op) = 0)) as [->|Hl]; [done|].
  pose proof (apply_cases (t m) key open (Lock.Offset (el op)) (Lock.Length (el op)) (op_kind op) Hl) as Hc.
  inversion Hc as [| | |k r Hk Hr Ho Hov Hx Hkk|]; try done. intros _. exists r. by split_and!.
Qed.

(** Nothing in its way is granted: the table would hold both. *)
Lemma way_refuses m op r : Inv (t m) -> word64 (Lock.Offset (el op)) -> word64 (Lock.Length (el op)) -> in_the_way open m key op r ->
  (applyLock keyFor m open (Lock.Offset (el op)) (Lock.Length (el op)) (op_kind op)).2 <> None.
Proof.
  intros Hi Hs Hl (Hr & Ho & Hov & Hk & Hz & Hx). pose proof (applyLock_Inv keyFor open key Hkey m _ _ (op_kind op) Hi Hs Hl) as Hi'.
  pose proof (inv_at_key _ key Hi) as Hg. pose proof (inv_at_key _ key Hi') as Hg'. destruct (applyLock_t keyFor open key Hkey m (Lock.Offset (el op)) (Lock.Length (el op)) (op_kind op)) as [Ht ->]. rewrite Ht in Hg'.
  assert (Hboth : forall rs, good rs -> r ∈ rs -> mkRange open (Lock.Offset (el op)) (Lock.Length (el op)) (bool_decide (op_kind op = lockExclusive)) ∈ rs -> False).
  { intros rs Hrs Hin1 Hin2. destruct (good_compat rs Hrs _ r Hin2 Hin1) as [H1 H2]; [cbn; congruence|exact Hov|]. cbn in H1. rewrite H1, H2 in Hx. done. }
  pose proof (apply_cases (t m) key open (Lock.Offset (el op)) _ (op_kind op) Hz) as Hc. inversion Hc as [t' Hu Hkk|k _ Hin Hkk Heq|k t' _ _ Hat _ Hkk Heq|k r' _ _ _ _ _ Hkk Heq|k _ _ _ Hkk Heq]; try done; exfalso; rewrite <- Heq in Hg'; cbn [fst] in Hg'.
  - by apply (Hboth (at_key (t m) key)).
  - rewrite Hat in Hg'. apply (Hboth _ Hg'); apply elem_of_app; [by left|right; by apply list_elem_of_singleton].
Qed.

Lemma apply_ops_way multi snap ops op r : op ∈ ops -> op_words ops -> forall m i, Inv (t m) -> in_the_way open m key op r -> (apply_ops keyFor m open multi snap i ops).2 <> None.
Proof.
  induction ops as [|o ops IH]; intros Hin Hw m i Hi Hway; [by apply elem_of_nil in Hin|]. cbn [apply_ops]. apply Forall_cons in Hw as [[Hs Hl] Hw].
  pose proof (applyLock_Inv keyFor open key Hkey m _ _ (op_kind o) Hi Hs Hl) as Hi1. pose proof (applyLock_elsewhere keyFor open key Hkey m (Lock.Offset (el o)) (Lock.Length (el o)) (op_kind o)) as He.
  apply elem_of_cons in Hin as [->|Hin].
  - pose proof (way_refuses m o r Hi Hs Hl Hway) as Hne. by destruct (applyLock keyFor m open _ _ _) as [m1 [e|]].
  - destruct (applyLock keyFor m open _ _ _) as [m1 [e|]]; [done|]. apply IH; [done|done|done|]. by apply (way_moves m).
Qed.

Lemma request_spec m ops : Inv (t m) -> op_words ops ->
  match applyLockOps keyFor m open ops with
  | (m', _, Some _) => same_elsewhere open key m m' /\ (forall r, r ∈ at_key (t m') key <-> r ∈ at_key (t m) key)
  | (m', _, None) => same_elsewhere open key m m'
  end.
Proof.
  intros Hi Hw. pose proof (apply_ops_spec keyFor open key Hkey m ops m 0 (1 <? len ops) Hi Hi ltac:(done)) as Hs. unfold applyLockOps.
  ospecialize (Hs _ Hw). { intros Hm. pose proof (len_nonneg ops). destruct (decide (len ops = 0)) as [?%len_zero|]; [by left|right; split; [done|lia]]. }
  destruct (apply_ops _ _ _ _ _ _ _) as [[m' i] [e|]]; [by destruct Hs as (_ & ? & ? & _)|by destruct Hs as (_ & ? & _)].
Qed.

(** What is in the way of one element refuses the request whole. *)
Lemma way_refuses_request m ops op r : Inv (t m) -> op ∈ ops -> op_words ops -> in_the_way open m key op r -> (applyLockOps keyFor m open ops).2 <> None.
Proof. intros Hi Hin Hw Hway. unfold applyLockOps. by apply (apply_ops_way _ _ ops op r). Qed.

(** And a request refused for a conflict has something in its way, before and after. *)
Lemma apply_ops_refused m0 multi ops : Inv (t m0) -> forall m i, Inv (t m) -> same_elsewhere open key m0 m -> op_words ops ->
  (apply_ops keyFor m open multi (if multi then snapshotRanges keyFor m0 open else []) i ops).2 = Some errLockConflict -> exists op r, op ∈ ops /\ in_the_way open m0 key op r.
Proof.
  intros Hi0. induction ops as [|o ops IH]; intros m i Hi He Hw; cbn [apply_ops]; [done|]. apply Forall_cons in Hw as [[Hs Hl] Hw].
  pose proof (applyLock_Inv keyFor open key Hkey m _ _ (op_kind o) Hi Hs Hl) as Hi1. pose proof (applyLock_elsewhere keyFor open key Hkey m (Lock.Offset (el o)) (Lock.Length (el o)) (op_kind o)) as He1.
  pose proof (refused_way m o) as Hway. destruct (applyLock keyFor m open _ _ _) as [m1 [e|]]; cbn [fst snd] in *.
  - intros [= ->]. destruct (Hway eq_refl) as [r Hr]. exists o, r. split; [apply elem_of_cons; by left|]. by apply (way_moves m0 m).
  - intros Hx. destruct (IH m1 (i + 1) Hi1 (elsewhere_trans _ _ _ He He1) Hw Hx) as (op & r & Hin & Hr). exists op, r. split; [apply elem_of_cons; by right|done].
Qed.

(** The other handles keep their ranges, and the handle its own where it is refused. *)
Lemma request_elsewhere m ops : Inv (t m) -> op_words ops -> same_elsewhere open key m (applyLockOps keyFor m open ops).1.1.
Proof.
  intros Hi Hw. pose proof (request_spec m ops Hi Hw) as Hs. destruct (applyLockOps keyFor m open ops) as [[m' idx] [e|]]; apply Hs.
Qed.

Lemma refused_request_way m ops : Locks.reachable m -> op_words ops -> (applyLockOps keyFor m open ops).2 = Some errLockConflict ->
  exists op r, op ∈ ops /\ in_the_way open (applyLockOps keyFor m open ops).1.1 key op r.
Proof.
  intros Hr Hw Hc. pose proof (linv_t _ (reachable_LInv _ Hr)) as Hi. pose proof Hc as Hc'. unfold applyLockOps in Hc'.
  destruct (apply_ops_refused m (1 <? len ops) ops Hi m 0 Hi ltac:(done) Hw Hc') as (op & r & Hin & Hway). exists op, r. split; [done|].
  apply (way_moves m); [|done]. by apply request_elsewhere.
Qed.
End Blocked.

(** ** What holds in every state *)

Definition waiting (p : pc) : bool := match p with Subscribing | Trying _ | Selecting _ => true | _ => false end.
Definition counted (x : wait) : Z := if bool_decide (wPc x = Ended) then 0 else 1.
Definition chan_of (p : pc) : option nat := match p with Trying c | Selecting c => Some c | _ => None end.

(** What may complete a parked request. *)
Definition completes (r : Z * bytes) : Prop :=
  r = (StatusSuccess, Lock.EncodeLockResponse) \/
  (r.2 = interimLockBody /\ r.1 ∈ [StatusCancelled; StatusLockNotGranted; StatusInsufficientResources; StatusInvalidParameter; StatusInternalError]).

Record wait_ok (s : process) (x : wait) : Prop := {
  wo_words : op_words (wOps x);
  wo_some : wOps x <> [];
  wo_born : wOpen x ∈ born s;
  wo_conn : (wConn x < length (conns s))%nat;
  wo_sent : if waiting (wPc x) then wSent x = [(StatusPending, interimLockBody)] else exists r, wSent x = [(StatusPending, interimLockBody); r] /\ completes r;
  wo_chan : forall c, chan_of (wPc x) = Some c -> c ∉ closed (table s) -> released (table s) = Some c;
  wo_blocked : forall c key, wPc x = Selecting c -> c ∉ closed (table s) -> keyFor s (wOpen x) = Some key ->
    exists op r, op ∈ wOps x /\ in_the_way (wOpen x) (table s) key op r }.

Record WInv (s : process) : Prop := {
  w_table : Locks.reachable (table s);
  w_keys : dom (keys s) ⊆ born s;
  w_owned : forall key r, r ∈ at_key (t (table s)) key -> keys s !! r_owner r = Some key;
  w_pending : pendingLockWaits s = sumZ counted (waits s);
  w_cap : pendingLockWaits s <= maxPendingLockWaits;
  w_each : forall i x, waits s !! i = Some x -> wait_ok s x }.

Lemma grew_trans a b c : grew a b -> grew b c -> grew a c.
Proof. intros H1 H2 key. destruct (H1 key) as [r1 E1], (H2 key) as [r2 E2]. exists (r1 ++ r2). by rewrite E2, E1, app_assoc. Qed.

(** While its channel is open the ranges only grow. *)
Lemma steps_parked l l' c : steps l l' -> parked l c -> c ∉ closed l' -> grew (t l) (t l') /\ parked l' c.
Proof.
  induction 1 as [|l l1 l2 Hs Hss IH]; intros Hp Hc; [by split; [apply grew_refl|]|]. assert (c ∉ closed l1) by (intros Hin; by apply Hc, (steps_closed l1)).
  destruct (step_parked l l1 c Hp Hs) as [Hg Hp1]; [done|]. destruct (IH Hp1 Hc) as [Hg2 Hp2]. split; [by apply (grew_trans _ (t l1))|done].
Qed.

(** A wait stands whatever else the process does to the table and to the files. *)
Lemma wait_moves s s' x : steps (table s) (table s') -> born s ⊆ born s' -> length (conns s') = length (conns s) -> (forall key, keyFor s' (wOpen x) = Some key -> keyFor s (wOpen x) = Some key) ->
  wait_ok s x -> wait_ok s' x.
Proof.
  intros Hs Hb Hlen Hk [H1 H2 H3 Hc H4 H5 H6]. assert (Hold : forall c, chan_of (wPc x) = Some c -> c ∉ closed (table s') -> (c ∉ closed (table s)) /\ grew (t (table s)) (t (table s')) /\ parked (table s') c).
  { intros c Hch Hn. assert (c ∉ closed (table s)) by (intros Hin; by apply Hn, (steps_closed (table s))). split; [done|]. apply (steps_parked _ _ _ Hs); [split; [by apply H5|done]|done]. }
  split; try done; [by apply Hb|by rewrite Hlen|intros c Hch Hn; by destruct (Hold c Hch Hn) as (_ & _ & [? _])|]. intros c key Hp Hn Hkey. destruct (Hold c ltac:(by rewrite Hp) Hn) as (Hn' & Hg & _).
  destruct (H6 c key Hp Hn' (Hk _ Hkey)) as (op & r & Hin & Hr & Hw). exists op, r. split; [done|]. split; [|done]. destruct (Hg key) as [rs ->]. apply elem_of_app. by left.
Qed.

(** The table moves. *)
Lemma table_WInv s m : WInv s -> steps (table s) m -> (forall key r, r ∈ at_key (t m) key -> keys s !! r_owner r = Some key) -> WInv (set_table s m).
Proof.
  intros [H1 H2 H3 H4 H5 H6] Hs Ho. split; try done; [by apply (reach_on (table s))|]. intros i x Hx. apply (wait_moves s); [done|done|done|done|by apply (H6 i)].
Qed.

(** One wait moves, and the count with it. *)
Lemma update_WInv s i x y d : WInv s -> waits s !! i = Some x -> wait_ok s y -> counted y = counted x + d -> d <= 0 -> WInv (set_wait (add_pending s d) i y).
Proof.
  intros [H1 H2 H3 H4 H5 H6] Hx Hy Hc Hd. split; cbn [set_wait add_pending table keys born pendingLockWaits waits]; try done; [rewrite (sumZ_insert _ _ _ _ _ Hx); lia|lia|].
  intros j z. destruct (decide (j = i)) as [->|Hne].
  - rewrite list_lookup_insert_eq by (by eapply lookup_lt_Some). intros [= <-]. apply (wait_moves s); [apply rtc_refl|done|done|done|done].
  - rewrite list_lookup_insert_ne by done. intros Hz. apply (wait_moves s); [apply rtc_refl|done|done|done|by apply (H6 j)].
Qed.

Lemma move_WInv s i x y : WInv s -> waits s !! i = Some x -> wait_ok s y -> counted y = counted x -> WInv (set_wait s i y).
Proof.
  intros Hi Hx Hy Hc. pose proof (update_WInv s i x y 0 Hi Hx Hy ltac:(lia) ltac:(lia)) as H. unfold add_pending in H. by rewrite Z.add_0_r in H.
Qed.

(** The connections' tables are not looked at. *)
Lemma conns_WInv s k a : WInv s -> WInv (set_conn s k a).
Proof. intros [H1 H2 H3 H4 H5 H6]. split; try done. intros i x Hx. apply (wait_moves s); [apply rtc_refl|done|cbn; apply length_insert|done|by apply (H6 i)]. Qed.

Lemma request_WInv s open ops : WInv s -> op_words ops -> WInv (set_table s (applyLockOps (keyFor s) (table s) open ops).1.1).
Proof.
  intros Hi Hw. destruct (keyFor s open) as [key|] eqn:Hk.
  - apply table_WInv; [done|by apply applyLockOps_steps; [apply w_table|]|]. intros key' r Hr. pose proof (linv_t _ (reachable_LInv _ (w_table s Hi))) as Ht.
    destruct (request_elsewhere (keyFor s) open key Hk (table s) ops Ht Hw) as [He Ho]. destruct (decide (key' = key)) as [->|Hne].
    + destruct (decide (r_owner r = open)) as [->|Hr']; [done|]. apply (w_owned s Hi). by apply Ho.
    + apply (w_owned s Hi). by rewrite (at_key_ext _ _ _ (He key' Hne)) in Hr.
  - assert (Hm : (applyLockOps (keyFor s) (table s) open ops).1.1 = table s) by (destruct ops; [done|]; destruct (closed_handle (keyFor s) open (table s) (l :: ops) Hk ltac:(done)) as [i ->]; done).
    rewrite Hm. apply table_WInv; [done|apply rtc_refl|by apply w_owned].
Qed.

Lemma lockStatus_completes e : completes (lockStatus e, interimLockBody).
Proof. right. split; [done|]. destruct e; cbn; rewrite !elem_of_cons; tauto. Qed.

(** The answer of a goroutine: it waits no more. *)
Lemma answer_ok s x r : waiting (wPc x) = true -> completes r -> wait_ok s x -> wait_ok s (answer x r.1 r.2).
Proof. intros Hw Hr [H1 H2 H3 Hcn H4 H5 H6]. rewrite Hw in H4. split; try done. cbn. rewrite H4. exists r. split; [by destruct r|done]. Qed.

Lemma goto_ok s x p : waiting p = waiting (wPc x) -> chan_of p = None -> wait_ok s x -> wait_ok s (goto x p).
Proof. intros Hw Hc [H1 H2 H3 Hcn H4 H5 H6]. split; try done; [cbn; by rewrite Hw|cbn; by rewrite Hc|]. intros c key Hp. cbn in Hp. by rewrite Hp in Hc. Qed.

(** The range that refused a request, if its handle is open. *)
Lemma refused_blocked s open ops m idx key : WInv s -> op_words ops -> applyLockOps (keyFor s) (table s) open ops = (m, idx, Some errLockConflict) -> keyFor s open = Some key ->
  exists op r, op ∈ ops /\ in_the_way open m key op r.
Proof.
  intros Hi Hw Ha Hk. destruct (refused_request_way (keyFor s) open key Hk (table s) ops (w_table s Hi) Hw) as (op & r & H); [by rewrite Ha|]. rewrite Ha in H. by exists op, r.
Qed.

Lemma attempt_WInv s i x c : WInv s -> waits s !! i = Some x -> wPc x = Trying c -> WInv (attempt s i x c).
Proof.
  intros Hi Hx Hp. pose proof (w_each s Hi i x Hx) as Hok. pose proof (request_WInv s (wOpen x) (wOps x) Hi (wo_words _ _ Hok)) as Hi'.
  pose proof (refused_blocked s (wOpen x) (wOps x)) as Hb. unfold attempt. destruct (applyLockOps _ _ _ _) as [[m idx] e] eqn:Ha. cbn [fst] in Hi'. pose proof (w_each _ Hi' i x Hx) as Hok'.
  assert (Hans : forall r, completes r -> WInv (set_wait (set_table s m) i (answer x r.1 r.2))).
  { intros r Hr. apply (move_WInv _ i x); [done|done|apply answer_ok; [by rewrite Hp|done|done]|]. unfold counted. cbn. by rewrite Hp. }
  destruct e as [e|]; [|apply (Hans (_, _)); by left]. destruct (bool_decide (e = errLockConflict)) eqn:He; cbn [andb]; [|apply (Hans (_, _)), lockStatus_completes].
  destruct (match wOps x !! Z.to_nat idx with Some op => blocking op | None => false end); [|apply (Hans (_, _)), lockStatus_completes]. apply bool_decide_eq_true in He as ->.
  apply (move_WInv _ i x); [done|done| |unfold counted; cbn; by rewrite Hp]. destruct Hok' as [H1 H2 H3 Hcn H4 H5 H6]. rewrite Hp in H4, H5. split; try done. intros c' key _ _ Hkey. by apply (Hb m idx key).
Qed.

Lemma startLockWait_WInv s k hdr open ops s' : WInv s -> op_words ops -> ops <> [] -> open ∈ born s -> startLockWait s k hdr open ops = Some s' -> WInv s'.
Proof.
  intros Hi Hw Hne Hb. unfold startLockWait. destruct (Z.ltb_spec maxPendingLockWaits (pendingLockWaits s + 1)) as [|Hle]; [done|]. destruct (conns s !! k) as [a|] eqn:Ha; [|done]. cbn [mbind option_bind]. apply lookup_lt_Some in Ha.
  destruct (Async.nextAsyncID a) as [a1 id]. destruct (Async.registerNotify a1 (Header.MessageID hdr) open) as [a2 reg]. intros [= <-]. destruct Hi as [H1 H2 H3 H4 H5 H6].
  split; try done; unfold spawn, set_conn, add_pending; cbn [table keys born pendingLockWaits waits]; [rewrite sumZ_app, H4; done|].
  intros i x [Hx|[Hi Hx]]%lookup_app_Some; [apply (wait_moves s); [apply rtc_refl|done|cbn; apply length_insert|done|by apply (H6 i)]|]. apply list_lookup_singleton_Some in Hx as [_ <-]. split; try done. cbn. by rewrite length_insert.
Qed.

Lemma handleLock_WInv cf g s k hdr body : WInv s -> WInv (handleLock cf g s k hdr body).1.
Proof.
  intros Hi. unfold handleLock. destruct (Lock.DecodeLockRequest body) as [req| |] eqn:Hreq; [|done|done]. destruct (g (Lock.FileID req)) as [open|]; [|done].
  destruct (negb (h_file open)); [done|]. destruct (negb cf); [done|]. destruct (decodeLockOps (Lock.Locks req)) as [ops|] eqn:Hops; [|done]. pose proof (request_words _ _ _ Hreq Hops) as Hw.
  pose proof (request_WInv s (h_id open) ops Hi Hw) as Hi'. destruct (applyLockOps (keyFor s) (table s) (h_id open) ops) as [[m idx] [e|]] eqn:Ha; [|done]. cbn [fst] in Hi'.
  destruct (bool_decide (e = errLockConflict)) eqn:He; cbn [andb]; [|done]. destruct (ops !! Z.to_nat idx) as [op|] eqn:Hop; [|done]. destruct (blocking op); [|done].
  destruct (startLockWait _ _ _ _ _) as [s'|] eqn:Hs; [|done]. apply bool_decide_eq_true in He as ->. cbn [fst]. assert (Hne : ops <> []) by (by intros ->).
  apply (startLockWait_WInv (set_table s m) k hdr (h_id open) ops); try done. apply (w_keys s Hi). destruct (keys s !! h_id open) as [key|] eqn:Hk; [by apply elem_of_dom; eexists|].
  destruct (closed_handle (keyFor s) (h_id open) (table s) ops Hk Hne) as [j Hj]. rewrite Ha in Hj. by injection Hj.
Qed.

Lemma turn_WInv s i x ch s' : WInv s -> waits s !! i = Some x -> turn s i x ch = Some s' -> WInv s'.
Proof.
  intros Hi Hx. pose proof (w_each s Hi i x Hx) as Hok. unfold turn. destruct (wPc x) eqn:Hp, ch; try done.
  - destruct (releaseSignal (table s)) as [m c] eqn:Hr. intros [= <-]. assert (Hm : m = (releaseSignal (table s)).1) by (by rewrite Hr). assert (Hc : released m = Some c) by (revert Hr; unfold releaseSignal; destruct (released (table s)) eqn:Hrel; by intros [= <- <-]).
    assert (Ht : t m = t (table s)) by (rewrite Hm; unfold releaseSignal; by destruct (released (table s))).
    pose proof (table_WInv s m Hi ltac:(rewrite Hm; apply rtc_once, step_signal) ltac:(rewrite Ht; by apply w_owned)) as Hi'. apply (move_WInv _ i x); [done|done| |unfold counted; cbn; by rewrite Hp].
    destruct (w_each _ Hi' i x Hx) as [H1 H2 H3 Hcn H4 H5 H6]. rewrite Hp in H4. split; try done. intros c' [= <-] _. done.
  - intros [= <-]. by apply attempt_WInv.
  - case_bool_decide; [|done]. intros [= <-]. apply (move_WInv s i x); [done|done|by apply goto_ok; [rewrite Hp|..]|unfold counted; cbn; by rewrite Hp].
  - destruct (cancelled s x); [|done]. intros [= <-]. apply (move_WInv s i x); [done|done| |unfold counted; cbn; by rewrite Hp]. apply (answer_ok s x (_, _)); [by rewrite Hp|right; split; [done|]; rewrite !elem_of_cons; tauto|done].
  - intros [= <-]. apply (move_WInv s i x); [done|done| |unfold counted; cbn; by rewrite Hp]. apply (answer_ok s x (_, _)); [by rewrite Hp|right; split; [done|]; rewrite !elem_of_cons; tauto|done].
  - destruct (conns s !! wConn x) as [a|]; [|done]. intros [= <-]. pose proof (conns_WInv s (wConn x) (Async.finish a (wReg x)) Hi) as Hi'.
    apply (move_WInv _ i x); [done|done| |unfold counted; cbn; by rewrite Hp]. apply goto_ok; [by rewrite Hp|done|by apply (w_each _ Hi' i)].
  - intros [= <-]. apply (update_WInv s i x); [done|done| |unfold counted; cbn; by rewrite Hp|lia]. by apply goto_ok; [rewrite Hp|..].
Qed.

Lemma close_WInv s o : WInv s -> WInv (mkProcess (releaseAll (keyFor s) (table s) o) (delete o (keys s)) (born s) (pendingLockWaits s) (conns s) (waits s)).
Proof.
  intros Hi. assert (Hs : steps (table s) (releaseAll (keyFor s) (table s) o)) by (unfold releaseAll; destruct (keyFor s o); [apply rtc_once, step_release|apply rtc_refl]).
  assert (Hgone : forall key r, r ∈ at_key (t (releaseAll (keyFor s) (table s) o)) key -> r_owner r <> o /\ r ∈ at_key (t (table s)) key).
  { intros key r. unfold releaseAll, keyFor. destruct (keys s !! o) as [k|] eqn:Hk; [|intros Hr; split; [|done]; intros Ho; apply (w_owned s Hi) in Hr; congruence].
    unfold lt_releaseOwner. rewrite publish_t. destruct (decide (key = k)) as [->|Hne].
    - unfold releaseOwner, at_key at 1. cbn [locks]. rewrite store_eq, list_elem_of_filter. intros [Hn Hr]. split; [|done]. intros Ho. by rewrite Ho, Z.eqb_refl in Hn.
    - unfold releaseOwner, at_key at 1. cbn [locks]. rewrite store_ne by congruence. intros Hr. split; [|done]. intros Ho. apply (w_owned s Hi) in Hr. congruence. }
  destruct Hi as [H1 H2 H3 H4 H5 H6]. split; cbn [table keys born pendingLockWaits waits]; try done; [by apply (reach_on (table s))|rewrite dom_delete_L; set_solver| |].
  - intros key r Hr. destruct (Hgone key r Hr) as [Hne Hin]. rewrite lookup_delete_ne by done. by apply H3.
  - intros i x Hx. apply (wait_moves s); [done|done|done| |by apply (H6 i)]. intros key. unfold keyFor. cbn [keys]. by intros [_ Hk]%lookup_delete_Some.
Qed.

Lemma step_WInv s e s' : WInv s -> step s e = Some s' -> WInv s'.
Proof.
  intros Hi. destruct e as [o key|o|cf g k hdr body|i ch|k e]; cbn [step].
  - case_bool_decide as Hb; [done|]. intros [= <-]. destruct Hi as [H1 H2 H3 H4 H5 H6]. split; cbn [table keys born pendingLockWaits waits]; try done; [rewrite dom_insert_L; set_solver| |].
    + intros key' r Hr%H3. rewrite lookup_insert_ne; [done|]. intros Ho. apply Hb, H2, elem_of_dom. rewrite Ho. by eexists.
    + intros i x Hx. pose proof (H6 i x Hx) as Hok. apply (wait_moves s); [apply rtc_refl|cbn; set_solver|done| |done]. intros key'. unfold keyFor. cbn [keys]. rewrite lookup_insert_ne; [done|]. intros Ho. apply Hb. rewrite Ho. by apply (wo_born s x).
  - intros [= <-]. by apply close_WInv.
  - intros [= <-]. by apply handleLock_WInv.
  - destruct (waits s !! i) as [x|] eqn:Hx; [|done]. by apply turn_WInv.
  - destruct (foreign s k e); [|done]. destruct (conns s !! k) as [a|]; [|done]. intros [= <-]. by apply conns_WInv.
Qed.

Lemma reachable_WInv fits n s : reachable fits n s -> WInv s.
Proof.
  induction 1 as [|s e s' _ IH _ Hs]; [|by apply (step_WInv s e)]. split; cbn [newProcess table keys born pendingLockWaits waits]; try done; [apply rtc_refl|].
  intros key r. unfold at_key. cbn. rewrite lookup_empty. by intros ?%elem_of_nil.
Qed.

(** A refused attempt leaves every file's ranges as they were. *)
Lemma refused_ranges s open ops m idx e : WInv s -> op_words ops -> applyLockOps (keyFor s) (table s) open ops = (m, idx, Some e) ->
  forall key, at_key (t m) key ≡ₚ at_key (t (table s)) key.
Proof.
  intros Hi Hw Ha key'. pose proof (linv_t _ (reachable_LInv _ (w_table s Hi))) as Ht. pose proof (request_WInv s open ops Hi Hw) as Hi'. rewrite Ha in Hi'. pose proof (linv_t _ (reachable_LInv _ (w_table _ Hi'))) as Ht'. cbn in Ht'.
  destruct (keyFor s open) as [key|] eqn:Hk.
  - pose proof (request_spec (keyFor s) open key Hk (table s) ops Ht Hw) as Hs. rewrite Ha in Hs. destruct Hs as [[He _] Hr].
    destruct (decide (key' = key)) as [->|Hne]; [|by rewrite (at_key_ext _ _ _ (He key' Hne))]. apply NoDup_Permutation; [by apply good_nodup, inv_at_key..|done].
  - destruct ops as [|op ops]; [done|]. destruct (closed_handle (keyFor s) open (table s) (op :: ops) Hk ltac:(done)) as [j Hj]. rewrite Ha in Hj. by injection Hj as -> _ _.
Qed.

Lemma set_wait_at s i x y : waits s !! i = Some x -> waits (set_wait s i y) !! i = Some y.
Proof. intros Hx. cbn. rewrite list_lookup_insert_eq; [done|by eapply lookup_lt_Some]. Qed.

(** A goroutine takes ranges only with the answer that grants the whole request. *)
Lemma turn_ranges s i x ch s' : WInv s -> waits s !! i = Some x -> turn s i x ch = Some s' ->
  (forall key, at_key (t (table s')) key ≡ₚ at_key (t (table s)) key) \/
  (exists x', waits s' !! i = Some x' /\ last (wSent x') = Some (StatusSuccess, Lock.EncodeLockResponse)).
Proof.
  intros Hi Hx. unfold turn. destruct (wPc x) eqn:Hp, ch; try done.
  - unfold releaseSignal. destruct (released (table s)); intros [= <-]; by left.
  - intros [= <-]. pose proof (refused_ranges s (wOpen x) (wOps x)) as Hr. unfold attempt. destruct (applyLockOps _ _ _ _) as [[m idx] [e|]].
    + left. intros key. apply (Hr m idx e Hi (wo_words _ _ (w_each s Hi i x Hx)) eq_refl).
    + right. eexists. split; [by apply (set_wait_at (set_table s m) i x)|]. cbn. apply last_snoc.
  - case_bool_decide; [|done]. intros [= <-]. by left.
  - destruct (cancelled s x); [|done]. intros [= <-]. by left.
  - intros [= <-]. by left.
  - destruct (conns s !! wConn x); [|done]. intros [= <-]. by left.
  - intros [= <-]. by left.
Qed.

(** ** It comes to its end *)

Fixpoint run_turns (s : process) (i : nat) (chs : list choice) : option process :=
  match chs with [] => Some s | ch :: chs => x ← waits s !! i; s ← turn s i x ch; run_turns s i chs end.

(** [k] turns of its own are enough for goroutine [i]. *)
Definition ends_in (k : nat) (s : process) (i : nat) : Prop :=
  exists chs s' x', (length chs <= k)%nat /\ run_turns s i chs = Some s' /\ waits s' !! i = Some x' /\ wPc x' = Ended.

Lemma ends_S k s i x ch s' : waits s !! i = Some x -> turn s i x ch = Some s' -> ends_in k s' i -> ends_in (S k) s i.
Proof.
  intros Hx Ht (chs & s2 & x2 & Hl & Hr & H). exists (ch :: chs), s2, x2. split; [cbn; lia|]. split; [|done]. cbn [run_turns]. rewrite Hx. cbn [mbind option_bind]. by rewrite Ht.
Qed.

(** How far each point is from the end. *)
Definition distance (p : pc) : nat := match p with Subscribing => 5 | Trying _ => 4 | Selecting _ => 3 | Answered => 2 | Unregistered => 1 | Ended => 0 end.

(** Each turn but for a wake-up brings it nearer. *)
Lemma nearer s i x : WInv s -> waits s !! i = Some x -> wPc x <> Ended -> exists ch s' x', turn s i x ch = Some s' /\ waits s' !! i = Some x' /\ (distance (wPc x') < distance (wPc x))%nat.
Proof.
  intros Hi Hx Hp. pose proof (lookup_lt_is_Some_2 _ _ (wo_conn _ _ (w_each s Hi i x Hx))) as [a Ha]. unfold turn. destruct (wPc x) eqn:Hpc; try done.
  - destruct (releaseSignal (table s)) as [m c]. exists Go, (set_wait (set_table s m) i (goto x (Trying c))), (goto x (Trying c)). split; [done|]. split; [by apply (set_wait_at (set_table s m) i x)|cbn; lia].
  - exists Go, (attempt s i x c). unfold attempt. destruct (applyLockOps _ _ _ _) as [[m idx] [e|]]; (eexists; split; [done|split; [by apply (set_wait_at (set_table s m) i x)|]]); [destruct (_ && _)|]; cbn; lia.
  - exists TimedOut. do 2 eexists. split; [done|]. split; [by apply (set_wait_at s i x)|cbn; lia].
  - rewrite Ha. exists Go. do 2 eexists. split; [done|]. split; [by apply (set_wait_at (set_conn s _ _) i x)|cbn; lia].
  - exists Go. do 2 eexists. split; [done|]. split; [by apply (set_wait_at (add_pending s (-1)) i x)|cbn; lia].
Qed.

Lemma ends k : forall s i x, WInv s -> waits s !! i = Some x -> (distance (wPc x) <= k)%nat -> ends_in k s i.
Proof.
  induction k as [|k IH]; intros s i x Hi Hx Hd; (destruct (decide (wPc x = Ended)) as [He|Hne]; [exists [], s, x; split_and!; [cbn; lia|done|done|done]|]).
  - destruct (wPc x); cbn in Hd; (lia || done).
  - destruct (nearer s i x Hi Hx Hne) as (ch & s' & x' & Ht & Hx' & Hlt). apply (ends_S k s i x ch s' Hx Ht). apply (IH s' i x'); [by apply (turn_WInv s i x ch)|done|lia].
Qed.


(** ** A CANCEL completes it

    A client that does not reuse the MessageId of an outstanding request. *)

Definition well_behaved (s : process) (e : event) : Prop :=
  match e with
  | LockRequest _ _ k hdr _ => forall a, conns s !! k = Some a -> map_Forall (fun _ m => m <> Header.MessageID hdr) (Async.running a)
  | Other k e => forall a, conns s !! k = Some a -> Async.well_behaved a e
  | _ => True
  end.

Definition registered (p : pc) : bool := match p with Unregistered | Ended => false | _ => true end.

Record RInv (s : process) : Prop := {
  ri_conns : forall k a, conns s !! k = Some a -> Async.Inv a;
  ri_old : forall i x a, waits s !! i = Some x -> conns s !! wConn x = Some a -> (wReg x < Async.fresh a)%nat;
  ri_apart : forall i j x y, waits s !! i = Some x -> waits s !! j = Some y -> wConn x = wConn y -> wReg x = wReg y -> i = j;
  ri_running : forall i x a, waits s !! i = Some x -> conns s !! wConn x = Some a -> registered (wPc x) = true -> Async.running a !! wReg x = Some (Header.MessageID (wHdr x)) }.

(** An operation of a connection's table that leaves the goroutines of parked LOCKs
    running. *)
Lemma conn_RInv s k a b : RInv s -> conns s !! k = Some a -> Async.Inv b -> (Async.fresh a <= Async.fresh b)%nat ->
  (forall i x, waits s !! i = Some x -> wConn x = k -> registered (wPc x) = true -> Async.running b !! wReg x = Async.running a !! wReg x) -> RInv (set_conn s k b).
Proof.
  intros [H1 H2 H3 H4] Ha Hb Hf Hr. assert (Hlook : forall k' c, <[k := b]> (conns s) !! k' = Some c -> (k' = k /\ c = b) \/ (k' <> k /\ conns s !! k' = Some c)).
  { intros k' c. destruct (decide (k' = k)) as [->|]; [rewrite list_lookup_insert_eq by (by eapply lookup_lt_Some); intros [= <-]; by left|rewrite list_lookup_insert_ne by done; by right]. }
  split; cbn [set_conn waits conns]; try done.
  - intros k' c [[_ ->]|[_ Hc]]%Hlook; [done|by eapply H1].
  - intros i x c Hx [[Hk ->]|[_ Hc]]%Hlook; [|by eapply H2]. apply Nat.lt_le_trans with (Async.fresh a); [|done]. apply (H2 i x a Hx). by rewrite Hk.
  - intros i x c Hx [[Hk ->]|[_ Hc]]%Hlook Hreg; [|by eapply H4]. rewrite (Hr i x Hx Hk Hreg). apply (H4 i x a Hx); [by rewrite Hk|done].
Qed.

(** A goroutine that moves on keeps its registration, or has given it up. *)
Lemma move_RInv s i x y : RInv s -> waits s !! i = Some x -> wConn y = wConn x -> wReg y = wReg x -> wHdr y = wHdr x -> (registered (wPc y) = true -> registered (wPc x) = true) -> RInv (set_wait s i y).
Proof.
  intros [H1 H2 H3 H4] Hx Hc Hr Hh Hp. assert (Hlook : forall j z, <[i := y]> (waits s) !! j = Some z -> exists z', waits s !! j = Some z' /\ wConn z = wConn z' /\ wReg z = wReg z' /\ wHdr z = wHdr z' /\ (registered (wPc z) = true -> registered (wPc z') = true)).
  { intros j z. destruct (decide (j = i)) as [->|]; [rewrite list_lookup_insert_eq by (by eapply lookup_lt_Some); intros [= <-]; by exists x|rewrite list_lookup_insert_ne by done; by exists z]. }
  split; cbn [set_wait waits conns]; try done.
  - intros j z a (z' & Hz & -> & -> & _)%Hlook. by apply (H2 j z').
  - intros j1 j2 z1 z2 (y1 & Hy1 & -> & -> & _)%Hlook (y2 & Hy2 & -> & -> & _)%Hlook. by apply (H3 j1 j2 y1 y2).
  - intros j z a (z' & Hz & -> & -> & -> & Himp)%Hlook Ha Hreg. apply (H4 j z' a); auto.
Qed.

Lemma RInv_view s s' : conns s' = conns s -> waits s' = waits s -> RInv s -> RInv s'.
Proof. intros Hc Hw [H1 H2 H3 H4]. split; rewrite ?Hc, ?Hw; done. Qed.

Lemma start_RInv s k hdr open ops s' : RInv s -> well_behaved s (LockRequest true (fun _ => None) k hdr []) -> startLockWait s k hdr open ops = Some s' -> RInv s'.
Proof.
  intros Hi Hwb. unfold startLockWait. destruct (_ <? _); [done|]. destruct (conns s !! k) as [a|] eqn:Ha; [|done]. cbn [mbind option_bind]. specialize (Hwb a Ha).
  pose proof (Async.Inv_register (Async.nextAsyncID a).1 (Header.MessageID hdr) open) as Hreg. destruct (ri_conns s Hi k a Ha) as [A1 A2 A3 A4 A5 A6].
  specialize (Hreg ltac:(by split) Hwb). unfold Async.nextAsyncID in *. cbn [fst] in Hreg. set (a1 := Async.mkAsync _ _ _ _ _ _) in *.
  assert (Hr : Async.fresh (Async.registerNotify a1 (Header.MessageID hdr) open).1 = S (Async.fresh a) /\ (Async.registerNotify a1 (Header.MessageID hdr) open).2 = Async.fresh a /\
    Async.running (Async.registerNotify a1 (Header.MessageID hdr) open).1 = <[Async.fresh a := Header.MessageID hdr]> (Async.running a)) by (unfold Async.registerNotify; by destruct (Async.preCancelled a1 !! _)).
  destruct (Async.registerNotify a1 (Header.MessageID hdr) open) as [a2 reg]. cbn [fst snd] in *. destruct Hr as (Hf & -> & Hrun). intros [= <-].
  assert (Hold : forall i x, waits s !! i = Some x -> wConn x = k -> (wReg x < Async.fresh a)%nat) by (intros i x Hx Hk; apply (ri_old s Hi i x a Hx); by rewrite Hk).
  assert (Hi' : RInv (set_conn (add_pending s 1) k a2)).
  { apply (conn_RInv (add_pending s 1) k a); [by apply (RInv_view s)|done|done|lia|]. intros i x Hx Hk _. rewrite Hrun, lookup_insert_ne; [done|]. pose proof (Hold i x Hx Hk). lia. }
  destruct Hi' as [H1 H2 H3 H4]. cbn [set_conn add_pending conns waits] in *. assert (Hk : <[k:=a2]> (conns s) !! k = Some a2) by (apply list_lookup_insert_eq; by eapply lookup_lt_Some).
  split; cbn [spawn set_conn add_pending conns waits]; [done|..].
  - intros i x c [Hx|[-> ->]]%lookup_last Hc; [by apply (H2 i x)|]. cbn in Hc |- *. rewrite Hk in Hc. injection Hc as <-. lia.
  - intros i j x y [Hx|[-> ->]]%lookup_last [Hy|[-> ->]]%lookup_last; [by apply H3|cbn; intros Hc Hr; pose proof (Hold i x Hx Hc); lia|cbn; intros Hc Hr; pose proof (Hold j y Hy (eq_sym Hc)); lia|done].
  - intros i x c [Hx|[-> ->]]%lookup_last Hc Hp; [by apply (H4 i x)|]. cbn in Hc |- *. rewrite Hk in Hc. injection Hc as <-. rewrite Hrun. by rewrite lookup_insert_eq.
Qed.

Lemma exec_running a e i : match e with Async.Finish j => i <> j | Async.Register _ _ => (i < Async.fresh a)%nat | _ => True end ->
  Async.running (Async.exec a e) !! i = Async.running a !! i /\ (Async.fresh a <= Async.fresh (Async.exec a e))%nat.
Proof.
  destruct e as [m o|m st|os|j|]; cbn [Async.exec]; intros Hi.
  - unfold Async.registerNotify. destruct (Async.preCancelled a !! m); cbn; (split; [|lia]); by rewrite lookup_insert_ne by lia.
  - unfold Async.cancelNotify. destruct (Async.regs a !! m) as [r|]; [|done]. destruct (Async.heap a !! r) as [rg|]; [|done]. by destruct (Async.r_cancelled rg).
  - unfold Async.cancelNotifiesForOpens. by destruct os.
  - unfold Async.finish. destruct (Async.running a !! j); [|done]. cbn. by rewrite lookup_delete_ne.
  - done.
Qed.

Lemma exec_Inv a e : Async.Inv a -> Async.well_behaved a e -> Async.Inv (Async.exec a e).
Proof.
  intros Hi Hw. destruct e as [m o|m st|os|j|]; cbn [Async.exec]; [by apply Async.Inv_register|by apply Async.Inv_cancel| |by apply Async.Inv_finish|by apply Async.Inv_sweep].
  unfold Async.cancelNotifiesForOpens. destruct os; [done|by apply Async.Inv_sweep].
Qed.

Lemma other_RInv s k e a : RInv s -> foreign s k e = true -> conns s !! k = Some a -> Async.well_behaved a e -> RInv (set_conn s k (Async.exec a e)).
Proof.
  intros Hi Hf Ha Hw. apply (conn_RInv s k a); [done|done|by apply exec_Inv; [apply (ri_conns s Hi k)|]| |].
  - unfold Async.exec. destruct e as [m o|m st|os|j|]; cbn; try lia.
    + unfold Async.registerNotify. destruct (Async.preCancelled a !! m); cbn; lia.
    + unfold Async.cancelNotify. destruct (Async.regs a !! m) as [r|]; [|cbn; lia]. destruct (Async.heap a !! r) as [rg|]; [|cbn; lia]. destruct (Async.r_cancelled rg); cbn; lia.
    + unfold Async.cancelNotifiesForOpens. destruct os; cbn; lia.
    + unfold Async.finish. destruct (Async.running a !! j); cbn; lia.
  - intros i x Hx Hk _. apply exec_running. destruct e as [m o|m st|os|j|]; try done; [apply (ri_old s Hi i x a Hx); by rewrite Hk|].
    intros Hj. unfold foreign in Hf. rewrite forallb_forall in Hf. specialize (Hf x (proj1 (list_elem_of_In _ _) (list_elem_of_lookup_2 _ _ _ Hx))). by rewrite !bool_decide_eq_true_2 in Hf.
Qed.

Lemma turn_RInv s i x ch s' : RInv s -> waits s !! i = Some x -> turn s i x ch = Some s' -> RInv s'.
Proof.
  intros Hi Hx. unfold turn. destruct (wPc x) eqn:Hp, ch; try done.
  - destruct (releaseSignal (table s)) as [m c]. intros [= <-]. apply (move_RInv _ i x); try done; [by apply (RInv_view s)|by rewrite Hp].
  - intros [= <-]. unfold attempt. destruct (applyLockOps _ _ _ _) as [[m idx] [e|]]; (apply (move_RInv _ i x); [by apply (RInv_view s)|done|..]); try destruct (_ && _); try done; by rewrite Hp.
  - case_bool_decide; [|done]. intros [= <-]. by apply (move_RInv s i x); [..|rewrite Hp].
  - destruct (cancelled s x); [|done]. intros [= <-]. by apply (move_RInv s i x); [..|rewrite Hp].
  - intros [= <-]. by apply (move_RInv s i x); [..|rewrite Hp].
  - destruct (conns s !! wConn x) as [a|] eqn:Ha; [|done]. intros [= <-]. change (RInv (set_conn (set_wait s i (goto x Unregistered)) (wConn x) (Async.finish a (wReg x)))).
    apply (conn_RInv _ (wConn x) a); [by apply (move_RInv s i x)|done|by apply Async.Inv_finish, (ri_conns s Hi (wConn x))| |].
    + unfold Async.finish. destruct (Async.running a !! wReg x); cbn; lia.
    + intros j y Hy Hk Hreg. apply (exec_running a (Async.Finish (wReg x))). intros Hr. cbn in Hy. destruct (decide (j = i)) as [->|Hne].
      * rewrite list_lookup_insert_eq in Hy by (by eapply lookup_lt_Some). by injection Hy as <-.
      * rewrite list_lookup_insert_ne in Hy by done. by apply Hne, (ri_apart s Hi j i y x).
  - intros [= <-]. apply (move_RInv _ i x); try done; by apply (RInv_view s).
Qed.

Lemma handleLock_RInv cf g s k hdr body : RInv s -> well_behaved s (LockRequest cf g k hdr body) -> RInv (handleLock cf g s k hdr body).1.
Proof.
  intros Hi Hw. unfold handleLock. destruct (Lock.DecodeLockRequest body) as [req| |]; [|done|done]. destruct (g (Lock.FileID req)) as [open|]; [|done].
  destruct (negb (h_file open)); [done|]. destruct (negb cf); [done|]. destruct (decodeLockOps (Lock.Locks req)) as [ops|]; [|done].
  destruct (applyLockOps (keyFor s) (table s) (h_id open) ops) as [[m idx] [e|]]; [|by apply (RInv_view s)]. destruct (_ && _); [|by apply (RInv_view s)].
  destruct (startLockWait _ _ _ _ _) as [s'|] eqn:Hs; [|by apply (RInv_view s)]. apply (start_RInv (set_table s m) k hdr (h_id open) ops); [by apply (RInv_view s)|done|done].
Qed.

Lemma reachable_RInv n s : reachable well_behaved n s -> RInv s.
Proof.
  induction 1 as [|s e s' Hr IH Hw Hs].
  - split; cbn; try done. intros k a [-> _]%lookup_replicate. apply Async.newAsync_Inv.
  - destruct e as [o key|o|cf g k hdr body|i ch|k e]; cbn [step] in Hs.
    + case_bool_decide; [done|]. injection Hs as <-. by apply (RInv_view s).
    + injection Hs as <-. by apply (RInv_view s).
    + injection Hs as <-. by apply handleLock_RInv.
    + destruct (waits s !! i) as [x|] eqn:Hx; [|done]. by apply (turn_RInv s i x ch).
    + destruct (foreign s k e) eqn:Hf; [|done]. destruct (conns s !! k) as [a|] eqn:Ha; [|done]. injection Hs as <-. by apply other_RInv; [..|apply (Hw a)].
Qed.

(** A CANCEL that names a parked LOCK lets it end at once, with STATUS_CANCELLED
    whatever status the canceller gave. *)
Theorem lock_cancel_completes n s i x c st s' : reachable well_behaved n s -> waits s !! i = Some x -> wPc x = Selecting c ->
  step s (Other (wConn x) (Async.Cancel (Header.MessageID (wHdr x)) st)) = Some s' ->
  exists s'' x'', step s' (Turn i Cancelled) = Some s'' /\ waits s'' !! i = Some x'' /\ wSent x'' = [(StatusPending, interimLockBody); (StatusCancelled, interimLockBody)].
Proof.
  intros Hr Hx Hp. pose proof (reachable_RInv n s Hr) as Hi. pose proof (w_each s (reachable_WInv _ _ _ Hr) i x Hx) as Hok. cbn [step foreign].
  destruct (conns s !! wConn x) as [a|] eqn:Ha; [|done]. cbn [mbind option_bind]. intros [= <-]. pose proof (ri_running s Hi i x a Hx Ha ltac:(by rewrite Hp)) as Hrun. pose proof (ri_conns s Hi _ a Ha) as HA.
  assert (Hc : cancelled (set_conn s (wConn x) (Async.exec a (Async.Cancel (Header.MessageID (wHdr x)) st))) x = true).
  { unfold cancelled. cbn [set_conn conns]. rewrite list_lookup_insert_eq by (by eapply lookup_lt_Some). cbn [Async.exec].
    destruct (Async.heap a !! wReg x) as [r|] eqn:Hh; [|destruct (proj2 (Async.inv_heap a HA (wReg x)) (Async.inv_run a HA _ _ Hrun)); congruence].
    unfold Async.cancelNotify. destruct (Async.r_cancelled r) eqn:Hrc.
    - destruct (Async.regs a !! _) as [j|] eqn:Hj; [|cbn; by rewrite Hh]. apply (Async.inv_regs a HA) in Hj. rewrite (Async.inv_uniq a HA _ _ _ Hj Hrun), Hh, Hrc. cbn; by rewrite Hh.
    - rewrite (Async.inv_waits a HA (wReg x) _ r Hrun Hh Hrc), Hh, Hrc. cbn. rewrite lookup_insert_eq. apply Async.cancel_reg_cancelled. }
  set (s1 := set_conn s (wConn x) _) in *. exists (set_wait s1 i (answer x StatusCancelled interimLockBody)), (answer x StatusCancelled interimLockBody).
  split_and!; [|by apply (set_wait_at s1 i x)|].
  - assert (Ht : turn s1 i x Cancelled = Some (set_wait s1 i (answer x StatusCancelled interimLockBody))) by (unfold turn; by rewrite Hp, Hc).
    cbn [step]. change (waits s1) with (waits s). by rewrite Hx.
  - destruct Hok as [_ _ _ _ H _ _]. rewrite Hp in H. cbn. by rewrite H.
Qed.

(** ** At a concrete run *)

(** One handle locks, a second asks to wait, the first unlocks. *)
Definition lock_body (fid : Z) (flags : Z) : bytes := writes (zeros 48) [(0, le16 48); (2, le16 1); (8, [z2b fid]); (32, [z2b 10]); (40, [z2b flags])].
Definition open_of (fid : bytes) : option lockHandle := match fid with b :: _ => Some (mkHandle (b2z b) true) | [] => None end.
Definition lock_hdr (mid : Z) : Header.Header := Header.mkHeader 1 0 10 1 0 0 mid 0 7 (zeros 16).

Definition run_lock (es : list event) : option process := foldl (fun s e => s ← s; step s e) (Some (newProcess 1)) es.
Definition request (mid fid flags : Z) : event := LockRequest true open_of 0 (lock_hdr mid) (lock_body fid flags).
Definition asleep_run : list event := [OpenFile 1 (1, 1); OpenFile 2 (1, 1); request 5 1 0x12; request 6 2 2; Turn 0 Go; Turn 0 Go].
Definition granted_run : list event := asleep_run ++ [request 7 1 4; Turn 0 Released; Turn 0 Go; Turn 0 Go; Turn 0 Go; Turn 0 Go].

Lemma run_lock_reachable es s : run_lock es = Some s -> reachable (fun _ _ => True) 1 s.
Proof.
  revert s. induction es as [|e es IH] using rev_ind; intros s; [intros [= <-]; constructor|]. unfold run_lock. rewrite foldl_app. cbn [foldl]. intros (s1 & H1 & Hs)%bind_Some.
  by apply (reach_step _ _ s1 e); [apply IH| |].
Qed.


(** A CLOSE gives up the ranges of its handle as well as cancelling what the handle
    waits for, so both cases of the [select] are ready; where the goroutine takes the
    release, its next attempt finds no descriptor and the client is told of an internal
    error. *)
Definition closed_run (ch : choice) : list event :=
  [OpenFile 1 (1, 1); OpenFile 2 (1, 1); request 4 2 0x12; LockRequest true open_of 0 (lock_hdr 5) (writes (lock_body 1 0x12) [(24, [z2b 50])]);
   LockRequest true open_of 0 (lock_hdr 6) (writes (lock_body 2 2) [(24, [z2b 50])]); Turn 0 Go; Turn 0 Go;
   Other 0 (Async.CloseOpens [2]); CloseFile 2; Turn 0 ch; Turn 0 Go; Turn 0 Go].

Example close_races_cancel : let sent es := (fun s => map (fun x => map fst (wSent x)) (waits s)) <$> run_lock es in
  sent (closed_run Cancelled) = Some [[StatusPending; StatusCancelled]] /\ sent (closed_run Released) = Some [[StatusPending; StatusInternalError]].
Proof. by vm_compute. Qed.

End LockWait.
