(* ===== verification/Teardown.v ===== *)
(** Giving a handle up: [releaseOpens], [handleTreeDisconnect], [handleLogoff]
    and the release half of [handleClose], [internal/parent/dispatch.go].

    Five tables can hold something for a handle: the registrations of its
    parked requests, its resume key, its share-mode reservation, its durable
    entry, its descriptor with the byte ranges locked through it.  What the
    teardown relies on is one interface, [HandleTable], that each of them
    implements: after a release a handle holds nothing, and every other handle
    holds what it held. *)

From S2P Require Import Prelude Smb2 Requests LockRanges ShareMode Sessions CopyChunk Durable Dispatch Async.

Module Teardown.

(** ** The interface *)

Class HandleTable (T : Type) := {
  holds : T -> Z -> Prop;
  drop : T -> list Z -> T;
  table_ok : T -> Prop;
  drop_ok t os : table_ok t -> table_ok (drop t os);
  drop_holds t os o : table_ok t -> holds (drop t os) o <-> holds t o /\ o ∉ os }.

(** A table that gives its handles up one by one. *)
Section OneByOne.
Context {T : Type} (hold : T -> Z -> Prop) (drop1 : T -> Z -> T) (ok : T -> Prop).
Context (ok1 : forall t o, ok t -> ok (drop1 t o)).
Context (holds1 : forall t o o', ok t -> hold (drop1 t o) o' <-> hold t o' /\ o' <> o).

Lemma fold_ok os t : ok t -> ok (fold_left drop1 os t).
Proof. revert t. induction os; intros t Ht; [done|]. cbn [fold_left]. auto. Qed.

Lemma fold_holds os t o : ok t -> hold (fold_left drop1 os t) o <-> hold t o /\ o ∉ os.
Proof.
  revert t. induction os as [|o1 os IH]; intros t Ht; cbn [fold_left]; [set_solver|].
  rewrite IH by auto. rewrite holds1 by done. set_solver.
Qed.

Definition one_by_one : HandleTable T :=
  {| holds := hold; drop := fun t os => fold_left drop1 os t; table_ok := ok;
     drop_ok := fun t os => fold_ok os t; drop_holds := fun t os o => fold_holds os t o |}.
End OneByOne.

(** Two tables side by side. *)
#[export] Instance pair_table {A B} `{HandleTable A, HandleTable B} : HandleTable (A * B).
Proof.
  refine {| holds t o := holds t.1 o \/ holds t.2 o; drop t os := (drop t.1 os, drop t.2 os);
            table_ok t := table_ok t.1 /\ table_ok t.2 |}.
  - intros t os []. by split; apply drop_ok.
  - intros t os o []. cbn [fst snd]. rewrite !drop_holds by done. tauto.
Defined.

(** ** The five tables *)

(** A parked request is held for its handle until it is cancelled. *)
#[export] Instance async_table : HandleTable Async.asyncTable.
Proof.
  refine {| holds t o := exists i r, is_Some (Async.running t !! i) /\ Async.heap t !! i = Some r /\
                           Async.r_cancelled r = false /\ Async.r_open r = o;
            drop := Async.cancelNotifiesForOpens; table_ok := Async.Inv |}.
  - intros t [|o os] Ht; [done|]. by apply Async.Inv_sweep.
  - intros t os o Ht. assert (Hw : forall i r, is_Some (Async.running t !! i) -> Async.heap t !! i = Some r -> Async.r_cancelled r = false -> Async.listed t i).
    { intros i r [m Hm] Hr Hc. apply Async.listed_spec. exists m. by apply (Async.inv_waits t Ht i m r). }
    destruct os as [|o1 os]; [cbn [Async.cancelNotifiesForOpens]; set_solver|].
    change (Async.cancelNotifiesForOpens t (o1 :: os)) with (Async.sweep (fun o => bool_decide (o ∈ o1 :: os)) t). split.
    + intros (i & r & Hi & Hr & Hc & Ho). rewrite Async.lookup_sweep in Hr. change (is_Some (Async.running t !! i)) in Hi.
      apply fmap_Some in Hr as (r0 & Hr0 & Hr). destruct (bool_decide (Async.listed t i) && bool_decide (Async.r_open r0 ∈ o1 :: os)) eqn:Hb.
      { subst r. by rewrite Async.cancel_reg_cancelled in Hc. }
      subst r. split; [by exists i, r0|]. apply andb_false_iff in Hb as [Hb%bool_decide_eq_false|Hb%bool_decide_eq_false]; [|by subst].
      exfalso. by apply Hb, (Hw i r0).
    + intros [(i & r & Hi & Hr & Hc & Ho) Hn]. exists i, r. split; [done|]. rewrite Async.lookup_sweep, Hr. cbn [fmap option_fmap option_map].
      rewrite (bool_decide_eq_false_2 (Async.r_open r ∈ _)) by (by subst). by rewrite andb_false_r.
Defined.

#[export] Instance keys_table : HandleTable CopyChunk.resumeKeyTable.
Proof.
  apply (one_by_one (fun t o => is_Some (CopyChunk.byOpen t !! o)) CopyChunk.releaseKey CopyChunk.KInv).
  - apply CopyChunk.KInv_release.
  - intros t o o' _. unfold CopyChunk.releaseKey. destruct (CopyChunk.byOpen t !! o) as [k|] eqn:Ho; cbn [CopyChunk.byOpen].
    + destruct (decide (o' = o)) as [->|]; [|rewrite lookup_delete_ne by done; tauto].
      rewrite lookup_delete_eq. split; [by intros []|by intros []].
    + split; [|tauto]. intros Hs. split; [done|]. intros ->. rewrite Ho in Hs. by destruct Hs.
Defined.

#[export] Instance modes_table : HandleTable ShareMode.shareModeTable.
Proof.
  apply (one_by_one (fun t o => is_Some (ShareMode.owners t !! o)) ShareMode.release ShareMode.TInv).
  - apply ShareMode.release_TInv.
  - intros t o o' Ht. unfold ShareMode.release. destruct (Z.eqb_spec o 0) as [->|Hz].
    + split; [|tauto]. intros [key Hk]. split; [by eexists|]. intros ->.
      destruct (ShareMode.i_entry t Ht key 0 Hk) as (e & Hin & He). by destruct (ShareMode.i_owner t Ht key e Hin).
    + destruct (ShareMode.owners t !! o) as [k|] eqn:Ho.
      * rewrite ShareMode.owners_wake. cbn [ShareMode.owners]. destruct (decide (o' = o)) as [->|].
        -- rewrite lookup_delete_eq. split; [by intros []|by intros []].
        -- rewrite lookup_delete_ne by done. tauto.
      * split; [|tauto]. intros Hs. split; [done|]. intros ->. rewrite Ho in Hs. by destruct Hs.
Defined.

Section Tables.
(** The file behind a handle's descriptor, the key of its durable entry. *)
Context (node : Z -> option fileKey) (durableKeyOf : Z -> option Durable.durableKey).

(** An entry belongs to the only handle whose durable key it is under. *)
Definition RemoveFor (t : Durable.DurableTable) (o : Z) : Durable.DurableTable :=
  match durableKeyOf o with Some k => Durable.RemoveEntry t k | None => t end.

Definition durable_ok (t : Durable.DurableTable) : Prop :=
  forall k e, t !! k = Some e -> forall o, durableKeyOf o = Some k <-> o = Durable.open e.

#[export] Instance durable_table : HandleTable Durable.DurableTable.
Proof.
  clear node.
  apply (one_by_one (fun t o => exists k e, t !! k = Some e /\ Durable.open e = o) RemoveFor durable_ok).
  - intros t o Ht k e. unfold RemoveFor. destruct (durableKeyOf o) as [k'|]; [|apply Ht].
    unfold Durable.RemoveEntry. rewrite lookup_delete_Some. intros [_ He]. by apply Ht.
  - intros t o o' Ht. unfold RemoveFor. split.
    + destruct (durableKeyOf o) as [k'|] eqn:Hk; intros (k & e & He & Ho).
      * unfold Durable.RemoveEntry in He. apply lookup_delete_Some in He as [Hne He]. split; [by exists k, e|].
        intros ->. subst o. apply Hne. pose proof (proj2 (Ht k e He (Durable.open e)) eq_refl). congruence.
      * split; [by exists k, e|]. intros ->. pose proof (proj2 (Ht k e He o) (eq_sym Ho)). congruence.
    + intros [(k & e & He & Ho) Hne]. exists k, e. split; [|done]. destruct (durableKeyOf o) as [k'|] eqn:Hk; [|done].
      unfold Durable.RemoveEntry. rewrite lookup_delete_ne; [done|]. intros ->. apply (Ht k e He) in Hk. congruence.
Defined.

(** The descriptors still open, with the ranges locked through them: the
    release looks the file up through the descriptor, so it comes first. *)
Record files := mkFiles { lockt : Locks.lockTable; fds : gset Z }.

Definition closeFile (f : files) (o : Z) : files :=
  if bool_decide (o ∈ fds f) then mkFiles (Locks.releaseAll node (lockt f) o) (fds f ∖ {[o]}) else f.

Definition range_of (f : files) (o : Z) : Prop := exists key r, r ∈ Locks.at_key (Locks.t (lockt f)) key /\ Locks.r_owner r = o.

Record files_ok (f : files) : Prop := {
  fk_table : Locks.LInv (lockt f);
  fk_ranges : forall key r, r ∈ Locks.at_key (Locks.t (lockt f)) key -> node (Locks.r_owner r) = Some key /\ Locks.r_owner r ∈ fds f }.

Lemma at_key_releaseOwner t key o key' r :
  r ∈ Locks.at_key (Locks.releaseOwner t key o) key' <-> r ∈ Locks.at_key t key' /\ (key' = key -> Locks.r_owner r <> o).
Proof.
  clear node durableKeyOf.
  unfold Locks.releaseOwner, Locks.at_key at 1. cbn [Locks.locks]. destruct (decide (key = key')) as [<-|Hne].
  - rewrite Locks.store_eq, list_elem_of_filter, negb_true_iff, Z.eqb_neq. unfold Locks.at_key. tauto.
  - rewrite Locks.store_ne by done. unfold Locks.at_key. split; [intros; split; [done|congruence]|by intros []].
Qed.

Lemma at_key_closeFile f o key r : files_ok f ->
  r ∈ Locks.at_key (Locks.t (lockt (closeFile f o))) key <-> r ∈ Locks.at_key (Locks.t (lockt f)) key /\ Locks.r_owner r <> o.
Proof.
  clear durableKeyOf.
  intros Hf. unfold closeFile. case_bool_decide as Hin; cbn [lockt].
  - unfold Locks.releaseAll. destruct (node o) as [k|] eqn:Hk.
    + unfold Locks.lt_releaseOwner. rewrite Locks.publish_t, at_key_releaseOwner. split; [|tauto].
      intros [Hr Hne]. split; [done|]. intros Ho. pose proof (fk_ranges f Hf key r Hr) as [Hn _]. rewrite Ho, Hk in Hn. injection Hn as ->. by apply Hne.
    + split; [|tauto]. intros Hr. split; [done|]. intros Ho. pose proof (fk_ranges f Hf key r Hr) as [Hn _]. congruence.
  - split; [|tauto]. intros Hr. split; [done|]. intros Ho. pose proof (fk_ranges f Hf key r Hr) as [_ Hn]. congruence.
Qed.

#[export] Instance files_table : HandleTable files.
Proof.
  clear durableKeyOf.
  apply (one_by_one (fun f o => o ∈ fds f \/ range_of f o) closeFile files_ok).
  - intros f o Hf. split.
    + unfold closeFile. case_bool_decide; [|apply Hf]. cbn [lockt]. unfold Locks.releaseAll. destruct (node o); [|apply Hf].
      apply (Locks.step_LInv (lockt f)); [apply Hf|constructor].
    + intros key r Hr. apply at_key_closeFile in Hr as [Hr Hne]; [|done]. destruct (fk_ranges f Hf key r Hr) as [Hn Hin]. split; [done|].
      unfold closeFile. case_bool_decide; [|done]. cbn [fds]. set_solver.
  - intros f o o' Hf. assert (Hfds : o' ∈ fds (closeFile f o) <-> o' ∈ fds f /\ o' <> o).
    { unfold closeFile. case_bool_decide; cbn [fds]; set_solver. }
    rewrite Hfds. unfold range_of. setoid_rewrite at_key_closeFile; [|done]. split.
    + intros [[]|(key & r & [] & Ho)]; [tauto|]. split; [right; by exists key, r|congruence].
    + intros [[|(key & r & Hr & Ho)] Hne]; [tauto|]. right. exists key, r. split; [|done]. split; [done|congruence].
Defined.

(** ** The teardown *)

Record tables := mkTables {
  async : Async.asyncTable; keys : CopyChunk.resumeKeyTable; modes : ShareMode.shareModeTable;
  durables : Durable.DurableTable; descriptors : files }.

Definition view (s : tables) : Async.asyncTable * (CopyChunk.resumeKeyTable * (ShareMode.shareModeTable * (Durable.DurableTable * files))) :=
  (async s, (keys s, (modes s, (durables s, descriptors s)))).

(** One round of [releaseOpens], under the handle's own lock. *)
Definition release_one (s : tables) (o : Z) : tables :=
  mkTables (async s) (CopyChunk.releaseKey (keys s) o) (ShareMode.release (modes s) o) (RemoveFor (durables s) o)
    (closeFile (descriptors s) o).

Definition releaseOpens (s : tables) (opens : list Z) : tables :=
  fold_left release_one opens
    (mkTables (Async.cancelNotifiesForOpens (async s) opens) (keys s) (modes s) (durables s) (descriptors s)).

(** What [handleClose] gives up before it can answer anything. *)
Definition close_release (s : tables) (o : Z) : tables :=
  mkTables (Async.cancelNotifiesForOpens (async s) [o]) (CopyChunk.releaseKey (keys s) o) (ShareMode.release (modes s) o)
    (RemoveFor (durables s) o) (closeFile (descriptors s) o).

Definition answer : Type := Z * bytes.

Definition handleTreeDisconnect (sess : Session.Session) (s : tables) (treeID : Z) (body : bytes) : Session.Session * tables * answer :=
  match Tree.DecodeTreeDisconnectRequest body with
  | Ok _ =>
      let '(sess, os) := Session.RemoveTreeAndOpens sess treeID in
      (sess, releaseOpens s (map Session.open_id os), (StatusSuccess, Tree.EncodeTreeDisconnectResponse))
  | _ => (sess, s, (StatusInvalidParameter, Dispatch.errBody))
  end.

(** The session's entries in the connection's table and in the server's index. *)
Record directory := mkDirectory { table : SessionTable.SessionTable; index : SessionIndex.SessionIndex }.

Definition handleLogoff (sid : Z) (sess : Session.Session) (s : tables) (d : directory) : Session.Session * tables * directory * answer :=
  let '(sess, os) := Session.TakeAllOpens sess in
  (sess, releaseOpens s (map Session.open_id os),
   mkDirectory (SessionTable.RemoveSession (table d) sid) (SessionIndex.unregister (index d) sid),
   (StatusSuccess, [Byte.x04; Byte.x00; Byte.x00; Byte.x00])).

(** The tables do not look at one another: a batch released handle by handle is
    each table's own release of the batch. *)
Lemma releaseOpens_view s os : view (releaseOpens s os) = drop (view s) os.
Proof.
  assert (Hf : forall os a k m d f, view (fold_left release_one os (mkTables a k m d f)) =
    (a, (drop k os, (drop m os, (drop d os, drop f os))))).
  { clear s os. intros os. induction os as [|o os IH]; intros a k m d f; [done|]. cbn [fold_left]. unfold release_one at 2. cbn [async keys modes durables descriptors]. by rewrite IH. }
  unfold releaseOpens. by rewrite Hf.
Qed.

Lemma close_release_view s o : view (close_release s o) = drop (view s) [o].
Proof. done. Qed.

Lemma releaseOpens_holds s os o : table_ok (view s) -> holds (view (releaseOpens s os)) o <-> holds (view s) o /\ o ∉ os.
Proof. intros Hs. rewrite releaseOpens_view. by apply drop_holds. Qed.

Definition held (s : tables) (o : Z) : Prop := holds (view s) o.
Definition tables_ok (s : tables) : Prop := table_ok (view s).

Lemma close_release_held s o : tables_ok s ->
  tables_ok (close_release s o) /\ forall o', held (close_release s o) o' <-> held s o' /\ o' <> o.
Proof.
  intros Hs. unfold tables_ok, held. rewrite close_release_view. split; [by apply drop_ok|]. intros o'. rewrite drop_holds by done. set_solver.
Qed.

(** What [drop] leaves of a batch of a session's handles. *)
Definition given_up (s s' : tables) (gone : Session.Open -> Prop) (os : list Session.Open) : Prop :=
  table_ok (view s') /\
  (forall o, o ∈ os -> gone o -> ~ holds (view s') (Session.open_id o)) /\
  (forall id, (forall o, o ∈ os -> gone o -> Session.open_id o <> id) -> holds (view s') id <-> holds (view s) id).

Lemma releaseOpens_given_up s os (gone : Session.Open -> Prop) (taken : list Session.Open) : table_ok (view s) ->
  (forall o, o ∈ taken <-> o ∈ os /\ gone o) -> given_up s (releaseOpens s (map Session.open_id taken)) gone os.
Proof.
  intros Hs Ht. split; [|split].
  - rewrite releaseOpens_view. by apply drop_ok.
  - intros o Ho Hg Hh. apply releaseOpens_holds in Hh as [_ Hn]; [|done]. apply Hn. apply list_elem_of_fmap. exists o.
    split; [done|]. by apply Ht.
  - intros id Hid. rewrite releaseOpens_holds by done. split; [tauto|]. intros Hh. split; [done|].
    intros (o & -> & Ho)%list_elem_of_fmap. apply Ht in Ho as [Ho Hg]. by apply (Hid o).
Qed.

Lemma taken_tree sess id o : o ∈ (Session.RemoveTreeAndOpens sess id).2 <-> o ∈ Session.owned sess /\ Session.on_tree id o = true.
Proof.
  cbn [Session.RemoveTreeAndOpens snd]. unfold Session.owned. rewrite !list_elem_of_fmap. split.
  - intros ([f o'] & -> & Hin%elem_of_map_to_list). apply map_lookup_filter_Some in Hin as [Hl Ht]. split; [|done].
    exists (f, o'). split; [done|]. by apply elem_of_map_to_list.
  - intros [([f o'] & -> & Hin%elem_of_map_to_list) Ht]. exists (f, o'). split; [done|]. apply elem_of_map_to_list.
    by apply map_lookup_filter_Some.
Qed.

(** C10: TREE_DISCONNECT and LOGOFF give everything up. Afterwards no handle of
    the tree, or of the session, has a parked request still waiting, a resume
    key, a share-mode reservation, a durable entry, a descriptor or a locked
    range left; every other handle of the server has what it had; the tables
    stay well formed. The tree is no longer connected; after LOGOFF the session
    is dead, so a CREATE still in flight cannot add a handle behind it, and its
    identifier is known neither to the connection nor to the server's index. *)
Theorem teardown_complete (sess : Session.Session) (s : tables) (treeID sid : Z) (body : bytes) (d : directory) :
  table_ok (view s) ->
  (let '(sess', s', a) := handleTreeDisconnect sess s treeID body in
   (a.1 <> StatusSuccess -> sess' = sess /\ s' = s) /\
   (a.1 = StatusSuccess ->
      given_up s s' (fun o => Session.on_tree treeID o = true) (Session.owned sess) /\
      Session.GetTree sess' treeID = false /\
      (forall o, o ∈ Session.owned sess' <-> o ∈ Session.owned sess /\ Session.on_tree treeID o = false))) /\
  (let '(sess', s', d', a) := handleLogoff sid sess s d in
   a.1 = StatusSuccess /\ given_up s s' (fun _ => True) (Session.owned sess) /\
   Session.owned sess' = [] /\ (forall o t, (Session.AddOpen sess' o).2 = false /\ (Session.AddOpenToTree sess' o t).2 = false) /\
   SessionTable.GetSession (table d') sid = false /\ index d' !! sid = None /\
   (forall sid', sid' <> sid -> SessionTable.GetSession (table d') sid' = SessionTable.GetSession (table d) sid' /\ index d' !! sid' = index d !! sid')).
Proof.
  intros Hs. split.
  - unfold handleTreeDisconnect. destruct (Tree.DecodeTreeDisconnectRequest body); [|by split..].
    pose proof (taken_tree sess treeID) as Ht. destruct (Session.RemoveTreeAndOpens sess treeID) as [sess' os] eqn:Hr.
    split; [done|]. intros _. split; [by apply releaseOpens_given_up|]. injection Hr as <- _. split.
    + apply bool_decide_eq_false. cbn [Session.trees]. set_solver.
    + intros o. unfold Session.owned. cbn [Session.opens]. rewrite !list_elem_of_fmap. split.
      * intros ([f o'] & -> & Hin%elem_of_map_to_list). apply map_lookup_filter_Some in Hin as [Hl Hn]. split; [|done].
        exists (f, o'). split; [done|]. by apply elem_of_map_to_list.
      * intros [([f o'] & -> & Hin%elem_of_map_to_list) Hn]. exists (f, o'). split; [done|]. apply elem_of_map_to_list. by apply map_lookup_filter_Some.
  - unfold handleLogoff. cbn [Session.TakeAllOpens]. do 1 (split; [done|]). split.
    { apply releaseOpens_given_up; [done|]. intros o. unfold Session.owned. tauto. }
    do 2 (split; [done|]). split.
    { apply bool_decide_eq_false. cbn. set_solver. }
    split; [apply lookup_delete_eq|]. intros sid' Hne. split; [|by apply lookup_delete_ne].
    apply bool_decide_ext. cbn. set_solver.
Qed.

End Tables.

(** ** Example: handle 7 holds something in each table, handle 8 a descriptor *)

Definition ex_node (o : Z) : option fileKey := if o =? 7 then Some (1, 1) else Some (1, 2).
Definition ex_durable_key : Durable.durableKey := ([Byte.x01], [Byte.x02]).
Definition ex_keyOf (o : Z) : option Durable.durableKey := if o =? 7 then Some ex_durable_key else None.
Definition ex_tables : tables :=
  mkTables (Async.exec Async.newAsync (Async.Register 5 7)) (CopyChunk.exec_key CopyChunk.noKeys (CopyChunk.Issue 1 7 (Some CopyChunk.ex_key)))
    (ShareMode.exec ShareMode.newShareModeTable (ShareMode.AcquireOrWait (fun _ => Some (1, 1)) (1, 1) 7 1 1))
    {[ ex_durable_key := Durable.mkEntry 7 None 60 [] [] ]}
    (mkFiles (Locks.lt_apply Locks.newLockTable (1, 1) 7 0 10 Locks.lockExclusive).1 {[ 7; 8 ]}).

Lemma ex_tables_ok : table_ok (HandleTable := pair_table (H := async_table) (H0 := pair_table (H0 := pair_table
  (H0 := pair_table (H := durable_table ex_keyOf) (H0 := files_table ex_node))))) (view ex_tables).
Proof.
  split; [|split; [|split; [|split]]].
  - apply (Async.trace_Inv (Async.exec Async.newAsync (Async.Register 5 7))). apply Async.trace_step; [constructor|by apply map_Forall_empty].
  - apply (CopyChunk.KInv_trace (CopyChunk.exec_key CopyChunk.noKeys _)). apply CopyChunk.key_step; [constructor|reflexivity].
  - apply (ShareMode.exec_TInv ShareMode.newShareModeTable); [apply ShareMode.TInv_new|]. vm_compute. by repeat split.
  - intros k e He o. cbn [view snd fst ex_tables durables] in He. apply lookup_singleton_Some in He as [<- <-]. unfold ex_keyOf. cbn [Durable.open].
    destruct (Z.eqb_spec o 7); split; congruence.
  - split.
    + apply (Locks.step_LInv Locks.newLockTable); [apply Locks.LInv_new|]. constructor; vm_compute; split; congruence.
    + intros key r Hr.
      assert (He : Locks.locks (Locks.t (lockt (descriptors ex_tables))) = {[ (1, 1) := [Locks.mkRange 7 0 10 true] ]}) by (vm_compute; reflexivity).
      unfold Locks.at_key in Hr. change ((view ex_tables).2.2.2.2) with (descriptors ex_tables) in Hr. rewrite He in Hr.
      destruct (decide (key = (1, 1))) as [->|Hne].
      * rewrite lookup_singleton_eq in Hr. apply list_elem_of_singleton in Hr as ->. split; [done|]. cbn. set_solver.
      * rewrite lookup_singleton_ne in Hr by done. by apply elem_of_nil in Hr.
Qed.

Lemma teardown_complete_witness : exists sess' s',
  handleTreeDisconnect ex_node ex_keyOf Session.ex_session ex_tables 2 [Byte.x04; Byte.x00; Byte.x00; Byte.x00]
    = (sess', s', (StatusSuccess, Tree.EncodeTreeDisconnectResponse)) /\
  7 ∈ fds (descriptors ex_tables) /\ (7 ∉ fds (descriptors s')) /\ 8 ∈ fds (descriptors s') /\ keys s' = CopyChunk.noKeys.
Proof.
  destruct (teardown_complete ex_node ex_keyOf Session.ex_session ex_tables 2 3 [Byte.x04; Byte.x00; Byte.x00; Byte.x00]
    (mkDirectory SessionTable.NewSessionTable ∅) ex_tables_ok) as [Ht _].
  destruct (handleTreeDisconnect ex_node ex_keyOf Session.ex_session ex_tables 2 [Byte.x04; Byte.x00; Byte.x00; Byte.x00]) as [[sess' s'] a] eqn:He.
  assert (Ha : a = (StatusSuccess, Tree.EncodeTreeDisconnectResponse)).
  { change a with ((sess', s', a).2). rewrite <- He. vm_compute. reflexivity. }
  destruct Ht as [_ Ht]. rewrite Ha in Ht. destruct (Ht eq_refl) as ((_ & Hg & Hf) & _ & _).
  exists sess', s'. rewrite Ha. split; [done|]. split; [cbn; set_solver|]. split; [|split].
  - intros Hin. apply (Hg Session.ex_open); [|done|right; right; right; right; by left].
    apply list_elem_of_In. vm_compute. by left.
  - replace s' with ((sess', s', a).1.2) by done. rewrite <- He. vm_compute. reflexivity.
  - replace s' with ((sess', s', a).1.2) by done. rewrite <- He. vm_compute. reflexivity.
Defined.

End Teardown.
