(* ===== verification/Trees.v ===== *)
(** TREE_CONNECT and the shares a session may see: [handleTreeConnect],
    [shareAllowed] and [visibleShares] of [internal/parent/dispatch.go].

    A session's connected TreeIds are in [Sessions.v]; here each also has the
    share it was connected to. *)

From S2P Require Import Prelude Smb2 Utf Requests Vfs Sessions Config Frames Dispatch.

Module Trees.

Definition maxTreesPerSession : Z := 256.

Record treeSession := mkTrees { handles : Session.Session; shares : gmap Z Config.ShareConfig }.

(** What the handler knows of the session: its identity. *)
Record principal := mkPrincipal { isGuest : bool; user : Config.UserConfig }.

Section Fold.
(** Simple case folding of a rune. *)
Variable fold : Z -> Z.
Abbreviation EqualFold := (SessionIndex.EqualFold fold).

Definition IPC : bytes := Config.lit "IPC$".
Definition ipcShare : Config.ShareConfig := Config.mkShare IPC [] false false.

Definition shareAllowed (u : Config.UserConfig) (shareName : bytes) : bool :=
  existsb (fun a => bool_decide (a = Config.lit "*") || EqualFold a shareName) (Config.AllowShares u).

Definition visibleShares (all : list Config.ShareConfig) (p : principal) : list Config.ShareConfig :=
  filter (fun s => (if isGuest p then Config.GuestOK s else shareAllowed (user p) (Config.sName s)) = true) all.

Definition find_share (all : list Config.ShareConfig) (name : bytes) : option Config.ShareConfig :=
  match filter (fun s => EqualFold (Config.sName s) name = true) all with s :: _ => Some s | [] => None end.

(** The last component, with either separator. *)
Definition share_name (path : bytes) : bytes :=
  List.last (Config.Split (map (fun c => if bool_decide (c = Vfs.slash) then Vfs.backslash else c) path) Vfs.backslash) [].

Definition AddTree (s : treeSession) (share : Config.ShareConfig) : treeSession * Z :=
  let '(h, id) := Session.AddTree (handles s) in (mkTrees h (<[id := share]> (shares s)), id).

(** The answer: a status, the body and the TreeId of the response's header. *)
Definition answer : Type := Z * bytes * Z.
Definition refuse (status : Z) : answer := (status, Dispatch.errBody, 0).

Definition tree_connect (all : list Config.ShareConfig) (RequireEncryption : bool) (s : treeSession) (p : principal) (path : bytes)
    : treeSession * answer :=
  if maxTreesPerSession <=? Z.of_nat (size (Session.trees (handles s))) then (s, refuse StatusInsufficientResources) else
  let shareName := share_name path in
  if bool_decide (shareName = []) then (s, refuse StatusInvalidParameter) else
  if EqualFold shareName IPC then
    let '(s, id) := AddTree s ipcShare in
    (s, (StatusSuccess, Tree.EncodeTreeConnectResponse {| Tree.ShareType := Tree.ShareTypePipe; Tree.ShareFlags := 0;
           Tree.Capabilities := 0; Tree.MaximalAccess := 0x001F00A9 |}, id))
  else
    match find_share all shareName with
    | None => (s, refuse StatusObjectNameNotFound)
    | Some share =>
        if isGuest p && negb (Config.GuestOK share) then (s, refuse StatusAccessDenied) else
        if negb (isGuest p) && negb (shareAllowed (user p) (Config.sName share)) then (s, refuse StatusAccessDenied) else
        let '(s, id) := AddTree s share in
        let shareFlags := if Config.ReadOnly share then 0 else 0x00000010 in
        let shareFlags := if RequireEncryption then Z.lor shareFlags 0x00008000 else shareFlags in
        let maximalAccess := if Config.ReadOnly share then 0x001200A9 else 0x001F01FF in
        (s, (StatusSuccess, Tree.EncodeTreeConnectResponse {| Tree.ShareType := Tree.ShareTypeDisk; Tree.ShareFlags := shareFlags;
               Tree.Capabilities := 0; Tree.MaximalAccess := maximalAccess |}, id))
    end.

Definition handleTreeConnect (all : list Config.ShareConfig) (RequireEncryption : bool) (s : treeSession) (p : principal) (body : bytes)
    : treeSession * answer :=
  match Tree.DecodeTreeConnectRequest body with
  | Ok req => tree_connect all RequireEncryption s p (Tree.Path req)
  | _ => (s, refuse StatusInvalidParameter)
  end.

(** ** Who gets in *)

Definition may_mount (p : principal) (share : Config.ShareConfig) : bool :=
  if isGuest p then Config.GuestOK share else shareAllowed (user p) (Config.sName share).

Lemma find_share_spec all name share : find_share all name = Some share -> share ∈ all /\ EqualFold (Config.sName share) name = true.
Proof.
  unfold find_share. destruct (filter _ all) as [|x l] eqn:E; [done|]. intros [= <-].
  assert (Hin : x ∈ filter (fun s => EqualFold (Config.sName s) name = true) all) by (rewrite E; left).
  apply list_elem_of_filter in Hin. tauto.
Qed.

(** Shares no two of which answer to the same name find each other. *)
Definition distinct (all : list Config.ShareConfig) : Prop :=
  forall s s', s ∈ all -> s' ∈ all -> EqualFold (Config.sName s) (Config.sName s') = true -> s = s'.

Lemma EqualFold_refl a : EqualFold a a = true.
Proof. by apply bool_decide_eq_true_2. Qed.

Lemma find_share_own all s : distinct all -> s ∈ all -> find_share all (Config.sName s) = Some s.
Proof.
  intros Hd Hs. unfold find_share. destruct (filter _ all) as [|x l] eqn:E.
  - exfalso. assert (Hin : s ∈ filter (fun s' => EqualFold (Config.sName s') (Config.sName s) = true) all)
      by (apply list_elem_of_filter; split; [apply EqualFold_refl|done]). rewrite E in Hin. by apply elem_of_nil in Hin.
  - f_equal. assert (Hin : x ∈ filter (fun s' => EqualFold (Config.sName s') (Config.sName s) = true) all) by (rewrite E; left).
    apply list_elem_of_filter in Hin as [Hf Hin]. by apply Hd.
Qed.

(** The tables agree, and no TreeId ahead of the counter is in use. *)
Record trees_ok (s : treeSession) : Prop := {
  tk_dom : dom (shares s) = Session.trees (handles s);
  tk_fresh : forall id, id ∈ Session.trees (handles s) -> id <= Z.max 1 (Session.nextTreeID (handles s));
  tk_next : 0 <= Session.nextTreeID (handles s) }.

Lemma AddTree_spec s share : trees_ok s -> Session.nextTreeID (handles s) < 2 ^ 32 - 2 ->
  let '(s', id) := AddTree s share in
  trees_ok s' /\ (id ∉ Session.trees (handles s)) /\ shares s' = <[id := share]> (shares s) /\
  Session.trees (handles s') = {[id]} ∪ Session.trees (handles s) /\ Session.opens (handles s') = Session.opens (handles s).
Proof.
  intros [Hd Hf Hn] Hlt. unfold AddTree, Session.AddTree. set (h := Session.initTables (handles s)).
  assert (Ht : Session.trees h = Session.trees (handles s)) by (unfold h, Session.initTables; by destruct (_ =? 0)).
  assert (Ho : Session.opens h = Session.opens (handles s)) by (unfold h, Session.initTables; by destruct (_ =? 0)).
  assert (Hc : Session.nextTreeID h = Z.max 1 (Session.nextTreeID (handles s))).
  { unfold h, Session.initTables. destruct (Z.eqb_spec (Session.nextTreeID (handles s)) 0); cbn [Session.nextTreeID]; lia. }
  rewrite Z.mod_small by lia. cbn [handles shares Session.trees Session.opens]. rewrite Ht.
  assert (Hfr : Session.nextTreeID h + 1 ∉ Session.trees (handles s)) by (intros Hin; apply Hf in Hin; lia).
  split; [|by rewrite Ho]. split; cbn [handles shares Session.trees Session.nextTreeID].
  - by rewrite dom_insert_L, Hd.
  - intros id [->%elem_of_singleton|Hin]%elem_of_union; [lia|]. apply Hf in Hin. lia.
  - lia.
Qed.

(** What a TREE_CONNECT that was answered leaves. *)
Definition connected (all : list Config.ShareConfig) (s : treeSession) (p : principal) (r : treeSession * answer) : Prop :=
  let '(s', (status, _, id)) := r in
  trees_ok s' /\ Z.of_nat (size (Session.trees (handles s'))) <= maxTreesPerSession /\
  Session.opens (handles s') = Session.opens (handles s) /\
  (status <> StatusSuccess -> s' = s) /\
  (status = StatusSuccess -> Session.GetTree (handles s) id = false /\ Session.GetTree (handles s') id = true /\
     exists share, shares s' = <[id := share]> (shares s) /\
       (share = ipcShare \/ (share ∈ all /\ may_mount p share = true))).


(** What share enumeration shows is what TREE_CONNECT lets in. With room
    for a tree, and share names that are distinct up to case, a session sees a
    share exactly when connecting by that share's name succeeds; the name of a
    share it may not mount is never revealed. *)
Theorem visible_iff_connectable (all : list Config.ShareConfig) (RequireEncryption : bool) (s : treeSession) (p : principal)
    (share : Config.ShareConfig) (path : bytes) :
  distinct all -> share ∈ all -> Z.of_nat (size (Session.trees (handles s))) < maxTreesPerSession ->
  share_name path = Config.sName share -> Config.sName share <> [] -> EqualFold (Config.sName share) IPC = false ->
  share ∈ visibleShares all p <-> (tree_connect all RequireEncryption s p path).2.1.1 = StatusSuccess.
Proof.
  intros Hd Hin Hroom Hp Hn Hipc. unfold tree_connect. rewrite (proj2 (Z.leb_gt _ _)) by lia.
  rewrite Hp, bool_decide_eq_false_2, Hipc, find_share_own by done. unfold visibleShares. rewrite list_elem_of_filter.
  destruct (AddTree s share) as [s' id]. destruct (isGuest p); cbn [negb andb].
  - destruct (Config.GuestOK share); cbn [negb]; cbn; split; intros; [done|split; done|by destruct H|done].
  - destruct (shareAllowed (user p) (Config.sName share)); cbn [negb]; cbn; split; intros; [done|split; done|by destruct H|done].
Qed.

End Fold.

(** ** Example *)

Definition ex_fold (c : Z) : Z := if (65 <=? c) && (c <=? 90) then c + 32 else c.
Definition ex_shares : list Config.ShareConfig :=
  [Config.mkShare (Config.lit "work") (Config.lit "/srv/work") false false; Config.mkShare (Config.lit "pub") (Config.lit "/srv/pub") true true].
Definition ex_guest : principal := mkPrincipal true (Config.mkUser (Config.lit "guest") (zeros 16) [] 0 0 [Config.lit "*"]).
Definition ex_trees : treeSession := mkTrees Session.newSession ∅.
Definition ex_path : bytes := Config.lit "\\srv\PUB".
Definition ex_body : bytes := le16 9 ++ zeros 2 ++ le16 72 ++ le16 18 ++ Names.UTF16LE ex_path.

Lemma ex_trees_ok : trees_ok ex_trees.
Proof. split; [apply dom_empty_L|cbn; set_solver|done]. Qed.


Lemma visible_iff_connectable_witness :
  visibleShares ex_fold ex_shares ex_guest = [Config.mkShare (Config.lit "pub") (Config.lit "/srv/pub") true true] /\
  (tree_connect ex_fold ex_shares false ex_trees ex_guest (Config.lit "\\srv\pub")).2.1.1 = StatusSuccess.
Proof.
  split; [vm_compute; reflexivity|].
  apply (visible_iff_connectable ex_fold ex_shares false ex_trees ex_guest (Config.mkShare (Config.lit "pub") (Config.lit "/srv/pub") true true)).
  - intros s s' Hs Hs'. unfold ex_shares in Hs, Hs'. apply elem_of_cons in Hs as [->|Hs%list_elem_of_singleton], Hs' as [->|Hs'%list_elem_of_singleton]; subst; vm_compute; congruence.
  - right. left.
  - vm_compute. reflexivity.
  - vm_compute. reflexivity.
  - discriminate.
  - vm_compute. reflexivity.
  - apply list_elem_of_In. vm_compute. by left.
Defined.

End Trees.
