(* ===== verification/Kernel.v ===== *)
(** The system calls of the handlers, as programs that make them.

    A handler decides its next call from the answers to the calls before, so it
    is a tree: [Ret] its result, or a call and what follows each answer.  A
    statement about a handler is a statement about every path of that tree whose
    answers keep the calls' documented contracts ([legal]); the calls a path makes
    are part of it.  Times are nanoseconds since the Unix epoch. *)

From S2P Require Import Prelude Smb2 LockRanges Access.
Import Access.

Module Kernel.

(** An errno of the extended-attribute calls, beyond those of [errno]. *)
Inductive xerrno := ENODATA | ERANGE | E2BIG | Sys (e : errno).

(** What [statusFromErr] sees of it: neither has a case of its own. *)
Definition to_errno (x : xerrno) : errno := match x with Sys e => e | _ => EOTHER end.

(** [os.FileInfo], and what the [stat] behind it adds: the inode, the device, the
    low 16 bits of the mode, the owner and the group. *)
Record fileInfo := mkInfo { Size : Z; ModTime : Z; IsDir : bool; IsSymlink : bool; Ino : Z; Dev : Z; Mode : Z; Uid : Z; Gid : Z }.

Inductive readErr := EOF | ReadErr (e : errno).

Inductive call :=
  | Fstat (fd : Z) | Pread (fd off n : Z) | Pwrite (fd off : Z) (data : bytes) | Fsync (fd : Z) | Ftruncate (fd size : Z) | CloseFd (fd : Z)
  | Truncate (path : bytes) (size : Z) | Lstat (path : bytes) | Rename (from to : bytes) | Remove (path : bytes)
  | UtimesNanoAt (path : bytes) (atime mtime : Z) | Statx (path : bytes) | Now
  | GetxattrSize (path name : bytes) | Getxattr (path name : bytes) (n : Z) | Setxattr (path name val : bytes) | Fsetxattr (fd : Z) (name val : bytes)
  | Removexattr (path name : bytes) | ListxattrSize (path : bytes) | Listxattr (path : bytes) (n : Z) | OpenNoFollow (path : bytes) | Random (n : Z)
  | OpenRW (path : bytes) | OpenCreate (path : bytes) (excl : bool) | Mkdir (path : bytes) | FileStat (fd : Z)
  | Faccessat (path : bytes) (mode : accessMode) | KeyForFd (fd : Z) | KeyForPath (path : bytes)
  | OpenProbe (path : bytes) | Readdirnames (path : bytes) (n : Z) | ReadDir (path : bytes) | Statfs (path : bytes).

(** [fstat] answers whether the file is regular, and its size; [statx] whether
    the birth time is there, and it.  [OpenNoFollow] opens for reading, [OpenRW]
    for both; [OpenCreate] creates, and opens for both; none follows a link at the
    leaf.  [OpenProbe] creates a file that is not there yet; [Readdirnames] opens a
    directory, reads the names of its first entries and closes it; [ReadDir] reads
    them all, sorted; [Statfs] answers the blocks, the blocks free to users and
    the size of one.  The identity of a file is its device and inode. *)
Definition result (c : call) : Type :=
  match c with
  | Fstat _ => option (bool * Z)
  | Pread _ _ _ => bytes * option readErr
  | Pwrite _ _ _ => Z * option errno
  | Fsync _ | Ftruncate _ _ | Truncate _ _ | Rename _ _ | Remove _ | UtimesNanoAt _ _ _ => option errno
  | CloseFd _ => unit
  | Lstat _ => fileInfo + errno
  | Statx _ => option (bool * Z)
  | Now => Z
  | GetxattrSize _ _ | ListxattrSize _ => Z + xerrno
  | Getxattr _ _ _ | Listxattr _ _ => bytes + xerrno
  | Setxattr _ _ _ | Fsetxattr _ _ _ | Removexattr _ _ => option xerrno
  | OpenNoFollow _ | OpenRW _ | OpenCreate _ _ | OpenProbe _ => Z + errno
  | Readdirnames _ _ | ReadDir _ => list bytes + errno
  | Statfs _ => option (Z * Z * Z)
  | Mkdir _ | Faccessat _ _ => option errno
  | FileStat _ => fileInfo + errno
  | KeyForFd _ | KeyForPath _ => option fileKey
  | Random _ => option bytes
  end.

(** The contracts: what is read fits the buffer, a write that reports no error
    wrote everything, a size is one. *)
Definition legal (c : call) : result c -> Prop :=
  match c with
  | Pread _ _ n => fun r => len r.1 <= Z.max 0 n
  | Pwrite _ _ data => fun r => 0 <= r.1 <= len data /\ (r.2 = None -> r.1 = len data)
  | Getxattr _ _ n | Listxattr _ n => fun r => match r with inl b => len b <= Z.max 0 n | inr _ => True end
  | GetxattrSize _ _ | ListxattrSize _ => fun r => match r with inl n => 0 <= n | inr _ => True end
  | Random n => fun r => match r with Some b => len b = n | None => True end
  | _ => fun _ => True
  end.

(** The calls that change what the share holds. *)
Definition mutates (c : call) : bool :=
  match c with
  | Pwrite _ _ _ | Ftruncate _ _ | Truncate _ _ | Rename _ _ | Remove _ | UtimesNanoAt _ _ _
  | Setxattr _ _ _ | Fsetxattr _ _ _ | Removexattr _ _ | OpenCreate _ _ | Mkdir _ | OpenProbe _ => true
  | _ => false
  end.

Inductive prog (A : Type) : Type := Ret (a : A) | Do (c : call) (k : result c -> prog A).
Arguments Ret {A} a.
Arguments Do {A} c k.

#[export] Instance prog_ret : MRet prog := fun _ a => Ret a.
#[export] Instance prog_bind : MBind prog := fun A B k =>
  fix go (p : prog A) : prog B := match p with Ret a => k a | Do c f => Do c (fun r => go (f r)) end.

Definition sys (c : call) : prog (result c) := Do c Ret.

(** Every path makes only calls in [allowed] and ends in [post]. *)
Fixpoint wp {A} (allowed : call -> Prop) (p : prog A) (post : A -> Prop) : Prop :=
  match p with
  | Ret a => post a
  | Do c k => allowed c /\ forall r, legal c r -> wp allowed (k r) post
  end.

(** One path, the kernel's answers given. *)
Fixpoint run {A} (kernel : forall c, result c) (p : prog A) : list call * A :=
  match p with
  | Ret a => ([], a)
  | Do c k => let '(cs, a) := run kernel (k (kernel c)) in (c :: cs, a)
  end.

Section Laws.
Context {A B : Type}.
Implicit Types (p : prog A) (allowed : call -> Prop).

Lemma wp_bind allowed p (k : A -> prog B) post : wp allowed (p ≫= k) post <-> wp allowed p (fun a => wp allowed (k a) post).
Proof.
  induction p as [a|c f IH]; [done|]. cbn. split; intros [Hc Hf]; (split; [done|]); intros r Hr; apply IH; auto.
Qed.

Lemma wp_mono allowed (allowed' : call -> Prop) p (post post' : A -> Prop) :
  (forall c, allowed c -> allowed' c) -> (forall a, post a -> post' a) -> wp allowed p post -> wp allowed' p post'.
Proof.
  intros Ha Hp. induction p as [a|c f IH]; cbn; [auto|]. intros [Hc Hf]. split; [auto|]. intros r Hr. apply IH. by apply Hf.
Qed.

(** What holds on every path holds on the one a kernel takes. *)
Lemma wp_run allowed p post kernel : (forall c, legal c (kernel c)) -> wp allowed p post ->
  Forall allowed (run kernel p).1 /\ post (run kernel p).2.
Proof.
  intros Hk. induction p as [a|c f IH]; cbn; [by split|]. intros [Hc Hf]. specialize (IH (kernel c) (Hf _ (Hk c))).
  destruct (run kernel (f (kernel c))) as [cs a]. destruct IH. split; [by constructor|done].
Qed.

Lemma run_bind kernel p (k : A -> prog B) :
  run kernel (p ≫= k) = let '(cs, a) := run kernel p in let '(cs', b) := run kernel (k a) in (cs ++ cs', b).
Proof.
  induction p as [a|c f IH]; [change (run kernel (Ret a ≫= k)) with (run kernel (k a)); cbn [run]; by destruct (run kernel (k a))|].
  change (run kernel (Do c f ≫= k)) with (let '(cs, b) := run kernel (f (kernel c) ≫= k) in (c :: cs, b)). rewrite IH. cbn [run].
  destruct (run kernel (f (kernel c))) as [cs a]. by destruct (run kernel (k a)).
Qed.

Lemma run_sys kernel c (k : result c -> prog B) :
  run kernel (sys c ≫= k) = let '(cs, b) := run kernel (k (kernel c)) in (c :: cs, b).
Proof. done. Qed.
End Laws.

Lemma wp_ret {A} allowed (a : A) post : post a -> wp allowed (mret a) post.
Proof. done. Qed.
Lemma wp_sys {A} allowed c (k : result c -> prog A) post : allowed c -> (forall r, legal c r -> wp allowed (k r) post) -> wp allowed (sys c ≫= k) post.
Proof. by split. Qed.
Lemma wp_call allowed c (post : result c -> Prop) : allowed c -> (forall r, legal c r -> post r) -> wp allowed (sys c) post.
Proof. by split. Qed.

(** [wps] walks a program, one goal for each call and each way out; a file of
    handlers extends [wp_unfold] with the answers it abbreviates. *)
Ltac wp_unfold := fail.
Ltac wp1 :=
  match goal with
  | |- wp _ (mret _) _ => apply wp_ret
  | |- wp _ (if ?c then _ else _) _ => let H := fresh "Hc" in destruct c eqn:H
  | |- wp _ (match ?x with _ => _ end) _ => let H := fresh "Hm" in destruct x eqn:H
  | |- wp _ (sys _ ≫= _) _ => apply wp_sys; [|let r := fresh "r" in let H := fresh "Hr" in intros r H]
  | |- wp _ (sys _) _ => apply wp_call; [|let r := fresh "r" in let H := fresh "Hr" in intros r H]
  | |- wp _ (_ ≫= _) _ => apply wp_bind
  | |- wp _ _ _ => wp_unfold
  end.
Ltac wps := repeat wp1.

(** The calls made and the result, on the path one kernel takes. *)
Definition trace {A} (kernel : forall c, result c) (p : prog A) (post : list call -> A -> Prop) : Prop := post (run kernel p).1 (run kernel p).2.

Lemma trace_ret {A} kernel (a : A) (post : list call -> A -> Prop) : post [] a -> trace kernel (mret a) post.
Proof. done. Qed.

Lemma trace_bind {A B} kernel (p : prog A) (k : A -> prog B) post :
  trace kernel p (fun cs a => trace kernel (k a) (fun cs' b => post (cs ++ cs') b)) -> trace kernel (p ≫= k) post.
Proof. unfold trace. rewrite run_bind. destruct (run kernel p) as [cs a]. cbn [fst snd]. by destruct (run kernel (k a)). Qed.

Lemma trace_sys {B} kernel c (k : result c -> prog B) post :
  trace kernel (k (kernel c)) (fun cs b => post (c :: cs) b) -> trace kernel (sys c ≫= k) post.
Proof. intros H. apply trace_bind. exact H. Qed.

Lemma trace_mono {A} kernel (p : prog A) (post post' : list call -> A -> Prop) : (forall cs a, post cs a -> post' cs a) -> trace kernel p post -> trace kernel p post'.
Proof. unfold trace. auto. Qed.

(** A condition on the calls alone, from one that holds on every path. *)
Lemma trace_calls {A} kernel allowed (p : prog A) post : (forall c, legal c (kernel c)) -> wp allowed p post ->
  trace kernel p (fun cs a => Forall allowed cs /\ post a).
Proof. intros Hk Hp. by apply wp_run. Qed.

(** ** Times *)

Definition filetimeEpochDelta : Z := 11644473600.
Definition second : Z := 1000000000.

Definition filetimeFromTime (t : Z) : Z :=
  if t <? - filetimeEpochDelta * second then 0 else
  let secs := (t / second + filetimeEpochDelta) mod 2 ^ 64 in
  (secs * 10000000 + (t mod second) / 100) mod 2 ^ 64.

Definition timeFromFiletime (ft now : Z) : Z :=
  if ft =? 0 then now else (ft / 10000000 - filetimeEpochDelta) * second + (ft mod 10000000) * 100.

(** [Time.UnixNano]: an [int64], wrapped. *)
Definition UnixNano (t : Z) : Z := (t + 2 ^ 63) mod 2 ^ 64 - 2 ^ 63.

(** [birthTime] on Linux. *)
Definition birthTime (path : bytes) : prog (option Z) :=
  st ← sys (Statx path);
  mret (match st with
        | None => None
        | Some (mask, t) => if negb mask then None else if t =? 0 then None else Some t
        end).

(** A FILETIME a client sets comes back as it was, over the 584 years in which
    an [int64] of nanoseconds can hold it. *)
Lemma filetime_set_get ft now : 0 < ft < 2 ^ 63 ->
  - 2 ^ 63 <= (ft - filetimeEpochDelta * 10000000) * 100 < 2 ^ 63 ->
  filetimeFromTime (UnixNano (timeFromFiletime ft now)) = ft.
Proof.
  intros Hft Hr. unfold timeFromFiletime. destruct (Z.eqb_spec ft 0); [lia|].
  assert (Ht : (ft / 10000000 - filetimeEpochDelta) * second + (ft mod 10000000) * 100 = (ft - filetimeEpochDelta * 10000000) * 100).
  { unfold second. pose proof (Z.div_mod ft 10000000 ltac:(lia)). lia. }
  rewrite Ht. assert (Hu : UnixNano ((ft - filetimeEpochDelta * 10000000) * 100) = (ft - filetimeEpochDelta * 10000000) * 100).
  { unfold UnixNano. rewrite Z.mod_small by lia. lia. }
  rewrite Hu. unfold filetimeFromTime. destruct (Z.ltb_spec ((ft - filetimeEpochDelta * 10000000) * 100) (- filetimeEpochDelta * second)) as [Hl|_].
  { unfold second, filetimeEpochDelta in *. lia. }
  assert (Hd : (ft - filetimeEpochDelta * 10000000) * 100 = (ft / 10000000 - filetimeEpochDelta) * second + (ft mod 10000000) * 100) by lia.
  pose proof (Z.mod_pos_bound ft 10000000 ltac:(lia)) as Hm.
  rewrite Hd. set (a := ft / 10000000 - filetimeEpochDelta). set (r := ft mod 10000000) in *.
  assert (Hdiv : (a * second + r * 100) / second = a).
  { rewrite Z.div_add_l by done. rewrite Z.div_small; [lia|]. unfold second. lia. }
  assert (Hmod : (a * second + r * 100) mod second = r * 100).
  { rewrite Z.add_comm, Z.mod_add by done. apply Z.mod_small. unfold second. lia. }
  rewrite Hdiv, Hmod, Z.div_mul by lia. unfold a, r in *. clear a r Hdiv Hmod.
  pose proof (Z.div_mod ft 10000000 ltac:(lia)). pose proof (Z.div_pos ft 10000000 ltac:(lia) ltac:(lia)).
  assert (Hq : ft / 10000000 < 2 ^ 63) by (apply Z.div_lt_upper_bound; lia).
  replace (ft / 10000000 - filetimeEpochDelta + filetimeEpochDelta) with (ft / 10000000) by lia. rewrite (Z.mod_small (ft / 10000000)) by lia.
  rewrite Z.mod_small by lia. lia.
Qed.

(** A time outside them wraps: the first instant of FILETIME is stored as a
    moment of the year 2185. *)
Theorem set_times_wraps now : UnixNano (timeFromFiletime 1 now) = 6802270473709551716 /\
  filetimeFromTime (UnixNano (timeFromFiletime 1 now)) = 184467440737095517.
Proof. split; reflexivity. Qed.

End Kernel.
