(* ===== verification/Streams.v ===== *)
(** Alternate data streams and extended attributes: [internal/parent/xattr.go],
    and the names and the synthetic blob of [stream.go].

    A stream's bytes live in the user attribute [user.gosamba.ads.<stream>] of
    its base file, an extended attribute in [user.<name>]. *)

From S2P Require Import Prelude Smb2 Utf Access Sessions Config Kernel.
Import Access Kernel.

Module Streams.

Definition afpInfoSize : Z := 60.
Definition finderInfoSize : Z := 32.
Definition afpInfoFinderOffset : Z := 16.
Definition afpInfoStreamName : bytes := Config.lit "AFP_AfpInfo".
Definition adsXattrPrefix : bytes := Config.lit "user.gosamba.ads.".
Definition eaXattrPrefix : bytes := Config.lit "user.".

Section Names.
(** [strings.EqualFold]'s folding, [strings.ToLower], [strings.ToUpper]. *)
Context (fold : Z -> Z) (ToLower ToUpper : bytes -> bytes).

Definition isAFPInfoStream (name : bytes) : bool := SessionIndex.EqualFold fold name afpInfoStreamName.

Definition synthAFPInfo : bytes :=
  writes (zeros afpInfoSize) [(0, Config.lit "AFP" ++ [Byte.x00]); (4, [Byte.x00; Byte.x00; Byte.x01; Byte.x00])].

(** The base, the stream, or [None] for a stream type other than $DATA. *)
Definition splitStreamName (name : bytes) : option (bytes * bytes) :=
  match Config.Cut name (z2b 0x3A) with
  | None => Some (name, [])
  | Some (base, rest) =>
      match Config.last_index rest (z2b 0x3A) with
      | Some j => if negb (SessionIndex.EqualFold fold (drop (Z.to_nat (j + 1)) rest) (Config.lit "$DATA")) then None
                  else Some (base, take (Z.to_nat j) rest)
      | None => Some (base, rest)
      end
  end.

Definition streamXattrName (stream : bytes) : bytes := adsXattrPrefix ++ stream.

(** [strings.Map] walks runes: an invalid byte comes back as U+FFFD. *)
Definition eaXattrName (name : bytes) : bytes :=
  eaXattrPrefix ++ Utf8.encode (filter (fun r => (r =? 0) || (r =? 0x2F) = false) (Utf8.runes (ToLower name))).

(** ** The attribute calls *)

Inductive xattrErr := errXattrUnsupported | XErr (e : xerrno).

Definition classifyXattrErr (e : xerrno) : option xattrErr :=
  match e with ENODATA => None | Sys ENOTSUP => Some errXattrUnsupported | e => Some (XErr e) end.

Definition classifySetxattrErr (e : option xerrno) : option xattrErr :=
  match e with None => None | Some (Sys ENOTSUP) => Some errXattrUnsupported | Some e => Some (XErr e) end.

(** The value, [None] for an attribute that is not there. *)
Definition getxattr (path name : bytes) : prog (option bytes + xattrErr) :=
  size ← sys (GetxattrSize path name);
  match size with
  | inr e => mret (match classifyXattrErr e with None => inl None | Some e => inr e end)
  | inl 0 => mret (inl (Some []))
  | inl size =>
      r ← sys (Getxattr path name size);
      mret (match r with
            | inl b => inl (Some b)
            | inr e => match classifyXattrErr e with None => inl None | Some e => inr e end
            end)
  end.

Definition getxattrSize (path name : bytes) : prog (Z + xattrErr) :=
  size ← sys (GetxattrSize path name);
  mret (match size with
        | inl n => inl n
        | inr e => match classifyXattrErr e with Some e => inr e | None => inl 0 end
        end).

Definition streamXattrSize (path stream : bytes) : prog (Z + xattrErr) := getxattrSize path (streamXattrName stream).

Definition readAFPFinderInfo (path : bytes) : prog (option bytes) :=
  let name := streamXattrName afpInfoStreamName in
  let fi (blob : bytes) := if len blob <? afpInfoFinderOffset + finderInfoSize then None else Some (get blob afpInfoFinderOffset finderInfoSize) in
  r ← sys (Getxattr path name afpInfoSize);
  match r with
  | inl b => mret (fi b)
  | inr ERANGE =>
      blob ← getxattr path name;
      mret (match blob with inl (Some b) => fi b | _ => None end)
  | inr _ => mret None
  end.

(** The names of a NUL-separated list. *)
Definition split_nul (b : bytes) : list bytes := filter (fun n => n <> []) (Config.Split b Byte.x00).

Definition listXattrNames (path : bytes) : prog (list bytes + xattrErr) :=
  size ← sys (ListxattrSize path);
  match size with
  | inr e => mret (match classifyXattrErr e with None => inl [] | Some e => inr e end)
  | inl 0 => mret (inl [])
  | inl size =>
      r ← sys (Listxattr path size);
      mret (match r with
            | inl b => inl (split_nul b)
            | inr e => match classifyXattrErr e with None => inl [] | Some e => inr e end
            end)
  end.

Definition readStreamXattr (path stream : bytes) : prog (option bytes + xattrErr) := getxattr path (streamXattrName stream).

(** Through a descriptor that does not follow a link at the leaf, where the leaf
    opens at all. *)
Definition writeStreamXattr (path stream data : bytes) : prog (option xattrErr) :=
  f ← sys (OpenNoFollow path);
  match f with
  | inl fd =>
      e ← sys (Fsetxattr fd (streamXattrName stream) data);
      _ ← sys (CloseFd fd);
      mret (classifySetxattrErr e)
  | inr ELOOP => mret (Some (XErr (Sys ELOOP)))
  | inr _ => e ← sys (Setxattr path (streamXattrName stream) data); mret (classifySetxattrErr e)
  end.

Definition streamExists (path stream : bytes) : prog (bool * option xattrErr) :=
  r ← sys (GetxattrSize path (streamXattrName stream));
  mret (match r with
        | inl _ => (true, None)
        | inr ENODATA => (false, None)
        | inr (Sys ENOTSUP) => (false, Some errXattrUnsupported)
        | inr e => (false, Some (XErr e))
        end).

Definition removeStreamXattr (path stream : bytes) : prog (option xattrErr) :=
  e ← sys (Removexattr path (streamXattrName stream));
  mret (match e with None => None | Some e => classifyXattrErr e end).

Record streamInfo := mkStream { stName : bytes; stSize : Z }.

Fixpoint list_streams_loop (path : bytes) (names : list bytes) : prog (list streamInfo + xattrErr) :=
  match names with
  | [] => mret (inl [])
  | n :: names =>
      if negb (Config.HasPrefix n adsXattrPrefix) then list_streams_loop path names else
      let stream := drop (length adsXattrPrefix) n in
      if bool_decide (stream = []) then list_streams_loop path names else
      size ← sys (GetxattrSize path n);
      match (match size with inl k => inl k | inr e => match classifyXattrErr e with Some e => inr e | None => inl 0 end end) with
      | inr e => mret (inr e)
      | inl k =>
          rest ← list_streams_loop path names;
          mret (match rest with inl l => inl (mkStream stream k :: l) | inr e => inr e end)
      end
  end.

Definition listStreams (path : bytes) : prog (list streamInfo + xattrErr) :=
  names ← listXattrNames path;
  match names with inr e => mret (inr e) | inl names => list_streams_loop path names end.

Record eaInfo := mkEA { eaName : bytes; eaValue : bytes }.

Definition setEA (path name val : bytes) : prog (option xattrErr) :=
  e ← sys (Setxattr path (eaXattrName name) val); mret (classifySetxattrErr e).

(** [f] is the handle's descriptor, [None] for a directory. *)
Definition setEAOnFile (f : option Z) (path name val : bytes) : prog (option xattrErr) :=
  match f with
  | None => setEA path name val
  | Some fd => e ← sys (Fsetxattr fd (eaXattrName name) val); mret (classifySetxattrErr e)
  end.

Fixpoint list_eas_loop (path : bytes) (names : list bytes) : prog (list eaInfo + xattrErr) :=
  match names with
  | [] => mret (inl [])
  | n :: names =>
      if negb (Config.HasPrefix n eaXattrPrefix) then list_eas_loop path names else
      if Config.HasPrefix n adsXattrPrefix then list_eas_loop path names else
      v ← getxattr path n;
      match v with
      | inr e => mret (inr e)
      | inl v =>
          rest ← list_eas_loop path names;
          mret (match rest with inl l => inl (mkEA (drop (length eaXattrPrefix) n) (default [] v) :: l) | inr e => inr e end)
      end
  end.

Definition listEAs (path : bytes) : prog (list eaInfo + xattrErr) :=
  names ← listXattrNames path;
  match names with inr e => mret (inr e) | inl names => list_eas_loop path names end.

(** ** FILE_FULL_EA_INFORMATION *)

(** An entry at [off], a name that is empty not listed, then the next one.  Each
    step moves forward, so the buffer's length bounds their number. *)
Fixpoint ea_loop (fuel : nat) (buf : bytes) (off : Z) : res (list eaInfo) :=
  match fuel with
  | O => Ok []
  | S fuel =>
      if len buf <? off + 8 then Ok [] else
      next ← u32 buf off;
      nameLen ← at8 buf (off + 5);
      valLen ← u16 buf (off + 6);
      let nameStart := off + 8 in
      let valStart := nameStart + nameLen + 1 in
      if (len buf <? nameStart + nameLen) || (len buf <? valStart + valLen) then Ok [] else
      name ← slice buf nameStart (nameStart + nameLen);
      val ← slice buf valStart (valStart + valLen);
      let this := if bool_decide (name = []) then [] else [mkEA name val] in
      if next =? 0 then Ok this else
      rest ← ea_loop fuel buf (off + next);
      Ok (this ++ rest)
  end.

Definition parseFullEaList (buf : bytes) : res (list eaInfo) := ea_loop (S (length buf)) buf 0.

Definition ea_entry (ea : eaInfo) (last : bool) : bytes :=
  let name := ToUpper (eaName ea) in
  let entry := writes (zeros (8 + len name + 1 + len (eaValue ea)))
    [(5, le8 (len name)); (6, le16 (len (eaValue ea))); (8, name); (8 + len name + 1, eaValue ea)] in
  if last then entry else let entry := pad_to 4 entry in splice 0 (le32 (len entry)) entry.

Fixpoint encodeFullEaList (eas : list eaInfo) : bytes :=
  match eas with
  | [] => []
  | ea :: rest => ea_entry ea (bool_decide (rest = [])) ++ encodeFullEaList rest
  end.

(** ** FILE_STREAM_INFORMATION *)

Definition fixed : Z := 24.

Definition stream_record (e : streamInfo) (last : bool) : bytes :=
  let nameU16 := Names.utf16leName (stName e) in
  let rec := pad_to 8 (writes (zeros (fixed + len nameU16))
    [(4, le32 (len nameU16)); (8, le64 (stSize e)); (16, le64 (stSize e)); (fixed, nameU16)]) in
  if last then rec else splice 0 (le32 (len rec)) rec.

Fixpoint stream_records (es : list streamInfo) : bytes :=
  match es with
  | [] => []
  | e :: rest => stream_record e (bool_decide (rest = [])) ++ stream_records rest
  end.

Definition encodeStreamInfoList (path : bytes) (fileSize : Z) : prog bytes :=
  st ← sys (Lstat path);
  streams ← listStreams path;
  let unnamed := match st with inl i => if IsDir i then [] else [mkStream (Config.lit "::$DATA") fileSize] | inr _ => [mkStream (Config.lit "::$DATA") fileSize] end in
  let named := match streams with
    | inl l => map (fun s => mkStream (Config.lit ":" ++ stName s ++ Config.lit ":$DATA") (stSize s)) l
    | inr _ => []
    end in
  mret (stream_records (unnamed ++ named)).

(** ** The EA list *)

Lemma ea_loop_step fuel buf off : 0 <= off -> off + 8 <= len buf ->
  let next := le_combine (get buf off 4) in
  let nameLen := le_combine (get buf (off + 5) 1) in
  let valLen := le_combine (get buf (off + 6) 2) in
  let valStart := off + 8 + nameLen + 1 in
  ea_loop (S fuel) buf off =
  if (len buf <? off + 8 + nameLen) || (len buf <? valStart + valLen) then Ok [] else
  let name := get buf (off + 8) nameLen in
  let this := if bool_decide (name = []) then [] else [mkEA name (get buf valStart valLen)] in
  if next =? 0 then Ok this else rest ← ea_loop fuel buf (off + next); Ok (this ++ rest).
Proof.
  intros Ho Hl. cbn [ea_loop]. rewrite (proj2 (Z.ltb_ge _ _)) by lia.
  rewrite (u32_Ok buf off), (at8_Ok buf (off + 5)), (u16_Ok buf (off + 6)) by lia. cbn [mbind outcome_bind].
  destruct (Z.ltb_spec (len buf) (off + 8 + le_combine (get buf (off + 5) 1))) as [|H1]; [done|].
  destruct (Z.ltb_spec (len buf) (off + 8 + le_combine (get buf (off + 5) 1) + 1 + le_combine (get buf (off + 6) 2))) as [|H2]; [done|]. cbn [orb].
  pose proof (le_combine_range (get buf (off + 5) 1) 1 ltac:(apply len_get; lia)).
  pose proof (le_combine_range (get buf (off + 6) 2) 2 ltac:(apply len_get; lia)).
  rewrite !slice_Ok by lia. cbn [mbind outcome_bind].
  replace (off + 8 + le_combine (get buf (off + 5) 1) - (off + 8)) with (le_combine (get buf (off + 5) 1)) by lia.
  replace (off + 8 + le_combine (get buf (off + 5) 1) + 1 + le_combine (get buf (off + 6) 2) - (off + 8 + le_combine (get buf (off + 5) 1) + 1))
    with (le_combine (get buf (off + 6) 2)) by lia.
  done.
Qed.

Lemma ea_loop_end fuel buf off : len buf < off + 8 -> ea_loop (S fuel) buf off = Ok [].
Proof. intros Hl. cbn [ea_loop]. by rewrite (proj2 (Z.ltb_lt _ _)). Qed.

Definition ea_ok (ea : eaInfo) : Prop := 0 < len (eaName ea) < 2 ^ 8 /\ 0 <= len (eaValue ea) < 2 ^ 16.

(** Parsing an EA list is total: whatever the buffer, no index is out of
    range and the walk ends, each step moving forward; what it lists has a name
    of 1 to 255 bytes and a value of at most 65535. *)
Theorem parse_ea_total (buf : bytes) :
  (exists eas, parseFullEaList buf = Ok eas /\ Forall ea_ok eas) /\
  (forall fuel, (length buf < fuel)%nat -> ea_loop fuel buf 0 = parseFullEaList buf).
Proof.
  assert (H : forall fuel off, 0 <= off -> (length buf < Z.to_nat off + fuel)%nat ->
    exists eas, Forall ea_ok eas /\ forall fuel', (length buf < Z.to_nat off + fuel')%nat -> ea_loop fuel' buf off = Ok eas).
  { induction fuel as [|fuel IH]; intros off Ho Hf.
    - exists []. split; [constructor|]. intros [|fuel'] Hf'; [done|]. apply ea_loop_end. unfold len. lia.
    - destruct (Z.lt_ge_cases (len buf) (off + 8)) as [Hl|Hl].
      { exists []. split; [constructor|]. intros [|fuel'] Hf'; [done|]. by apply ea_loop_end. }
      pose proof (le_combine_range (get buf off 4) 4 ltac:(apply len_get; lia)) as Hn.
      pose proof (le_combine_range (get buf (off + 5) 1) 1 ltac:(apply len_get; lia)) as Hnl.
      pose proof (le_combine_range (get buf (off + 6) 2) 2 ltac:(apply len_get; lia)) as Hvl.
      set (next := le_combine (get buf off 4)) in *. set (nameLen := le_combine (get buf (off + 5) 1)) in *. set (valLen := le_combine (get buf (off + 6) 2)) in *.
      set (this := if bool_decide (get buf (off + 8) nameLen = []) then [] else [mkEA (get buf (off + 8) nameLen) (get buf (off + 8 + nameLen + 1) valLen)]).
      destruct ((len buf <? off + 8 + nameLen) || (len buf <? off + 8 + nameLen + 1 + valLen)) eqn:Hc.
      { exists []. split; [constructor|]. intros [|fuel'] Hf'; [unfold len in *; lia|]. rewrite ea_loop_step by lia. fold nameLen valLen. by rewrite Hc. }
      apply orb_false_elim in Hc as Hc'. destruct Hc' as [H1%Z.ltb_ge H2%Z.ltb_ge].
      assert (Hthis : Forall ea_ok this).
      { unfold this. case_bool_decide as Hne; [constructor|]. apply Forall_singleton. unfold ea_ok. cbn [eaName eaValue].
        rewrite !len_get by lia. assert (nameLen <> 0) by (intros Hz; apply Hne; rewrite Hz; done). lia. }
      destruct (Z.eqb_spec next 0) as [Hz|Hz].
      { exists this. split; [done|]. intros [|fuel'] Hf'; [unfold len in *; lia|]. rewrite ea_loop_step by lia. fold nameLen valLen next. by rewrite Hc, Hz. }
      destruct (IH (off + next)) as (eas & Heas & Hrun); [lia|lia|].
      exists (this ++ eas). split; [by apply Forall_app|]. intros [|fuel'] Hf'; [unfold len in *; lia|].
      rewrite ea_loop_step by lia. fold nameLen valLen next. rewrite Hc, (proj2 (Z.eqb_neq _ _) Hz). cbv zeta. fold this. by rewrite Hrun by lia. }
  destruct (H (S (length buf)) 0) as (eas & Heas & Hrun); [lia|lia|]. split.
  - exists eas. split; [|done]. apply Hrun. lia.
  - intros fuel Hf. unfold parseFullEaList. rewrite !Hrun by lia. done.
Qed.

(** An entry's fields, where the name and the value fit theirs. *)
Lemma ea_entry_fields ea last (N := ToUpper (eaName ea)) (V := eaValue ea) (e := ea_entry ea last) :
  0 < len N < 2 ^ 8 -> len V < 2 ^ 16 ->
  8 + len N + 1 + len V <= len e /\ le_combine (get e 0 4) = (if last then 0 else len e) /\ 0 < len e /\
  le_combine (get e 5 1) = len N /\ le_combine (get e 6 2) = len V /\ get e 8 (len N) = N /\ get e (8 + len N + 1) (len V) = V.
Proof.
  intros HN HV. unfold e, ea_entry. fold N V. clear e. pose proof (len_nonneg V) as HV0.
  set (ps := [(5, le8 (len N)); (6, le16 (len V)); (8, N); (8 + len N + 1, V)]). set (size := 8 + len N + 1 + len V).
  set (w := writes (zeros size) ps).
  assert (Hf : fits size ps) by (unfold size, ps; fits_tac).
  assert (Hz : len (zeros size) = size) by (apply len_zeros; unfold size; lia).
  assert (Hw : len w = size) by (by apply len_writes).
  assert (F0 : get w 0 4 = zeros 4).
  { unfold w. rewrite get_writes_apart; [by rewrite get_zeros by (unfold size; lia)|by rewrite Hz|lia|lia|unfold ps; aparts]. }
  assert (F5 : le_combine (get w 5 1) = len N).
  { unfold w. rewrite (get_writes_at _ ps 0 5 (le8 (len N)) 1) by first [done|by rewrite Hz|unfold ps; aparts]. apply (le_combine_le_split 1 _ (2 ^ 8)); [done|lia]. }
  assert (F6 : le_combine (get w 6 2) = len V).
  { unfold w. rewrite (get_writes_at _ ps 1 6 (le16 (len V)) 2) by first [done|by rewrite Hz|unfold ps; aparts]. apply (le_combine_le_split 2 _ (2 ^ 16)); [done|lia]. }
  assert (F8 : get w 8 (len N) = N).
  { unfold w. rewrite (get_writes_at _ ps 2 8 N (len N)) by first [done|by rewrite Hz|unfold ps; aparts]. done. }
  assert (FV : get w (8 + len N + 1) (len V) = V).
  { unfold w. rewrite (get_writes_at _ ps 3 (8 + len N + 1) V (len V)) by first [done|by rewrite Hz|unfold ps; aparts]. done. }
  unfold size in *. destruct last.
  - rewrite F0. unfold zeros. do 2 (split; [first [lia|done]|]). split; [lia|done].
  - assert (Hp : len (pad_to 4 w) = len w + (- len w) mod 4).
    { by apply len_pad_to. }
    pose proof (Z.mod_pos_bound (- len w) 4 ltac:(lia)).
    assert (L4 : forall v, len (le32 v) = 4) by (intros v; apply (len_le_split 4)).
    rewrite !len_splice by (rewrite ?L4; lia).
    assert (Hg : forall k n, 4 <= k -> 0 <= n -> k + n <= len w -> get (splice 0 (le32 (len (pad_to 4 w))) (pad_to 4 w)) k n = get w k n).
    { intros k n Hk Hn Hkn. rewrite get_splice_ne by (rewrite ?L4; lia). unfold pad_to. apply get_app_l; lia. }
    rewrite (Hg 5), (Hg 6), (Hg 8), (Hg (8 + _ + 1)) by lia. rewrite (get_splice_eq 0) by (rewrite ?L4; lia).
    split; [lia|]. split; [|split; [lia|done]]. apply (le_combine_le_split 4 _ (2 ^ 32)); [done|lia].
Qed.

Lemma ea_loop_entries eas : Forall (fun ea => 0 < len (ToUpper (eaName ea)) < 2 ^ 8 /\ len (eaValue ea) < 2 ^ 16) eas ->
  forall pre fuel, (length eas < fuel)%nat ->
  ea_loop fuel (pre ++ encodeFullEaList eas) (len pre) = Ok (map (fun ea => mkEA (ToUpper (eaName ea)) (eaValue ea)) eas).
Proof.
  induction 1 as [|ea rest [HN HV] _ IH]; intros pre [|fuel] Hf; cbn [length] in Hf; try lia; pose proof (len_nonneg pre) as Hpre.
  - apply ea_loop_end. cbn [encodeFullEaList]. rewrite app_nil_r. lia.
  - cbn [encodeFullEaList map]. pose proof (len_nonneg (eaValue ea)) as HV0.
    pose proof (ea_entry_fields ea (bool_decide (rest = [])) HN HV) as Hfields. revert Hfields.
    set (e := ea_entry ea (bool_decide (rest = []))). set (post := encodeFullEaList rest).
    intros (Hl & F0 & Hpos & F5 & F6 & F8 & FV).
    assert (Hlen : len (pre ++ e ++ post) = len pre + len e + len post) by (rewrite !len_app; lia). pose proof (len_nonneg post).
    assert (Hm : forall k n, 0 <= k -> 0 <= n -> k + n <= len e -> get (pre ++ e ++ post) (len pre + k) n = get e k n) by (intros; by apply get_mid).
    rewrite ea_loop_step by lia. pose proof (Hm 0 4) as Hm0. rewrite Z.add_0_r in Hm0. rewrite Hm0, !Hm, F0, F5, F6 by lia.
    rewrite !(proj2 (Z.ltb_ge _ _)) by lia. cbn [orb]. rewrite F8.
    replace (len pre + 8 + len (ToUpper (eaName ea)) + 1) with (len pre + (8 + len (ToUpper (eaName ea)) + 1)) by lia. rewrite (Hm (8 + _ + 1)), FV by lia.
    rewrite (bool_decide_eq_false_2 (ToUpper (eaName ea) = [])) by (intros Hz; apply (f_equal len) in Hz; rewrite len_nil in Hz; lia).
    destruct rest as [|ea' rest]; [done|].
    assert (Hb : bool_decide (ea' :: rest = []) = false) by done. rewrite Hb. rewrite (proj2 (Z.eqb_neq _ _)) by lia.
    rewrite app_assoc, <- len_app. rewrite IH by lia. done.
Qed.

Lemma encode_ea_length eas : Forall (fun ea => 0 < len (ToUpper (eaName ea)) < 2 ^ 8 /\ len (eaValue ea) < 2 ^ 16) eas ->
  (length eas <= length (encodeFullEaList eas))%nat.
Proof.
  induction 1 as [|ea rest [HN HV] _ IH]; [done|]. cbn [encodeFullEaList length]. rewrite length_app.
  destruct (ea_entry_fields ea (bool_decide (rest = [])) HN HV) as (_ & _ & Hpos & _). unfold len in Hpos. lia.
Qed.

(** FILE_FULL_EA_INFORMATION round-trips: what QUERY_INFO encodes, SET_INFO
    and CREATE's parser read back entry by entry, in order, the names in upper
    case, where a name has 1 to 255 bytes and a value at most 65535. *)
Theorem ea_roundtrip eas :
  Forall (fun ea => 0 < len (ToUpper (eaName ea)) < 2 ^ 8 /\ len (eaValue ea) < 2 ^ 16) eas ->
  parseFullEaList (encodeFullEaList eas) = Ok (map (fun ea => mkEA (ToUpper (eaName ea)) (eaValue ea)) eas).
Proof.
  intros H. apply (ea_loop_entries eas H [] (S (length (encodeFullEaList eas)))). pose proof (encode_ea_length eas H). lia.
Qed.

(** The parser takes what the header of an entry says, and the entries of a
    buffer may overlap: of [n] headers eight bytes apart each lists a value that
    runs over the ones after it. *)
Definition ea_bomb_header : bytes := [Byte.x08; Byte.x00; Byte.x00; Byte.x00; Byte.x00; Byte.x01; Byte.xff; Byte.xff].
Fixpoint ea_headers (n : nat) : bytes := match n with O => [] | S n => ea_bomb_header ++ ea_headers n end.
Definition ea_bomb (n : nat) : bytes := ea_headers n ++ zeros 65546.

Lemma len_ea_headers n : len (ea_headers n) = 8 * Z.of_nat n.
Proof. induction n as [|n IH]; [done|]. cbn [ea_headers]. rewrite len_app, IH. change (len ea_bomb_header) with 8. lia. Qed.

Lemma ea_bomb_loop n : forall pre fuel, (n < fuel)%nat ->
  exists eas, ea_loop fuel (pre ++ ea_bomb n) (len pre) = Ok eas /\ length eas = n /\ Forall (fun ea => len (eaValue ea) = 65535) eas.
Proof.
  induction n as [|n IH]; intros pre [|fuel] Hf; try lia; pose proof (len_nonneg pre) as Hpre.
  - unfold ea_bomb. cbn [ea_headers app].
    assert (Hl : len (pre ++ zeros 65546) = len pre + 65546) by (rewrite len_app, len_zeros by lia; lia).
    assert (Hg : forall k n, 0 <= k -> 0 <= n -> k + n <= 65546 -> get (pre ++ zeros 65546) (len pre + k) n = zeros n).
    { intros k m ???. rewrite get_app_r by lia. apply get_zeros; lia. }
    rewrite ea_loop_step by lia. pose proof (Hg 0 4) as H0. rewrite Z.add_0_r in H0. rewrite H0, !Hg, !le_combine_zeros by lia. cbv zeta.
    rewrite !(proj2 (Z.ltb_ge _ _)) by lia. cbn [orb]. rewrite get_zero_len. by exists [].
  - assert (Hb : ea_bomb (S n) = ea_bomb_header ++ ea_bomb n) by (unfold ea_bomb; cbn [ea_headers]; by rewrite app_assoc). rewrite Hb.
    destruct (IH (pre ++ ea_bomb_header) fuel ltac:(lia)) as (eas & Hrun & Hn & Heas). rewrite <- app_assoc, len_app in Hrun. change (len ea_bomb_header) with 8 in Hrun.
    assert (Hlb : len (ea_bomb n) = 8 * Z.of_nat n + 65546) by (unfold ea_bomb; rewrite len_app, len_ea_headers, len_zeros by lia; done).
    assert (Hl : len (pre ++ ea_bomb_header ++ ea_bomb n) = len pre + 8 + len (ea_bomb n)) by (rewrite !len_app; change (len ea_bomb_header) with 8; lia).
    assert (Hm : forall k n', 0 <= k -> 0 <= n' -> k + n' <= 8 -> get (pre ++ ea_bomb_header ++ ea_bomb n) (len pre + k) n' = get ea_bomb_header k n') by (intros; by apply get_mid).
    rewrite ea_loop_step by lia. pose proof (Hm 0 4) as H0. rewrite Z.add_0_r in H0. rewrite H0, !Hm by lia.
    change (le_combine (get ea_bomb_header 0 4)) with 8. change (le_combine (get ea_bomb_header 5 1)) with 1. change (le_combine (get ea_bomb_header 6 2)) with 65535.
    rewrite !(proj2 (Z.ltb_ge _ _)) by lia. cbn [orb]. rewrite Hrun. cbv zeta.
    rewrite bool_decide_eq_false_2 by (intros Hz; apply (f_equal len) in Hz; rewrite len_get, len_nil in Hz by lia; lia).
    eexists. split; [reflexivity|]. split; [cbn; by rewrite Hn|]. constructor; [|done]. cbn [eaValue]. apply len_get; lia.
Qed.

(** An EA list of [8 n + 65546] bytes parses to [n] values of 65535 bytes, each
    copied and then set as an attribute: a buffer of MaxTransactSize asks for
    thousands of times its size. *)
Theorem ea_list_amplifies n :
  len (ea_bomb n) = 8 * Z.of_nat n + 65546 /\
  exists eas, parseFullEaList (ea_bomb n) = Ok eas /\ length eas = n /\ Forall (fun ea => len (eaValue ea) = 65535) eas.
Proof.
  assert (Hl : len (ea_bomb n) = 8 * Z.of_nat n + 65546) by (unfold ea_bomb; rewrite len_app, len_ea_headers, len_zeros by lia; done).
  split; [done|]. apply (ea_bomb_loop n [] (S (length (ea_bomb n)))). unfold len in Hl. lia.
Qed.

(** ** Stream names *)

Lemma Cut_at (a b : bytes) c : (c ∉ a) -> Config.Cut (a ++ c :: b) c = Some (a, b).
Proof.
  induction a as [|d a IH]; cbn [app Config.Cut]; intros Hc.
  - by rewrite bool_decide_eq_true_2.
  - rewrite not_elem_of_cons in Hc. destruct Hc as [Hd Hc]. rewrite bool_decide_eq_false_2 by done. by rewrite IH.
Qed.

Lemma Cut_none (a : bytes) c : (c ∉ a) -> Config.Cut a c = None.
Proof.
  induction a as [|d a IH]; [done|]. cbn [Config.Cut]. intros [Hd Hc]%not_elem_of_cons. rewrite bool_decide_eq_false_2 by done. by rewrite IH.
Qed.

Lemma last_index_none (a : bytes) c : (c ∉ a) -> Config.last_index a c = None.
Proof.
  induction a as [|d a IH]; [done|]. cbn [Config.last_index]. intros [Hd Hc]%not_elem_of_cons. rewrite IH by done. by rewrite bool_decide_eq_false_2.
Qed.

Lemma last_index_at (a b : bytes) c : (c ∉ b) -> Config.last_index (a ++ c :: b) c = Some (len a).
Proof.
  intros Hc. induction a as [|d a IH]; cbn [app Config.last_index].
  - rewrite last_index_none by done. by rewrite bool_decide_eq_true_2.
  - rewrite IH, len_cons. f_equal. lia.
Qed.

(** A name splits as [file], [file:stream] or [file:stream:$DATA], in any
    case of $DATA; a third part that is anything else is refused, and a file
    name never holds a colon. *)
Theorem stream_name_spec base stream type (colon := z2b 0x3A) :
  (colon ∉ base) -> (colon ∉ type) ->
  splitStreamName base = Some (base, []) /\
  splitStreamName (base ++ colon :: type) = Some (base, type) /\
  splitStreamName (base ++ colon :: stream ++ colon :: type) =
    (if SessionIndex.EqualFold fold type (Config.lit "$DATA") then Some (base, stream) else None).
Proof.
  intros Hb Ht. unfold splitStreamName. fold colon. rewrite Cut_none, !Cut_at, last_index_none, last_index_at by done.
  do 2 (split; [done|]). replace (Z.to_nat (len stream + 1)) with (length stream + 1)%nat by (unfold len; lia).
  replace (Z.to_nat (len stream)) with (length stream) by (unfold len; lia).
  rewrite drop_app_ge, take_app_length by lia. replace (length stream + 1 - length stream)%nat with 1%nat by lia. cbn [drop].
  by destruct (SessionIndex.EqualFold _ _ _).
Qed.

(** The name of an extended attribute reaches the attributes that hold streams,
    which [listEAs] then leaves out. *)
Lemma ea_name_reaches_streams : ToLower (Config.lit "gosamba.ads.x") = Config.lit "gosamba.ads.x" ->
  eaXattrName (Config.lit "gosamba.ads.x") = streamXattrName (Config.lit "x").
Proof. unfold eaXattrName. intros ->. vm_compute. reflexivity. Qed.
End Names.

Definition ascii_upper (b : bytes) : bytes :=
  map (fun c => if (97 <=? b2z c) && (b2z c <=? 122) then z2b (b2z c - 32) else c) b.
Definition sample_eas : list eaInfo := [mkEA (Config.lit "one") (Config.lit "first"); mkEA (Config.lit "empty") []; mkEA (Config.lit "Two") (Config.lit "2")].

Lemma ea_roundtrip_witness :
  parseFullEaList (encodeFullEaList ascii_upper sample_eas) =
    Ok [mkEA (Config.lit "ONE") (Config.lit "first"); mkEA (Config.lit "EMPTY") []; mkEA (Config.lit "TWO") (Config.lit "2")].
Proof. apply (ea_roundtrip ascii_upper sample_eas). repeat (constructor; [vm_compute; done|]). constructor. Defined.

Lemma stream_name_spec_witness :
  splitStreamName (fun r => r) (Config.lit "dir/f.txt:Zone.Identifier:$DATA") = Some (Config.lit "dir/f.txt", Config.lit "Zone.Identifier").
Proof.
  apply (stream_name_spec (fun r => r) (Config.lit "dir/f.txt") (Config.lit "Zone.Identifier") (Config.lit "$DATA")); vm_compute; intros H;
    repeat (apply elem_of_cons in H as [H|H]; [discriminate|]); by apply elem_of_nil in H.
Defined.
End Streams.
