(* ===== verification/Srvsvc.v ===== *)
(** The share list a client asks for over the [srvsvc] pipe:
    [internal/parent/srvsvc.go].

    One DCE/RPC fragment in, one out: BIND and ALTER_CONTEXT negotiate the
    transfer syntax, a request for NetShareEnumAll is answered with the shares
    marshalled in NDR, everything else with a fault. *)

From S2P Require Import Prelude Smb2 Utf Config.

Module Srvsvc.

Definition dcerpcPTypeRequest : Z := 0x00.
Definition dcerpcPTypeResponse : Z := 0x02.
Definition dcerpcPTypeFault : Z := 0x03.
Definition dcerpcPTypeBind : Z := 0x0B.
Definition dcerpcPTypeBindAck : Z := 0x0C.
Definition dcerpcPTypeBindNak : Z := 0x0D.
Definition dcerpcPTypeAlterContext : Z := 0x0E.
Definition dcerpcPTypeAlterCtxResp : Z := 0x0F.
Definition dcerpcPFCFlags : Z := Z.lor 0x01 0x02.
Definition dcerpcDREPLittle : Z := 0x10.
Definition srvsvcOpNetShareEnumAll : Z := 15.
Definition dcerpcHeaderSize : Z := 16.

Definition ndrTransferSyntax : bytes := map z2b
  [0x04; 0x5D; 0x88; 0x8A; 0xEB; 0x1C; 0xC9; 0x11; 0x9F; 0xE8; 0x08; 0x00; 0x2B; 0x10; 0x48; 0x60].

Definition dcerpcWrap (ptype callID : Z) (body : bytes) : bytes :=
  let size := dcerpcHeaderSize + len body in
  writes (zeros size)
    [(0, le8 0x05); (1, le8 0x00); (2, le8 ptype); (3, le8 dcerpcPFCFlags); (4, le8 dcerpcDREPLittle); (8, le16 size); (10, le16 0);
     (12, le32 callID); (dcerpcHeaderSize, body)].

Definition dcerpcBindNakBytes (callID : Z) : bytes := dcerpcWrap dcerpcPTypeBindNak callID (zeros 3).

Definition dcerpcFault (callID status : Z) : bytes :=
  dcerpcWrap dcerpcPTypeFault callID (writes (zeros 16) [(0, le32 0); (4, le16 0); (8, le32 status)]).

(** ** BIND *)

(** Is NDR among the [n] transfer syntaxes from [tsOff] on? *)
Fixpoint offers_ndr (n : nat) (input : bytes) (tsOff : Z) : res bool :=
  match n with
  | O => Ok false
  | S n =>
      if len input <? tsOff + 20 then Ok false else
      ts ← slice input tsOff (tsOff + 16);
      if bool_decide (ts = ndrTransferSyntax) then Ok true else offers_ndr n input (tsOff + 20)
  end.

(** The contexts past the end of the input stay rejected. *)
Fixpoint contexts (n : nat) (input : bytes) (off : Z) : res (list bool) :=
  match n with
  | O => Ok []
  | S m =>
      if len input <? off + 24 then Ok (replicate n false) else
      nTransfer ← at8 input (off + 2);
      a ← offers_ndr (Z.to_nat nTransfer) input (off + 24);
      rest ← contexts m input (off + 24 + nTransfer * 20);
      Ok (a :: rest)
  end.

Definition bind_result (accept : bool) : bytes :=
  if accept then zeros 4 ++ ndrTransferSyntax ++ le32 2
  else [Byte.x02; Byte.x00; Byte.x02; Byte.x00] ++ zeros 16 ++ zeros 4.

Definition dcerpcBindAck (callID : Z) (input : bytes) : res bytes :=
  let hdrLen := 16 in
  if len input <? hdrLen + 12 then Ok (dcerpcBindNakBytes callID) else
  maxXmit ← u16 input (hdrLen + 0);
  maxRecv ← u16 input (hdrLen + 2);
  let maxXmit := if maxXmit =? 0 then 4280 else maxXmit in
  let maxRecv := if maxRecv =? 0 then 4280 else maxRecv in
  nCtx ← at8 input (hdrLen + 8);
  accepts ← contexts (Z.to_nat nCtx) input (hdrLen + 12);
  let secAddr := Config.lit "\pipe\srvsvc" ++ [Byte.x00] in
  let body := pad_to 4 (le16 maxXmit ++ le16 maxRecv ++ le32 0x12345678 ++ le16 (len secAddr) ++ secAddr) in
  let body := body ++ [z2b nCtx; Byte.x00; Byte.x00; Byte.x00] ++ concat (map bind_result accepts) in
  t ← at8 input 2;
  let ptype := if t =? dcerpcPTypeAlterContext then dcerpcPTypeAlterCtxResp else dcerpcPTypeBindAck in
  Ok (dcerpcWrap ptype callID body).

(** ** NetShareEnumAll *)

Record shareEntry := mkEntry { name : bytes; shType : Z; comment : bytes }.

Definition IPC_TYPE : Z := 0x80000003.

Definition entries_of (shares : list Config.ShareConfig) : list shareEntry :=
  map (fun s => mkEntry (Config.sName s) 0 []) shares ++ [mkEntry (Config.lit "IPC$") IPC_TYPE (Config.lit "IPC Service")].

Definition conf_units (s : bytes) : list Z := map (fun r => if 0xFFFF <? r then 0xFFFD else r) (Utf8.runes s) ++ [0].

Definition writeConfStr (buf s : bytes) : bytes :=
  let runes := conf_units s in
  let count := le32 (len runes) in
  pad_to 4 (buf ++ count ++ le32 0 ++ count ++ concat (map le16 runes)).

Fixpoint write_structs (buf : bytes) (nextRef : Z) (es : list shareEntry) : bytes * Z :=
  match es with
  | [] => (buf, nextRef)
  | e :: es => write_structs (buf ++ le32 nextRef ++ le32 (shType e) ++ le32 (nextRef + 4)) (nextRef + 8) es
  end.

Fixpoint write_strings (buf : bytes) (es : list shareEntry) : bytes :=
  match es with
  | [] => buf
  | e :: es => write_strings (writeConfStr (writeConfStr buf (name e)) (Config.TrimSpace (comment e))) es
  end.

Definition buildNetShareEnumAllResponse (shares : list Config.ShareConfig) : bytes :=
  let entries := entries_of shares in
  let n := le32 (len entries) in
  let nextRef := 0x00020000 in
  let buf := le32 1 ++ le32 1 ++ le32 nextRef ++ n ++ le32 (nextRef + 4) ++ n in
  let '(buf, nextRef) := write_structs buf (nextRef + 8) entries in
  write_strings buf entries ++ n ++ le32 nextRef ++ le32 0 ++ le32 0.

Definition dcerpcRequest (callID : Z) (input : bytes) (shares : list Config.ShareConfig) : res bytes :=
  if len input <? 16 + 8 then Ok (dcerpcFault callID 0x1C010002) else
  opnum ← u16 input 22;
  if negb (opnum =? srvsvcOpNetShareEnumAll) then Ok (dcerpcFault callID 0x1C010003) else
  let stub := buildNetShareEnumAllResponse shares in
  Ok (dcerpcWrap dcerpcPTypeResponse callID (writes (zeros (8 + len stub)) [(0, le32 (len stub)); (4, le16 0); (6, [Byte.x00; Byte.x00]); (8, stub)])).

(** [None] for an input too short to be answered. *)
Definition dcerpcHandle (input : bytes) (shares : list Config.ShareConfig) : res (option bytes) :=
  if len input <? 16 then Ok None else
  ptype ← at8 input 2;
  callID ← u32 input 12;
  if (ptype =? dcerpcPTypeBind) || (ptype =? dcerpcPTypeAlterContext) then out ← dcerpcBindAck callID input; Ok (Some out) else
  if ptype =? dcerpcPTypeRequest then out ← dcerpcRequest callID input shares; Ok (Some out) else
  Ok (Some (dcerpcFault callID 0x1C010003)).

(** ** Every input is answered *)

(** The common header a client reads. *)
Record pdu := mkPdu { p_type : Z; p_frag : Z; p_call : Z; p_body : bytes }.

Definition read_pdu (b : bytes) : option pdu :=
  if len b <? 16 then None else
  if bool_decide (get b 0 1 = [Byte.x05] /\ get b 1 1 = [Byte.x00] /\ get b 3 1 = [Byte.x03] /\ get b 4 1 = [Byte.x10]) then
    Some (mkPdu (le_combine (get b 2 1)) (le_combine (get b 8 2)) (le_combine (get b 12 4)) (get b 16 (len b - 16)))
  else None.

Lemma read_wrap ptype callID body : 0 <= ptype < 2 ^ 8 -> 0 <= callID < 2 ^ 32 ->
  read_pdu (dcerpcWrap ptype callID body) = Some (mkPdu ptype ((16 + len body) mod 2 ^ 16) callID body).
Proof.
  intros Hp Hc. pose proof (len_nonneg body). unfold read_pdu, dcerpcWrap, dcerpcHeaderSize.
  match goal with |- context [writes _ ?l] => set (ps := l) end. set (size := 16 + len body).
  assert (Hf : fits size ps) by (unfold size, ps; fits_tac).
  assert (Hz : len (zeros size) = size) by (apply len_zeros; unfold size; lia).
  assert (Hw : len (writes (zeros size) ps) = size) by (by apply len_writes).
  assert (F : forall (k : nat) off d n, ps !! k = Some (off, d) -> n = len d -> Forall (apart off n) (list.drop (S k) ps) -> get (writes (zeros size) ps) off n = d).
  { intros k off d n Hk Hn Ha. apply (get_writes_at _ ps k); [done|by rewrite Hz|done|done]. }
  set (w := writes (zeros size) ps) in *. rewrite Hw. rewrite (proj2 (Z.ltb_ge _ _)) by (unfold size; lia).
  rewrite (F 0%nat 0 (le8 0x05)), (F 1%nat 1 (le8 0)), (F 3%nat 3 (le8 dcerpcPFCFlags)), (F 4%nat 4 (le8 dcerpcDREPLittle)),
    (F 2%nat 2 (le8 ptype)), (F 5%nat 8 (le16 size)), (F 7%nat 12 (le32 callID)), (F 8%nat 16 body)
    by first [done|unfold size; lia|unfold ps; aparts].
  rewrite bool_decide_eq_true_2 by done. do 2 f_equal.
  - apply (le_combine_le_split 1 _ (2 ^ 8)); [done|lia].
  - apply (le_combine_split 2).
  - apply (le_combine_le_split 4 _ (2 ^ 32)); [done|lia].
Qed.

Lemma offers_ndr_safe n : forall input off, 0 <= off -> safe (offers_ndr n input off).
Proof. induction n as [|n IH]; intros input off Ho; cbn [offers_ndr]; nopanic. apply IH. lia. Qed.

Lemma contexts_safe n : forall input off, 0 <= off -> safe (contexts n input off).
Proof.
  induction n as [|n IH]; intros input off Ho; cbn [contexts]; nopanic.
  - apply offers_ndr_safe. lia.
  - apply IH. lia.
Qed.

Lemma bindack_answers callID input : 0 <= callID < 2 ^ 32 -> exists t body, dcerpcBindAck callID input = Ok (dcerpcWrap t callID body) /\
  (t = dcerpcPTypeBindNak \/ t = dcerpcPTypeBindAck \/ t = dcerpcPTypeAlterCtxResp).
Proof.
  intros Hc. unfold dcerpcBindAck. destruct (Z.ltb_spec (len input) (16 + 12)) as [|Hl].
  { exists dcerpcPTypeBindNak, (zeros 3). split; [done|by left]. }
  rewrite (u16_Ok input (16 + 0)), (u16_Ok input (16 + 2)), (at8_Ok input (16 + 8)) by lia. cbn [mbind outcome_bind].
  pose proof (contexts_safe (Z.to_nat (le_combine (get input (16 + 8) 1))) input (16 + 12) ltac:(lia)) as Hs.
  assert (He : forall n off e, contexts n input off <> Err e).
  { clear. induction n as [|n IH]; intros off e; cbn [contexts]; [done|]. destruct (_ <? _); [done|]. unfold at8. destruct (in_range _ _ _); [|done]. cbn [mbind outcome_bind].
    assert (Ho : forall m o, offers_ndr m input o <> Err e).
    { clear. induction m as [|m IH]; intros o; cbn [offers_ndr]; [done|]. destruct (_ <? _); [done|]. unfold slice. match goal with |- context [if ?c then Ok _ else _] => destruct c end; [|done]. cbn [mbind outcome_bind]. case_bool_decide; [done|apply IH]. }
    specialize (Ho (Z.to_nat (le_combine (get input (off + 2) 1))) (off + 24)). destruct (offers_ndr _ _ _) as [a|e'|]; cbn [mbind outcome_bind]; [|congruence|done].
    specialize (IH (off + 24 + le_combine (get input (off + 2) 1) * 20) e). destruct (contexts _ _ _); cbn; congruence. }
  destruct (contexts _ input (16 + 12)) as [accepts|e|] eqn:Hx; [|by apply He in Hx|done]. cbn [mbind outcome_bind]. rewrite (at8_Ok input 2) by lia. cbn [mbind outcome_bind].
  destruct (_ =? dcerpcPTypeAlterContext); eexists _, _; (split; [reflexivity|]); tauto.
Qed.

(** Every fragment of at least a header's length is answered, and with one
    fragment a client can read: version 5.0, little endian, the caller's call
    identifier, its length modulo 2^16, and a type that answers the type asked.
    No read of the input is out of range. *)
Theorem dcerpc_answers (input : bytes) (shares : list Config.ShareConfig) :
  exists out, dcerpcHandle input shares = Ok out /\ (out = None <-> len input < 16) /\
  forall b, out = Some b -> exists t body,
    read_pdu b = Some (mkPdu t ((16 + len body) mod 2 ^ 16) (le_combine (get input 12 4)) body) /\
    (let asked := le_combine (get input 2 1) in
     if (asked =? dcerpcPTypeBind) || (asked =? dcerpcPTypeAlterContext) then t = dcerpcPTypeBindNak \/ t = dcerpcPTypeBindAck \/ t = dcerpcPTypeAlterCtxResp
     else if asked =? dcerpcPTypeRequest then t = dcerpcPTypeResponse \/ t = dcerpcPTypeFault else t = dcerpcPTypeFault).
Proof.
  unfold dcerpcHandle. destruct (Z.ltb_spec (len input) 16) as [Hl|Hl]; [by exists None|].
  rewrite (at8_Ok input 2), (u32_Ok input 12) by lia. cbn [mbind outcome_bind].
  assert (Hc : 0 <= le_combine (get input 12 4) < 2 ^ 32) by (apply (le_combine_range _ 4); rewrite len_get by lia; done).
  assert (Hout : forall (m : res bytes) t body, m = Ok (dcerpcWrap t (le_combine (get input 12 4)) body) -> 0 <= t < 2 ^ 8 ->
    exists out : option bytes, (out0 ← m; Ok (Some out0)) = Ok out /\ (out = None <-> len input < 16) /\
      forall b, out = Some b -> read_pdu b = Some (mkPdu t ((16 + len body) mod 2 ^ 16) (le_combine (get input 12 4)) body)).
  { intros m t body -> Ht. eexists. split; [reflexivity|]. split; [split; [done|lia]|]. intros b [= <-]. by apply read_wrap. }
  destruct ((le_combine (get input 2 1) =? dcerpcPTypeBind) || (le_combine (get input 2 1) =? dcerpcPTypeAlterContext)) eqn:Hb; cbv zeta.
  - destruct (bindack_answers _ input Hc) as (t & body & Hm & Ht). destruct (Hout _ t body Hm) as (out & Ho & Hn & Hr); [destruct Ht as [->|[->| ->]]; done|].
    exists out. split; [done|]. split; [done|]. intros b ->. exists t, body. split; [by apply Hr|done].
  - destruct (le_combine (get input 2 1) =? dcerpcPTypeRequest) eqn:Hq.
    + assert (Hm : exists t body, dcerpcRequest (le_combine (get input 12 4)) input shares = Ok (dcerpcWrap t (le_combine (get input 12 4)) body) /\ (t = dcerpcPTypeResponse \/ t = dcerpcPTypeFault)).
      { unfold dcerpcRequest, dcerpcFault. destruct (Z.ltb_spec (len input) (16 + 8)); [eexists _, _; split; [reflexivity|by right]|].
        rewrite (u16_Ok input 22) by lia. cbn [mbind outcome_bind]. destruct (negb _); eexists _, _; (split; [reflexivity|]); tauto. }
      destruct Hm as (t & body & Hm & Ht). destruct (Hout _ t body Hm) as (out & Ho & Hn & Hr); [destruct Ht as [->| ->]; done|].
      exists out. split; [done|]. split; [done|]. intros b ->. exists t, body. split; [by apply Hr|done].
    + unfold dcerpcFault. eexists. split; [reflexivity|]. split; [split; [done|lia]|]. intros b Hb'. injection Hb' as <-.
      eexists _, _. split; [by apply read_wrap|reflexivity].
Qed.

(** ** What a client reads back *)

(** One conformant and varying string: its code units, and where it ends. *)
Definition read_conf (b : bytes) (off : Z) : res (list Z * Z) :=
  maxCount ← u32 b off;
  offset ← u32 b (off + 4);
  actual ← u32 b (off + 8);
  if negb ((maxCount =? actual) && (offset =? 0)) then Err ErrInvalidParameter else
  raw ← slice b (off + 12) (off + 12 + 2 * actual);
  Ok (Names.units raw, off + 12 + 2 * actual + (- (2 * actual)) mod 4).

Fixpoint read_types (n : nat) (b : bytes) (off : Z) : res (list Z * Z) :=
  match n with
  | O => Ok ([], off)
  | S n => t ← u32 b (off + 4); '(ts, off) ← read_types n b (off + 12); Ok (t :: ts, off)
  end.

Fixpoint read_strings (n : nat) (b : bytes) (off : Z) : res (list (list Z * list Z) * Z) :=
  match n with
  | O => Ok ([], off)
  | S n =>
      '(nm, off) ← read_conf b off;
      '(rem, off) ← read_conf b off;
      '(rest, off) ← read_strings n b off;
      Ok ((nm, rem) :: rest, off)
  end.

(** NetShareEnumAll's answer at level 1: name, type and remark of each share. *)
Definition read_share_list (b : bytes) : res (list (list Z * Z * list Z)) :=
  level ← u32 b 0;
  switch ← u32 b 4;
  count ← u32 b 12;
  maxCount ← u32 b 20;
  if negb ((level =? 1) && (switch =? 1) && (maxCount =? count)) then Err ErrInvalidParameter else
  '(types, off) ← read_types (Z.to_nat count) b 24;
  '(strs, off) ← read_strings (Z.to_nat count) b off;
  total ← u32 b off;
  code ← u32 b (off + 12);
  if negb ((total =? count) && (code =? 0) && (len b =? off + 16)) then Err ErrInvalidParameter else
  Ok (zip_with (fun t s => (s.1, t, s.2)) types strs).

Lemma units_le16s us : Forall (fun u => 0 <= u < 0x10000) us -> Names.units (concat (map le16 us)) = us.
Proof.
  induction 1 as [|u us Hu _ IH]; [done|]. cbn [map concat]. change (le16 u) with [z2b u; z2b (Z.shiftr u 8)]. cbn [app Names.units].
  by rewrite Names.unit_split, IH.
Qed.

Lemma conf_units_range s : Utf8.valid s -> Forall (fun u => 0 <= u < 0x10000) (conf_units s).
Proof.
  intros (rs & Hrs & ->). unfold conf_units. rewrite Utf8.runes_encode by done. apply Forall_app. split; [|by repeat constructor].
  apply Forall_map. apply (Forall_impl _ _ _ Hrs). intros r Hr. unfold valid_rune in Hr. destruct (Z.ltb_spec 0xFFFF r); lia.
Qed.

Lemma len_units us : len (concat (map le16 us)) = 2 * len us.
Proof. induction us as [|u us IH]; [done|]. cbn [map concat]. rewrite len_app, IH, len_cons. change (len (le16 u)) with 2. lia. Qed.

(** A string on its own; its length is a multiple of four, so it is the same
    wherever it starts at one. *)
Definition conf (s : bytes) : bytes := writeConfStr [] s.

Lemma pad_to_app (pre b : bytes) : len pre mod 4 = 0 -> pad_to 4 (pre ++ b) = pre ++ pad_to 4 b.
Proof.
  intros Hp. unfold pad_to. rewrite <- app_assoc, len_app. do 3 f_equal.
  rewrite (Z.div_mod (len pre) 4), Hp, Z.add_0_r by done. replace (- (4 * (len pre / 4) + len b)) with (- len b + - (len pre / 4) * 4) by lia. by rewrite Z.mod_add.
Qed.

Lemma writeConfStr_app pre s : len pre mod 4 = 0 -> writeConfStr pre s = pre ++ conf s.
Proof. intros Hp. unfold conf, writeConfStr. by rewrite pad_to_app. Qed.

Lemma len_conf s : len (conf s) = 12 + 2 * len (conf_units s) + (- (2 * len (conf_units s))) mod 4.
Proof.
  unfold conf, writeConfStr. rewrite len_pad_to by done. cbn [app]. rewrite !len_app, len_units. rewrite !(len_le_split 4).
  assert ((- (Z.of_nat 4 + (Z.of_nat 4 + (Z.of_nat 4 + 2 * len (conf_units s))))) mod 4 = (- (2 * len (conf_units s))) mod 4) as ->; [|lia].
  replace (- (Z.of_nat 4 + (Z.of_nat 4 + (Z.of_nat 4 + 2 * len (conf_units s))))) with (- (2 * len (conf_units s)) + (-3) * 4) by lia. by rewrite Z.mod_add.
Qed.

Lemma len_conf_mod s : len (conf s) mod 4 = 0.
Proof.
  rewrite len_conf. set (x := 2 * _). rewrite <- Z.add_assoc. replace (12 + (x + (- x) mod 4)) with (x + (- x) mod 4 + 3 * 4) by lia. rewrite Z.mod_add by done.
  rewrite Z.add_mod_idemp_r by done. by replace (x + - x) with 0 by lia.
Qed.

Definition short (s : bytes) : Prop := Utf8.valid s /\ len (conf_units s) < 2 ^ 32.

Lemma read_conf_at pre s post : short s ->
  read_conf (pre ++ conf s ++ post) (len pre) = Ok (conf_units s, len pre + len (conf s)).
Proof.
  intros [Hv Hs]. unfold read_conf. pose proof (len_nonneg pre) as Hpre. pose proof (len_nonneg post) as Hpost. pose proof (len_nonneg (conf_units s)) as Hu.
  set (n := len (conf_units s)) in *. pose proof (len_conf s) as Hlc. fold n in Hlc. pose proof (Z.mod_pos_bound (- (2 * n)) 4 ltac:(lia)) as Hm.
  assert (Hl : len (pre ++ conf s ++ post) = len pre + len (conf s) + len post) by (rewrite !len_app; lia).
  assert (Hc : conf s = le32 n ++ le32 0 ++ le32 n ++ (concat (map le16 (conf_units s)) ++ zeros ((- (2 * n)) mod 4))).
  { unfold conf, writeConfStr. cbn [app]. fold n. unfold pad_to. rewrite <- !app_assoc. do 4 f_equal. rewrite !len_app, len_units, !(len_le_split 4). fold n.
    f_equal. replace (- (Z.of_nat 4 + (Z.of_nat 4 + (Z.of_nat 4 + 2 * n)))) with (- (2 * n) + (-3) * 4) by lia. by rewrite Z.mod_add. }
  assert (G0 : get (conf s) 0 4 = le32 n) by (rewrite Hc; by apply get_app_exact).
  assert (G4 : get (conf s) 4 4 = le32 0).
  { rewrite Hc. rewrite (get_app_r (le32 n)) by (rewrite ?(len_le_split 4); lia). by apply get_app_exact. }
  assert (G8 : get (conf s) 8 4 = le32 n).
  { rewrite Hc. rewrite (get_app_r (le32 n)), (get_app_r (le32 0)) by (rewrite ?(len_le_split 4); lia). by apply get_app_exact. }
  assert (G12 : get (conf s) 12 (2 * n) = concat (map le16 (conf_units s))).
  { rewrite Hc. rewrite (get_app_r (le32 n)), (get_app_r (le32 0)), (get_app_r (le32 n)) by (rewrite ?(len_le_split 4); lia). apply get_app_exact. by rewrite len_units. }
  pose proof (get_mid pre (conf s) post 0 4 ltac:(lia) ltac:(lia) ltac:(lia)) as H0. rewrite Z.add_0_r in H0.
  rewrite (u32_Ok _ (len pre)), (u32_Ok _ (len pre + 4)), (u32_Ok _ (len pre + 8)) by lia. cbn [mbind outcome_bind].
  rewrite H0, (get_mid pre (conf s) post 4), (get_mid pre (conf s) post 8), G0, G4, G8 by lia.
  assert (Hn : le_combine (le32 n) = n) by (apply (le_combine_le_split 4 _ (2 ^ 32)); [done|lia]). rewrite Hn, Z.eqb_refl. cbn [andb negb].
  rewrite slice_Ok by lia. cbn [mbind outcome_bind]. replace (len pre + 12 + 2 * n - (len pre + 12)) with (2 * n) by lia.
  rewrite (get_mid pre (conf s) post 12), G12, units_le16s by (done || lia || by apply conf_units_range). do 2 f_equal. lia.
Qed.

Definition conf_pair (e : shareEntry) : bytes := conf (name e) ++ conf (Config.TrimSpace (comment e)).

Lemma write_strings_app es : forall pre, len pre mod 4 = 0 -> write_strings pre es = pre ++ concat (map conf_pair es).
Proof.
  induction es as [|e es IH]; intros pre Hp; cbn [write_strings map concat]; [by rewrite app_nil_r|].
  assert (H1 : len (pre ++ conf (name e)) mod 4 = 0) by (rewrite len_app, Z.add_mod, Hp, len_conf_mod by done; done).
  rewrite (writeConfStr_app pre), writeConfStr_app by done. rewrite IH; [unfold conf_pair; by rewrite <- !app_assoc|].
  rewrite len_app, Z.add_mod, H1, len_conf_mod by done. done.
Qed.

Definition entry_short (e : shareEntry) : Prop := short (name e) /\ short (Config.TrimSpace (comment e)).

Lemma read_strings_at es : Forall entry_short es -> forall pre post,
  read_strings (length es) (pre ++ concat (map conf_pair es) ++ post) (len pre) =
    Ok (map (fun e => (conf_units (name e), conf_units (Config.TrimSpace (comment e)))) es, len pre + len (concat (map conf_pair es))).
Proof.
  induction 1 as [|e es [Hn Hc] _ IH]; intros pre post; cbn [length read_strings].
  { cbn [map concat]. rewrite len_nil, Z.add_0_r. done. }
  assert (Hp : concat (map conf_pair (e :: es)) = conf (name e) ++ conf (Config.TrimSpace (comment e)) ++ concat (map conf_pair es)).
  { cbn [map concat]. unfold conf_pair at 1. by rewrite <- app_assoc. }
  rewrite Hp, <- !app_assoc, read_conf_at by done. cbn [mbind outcome_bind].
  rewrite (app_assoc pre), <- len_app, read_conf_at by done. cbn [mbind outcome_bind].
  rewrite (app_assoc (pre ++ conf (name e))), <- len_app, IH. cbn [mbind outcome_bind map]. do 2 f_equal. rewrite !len_app. lia.
Qed.

Fixpoint struct_bytes (next : Z) (es : list shareEntry) : bytes :=
  match es with [] => [] | e :: es => le32 next ++ le32 (shType e) ++ le32 (next + 4) ++ struct_bytes (next + 8) es end.

Lemma write_structs_app es : forall pre next, write_structs pre next es = (pre ++ struct_bytes next es, next + 8 * len es).
Proof.
  induction es as [|e es IH]; intros pre next; cbn [write_structs struct_bytes]; [rewrite app_nil_r; f_equal; rewrite (len_nil (A:=shareEntry)); lia|].
  rewrite IH, len_cons, <- !app_assoc. f_equal. lia.
Qed.

Lemma len_struct_bytes es : forall next, len (struct_bytes next es) = 12 * len es.
Proof. induction es as [|e es IH]; intros next; [done|]. cbn [struct_bytes]. rewrite !len_app, IH, len_cons, !(len_le_split 4). lia. Qed.

Lemma read_types_at es : Forall (fun e => 0 <= shType e < 2 ^ 32) es -> forall pre post next,
  read_types (length es) (pre ++ struct_bytes next es ++ post) (len pre) = Ok (map shType es, len pre + 12 * len es).
Proof.
  induction 1 as [|e es He _ IH]; intros pre post next; cbn [length read_types map]; [rewrite (len_nil (A:=shareEntry)), Z.mul_0_r, Z.add_0_r; done|].
  cbn [struct_bytes]. set (hd := le32 next ++ le32 (shType e) ++ le32 (next + 4)).
  assert (Hhd : len hd = 12) by done. pose proof (len_nonneg pre). pose proof (len_nonneg post). pose proof (len_nonneg es).
  replace ((le32 next ++ le32 (shType e) ++ le32 (next + 4) ++ struct_bytes (next + 8) es) ++ post) with (hd ++ struct_bytes (next + 8) es ++ post) by (unfold hd; by rewrite <- !app_assoc).
  assert (Hl : len (pre ++ hd ++ struct_bytes (next + 8) es ++ post) = len pre + 12 + 12 * len es + len post) by (rewrite !len_app, len_struct_bytes; lia).
  rewrite u32_Ok, get_mid by lia. cbn [mbind outcome_bind].
  replace (get hd 4 4) with (le32 (shType e)) by (symmetry; unfold hd; rewrite (get_app_r (le32 next)) by (rewrite ?(len_le_split 4); lia); by apply get_app_exact).
  rewrite (app_assoc pre), <- Hhd, <- len_app, IH. cbn [mbind outcome_bind]. rewrite (le_combine_le_split 4 _ (2 ^ 32)) by done.
  do 2 f_equal. rewrite len_app, len_cons, Hhd. lia.
Qed.

Lemma ascii_valid s : Forall (fun c => b2z c < 0x80) s -> Utf8.valid s.
Proof.
  intros Hs. exists (map b2z s). split.
  - apply Forall_map. apply (Forall_impl _ _ _ Hs). intros c Hc. pose proof (byte.unsigned_range c). left. lia.
  - induction Hs as [|c s Hc _ IH]; [done|]. unfold Utf8.encode in *. cbn [map concat]. pose proof (byte.unsigned_range c).
    rewrite Utf8.encode_rune_1 by lia. cbn [app]. by rewrite byte.of_Z_unsigned, <- IH.
Qed.

(** The list a client reads back is the list that was given: the share names
    in order, each of type disk, and IPC$ after them; every field is where NDR
    puts it, the counts agree and nothing is left over. *)
Theorem share_list_roundtrip (shares : list Config.ShareConfig) :
  Forall (fun s => short (Config.sName s)) shares -> len shares < 2 ^ 32 - 1 ->
  read_share_list (buildNetShareEnumAllResponse shares) =
    Ok (map (fun s => (conf_units (Config.sName s), 0, [0])) shares ++
        [(conf_units (Config.lit "IPC$"), 0x80000003, conf_units (Config.lit "IPC Service"))]).
Proof.
  intros Hs Hn. set (es := entries_of shares).
  assert (Hes : Forall entry_short es /\ Forall (fun e => 0 <= shType e < 2 ^ 32) es).
  { unfold es, entries_of. split; apply Forall_app; (split; [apply Forall_map|apply Forall_singleton]).
    - apply (Forall_impl _ _ _ Hs). intros s Hsh. split; [done|]. split; [by exists []|done].
    - split; (split; [apply ascii_valid; vm_compute; repeat constructor|done]).
    - apply Forall_true. intros s. cbn. lia.
    - cbn. unfold IPC_TYPE. lia. }
  destruct Hes as [Hshort Htypes].
  assert (Hlen : len es = len shares + 1) by (unfold es, entries_of; rewrite len_app, len_map; done). pose proof (len_nonneg shares).
  unfold buildNetShareEnumAllResponse. fold es. rewrite write_structs_app. set (n := le32 (len es)). set (next := 0x00020000).
  set (fixed := le32 1 ++ le32 1 ++ le32 next ++ n ++ le32 (next + 4) ++ n). set (structs := struct_bytes (next + 8) es).
  assert (Hfix : len fixed = 24) by done. assert (Hst : len structs = 12 * len es) by apply len_struct_bytes.
  rewrite write_strings_app; [|rewrite len_app, Hst, Hfix; replace (24 + 12 * len es) with (0 + (6 + 3 * len es) * 4) by lia; by rewrite Z.mod_add].
  set (strs := concat (map conf_pair es)). set (tail := n ++ le32 (next + 8 + 8 * len es) ++ le32 0 ++ le32 0). assert (Ht : len tail = 16) by done.
  pose proof (len_nonneg strs). set (b := ((fixed ++ structs) ++ strs) ++ tail).
  assert (Hb : b = fixed ++ structs ++ strs ++ tail) by (unfold b; by rewrite <- !app_assoc).
  assert (Hl : len b = 24 + 12 * len es + len strs + 16) by (rewrite Hb, !len_app; lia).
  assert (Hcount : le_combine n = len es) by (apply (le_combine_le_split 4 _ (2 ^ 32)); [done|lia]).
  assert (Gf : forall k, 0 <= k <= 20 -> get b k 4 = get fixed k 4) by (intros k Hk; rewrite Hb; apply get_app_l; lia).
  assert (Gt : forall k, 0 <= k <= 12 -> get b (len ((fixed ++ structs) ++ strs) + k) 4 = get tail k 4).
  { intros k Hk. unfold b. rewrite get_app_r by (rewrite ?len_app; pose proof (len_nonneg structs); lia). f_equal. lia. }
  unfold read_share_list. rewrite (u32_Ok b 0), (u32_Ok b 4), (u32_Ok b 12), (u32_Ok b 20) by lia. cbn [mbind outcome_bind]. rewrite !Gf by lia.
  change (get fixed 0 4) with (le32 1). change (get fixed 4 4) with (le32 1). change (get fixed 12 4) with n. change (get fixed 20 4) with n.
  rewrite Hcount, !Z.eqb_refl. cbn [negb andb].
  replace (Z.to_nat (len es)) with (length es) by (unfold len; lia).
  assert (H1 : read_types (length es) b 24 = Ok (map shType es, len (fixed ++ structs))).
  { rewrite Hb. pose proof (read_types_at es Htypes fixed (strs ++ tail) (next + 8)) as H1. rewrite Hfix in H1. fold structs in H1. rewrite H1. do 2 f_equal. rewrite len_app. lia. }
  assert (H2 : read_strings (length es) b (len (fixed ++ structs)) =
    Ok (map (fun e => (conf_units (name e), conf_units (Config.TrimSpace (comment e)))) es, len (fixed ++ structs) + len strs)).
  { unfold b. rewrite <- (app_assoc (fixed ++ structs)). by apply read_strings_at. }
  rewrite H1. cbn [mbind outcome_bind]. rewrite H2. cbn [mbind outcome_bind].
  rewrite <- len_app. pose proof (Gt 0 ltac:(lia)) as Gt0. rewrite Z.add_0_r in Gt0.
  assert (Hend : len ((fixed ++ structs) ++ strs) = 24 + 12 * len es + len strs) by (rewrite !len_app; lia).
  rewrite (u32_Ok b (len _)), (u32_Ok b (len _ + 12)) by lia. cbn [mbind outcome_bind]. rewrite Gt0, Gt by lia.
  change (get tail 0 4) with n. change (get tail 12 4) with (le32 0). rewrite Hcount, Z.eqb_refl, (proj2 (Z.eqb_eq (len b) _)) by lia.
  change (le_combine (le32 0)) with 0. cbn [negb andb Z.eqb]. f_equal.
  unfold es, entries_of. rewrite !map_app, !map_map. cbn [map shType name comment]. clear. induction shares as [|s ss IH]; [done|]. cbn [map app zip_with]. f_equal. exact IH.
Qed.

(** ** What a BIND offers *)

(** A presentation context as a client writes it: identifier, the interface, and
    the transfer syntaxes with their versions. *)
Record context := mkContext { c_id : Z; c_abstract : bytes; c_syntaxes : list (bytes * Z) }.

Definition context_ok (c : context) : Prop :=
  len (c_abstract c) = 20 /\ Forall (fun s => len s.1 = 16) (c_syntaxes c) /\ len (c_syntaxes c) < 2 ^ 8.

Definition syntaxes (l : list (bytes * Z)) : bytes := concat (map (fun s => s.1 ++ le32 s.2) l).

Definition context_bytes (c : context) : bytes :=
  (le16 (c_id c) ++ le8 (len (c_syntaxes c)) ++ [Byte.x00] ++ c_abstract c) ++ syntaxes (c_syntaxes c).

Lemma len_syntaxes l : Forall (fun s => len s.1 = 16) l -> len (syntaxes l) = 20 * len l.
Proof.
  induction 1 as [|s l Hs _ IH]; [done|]. unfold syntaxes in *. cbn [map concat]. rewrite !len_app, IH, Hs, len_cons, (len_le_split 4). lia.
Qed.

Lemma offers_ndr_at l : Forall (fun s => len s.1 = 16) l -> forall pre post,
  offers_ndr (length l) (pre ++ syntaxes l ++ post) (len pre) = Ok (bool_decide (ndrTransferSyntax ∈ map fst l)).
Proof.
  induction 1 as [|s l Hs Hl IH]; intros pre post; cbn [length offers_ndr map].
  { rewrite bool_decide_eq_false_2; [done|]. apply not_elem_of_nil. }
  pose proof (len_nonneg pre). pose proof (len_nonneg post). pose proof (len_nonneg l).
  assert (Hsyn : syntaxes (s :: l) = (s.1 ++ le32 s.2) ++ syntaxes l) by done. set (e := s.1 ++ le32 s.2) in *.
  assert (He : len e = 20) by (unfold e; rewrite len_app, Hs; done).
  assert (Hlen : len (pre ++ syntaxes (s :: l) ++ post) = len pre + 20 + 20 * len l + len post).
  { rewrite !len_app, Hsyn, len_app, He, len_syntaxes by done. lia. }
  rewrite (proj2 (Z.ltb_ge _ _)), slice_Ok by lia. cbn [mbind outcome_bind]. replace (len pre + 16 - len pre) with 16 by lia.
  rewrite Hsyn, <- (app_assoc e). pose proof (get_mid pre e (syntaxes l ++ post) 0 16 ltac:(lia) ltac:(lia) ltac:(lia)) as Hg. rewrite Z.add_0_r in Hg.
  rewrite Hg. replace (get e 0 16) with s.1 by (symmetry; unfold e; apply get_app_exact; done).
  destruct (decide (s.1 = ndrTransferSyntax)) as [Hn|Hn].
  - rewrite !bool_decide_eq_true_2 by (done || (rewrite Hn; left)). done.
  - rewrite (bool_decide_eq_false_2 (s.1 = _)) by done. rewrite (app_assoc pre). replace (len pre + 20) with (len (pre ++ e)) by (rewrite len_app; lia). rewrite IH. f_equal. apply bool_decide_ext. rewrite elem_of_cons.
    split; [tauto|]. intros [?|?]; [congruence|done].
Qed.

Lemma contexts_at cs : Forall context_ok cs -> forall pre post,
  contexts (length cs) (pre ++ concat (map context_bytes cs) ++ post) (len pre) = Ok (map (fun c => bool_decide (ndrTransferSyntax ∈ map fst (c_syntaxes c))) cs).
Proof.
  induction 1 as [|c cs (Ha & Hs & Hn) _ IH]; intros pre post; cbn [length contexts map concat]; [done|].
  set (rest := concat (map context_bytes cs)). set (hd := le16 (c_id c) ++ le8 (len (c_syntaxes c)) ++ [Byte.x00] ++ c_abstract c).
  assert (Hhd : len hd = 24) by (unfold hd; rewrite !len_app, Ha; done). pose proof (len_nonneg pre). pose proof (len_nonneg post). pose proof (len_nonneg rest). pose proof (len_nonneg (c_syntaxes c)).
  assert (Hc : context_bytes c = hd ++ syntaxes (c_syntaxes c)) by done. pose proof (len_syntaxes _ Hs) as Hls.
  rewrite Hc. replace (pre ++ ((hd ++ syntaxes (c_syntaxes c)) ++ rest) ++ post) with (pre ++ hd ++ (syntaxes (c_syntaxes c) ++ rest ++ post)) by (by rewrite <- !app_assoc).
  assert (Hlen : len (pre ++ hd ++ (syntaxes (c_syntaxes c) ++ rest ++ post)) = len pre + 24 + 20 * len (c_syntaxes c) + len rest + len post) by (rewrite !len_app; lia).
  rewrite (proj2 (Z.ltb_ge _ _)), at8_Ok, get_mid by lia. cbn [mbind outcome_bind].
  replace (get hd 2 1) with (le8 (len (c_syntaxes c))) by (symmetry; unfold hd; rewrite (get_app_r (le16 _)) by (rewrite ?(len_le_split 2); lia); by apply get_app_exact).
  rewrite (le_combine_le_split 1 _ (2 ^ 8)) by (done || lia). replace (Z.to_nat (len (c_syntaxes c))) with (length (c_syntaxes c)) by (unfold len; lia).
  rewrite (app_assoc pre), <- Hhd, <- len_app, offers_ndr_at by done. cbn [mbind outcome_bind].
  replace (len (pre ++ hd) + len (c_syntaxes c) * 20) with (len ((pre ++ hd) ++ syntaxes (c_syntaxes c))) by (rewrite len_app; lia).
  rewrite (app_assoc (pre ++ hd)). unfold rest. rewrite IH. done.
Qed.

(** BIND accepts a presentation context when NDR is among the transfer
    syntaxes it offers, and rejects it otherwise; the answer has one result for
    each context, in order. *)
Theorem bind_negotiates (callID : Z) (header xmit recv assoc pad : bytes) (cs : list context) (post : bytes) :
  len header = 16 -> len xmit = 2 -> len recv = 2 -> len assoc = 4 -> len pad = 3 -> Forall context_ok cs -> len cs < 2 ^ 8 ->
  get header 2 1 <> [z2b dcerpcPTypeAlterContext] ->
  exists prefix, len prefix = 28 /\
  dcerpcBindAck callID (header ++ (xmit ++ recv ++ assoc ++ le8 (len cs) ++ pad) ++ concat (map context_bytes cs) ++ post) =
    Ok (dcerpcWrap dcerpcPTypeBindAck callID
          (prefix ++ concat (map (fun c => bind_result (bool_decide (ndrTransferSyntax ∈ map fst (c_syntaxes c)))) cs))).
Proof.
  intros Hh Hx Hr Ha Hp Hcs Hn Ht. set (fixed := xmit ++ recv ++ assoc ++ le8 (len cs) ++ pad).
  assert (Hf : len fixed = 12) by (unfold fixed; rewrite !len_app, Hx, Hr, Ha, Hp; done).
  set (body := concat (map context_bytes cs) ++ post). pose proof (len_nonneg body). pose proof (len_nonneg cs).
  assert (Hl : len (header ++ fixed ++ body) = 28 + len body) by (rewrite !len_app; lia).
  assert (Gf : forall k n, 0 <= k -> 0 <= n -> k + n <= 12 -> get (header ++ fixed ++ body) (16 + k) n = get fixed k n).
  { intros k n ???. rewrite <- Hh. apply get_mid; lia. }
  unfold dcerpcBindAck. rewrite (proj2 (Z.ltb_ge _ _)) by lia. rewrite !u16_Ok, (at8_Ok _ (16 + 8)) by lia. cbn [mbind outcome_bind].
  rewrite (Gf 8 1) by lia. replace (get fixed 8 1) with (le8 (len cs)).
  2: { symmetry. unfold fixed. rewrite (get_app_r xmit), (get_app_r recv), (get_app_r assoc) by lia. replace (8 - len xmit - len recv - len assoc) with 0 by lia. by apply get_app_exact. }
  rewrite (le_combine_le_split 1 _ (2 ^ 8)) by (done || lia). replace (Z.to_nat (len cs)) with (length cs) by (unfold len; lia).
  pose proof (contexts_at cs Hcs (header ++ fixed) post) as Hc. rewrite len_app, Hh, Hf, <- app_assoc in Hc. fold body in Hc.
  change (16 + 12) with 28 in *. rewrite Hc. cbn [mbind outcome_bind]. rewrite at8_Ok by lia. cbn [mbind outcome_bind].
  rewrite (get_app_l header) by lia. destruct (Z.eqb_spec (le_combine (get header 2 1)) dcerpcPTypeAlterContext) as [He|_].
  { exfalso. apply Ht. pose proof (split_le_combine (get header 2 1)) as Hs. rewrite He in Hs.
    assert (Hlg : length (get header 2 1) = 1%nat) by (pose proof (len_get header 2 1 ltac:(lia) ltac:(lia) ltac:(lia)) as Hg; unfold len in Hg; lia).
    rewrite Hlg in Hs. rewrite <- Hs. reflexivity. }
  eexists. split; [|rewrite map_map, app_assoc; reflexivity]. reflexivity.
Qed.

(** ** Examples *)

Definition ex_shares : list Config.ShareConfig :=
  [Config.mkShare (Config.lit "public") (Config.lit "/srv/public") false true; Config.mkShare (Utf8.encode [0x66; 0xE9]) (Config.lit "/srv/f") true false].

Lemma share_list_roundtrip_witness :
  read_share_list (buildNetShareEnumAllResponse ex_shares) =
    Ok [(map b2z (Config.lit "public") ++ [0], 0, [0]); ([0x66; 0xE9; 0], 0, [0]); (map b2z (Config.lit "IPC$") ++ [0], 0x80000003, map b2z (Config.lit "IPC Service") ++ [0])].
Proof.
  apply (share_list_roundtrip ex_shares).
  - repeat constructor; cbn [Config.sName].
    + apply ascii_valid. vm_compute. repeat constructor.
    + exists [0x66; 0xE9]. split; [|reflexivity]. constructor; [left; lia|]. constructor; [left; lia|constructor].
  - vm_compute. reflexivity.
Defined.

(** A client that offers NDR, then NDR64. *)
Definition ex_contexts : list context :=
  [mkContext 0 (zeros 20) [(ndrTransferSyntax, 2)]; mkContext 1 (zeros 20) [(zeros 16, 1)]].

Lemma bind_negotiates_witness : exists prefix, len prefix = 28 /\
  dcerpcBindAck 7 (zeros 16 ++ (zeros 2 ++ zeros 2 ++ zeros 4 ++ le8 2 ++ zeros 3) ++ concat (map context_bytes ex_contexts) ++ []) =
    Ok (dcerpcWrap dcerpcPTypeBindAck 7 (prefix ++ bind_result true ++ bind_result false ++ [])).
Proof.
  apply (bind_negotiates 7 (zeros 16) (zeros 2) (zeros 2) (zeros 4) (zeros 3) ex_contexts []); try (vm_compute; congruence).
  repeat constructor.
Defined.
End Srvsvc.
