(* ===== verification/Aapl.v ===== *)
(** Apple's create context, the contexts a CREATE answers, and the probe for case
    sensitivity: [internal/parent/aapl.go].

    A response context the client did not ask for makes macOS fail the CREATE, and
    so does a QFid or MxAc context of another length. *)

From S2P Require Import Prelude Smb2 Utf Access LockRanges CreateCtx Vfs Config Kernel.
Import Access Kernel.

Module Aapl.

Definition aaplTag : bytes := Config.lit "AAPL".
Definition mxAcTag : bytes := Config.lit "MxAc".
Definition qFidTag : bytes := Config.lit "QFid".
Definition rforkStreamName : bytes := Config.lit "AFP_AfpResource".
Definition aaplCmdServerQuery : Z := 1.
Definition aaplBitServerCaps : Z := 1.
Definition aaplBitVolumeCaps : Z := 2.
Definition aaplBitModelInfo : Z := 4.
Definition aaplCapReadDirAttr : Z := 1.
Definition aaplCapUnixBased : Z := 4.
Definition aaplVolCaseSensitive : Z := 2.
Definition aaplVolFullSync : Z := 4.

Definition hasBit (x bit : Z) : bool := negb (Z.land x bit =? 0).

(** The reply, and whether READ_DIR_ATTR was negotiated. *)
Definition buildAAPLResponse (reqData : bytes) (caseSensitive : bool) : res (option bytes * bool) :=
  if len reqData <? 24 then Ok (None, false) else
  cmd ← u32 reqData 0;
  if negb (cmd =? aaplCmdServerQuery) then Ok (None, false) else
  reqBitmap ← u64 reqData 8;
  clientCaps ← u64 reqData 16;
  let resp := le32 aaplCmdServerQuery ++ le32 0 ++ le64 reqBitmap in
  let readDirAttr := hasBit reqBitmap aaplBitServerCaps && hasBit clientCaps aaplCapReadDirAttr in
  let server := if hasBit reqBitmap aaplBitServerCaps
    then le64 (if hasBit clientCaps aaplCapReadDirAttr then Z.lor aaplCapUnixBased aaplCapReadDirAttr else aaplCapUnixBased) else [] in
  let volume := if hasBit reqBitmap aaplBitVolumeCaps
    then le64 (if caseSensitive then Z.lor aaplVolFullSync aaplVolCaseSensitive else aaplVolFullSync) else [] in
  let name := Names.utf16leName (Config.lit "MacSamba1,1") in
  let model := if hasBit reqBitmap aaplBitModelInfo then le32 0 ++ le32 (len name) ++ name else [] in
  Ok (Some (resp ++ server ++ volume ++ model), readDirAttr).

(** One context of the request: what it adds to the response, and whether it
    latches [AAPLReadDirAttr]. *)
Definition answer (caseSensitive : bool) (maxAccess diskFileID volumeID : Z) (c : Create.CreateContext) : list Create.CreateContext * bool :=
  if bool_decide (Create.Name c = aaplTag) then
    match buildAAPLResponse (Create.Data c) caseSensitive with
    | Ok (Some r, readDirAttr) => ([Create.mkCtx aaplTag r], readDirAttr)
    | _ => ([], false)
    end
  else if bool_decide (Create.Name c = mxAcTag) then ([Create.mkCtx mxAcTag (le32 0 ++ le32 maxAccess)], false)
  else if bool_decide (Create.Name c = qFidTag) then
    if diskFileID =? 0 then ([], false) else ([Create.mkCtx qFidTag (le64 diskFileID ++ le64 volumeID ++ zeros 16)], false)
  else ([], false).

(** [latch] is the connection's [AAPLReadDirAttr]. *)
Definition buildCreateResponseContexts (raw : bytes) (caseSensitive latch : bool) (maxAccess diskFileID volumeID : Z) : res (bytes * bool) :=
  if len raw =? 0 then Ok ([], latch) else
  '(out, latch) ← Create.IterateCreateContexts raw
    (fun '(out, latch) c => let '(cs, l) := answer caseSensitive maxAccess diskFileID volumeID c in ((out ++ cs, latch || l), true)) ([], latch);
  Ok (Create.EncodeCreateContexts out, latch).

(** ** The probe *)

Definition fileCaseSensitiveSearch : Z := 0x00000001.
Definition fsAttrsBase : Z := 0x0084004E.
Definition caseSensitivityFallback : bool := false.
Definition caseProbePrefix : bytes := Config.lit ".gosamba-case-probe-".
Definition caseProbeScanLimit : Z := 64.

Definition swap_case (c : Byte.byte) : Byte.byte :=
  let v := b2z c in
  if (97 <=? v) && (v <=? 122) then z2b (v - 97 + 65) else if (65 <=? v) && (v <=? 90) then z2b (v - 65 + 97) else c.
Definition ascii_letter (c : Byte.byte) : bool := let v := b2z c in ((97 <=? v) && (v <=? 122)) || ((65 <=? v) && (v <=? 90)).

Definition flipASCIICase (s : bytes) : option bytes := if existsb ascii_letter s then Some (map swap_case s) else None.

Definition hex_digit (v : Z) : Byte.byte := if v <? 10 then z2b (48 + v) else z2b (97 + v - 10).
Definition hexEncode (b : bytes) : bytes := concat (map (fun c => [hex_digit (b2z c / 16); hex_digit (b2z c mod 16)]) b).

Definition SameFile (a b : fileInfo) : bool := (Ino a =? Ino b) && (Dev a =? Dev b).

Section Probe.
Context (ToUpper : bytes -> bytes).

(** The answer, [None] for an error.  The file is closed and removed on every
    way out. *)
Definition probeCaseByCreate (root : bytes) : prog (option bool) :=
  suffix ← sys (Random 8);
  match suffix with
  | None => mret None
  | Some suffix =>
      let lower := caseProbePrefix ++ hexEncode suffix in
      let lowerPath := Vfs.Join root lower in
      f ← sys (OpenProbe lowerPath);
      match f with
      | inr _ => mret None
      | inl fd =>
          created ← sys (FileStat fd);
          r ← (match created with
               | inr _ => mret None
               | inl created =>
                   flipped ← sys (Lstat (Vfs.Join root (ToUpper lower)));
                   mret (match flipped with
                         | inr ENOENT => Some true
                         | inr _ => None
                         | inl flipped => Some (negb (SameFile created flipped))
                         end)
               end);
          _ ← sys (CloseFd fd);
          _ ← sys (Remove lowerPath);
          mret r
      end
  end.

Fixpoint probe_names (root : bytes) (names : list bytes) : prog (option bool) :=
  match names with
  | [] => mret None
  | name :: names =>
      match flipASCIICase name with
      | None => probe_names root names
      | Some flipped =>
          orig ← sys (Lstat (Vfs.Join root name));
          match orig with
          | inr _ => probe_names root names
          | inl orig =>
              other ← sys (Lstat (Vfs.Join root flipped));
              match other with
              | inr ENOENT => mret (Some true)
              | inr _ => probe_names root names
              | inl other => mret (Some (negb (SameFile orig other)))
              end
          end
      end
  end.

Definition probeCaseByExistingEntry (root : bytes) : prog (option bool) :=
  names ← sys (Readdirnames root caseProbeScanLimit);
  match names with inr _ => mret None | inl names => probe_names root names end.

Definition probeCaseSensitivity (root : bytes) (readOnly : bool) : prog (option bool) :=
  if readOnly then probeCaseByExistingEntry root else
  r ← probeCaseByCreate root;
  match r with Some s => mret (Some s) | None => probeCaseByExistingEntry root end.

(** A share's entry: case sensitive, and whether that was measured. *)
Definition caseProbe : Type := bool * bool.

(** Once per cleaned root; an entry that is there is not probed again. *)
Definition shareCaseProbe (probes : gmap bytes caseProbe) (sh : Config.ShareConfig) : prog (gmap bytes caseProbe * caseProbe) :=
  let root := Vfs.Clean (Config.sPath sh) in
  match probes !! root with
  | Some p => mret (probes, p)
  | None =>
      r ← probeCaseSensitivity root (Config.ReadOnly sh);
      let p := match r with Some s => (s, true) | None => (caseSensitivityFallback, false) end in
      mret (<[root := p]> probes, p)
  end.

Definition shareCaseSensitive (probe : caseProbe) (tree : option Config.ShareConfig) : bool :=
  match tree with
  | None => caseSensitivityFallback
  | Some sh => if bool_decide (Config.sPath sh = []) then caseSensitivityFallback else probe.1
  end.

Definition fsAttributes (probe : caseProbe) (tree : option Config.ShareConfig) : Z :=
  if shareCaseSensitive probe tree then Z.lor fsAttrsBase fileCaseSensitiveSearch else fsAttrsBase.
End Probe.

(** ** What a CREATE answers *)

Lemma buildAAPL_total data cs : exists r, buildAAPLResponse data cs = Ok r.
Proof.
  unfold buildAAPLResponse. destruct (Z.ltb_spec (len data) 24); [by eexists|]. rewrite u32_Ok by lia. cbn [mbind outcome_bind].
  destruct (negb _); [by eexists|]. rewrite !u64_Ok by lia. cbn [mbind outcome_bind]. by eexists.
Qed.

Lemma fold_answers cs maxAccess disk vol ctxs out latch :
  Create.fold_until (fun '(out, latch) c => let '(r, l) := answer cs maxAccess disk vol c in ((out ++ r, latch || l), true)) ctxs (out, latch) =
    (out ++ concat (map (fun c => (answer cs maxAccess disk vol c).1) ctxs), latch || existsb (fun c => (answer cs maxAccess disk vol c).2) ctxs).
Proof.
  revert out latch. induction ctxs as [|c ctxs IH]; intros out latch; cbn [Create.fold_until map concat existsb]; [by rewrite app_nil_r, orb_false_r|].
  destruct (answer cs maxAccess disk vol c) as [r l]. cbn [fst snd negb]. by rewrite IH, <- app_assoc, orb_assoc.
Qed.

(** What macOS requires of a response context. *)
Definition acceptable (disk : Z) (c : Create.CreateContext) : Prop :=
  (Create.Name c = aaplTag /\ 16 <= len (Create.Data c)) \/ (Create.Name c = mxAcTag /\ len (Create.Data c) = 8) \/
  (Create.Name c = qFidTag /\ len (Create.Data c) = 32 /\ disk <> 0 /\ get (Create.Data c) 0 8 = le64 disk).

Lemma answer_acceptable cs maxAccess disk vol c r : r ∈ (answer cs maxAccess disk vol c).1 -> Create.Name r = Create.Name c /\ acceptable disk r.
Proof.
  unfold answer, acceptable. case_bool_decide as H1.
  { destruct (buildAAPLResponse (Create.Data c) cs) as [[[b|] l]| |] eqn:Hb; cbn [fst]; intros Hr; try by apply elem_of_nil in Hr.
    apply list_elem_of_singleton in Hr as ->. split; [by rewrite H1|]. left. split; [done|]. cbn [Create.Data].
    unfold buildAAPLResponse in Hb. destruct (_ <? 24); [done|]. bind_inv. destruct (negb _); [done|]. bind_inv.
    rewrite <- Hb, !len_cons. match goal with |- context [1 + len ?t] => pose proof (len_nonneg t) end. lia. }
  case_bool_decide as H2.
  { cbn [fst]. intros Hr. apply list_elem_of_singleton in Hr as ->. split; [by rewrite H2|]. right. left. by split. }
  case_bool_decide as H3; [|intros Hr; by apply elem_of_nil in Hr]. destruct (Z.eqb_spec disk 0); cbn [fst]; intros Hr; [by apply elem_of_nil in Hr|].
  apply list_elem_of_singleton in Hr as ->. split; [by rewrite H3|]. right. right. split; [done|]. split; [done|]. split; [done|]. cbn [Create.Data]. by apply get_app_exact.
Qed.

(** A CREATE answers exactly the contexts it can answer of those it was asked,
    in order: never one that was not asked for, MxAc in 8 bytes, QFid in 32 and
    only with an identifier that is not zero; and whatever bytes the client sent
    as contexts, the server does not panic on them. READ_DIR_ATTR stays latched
    once it was negotiated. *)
Theorem response_contexts_asked (cs latch : bool) (maxAccess disk vol : Z) :
  (forall raw, safe (buildCreateResponseContexts raw cs latch maxAccess disk vol)) /\
  forall ctxs, Forall Create.wf_ctx ctxs -> exists out l,
    buildCreateResponseContexts (Create.EncodeCreateContexts ctxs) cs latch maxAccess disk vol = Ok (Create.EncodeCreateContexts out, latch || l) /\
    out = concat (map (fun c => (answer cs maxAccess disk vol c).1) ctxs) /\
    Forall (fun r => acceptable disk r /\ exists c, c ∈ ctxs /\ Create.Name c = Create.Name r) out.
Proof.
  split.
  - intros raw. unfold buildCreateResponseContexts. destruct (len raw =? 0); [done|]. apply safe_bind; [apply Create.IterateCreateContexts_safe|]. by intros [out l] _.
  - intros ctxs Hw. exists (concat (map (fun c => (answer cs maxAccess disk vol c).1) ctxs)), (existsb (fun c => (answer cs maxAccess disk vol c).2) ctxs).
    split; [|split; [done|]].
    + unfold buildCreateResponseContexts. destruct (Z.eqb_spec (len (Create.EncodeCreateContexts ctxs)) 0) as [Hz|Hz].
      * pose proof (Create.encode_length ctxs Hw). destruct ctxs; [cbn; by rewrite orb_false_r|cbn [length] in *; lia].
      * rewrite Create.IterateCreateContexts_encode by done. cbn [mbind outcome_bind]. by rewrite fold_answers.
    + apply Forall_forall. intros r (l & Hl & Hr)%list_elem_of_In%in_concat. apply in_map_iff in Hl as (c & <- & Hc).
      apply list_elem_of_In, answer_acceptable in Hr as [Hn Ha]. split; [done|]. exists c. split; [by apply list_elem_of_In|done].
Qed.

(** ** What the probe leaves behind *)

Lemma run_names kernel root names : Forall (fun c => mutates c = false) (run kernel (probe_names root names)).1.
Proof.
  induction names as [|n names IH]; cbn [probe_names]; [constructor|]. destruct (flipASCIICase n) as [flipped|]; [|done].
  rewrite (run_sys kernel (Lstat (Vfs.Join root n))). destruct (kernel (Lstat (Vfs.Join root n))) as [orig|e].
  - rewrite (run_sys kernel (Lstat (Vfs.Join root flipped))). destruct (kernel (Lstat (Vfs.Join root flipped))) as [other|[]];
      try (destruct (run kernel (probe_names root names)); cbn [fst] in *; by repeat constructor); by repeat constructor.
  - destruct (run kernel (probe_names root names)) as [cs r]. cbn [fst] in *. by constructor.
Qed.

Lemma run_existing kernel root : Forall (fun c => mutates c = false) (run kernel (probeCaseByExistingEntry root)).1.
Proof.
  unfold probeCaseByExistingEntry. rewrite (run_sys kernel (Readdirnames root caseProbeScanLimit)). destruct (kernel (Readdirnames root caseProbeScanLimit)) as [names|e]; [|by repeat constructor].
  pose proof (run_names kernel root names). destruct (run kernel (probe_names root names)) as [cs r]. cbn [fst] in *. by constructor.
Qed.

Definition own_file (root : bytes) (p : bytes) : Prop := exists suffix, p = Vfs.Join root (caseProbePrefix ++ hexEncode suffix).

(** The probe of a share's case sensitivity leaves the share as it was. On a
    read-only share it modifies nothing. On another the only calls that modify
    anything create one file of a name of its own, and remove it; where the
    creation succeeded the removal is always made and the descriptor closed,
    whatever failed in between. *)
Theorem probe_leaves_nothing (ToUpper : bytes -> bytes) (root : bytes) (readOnly : bool) (kernel : forall c, result c) :
  let calls := (run kernel (probeCaseSensitivity ToUpper root readOnly)).1 in
  Forall (fun c => mutates c = true -> readOnly = false /\ exists p, own_file root p /\ (c = OpenProbe p \/ c = Remove p)) calls /\
  (forall p fd, OpenProbe p ∈ calls -> kernel (OpenProbe p) = inl fd -> Remove p ∈ calls /\ CloseFd fd ∈ calls).
Proof.
  assert (Hsil : forall ro cs, Forall (fun c => mutates c = false) cs ->
    Forall (fun c => mutates c = true -> ro = false /\ exists p, own_file root p /\ (c = OpenProbe p \/ c = Remove p)) cs).
  { intros ro cs Hcs. apply (Forall_impl _ _ _ Hcs). intros c Hc Hm. congruence. }
  assert (Hno : forall cs p, Forall (fun c => mutates c = false) cs -> OpenProbe p ∈ cs -> False).
  { intros cs p Hcs Hin. rewrite Forall_forall in Hcs. by specialize (Hcs _ Hin). }
  pose proof (run_existing kernel root) as Hex. cbv zeta. unfold probeCaseSensitivity. destruct readOnly.
  { split; [by apply Hsil|]. intros p fd Hin. by destruct (Hno _ _ Hex Hin). }
  rewrite run_bind. destruct (run kernel (probeCaseByCreate ToUpper root)) as [cs r] eqn:Hc.
  assert (Hcs : Forall (fun c => mutates c = true -> false = false /\ exists p, own_file root p /\ (c = OpenProbe p \/ c = Remove p)) cs /\
    (forall p fd, OpenProbe p ∈ cs -> kernel (OpenProbe p) = inl fd -> Remove p ∈ cs /\ CloseFd fd ∈ cs)).
  { revert Hc. unfold probeCaseByCreate. rewrite (run_sys kernel (Random 8)). destruct (kernel (Random 8)) as [suffix|].
    2: { cbn. intros [= <- _]. split; [by repeat constructor|]. intros p fd [Hin|Hin]%elem_of_cons; [done|by apply elem_of_nil in Hin]. }
    cbv zeta. set (p0 := Vfs.Join root (caseProbePrefix ++ hexEncode suffix)). assert (Hown : own_file root p0) by (by exists suffix).
    rewrite (run_sys kernel (OpenProbe p0)). destruct (kernel (OpenProbe p0)) as [fd|e] eqn:Hopen.
    2: { cbn. intros [= <- _]. split; [constructor; [done|]; constructor; [intros _; split; [done|]; exists p0; by split; [|left]|constructor]|].
         intros p fd Hin Hk. repeat (apply elem_of_cons in Hin as [Hin|Hin]; [try done; injection Hin as ->; congruence|]). by apply elem_of_nil in Hin. }
    rewrite (run_sys kernel (FileStat fd)). rewrite run_bind.
    match goal with |- context [run kernel (match kernel (FileStat fd) with inl _ => _ | inr _ => _ end)] => set (mid := run kernel (match kernel (FileStat fd) with inl _ => _ | inr _ => _ end)) end.
    assert (Hmid : Forall (fun c => mutates c = false /\ forall p, c <> OpenProbe p) mid.1) by (unfold mid; destruct (kernel (FileStat fd)); by repeat constructor).
    destruct mid as [ms r0]. cbn [fst] in Hmid. cbn. intros [= <- _].
    split.
    - constructor; [done|]. constructor; [intros _; split; [done|]; exists p0; by split; [|left]|]. constructor; [done|].
      apply Forall_app. split; [apply (Forall_impl _ _ _ Hmid); intros c [Hf _] Ht; congruence|]. constructor; [done|]. constructor; [intros _; split; [done|]; exists p0; by split; [|right]|constructor].
    - intros p fd' Hin Hk. assert (p = p0) as ->.
      { apply elem_of_cons in Hin as [Hin|Hin]; [done|]. apply elem_of_cons in Hin as [Hin|Hin]; [by injection Hin|]. apply elem_of_cons in Hin as [Hin|Hin]; [done|].
        apply elem_of_app in Hin as [Hin|Hin]; [rewrite Forall_forall in Hmid; by destruct (proj2 (Hmid _ Hin) p)|].
        repeat (apply elem_of_cons in Hin as [Hin|Hin]; [done|]). by apply elem_of_nil in Hin. }
      rewrite Hopen in Hk. injection Hk as <-. split.
      + do 3 right. apply elem_of_app. right. right. left.
      + do 3 right. apply elem_of_app. right. left. }
  destruct Hcs as [Hm Hr]. destruct r as [b|].
  - cbn. rewrite app_nil_r. by split.
  - destruct (run kernel (probeCaseByExistingEntry root)) as [cs' r'] eqn:He. cbn [fst] in *. split.
    + apply Forall_app. split; [done|]. by apply Hsil.
    + intros p fd [Hin|Hin]%elem_of_app Hk; [|by destruct (Hno _ _ Hex Hin)]. destruct (Hr p fd Hin Hk). split; apply elem_of_app; by left.
Qed.

Definition ex_request : bytes := le32 1 ++ le32 0 ++ le64 7 ++ le64 1.

(** A client that asks for AAPL and MxAc, and for a lease. *)
Lemma ex_contexts : exists b,
  buildCreateResponseContexts (Create.EncodeCreateContexts [Create.mkCtx aaplTag ex_request; Create.mkCtx mxAcTag []; Create.mkCtx Create.tagRqLs (zeros 32)]) false false 0x1F01FF 9 1
    = Ok (b, true) /\ len b = 120.
Proof. eexists. split; vm_compute; reflexivity. Qed.
End Aapl.
