(* ===== verification/Io.v ===== *)
(** READ, WRITE, FLUSH, SET_INFO and CLOSE: [internal/parent/dispatch.go].

    A handler looks its handle up in the session, and the record behind it on the
    heap; what it asks of the kernel is a program of [Kernel]. *)

From S2P Require Import Prelude Smb2 Utf Requests LockRanges Access ShareMode Sessions CopyChunk Durable Vfs Norm Smb3 Frames Dispatch Config Async Teardown Kernel Streams Srvsvc.
Import Access Kernel Streams.

Module Io.

Definition maxStreamSize : Z := 64 * 2 ^ 20.

Record Open := mkOpen {
  Path : bytes; IsDir : bool; IsPipe : bool; PipeName : bytes; File : option Z; Share : option Config.ShareConfig; DeleteOnClose : bool;
  LinkPath : bytes; IsStream : bool; StreamName : bytes; streamBuf : bytes; streamWritten : bool; streamSynthetic : bool; pipeOut : bytes;
  GrantedAccess : Z; IsDurable : bool; DurableClientGuid : bytes; DurableCreateGuid : bytes }.

Definition namePath (o : Open) : bytes := if bool_decide (LinkPath o = []) then Path o else LinkPath o.

Definition set_streamBuf (o : Open) (b : bytes) (written : bool) : Open :=
  mkOpen (Path o) (IsDir o) (IsPipe o) (PipeName o) (File o) (Share o) (DeleteOnClose o) (LinkPath o) (IsStream o) (StreamName o) b written (streamSynthetic o) (pipeOut o)
    (GrantedAccess o) (IsDurable o) (DurableClientGuid o) (DurableCreateGuid o).
Definition set_pipeOut (o : Open) (b : bytes) : Open :=
  mkOpen (Path o) (IsDir o) (IsPipe o) (PipeName o) (File o) (Share o) (DeleteOnClose o) (LinkPath o) (IsStream o) (StreamName o) (streamBuf o) (streamWritten o) (streamSynthetic o) b
    (GrantedAccess o) (IsDurable o) (DurableClientGuid o) (DurableCreateGuid o).
Definition set_DeleteOnClose (o : Open) (b : bool) : Open :=
  mkOpen (Path o) (IsDir o) (IsPipe o) (PipeName o) (File o) (Share o) b (LinkPath o) (IsStream o) (StreamName o) (streamBuf o) (streamWritten o) (streamSynthetic o) (pipeOut o)
    (GrantedAccess o) (IsDurable o) (DurableClientGuid o) (DurableCreateGuid o).
Definition set_name (o : Open) (p : bytes) : Open :=
  let link := negb (bool_decide (LinkPath o = [])) in
  mkOpen (if link then Path o else p) (IsDir o) (IsPipe o) (PipeName o) (File o) (Share o) (DeleteOnClose o) (if link then p else LinkPath o) (IsStream o) (StreamName o)
    (streamBuf o) (streamWritten o) (streamSynthetic o) (pipeOut o)
    (GrantedAccess o) (IsDurable o) (DurableClientGuid o) (DurableCreateGuid o).

(** The session's handles, and the records they point at. *)
Record state := mkState { sess : Session.Session; heap : gmap Z Open }.

Definition GetOpen (s : state) (fid : bytes) : option (Z * Open) :=
  o ← Session.GetOpen (sess s) fid; h ← heap s !! Session.open_id o; Some (Session.open_id o, h).

Definition put (s : state) (id : Z) (o : Open) : state := mkState (sess s) (<[id := o]> (heap s)).

(** A status and a body for [buildResponse], the message as READ builds it, or
    no answer: the handler panicked. *)
Inductive answer := Reply (status : Z) (body : bytes) | Frame (buf : bytes) | Crash.

Definition respondError {A} (s : A) (status : Z) : prog (A * answer) := mret (s, Reply status Dispatch.errBody).
Definition respondSuccess {A} (s : A) (body : bytes) : prog (A * answer) := mret (s, Reply StatusSuccess body).

Ltac wp_unfold ::= match goal with |- wp _ (respondError _ _) _ => apply wp_ret | |- wp _ (respondSuccess _ _) _ => apply wp_ret end.

Definition int64 (v : Z) : Z := if v <? 2 ^ 63 then v else v - 2 ^ 64.

(** [File.ReadAt] and [File.WriteAt]: a negative offset is refused with an error
    that carries no errno, and no bytes need no call. *)
Definition ReadAt (fd n off : Z) : prog (bytes * option readErr) :=
  if off <? 0 then mret ([], Some (ReadErr EOTHER)) else if n =? 0 then mret ([], None) else sys (Pread fd off n).
Definition WriteAt (fd : Z) (data : bytes) (off : Z) : prog (Z * option errno) :=
  if off <? 0 then mret (0, Some EOTHER) else if len data =? 0 then mret (0, None) else sys (Pwrite fd off data).

Section Handlers.
(** The largest transfer negotiated, the shares the session may see, and the
    byte-range lock manager's answer for a handle and a range. *)
Context (MaxIOSize : Z) (visible : list Config.ShareConfig) (conflictsWith : Z -> Z -> Z -> bool -> bool).

Definition on_readonly (o : Open) : bool := match Share o with Some sh => Config.ReadOnly sh | None => false end.

(** ** READ *)

Definition readResponseFixed : Z := 16.

(** The one buffer; the data lands behind the three headers. *)
Definition newReadResponseFrame (n : Z) : bytes := zeros (Nbss.FrameHeaderSize + Header.HeaderSize + readResponseFixed + n).

Definition sendReadResponseFrame (reqHdr : Header.Header) (buf : bytes) (n : Z) : bytes :=
  let prefix := Nbss.FrameHeaderSize in
  let buf := get buf 0 (prefix + Header.HeaderSize + readResponseFixed + n) in
  let hdr := Header.mkHeader (Header.CreditCharge reqHdr) StatusSuccess (Header.Command reqHdr)
    (Credits.grantCredits (Header.CreditCharge reqHdr) (Header.CreditResponse reqHdr)) Const.FlagServerToRedir 0
    (Header.MessageID reqHdr) (Header.TreeID reqHdr) (Header.SessionID reqHdr) (zeros 16) in
  let head := match Header.EncodeHeader (get buf prefix Header.HeaderSize) hdr with Ok h => h | _ => get buf prefix Header.HeaderSize end in
  let body := prefix + Header.HeaderSize in
  writes buf [(prefix, head); (body, le16 17); (body + 2, le8 (Header.HeaderSize + readResponseFixed)); (body + 4, le32 n)].

Definition handleRead (reqHdr : Header.Header) (s : state) (reqBody : bytes) : prog (state * answer) :=
  match Read.DecodeReadRequest reqBody with
  | Ok req =>
      match GetOpen s (Read.FileID req) with
      | None => respondError s StatusInvalidParameter
      | Some (id, o) =>
          if IsPipe o then
            if len (pipeOut o) =? 0 then respondError s StatusEndOfFile else
            let n := Z.min (Read.Length req) (len (pipeOut o)) in
            respondSuccess (put s id (set_pipeOut o (drop (Z.to_nat n) (pipeOut o)))) (Read.EncodeReadResponse (get (pipeOut o) 0 n))
          else if IsStream o then
            if len (streamBuf o) <=? Read.Offset req then respondError s StatusEndOfFile else
            let off := Read.Offset req in
            let stop := off + Read.Length req in
            let stop := if (len (streamBuf o) <? stop) || (stop <? off) then len (streamBuf o) else stop in
            respondSuccess s (Read.EncodeReadResponse (get (streamBuf o) off (stop - off)))
          else
          match File o with
          | None => respondError s StatusInvalidParameter
          | Some fd =>
              if negb (MaxIOSize =? 0) && (MaxIOSize <? Read.Length req) then respondError s StatusInvalidParameter else
              if conflictsWith id (Read.Offset req) (Read.Length req) false then respondError s StatusFileLockConflict else
              st ← sys (Fstat fd);
              let '(length, eof) := readLengthForOpen st (Read.Offset req) (Read.Length req) in
              if eof then respondError s StatusEndOfFile else
              let buf := newReadResponseFrame length in
              r ← ReadAt fd length (int64 (Read.Offset req));
              match r with
              | (data, Some (ReadErr e)) => respondError s (statusFromErr (Some e))
              | (data, _) =>
                  let n := len data in
                  if n =? 0 then respondError s StatusEndOfFile else
                  let buf := splice (Nbss.FrameHeaderSize + Header.HeaderSize + readResponseFixed) data buf in
                  mret (s, Frame (sendReadResponseFrame reqHdr buf n))
              end
          end
      end
  | _ => respondError s StatusInvalidParameter
  end.

(** ** READ's frame is the one every other response would have *)

Lemma splice_mid off (pre d e post : bytes) : off = len pre -> len d = len e -> splice off d (pre ++ e ++ post) = pre ++ d ++ post.
Proof.
  clear. intros -> Hd. unfold splice, len in *. rewrite Nat2Z.id. rewrite take_app_length. f_equal. f_equal.
  replace (length pre + length d)%nat with (length (pre ++ e)) by (rewrite length_app; lia). by rewrite app_assoc, drop_app_length.
Qed.

Lemma zeros_app a b : 0 <= a -> 0 <= b -> zeros (a + b) = zeros a ++ zeros b.
Proof. clear. intros. unfold zeros. rewrite Z2Nat.inj_add by lia. apply replicate_add. Qed.

Definition read_body (data : bytes) : bytes := le16 17 ++ le8 80 ++ zeros 1 ++ le32 (len data) ++ zeros 8 ++ data.

Lemma EncodeReadResponse_body data : Read.EncodeReadResponse data = read_body data.
Proof.
  clear. pose proof (len_nonneg data). unfold Read.EncodeReadResponse, with_buffer, Read.fixed, headerSize. rewrite zeros_app by lia.
  unfold writes. cbn [app fold_left fst snd].
  change (zeros 16) with ([] ++ zeros 2 ++ zeros 14). rewrite <- !app_assoc. rewrite (splice_mid 0 []), app_nil_l by done.
  change (zeros 14) with (zeros 1 ++ zeros 13). rewrite <- (app_assoc (zeros 1)). rewrite (splice_mid 2 (le16 17)) by done.
  change (zeros 13) with (zeros 1 ++ zeros 4 ++ zeros 8). change (64 + 16) with 80.
  replace (le16 17 ++ le8 80 ++ (zeros 1 ++ zeros 4 ++ zeros 8) ++ zeros (len data)) with ((le16 17 ++ le8 80 ++ zeros 1) ++ zeros 4 ++ (zeros 8 ++ zeros (len data)))
    by (by rewrite <- !app_assoc).
  rewrite (splice_mid 4) by done.
  replace ((le16 17 ++ le8 80 ++ zeros 1) ++ le32 (len data) ++ zeros 8 ++ zeros (len data)) with ((le16 17 ++ le8 80 ++ zeros 1 ++ le32 (len data) ++ zeros 8) ++ zeros (len data) ++ [])
    by (rewrite app_nil_r, <- !app_assoc; done).
  rewrite splice_mid by (first [done|rewrite len_zeros; lia]). unfold read_body. by rewrite app_nil_r, <- !app_assoc.
Qed.

Lemma read_frame_eq (reqHdr : Header.Header) (length : Z) (data : bytes) : len data <= length ->
  sendReadResponseFrame reqHdr (splice (Nbss.FrameHeaderSize + Header.HeaderSize + readResponseFixed) data (newReadResponseFrame length)) (len data) =
  zeros Nbss.FrameHeaderSize ++ Chain.buildResponse reqHdr StatusSuccess (Read.EncodeReadResponse data).
Proof.
  clear. intros Hl. pose proof (len_nonneg data) as Hd. rewrite EncodeReadResponse_body.
  assert (Hbuf : get (splice 84 data (newReadResponseFrame length)) 0 (84 + len data) = zeros 84 ++ data).
  { unfold newReadResponseFrame, Nbss.FrameHeaderSize, Header.HeaderSize, readResponseFixed.
    replace (4 + 64 + 16 + length) with (84 + (len data + (length - len data))) by lia. rewrite zeros_app, (zeros_app (len data)) by lia.
    rewrite splice_mid by (first [done|rewrite len_zeros; lia]). rewrite app_assoc. apply get_app_exact. rewrite len_app. done. }
  unfold sendReadResponseFrame, Chain.buildResponse. cbv zeta. set (hdr := Header.mkHeader _ _ _ _ _ _ _ _ _ _).
  change (Nbss.FrameHeaderSize + Header.HeaderSize + readResponseFixed) with 84. rewrite Hbuf.
  assert (Hg : get (zeros 84 ++ data) Nbss.FrameHeaderSize Header.HeaderSize = zeros Header.HeaderSize).
  { change (zeros 84) with (zeros 4 ++ zeros 64 ++ zeros 16). rewrite get_app_l by (rewrite ?len_app; vm_compute; congruence). reflexivity. }
  rewrite Hg. unfold Header.EncodeHeader. change (len (zeros Header.HeaderSize) <? Header.HeaderSize) with false. cbn iota.
  set (h := writes (zeros Header.HeaderSize) (Header.header_writes hdr)).
  assert (Hh : len h = 64) by (apply len_writes; [by apply Header.header_fits|done]).
  change Nbss.FrameHeaderSize with 4. change (4 + Header.HeaderSize) with 68. change (68 + 2) with 70. change (68 + 4) with 72. change (Header.HeaderSize + readResponseFixed) with 80.
  unfold writes. cbn [fold_left fst snd].
  change (zeros 84) with (zeros 4 ++ zeros 64 ++ zeros 2 ++ zeros 1 ++ zeros 1 ++ zeros 4 ++ zeros 8). rewrite <- !app_assoc.
  rewrite (splice_mid 4 (zeros 4)) by done.
  rewrite (app_assoc (zeros 4)), (splice_mid 68) by (first [done|rewrite len_app, Hh; done]).
  rewrite (app_assoc (zeros 4 ++ h)), (splice_mid 70) by (first [done|rewrite !len_app, Hh; done]).
  rewrite (app_assoc ((zeros 4 ++ h) ++ le16 17)), (app_assoc (((zeros 4 ++ h) ++ le16 17) ++ le8 80)), (splice_mid 72) by (first [done|rewrite !len_app, Hh; done]).
  unfold read_body. by rewrite <- !app_assoc.
Qed.

(** The frame READ fills in place, in the one buffer the data was read into,
    is byte for byte the message [buildResponse] makes of [EncodeReadResponse],
    four bytes of frame header before it, however much of what was asked for
    was delivered. *)
Theorem read_frame_equivalence (reqHdr : Header.Header) (length : Z) (data : bytes) : len data <= length ->
  sendReadResponseFrame reqHdr (splice (Nbss.FrameHeaderSize + Header.HeaderSize + readResponseFixed) data (newReadResponseFrame length)) (len data) =
  zeros Nbss.FrameHeaderSize ++ Chain.buildResponse reqHdr StatusSuccess (Read.EncodeReadResponse data).
Proof. apply read_frame_eq. Qed.

(** ** WRITE and FLUSH *)

(** [make] and [copy] when the write ends past the buffer. *)
Definition stream_write (buf : bytes) (off : Z) (data : bytes) : bytes :=
  let stop := off + len data in
  let buf := if len buf <? stop then splice 0 buf (zeros stop) else buf in
  splice off data buf.

Definition handleWrite (s : state) (reqBody : bytes) : prog (state * answer) :=
  match Write.DecodeWriteRequest reqBody with
  | Ok req =>
      match GetOpen s (Write.FileID req) with
      | None => respondError s StatusInvalidParameter
      | Some (id, o) =>
          let data := Write.Data req in
          if on_readonly o && negb (IsPipe o) then respondError s StatusAccessDenied else
          if IsPipe o then
            let out := if bool_decide (PipeName o = Config.lit "srvsvc")
                       then match Srvsvc.dcerpcHandle data visible with Ok (Some out) => out | _ => [] end else [] in
            respondSuccess (put s id (set_pipeOut o (pipeOut o ++ out))) (Write.EncodeWriteResponse (len data))
          else if IsStream o then
            if (maxStreamSize <? Write.Offset req) || (maxStreamSize <? len data) || (maxStreamSize <? Write.Offset req + len data) then respondError s StatusDiskFull else
            respondSuccess (put s id (set_streamBuf o (stream_write (streamBuf o) (Write.Offset req) data) true)) (Write.EncodeWriteResponse (len data))
          else
          match File o with
          | None => respondError s StatusInvalidParameter
          | Some fd =>
              if negb (MaxIOSize =? 0) && (MaxIOSize <? Write.Length req) then respondError s StatusInvalidParameter else
              if conflictsWith id (Write.Offset req) (len data) true then respondError s StatusFileLockConflict else
              r ← WriteAt fd data (int64 (Write.Offset req));
              match r with
              | (_, Some e) => respondError s (statusFromErr (Some e))
              | (n, None) => respondSuccess s (Write.EncodeWriteResponse n)
              end
          end
      end
  | _ => respondError s StatusInvalidParameter
  end.

Definition handleFlush (s : state) (reqBody : bytes) : prog (state * answer) :=
  match Flush.DecodeFlushRequest reqBody with
  | Ok req =>
      match GetOpen s (Flush.FileID req) with
      | None => respondError s StatusInvalidParameter
      | Some (_, o) =>
          match File o with
          | Some fd => _ ← sys (Fsync fd); respondSuccess s Flush.EncodeFlushResponse
          | None => respondSuccess s Flush.EncodeFlushResponse
          end
      end
  | _ => respondError s StatusInvalidParameter
  end.

(** ** SET_INFO *)

(** What the file system answers the resolver, and what the probe of a share's
    root found: case sensitive, and whether it could measure it. *)
Context (lstat : bytes -> Vfs.lstatAnswer) (EvalSymlinks : bytes -> Vfs.evalAnswer) (ReadDir : bytes -> option (list bytes)).
Context (NFC NFD : bytes -> bytes) (SimpleFold : Z -> Z) (shareCaseProbe : bytes -> bool * bool).
Context (ToLower : bytes -> bytes).

Definition shareFoldsCase (tree : option Config.ShareConfig) : bool :=
  match tree with
  | None => false
  | Some sh =>
      if bool_decide (Config.sPath sh = []) then false else
      let '(sensitive, measured) := shareCaseProbe (Vfs.Clean (Config.sPath sh)) in negb sensitive && negb measured
  end.

Definition resolve (root name : bytes) (fold : bool) : bytes + Vfs.vfsErr :=
  match Norm.ResolveSecureNorm lstat EvalSymlinks ReadDir NFC NFD SimpleFold root name fold with
  | Some r => r
  | None => inr Vfs.ErrTraversal
  end.

Definition InfoTypeFile : Z := 0x01.
Definition InfoTypeFilesystem : Z := 0x02.
Definition InfoTypeSecurity : Z := 0x03.
Definition InfoTypeQuota : Z := 0x04.
Definition FileFullEaInformation : Z := 0x0F.
Definition FileBasicInformationSet : Z := 0x04.
Definition FileRenameInformation : Z := 0x0A.
Definition FileDispositionInformation : Z := 0x0D.
Definition FileAllocationInformation : Z := 0x13.
Definition FileEndOfFileInformation : Z := 0x14.

Definition truncateOpen (o : Open) (size : Z) : prog (option errno) :=
  match File o with Some fd => sys (Ftruncate fd size) | None => sys (Truncate (Path o) size) end.

Definition setTimesOnOpen (o : Open) (atime mtime : Z) : prog (option errno) :=
  sys (UtimesNanoAt (Path o) (UnixNano atime) (UnixNano mtime)).

Definition stream_resize (buf : bytes) (size : Z) : bytes :=
  if size <=? 0 then [] else if size <=? len buf then get buf 0 size else splice 0 buf (zeros size).

Definition xattr_errno (e : xattrErr) : errno := match e with errXattrUnsupported => EOTHER | XErr e => to_errno e end.

(** [None] for a list that was applied, or given up where attributes are not
    supported. *)
Fixpoint setEAs (o : Open) (eas : list eaInfo) : prog (option xattrErr) :=
  match eas with
  | [] => mret None
  | ea :: eas =>
      e ← setEAOnFile ToLower (File o) (Path o) (eaName ea) (eaValue ea);
      match e with
      | None => setEAs o eas
      | Some errXattrUnsupported => mret None
      | Some e => mret (Some e)
      end
  end.

Definition set_stream (s : state) (id : Z) (o : Open) (req : SetInfo.SetInfoRequest) : prog (state * answer) :=
  let done s := respondSuccess s SetInfo.EncodeSetInfoResponse in
  let buf := SetInfo.Buffer req in
  if (SetInfo.InfoType req =? InfoTypeFile) && (SetInfo.FileInfoClass req =? FileEndOfFileInformation) && (8 <=? len buf) then
    let wire := le_combine (get buf 0 8) in
    if maxStreamSize <? wire then respondError s StatusDiskFull else
    done (put s id (set_streamBuf o (stream_resize (streamBuf o) wire) (streamWritten o)))
  else if (SetInfo.InfoType req =? InfoTypeFile) && (SetInfo.FileInfoClass req =? FileDispositionInformation) && (1 <=? len buf) then
    done (put s id (set_DeleteOnClose o (negb (le_combine (get buf 0 1) =? 0))))
  else done s.

(** The rename's target name starts at byte 20. *)
Definition set_rename (s : state) (id : Z) (o : Open) (buf : bytes) : prog (state * answer) :=
  if len buf <? 20 then respondError s StatusInvalidParameter else
  let replace := negb (le_combine (get buf 0 1) =? 0) in
  let nameLen := le_combine (get buf 16 4) in
  if len buf <? 20 + nameLen then respondError s StatusInvalidParameter else
  let newName := Names.decodeUTF16LE (get buf 20 nameLen) in
  match Share o with
  | None => mret (s, Crash)
  | Some sh =>
      match resolve (Config.sPath sh) newName (shareFoldsCase (Some sh)) with
      | inr _ => respondError s StatusAccessDenied
      | inl newPath =>
          taken ← (if replace then mret false else r ← sys (Lstat newPath); mret (match r with inl _ => true | inr _ => false end));
          if taken : bool then respondError s StatusObjectNameCollision else
          e ← sys (Rename (namePath o) newPath);
          match e with
          | Some e => respondError s (statusFromErr (Some e))
          | None => respondSuccess (put s id (set_name o newPath)) SetInfo.EncodeSetInfoResponse
          end
      end
  end.

(** The times of a FILE_BASIC_INFORMATION; a field that is not positive as an
    [int64] leaves its time alone. *)
Definition set_basic (s : state) (o : Open) (buf : bytes) : prog (state * answer) :=
  let done := respondSuccess s SetInfo.EncodeSetInfoResponse in
  if negb (32 <=? len buf) then done else
  let lastWrite := int64 (le_combine (get buf 16 8)) in
  let lastAccess := int64 (le_combine (get buf 8 8)) in
  if negb ((0 <? lastWrite) && negb (lastWrite =? -1)) then done else
  let wt := timeFromFiletime lastWrite 0 in
  let at_ := if (0 <? lastAccess) && negb (lastAccess =? -1) then timeFromFiletime lastAccess 0 else wt in
  e ← setTimesOnOpen o at_ wt;
  match e with Some e => respondError s (statusFromErr (Some e)) | None => done end.

Definition handleSetInfo (s : state) (reqBody : bytes) : prog (state * answer) :=
  match SetInfo.DecodeSetInfoRequest reqBody with
  | Ok req =>
      match GetOpen s (SetInfo.FileID req) with
      | None => respondError s StatusInvalidParameter
      | Some (id, o) =>
          let buf := SetInfo.Buffer req in
          let class := SetInfo.FileInfoClass req in
          let done := respondSuccess s SetInfo.EncodeSetInfoResponse in
          if on_readonly o then respondError s StatusAccessDenied else
          if IsStream o then set_stream s id o req else
          if (SetInfo.InfoType req =? InfoTypeSecurity) || (SetInfo.InfoType req =? InfoTypeQuota) || (SetInfo.InfoType req =? InfoTypeFilesystem) then done else
          if negb (SetInfo.InfoType req =? InfoTypeFile) then respondError s StatusNotSupported else
          if class =? FileEndOfFileInformation then
            if len buf <? 8 then respondError s StatusInvalidParameter else
            e ← truncateOpen o (int64 (le_combine (get buf 0 8)));
            match e with Some e => respondError s (statusFromErr (Some e)) | None => done end
          else if class =? FileAllocationInformation then done
          else if class =? FileDispositionInformation then
            if len buf <? 1 then respondError s StatusInvalidParameter else
            respondSuccess (put s id (set_DeleteOnClose o (negb (le_combine (get buf 0 1) =? 0)))) SetInfo.EncodeSetInfoResponse
          else if class =? FileRenameInformation then set_rename s id o buf
          else if class =? FileFullEaInformation then
            e ← setEAs o (match parseFullEaList buf with Ok eas => eas | _ => [] end);
            match e with Some e => respondError s (statusFromErr (Some (xattr_errno e))) | None => done end
          else if class =? FileBasicInformationSet then set_basic s o buf
          else respondError s StatusNotSupported
      end
  | _ => respondError s StatusInvalidParameter
  end.

(** ** CLOSE *)

Definition closeAttribsUsable (reqFlags : Z) (r : Close.CloseResponse) : bool :=
  if Z.land reqFlags Close.CloseFlagPostQueryAttrib =? 0 then false else
  negb (Close.CreationTime r =? 0) && negb (Close.LastAccessTime r =? 0) && negb (Close.LastWriteTime r =? 0) && negb (Close.ChangeTime r =? 0).

Definition FileAttrDirectory : Z := 0x00000010.
Definition FileAttrNormal : Z := 0x00000080.

Definition closeResponse (reqFlags : Z) (r : Close.CloseResponse) : bytes :=
  Close.EncodeCloseResponse (if closeAttribsUsable reqFlags r then
    Close.Build_CloseResponse Close.CloseFlagPostQueryAttrib (Close.CreationTime r) (Close.LastAccessTime r) (Close.LastWriteTime r) (Close.ChangeTime r)
      (Close.AllocationSize r) (Close.EndOfFile r) (Close.FileAttributes r) else r).

Definition noAttribs : Close.CloseResponse := Close.Build_CloseResponse 0 0 0 0 0 0 0 0.

Definition close_stream (o : Open) (reqFlags : Z) : prog answer :=
  let success :=
    now ← sys Now;
    let now := filetimeFromTime now in
    mret (Reply StatusSuccess (closeResponse reqFlags (Close.Build_CloseResponse 0 now now now now (len (streamBuf o)) (len (streamBuf o)) FileAttrNormal))) in
  let fail status := mret (Reply status Dispatch.errBody) in
  if DeleteOnClose o then
    e ← removeStreamXattr (Path o) (StreamName o);
    match e with
    | Some (XErr e) => fail (statusFromErr (Some (to_errno e)))
    | _ => success
    end
  else if streamSynthetic o && negb (streamWritten o) then success
  else
    e ← writeStreamXattr (Path o) (StreamName o) (streamBuf o);
    match e with
    | Some (XErr E2BIG) => fail StatusDiskFull
    | Some (XErr e) => fail (statusFromErr (Some (to_errno e)))
    | _ => success
    end.

Definition is_share_root (o : Open) (victim : bytes) : bool :=
  match Share o with
  | Some sh => negb (bool_decide (Config.sPath sh = [])) && bool_decide (Vfs.Clean victim = Vfs.Clean (Config.sPath sh))
  | None => false
  end.

(** The attributes of the object that is still there. *)
Definition close_attribs (o : Open) (deleted : bool) : prog Close.CloseResponse :=
  if deleted then mret noAttribs else
  st ← sys (Lstat (Path o));
  match st with
  | inr _ => mret noAttribs
  | inl i =>
      bt ← birthTime (Path o);
      let mt := filetimeFromTime (ModTime i) in
      let ct := match bt with Some bt => filetimeFromTime bt | None => mt end in
      mret (Close.Build_CloseResponse 0 ct mt mt mt (Size i) (Size i) (if Kernel.IsDir i then FileAttrDirectory else FileAttrNormal))
  end.

Definition close_file (o : Open) (reqFlags : Z) : prog answer :=
  let finish deleted := r ← close_attribs o deleted; mret (Reply StatusSuccess (closeResponse reqFlags r)) in
  if DeleteOnClose o then
    let victim := namePath o in
    if is_share_root o victim then mret (Reply StatusAccessDenied Dispatch.errBody) else
    e ← sys (Remove victim);
    match e with
    | Some ENOENT | None => finish true
    | Some e => mret (Reply (statusFromErr (Some e)) Dispatch.errBody)
    end
  else finish false.

(** The handle leaves the session's table and gives everything up before any
    answer is decided. *)
Definition handleClose (node : Z -> option fileKey) (durableKeyOf : Z -> option Durable.durableKey) (s : state) (t : Teardown.tables) (reqBody : bytes)
    : prog (state * Teardown.tables * answer) :=
  match Close.DecodeCloseRequest reqBody with
  | Ok req =>
      let '(sess', removed) := Session.RemoveOpen (sess s) (Close.FileID req) in
      match (r ← removed; o ← heap s !! Session.open_id r; Some (Session.open_id r, o)) with
      | None => mret (s, t, Reply StatusInvalidParameter Dispatch.errBody)
      | Some (id, o) =>
          let s := mkState sess' (heap s) in
          let t := Teardown.close_release node durableKeyOf t id in
          _ ← (match File o with Some fd => sys (CloseFd fd) | None => mret tt end : prog unit);
          a ← (if IsPipe o then mret (Reply StatusSuccess (Close.EncodeCloseResponse noAttribs))
               else if IsStream o then close_stream o (Close.Flags req)
               else close_file o (Close.Flags req));
          mret (s, t, a)
      end
  | _ => mret (s, t, Reply StatusInvalidParameter Dispatch.errBody)
  end.

(** ** What a handler asks of the kernel *)

Definition silent (c : call) : Prop := mutates c = false.

(** The handle a request names. *)
Definition on_handle (s : state) (fid : bytes) (P : Z -> Open -> Prop) : Prop := forall id o, GetOpen s fid = Some (id, o) -> P id o.

Lemma removed_get (s : state) fid : (RemoveOpen_result ← (Session.RemoveOpen (sess s) fid).2; o ← heap s !! Session.open_id RemoveOpen_result; Some (Session.open_id RemoveOpen_result, o)) = GetOpen s fid.
Proof. clear. done. Qed.

Lemma wp_ReadAt allowed fd n off (post : bytes * option readErr -> Prop) : 0 <= n ->
  (0 <= off -> allowed (Pread fd off n)) -> (forall r, len r.1 <= n -> post r) -> wp allowed (ReadAt fd n off) post.
Proof.
  clear. intros Hn Ha Hp. unfold ReadAt. destruct (Z.ltb_spec off 0); [by apply Hp|]. destruct (n =? 0); [by apply Hp|]. split; [auto|]. intros r Hr. apply Hp. cbn [legal] in Hr. lia.
Qed.

Lemma wp_WriteAt allowed fd data off (post : Z * option errno -> Prop) :
  (0 <= off -> allowed (Pwrite fd off data)) -> (forall r, (r.2 = None -> r.1 = len data) -> post r) -> wp allowed (WriteAt fd data off) post.
Proof.
  clear. intros Ha Hp. pose proof (len_nonneg data). unfold WriteAt. destruct (Z.ltb_spec off 0); [by apply Hp|]. destruct (Z.eqb_spec (len data) 0); [by apply Hp|].
  split; [auto|]. intros r [_ Hr]. by apply Hp.
Qed.

Lemma wp_birthTime allowed p post : allowed (Statx p) -> (forall r, post r) -> wp allowed (birthTime p) post.
Proof. clear. intros Ha Hp. unfold birthTime. apply wp_sys; [done|]. intros r _. apply wp_ret, Hp. Qed.

(** What every handler's program comes down to, on one handle. *)
Lemma wp_close_file allowed o flags (post : answer -> Prop) :
  (DeleteOnClose o = true -> is_share_root o (namePath o) = false -> allowed (Remove (namePath o))) ->
  allowed (Lstat (Path o)) -> allowed (Statx (Path o)) -> (forall a, post a) -> wp allowed (close_file o flags) post.
Proof.
  clear. intros Hr Hl Hs Hp.
  assert (Hf : forall d, wp allowed (r ← close_attribs o d; mret (Reply StatusSuccess (closeResponse flags r))) post).
  { intros d. apply wp_bind. apply (wp_mono allowed allowed _ (fun _ => True)); [done|intros; apply wp_ret, Hp|].
    unfold close_attribs. wps; try done. }
  unfold close_file. cbv zeta. wps; auto; exact (proj1 (wp_bind _ _ _ _) (Hf _)).
Qed.

Lemma wp_set_rename allowed s id o buf (post : state * answer -> Prop) :
  (forall to, allowed (Rename (namePath o) to)) -> (forall p, allowed (Lstat p)) ->
  (forall a, post (s, a)) -> (forall p a, post (put s id (set_name o p), a)) -> wp allowed (set_rename s id o buf) post.
Proof.
  clear - conflictsWith lstat EvalSymlinks ReadDir NFC NFD SimpleFold shareCaseProbe. intros Hr Hl Hp Hp'. unfold set_rename. cbv zeta. wps; auto.
Qed.

Lemma wp_setEAs allowed o eas (post : option xattrErr -> Prop) :
  (forall name v, allowed (Setxattr (Path o) name v)) -> (forall fd name v, File o = Some fd -> allowed (Fsetxattr fd name v)) ->
  (forall r, post r) -> wp allowed (setEAs o eas) post.
Proof.
  clear - ToLower. intros Hs Hf Hp. induction eas as [|ea eas IH]; cbn [setEAs]; [by apply wp_ret|].
  apply wp_bind. unfold setEAOnFile, setEA. wps; auto.
Qed.

(** CLOSE's program on the handle it removes. *)
Lemma wp_handleClose allowed node keyOf s t body (post : state * Teardown.tables * answer -> Prop) :
  (~ (exists req id o, Close.DecodeCloseRequest body = Ok req /\ GetOpen s (Close.FileID req) = Some (id, o)) -> forall a, post (s, t, a)) ->
  (forall req id o, Close.DecodeCloseRequest body = Ok req -> GetOpen s (Close.FileID req) = Some (id, o) ->
     (forall a, post (mkState (Session.RemoveOpen (sess s) (Close.FileID req)).1 (heap s), Teardown.close_release node keyOf t id, a)) /\
     (IsPipe o = false -> wp allowed (if IsStream o then close_stream o (Close.Flags req) else close_file o (Close.Flags req)) (fun _ => True))) ->
  (forall fd, allowed (CloseFd fd)) -> wp allowed (handleClose node keyOf s t body) post.
Proof.
  clear - conflictsWith. intros Hn Hp Hfd. unfold handleClose. destruct (Close.DecodeCloseRequest body) as [req| |] eqn:Hreq; [|apply wp_ret, Hn; by intros (? & ? & ? & ? & ?)..].
  destruct (Session.RemoveOpen (sess s) (Close.FileID req)) as [sess' removed] eqn:Hr.
  assert (Hg : (r ← removed; o ← heap s !! Session.open_id r; Some (Session.open_id r, o)) = GetOpen s (Close.FileID req)) by (by injection Hr as _ <-).
  rewrite Hg. destruct (GetOpen s (Close.FileID req)) as [[id o]|] eqn:Ho; [|apply wp_ret, Hn; intros (? & ? & ? & [= <-] & ?); congruence]. cbv zeta. destruct (Hp req id o eq_refl Ho) as [Hpost Hc]. rewrite Hr in Hpost.
  apply wp_bind. apply (wp_mono allowed allowed _ (fun _ => True)); [done| |by destruct (File o); [apply wp_call|apply wp_ret]].
  intros _ _. apply wp_bind. apply (wp_mono allowed allowed _ (fun _ => True)); [done| |].
  - intros a _. apply wp_ret, Hpost.
  - destruct (IsPipe o) eqn:Hi; [by apply wp_ret|]. specialize (Hc eq_refl). by destruct (IsStream o).
Qed.

Lemma get_put s fid id o o' : GetOpen s fid = Some (id, o) -> GetOpen (put s id o') fid = Some (id, o').
Proof.
  clear. unfold GetOpen, put. cbn [sess heap]. destruct (Session.GetOpen (sess s) fid) as [so|]; [|done]. cbn [mbind option_bind].
  destruct (heap s !! Session.open_id so); [|done]. cbn. intros [= <- _]. by rewrite lookup_insert_eq.
Qed.


(** A handle reached through a symbolic link in the share names the link:
    renaming it moves the link, deleting it removes the link, and neither call is
    ever made on the target it reads and writes. A rename leaves the handle on
    the same target. The root of the share is never removed. *)
Theorem namespace_ops_on_the_link (s : state) (t : Teardown.tables) node keyOf (body : bytes) (id : Z) (o : Open) :
  let on_name (c : call) := match c with Rename from _ => from = namePath o | Remove p => p = namePath o /\ is_share_root o p = false | _ => True end in
  (forall req, SetInfo.DecodeSetInfoRequest body = Ok req -> GetOpen s (SetInfo.FileID req) = Some (id, o) ->
     wp on_name (handleSetInfo s body) (fun '(s', _) => exists o', GetOpen s' (SetInfo.FileID req) = Some (id, o') /\ (LinkPath o <> [] -> Path o' = Path o))) /\
  (forall req, Close.DecodeCloseRequest body = Ok req -> GetOpen s (Close.FileID req) = Some (id, o) ->
     wp on_name (handleClose node keyOf s t body) (fun '(s', _, _) => GetOpen s' (Close.FileID req) = None)).
Proof.
  intros on_name. split.
  - intros req Hreq Ho. unfold handleSetInfo. rewrite Hreq, Ho.
    assert (Hs : exists o', GetOpen s (SetInfo.FileID req) = Some (id, o') /\ (LinkPath o <> [] -> Path o' = Path o)) by (by exists o).
    assert (Hp : forall o', (LinkPath o <> [] -> Path o' = Path o) ->
      exists o'', GetOpen (put s id o') (SetInfo.FileID req) = Some (id, o'') /\ (LinkPath o <> [] -> Path o'' = Path o)).
    { intros o' Hpath. exists o'. split; [|done]. by apply get_put with o. }
    cbv zeta. destruct (on_readonly o); [apply Hs|]. destruct (IsStream o).
    { unfold set_stream. cbv zeta. wps; auto; by apply Hp. }
    unfold truncateOpen. wps; auto; try done.
    + apply wp_set_rename; try done. intros p _. apply Hp. intros Hl. unfold set_name. cbn [Path]. by rewrite bool_decide_eq_false_2.
    + apply wp_setEAs; try done. intros r. destruct r; by apply wp_ret.
    + unfold set_basic, setTimesOnOpen. cbv zeta. wps; auto; done.
  - intros req Hreq Ho. apply wp_handleClose; [|intros req' id' o'; rewrite Hreq; intros [= <-]; rewrite Ho; intros [= <- <-]; split|done].
    + intros Hno. destruct Hno. by exists req, id, o.
    + intros _. unfold GetOpen, Session.GetOpen, Session.RemoveOpen. cbn [fst sess Session.opens]. by rewrite lookup_delete_eq.
    + intros _. destruct (IsStream o); [|by apply wp_close_file].
      unfold close_stream, removeStreamXattr, writeStreamXattr. by wps.
Qed.

(** ** A file's bytes *)

Definition file_handle (s : state) (fid : bytes) (id : Z) (o : Open) (fd : Z) : Prop :=
  GetOpen s fid = Some (id, o) /\ IsPipe o = false /\ IsStream o = false /\ File o = Some fd.

Lemma status_of_error e : statusFromErr (Some e) <> StatusSuccess.
Proof. clear. by destruct e. Qed.

Lemma readLength_le st off want : 0 <= off -> 0 <= want -> 0 <= (readLengthForOpen st off want).1 <= want.
Proof.
  clear. intros. unfold readLengthForOpen. destruct st as [[regular size]|]; [|done]. destruct (_ || _); [done|]. destruct (Z.leb_spec size off); [done|].
  cbv zeta. destruct (Z.ltb_spec (size - off) want); [|done]. cbn [fst]. pose proof (Z.mod_le (size - off) (2 ^ 32)). pose proof (Z.mod_pos_bound (size - off) (2 ^ 32)). lia.
Qed.

Lemma read_range body req : Read.DecodeReadRequest body = Ok req -> 0 <= Read.Length req < 2 ^ 32 /\ 0 <= Read.Offset req < 2 ^ 64.
Proof.
  clear. unfold Read.DecodeReadRequest. intros H. destruct (len body <? 48); [done|]. bind_inv. destruct (negb _); [done|]. bind_inv. subst. cbn [Read.Length Read.Offset].
  split; [by eapply u32_inv|by eapply u64_inv].
Qed.

Lemma write_range body req : Write.DecodeWriteRequest body = Ok req -> 0 <= Write.Offset req < 2 ^ 64.
Proof.
  clear. unfold Write.DecodeWriteRequest. intros H. repeat (case_match; try done; bind_inv); subst; cbn [Write.Offset]; by eapply u64_inv.
Qed.

(** READ of a file answers with the bytes the kernel delivered from the
    offset asked, at most as many as were asked and at least one, and only if no
    other handle's lock covers the range asked; where one does, or the request is
    past the negotiated size, the kernel is not asked at all. *)
Theorem read_file_spec (s : state) (reqHdr : Header.Header) (body : bytes) (req : Read.ReadRequest) id o fd (kernel : forall c, result c) :
  (forall c, legal c (kernel c)) -> Read.DecodeReadRequest body = Ok req -> file_handle s (Read.FileID req) id o fd ->
  let '(calls, (s', a)) := run kernel (handleRead reqHdr s body) in
  let locked := conflictsWith id (Read.Offset req) (Read.Length req) false in
  let too_long := negb (MaxIOSize =? 0) && (MaxIOSize <? Read.Length req) in
  s' = s /\ (locked || too_long = true -> calls = []) /\
  match a with
  | Frame buf => locked = false /\ too_long = false /\ exists n data e,
      Pread fd (Read.Offset req) n ∈ calls /\ kernel (Pread fd (Read.Offset req) n) = (data, e) /\ (forall x, e <> Some (ReadErr x)) /\
      0 < len data <= Read.Length req /\ buf = zeros 4 ++ Chain.buildResponse reqHdr StatusSuccess (Read.EncodeReadResponse data)
  | Reply status b => status <> StatusSuccess /\ b = Dispatch.errBody /\ (too_long = false -> locked = true -> status = StatusFileLockConflict)
  | Crash => False
  end.
Proof.
  intros Hk Hreq (Ho & Hpipe & Hstream & Hfd). destruct (read_range _ _ Hreq) as [[HL _] [HO _]]. unfold handleRead. rewrite Hreq, Ho, Hpipe, Hstream, Hfd. cbv zeta.
  destruct (negb (MaxIOSize =? 0) && (MaxIOSize <? Read.Length req)) eqn:Hlong.
  { split; [done|]. split; [done|]. by split. }
  destruct (conflictsWith id (Read.Offset req) (Read.Length req) false) eqn:Hlock.
  { split; [done|]. split; [done|]. by split. }
  rewrite (run_sys kernel (Fstat fd)). pose proof (readLength_le (kernel (Fstat fd)) (Read.Offset req) (Read.Length req) HO HL) as Hlen.
  destruct (readLengthForOpen (kernel (Fstat fd)) (Read.Offset req) (Read.Length req)) as [n eof]. cbn [fst] in Hlen.
  destruct eof.
  { cbn. split; [done|]. split; [done|]. by split. }
  rewrite run_bind. unfold ReadAt. destruct (Z.ltb_spec (int64 (Read.Offset req)) 0) as [|Hoff].
  { cbn. split; [done|]. split; [done|]. by split. }
  assert (Hi : int64 (Read.Offset req) = Read.Offset req).
  { pose proof (read_range _ _ Hreq). unfold int64 in *. destruct (Z.ltb_spec (Read.Offset req) (2 ^ 63)); lia. }
  rewrite Hi. destruct (Z.eqb_spec n 0) as [->|Hn].
  { cbn. split; [done|]. split; [done|]. by split. }
  cbn [run sys]. pose proof (Hk (Pread fd (Read.Offset req) n)) as Hl. cbn [legal] in Hl. destruct (kernel (Pread fd (Read.Offset req) n)) as [data e] eqn:Hp. cbn [fst] in Hl.
  assert (Hok : (forall x, e <> Some (ReadErr x)) ->
    let '(calls, (s', a)) := (let '(cs', b) := run kernel (if len data =? 0 then respondError s StatusEndOfFile else mret (s, Frame (sendReadResponseFrame reqHdr
        (splice (Nbss.FrameHeaderSize + Header.HeaderSize + readResponseFixed) data (newReadResponseFrame n)) (len data)))) in
      ([Pread fd (Read.Offset req) n] ++ cs', b)) in
    s' = s /\ match a with
    | Frame buf => exists n data e, Pread fd (Read.Offset req) n ∈ Fstat fd :: calls /\ kernel (Pread fd (Read.Offset req) n) = (data, e) /\ (forall x, e <> Some (ReadErr x)) /\
      0 < len data <= Read.Length req /\ buf = zeros 4 ++ Chain.buildResponse reqHdr StatusSuccess (Read.EncodeReadResponse data)
    | Reply status b => status <> StatusSuccess /\ b = Dispatch.errBody
    | Crash => False end).
  { intros He. destruct (Z.eqb_spec (len data) 0); [by split|]. cbn [run mret prog_ret]. split; [done|]. exists n, data, e. split; [right; left|].
    split; [done|]. split; [done|]. pose proof (len_nonneg data). split; [lia|]. apply read_frame_eq. lia. }
  assert (Hend : forall p : list call * (state * answer), (let '(calls, (s', a)) := p in s' = s /\ match a with
    | Frame buf => exists n data e, Pread fd (Read.Offset req) n ∈ Fstat fd :: calls /\ kernel (Pread fd (Read.Offset req) n) = (data, e) /\ (forall x, e <> Some (ReadErr x)) /\
      0 < len data <= Read.Length req /\ buf = zeros 4 ++ Chain.buildResponse reqHdr StatusSuccess (Read.EncodeReadResponse data)
    | Reply status b => status <> StatusSuccess /\ b = Dispatch.errBody
    | Crash => False end) ->
    let '(calls, (s', a)) := (let '(cs, b) := p in (Fstat fd :: cs, b)) in
    s' = s /\ (false || false = true -> calls = []) /\ match a with
    | Frame buf => false = false /\ false = false /\ exists n data e, Pread fd (Read.Offset req) n ∈ calls /\ kernel (Pread fd (Read.Offset req) n) = (data, e) /\ (forall x, e <> Some (ReadErr x)) /\
      0 < len data <= Read.Length req /\ buf = zeros 4 ++ Chain.buildResponse reqHdr StatusSuccess (Read.EncodeReadResponse data)
    | Reply status b => status <> StatusSuccess /\ b = Dispatch.errBody /\ (false = false -> false = true -> status = StatusFileLockConflict)
    | Crash => False end).
  { intros [calls [s' a]] [-> Ha]. split; [done|]. split; [done|]. destruct a; [destruct Ha; by split|by split|done]. }
  destruct e as [[|e]|]; [|cbn; split; [done|]; split; [done|]; split; [apply status_of_error|by split]|].
  - apply Hend, Hok. done.
  - apply Hend, Hok. done.
Qed.

(** WRITE to a file that answers with success has written every byte of the
    request at its offset, in one call, on a share that is not read-only and over
    a range no other handle has locked; where another handle has, or the request
    is past the negotiated size, the kernel is not asked. *)
Theorem write_file_spec (s : state) (body : bytes) (req : Write.WriteRequest) id o fd (kernel : forall c, result c) :
  (forall c, legal c (kernel c)) -> Write.DecodeWriteRequest body = Ok req -> file_handle s (Write.FileID req) id o fd ->
  let '(calls, (s', a)) := run kernel (handleWrite s body) in
  let data := Write.Data req in
  let locked := conflictsWith id (Write.Offset req) (len data) true in
  let too_long := negb (MaxIOSize =? 0) && (MaxIOSize <? Write.Length req) in
  s' = s /\ (on_readonly o || locked || too_long = true -> calls = []) /\ Forall (fun c => c = Pwrite fd (Write.Offset req) data) calls /\
  exists status b, a = Reply status b /\
  (status = StatusSuccess -> on_readonly o = false /\ locked = false /\ too_long = false /\ b = Write.EncodeWriteResponse (len data) /\
     (data <> [] -> calls = [Pwrite fd (Write.Offset req) data] /\ (kernel (Pwrite fd (Write.Offset req) data)).2 = None)) /\
  (on_readonly o = true -> status = StatusAccessDenied) /\
  (on_readonly o = false -> too_long = false -> locked = true -> status = StatusFileLockConflict).
Proof.
  intros Hk Hreq (Ho & Hpipe & Hstream & Hfd). unfold handleWrite. rewrite Hreq, Ho, Hpipe, Hstream, Hfd. cbv zeta. rewrite andb_true_r.
  destruct (on_readonly o) eqn:Hro.
  { split; [done|]. split; [done|]. split; [constructor|]. eexists _, _. split; [reflexivity|]. by split. }
  destruct (negb (MaxIOSize =? 0) && (MaxIOSize <? Write.Length req)) eqn:Hlong.
  { split; [done|]. split; [done|]. split; [constructor|]. eexists _, _. split; [reflexivity|]. by split. }
  destruct (conflictsWith id (Write.Offset req) (len (Write.Data req)) true) eqn:Hlock.
  { split; [done|]. split; [done|]. split; [constructor|]. eexists _, _. split; [reflexivity|]. by split. }
  rewrite run_bind. unfold WriteAt. destruct (Z.ltb_spec (int64 (Write.Offset req)) 0) as [|Hoff].
  { cbn. split; [done|]. split; [done|]. split; [constructor|]. eexists _, _. split; [reflexivity|]. by split. }
  assert (Hi : int64 (Write.Offset req) = Write.Offset req).
  { pose proof (write_range _ _ Hreq). unfold int64 in *. destruct (Z.ltb_spec (Write.Offset req) (2 ^ 63)); lia. }
  rewrite Hi. destruct (Z.eqb_spec (len (Write.Data req)) 0) as [Hz|Hn].
  { cbn. split; [done|]. split; [done|]. split; [constructor|]. eexists _, _. split; [reflexivity|]. split; [|by split].
    intros _. rewrite Hz. do 4 (split; [done|]). intros Hd. by apply len_zero in Hz. }
  cbn [run sys]. pose proof (Hk (Pwrite fd (Write.Offset req) (Write.Data req))) as Hl. cbn [legal] in Hl.
  destruct (kernel (Pwrite fd (Write.Offset req) (Write.Data req))) as [n [e|]] eqn:Hp; cbn.
  - split; [done|]. split; [done|]. split; [by constructor|]. eexists _, _. split; [reflexivity|]. split; [|by split]. intros He. by apply status_of_error in He.
  - split; [done|]. split; [done|]. split; [by constructor|]. eexists _, _. split; [reflexivity|]. split; [|by split]. intros _.
    do 3 (split; [done|]). destruct Hl as [_ Hl]. cbn in Hl. rewrite (Hl eq_refl). by split.
Qed.

(** ** What CLOSE promises *)

(** The stream's bytes reached its attribute, or there are no attributes. *)
Definition stored (kernel : forall c, result c) (calls : list call) (o : Open) : Prop :=
  let name := streamXattrName (StreamName o) in
  (exists fd, Fsetxattr fd name (streamBuf o) ∈ calls /\ (kernel (Fsetxattr fd name (streamBuf o)) = None \/ kernel (Fsetxattr fd name (streamBuf o)) = Some (Sys ENOTSUP))) \/
  (Setxattr (Path o) name (streamBuf o) ∈ calls /\
    (kernel (Setxattr (Path o) name (streamBuf o)) = None \/ kernel (Setxattr (Path o) name (streamBuf o)) = Some (Sys ENOTSUP))).

Lemma classify_stored e : (classifySetxattrErr e = None \/ classifySetxattrErr e = Some errXattrUnsupported) -> e = None \/ e = Some (Sys ENOTSUP).
Proof. clear. destruct e as [[| | |[]]|]; cbn; intros [|]; try done; tauto. Qed.

Lemma errno_status e : statusFromErr (Some (to_errno e)) <> StatusSuccess.
Proof. clear. apply status_of_error. Qed.

Lemma stored_mono kernel cs cs' o : stored kernel cs o -> stored kernel (cs ++ cs') o.
Proof. clear. intros [(fd & Hin & Hk)|[Hin Hk]]; [left; exists fd|right]; (split; [apply elem_of_app; by left|done]). Qed.

Lemma run_writeStreamXattr kernel o : exists calls r, run kernel (writeStreamXattr (Path o) (StreamName o) (streamBuf o)) = (calls, r) /\
  (r = None \/ r = Some errXattrUnsupported -> stored kernel calls o).
Proof.
  clear. unfold writeStreamXattr. rewrite (run_sys kernel (OpenNoFollow (Path o))). destruct (kernel (OpenNoFollow (Path o))) as [fd|e].
  - eexists _, _. split; [reflexivity|]. intros Hr. left. exists fd. split; [right; left|]. by apply classify_stored.
  - destruct e; eexists _, _; (split; [reflexivity|]); intros Hr;
      first [by destruct Hr|right; split; [right; left|]; by apply classify_stored].
Qed.

Lemma run_close_stream kernel o flags : exists status b, (run kernel (close_stream o flags)).2 = Reply status b /\
  (status = StatusSuccess -> DeleteOnClose o = false -> streamSynthetic o && negb (streamWritten o) = false -> stored kernel (run kernel (close_stream o flags)).1 o).
Proof.
  clear. unfold close_stream. destruct (DeleteOnClose o).
  { rewrite run_bind. destruct (run kernel (removeStreamXattr _ _)) as [cs [[|e]|]]; cbn; eexists _, _; (split; [reflexivity|]); done. }
  destruct (streamSynthetic o && negb (streamWritten o)); [cbn; eexists _, _; (split; [reflexivity|]); done|].
  match goal with |- context [_ ≫= ?k] => set (K := k) end.
  assert (HK : forall e, exists status b, (run kernel (K e)).2 = Reply status b /\ (status = StatusSuccess -> e = None \/ e = Some errXattrUnsupported)).
  { intros [[|e]|]; [eexists _, _; split; [reflexivity|]; tauto| |eexists _, _; split; [reflexivity|]; tauto].
    destruct e as [| | |e]; eexists _, _; (split; [reflexivity|]); try done. intros He. by apply status_of_error in He. }
  clearbody K. rewrite run_bind. destruct (run_writeStreamXattr kernel o) as (calls & r & -> & Hs). destruct (HK r) as (st & b & He & Hst).
  destruct (run kernel (K r)) as [cs a]. cbn [snd fst] in *. exists st, b. split; [done|]. intros Hok _ _. by apply stored_mono, Hs, Hst.
Qed.

Lemma run_close_file kernel o flags : exists status b, (run kernel (close_file o flags)).2 = Reply status b /\
  (status = StatusSuccess -> DeleteOnClose o = true ->
     is_share_root o (namePath o) = false /\ Remove (namePath o) ∈ (run kernel (close_file o flags)).1 /\
     (kernel (Remove (namePath o)) = None \/ kernel (Remove (namePath o)) = Some ENOENT)).
Proof.
  clear. assert (Hf : forall d, exists b, (run kernel (r ← close_attribs o d; mret (Reply StatusSuccess (closeResponse flags r)))).2 = Reply StatusSuccess b).
  { intros d. rewrite run_bind. destruct (run kernel (close_attribs o d)) as [cs r]. by eexists. }
  unfold close_file. cbv zeta. destruct (DeleteOnClose o); [|destruct (Hf false) as [b Hb]; by exists StatusSuccess, b].
  destruct (is_share_root o (namePath o)) eqn:Hroot; [eexists _, _; split; [reflexivity|done]|].
  rewrite (run_sys kernel (Remove (namePath o))). destruct (Hf true) as [b Hb].
  destruct (kernel (Remove (namePath o))) as [e|] eqn:Hk.
  - destruct e; try (eexists _, _; split; [reflexivity|]; intros Hs; by apply status_of_error in Hs).
    destruct (run kernel (_ ≫= _)) as [cs a]. cbn [snd fst] in *. exists StatusSuccess, b. split; [done|]. intros _ _. split; [done|]. split; [left|tauto].
  - destruct (run kernel (_ ≫= _)) as [cs a]. cbn [snd fst] in *. exists StatusSuccess, b. split; [done|]. intros _ _. split; [done|]. split; [left|tauto].
Qed.

(** C28: CLOSE on every path: the handle leaves the session and the others stay,
    everything any table held for it is given up and nothing else, its descriptor
    is closed. And an answer of success is true: a file marked for deletion is
    gone under its own name, which is not the share's root, and what was written
    to a stream has reached its attribute, or the file system has none. *)
Theorem close_spec (s : state) (t : Teardown.tables) node keyOf (body : bytes) (req : Close.CloseRequest) id o (kernel : forall c, result c) :
  let held := Teardown.held node keyOf in
  Close.DecodeCloseRequest body = Ok req -> GetOpen s (Close.FileID req) = Some (id, o) -> Teardown.tables_ok node keyOf t ->
  let '(calls, (s', t', a)) := run kernel (handleClose node keyOf s t body) in
  GetOpen s' (Close.FileID req) = None /\ (forall fid, fid <> Close.FileID req -> GetOpen s' fid = GetOpen s fid) /\
  Teardown.tables_ok node keyOf t' /\ ~ held t' id /\ (forall id', id' <> id -> held t' id' <-> held t id') /\ (forall fd, File o = Some fd -> CloseFd fd ∈ calls) /\
  exists status b, a = Reply status b /\
  (status = StatusSuccess -> IsPipe o = false ->
     (IsStream o = false -> DeleteOnClose o = true ->
        is_share_root o (namePath o) = false /\ Remove (namePath o) ∈ calls /\ (kernel (Remove (namePath o)) = None \/ kernel (Remove (namePath o)) = Some ENOENT)) /\
     (IsStream o = true -> DeleteOnClose o = false -> streamWritten o = true -> stored kernel calls o)).
Proof.
  clear MaxIOSize visible conflictsWith lstat EvalSymlinks ReadDir NFC NFD SimpleFold shareCaseProbe ToLower.
  intros held Hreq Ho Ht. unfold handleClose. rewrite Hreq.
  destruct (Session.RemoveOpen (sess s) (Close.FileID req)) as [sess' removed] eqn:Hr.
  assert (Hg : (r ← removed; o ← heap s !! Session.open_id r; Some (Session.open_id r, o)) = GetOpen s (Close.FileID req)) by (by injection Hr as _ <-).
  rewrite Hg, Ho. cbv zeta. set (s' := mkState sess' (heap s)). set (t' := Teardown.close_release node keyOf t id).
  match goal with |- context [run kernel (?p ≫= ?k)] => set (fdp := p); set (K := k) end.
  assert (Hfd : forall fd, File o = Some fd -> CloseFd fd ∈ (run kernel fdp).1) by (intros fd Hf; unfold fdp; rewrite Hf; left).
  assert (HK : exists calls a, run kernel (K tt) = (calls, (s', t', a)) /\ exists status b, a = Reply status b /\
    (status = StatusSuccess -> IsPipe o = false ->
     (IsStream o = false -> DeleteOnClose o = true ->
        is_share_root o (namePath o) = false /\ Remove (namePath o) ∈ calls /\ (kernel (Remove (namePath o)) = None \/ kernel (Remove (namePath o)) = Some ENOENT)) /\
     (IsStream o = true -> DeleteOnClose o = false -> streamWritten o = true -> stored kernel calls o))).
  { unfold K. rewrite run_bind. destruct (IsPipe o); [cbn; eexists _, _; split; [reflexivity|]; by eexists _, _|]. destruct (IsStream o).
    - destruct (run_close_stream kernel o (Close.Flags req)) as (st & b & He & Hs). destruct (run kernel (close_stream o (Close.Flags req))) as [cs a]. cbn [fst snd] in *. subst a.
      cbn. eexists _, _. split; [reflexivity|]. exists st, b. split; [done|]. intros Hst _. split; [done|]. intros _ Hd Hw. apply stored_mono, Hs; [done|done|]. rewrite Hw. apply andb_false_r.
    - destruct (run_close_file kernel o (Close.Flags req)) as (st & b & He & Hs). destruct (run kernel (close_file o (Close.Flags req))) as [cs a]. cbn [fst snd] in *. subst a.
      cbn. eexists _, _. split; [reflexivity|]. exists st, b. split; [done|]. intros Hst _. split; [|done]. intros _ Hd. destruct (Hs Hst Hd) as (? & ? & ?). split; [done|]. split; [apply elem_of_app; by left|done]. }
  destruct HK as (calls & a & HK & st & b & -> & Hend). rewrite run_bind. destruct (run kernel fdp) as [cs []]. rewrite HK.
  destruct (Teardown.close_release_held node keyOf t id Ht) as [Hok Hheld].  fold t' in Hok, Hheld. fold held in Hheld.
  assert (Hs' : forall fid, GetOpen s' fid = if decide (fid = Close.FileID req) then None else GetOpen s fid).
  { intros fid. unfold s', GetOpen, Session.GetOpen. injection Hr as <- _. cbn [sess Session.opens heap]. destruct (decide _) as [->|]; [by rewrite lookup_delete_eq|by rewrite lookup_delete_ne]. }
  split; [rewrite Hs'; by rewrite decide_True|]. split; [intros fid Hne; rewrite Hs'; by rewrite decide_False|].
  split; [done|]. split; [rewrite Hheld; by intros []|]. split; [intros id' Hne; rewrite Hheld; tauto|].
  split; [intros fd Hf; apply elem_of_app; left; by apply Hfd|]. exists st, b. split; [done|]. intros Hst Hp. destruct (Hend Hst Hp) as [Hfile Hstream]. split.
  - intros Hi Hd. destruct (Hfile Hi Hd) as (? & ? & ?). split; [done|]. split; [apply elem_of_app; by right|done].
  - intros Hi Hd Hw. destruct (Hstream Hi Hd Hw) as [(fd & Hin & Hk)|[Hin Hk]]; [left; exists fd|right]; (split; [apply elem_of_app; by right|done]).
Qed.

(** ** A stream's buffer *)

Lemma len_stream_write buf off data : 0 <= off -> len (stream_write buf off data) = Z.max (len buf) (off + len data).
Proof.
  clear. intros Ho. pose proof (len_nonneg buf). pose proof (len_nonneg data). unfold stream_write. cbv zeta. destruct (Z.ltb_spec (len buf) (off + len data)).
  - assert (len (zeros (off + len data)) = off + len data) by (apply len_zeros; lia). rewrite !len_splice by (rewrite ?len_splice by lia; lia). lia.
  - rewrite len_splice by lia. lia.
Qed.

Lemma lookup_stream_write buf off data (i : nat) : 0 <= off ->
  stream_write buf off data !! i =
    if decide (off <= Z.of_nat i < off + len data) then data !! (i - Z.to_nat off)%nat
    else if decide (Z.of_nat i < len buf) then buf !! i else if decide (Z.of_nat i < off) then Some Byte.x00 else None.
Proof.
  clear. intros Ho. pose proof (len_nonneg buf). pose proof (len_nonneg data). unfold stream_write. cbv zeta. destruct (Z.ltb_spec (len buf) (off + len data)).
  - assert (Hz : len (zeros (off + len data)) = off + len data) by (apply len_zeros; lia). rewrite lookup_splice by (rewrite ?len_splice by lia; lia).
    destruct (decide (off <= _ < _)); [done|]. rewrite lookup_splice by lia. rewrite Z.add_0_l. destruct (decide (Z.of_nat i < len buf)).
    + rewrite decide_True by lia. f_equal. lia.
    + rewrite decide_False by lia. unfold zeros. destruct (decide (Z.of_nat i < off)).
      * apply lookup_replicate_2. lia.
      * apply lookup_replicate_None. lia.
  - rewrite lookup_splice by lia. destruct (decide (off <= _ < _)); [done|]. destruct (decide (Z.of_nat i < len buf)); [done|].
    rewrite (lookup_ge_None_2 buf) by (unfold len in *; lia). destruct (decide (Z.of_nat i < off)); [lia|done].
Qed.

(** A WRITE to a stream acts on its buffer as on a file: the bytes are at
    their offset, the others as they were, a gap reads as zeros; it is refused
    with STATUS_DISK_FULL, the handle untouched, exactly when it would end past
    64 MiB. A READ of the same range then answers with what was written, and no
    step asks the kernel for anything. *)
Theorem stream_write_read (s : state) (reqHdr : Header.Header) (wb rb : bytes) (w : Write.WriteRequest) (r : Read.ReadRequest) id o (kernel : forall c, result c) :
  Write.DecodeWriteRequest wb = Ok w -> Read.DecodeReadRequest rb = Ok r -> Read.FileID r = Write.FileID w -> Read.Offset r = Write.Offset w -> Read.Length r = len (Write.Data w) ->
  Write.Data w <> [] -> GetOpen s (Write.FileID w) = Some (id, o) -> IsPipe o = false -> IsStream o = true -> on_readonly o = false ->
  let '(calls, (s1, a)) := run kernel (handleWrite s wb) in
  calls = [] /\
  (if maxStreamSize <? Write.Offset w + len (Write.Data w) then s1 = s /\ a = Reply StatusDiskFull Dispatch.errBody
   else a = Reply StatusSuccess (Write.EncodeWriteResponse (len (Write.Data w))) /\
     run kernel (handleRead reqHdr s1 rb) = ([], (s1, Reply StatusSuccess (Read.EncodeReadResponse (Write.Data w)))) /\
     exists o', GetOpen s1 (Write.FileID w) = Some (id, o') /\ streamWritten o' = true /\ len (streamBuf o') = Z.max (len (streamBuf o)) (Write.Offset w + len (Write.Data w)) /\
       forall i : nat, streamBuf o' !! i =
         if decide (Write.Offset w <= Z.of_nat i < Write.Offset w + len (Write.Data w)) then Write.Data w !! (i - Z.to_nat (Write.Offset w))%nat
         else if decide (Z.of_nat i < len (streamBuf o)) then streamBuf o !! i else if decide (Z.of_nat i < Write.Offset w) then Some Byte.x00 else None).
Proof.
  intros Hw Hr Hf Hoff Hlen Hne Ho Hp Hs Hro. pose proof (write_range _ _ Hw) as Hrange. set (data := Write.Data w) in *. set (off := Write.Offset w) in *.
  assert (Hd : 0 < len data) by (destruct data; [done|]; rewrite len_cons; pose proof (len_nonneg data); lia).
  unfold handleWrite. rewrite Hw, Ho, Hro, Hp, Hs. cbv zeta. cbn [negb andb]. fold data off.
  replace ((maxStreamSize <? off) || (maxStreamSize <? len data) || (maxStreamSize <? off + len data)) with (maxStreamSize <? off + len data).
  2: { destruct (Z.ltb_spec maxStreamSize (off + len data)), (Z.ltb_spec maxStreamSize off), (Z.ltb_spec maxStreamSize (len data)); cbn; lia. }
  destruct (Z.ltb_spec maxStreamSize (off + len data)) as [|Hmax]; [by cbn|]. cbn [run respondSuccess mret prog_ret]. split; [done|]. split; [done|].
  set (o' := set_streamBuf o (stream_write (streamBuf o) off data) true). assert (Ho' := get_put s _ id o o' Ho). pose proof (len_stream_write (streamBuf o) off data ltac:(lia)) as Hl.
  split; [|exists o'; split; [done|]; split; [done|]; split; [done|]; intros i; apply lookup_stream_write; lia].
  unfold handleRead. rewrite Hr, Hf, Ho'. change (IsPipe o') with (IsPipe o). change (IsStream o') with (IsStream o). rewrite Hp, Hs, Hoff, Hlen. cbv zeta.
  change (streamBuf o') with (stream_write (streamBuf o) off data). rewrite (proj2 (Z.leb_gt _ _)) by lia. rewrite !(proj2 (Z.ltb_ge _ _)) by lia. cbn [orb run respondSuccess mret prog_ret].
  replace (get (stream_write (streamBuf o) off data) off (off + len data - off)) with data; [done|]. replace (off + len data - off) with (len data) by lia.
  symmetry. unfold stream_write. cbv zeta. destruct (Z.ltb_spec (len (streamBuf o)) (off + len data)).
  - assert (len (zeros (off + len data)) = off + len data) by (apply len_zeros; lia). pose proof (len_nonneg (streamBuf o)). apply get_splice_eq; [lia|rewrite len_splice; lia|done].
  - apply get_splice_eq; [lia|lia|done].
Qed.

Definition streams_bounded (s : state) : Prop := forall id o, heap s !! id = Some o -> len (streamBuf o) <= maxStreamSize.

Lemma put_bounded s id o : streams_bounded s -> len (streamBuf o) <= maxStreamSize -> streams_bounded (put s id o).
Proof. clear. intros Hs Ho id' o'. unfold put. cbn [heap]. intros [[<- <-]|[_ H]]%lookup_insert_Some; [done|by apply (Hs id')]. Qed.

Lemma get_heap s fid id o : GetOpen s fid = Some (id, o) -> heap s !! id = Some o.
Proof. clear. unfold GetOpen. destruct (Session.GetOpen (sess s) fid) as [so|]; [|done]. cbn. destruct (heap s !! Session.open_id so) eqn:Hh; [|done]. cbn. by intros [= <- <-]. Qed.

(** No request grows a stream's buffer past 64 MiB: whatever READ, WRITE,
    FLUSH, SET_INFO or CLOSE asks and whatever the kernel answers, buffers that
    were within the bound still are. *)
Theorem stream_memory_bounded (s : state) (t : Teardown.tables) node keyOf (reqHdr : Header.Header) (body : bytes) : streams_bounded s ->
  let any (_ : call) := True in let still := fun '(s', _) => streams_bounded s' in
  wp any (handleRead reqHdr s body) still /\ wp any (handleWrite s body) still /\ wp any (handleFlush s body) still /\
  wp any (handleSetInfo s body) still /\ wp any (handleClose node keyOf s t body) (fun '(s', _, _) => streams_bounded s').
Proof.
  intros Hb any still.
  assert (Hput : forall fid id o o', GetOpen s fid = Some (id, o) -> streamBuf o' = streamBuf o -> streams_bounded (put s id o')).
  { intros fid id o o' Hg He. apply put_bounded; [done|]. rewrite He. by apply (Hb id), (get_heap s fid). }
  split; [|split; [|split; [|split]]].
  - unfold handleRead, ReadAt. wps; try done. by eapply Hput.
  - unfold handleWrite, WriteAt. wps; try done; [by eapply Hput|]. apply put_bounded; [done|]. cbn [streamBuf set_streamBuf].
    match goal with H : Write.DecodeWriteRequest body = Ok ?r |- _ => pose proof (write_range _ _ H); rewrite len_stream_write by lia end.
    match goal with H : (_ || _ || _) = false |- _ => apply orb_false_iff in H as [[H1%Z.ltb_ge H2%Z.ltb_ge]%orb_false_iff H3%Z.ltb_ge] end.
    match goal with H : GetOpen s _ = Some _ |- _ => apply get_heap, Hb in H end. lia.
  - unfold handleFlush. by wps.
  - unfold handleSetInfo, truncateOpen. wps; try done.
    + unfold set_stream. wps; try done; [|by eapply Hput]. apply put_bounded; [done|]. cbn [streamBuf set_streamBuf].
      match goal with H : GetOpen s _ = Some _ |- _ => apply get_heap, Hb in H as Hlen end.
      match goal with H : (maxStreamSize <? _) = false |- _ => apply Z.ltb_ge in H end. unfold stream_resize.
      destruct (Z.leb_spec (le_combine (get (SetInfo.Buffer a) 0 8)) 0); [rewrite len_nil; unfold maxStreamSize; lia|].
      destruct (Z.leb_spec (le_combine (get (SetInfo.Buffer a) 0 8)) (len (streamBuf o))).
      * rewrite len_get; lia.
      * rewrite len_splice; rewrite ?len_zeros by lia; lia.
    + by eapply Hput.
    + apply wp_set_rename; try done. intros p' a'. by eapply Hput.
    + apply wp_setEAs; try done. intros r. destruct r; by apply wp_ret.
    + unfold set_basic, setTimesOnOpen. by wps.
  - apply wp_handleClose; [done| |done]. intros req id o _ Ho. split; [done|]. intros _. destruct (IsStream o); [|by apply wp_close_file].
    unfold close_stream, removeStreamXattr, writeStreamXattr. by wps.
Qed.

(** CLOSE of a stream the client only read writes back the bytes it was opened
    with, over whatever was stored since, and on a read-only share. *)
Lemma unwritten_stream_written_back o flags (kernel : forall c, result c) fd :
  DeleteOnClose o = false -> streamSynthetic o = false -> streamWritten o = false -> kernel (OpenNoFollow (Path o)) = inl fd ->
  Fsetxattr fd (streamXattrName (StreamName o)) (streamBuf o) ∈ (run kernel (close_stream o flags)).1.
Proof.
  clear. intros Hd Hs _ Hk. unfold close_stream. rewrite Hd, Hs. cbn [andb]. rewrite run_bind. unfold writeStreamXattr.
  rewrite (run_sys kernel (OpenNoFollow (Path o))), Hk. match goal with |- context [let '(cs, b) := ?r in (_ :: cs, b)] => set (rest := r) end.
  assert (Hr : exists a, rest = ([Fsetxattr fd (streamXattrName (StreamName o)) (streamBuf o); CloseFd fd], a)) by (eexists; reflexivity). destruct Hr as [a ->].
  cbn. match goal with |- context [run kernel ?p] => destruct (run kernel p) as [cs' b] end. cbn. right. left.
Qed.
End Handlers.

(** ** Examples: handle 7, a file, a stream or a deleted file of one session *)

Definition ex_fid : bytes := replicate 16 Byte.x07.
Definition ex_session : Session.Session := Session.mkSession {[2]} {[ex_fid := Session.mkOpen 7 ex_fid (Some 2)]} false 3.
Definition ex_share (ro : bool) : Config.ShareConfig := Config.mkShare (Config.lit "data") (Config.lit "/srv/data") ro false.
Definition ex_file (ro del : bool) : Open :=
  mkOpen (Config.lit "/srv/data/f") false false [] (Some 5) (Some (ex_share ro)) del [] false [] [] false false [] 0x1F01FF false [] [].
Definition ex_stream : Open :=
  mkOpen (Config.lit "/srv/data/f") false false [] None (Some (ex_share false)) false [] true (Config.lit "tag") [Byte.x01] false false [] 0x1F01FF false [] [].
Definition ex_state (o : Open) : state := mkState ex_session {[7 := o]}.

(** A kernel with two bytes in the file, and everything succeeding. *)
Definition ex_kernel (c : call) : result c :=
  match c with
  | Fstat _ => Some (true, 2) | Pread _ _ n => (get [Byte.x61; Byte.x62] 0 (Z.min 2 (Z.max n 0)), None) | Pwrite _ _ data => (len data, None)
  | Fsync _ => None | Ftruncate _ _ => None | Truncate _ _ => None | Rename _ _ => None | Remove _ => None | UtimesNanoAt _ _ _ => None
  | CloseFd _ => tt | Lstat _ => inr ENOENT | Statx _ => None | Now => 0 | GetxattrSize _ _ => inl 0 | ListxattrSize _ => inl 0
  | Getxattr _ _ _ => inl [] | Listxattr _ _ => inl [] | Setxattr _ _ _ => None | Fsetxattr _ _ _ => None | Removexattr _ _ => None
  | OpenNoFollow _ => inl 9 | Random n => None
  | OpenRW _ => inl 5 | OpenCreate _ _ => inl 4 | Mkdir _ => None | FileStat _ => inr EIO | Faccessat _ _ => None | KeyForFd _ => Some (1, 1) | KeyForPath _ => Some (1, 1)
  | OpenProbe _ => inl 6 | Readdirnames _ _ => inl [] | ReadDir _ => inl [] | Statfs _ => None
  end.

Lemma ex_kernel_legal c : legal c (ex_kernel c).
Proof.
  destruct c; cbn [legal ex_kernel]; try done.
  - cbn [fst]. destruct (Z.le_gt_cases n 0); [rewrite (Z.max_r n), (Z.max_l 0) by lia; done|]. rewrite len_get; change (len [_; _]) with 2; lia.
  - cbn [fst snd]. pose proof (len_nonneg data). split; [lia|done].
  - rewrite len_nil. lia.
  - rewrite len_nil. lia.
Qed.

(** READ of 10 bytes at 0, WRITE of "hi" at 3, CLOSE with the attributes asked,
    all of handle [ex_fid]. *)
Definition ex_read : bytes := writes (zeros 48) [(0, le16 49); (4, le32 2); (8, le64 3); (16, ex_fid)].
Definition ex_read_start : bytes := writes (zeros 48) [(0, le16 49); (4, le32 10); (16, ex_fid)].
Definition ex_write : bytes := writes (zeros 50) [(0, le16 49); (2, le16 112); (4, le32 2); (8, le64 3); (16, ex_fid); (48, [Byte.x68; Byte.x69])].
Definition ex_close : bytes := writes (zeros 24) [(0, le16 24); (2, le16 1); (8, ex_fid)].
Definition no_locks (_ _ _ : Z) (_ : bool) : bool := false.
Definition ex_hdr : Header.Header := Header.mkHeader 1 0 8 1 0 0 3 2 9 (zeros 16).

Definition write_req : Write.WriteRequest := Write.Build_WriteRequest 2 3 ex_fid 0 [Byte.x68; Byte.x69].
Definition read_req : Read.ReadRequest := Read.Build_ReadRequest 2 3 ex_fid 0.
Definition read_start_req : Read.ReadRequest := Read.Build_ReadRequest 10 0 ex_fid 0.

Lemma read_frame_equivalence_witness :
  sendReadResponseFrame ex_hdr (splice 84 [Byte.x61] (newReadResponseFrame 4)) 1 = zeros 4 ++ Chain.buildResponse ex_hdr StatusSuccess (Read.EncodeReadResponse [Byte.x61]).
Proof. apply (read_frame_equivalence ex_hdr 4 [Byte.x61]). vm_compute. discriminate. Defined.

Lemma read_file_spec_witness : exists calls,
  run ex_kernel (handleRead 0 no_locks ex_hdr (ex_state (ex_file false false)) ex_read_start) =
    (calls, (ex_state (ex_file false false), Frame (zeros 4 ++ Chain.buildResponse ex_hdr StatusSuccess (Read.EncodeReadResponse [Byte.x61; Byte.x62])))).
Proof.
  pose proof (read_file_spec 0 no_locks (ex_state (ex_file false false)) ex_hdr ex_read_start read_start_req 7 (ex_file false false) 5 ex_kernel ex_kernel_legal) as H.
  assert (Hr : exists calls buf, run ex_kernel (handleRead 0 no_locks ex_hdr (ex_state (ex_file false false)) ex_read_start) = (calls, (ex_state (ex_file false false), Frame buf)) /\
    calls = [Fstat 5; Pread 5 0 2]) by (eexists _, _; split; vm_compute; reflexivity).
  destruct Hr as (calls & buf & Hr & Hc). rewrite Hr in H |- *. exists calls.
  destruct H as (_ & _ & _ & _ & n & data & e & Hin & Hk & _ & _ & ->); [vm_compute; reflexivity|vm_compute; repeat split|].
  rewrite Hc in Hin. apply elem_of_cons in Hin as [Hin|Hin]; [discriminate|]. apply list_elem_of_singleton in Hin. injection Hin as ->. injection Hk as <- _. reflexivity.
Defined.

Lemma write_file_spec_witness :
  (run ex_kernel (handleWrite 0 [] no_locks (ex_state (ex_file false false)) ex_write)).1 = [Pwrite 5 3 [Byte.x68; Byte.x69]].
Proof.
  pose proof (write_file_spec 0 [] no_locks (ex_state (ex_file false false)) ex_write write_req 7 (ex_file false false) 5 ex_kernel ex_kernel_legal) as H.
  assert (Hr : exists calls, run ex_kernel (handleWrite 0 [] no_locks (ex_state (ex_file false false)) ex_write) =
    (calls, (ex_state (ex_file false false), Reply StatusSuccess (Write.EncodeWriteResponse 2)))) by (eexists; vm_compute; reflexivity).
  destruct Hr as [calls Hr]. rewrite Hr in H |- *. cbn [fst].
  destruct H as (_ & _ & _ & st & b & Ha & Hs & _ & _); [vm_compute; reflexivity|vm_compute; repeat split|].
  injection Ha as <- <-. destruct (Hs eq_refl) as (_ & _ & _ & _ & Hd). by destruct (Hd ltac:(discriminate)).
Defined.

Lemma stream_write_read_witness : exists s1,
  run ex_kernel (handleWrite 0 [] no_locks (ex_state ex_stream) ex_write) = ([], (s1, Reply StatusSuccess (Write.EncodeWriteResponse 2))) /\
  run ex_kernel (handleRead 0 no_locks ex_hdr s1 ex_read) = ([], (s1, Reply StatusSuccess (Read.EncodeReadResponse [Byte.x68; Byte.x69]))).
Proof.
  pose proof (stream_write_read 0 [] no_locks (ex_state ex_stream) ex_hdr ex_write ex_read write_req read_req 7 ex_stream ex_kernel
    ltac:(vm_compute; reflexivity) ltac:(vm_compute; reflexivity) eq_refl eq_refl eq_refl ltac:(discriminate) ltac:(vm_compute; reflexivity) eq_refl eq_refl eq_refl) as H.
  destruct (run ex_kernel (handleWrite 0 [] no_locks (ex_state ex_stream) ex_write)) as [calls [s1 a]].
  change (maxStreamSize <? Write.Offset write_req + len (Write.Data write_req)) with false in H. destruct H as (-> & -> & Hr & _). by exists s1.
Defined.

Lemma stream_memory_bounded_witness : wp (fun _ => True) (handleWrite 0 [] no_locks (ex_state ex_stream) ex_write) (fun '(s', _) => streams_bounded s').
Proof.
  apply (stream_memory_bounded 0 [] no_locks (fun _ => Vfs.LNotExist) (fun _ => Vfs.ENotExist) (fun _ => None) id id id (fun _ => (true, true)) id
    (ex_state ex_stream) Teardown.ex_tables Teardown.ex_node Teardown.ex_keyOf ex_hdr ex_write).
  intros i o. cbn [heap ex_state]. intros [_ <-]%lookup_singleton_Some. vm_compute. discriminate.
Defined.


Lemma close_spec_witness : exists calls s' t',
  run ex_kernel (handleClose Teardown.ex_node Teardown.ex_keyOf (ex_state (ex_file false true)) Teardown.ex_tables ex_close) =
    (calls, (s', t', Reply StatusSuccess (Close.EncodeCloseResponse noAttribs))) /\
  ~ Teardown.held Teardown.ex_node Teardown.ex_keyOf t' 7 /\ CloseFd 5 ∈ calls /\ Remove (Config.lit "/srv/data/f") ∈ calls.
Proof.
  pose proof (close_spec (ex_state (ex_file false true)) Teardown.ex_tables Teardown.ex_node Teardown.ex_keyOf ex_close (Close.Build_CloseRequest 1 ex_fid) 7 (ex_file false true) ex_kernel
    ltac:(vm_compute; reflexivity) ltac:(vm_compute; reflexivity) Teardown.ex_tables_ok) as H.
  destruct (run ex_kernel (handleClose Teardown.ex_node Teardown.ex_keyOf (ex_state (ex_file false true)) Teardown.ex_tables ex_close)) as [calls [[s' t'] a]] eqn:Hr.
  assert (Ha : a = Reply StatusSuccess (Close.EncodeCloseResponse noAttribs)).
  { change a with (calls, (s', t', a)).2.2. rewrite <- Hr. vm_compute. reflexivity. }
  destruct H as (_ & _ & _ & Hheld & _ & Hfd & st & b & He & Hs). exists calls, s', t'. rewrite Ha. split; [done|]. split; [done|]. split; [by apply Hfd|].
  rewrite Ha in He. injection He as <- _. destruct (Hs eq_refl eq_refl) as [Hf _]. by destruct (Hf eq_refl eq_refl) as (_ & Hin & _).
Defined.
End Io.
