(* ===== verification/CreateFile.v ===== *)
(** CREATE: [handleCreate] of [internal/parent/dispatch.go] and
    [handleCreateNamedStream] of [stream.go].

    The handler decides over the file's state, the share, the disposition and the
    options; it asks the kernel step by step, reserves a share mode, and only then
    publishes the handle.  What other requests do to the session while it runs is
    [interfere], and while it waits for a share mode the script of
    [ShareMode.acquireShareMode]. *)

From S2P Require Import Prelude Smb2 Utf Requests LockRanges Access ShareMode Sessions CreateCtx Durable Vfs Norm Dispatch Config Kernel Streams Aapl Io.
Import Access Kernel Streams.

Module CreateFile.

Definition maxOpensPerSession : Z := 4096.

Definition CreateActionSuperseded : Z := 0.
Definition CreateActionOpened : Z := 1.
Definition CreateActionCreated : Z := 2.
Definition CreateActionOverwritten : Z := 3.
Definition CreateOptDirectoryFile : Z := 0x00000001.
Definition CreateOptNonDirFile : Z := 0x00000040.
Definition CreateOptDeleteOnClose : Z := 0x00001000.

Definition union (l : list Z) : Z := fold_left Z.lor l 0.
(** The bits a read-only share refuses: writing, FILE_WRITE_ATTRIBUTES, DELETE. *)
Definition writeMask : Z := union [AccessFileWriteData; AccessFileAppendData; AccessGenericWrite; AccessGenericAll; 0x00000100; 0x00010000].

Definition TrimPrefix (s prefix : bytes) : bytes := if Config.HasPrefix s prefix then drop (length prefix) s else s.

Definition statusFromResolveErr (e : Vfs.vfsErr) : Z :=
  match e with Vfs.ErrDanglingLink => StatusObjectPathNotFound | _ => StatusAccessDenied end.

(** The session, the share modes and the count of parked CREATEs, the durable
    table, READ_DIR_ATTR, and the FileId of the chain's last CREATE. *)
Record world := mkWorld {
  st : Io.state; modes : ShareMode.shareModeTable; waits : Z; durables : Durable.DurableTable; latch : bool; last : option bytes }.

Definition refuse (w : world) (status : Z) : prog (world * Io.answer) := mret (w, Io.Reply status Dispatch.errBody).

Ltac wp_unfold ::= match goal with |- wp _ (refuse _ _) _ => apply wp_ret end.

Section Create.
Context (lstat : bytes -> Vfs.lstatAnswer) (EvalSymlinks : bytes -> Vfs.evalAnswer) (ReadDir : bytes -> option (list bytes)).
Context (NFC NFD : bytes -> bytes) (SimpleFold : Z -> Z) (shareCaseProbe : bytes -> bool * bool) (fold : Z -> Z) (ToLower : bytes -> bytes).
(** The file each reserved handle's descriptor is on; what other connections do
    while a CREATE waits; what other requests did to the session meanwhile. *)
Context (live : Z -> option fileKey) (script : list (list ShareMode.action)) (interfere : Session.Session -> Session.Session).
(** The cap on durable timeouts, the client's identifier, the user's name, and
    the outcome of a durable reconnect. *)
Context (durableCap : option Z) (clientGuid user : bytes) (reconnect : world -> option (world * Io.answer)).

Definition resolve (sh : Config.ShareConfig) (name : bytes) : bytes + Vfs.vfsErr :=
  Io.resolve lstat EvalSymlinks ReadDir NFC NFD SimpleFold (Config.sPath sh) name (Io.shareFoldsCase shareCaseProbe (Some sh)).

Definition caseSensitive (sh : Config.ShareConfig) : bool := Aapl.shareCaseSensitive (shareCaseProbe (Vfs.Clean (Config.sPath sh))) (Some sh).

(** The handle goes into the session under its FileId and onto the heap. *)
Definition publish (w : world) (id : Z) (fid : bytes) (treeID : Z) (to_tree : bool) (o : Io.Open) : world * bool :=
  let so := Session.mkOpen id fid (Some treeID) in
  let s := interfere (Io.sess (st w)) in
  let '(s, ok) := if to_tree then Session.AddOpenToTree s so treeID else Session.AddOpen s so in
  if ok then (mkWorld (Io.mkState s (<[id := o]> (Io.heap (st w)))) (modes w) (waits w) (durables w) (latch w) (Some fid), true)
  else (mkWorld (Io.mkState s (Io.heap (st w))) (modes w) (waits w) (durables w) (latch w) (last w), false).

Definition with_latch (w : world) (l : bool) : world := mkWorld (st w) (modes w) (waits w) (durables w) l (last w).
Definition with_modes (w : world) (m : ShareMode.shareModeTable) (n : Z) : world := mkWorld (st w) m n (durables w) (latch w) (last w).

(** ** Pipes and named streams *)

Definition pipeName (name : bytes) : bytes :=
  ToLower (TrimPrefix (TrimPrefix (TrimPrefix name [Vfs.backslash]) (Config.lit "PIPE" ++ [Vfs.backslash])) (Config.lit "pipe" ++ [Vfs.backslash])).

Definition create_pipe (w : world) (id treeID : Z) (sh : Config.ShareConfig) (name : bytes) : prog (world * Io.answer) :=
  if negb (bool_decide (pipeName name = Config.lit "srvsvc")) then refuse w StatusObjectNameNotFound else
  fid ← sys (Random 16);
  match fid with
  | None => refuse w StatusInternalError
  | Some fid =>
      let o := Io.mkOpen [] false true (Config.lit "srvsvc") None (Some sh) false [] false [] [] false false [] 0 false [] [] in
      match publish w id fid treeID false o with
      | (w, false) => refuse w StatusUserSessionDeleted
      | (w, true) =>
          now ← sys Now;
          let now := filetimeFromTime now in
          mret (w, Io.Reply StatusSuccess (Create.EncodeCreateResponse (Create.mkCreateResponse 0 0 CreateActionOpened now now now now 0 0 Io.FileAttrNormal fid [])))
      end
  end.

(** The action reported, or the status that refuses it. *)
Definition stream_disposition (disposition : Z) (exists_ : bool) : Z + Z :=
  let action := if truncatingDisposition disposition && exists_ then CreateActionOverwritten else CreateActionOpened in
  if (disposition =? CreateDispositionOpen) || (disposition =? CreateDispositionOverwrite) then
    if negb exists_ then inr StatusObjectNameNotFound else inl action
  else if disposition =? CreateDispositionCreate then
    if exists_ then inr StatusObjectNameCollision else inl CreateActionCreated
  else if (disposition =? CreateDispositionOpenIf) || (disposition =? CreateDispositionOverwriteIf) || (disposition =? CreateDispositionSupersede) then
    inl (if exists_ then action else CreateActionCreated)
  else inr StatusInvalidParameter.

(** What the buffer starts as: whether it counts as written, and is made up. *)
Definition stream_buffer (disposition : Z) (streamName : bytes) (stored : option bytes + xattrErr) : bytes * bool * bool :=
  let buf := match stored with inl b => default [] b | inr _ => [] end in
  let truncates := truncatingDisposition disposition in
  let buf := if truncates then [] else buf in
  if isAFPInfoStream fold streamName && (len buf <? afpInfoSize) then (synthAFPInfo, truncates, true) else (buf, truncates, false).

Definition handleCreateNamedStream (w : world) (id treeID : Z) (sh : Config.ShareConfig) (req : Create.CreateRequest) (baseName streamName : bytes)
    : prog (world * Io.answer) :=
  let disposition := Create.CreateDisposition req in
  if Config.ReadOnly sh && (negb (disposition =? CreateDispositionOpen) || negb (Z.land (Create.DesiredAccess req) writeMask =? 0)) then refuse w StatusAccessDenied else
  match resolve sh baseName with
  | inr _ => refuse w StatusAccessDenied
  | inl osPath =>
      base ← sys (Lstat osPath);
      match base with
      | inr _ => refuse w StatusObjectNameNotFound
      | inl _ =>
          there ← streamExists osPath streamName;
          match there with
          | (_, Some (XErr e)) => refuse w (statusFromErr (Some (to_errno e)))
          | (there, unsupported) =>
              let exists_ := match unsupported with Some _ => true | None => there end in
              let exists_ := if isAFPInfoStream fold streamName then true else exists_ in
              match stream_disposition disposition exists_ with
              | inr status => refuse w status
              | inl action =>
                  let maxAccess := if Config.ReadOnly sh then 0x001200A9 else 0x001F01FF in
                  stored ← readStreamXattr osPath streamName;
                  let '(buf, written, synthetic) := stream_buffer disposition streamName stored in
                  let o := Io.mkOpen osPath false false [] None (Some sh) false [] true streamName buf written synthetic [] maxAccess false [] [] in
                  fid ← sys (Random 16);
                  match fid with
                  | None => refuse w StatusInternalError
                  | Some fid =>
                      match publish w id fid treeID false o with
                      | (w, false) => refuse w StatusUserSessionDeleted
                      | (w, true) =>
                          now ← sys Now;
                          let now := filetimeFromTime now in
                          match Aapl.buildCreateResponseContexts (Create.ReqCreateContexts req) (caseSensitive sh) (latch w) maxAccess 0 0 with
                          | Ok (ctxs, l) =>
                              mret (with_latch w l, Io.Reply StatusSuccess (Create.EncodeCreateResponse
                                (Create.mkCreateResponse 0 0 action now now now now (len buf) (len buf) Io.FileAttrNormal fid ctxs)))
                          | _ => mret (w, Io.Crash)
                          end
                      end
                  end
              end
          end
      end
  end.

(** ** Files and directories *)

(** What a read-only share refuses before anything is looked at. *)
Definition readonly_refuses (req : Create.CreateRequest) : bool :=
  negb (Create.CreateDisposition req =? CreateDispositionOpen) || negb (Z.land (Create.DesiredAccess req) writeMask =? 0) ||
  negb (Z.land (Create.CreateOptions req) CreateOptDeleteOnClose =? 0).

(** A name that is to be created: the directory, or an empty file. *)
Definition create_new (osPath : bytes) (dir excl : bool) : prog (option errno) :=
  if dir then sys (Mkdir osPath) else
  f ← sys (OpenCreate osPath excl);
  match f with
  | inl fd => _ ← sys (CloseFd fd); mret None
  | inr e => mret (Some e)
  end.

Definition restat (osPath : bytes) : prog (option fileInfo) :=
  i ← sys (Lstat osPath); mret (match i with inl i => Some i | inr _ => None end).

Definition truncating_action (disposition : Z) : Z := if disposition =? CreateDispositionSupersede then CreateActionSuperseded else CreateActionOverwritten.

(** The disposition carried out on a name that is there or not: the status that
    refuses it, or the action, whether the object is a directory, and its state. *)
Definition apply_disposition (disposition : Z) (osPath : bytes) (info : option fileInfo) (isDir wantedDir : bool) : prog (Z * bool * option fileInfo + Z) :=
  let exists_ := match info with Some _ => true | None => false end in
  let created e isDir := match e with
    | Some e => mret (inr (statusFromErr (Some e)))
    | None => i ← restat osPath; mret (inl (CreateActionCreated, isDir, i))
    end in
  if disposition =? CreateDispositionOpen then
    mret (if exists_ then inl (CreateActionOpened, isDir, info) else inr StatusObjectNameNotFound)
  else if disposition =? CreateDispositionCreate then
    if exists_ then mret (inr StatusObjectNameCollision) else
    e ← create_new osPath wantedDir true; created e (isDir || wantedDir)
  else if disposition =? CreateDispositionOpenIf then
    if exists_ then mret (inl (CreateActionOpened, isDir, info)) else
    e ← create_new osPath wantedDir false; created e (isDir || wantedDir)
  else if disposition =? CreateDispositionOverwrite then
    if negb exists_ then mret (inr StatusObjectNameNotFound) else
    e ← (if isDir then mret None else sys (Truncate osPath 0));
    match e with
    | Some e => mret (inr (statusFromErr (Some e)))
    | None => i ← restat osPath; mret (inl (CreateActionOverwritten, isDir, i))
    end
  else if (disposition =? CreateDispositionOverwriteIf) || (disposition =? CreateDispositionSupersede) then
    if exists_ && negb isDir then
      e ← sys (Truncate osPath 0);
      match e with
      | Some e => mret (inr (statusFromErr (Some e)))
      | None => i ← restat osPath; mret (inl (truncating_action disposition, isDir, i))
      end
    else if negb exists_ then e ← create_new osPath false false; created e isDir
    else i ← restat osPath; mret (inl (CreateActionOpened, isDir, i))
  else mret (inr StatusInvalidParameter).

(** The checks between the options and the object's type. *)
Definition type_check (req : Create.CreateRequest) (exists_ isDir : bool) : option Z :=
  let wantedDir := negb (Z.land (Create.CreateOptions req) CreateOptDirectoryFile =? 0) in
  let wantedNonDir := negb (Z.land (Create.CreateOptions req) CreateOptNonDirFile =? 0) in
  if wantedDir && wantedNonDir then Some StatusInvalidParameter else
  if wantedDir && truncatingDisposition (Create.CreateDisposition req) then Some StatusInvalidParameter else
  if exists_ && negb (Create.CreateDisposition req =? CreateDispositionCreate) then
    if wantedDir && negb isDir then Some StatusNotADirectory else
    if wantedNonDir && isDir then Some StatusFileIsADirectory else None
  else None.

(** An open that would truncate is held against the share modes before it does. *)
Definition truncation_allowed (w : world) (req : Create.CreateRequest) (osPath : bytes) (exists_ isDir : bool) : prog bool :=
  if truncatingDisposition (Create.CreateDisposition req) && exists_ && negb isDir then
    key ← sys (KeyForPath osPath);
    mret (match key with
          | Some key => ShareMode.checkLocked live (modes w) key (Create.DesiredAccess req) (Create.ShareAccess req)
          | None => true
          end)
  else mret true.

Definition maximalAccess (osPath : bytes) (readOnly : bool) : prog Z :=
  let probe_w := negb (Z.land (shareAccessCeiling readOnly) accessWriteBits =? 0) in
  w ← (if probe_w then sys (Faccessat osPath W_OK) else mret None : prog (option errno));
  r ← sys (Faccessat osPath R_OK);
  x ← sys (Faccessat osPath X_OK);
  mret (Access.maximalAccess (fun m => match m with R_OK => r | W_OK => w | X_OK => x end) readOnly).

(** Both ways, or for reading where nothing more was asked. *)
Definition open_leaf (osPath : bytes) (wantsWrite : bool) : prog (Z + errno) :=
  f ← sys (OpenRW osPath);
  match f with
  | inl fd => mret (inl fd)
  | inr ELOOP => mret (inr ELOOP)
  | inr e => if wantsWrite then mret (inr e) else sys (OpenNoFollow osPath)
  end.

Definition close_opt (f : option Z) : prog unit := match f with Some fd => sys (CloseFd fd) | None => mret tt end.

(** The descriptors of the handles the durable table lets go. *)
Fixpoint close_released (h : gmap Z Io.Open) (os : list Z) : prog unit :=
  match os with
  | [] => mret tt
  | o :: os => _ ← close_opt (h !! o ≫= Io.File); close_released h os
  end.

(** The response of a handle that is published. *)
Definition respond_file (w : world) (id : Z) (sh : Config.ShareConfig) (req : Create.CreateRequest) (dq : Create.durableRequest) (lr : Create.leaseRequest)
    (action : Z) (isDir : bool) (info : option fileInfo) (granted : Z) (fid : bytes) (o : Io.Open) : prog (world * Io.answer) :=
  let size := if isDir then 0 else match info with Some i => Size i | None => 0 end in
  now ← sys Now;
  let mtime := filetimeFromTime (match info with Some i => ModTime i | None => now end) in
  bt ← birthTime (Io.Path o);
  let ctime := match bt with Some bt => filetimeFromTime bt | None => mtime end in
  fi ← (match Io.File o with Some fd => i ← sys (FileStat fd); mret (match i with inl i => Some i | inr _ => info end) | None => mret info end);
  let '(diskFileID, volumeID) := match fi with Some i => (Ino i, Dev i) | None => (0, 0) end in
  match Aapl.buildCreateResponseContexts (Create.ReqCreateContexts req) (caseSensitive sh) (latch w) granted diskFileID volumeID with
  | Ok (base, l) =>
      match Durable.applyDurableAndLease (durables w) durableCap clientGuid id fid dq lr base (Config.sName sh) user with
      | Ok (d, rel, durable, ctxs) =>
          _ ← close_released (Io.heap (st w)) rel;
          let o := Io.mkOpen (Io.Path o) (Io.IsDir o) false [] (Io.File o) (Io.Share o) (Io.DeleteOnClose o) (Io.LinkPath o) false [] [] false false [] granted durable
            (if durable then clientGuid else []) (if durable then (if Create.dq_v2 dq then Create.dq_guid dq else fid) else []) in
          mret (mkWorld (Io.put (st w) id o) (Durable.release_all (modes w) rel) (waits w) d l (last w),
                Io.Reply StatusSuccess (Create.EncodeCreateResponse
                  (Create.mkCreateResponse 0 0 action ctime mtime mtime mtime size size (if isDir then Io.FileAttrDirectory else Io.FileAttrNormal) fid ctxs)))
      | _ => mret (w, Io.Crash)
      end
  | _ => mret (w, Io.Crash)
  end.

(** The descriptor is open and the FileId drawn: the share mode, the session,
    the answer.  A handle that cannot be published gives everything back. *)
Definition reserve_and_publish (w : world) (id treeID : Z) (sh : Config.ShareConfig) (req : Create.CreateRequest) (dq : Create.durableRequest) (lr : Create.leaseRequest)
    (action : Z) (isDir : bool) (info : option fileInfo) (granted : Z) (fid : bytes) (o : Io.Open) : prog (world * Io.answer) :=
  r ← (match Io.File o with
       | Some fd =>
           if ShareMode.shareModeApplies isDir false false true then
             key ← sys (KeyForFd fd);
             match key with
             | None => mret (w, true)
             | Some key =>
                 let '(ok, m, n, _) := ShareMode.acquireShareMode live key id (Create.DesiredAccess req) (Create.ShareAccess req) (modes w) (waits w) script in
                 mret (with_modes w m n, ok)
             end
           else mret (w, true)
       | None => mret (w, true)
       end : prog (world * bool));
  match r with
  | (w, false) => _ ← close_opt (Io.File o); refuse w StatusSharingViolation
  | (w, true) =>
      match publish w id fid treeID true o with
      | (w, false) =>
          _ ← close_opt (Io.File o);
          refuse (with_modes w (ShareMode.release (modes w) id) (waits w)) StatusUserSessionDeleted
      | (w, true) => respond_file w id sh req dq lr action isDir info granted fid o
      end
  end.

(** From the object found to the answer. *)
Definition create_object (w : world) (id treeID : Z) (sh : Config.ShareConfig) (req : Create.CreateRequest) (dq : Create.durableRequest) (lr : Create.leaseRequest)
    (osPath linkPath : bytes) (info : option fileInfo) : prog (world * Io.answer) :=
  let wantedDir := negb (Z.land (Create.CreateOptions req) CreateOptDirectoryFile =? 0) in
  let wantsWrite := negb (Z.land (Create.DesiredAccess req) (union [AccessFileWriteData; AccessFileAppendData; AccessGenericAll; AccessGenericWrite]) =? 0) in
  let exists_ := match info with Some _ => true | None => false end in
  let isDir := match info with Some i => IsDir i | None => false end in
  match type_check req exists_ isDir with
  | Some status => refuse w status
  | None =>
      allowed ← truncation_allowed w req osPath exists_ isDir;
      if negb allowed then refuse w StatusSharingViolation else
      r ← apply_disposition (Create.CreateDisposition req) osPath info isDir wantedDir;
      match r with
      | inr status => refuse w status
      | inl (action, isDir, info) =>
          granted ← maximalAccess osPath (Config.ReadOnly sh);
          f ← (if isDir then mret (inl None) else r ← open_leaf osPath wantsWrite; mret (match r with inl fd => inl (Some fd) | inr e => inr e end) : prog (option Z + errno));
          match f with
          | inr e => refuse w (statusFromErr (Some e))
          | inl f =>
              let o := Io.mkOpen osPath isDir false [] f (Some sh) (negb (Z.land (Create.CreateOptions req) CreateOptDeleteOnClose =? 0)) linkPath false [] [] false false []
                granted false [] [] in
              fid ← sys (Random 16);
              match fid with
              | None => _ ← close_opt f; refuse w StatusInternalError
              | Some fid => reserve_and_publish w id treeID sh req dq lr action isDir info granted fid o
              end
          end
      end
  end.

(** A name of a disk share without a stream: what is there, through a link of
    the share that leads to a file of it. *)
Definition create_name (w : world) (id treeID : Z) (sh : Config.ShareConfig) (req : Create.CreateRequest) (dq : Create.durableRequest) (lr : Create.leaseRequest)
    (baseName : bytes) : prog (world * Io.answer) :=
  match resolve sh baseName with
  | inr e => refuse w (statusFromResolveErr e)
  | inl osPath =>
      if Config.ReadOnly sh && readonly_refuses req then refuse w StatusAccessDenied else
      found ← sys (Lstat osPath);
      match found with
      | inr ENOENT => create_object w id treeID sh req dq lr osPath [] None
      | inr e => refuse w (statusFromErr (Some e))
      | inl i =>
          if negb (IsSymlink i) then create_object w id treeID sh req dq lr osPath [] (Some i) else
          match Vfs.ResolveLink EvalSymlinks (Config.sPath sh) osPath with
          | inr e => refuse w (statusFromResolveErr e)
          | inl target =>
              t ← sys (Lstat target);
              match t with
              | inr e => refuse w (statusFromErr (Some e))
              | inl t => create_object w id treeID sh req dq lr target osPath (Some t)
              end
          end
      end
  end.

(** [treeOf] is the session's trees with their shares; [id] the handle allocated
    for this request. *)
Definition handleCreate (treeOf : Z -> option Config.ShareConfig) (w : world) (id treeID : Z) (body : bytes) : prog (world * Io.answer) :=
  match Create.DecodeCreateRequest body with
  | Ok req =>
      match treeOf treeID with
      | None => refuse w StatusNetworkNameDeleted
      | Some sh =>
          if maxOpensPerSession <=? Session.OpenCount (Io.sess (st w)) then refuse w StatusInsufficientResources else
          match Create.parseDurableContexts (Create.ReqCreateContexts req) with
          | Ok (dq, dc, lr) =>
              if Create.dc_present dc && negb (bool_decide (Config.sPath sh = [])) then
                match reconnect w with
                | Some answered => mret answered
                | None => refuse w StatusObjectNameNotFound
                end
              else if bool_decide (Config.sPath sh = []) then create_pipe w id treeID sh (Create.ReqName req)
              else
                match Create.hasTimewarpContext (Create.ReqCreateContexts req) with
                | Ok true => refuse w StatusNotFound
                | Ok false =>
                    match splitStreamName fold (Create.ReqName req) with
                    | None => refuse w StatusInvalidParameter
                    | Some (baseName, streamName) =>
                        if negb (bool_decide (streamName = [])) then handleCreateNamedStream w id treeID sh req baseName streamName
                        else create_name w id treeID sh req dq lr baseName
                    end
                | _ => mret (w, Io.Crash)
                end
          | _ => mret (w, Io.Crash)
          end
      end
  | _ => refuse w StatusInvalidParameter
  end.

(** ** Every path of CREATE, call by call *)

(** What is known of the calls of the parts that do not depend on the request. *)
Section Parts.
Context (allowed : call -> Prop).

Lemma wp_streamExists p n post : (forall k, allowed (GetxattrSize p k)) -> (forall r, post r) -> wp allowed (streamExists p n) post.
Proof. clear. intros Ha Hp. unfold streamExists. wps; auto. Qed.

Lemma wp_readStream p n post : (forall k, allowed (GetxattrSize p k)) -> (forall k m, allowed (Getxattr p k m)) -> (forall r, post r) -> wp allowed (readStreamXattr p n) post.
Proof. clear. intros Ha Hb Hp. unfold readStreamXattr, getxattr. wps; auto. Qed.

Lemma wp_maximalAccess p ro post : (forall m, allowed (Faccessat p m)) -> (forall r, post r) -> wp allowed (maximalAccess p ro) post.
Proof. clear. intros Ha Hp. unfold maximalAccess. wps; auto. Qed.

Lemma wp_open_leaf p w post : allowed (OpenRW p) -> allowed (OpenNoFollow p) -> (forall r, post r) -> wp allowed (open_leaf p w) post.
Proof. clear. intros Ha Hb Hp. unfold open_leaf. wps; auto. Qed.

Lemma wp_close_opt f post : (forall fd, allowed (CloseFd fd)) -> post tt -> wp allowed (close_opt f) post.
Proof. clear. intros Ha Hp. unfold close_opt. wps; auto. by destruct r. Qed.

Lemma wp_close_released h os post : (forall fd, allowed (CloseFd fd)) -> post tt -> wp allowed (close_released h os) post.
Proof. clear. intros Ha Hp. induction os as [|o os IH]; cbn [close_released]; [by apply wp_ret|]. apply wp_bind, wp_close_opt; auto. Qed.

Lemma wp_create_new p dir excl (post : option errno -> Prop) : (dir = true -> allowed (Mkdir p)) -> (dir = false -> allowed (OpenCreate p excl)) -> (forall fd, allowed (CloseFd fd)) ->
  (forall r, post r) -> wp allowed (create_new p dir excl) post.
Proof. clear. intros Ha Hb Hc Hp. unfold create_new. wps; auto. Qed.

Lemma wp_restat p post : allowed (Lstat p) -> (forall r, post r) -> wp allowed (restat p) post.
Proof. clear. intros Ha Hp. unfold restat. wps; auto. Qed.

Lemma wp_apply_disposition d p info isDir wantedDir post :
  (d <> CreateDispositionOpen -> info = None -> wantedDir = true -> allowed (Mkdir p)) -> (d <> CreateDispositionOpen -> info = None -> forall e, allowed (OpenCreate p e)) ->
  (truncatingDisposition d = true -> info <> None -> isDir = false -> allowed (Truncate p 0)) -> allowed (Lstat p) -> (forall fd, allowed (CloseFd fd)) -> (forall r, post r) ->
  wp allowed (apply_disposition d p info isDir wantedDir) post.
Proof.
  clear. intros Hm Hc Ht Hl Hf Hp. unfold apply_disposition. destruct (Z.eqb_spec d CreateDispositionOpen) as [|Ho]; [apply wp_ret, Hp|].
  assert (Hnew : forall isDir' dir excl, info = None -> (dir = true -> wantedDir = true) -> wp allowed (e ← create_new p dir excl; match e with
    | Some e => mret (inr (statusFromErr (Some e)))
    | None => i ← restat p; mret (inl (CreateActionCreated, isDir', i)) end) post).
  { intros isDir' dir excl Hi Hd. apply wp_bind, wp_create_new; auto. intros [e|]; [apply wp_ret, Hp|]. apply wp_bind, wp_restat; [done|]. intros r. apply wp_ret, Hp. }
  assert (Htr : forall a : Z, truncatingDisposition d = true -> info <> None -> isDir = false -> wp allowed (e ← sys (Truncate p 0); match e with
    | Some e => mret (inr (statusFromErr (Some e)))
    | None => i ← restat p; mret (inl (a, isDir, i)) end) post).
  { intros a H1 H2 H3. apply wp_sys; [auto|]. intros [e|] _; [apply wp_ret, Hp|]. apply wp_bind, wp_restat; [done|]. intros r. apply wp_ret, Hp. }
  destruct (Z.eqb_spec d CreateDispositionCreate) as [->|Hcr].
  { destruct info; [apply wp_ret, Hp|]. by apply Hnew. }
  destruct (Z.eqb_spec d CreateDispositionOpenIf) as [->|Hoi].
  { destruct info; [apply wp_ret, Hp|]. by apply Hnew. }
  destruct (Z.eqb_spec d CreateDispositionOverwrite) as [->|How].
  { destruct info as [i|]; cbn [negb]; [|apply wp_ret, Hp]. destruct isDir; [|by apply Htr]. apply wp_bind, wp_ret, wp_bind, wp_restat; [done|]. intros r. apply wp_ret, Hp. }
  destruct (Z.eqb_spec d CreateDispositionOverwriteIf) as [->|Hoif]; [|destruct (Z.eqb_spec d CreateDispositionSupersede) as [->|]; [|apply wp_ret, Hp]]; cbn [orb];
    (destruct info as [i|]; cbn [andb negb]; [destruct isDir; cbn [negb]; [apply wp_bind, wp_restat; [done|]; intros r; apply wp_ret, Hp|by apply Htr]|by apply Hnew]).
Qed.

Lemma wp_respond_file w id sh req dq lr action isDir info granted fid o post :
  (forall fd, allowed (CloseFd fd)) -> (forall fd, allowed (FileStat fd)) -> allowed (Statx (Io.Path o)) -> allowed Now -> (forall r, post r) ->
  wp allowed (respond_file w id sh req dq lr action isDir info granted fid o) post.
Proof.
  clear - allowed. intros Hc Hf Hs Hn Hp. unfold respond_file. apply wp_sys; [done|]. intros now _. cbv zeta. apply wp_bind, Io.wp_birthTime; [done|]. intros bt.
  apply wp_bind. apply (wp_mono allowed allowed _ (fun _ => True)); [done| |by destruct (Io.File o); wps].
  intros fi _. destruct (match fi with Some i => (Ino i, Dev i) | None => (0, 0) end) as [dk vol].
  destruct (Aapl.buildCreateResponseContexts _ _ _ _ _ _) as [[base l]| |]; [|apply wp_ret, Hp..].
  destruct (Durable.applyDurableAndLease _ _ _ _ _ _ _ _ _ _) as [[[[d rel] durable] ctxs]| |]; [|apply wp_ret, Hp..].
  apply wp_bind, wp_close_released; [done|]. apply wp_ret, Hp.
Qed.

Lemma wp_reserve w id treeID sh req dq lr action isDir info granted fid o post :
  (forall fd, allowed (CloseFd fd)) -> (forall fd, allowed (FileStat fd)) -> (forall fd, allowed (KeyForFd fd)) -> allowed (Statx (Io.Path o)) -> allowed Now -> (forall r, post r) ->
  wp allowed (reserve_and_publish w id treeID sh req dq lr action isDir info granted fid o) post.
Proof.
  clear - allowed. intros Hc Hf Hk Hs Hn Hp. unfold reserve_and_publish. apply wp_bind. apply (wp_mono allowed allowed _ (fun _ => True)); [done| |].
  - intros [w' []] _.
    + destruct (publish w' id fid treeID true o) as [w'' []]; [by apply wp_respond_file|]. apply wp_bind, wp_close_opt; [done|]. apply wp_ret, Hp.
    + apply wp_bind, wp_close_opt; [done|]. apply wp_ret, Hp.
  - destruct (Io.File o); [|by apply wp_ret]. destruct (ShareMode.shareModeApplies _ _ _ _); [|by apply wp_ret]. apply wp_sys; [done|]. intros [key|] _; [|by apply wp_ret].
    destruct (ShareMode.acquireShareMode _ _ _ _ _ _ _ _) as [[[? ?] ?] ?]. by apply wp_ret.
Qed.
End Parts.

(** The paths a call names. *)
Definition paths (c : call) : list bytes :=
  match c with
  | Truncate p _ | Lstat p | Remove p | UtimesNanoAt p _ _ | Statx p | GetxattrSize p _ | Getxattr p _ _ | Setxattr p _ _ | Removexattr p _
  | ListxattrSize p | Listxattr p _ | OpenNoFollow p | OpenRW p | OpenCreate p _ | Mkdir p | Faccessat p _ | KeyForPath p | OpenProbe p | Readdirnames p _ | Kernel.ReadDir p | Statfs p => [p]
  | Rename a b => [a; b]
  | _ => []
  end.

(** What the resolver answers for a name of the share, or the target inside the
    share of a link it answers. *)
Definition resolved (sh : Config.ShareConfig) (p : bytes) : Prop :=
  exists name, resolve sh name = inl p \/ exists link, resolve sh name = inl link /\ Vfs.ResolveLink EvalSymlinks (Config.sPath sh) link = inl p.

Section Confined.
Context (sh : Config.ShareConfig).

(** A call that names only such paths, and changes nothing on a read-only share. *)
Definition confined (c : call) : Prop := Forall (resolved sh) (paths c) /\ (Config.ReadOnly sh = true -> mutates c = false).

Lemma confined_pathless c : paths c = [] -> mutates c = false -> confined c.
Proof. clear. intros Hp Hm. split; [rewrite Hp; constructor|done]. Qed.

Lemma confined_reads c p : resolved sh p -> paths c = [p] -> mutates c = false -> confined c.
Proof. clear. intros Hr Hp Hm. split; [rewrite Hp; by constructor|done]. Qed.

Lemma confined_writes c p : resolved sh p -> paths c = [p] -> Config.ReadOnly sh = false -> confined c.
Proof. clear. intros Hr Hp Hro. split; [rewrite Hp; by constructor|by rewrite Hro]. Qed.

Lemma wp_pipe w id treeID name : wp confined (create_pipe w id treeID sh name) (fun _ => True).
Proof.
  unfold create_pipe. destruct (negb _); [by apply wp_ret|]. apply wp_sys; [by apply confined_pathless|]. intros [fid|] _; [|by apply wp_ret].
  destruct (publish _ _ _ _ _ _) as [w' []]; [|by apply wp_ret]. apply wp_sys; [by apply confined_pathless|]. intros now _. by apply wp_ret.
Qed.

Lemma wp_stream w id treeID req baseName streamName : wp confined (handleCreateNamedStream w id treeID sh req baseName streamName) (fun _ => True).
Proof.
  unfold handleCreateNamedStream. cbv zeta. destruct (_ && _); [by apply wp_ret|]. destruct (resolve sh baseName) as [p|e] eqn:Hres; [|by apply wp_ret].
  assert (Hp : resolved sh p) by (exists baseName; by left).
  apply wp_sys; [by apply (confined_reads _ p)|]. intros [i|e] _; [|by apply wp_ret]. apply wp_bind, wp_streamExists; [intros k; by apply (confined_reads _ p)|].
  intros [there [[|e]|]]; [|by apply wp_ret|].
  all: destruct (stream_disposition _ _); [|by apply wp_ret].
  all: apply wp_bind, wp_readStream; [intros k; by apply (confined_reads _ p)|intros k m; by apply (confined_reads _ p)|].
  all: intros stored; destruct (stream_buffer _ _ _) as [[buf written] synthetic]; apply wp_sys; [by apply confined_pathless|]; intros [fid|] _; [|by apply wp_ret].
  all: destruct (publish _ _ _ _ _ _) as [w' []]; [|by apply wp_ret]; apply wp_sys; [by apply confined_pathless|]; intros now _;
    destruct (Aapl.buildCreateResponseContexts _ _ _ _ _ _) as [[]| |]; by apply wp_ret.
Qed.

Lemma wp_object w id treeID req dq lr p link info : resolved sh p -> (Create.CreateDisposition req <> CreateDispositionOpen -> Config.ReadOnly sh = false) ->
  wp confined (create_object w id treeID sh req dq lr p link info) (fun _ => True).
Proof.
  intros Hp Hro. unfold create_object. cbv zeta. destruct (type_check _ _ _); [by apply wp_ret|].
  apply wp_bind, (wp_mono confined confined _ (fun _ => True)); [done| |unfold truncation_allowed; wps; try done; by apply (confined_reads _ p)].
  intros [] _; cbn [negb]; [|by apply wp_ret]. apply wp_bind, wp_apply_disposition.
  - intros Hd _ _. apply (confined_writes _ p); auto.
  - intros Hd _ e. apply (confined_writes _ p); auto.
  - intros Ht _ _. apply (confined_writes _ p); [done..|]. apply Hro. intros Hd. by rewrite Hd in Ht.
  - by apply (confined_reads _ p).
  - intros fd. by apply confined_pathless.
  - intros [[[action isDir] info']|status]; [|by apply wp_ret]. apply wp_bind, wp_maximalAccess; [intros m; by apply (confined_reads _ p)|]. intros granted.
    apply wp_bind, (wp_mono confined confined _ (fun _ => True)); [done| |destruct isDir; [by apply wp_ret|apply wp_bind, wp_open_leaf; [by apply (confined_reads _ p)..|]; intros r; by apply wp_ret]].
    intros [f|e] _; [|by apply wp_ret]. apply wp_sys; [by apply confined_pathless|]. intros [fid|] _.
    + apply wp_reserve; try done; first [intros fd; by apply confined_pathless|by apply (confined_reads _ p)|by apply confined_pathless].
    + apply wp_bind, wp_close_opt; [intros fd; by apply confined_pathless|]. by apply wp_ret.
Qed.

Lemma wp_name w id treeID req dq lr baseName : wp confined (create_name w id treeID sh req dq lr baseName) (fun _ => True).
Proof.
  unfold create_name. destruct (resolve sh baseName) as [p|e] eqn:Hres; [|by apply wp_ret]. destruct (Config.ReadOnly sh && readonly_refuses req) eqn:Hro; [by apply wp_ret|].
  assert (Hp : resolved sh p) by (exists baseName; by left).
  assert (Hd : Create.CreateDisposition req <> CreateDispositionOpen -> Config.ReadOnly sh = false).
  { intros Hd. destruct (Config.ReadOnly sh); [|done]. cbn [andb] in Hro. unfold readonly_refuses in Hro. rewrite (proj2 (Z.eqb_neq _ _) Hd) in Hro. done. }
  apply wp_sys; [by apply (confined_reads _ p)|]. intros [i|e] _; [|destruct e; first [by apply wp_object|by apply wp_ret]].
  destruct (negb _); [by apply wp_object|]. destruct (Vfs.ResolveLink _ _ _) as [target|e] eqn:Hl; [|by apply wp_ret].
  assert (Ht : resolved sh target) by (exists baseName; right; by exists p).
  apply wp_sys; [by apply (confined_reads _ target)|]. intros [t|e] _; [by apply wp_object|by apply wp_ret].
Qed.
End Confined.


(** ** All or nothing *)

Lemma iterate_no_err {S} fuel raw (fn : S -> Create.CreateContext -> S * bool) : forall off s e, Create.iterate fuel raw fn off s <> Err e.
Proof.
  clear. induction fuel as [|fuel IH]; intros off s e; cbn [Create.iterate]; [done|]. destruct (_ <=? _); [done|]. destruct (_ <? _); [done|].
  assert (Hu : forall A (m : res A) (k : A -> res S), (forall e', m <> Err e') -> (forall a, k a <> Err e) -> (m ≫= k) <> Err e).
  { intros A m k Hm Hk. destruct m as [a|e'|]; cbn; [apply Hk|by destruct (Hm e')|done]. }
  assert (Hr32 : forall b i e', u32 (E:=err) b i <> Err e') by (intros b i e'; unfold u32; by destruct (in_range _ _ _)).
  assert (Hr16 : forall b i e', u16 (E:=err) b i <> Err e') by (intros b i e'; unfold u16; by destruct (in_range _ _ _)).
  assert (Hsl : forall (c : bool) b lo hi e', (if c then slice (E:=err) b lo hi else Ok []) <> Err e') by (intros [] b lo hi e'; [unfold slice; by destruct (in_range _ _ _)|done]).
  repeat (apply Hu; [first [apply Hr32|apply Hr16|apply Hsl]|intros ?]). destruct (fn s _) as [s' go]. destruct (negb go); [done|]. destruct (_ =? 0); [done|apply IH].
Qed.

Lemma iterate_total {S} raw (fn : S -> Create.CreateContext -> S * bool) s : exists r, Create.IterateCreateContexts raw fn s = Ok r.
Proof.
  clear. pose proof (Create.IterateCreateContexts_safe raw fn s) as Hs. destruct (Create.IterateCreateContexts raw fn s) as [r|e|] eqn:He; [by eexists| |done].
  by apply iterate_no_err in He.
Qed.

Lemma contexts_total raw cs l ma dk vol : exists r, Aapl.buildCreateResponseContexts raw cs l ma dk vol = Ok r.
Proof.
  clear. unfold Aapl.buildCreateResponseContexts. destruct (_ =? 0); [by eexists|].
  match goal with |- context [Create.IterateCreateContexts raw ?fn ?s] => destruct (iterate_total raw fn s) as [[out l'] ->] end. by eexists.
Qed.

Lemma durable_total d cap guid o fid dq lr base share u : exists r, Durable.applyDurableAndLease d cap guid o fid dq lr base share u = Ok r.
Proof.
  clear. unfold Durable.applyDurableAndLease.
  assert (Hb : exists ctxs, (if 0 <? len base then Create.IterateCreateContexts base (fun l c => (l ++ [c], true)) [] else Ok []) = Ok ctxs)
    by (destruct (_ <? _); [apply iterate_total|by eexists]).
  destruct Hb as [ctxs ->]. cbn [mbind outcome_bind].
  destruct (match cap with Some cap => _ | None => _ end) as [[[d' rel] durable] c]. by eexists.
Qed.

Lemma publish_spec w id fid treeID b o : let '(w', ok) := publish w id fid treeID b o in
  modes w' = modes w /\ durables w' = durables w /\
  if ok then Io.GetOpen (st w') fid = Some (id, o) /\ last w' = Some fid
  else Io.heap (st w') = Io.heap (st w) /\ Io.sess (st w') = interfere (Io.sess (st w)).
Proof.
  clear - interfere. unfold publish. set (so := Session.mkOpen id fid (Some treeID)). set (s0 := interfere (Io.sess (st w))).
  assert (H : forall r : Session.Session * bool, (r.2 = true -> Session.GetOpen r.1 fid = Some so) -> (r.2 = false -> r.1 = s0) ->
    let '(w', ok) := (let '(s, ok) := r in if ok then (mkWorld (Io.mkState s (<[id := o]> (Io.heap (st w)))) (modes w) (waits w) (durables w) (latch w) (Some fid), true)
      else (mkWorld (Io.mkState s (Io.heap (st w))) (modes w) (waits w) (durables w) (latch w) (last w), false)) in
    modes w' = modes w /\ durables w' = durables w /\
    if ok then Io.GetOpen (st w') fid = Some (id, o) /\ last w' = Some fid
    else Io.heap (st w') = Io.heap (st w) /\ Io.sess (st w') = s0).
  { intros [s []] Ht Hf; cbn [fst snd] in *; (split; [done|]; split; [done|]); [|by rewrite Hf].
    split; [|done]. unfold Io.GetOpen. cbn [st Io.sess Io.heap]. rewrite Ht by done. cbn. by rewrite lookup_insert_eq. }
  apply (H (if b then Session.AddOpenToTree s0 so treeID else Session.AddOpen s0 so)).
  - destruct b; [unfold Session.AddOpenToTree|unfold Session.AddOpen]; destruct (Session.dead s0); try done; [destruct (negb _); [done|]|];
      intros _; unfold Session.GetOpen; cbn [fst Session.opens]; apply lookup_insert_eq.
  - destruct b; [unfold Session.AddOpenToTree|unfold Session.AddOpen]; destruct (Session.dead s0); try done. by destruct (negb _).
Qed.

Section Leaks.
Context (kernel : forall c, result c) (Hlegal : forall c, legal c (kernel c)).

(** The descriptor a call hands out. *)
Definition opened (c : call) : option Z :=
  match c with
  | OpenRW p => match kernel (OpenRW p) with inl fd => Some fd | inr _ => None end
  | OpenNoFollow p => match kernel (OpenNoFollow p) with inl fd => Some fd | inr _ => None end
  | OpenCreate p e => match kernel (OpenCreate p e) with inl fd => Some fd | inr _ => None end
  | OpenProbe p => match kernel (OpenProbe p) with inl fd => Some fd | inr _ => None end
  | _ => None
  end.

(** Every descriptor handed out is closed, apart from one. *)
Definition balanced (cs : list call) (keep : option Z) : Prop :=
  forall c fd, c ∈ cs -> opened c = Some fd -> CloseFd fd ∈ cs \/ keep = Some fd.

Lemma balanced_nil keep : balanced [] keep.
Proof. clear. intros c fd Hc. by apply elem_of_nil in Hc. Qed.

Lemma balanced_app cs cs' keep : balanced cs keep -> balanced cs' keep -> balanced (cs ++ cs') keep.
Proof.
  clear. intros H H' c fd [Hc|Hc]%elem_of_app Ho; [destruct (H c fd Hc Ho)|destruct (H' c fd Hc Ho)]; try (left; apply elem_of_app; tauto); by right.
Qed.

Lemma balanced_cons c cs keep : opened c = None -> balanced cs keep -> balanced (c :: cs) keep.
Proof. clear. intros Hc H c' fd [->|Hin]%elem_of_cons Ho; [congruence|]. destruct (H c' fd Hin Ho); [left; by right|by right]. Qed.

Lemma balanced_close cs keep : balanced cs keep -> (forall fd, keep = Some fd -> CloseFd fd ∈ cs) -> balanced cs None.
Proof. clear. intros H Hk c fd Hin Ho. left. destruct (H c fd Hin Ho); auto. Qed.

Lemma balanced_keep cs keep : balanced cs None -> balanced cs keep.
Proof. clear. intros H c fd Hin Ho. destruct (H c fd Hin Ho); [by left|done]. Qed.

Lemma balanced_silent cs : Forall (fun c => opened c = None) cs -> forall keep, balanced cs keep.
Proof. clear. intros H keep c fd Hc Ho. rewrite Forall_forall in H. rewrite (H c Hc) in Ho. done. Qed.

Lemma trace_create_new p dir excl : trace kernel (create_new p dir excl) (fun cs _ => forall keep, balanced cs keep).
Proof.
  clear Hlegal. unfold create_new. destruct dir; [intros keep; by apply balanced_cons, balanced_nil|]. apply trace_sys. destruct (kernel (OpenCreate p excl)) as [fd|e] eqn:Hk.
  - apply trace_sys, trace_ret. intros keep c fd' Hin Ho. left. repeat (apply elem_of_cons in Hin as [->|Hin]; [cbn in Ho; try rewrite Hk in Ho; try done; injection Ho as <-; right; left|]). by apply elem_of_nil in Hin.
  - apply trace_ret. intros keep. apply balanced_cons, balanced_nil. cbn. by rewrite Hk.
Qed.

Lemma trace_open_leaf p ww : trace kernel (open_leaf p ww) (fun cs r => balanced cs (match r with inl fd => Some fd | inr _ => None end)).
Proof.
  clear Hlegal. unfold open_leaf. apply trace_sys. destruct (kernel (OpenRW p)) as [fd|e] eqn:Hk.
  { apply trace_ret. intros c fd' [->|Hin]%elem_of_cons Ho; [right; cbn in Ho; rewrite Hk in Ho; by injection Ho as ->|by apply elem_of_nil in Hin]. }
  assert (Hn : opened (OpenRW p) = None) by (cbn; by rewrite Hk). assert (Hret : forall e', balanced [OpenRW p] (match @inr Z errno e' with inl fd => Some fd | inr _ => None end)) by (intros e'; by apply balanced_cons, balanced_nil).
  assert (Hro : trace kernel (if ww then mret (inr e) else sys (OpenNoFollow p)) (fun cs r => balanced (OpenRW p :: cs) (match r with inl fd => Some fd | inr _ => None end))).
  { destruct ww; [apply trace_ret, (Hret e)|]. unfold trace. cbn. apply balanced_cons; [done|]. intros c fd' [->|Hin]%elem_of_cons Ho; [|by apply elem_of_nil in Hin].
    cbn in Ho. destruct (kernel (OpenNoFollow p)); [right; by injection Ho as ->|done]. }
  destruct e; first [exact Hro|apply trace_ret, (Hret ELOOP)].
Qed.
(** Nothing changed but what other requests did to the session, and the handle
    reserves no share mode. *)
Definition same (w w' : world) (id : Z) : Prop :=
  Io.heap (st w') = Io.heap (st w) /\ durables w' = durables w /\ ShareMode.owners (modes w') !! id = None /\
  (Io.sess (st w') = Io.sess (st w) \/ Io.sess (st w') = interfere (Io.sess (st w))).

(** What CREATE leaves of the world it found at [id]: a handle that is
    published and keeps its descriptor, or nothing at all. *)
Definition outcome (w : world) (id : Z) (cs : list call) (r : world * Io.answer) : Prop :=
  match r.2 with
  | Io.Reply status _ =>
      if status =? StatusSuccess then exists fid o, last r.1 = Some fid /\ Io.GetOpen (st r.1) fid = Some (id, o) /\ balanced cs (Io.File o)
      else balanced cs None /\ same w r.1 id
  | _ => False
  end.

(** [p] ends well after calls that left [f] open. *)
Definition owing (w : world) (id : Z) (f : option Z) (p : prog (world * Io.answer)) : Prop :=
  trace kernel p (fun cs r => forall pre, balanced pre f -> outcome w id (pre ++ cs) r).

Lemma owing_outcome w id p : owing w id None p -> trace kernel p (outcome w id).
Proof. clear. intros H. apply (H []), balanced_nil. Qed.

Lemma owing_after {A} w id f f' (p : prog A) k : 
  trace kernel p (fun cs a => (forall pre, balanced pre f -> balanced (pre ++ cs) (f' a)) /\ owing w id (f' a) (k a)) -> owing w id f (p ≫= k).
Proof.
  clear. intros H. apply trace_bind. apply (trace_mono _ _ _ _ (fun cs a => fun H => H)) in H. revert H. apply trace_mono. intros cs a [Hb Hk].
  revert Hk. apply trace_mono. intros cs' r Hr pre Hpre. rewrite app_assoc. apply Hr. by apply Hb.
Qed.

Lemma owing_part {A} w id f (p : prog A) k : trace kernel p (fun cs _ => forall keep, balanced cs keep) -> (forall a, owing w id f (k a)) -> owing w id f (p ≫= k).
Proof. clear. intros Hp Hk. apply (owing_after w id f (fun _ => f)). revert Hp. apply trace_mono. intros cs a Hcs. split; [|apply Hk]. intros pre Hpre. by apply balanced_app. Qed.

Lemma owing_sys w id f c k : opened c = None -> owing w id f (k (kernel c)) -> owing w id f (sys c ≫= k).
Proof. clear. intros Hc Hk. apply (owing_after w id f (fun _ => f)). unfold trace. cbn. split; [|done]. intros pre Hpre. apply balanced_app; [done|]. by apply balanced_cons, balanced_nil. Qed.

Lemma owing_close w id f k : owing w id None (k tt) -> owing w id f (close_opt f ≫= k).
Proof.
  clear. intros Hk. apply (owing_after w id f (fun _ => None)). destruct f as [fd|]; unfold trace; cbn; (split; [|by destruct (kernel (CloseFd fd)) || done]).
  - intros pre Hpre. apply (balanced_close _ (Some fd)); [apply balanced_app; [done|by apply balanced_cons, balanced_nil]|]. intros fd' [= <-]. apply elem_of_app. right. by left.
  - intros pre Hpre. by rewrite app_nil_r.
Qed.

Lemma same_refl w id : ShareMode.owners (modes w) !! id = None -> same w w id.
Proof. clear. intros H. repeat (split; [done|]). by left. Qed.

Lemma owing_refuse w id w' status : (status =? StatusSuccess) = false -> same w w' id -> owing w id None (refuse w' status).
Proof. clear. intros Hs H. apply trace_ret. intros pre Hpre. unfold outcome. cbn [fst snd]. rewrite Hs, app_nil_r. done. Qed.

Lemma owing_refused w id status : ShareMode.owners (modes w) !! id = None -> (status =? StatusSuccess) = false -> owing w id None (refuse w status).
Proof. clear. intros H Hs. apply owing_refuse; [done|by apply same_refl]. Qed.

Lemma owing_done w id w' fid o body : last w' = Some fid -> Io.GetOpen (st w') fid = Some (id, o) -> owing w id (Io.File o) (mret (w', Io.Reply StatusSuccess body)).
Proof. clear. intros H1 H2. apply trace_ret. intros pre Hpre. unfold outcome. cbn [fst snd]. rewrite Z.eqb_refl, app_nil_r. by exists fid, o. Qed.
(** A part that leaves nothing open, and what it answers. *)
Definition quiet {A} (p : prog A) (P : A -> Prop) : Prop := trace kernel p (fun cs a => (forall keep, balanced cs keep) /\ P a).

Lemma quiet_ret {A} (a : A) (P : A -> Prop) : P a -> quiet (mret a) P.
Proof. clear. intros H. apply trace_ret. split; [intros keep; apply balanced_nil|done]. Qed.

Lemma quiet_bind {A B} (p : prog A) (k : A -> prog B) (P : A -> Prop) Q : quiet p P -> (forall a, P a -> quiet (k a) Q) -> quiet (p ≫= k) Q.
Proof.
  clear. intros Hp Hk. apply trace_bind. revert Hp. apply trace_mono. intros cs a [Hcs Ha]. generalize (Hk a Ha). apply trace_mono. intros cs' b [Hcs' Hb].
  split; [intros keep; by apply balanced_app|done].
Qed.

Lemma quiet_sys {B} c (k : result c -> prog B) Q : opened c = None -> quiet (k (kernel c)) Q -> quiet (sys c ≫= k) Q.
Proof. clear. intros Hc Hk. apply trace_sys. revert Hk. apply trace_mono. intros cs b [Hcs Hb]. split; [intros keep; by apply balanced_cons|done]. Qed.

Lemma quiet_wp {A} (p : prog A) (P : A -> Prop) : wp (fun c => opened c = None) p P -> quiet p P.
Proof. intros Hp. apply (trace_mono _ _ _ _ (fun cs a H => conj (balanced_silent cs (proj1 H)) (proj2 H)) (trace_calls kernel _ p _ Hlegal Hp)). Qed.

Lemma owing_quiet {A} w id f (p : prog A) (P : A -> Prop) k : quiet p P -> (forall a, P a -> owing w id f (k a)) -> owing w id f (p ≫= k).
Proof. clear. intros Hp Hk. apply (owing_after w id f (fun _ => f)). revert Hp. apply trace_mono. intros cs a [Hcs Ha]. split; [|by apply Hk]. intros pre Hpre. by apply balanced_app. Qed.

Lemma quiet_create_new p dir excl : quiet (create_new p dir excl) (fun _ => True).
Proof. generalize (trace_create_new p dir excl). clear. apply trace_mono. by split. Qed.

Lemma quiet_restat p : quiet (restat p) (fun _ => True).
Proof. by apply quiet_wp, wp_restat. Qed.

Lemma statusFromErr_error e : (statusFromErr (Some e) =? StatusSuccess) = false.
Proof. clear. by destruct e. Qed.

Lemma statusFromResolveErr_error e : (statusFromResolveErr e =? StatusSuccess) = false.
Proof. clear. by destruct e. Qed.

Lemma quiet_apply_disposition d p info isDir wantedDir : quiet (apply_disposition d p info isDir wantedDir) (fun r => match r with inr status => (status =? StatusSuccess) = false | _ => True end).
Proof.
  unfold apply_disposition.
  assert (Hst : forall (a : Z) dir, quiet (i ← restat p; mret (inl (a, dir, i))) (fun r : Z * bool * option fileInfo + Z => match r with inr status => (status =? StatusSuccess) = false | _ => True end)).
  { intros a dir. apply (quiet_bind _ _ _ _ (quiet_restat p)). intros i _. by apply quiet_ret. }
  assert (He : forall (e : option errno) (a : Z) dir, quiet (match e with Some e => mret (inr (statusFromErr (Some e))) | None => i ← restat p; mret (inl (a, dir, i)) end)
    (fun r : Z * bool * option fileInfo + Z => match r with inr status => (status =? StatusSuccess) = false | _ => True end)).
  { intros [e|] a dir; [|apply Hst]. apply quiet_ret, statusFromErr_error. }
  assert (Hnew : forall b x dir, quiet (e ← create_new p b x; match e with Some e => mret (inr (statusFromErr (Some e))) | None => i ← restat p; mret (inl (CreateActionCreated, dir, i)) end)
    (fun r : Z * bool * option fileInfo + Z => match r with inr status => (status =? StatusSuccess) = false | _ => True end)).
  { intros b x dir. apply (quiet_bind _ _ _ _ (quiet_create_new p b x)). intros e _. apply He. }
  assert (Htr : forall (a : Z) dir, quiet (e ← sys (Truncate p 0); match e with Some e => mret (inr (statusFromErr (Some e))) | None => i ← restat p; mret (inl (a, dir, i)) end)
    (fun r : Z * bool * option fileInfo + Z => match r with inr status => (status =? StatusSuccess) = false | _ => True end)).
  { intros a dir. apply quiet_sys; [done|]. apply He. }
  clear - Hst He Hnew Htr. destruct (d =? _); [destruct info; by apply quiet_ret|]. destruct (d =? _); [destruct info; [by apply quiet_ret|apply Hnew]|].
  destruct (d =? _); [destruct info; [by apply quiet_ret|apply Hnew]|]. destruct (d =? _); [destruct info; cbn [negb]; [|by apply quiet_ret]; destruct isDir; [|apply Htr]|].
  { apply (quiet_bind _ _ _ _ (quiet_ret _ (fun e => e = None) eq_refl)). intros e ->. apply (He None). }
  destruct (_ || _); [|by apply quiet_ret]. destruct info, isDir; cbn [andb negb]; first [apply Htr|apply Hnew|apply Hst].
Qed.
Lemma owing_respond w0 w id sh req dq lr action isDir info granted fid o :
  last w = Some fid -> Io.GetOpen (st w) fid = Some (id, o) -> owing w0 id (Io.File o) (respond_file w id sh req dq lr action isDir info granted fid o).
Proof.
  intros Hl Hg. unfold respond_file. apply owing_sys; [done|]. cbv zeta.
  apply (owing_quiet _ _ _ _ (fun _ => True)); [by apply quiet_wp, Io.wp_birthTime|]. intros bt _.
  apply (owing_quiet _ _ _ _ (fun _ => True)).
  { clear - Hlegal. apply quiet_wp. destruct (Io.File o); wps; done. }
  intros fi _. destruct (match fi with Some i => (Ino i, Dev i) | None => (0, 0) end) as [dk vol].
  destruct (contexts_total (Create.ReqCreateContexts req) (caseSensitive sh) (latch w) granted dk vol) as [[base l] ->].
  destruct (durable_total (durables w) durableCap clientGuid id fid dq lr base (Config.sName sh) user) as [[[[d rel] durable] ctxs] ->].
  apply (owing_quiet _ _ _ _ (fun _ => True)); [by apply quiet_wp, wp_close_released|]. intros _ _.
  match goal with |- owing _ _ _ (mret (mkWorld (Io.put _ _ ?o') _ _ _ _ _, _)) => apply (owing_done _ _ _ fid o') end; [exact Hl|].
  clear - Hg. unfold Io.GetOpen, Io.put in *. cbn [st Io.sess Io.heap] in *. destruct (Session.GetOpen _ _) as [so|]; [|done]. cbn in *.
  destruct (decide (Session.open_id so = id)) as [->|Hne].
  - by rewrite lookup_insert_eq.
  - exfalso. destruct (Io.heap (st w) !! Session.open_id so); [|done]. cbn in Hg. congruence.
Qed.

Lemma owing_reserve w id treeID sh req dq lr action isDir info granted fid o :
  Forall (Forall (ShareMode.spares id)) script -> id <> 0 -> ShareMode.owners (modes w) !! id = None ->
  owing w id (Io.File o) (reserve_and_publish w id treeID sh req dq lr action isDir info granted fid o).
Proof.
  intros Hs Hid Hown. unfold reserve_and_publish.
  apply (owing_quiet _ _ _ _ (fun r => Io.heap (st r.1) = Io.heap (st w) /\ durables r.1 = durables w /\ Io.sess (st r.1) = Io.sess (st w) /\ (r.2 = false -> ShareMode.owners (modes r.1) !! id = None))).
  { destruct (Io.File o) as [fd|]; [|by apply quiet_ret]. destruct (ShareMode.shareModeApplies _ _ _ _); [|by apply quiet_ret].
    apply quiet_sys; [done|]. destruct (kernel (KeyForFd fd)) as [key|]; [|by apply quiet_ret].
    pose proof (ShareMode.acquireShareMode_unowned live key id (Create.DesiredAccess req) (Create.ShareAccess req) (modes w) (waits w) script Hs Hown) as Ha.
    destruct (ShareMode.acquireShareMode _ _ _ _ _ _ _ _) as [[[ok m] n] ws]. by apply quiet_ret. }
  intros [w1 []] (Hh & Hd & Hse & Ho); cbn [fst snd] in *.
  - pose proof (publish_spec w1 id fid treeID true o) as Hp. destruct (publish w1 id fid treeID true o) as [w2 []]; destruct Hp as (Hm & Hdu & Hp).
    + destruct Hp as [Hg Hl]. by apply owing_respond.
    + destruct Hp as [Hheap Hsess]. apply owing_close, owing_refuse; [done|]. unfold same. cbn [with_modes st modes durables].
      rewrite Hheap, Hdu, Hsess, Hse. split; [done|]. split; [done|]. split; [|by right].
      clear - Hid. unfold ShareMode.release. rewrite (proj2 (Z.eqb_neq id 0) Hid). destruct (ShareMode.owners (modes w2) !! id) eqn:He; [|done].
      rewrite ShareMode.owners_wake. apply lookup_delete_eq.
  - apply owing_close, owing_refuse; [done|]. repeat (split; [auto|]). by left.
Qed.

Lemma owing_object w id treeID sh req dq lr osPath linkPath info :
  Forall (Forall (ShareMode.spares id)) script -> id <> 0 -> ShareMode.owners (modes w) !! id = None ->
  owing w id None (create_object w id treeID sh req dq lr osPath linkPath info).
Proof.
  intros Hs Hid Hown. unfold create_object. cbv zeta.
  destruct (type_check _ _ _) as [status|] eqn:Ht.
  { apply owing_refused; [done|]. clear - Ht. unfold type_check in Ht. cbv zeta in Ht. repeat (destruct (_ && _); [try by injection Ht as <-|]); repeat destruct (_ && _); by try injection Ht as <-. }
  apply (owing_quiet _ _ _ _ (fun _ => True)).
  { clear - Hlegal. apply quiet_wp. unfold truncation_allowed. wps; done. }
  intros [] _; cbn [negb]; [|by apply owing_refused].
  apply (owing_quiet _ _ _ _ _ _ (quiet_apply_disposition _ _ _ _ _)). intros [[[action isDir] info']|status] Hst; [|by apply owing_refused].
  apply (owing_quiet _ _ _ _ (fun _ => True)); [by apply quiet_wp, wp_maximalAccess|]. intros granted _.
  apply (owing_after _ _ _ (fun f => match f with inl f => f | inr _ => None end)).
  assert (Hrest : forall f, owing w id (match f with inl f => f | inr _ => None end) (match f with
    | inr e => refuse w (statusFromErr (Some e))
    | inl f =>
        let o := Io.mkOpen osPath isDir false [] f (Some sh) (negb (Z.land (Create.CreateOptions req) CreateOptDeleteOnClose =? 0)) linkPath false [] [] false false []
          granted false [] [] in
        fid ← sys (Random 16);
        match fid with
        | None => _ ← close_opt f; refuse w StatusInternalError
        | Some fid => reserve_and_publish w id treeID sh req dq lr action isDir info' granted fid o
        end
    end)).
  { intros [f|e]; [|by apply owing_refused, statusFromErr_error]. cbv zeta. apply owing_sys; [done|]. destruct (kernel (Random 16)) as [fid|].
    - match goal with |- owing _ _ _ (reserve_and_publish _ _ _ _ _ _ _ _ _ _ _ _ ?o) => change f with (Io.File o) at 1 end. by apply owing_reserve.
    - by apply owing_close, owing_refused. }
  destruct isDir; [apply trace_ret; split; [intros pre Hpre; by rewrite app_nil_r|apply (Hrest (inl None))]|].
  apply trace_bind. generalize (trace_open_leaf osPath (negb (Z.land (Create.DesiredAccess req) (union [AccessFileWriteData; AccessFileAppendData; AccessGenericAll; AccessGenericWrite]) =? 0))).
  apply trace_mono. intros cs r Hr. apply trace_ret. split.
  - intros pre Hpre. rewrite app_nil_r. apply balanced_app; [by apply balanced_keep|]. by destruct r.
  - destruct r as [fd|e]; [apply (Hrest (inl (Some fd)))|apply (Hrest (inr e))].
Qed.
Lemma parse_total raw : exists r, Create.parseDurableContexts raw = Ok r.
Proof. clear. unfold Create.parseDurableContexts. destruct (_ =? 0); [by eexists|apply iterate_total]. Qed.

Lemma timewarp_total raw : exists b, Create.hasTimewarpContext raw = Ok b.
Proof. clear. unfold Create.hasTimewarpContext. destruct (_ =? 0); [by eexists|apply iterate_total]. Qed.

Section Request.
Context (w : world) (id : Z) (Hs : Forall (Forall (ShareMode.spares id)) script) (Hid : id <> 0) (Hown : ShareMode.owners (modes w) !! id = None).

(** A handle without a descriptor is published, or the session is gone. *)
Lemma owing_publish fid treeID b o k : Io.File o = None ->
  (forall w', last w' = Some fid -> Io.GetOpen (st w') fid = Some (id, o) -> owing w id None (k w')) ->
  owing w id None (match publish w id fid treeID b o with (w', false) => refuse w' StatusUserSessionDeleted | (w', true) => k w' end).
Proof.
  clear Hs Hid. intros Hf Hk. pose proof (publish_spec w id fid treeID b o) as Hp. destruct (publish w id fid treeID b o) as [w' []]; destruct Hp as (Hm & Hd & H1 & H2); [by apply Hk|].
  apply owing_refuse; [done|]. unfold same. rewrite Hm, Hd. split; [done|]. split; [done|]. split; [done|by right].
Qed.

Lemma owing_pipe treeID sh name : owing w id None (create_pipe w id treeID sh name).
Proof.
  unfold create_pipe. destruct (negb _); [by apply owing_refused|]. apply owing_sys; [done|]. destruct (kernel (Random 16)) as [fid|]; [|by apply owing_refused].
  cbv zeta. apply owing_publish; [done|]. intros w' Hl Hg. apply owing_sys; [done|]. apply (owing_done _ _ _ fid _ _ Hl Hg).
Qed.

Lemma owing_stream treeID sh req baseName streamName : owing w id None (handleCreateNamedStream w id treeID sh req baseName streamName).
Proof.
  unfold handleCreateNamedStream. cbv zeta. destruct (_ && _); [by apply owing_refused|]. destruct (resolve sh baseName) as [p|e]; [|by apply owing_refused].
  apply owing_sys; [done|]. destruct (kernel (Lstat p)); [|by apply owing_refused].
  apply (owing_quiet _ _ _ _ (fun _ => True)); [by apply quiet_wp, wp_streamExists|]. intros [there err] _.
  destruct err as [[|e]|]; [|by apply owing_refused, statusFromErr_error|].
  all: destruct (stream_disposition _ _) as [action|status] eqn:Hd;
    [|apply owing_refused; [done|]; clear - Hd; unfold stream_disposition in Hd; repeat (destruct (_ || _) in Hd); repeat (destruct (_ =? _) in Hd);
      repeat match type of Hd with context [if ?b then _ else _] => destruct b end; by try injection Hd as <-].
  all: apply (owing_quiet _ _ _ _ (fun _ => True)); [by apply quiet_wp, wp_readStream|]; intros stored _; destruct (stream_buffer _ _ _) as [[buf written] synthetic];
    apply owing_sys; [done|]; destruct (kernel (Random 16)) as [fid|]; [|by apply owing_refused]; apply owing_publish; [done|]; intros w' Hl Hg; apply owing_sys; [done|];
    match goal with |- context [Aapl.buildCreateResponseContexts ?a ?b ?c ?d ?e ?f] => destruct (contexts_total a b c d e f) as [[ctxs l] ->] end;
    match type of Hg with _ = Some (id, ?o) => exact (owing_done w id (with_latch w' l) fid o _ Hl Hg) end.
Qed.

Lemma owing_name treeID sh req dq lr baseName : owing w id None (create_name w id treeID sh req dq lr baseName).
Proof.
  unfold create_name. destruct (resolve sh baseName) as [p|e]; [|by apply owing_refused, statusFromResolveErr_error]. destruct (_ && _); [by apply owing_refused|].
  apply owing_sys; [done|]. destruct (kernel (Lstat p)) as [i|e].
  - destruct (negb _); [by apply owing_object|]. destruct (Vfs.ResolveLink _ _ _) as [target|e]; [|by apply owing_refused, statusFromResolveErr_error].
    apply owing_sys; [done|]. destruct (kernel (Lstat target)); [by apply owing_object|by apply owing_refused, statusFromErr_error].
  - destruct e; first [by apply owing_object|by apply owing_refused].
Qed.
End Request.
End Leaks.

End Create.

(** ** Examples: a file of a disk share, created under handle 8 *)

(** As the kernel of the handlers' examples, with random bytes to be had. *)
Definition ex_kernel (random : bool) (c : call) : result c :=
  match c with
  | Random n => if random && (0 <=? n) then Some (replicate (Z.to_nat n) Byte.x07) else None
  | c => Io.ex_kernel c
  end.

Lemma ex_random_kernel_legal random c : legal c (ex_kernel random c).
Proof.
  destruct c; try apply (Io.ex_kernel_legal). cbn [legal ex_kernel]. destruct random; [|done]. destruct (Z.leb_spec 0 n); cbn [andb]; [|done].
  unfold len. rewrite length_replicate. lia.
Qed.

(** CREATE of ["n"] with OPEN_IF, for reading and writing. *)
Definition ex_create : bytes :=
  writes (zeros 58) [(0, le16 57); (24, le32 3); (32, le32 7); (36, le32 3); (44, le16 120); (46, le16 2); (56, [Byte.x6e])].
Definition ex_world : world :=
  mkWorld (Io.mkState (Session.mkSession {[2]} ∅ false 3) ∅) ShareMode.newShareModeTable 0 ∅ false None.
Definition ex_tree (ro : bool) (t : Z) : option Config.ShareConfig := if t =? 2 then Some (Io.ex_share ro) else None.
Definition ex_handle (ro : bool) : prog (world * Io.answer) :=
  handleCreate (fun _ => Vfs.LNotExist) (fun p => Vfs.EPath p) (fun _ => Some []) (fun s => s) (fun s => s) (fun c => c) (fun _ => (true, true)) (fun c => c) (fun s => s)
    (fun _ => Some (1, 1)) [] (fun s => s) None (zeros 16) [] (fun _ => None) (ex_tree ro) ex_world 8 2 ex_create.


End CreateFile.
