(* ===== verification/Dir.v ===== *)
(** QUERY_DIRECTORY: [handleQueryDirectory] of [internal/parent/dispatch.go] with
    its enumeration cursor, the records of the six classes and the chain that
    links them.

    A real entry is stat'ed when its record is encoded, a call at a time; the
    synthetic [.] and [..] carry the stat made when the directory was read. *)

From S2P Require Import Prelude Smb2 Utf Requests LockRanges Access Sessions Vfs Wildcard Frames Dispatch Config Kernel Streams Aapl Io.
Import Access Kernel Streams.

Module Dir.

Definition InfoFileDirectoryInformation : Z := 0x01.
Definition InfoFileFullDirectoryInformation : Z := 0x02.
Definition InfoFileBothDirectoryInformation : Z := 0x03.
Definition InfoFileNamesInformation : Z := 0x0C.
Definition InfoFileIdBothDirectoryInformation : Z := 0x25.
Definition InfoFileIdFullDirectoryInformation : Z := 0x26.
Definition QueryDirRestartScans : Z := 0x01.
Definition QueryDirReturnSingleEntry : Z := 0x02.

Definition supportedDirInfoClass (c : Z) : bool :=
  (c =? InfoFileDirectoryInformation) || (c =? InfoFileFullDirectoryInformation) || (c =? InfoFileBothDirectoryInformation) ||
  (c =? InfoFileNamesInformation) || (c =? InfoFileIdBothDirectoryInformation) || (c =? InfoFileIdFullDirectoryInformation).

Definition dirRecordFixedSize (infoClass : Z) : option Z :=
  if infoClass =? InfoFileDirectoryInformation then Some 64 else
  if infoClass =? InfoFileFullDirectoryInformation then Some 68 else
  if infoClass =? InfoFileNamesInformation then Some 12 else
  if infoClass =? InfoFileBothDirectoryInformation then Some 94 else
  if infoClass =? InfoFileIdFullDirectoryInformation then Some 80 else
  if infoClass =? InfoFileIdBothDirectoryInformation then Some 104 else None.

(** [os.DirEntry]: a [syntheticDirEntry] with its stat, or one [os.ReadDir] listed. *)
Inductive dirEntry := Synthetic (name : bytes) (info : fileInfo) | Listed (name : bytes).
Definition Name (e : dirEntry) : bytes := match e with Synthetic n _ | Listed n => n end.

(** ** Records *)

(** What every class but the names one starts with. *)
Definition stat_fields (info : fileInfo) (nameLen : Z) : list (Z * bytes) :=
  let t := le64 (filetimeFromTime (ModTime info)) in
  let size := if IsDir info then 0 else Size info in
  [(8, t); (16, t); (24, t); (32, t); (40, le64 size); (48, le64 size);
   (56, le32 (if IsDir info then Io.FileAttrDirectory else Io.FileAttrNormal)); (60, le32 nameLen)].

Definition compressedFinderInfo (fi : bytes) : bytes := get fi 0 8 ++ get fi 8 2 ++ get fi 24 2 ++ get fi 20 4.

(** The Apple overlay of the id-both record, or the inode where there is one. *)
Definition id_both_fields (info : fileInfo) (useAAPL : bool) (maxAccess rforkSize : Z) (finderInfo : bytes) : list (Z * bytes) :=
  if useAAPL then [(64, le32 maxAccess); (68, le8 24); (69, le8 0); (70, le64 rforkSize); (78, finderInfo); (94, le16 (Mode info)); (96, le64 (Ino info))]
  else if negb (Ino info =? 0) then [(96, le64 (Ino info))] else [].

(** The writes on the fixed part; [None] where there is no encoder.  A class that
    needs the stat dereferences it. *)
Definition record_writes (info : option fileInfo) (infoClass nameLen : Z) (useAAPL : bool) (maxAccess rforkSize : Z) (finderInfo : bytes) : res (option (list (Z * bytes))) :=
  if infoClass =? InfoFileNamesInformation then Ok (Some [(8, le32 nameLen)]) else
  if negb (supportedDirInfoClass infoClass) then Ok None else
  match info with
  | None => Panic
  | Some info =>
      Ok (Some (stat_fields info nameLen ++
        (if infoClass =? InfoFileIdBothDirectoryInformation then id_both_fields info useAAPL maxAccess rforkSize finderInfo
         else if infoClass =? InfoFileIdFullDirectoryInformation then (if negb (Ino info =? 0) then [(72, le64 (Ino info))] else [])
         else [])))
  end.

Definition encodeDirRecordFinderInfo (name : bytes) (info : option fileInfo) (infoClass : Z) (useAAPL : bool) (maxAccess rforkSize : Z) (finderInfo : bytes) : res (option bytes) :=
  let nameU16 := Names.utf16leName name in
  ws ← record_writes info infoClass (len nameU16) useAAPL maxAccess rforkSize finderInfo;
  Ok (match ws, dirRecordFixedSize infoClass with
      | Some ws, Some fixed => Some (writes (zeros fixed) ws ++ nameU16)
      | _, _ => None
      end).

(** ** The listing *)

(** [open.dirEntries] and [open.dirSent]. *)
Record cursor := mkCursor { dirEntries : list dirEntry; dirSent : nat }.
(** The handles, and the enumerations of those that were read. *)
Record dirState := mkDir { io : Io.state; cursors : gmap Z cursor }.

Definition set_cursor (s : dirState) (id : Z) (c : cursor) : dirState := mkDir (io s) (<[id := c]> (cursors s)).

Section Handler.
(** The largest transfer, READ_DIR_ATTR, the process's identity, the case probe
    of each share root, and Unicode's simple folding. *)
Context (MaxIOSize : Z) (AAPLReadDirAttr : bool) (ident : posixIdentity) (shareCaseProbe : bytes -> bool * bool) (SimpleFold : Z -> Z).

(** [Info()]: of a listed entry an [lstat] below the directory it was read from. *)
Definition Info (dir : bytes) (e : dirEntry) : prog (fileInfo + errno) :=
  match e with
  | Synthetic _ i => mret (inl i)
  | Listed n => sys (Lstat (dir ++ Vfs.slash :: n))
  end.

Definition caseSensitive (o : Io.Open) : bool :=
  Aapl.shareCaseSensitive (shareCaseProbe (Vfs.Clean (match Io.Share o with Some sh => Config.sPath sh | None => [] end))) (Io.Share o).

(** Names with a colon are hidden, the rest matched. *)
Definition filtered (o : Io.Open) (pattern : bytes) (all : list dirEntry) : list dirEntry :=
  let pattern := if bool_decide (pattern = []) then Config.lit "*" else pattern in
  List.filter (fun e => negb (bool_decide (z2b 0x3A ∈ Name e)) && bool_decide (Wildcard.matchSMBPattern SimpleFold pattern (Name e) (caseSensitive o) = Some true)) all.

Definition enumerate (o : Io.Open) (pattern : bytes) : prog (list dirEntry + errno) :=
  entries ← sys (ReadDir (Io.Path o));
  match entries with
  | inr e => mret (inr e)
  | inl entries =>
      dirInfo ← sys (Lstat (Io.Path o));
      parentInfo ← sys (Lstat (Vfs.Dir (Io.Path o)));
      let dot := match dirInfo with inl i => [Synthetic Vfs.dot i] | inr _ => [] end in
      let dotdot := match parentInfo, dirInfo with inl i, _ | inr _, inl i => [Synthetic Vfs.dotdot i] | _, _ => [] end in
      mret (inl (filtered o pattern (dot ++ dotdot ++ map Listed entries)))
  end.

(** The record of one entry, with its own system calls; [None] for one that is
    gone. *)
Definition encode_entry (o : Io.Open) (infoClass : Z) (useAAPL : bool) (e : dirEntry) : prog (option (res (option bytes))) :=
  let readOnlyShare := Io.on_readonly o in
  info ← (if negb (infoClass =? InfoFileNamesInformation) then i ← Info (Io.Path o) e; mret (match i with inl i => Some (Some i) | inr _ => None end) else mret (Some None)
          : prog (option (option fileInfo)));
  match info with
  | None => mret None
  | Some info =>
      match info with
      | Some i =>
          if useAAPL then
            let entryPath := Vfs.Join (Io.Path o) (Name e) in
            let granted := dirEntryAccessMask (Some (Z.land (Mode i) 0x1FF, Uid i, Gid i)) ident readOnlyShare in
            let maxAccess := if negb (granted =? 0) then granted else shareAccessCeiling readOnlyShare in
            rforkSize ← (if negb (IsDir i) then n ← streamXattrSize entryPath Aapl.rforkStreamName; mret (match n with inl n => n | inr _ => 0 end) else mret 0 : prog Z);
            raw ← readAFPFinderInfo entryPath;
            let finderInfo := match raw with Some fi => compressedFinderInfo fi | None => zeros 16 end in
            mret (Some (encodeDirRecordFinderInfo (Name e) info infoClass useAAPL maxAccess rforkSize finderInfo))
          else mret (Some (encodeDirRecordFinderInfo (Name e) info infoClass useAAPL (shareAccessCeiling readOnlyShare) 0 (zeros 16)))
      | None => mret (Some (encodeDirRecordFinderInfo (Name e) None infoClass useAAPL (shareAccessCeiling readOnlyShare) 0 (zeros 16)))
      end
  end.

(** The loop over the entries from the cursor on: the buffer, how many entries
    were consumed, how many encoded; [None] is [errUnsupportedDirInfoClass]. *)
Fixpoint encode_loop (o : Io.Open) (maxBytes infoClass limit fixed : Z) (useAAPL : bool) (ents : list dirEntry)
    (i : nat) (out : bytes) (prevStart : Z) (consumed : nat) (encoded : Z) : prog (res (option (bytes * nat * Z))) :=
  match ents with
  | [] => mret (Ok (Some (out, consumed, encoded)))
  | e :: ents =>
      if limit <=? encoded then mret (Ok (Some (out, consumed, encoded))) else
      if maxBytes <? len out + Chain.padTo8 (fixed + Names.utf16leLen (Name e)) then mret (Ok (Some (out, consumed, encoded))) else
      r ← encode_entry o infoClass useAAPL e;
      match r with
      | None => encode_loop o maxBytes infoClass limit fixed useAAPL ents (S i) out prevStart (S i) encoded
      | Some (Ok (Some rec)) =>
          let padded := Chain.padTo8 (len rec) in
          if maxBytes <? len out + padded then mret (Ok (Some (out, consumed, encoded))) else
          let linked := if 0 <? encoded then splice prevStart (le32 (len out - prevStart)) out else out in
          encode_loop o maxBytes infoClass limit fixed useAAPL ents (S i) (linked ++ rec ++ zeros (padded - len rec)) (len out) (S i) (encoded + 1)
      | Some (Ok None) => mret (Ok None)
      | Some (Err e) => mret (Err e)
      | Some Panic => mret Panic
      end
  end.

Definition encodeDirEntriesLimited (o : Io.Open) (c : cursor) (maxBytes infoClass limit : Z) (useAAPL : bool) : prog (res (option (bytes * nat * Z))) :=
  match dirRecordFixedSize infoClass with
  | None => mret (Ok None)
  | Some fixed => encode_loop o maxBytes infoClass limit fixed useAAPL (drop (dirSent c) (dirEntries c)) 0 [] 0 0 0
  end.

(** The entries are there: the next of them, and the cursor moved past them. *)
Definition list_more (s : dirState) (id : Z) (o : Io.Open) (req : QueryDir.QueryDirectoryRequest) (c : cursor) : prog (dirState * Io.answer) :=
  if bool_decide (dirEntries c = []) then Io.respondError s StatusNoSuchFile else
  if bool_decide (length (dirEntries c) <= dirSent c)%nat then Io.respondError s StatusNoMoreFiles else
  let limit := if negb (Z.land (QueryDir.Flags req) QueryDirReturnSingleEntry =? 0) then 1 else len (dirEntries c) - Z.of_nat (dirSent c) in
  let useAAPL := AAPLReadDirAttr && match Io.Share o with Some sh => negb (bool_decide (Config.sPath sh = [])) | None => false end &&
    (QueryDir.FileInformationClass req =? InfoFileIdBothDirectoryInformation) in
  r ← encodeDirEntriesLimited o c (QueryDir.OutputBufferLength req) (QueryDir.FileInformationClass req) limit useAAPL;
  match r with
  | Ok (Some (buf, consumed, encoded)) =>
      let c := mkCursor (dirEntries c) (dirSent c + consumed) in
      let s := set_cursor s id c in
      if encoded =? 0 then Io.respondError s (if bool_decide (length (dirEntries c) <= dirSent c)%nat then StatusNoMoreFiles else StatusInfoLengthMismatch)
      else Io.respondSuccess s (QueryDir.EncodeQueryDirectoryResponse buf)
  | Ok None => Io.respondError s StatusInvalidInfoClass
  | Err _ => Io.respondError s StatusInternalError
  | Panic => mret (s, Io.Crash)
  end.

Definition handleQueryDirectory (s : dirState) (body : bytes) : prog (dirState * Io.answer) :=
  match QueryDir.DecodeQueryDirectoryRequest body with
  | Ok req =>
      match Io.GetOpen (io s) (QueryDir.FileID req) with
      | None => Io.respondError s StatusInvalidParameter
      | Some (id, o) =>
          if negb (Io.IsDir o) then Io.respondError s StatusInvalidParameter else
          if negb (MaxIOSize =? 0) && (MaxIOSize <? QueryDir.OutputBufferLength req) then Io.respondError s StatusInvalidParameter else
          if negb (supportedDirInfoClass (QueryDir.FileInformationClass req)) then Io.respondError s StatusInvalidInfoClass else
          let enumerated := if negb (Z.land (QueryDir.Flags req) QueryDirRestartScans =? 0) then None else cursors s !! id in
          match enumerated with
          | Some c => list_more s id o req c
          | None =>
              r ← enumerate o (QueryDir.FileName req);
              match r with
              | inr e => Io.respondError s (statusFromErr (Some e))
              | inl es => let c := mkCursor es 0 in list_more (set_cursor s id c) id o req c
              end
          end
      end
  | _ => Io.respondError s StatusInvalidParameter
  end.
End Handler.

(** ** A record read back *)

Definition nameLenOff (infoClass : Z) : Z := if infoClass =? InfoFileNamesInformation then 8 else 60.

(** [rec] is a record with the name [n] behind [fixed] bytes, not linked yet. *)
Record record_ok (infoClass fixed : Z) (n rec : bytes) : Prop := {
  rec_len : len rec = fixed + len n;
  rec_next : get rec 0 4 = zeros 4;
  rec_nameLen : le_combine (get rec (nameLenOff infoClass) 4) = len n;
  rec_name : get rec fixed (len n) = n }.

Lemma fixed_offsets infoClass fixed : dirRecordFixedSize infoClass = Some fixed -> 4 <= nameLenOff infoClass /\ nameLenOff infoClass + 4 <= fixed.
Proof. unfold dirRecordFixedSize, nameLenOff. repeat case_match; intros [= <-]; lia. Qed.

Lemma fits_app n ps qs : fits n ps -> fits n qs -> fits n (ps ++ qs).
Proof. apply Forall_app_2. Qed.

Lemma stat_fields_fits fixed info n : 64 <= fixed -> fits fixed (stat_fields info n).
Proof. intros Hf. unfold stat_fields. destruct (IsDir info); fits_tac. Qed.

Lemma stat_record fixed info n extra : 64 <= fixed -> 0 <= n < 2 ^ 32 -> fits fixed extra -> Forall (fun p => 64 <= p.1) extra ->
  let w := writes (zeros fixed) (stat_fields info n ++ extra) in len w = fixed /\ get w 0 4 = zeros 4 /\ le_combine (get w 60 4) = n.
Proof.
  intros Hf Hn He Hx. cbv zeta. pose proof (fits_app _ _ _ (stat_fields_fits fixed info n Hf) He) as Hfit.
  assert (Hz : len (zeros fixed) = fixed) by (apply len_zeros; lia).
  assert (Ha : forall off, off + 4 <= 64 -> Forall (apart off 4) extra) by (intros off Ho; apply (Forall_impl _ _ _ Hx); intros p Hp; left; lia).
  split; [by apply len_writes|]. split.
  - rewrite get_writes_apart; [by apply get_zeros; lia|by rewrite Hz|lia|lia|]. apply Forall_app_2; [unfold stat_fields; aparts|by apply Ha].
  - rewrite (get_writes_at _ _ 7 60 (le32 n)); [by apply (le_combine_le_split 4 _ (2 ^ 32))|done|by rewrite Hz|done|by apply Ha].
Qed.

Lemma encode_record_spec name info infoClass useAAPL maxAccess rforkSize finderInfo fixed : dirRecordFixedSize infoClass = Some fixed ->
  len (Names.utf16leName name) < 2 ^ 32 -> len finderInfo = 16 -> (infoClass <> InfoFileNamesInformation -> info <> None) ->
  exists rec, encodeDirRecordFinderInfo name info infoClass useAAPL maxAccess rforkSize finderInfo = Ok (Some rec) /\ record_ok infoClass fixed (Names.utf16leName name) rec.
Proof.
  intros Hfix Hn Hfi Hinfo. pose proof (len_nonneg (Names.utf16leName name)) as Hn0. unfold encodeDirRecordFinderInfo. set (n := Names.utf16leName name) in *. cbv zeta.
  assert (Hok : forall w, len w = fixed -> get w 0 4 = zeros 4 -> le_combine (get w (nameLenOff infoClass) 4) = len n -> record_ok infoClass fixed n (w ++ n)).
  { pose proof (fixed_offsets _ _ Hfix). intros w Hw H0 Hl. split; [by rewrite len_app, Hw| | |].
    - by rewrite get_app_l by lia.
    - by rewrite get_app_l by lia.
    - rewrite get_app_r by lia. rewrite Hw. replace (fixed - fixed) with 0 by lia. by apply get_all. }
  rewrite Hfix. destruct (Z.eq_dec infoClass InfoFileNamesInformation) as [->|Hne].
  - injection Hfix as <-. eexists. split; [reflexivity|]. apply Hok; [apply (len_writes _ _ 12); [fits_tac|done]|..].
    + by rewrite get_writes_apart by first [done|fits_tac|aparts|lia].
    + unfold nameLenOff. cbn -[get writes]. rewrite (get_writes_at _ _ 0 8 (le32 (len n))) by first [done|fits_tac]. by apply (le_combine_le_split 4 _ (2 ^ 32)).
  - specialize (Hinfo Hne). destruct info as [info|]; [|done]. unfold record_writes. rewrite (proj2 (Z.eqb_neq _ _) Hne).
    assert (Hsup : supportedDirInfoClass infoClass = true).
    { unfold dirRecordFixedSize in Hfix. unfold supportedDirInfoClass. repeat case_match; first [done|by rewrite ?orb_true_r|lia]. }
    rewrite Hsup. cbn [negb mbind outcome_bind]. eexists. split; [reflexivity|].
    assert (H64 : 64 <= fixed) by (unfold dirRecordFixedSize in Hfix; rewrite (proj2 (Z.eqb_neq _ _) Hne) in Hfix; repeat case_match; try discriminate; injection Hfix as <-; lia).
    set (extra := if infoClass =? InfoFileIdBothDirectoryInformation then _ else _).
    assert (Hx : fits fixed extra /\ Forall (fun p => 64 <= p.1) extra).
    { unfold extra, dirRecordFixedSize in *. clear - Hfix Hfi. unfold id_both_fields, InfoFileDirectoryInformation, InfoFileFullDirectoryInformation, InfoFileNamesInformation,
        InfoFileBothDirectoryInformation, InfoFileIdFullDirectoryInformation, InfoFileIdBothDirectoryInformation in *.
      repeat case_match; try discriminate; injection Hfix as <-; try lia; (split; [fits_tac|repeat (apply Forall_cons; split; [cbn [fst snd]; lia|]); by apply Forall_nil]). }
    destruct Hx as [Hx1 Hx2]. destruct (stat_record fixed info (len n) extra H64 ltac:(lia) Hx1 Hx2) as (H1 & H2 & H3). apply Hok; [done..|].
    unfold nameLenOff. by rewrite (proj2 (Z.eqb_neq _ _) Hne).
Qed.

(** ** The chain of records *)

Definition padded (rec : bytes) : bytes := rec ++ zeros (Chain.padTo8 (len rec) - len rec).
Definition linked (last : bool) (rec : bytes) : bytes := if last then padded rec else splice 0 (le32 (len (padded rec))) (padded rec).
Fixpoint chain (recs : list bytes) : bytes :=
  match recs with [] => [] | r :: recs => linked (bool_decide (recs = [])) r ++ chain recs end.
Definition front (recs : list bytes) : bytes := concat (map (linked false) recs).

Lemma len_padded rec : len (padded rec) = Chain.padTo8 (len rec).
Proof. pose proof (Chain.padTo8_spec (len rec) (len_nonneg rec)). unfold padded. rewrite len_app, len_zeros; lia. Qed.

Lemma len_linked last rec : 4 <= len rec -> len (linked last rec) = Chain.padTo8 (len rec).
Proof.
  intros H. pose proof (Chain.padTo8_spec (len rec) (len_nonneg rec)). unfold linked. destruct last; [apply len_padded|].
  rewrite len_splice; rewrite ?len_padded, ?(len_le_split 4); lia.
Qed.

Lemma chain_snoc recs r : chain (recs ++ [r]) = front recs ++ padded r.
Proof.
  induction recs as [|r' recs IH]; [cbn; by rewrite app_nil_r|]. cbn [app chain]. rewrite IH. unfold front. cbn [map concat].
  rewrite bool_decide_eq_false_2 by (by destruct recs). by rewrite app_assoc.
Qed.

Lemma front_snoc recs r : front (recs ++ [r]) = front recs ++ linked false r.
Proof. unfold front. rewrite map_app, concat_app. cbn. by rewrite app_nil_r. Qed.

(** Linking the record before the one that is appended. *)
Lemma chain_link recs r r' : 4 <= len r ->
  splice (len (front recs)) (le32 (len (chain (recs ++ [r])) - len (front recs))) (chain (recs ++ [r])) ++ padded r' = chain (recs ++ [r; r']).
Proof.
  intros Hr. rewrite (chain_snoc recs r). replace (recs ++ [r; r']) with ((recs ++ [r]) ++ [r']) by (by rewrite <- app_assoc). rewrite (chain_snoc (recs ++ [r])), front_snoc. f_equal.
  rewrite len_app. replace (len (front recs) + len (padded r) - len (front recs)) with (len (padded r)) by lia.
  pose proof (Chain.padTo8_spec (len r) (len_nonneg r)) as Hp. pose proof (len_padded r) as Hl. unfold linked, splice. set (d := le32 _).
  assert (Hd : length d = 4%nat) by (apply length_le_split).
  assert (Hn : Z.to_nat (len (front recs)) = length (front recs)) by (unfold len; lia). rewrite Hn, take_app_length. f_equal.
  change (Z.to_nat 0) with 0%nat. cbn [take]. rewrite app_nil_l. apply (f_equal (app d)). rewrite drop_app_ge by lia. replace (length (front recs) + length d - length (front recs))%nat with (length d) by lia. done.
Qed.

(** A client's reading of the chain: the names, by [NextEntryOffset]. *)
Fixpoint read_names (fuel : nat) (infoClass fixed : Z) (buf : bytes) (off : Z) : res (list bytes) :=
  match fuel with
  | O => Panic
  | S fuel =>
      next ← u32 buf off;
      n ← u32 buf (off + nameLenOff infoClass);
      name ← slice buf (off + fixed) (off + fixed + n);
      if next =? 0 then Ok [name] else
      names ← read_names fuel infoClass fixed buf (off + next);
      Ok (name :: names)
  end.
Definition read_listing (infoClass : Z) (buf : bytes) : res (list bytes) :=
  match dirRecordFixedSize infoClass with
  | Some fixed => read_names (S (length buf)) infoClass fixed buf 0
  | None => Panic
  end.

Section Chains.
Context (infoClass fixed : Z) (Hfix : dirRecordFixedSize infoClass = Some fixed).

Lemma linked_fields last n rec : record_ok infoClass fixed n rec -> len rec + 8 < 2 ^ 32 ->
  le_combine (get (linked last rec) 0 4) = (if last then 0 else len (linked last rec)) /\
  le_combine (get (linked last rec) (nameLenOff infoClass) 4) = len n /\ get (linked last rec) fixed (len n) = n.
Proof.
  intros [H1 H2 H3 H4] Hb. pose proof (fixed_offsets _ _ Hfix) as [Ho1 Ho2]. pose proof (len_nonneg n). pose proof (Chain.padTo8_spec (len rec) (len_nonneg rec)) as [Hp _].
  assert (Hpad : forall k m, 0 <= k -> 0 <= m -> k + m <= len rec -> get (padded rec) k m = get rec k m) by (intros; unfold padded; by apply get_app_l).
  rewrite len_linked by lia. unfold linked. destruct last.
  - rewrite !Hpad, H2, H3, H4 by lia. done.
  - pose proof (len_padded rec). assert (L4 : forall v, len (le32 v) = 4) by (intros v; apply (len_le_split 4)).
    rewrite (get_splice_eq 0) by (rewrite ?L4; lia). rewrite (get_splice_ne 0 _ _ (nameLenOff infoClass)), (get_splice_ne 0 _ _ fixed) by (rewrite ?L4; lia).
    rewrite !Hpad, H3, H4 by lia. split; [|done]. rewrite (le_combine_le_split 4 _ (2 ^ 32)) by first [done|lia]. lia.
Qed.

Lemma read_chain names recs : Forall2 (record_ok infoClass fixed) names recs -> recs <> [] -> Forall (fun r => len r + 8 < 2 ^ 32) recs ->
  forall pre fuel, (length recs <= fuel)%nat -> read_names fuel infoClass fixed (pre ++ chain recs) (len pre) = Ok names.
Proof.
  pose proof (fixed_offsets _ _ Hfix) as [Ho1 Ho2].
  induction 1 as [|n r names recs Hr Hrs IH]; [done|]. intros _ Hb pre [|fuel] Hf; cbn [length] in Hf; [lia|]. apply Forall_cons in Hb as [Hb Hbs].
  pose proof (len_nonneg pre) as Hpre. pose proof (len_nonneg n) as Hn0. pose proof (rec_len _ _ _ _ Hr) as Hlen. pose proof (Chain.padTo8_spec (len r) (len_nonneg r)) as [Hp _].
  cbn [chain read_names]. set (last := bool_decide (recs = [])). destruct (linked_fields last n r Hr Hb) as (F0 & FL & FN).
  pose proof (len_linked last r ltac:(lia)) as Hll. set (e := linked last r) in *. set (post := chain recs) in *. pose proof (len_nonneg post).
  assert (Hm : forall k m, 0 <= k -> 0 <= m -> k + m <= len e -> get (pre ++ e ++ post) (len pre + k) m = get e k m) by (intros; by apply get_mid).
  assert (Hlen' : len (pre ++ e ++ post) = len pre + len e + len post) by (rewrite !len_app; lia).
  rewrite (u32_Ok _ (len pre)) by lia. cbn [mbind outcome_bind]. pose proof (Hm 0 4) as Hm0. rewrite Z.add_0_r in Hm0. rewrite Hm0, F0 by lia.
  rewrite u32_Ok by lia. cbn [mbind outcome_bind]. rewrite Hm, FL by lia. rewrite slice_Ok by lia. cbn [mbind outcome_bind].
  replace (len pre + fixed + len n - (len pre + fixed)) with (len n) by lia. rewrite Hm, FN by lia.
  unfold last in *. destruct recs as [|r' recs].
  - inversion Hrs. subst. done.
  - change (bool_decide (r' :: recs = [])) with false. cbn iota. rewrite (proj2 (Z.eqb_neq _ _)) by lia. rewrite app_assoc, <- len_app.
    unfold post. rewrite (IH ltac:(done) Hbs) by lia. done.
Qed.

Lemma chain_length recs : Forall (fun r => 4 <= len r) recs -> (length recs <= length (chain recs))%nat.
Proof.
  induction 1 as [|r recs Hr _ IH]; [done|]. cbn [chain length]. rewrite length_app.
  pose proof (len_linked (bool_decide (recs = [])) r Hr) as Hl. pose proof (Chain.padTo8_spec (len r) (len_nonneg r)) as [Hp _]. unfold len in *. lia.
Qed.

Lemma read_listing_chain names recs : Forall2 (record_ok infoClass fixed) names recs -> recs <> [] -> Forall (fun r => len r + 8 < 2 ^ 32) recs ->
  read_listing infoClass (chain recs) = Ok names.
Proof.
  intros H Hne Hb. unfold read_listing. rewrite Hfix. apply (read_chain names recs H Hne Hb [] (S (length (chain recs)))).
  pose proof (fixed_offsets _ _ Hfix) as [Ho1 Ho2]. assert (Forall (fun r => 4 <= len r) recs); [|by apply Nat.le_le_succ_r, chain_length].
  clear Hb Hne. induction H as [|n r names recs Hr _ IH]; [constructor|]. constructor; [|done]. pose proof (len_nonneg n). rewrite (rec_len _ _ _ _ Hr). lia.
Qed.
End Chains.

(** ** One call, on the path a kernel takes *)

Lemma run_bind_answer {A B} kernel (p : prog A) (k : A -> prog B) : (run kernel (p ≫= k)).2 = (run kernel (k (run kernel p).2)).2.
Proof. rewrite run_bind. destruct (run kernel p) as [cs a]. cbn [snd]. by destruct (run kernel (k a)). Qed.

Lemma run_sys_answer {B} kernel c (k : result c -> prog B) : (run kernel (sys c ≫= k)).2 = (run kernel (k (kernel c))).2.
Proof. rewrite run_sys. by destruct (run kernel (k (kernel c))). Qed.

Lemma run_ret_answer {A} kernel (a : A) : (run kernel (mret a)).2 = a.
Proof. done. Qed.

Lemma run_if {A} kernel (b : bool) (p q : prog A) : run kernel (if b then p else q) = if b then run kernel p else run kernel q.
Proof. by destruct b. Qed.

Lemma omap_cons {A B} (f : A -> option B) x l : omap f (x :: l) = match f x with Some y => y :: omap f l | None => omap f l end.
Proof. done. Qed.

Section Listing.
Context (ident : posixIdentity) (kernel : forall c, result c) (o : Io.Open) (infoClass fixed : Z) (useAAPL : bool) (Hfix : dirRecordFixedSize infoClass = Some fixed).

(** The entries a listing shows: those whose stat is there, where it is needed. *)
Definition visible (e : dirEntry) : bool :=
  (infoClass =? InfoFileNamesInformation) || match (run kernel (Info (Io.Path o) e)).2 with inl _ => true | inr _ => false end.

Definition wire_name (e : dirEntry) : bytes := Names.utf16leName (Name e).

Lemma readAFPFinderInfo_size p : match (run kernel (readAFPFinderInfo p)).2 with Some fi => len fi = finderInfoSize | None => True end.
Proof.
  unfold readAFPFinderInfo. cbv zeta. rewrite (run_sys_answer kernel (Getxattr p (streamXattrName afpInfoStreamName) afpInfoSize)).
  assert (Hfi : forall b, match (if len b <? afpInfoFinderOffset + finderInfoSize then None else Some (get b afpInfoFinderOffset finderInfoSize)) with Some fi => len fi = finderInfoSize | None => True end).
  { intros b. destruct (Z.ltb_spec (len b) (afpInfoFinderOffset + finderInfoSize)); [done|]. unfold afpInfoFinderOffset, finderInfoSize in *. apply len_get; lia. }
  destruct (kernel (Getxattr p (streamXattrName afpInfoStreamName) afpInfoSize)) as [b|[]]; try done; [apply Hfi|]. rewrite run_bind_answer.
  destruct (run kernel (getxattr _ _)).2 as [[b|]|]; try done. apply Hfi.
Qed.

Lemma len_compressed fi : len fi = finderInfoSize -> len (compressedFinderInfo fi) = 16.
Proof. unfold finderInfoSize, compressedFinderInfo. intros H. rewrite !len_app, !len_get by lia. done. Qed.

(** An entry's record: none for one that is gone, and a whole one otherwise. *)
Lemma dir_encode_entry_spec e : len (wire_name e) < 2 ^ 32 ->
  if visible e then exists rec, (run kernel (encode_entry ident o infoClass useAAPL e)).2 = Some (Ok (Some rec)) /\ record_ok infoClass fixed (wire_name e) rec
  else (run kernel (encode_entry ident o infoClass useAAPL e)).2 = None.
Proof.
  intros Hn. unfold visible, encode_entry, wire_name in *. cbv zeta. rewrite run_bind_answer, run_if.
  assert (Hrec : forall info a m r fi, len fi = 16 -> (infoClass <> InfoFileNamesInformation -> info <> None) ->
    exists rec, Some (encodeDirRecordFinderInfo (Name e) info infoClass a m r fi) = Some (Ok (Some rec)) /\ record_ok infoClass fixed (Names.utf16leName (Name e)) rec).
  { intros info a m r fi Hfi Hi. destruct (encode_record_spec (Name e) info infoClass a m r fi fixed Hfix Hn Hfi Hi) as (rec & -> & Hok). by exists rec. }
  destruct (Z.eqb_spec infoClass InfoFileNamesInformation) as [He|Hne]; cbn [negb orb]; [by apply Hrec|].
  rewrite run_bind_answer. destruct (run kernel (Info (Io.Path o) e)).2 as [i|er]; [|done]. rewrite run_ret_answer, run_if. destruct useAAPL; [|by apply Hrec].
  rewrite !run_bind_answer. apply Hrec; [|done]. pose proof (readAFPFinderInfo_size (Vfs.Join (Io.Path o) (Name e))) as Hs.
  destruct (run kernel (readAFPFinderInfo _)).2; [by apply len_compressed|done].
Qed.

(** The records of some entries, in order. *)
Definition record_of (e : dirEntry) : option bytes := match (run kernel (encode_entry ident o infoClass useAAPL e)).2 with Some (Ok r) => r | _ => None end.
Definition names_of (es : list dirEntry) : list bytes := map wire_name (List.filter visible es).

Lemma records_ok es : Forall (fun e => len (wire_name e) < 2 ^ 32) es -> Forall2 (record_ok infoClass fixed) (names_of es) (omap record_of es).
Proof.
  unfold names_of. induction 1 as [|e es He _ IH]; [constructor|]. rewrite omap_cons. cbn [List.filter]. unfold record_of at 1. pose proof (dir_encode_entry_spec e He) as Hs.
  destruct (visible e).
  - destruct Hs as (rec & -> & Hok). cbn [map]. by constructor.
  - by rewrite Hs.
Qed.

(** Where the loop stops: at the end, at the limit, or before an entry that does
    not fit. *)
Definition stops (maxBytes limit : Z) (ents : list dirEntry) (recs : list bytes) (k : nat) : Prop :=
  k = length ents \/ limit <= len (omap record_of (take k ents)) + len recs \/
  exists e, ents !! k = Some e /\ maxBytes < len (chain (recs ++ omap record_of (take k ents))) + Chain.padTo8 (fixed + len (wire_name e)).

(** [prev] is where the last record starts. *)
Definition starts (recs : list bytes) (prev : Z) : Prop := recs = [] \/ exists rs r, recs = rs ++ [r] /\ prev = len (front rs).

Lemma chain_extend recs rec prev : starts recs prev -> Forall (fun r => 4 <= len r) recs ->
  (if 0 <? len recs then splice prev (le32 (len (chain recs) - prev)) (chain recs) else chain recs) ++ padded rec = chain (recs ++ [rec]) /\
  starts (recs ++ [rec]) (len (chain recs)).
Proof.
  intros [->|(rs & r & -> & ->)] Hl.
  - split; [cbn; by rewrite app_nil_r|]. right. by exists [], rec.
  - apply Forall_app in Hl as [_ Hl]. rewrite Forall_singleton in Hl. assert (Hpos : 0 < len (rs ++ [r])) by (unfold len; rewrite length_app; cbn [length]; lia). rewrite (proj2 (Z.ltb_lt _ _) Hpos).
    split; [rewrite (chain_link rs r rec Hl); f_equal; by rewrite <- app_assoc|]. right. exists (rs ++ [r]), rec. split; [done|]. rewrite chain_snoc, front_snoc, !len_app, len_padded, len_linked by done. done.
Qed.

Lemma len_chain_snoc recs rec : Forall (fun r => 4 <= len r) recs -> len (chain (recs ++ [rec])) = len (chain recs) + Chain.padTo8 (len rec).
Proof.
  intros Hl. rewrite chain_snoc, len_app, len_padded. f_equal. destruct recs as [|r recs _] using rev_ind; [done|]. apply Forall_app in Hl as [_ Hl]. rewrite Forall_singleton in Hl.
  rewrite chain_snoc, front_snoc, !len_app, len_padded, len_linked by done. done.
Qed.

Lemma encode_loop_spec maxBytes limit : maxBytes < 2 ^ 32 ->
  forall ents i recs prev, starts recs prev -> Forall (fun r => 4 <= len r) recs -> len (chain recs) <= maxBytes ->
  exists k, (k <= length ents)%nat /\
    (run kernel (encode_loop ident o maxBytes infoClass limit fixed useAAPL ents i (chain recs) prev i (len recs))).2 =
      Ok (Some (chain (recs ++ omap record_of (take k ents)), (i + k)%nat, len recs + len (omap record_of (take k ents)))) /\
    stops maxBytes limit ents recs k /\ len (chain (recs ++ omap record_of (take k ents))) <= maxBytes /\
    Forall (fun e => fixed + len (wire_name e) <= maxBytes) (take k ents).
Proof.
  intros HM. pose proof (fixed_offsets _ _ Hfix) as [Ho1 Ho2].
  assert (Hend : forall ents i recs, len (chain recs) <= maxBytes -> stops maxBytes limit ents recs 0 -> exists k, (k <= length ents)%nat /\
    Ok (Some (chain recs, i, len recs)) = Ok (E := err) (Some (chain (recs ++ omap record_of (take k ents)), (i + k)%nat, len recs + len (omap record_of (take k ents)))) /\
    stops maxBytes limit ents recs k /\ len (chain (recs ++ omap record_of (take k ents))) <= maxBytes /\
    Forall (fun e => fixed + len (wire_name e) <= maxBytes) (take k ents)).
  { intros ents i recs Hb Hs. exists 0%nat. split; [lia|]. rewrite take_0. change (omap record_of []) with (@nil bytes). rewrite app_nil_r, len_nil, Nat.add_0_r, Z.add_0_r. done. }
  induction ents as [|e ents IH]; intros i recs prev Hst Hl Hb; cbn [encode_loop].
  { rewrite run_ret_answer. apply Hend; [done|by left]. }
  rewrite run_if. destruct (Z.leb_spec limit (len recs)) as [Hlim|Hlim].
  { rewrite run_ret_answer. apply (Hend (e :: ents)); [done|]. right; left. rewrite take_0. change (omap record_of []) with (@nil bytes). rewrite len_nil. lia. }
  rewrite run_if. rewrite Names.utf16leLen_spec. fold (wire_name e). pose proof (len_nonneg (wire_name e)) as Hn0. pose proof (len_nonneg (chain recs)) as Hc0.
  destruct (Chain.padTo8_spec (fixed + len (wire_name e)) ltac:(lia)) as [Hpad _].
  destruct (Z.ltb_spec maxBytes (len (chain recs) + Chain.padTo8 (fixed + len (wire_name e)))) as [Hbig|Hbig].
  { rewrite run_ret_answer. apply (Hend (e :: ents)); [done|]. right; right. exists e. rewrite take_0. change (omap record_of []) with (@nil bytes). by rewrite app_nil_r. }
  rewrite run_bind_answer. pose proof (dir_encode_entry_spec e ltac:(lia)) as Hs. assert (Hrec : record_of e = match (run kernel (encode_entry ident o infoClass useAAPL e)).2 with Some (Ok r) => r | _ => None end) by done.
  destruct (visible e).
  - destruct Hs as (rec & He & Hok). rewrite He in Hrec |- *. pose proof (rec_len _ _ _ _ Hok) as Hlen. rewrite run_if, Hlen. rewrite (proj2 (Z.ltb_ge _ _)) by lia.
    destruct (chain_extend recs rec prev Hst Hl) as [Hc Hst']. fold (padded rec). replace (rec ++ zeros (Chain.padTo8 (fixed + len (wire_name e)) - (fixed + len (wire_name e)))) with (padded rec) by (unfold padded; by rewrite Hlen).
    rewrite Hc. replace (len recs + 1) with (len (recs ++ [rec])) by (rewrite len_app, len_cons, len_nil; lia).
    destruct (IH (S i) (recs ++ [rec]) (len (chain recs))) as (k & Hk & Hrun & Hstop & Hbd & Hfit); [done|apply Forall_app_2; [done|apply Forall_singleton; lia]|rewrite len_chain_snoc, Hlen by done; lia|].
    exists (S k). cbn [length take]. rewrite omap_cons, Hrec.
    rewrite <- app_assoc in Hrun, Hbd. cbn [app] in Hrun, Hbd. split; [lia|]. split.
    { rewrite Hrun. rewrite len_app, !len_cons, len_nil. do 3 f_equal; [f_equal; lia|lia]. }
    split; [|split; [done|constructor; [lia|done]]].
    destruct Hstop as [->|[H|(e' & He' & H)]]; [by left|right; left|right; right].
    + cbn [take]. rewrite omap_cons, Hrec. rewrite len_app, len_cons, len_nil in H. rewrite len_cons. lia.
    + exists e'. split; [done|]. cbn [take]. rewrite omap_cons, Hrec. by rewrite <- app_assoc in H.
  - rewrite Hs in Hrec |- *. destruct (IH (S i) recs prev Hst Hl Hb) as (k & Hk & Hrun & Hstop & Hbd & Hfit).
    exists (S k). cbn [length take]. rewrite omap_cons, Hrec.
    split; [lia|]. split; [rewrite Hrun; do 3 f_equal; f_equal; lia|]. split; [|split; [done|constructor; [lia|done]]].
    destruct Hstop as [->|[H|(e' & He' & H)]]; [by left|right; left|right; right].
    + cbn [take]. by rewrite omap_cons, Hrec.
    + exists e'. split; [done|]. cbn [take]. by rewrite omap_cons, Hrec.
Qed.
End Listing.

(** ** A listing, call by call *)

Section Calls.
Context (MaxIOSize : Z) (AAPLReadDirAttr : bool) (ident : posixIdentity) (shareCaseProbe : bytes -> bool * bool) (SimpleFold : Z -> Z).
Abbreviation handle := (handleQueryDirectory MaxIOSize AAPLReadDirAttr ident shareCaseProbe SimpleFold).

(** What one call answers, the entries [es] being there and the cursor at [d]:
    the entries that follow, as many as fit, each once and in order; those that
    are gone are passed over. *)
Record listed (kernel : forall c, result c) (s : dirState) (id : Z) (o : Io.Open) (req : QueryDir.QueryDirectoryRequest) (es : list dirEntry) (d k : nat) (r : dirState * Io.answer) : Prop := {
  listed_range : (d + k <= length es)%nat;
  listed_cursor : r.1 = set_cursor s id (mkCursor es (d + k));
  listed_names : let ns := names_of kernel o (QueryDir.FileInformationClass req) (take k (drop d es)) in
    if decide (ns = [])
    then r.2 = Io.Reply (if bool_decide (length es <= d + k)%nat then StatusNoMoreFiles else StatusInfoLengthMismatch) Dispatch.errBody
    else exists buf, r.2 = Io.Reply StatusSuccess (QueryDir.EncodeQueryDirectoryResponse buf) /\ len buf <= QueryDir.OutputBufferLength req /\
      read_listing (QueryDir.FileInformationClass req) buf = Ok ns;
  (** Where the buffer holds any record on its own, a call moves on. *)
  listed_progress : forall fixed, dirRecordFixedSize (QueryDir.FileInformationClass req) = Some fixed ->
    Forall (fun e => Chain.padTo8 (fixed + len (wire_name e)) <= QueryDir.OutputBufferLength req) es ->
    (0 < k)%nat /\ (names_of kernel o (QueryDir.FileInformationClass req) (take k (drop d es)) = [] -> (d + k)%nat = length es) }.

Lemma supported_fixed infoClass : supportedDirInfoClass infoClass = true -> exists fixed, dirRecordFixedSize infoClass = Some fixed.
Proof.
  unfold supportedDirInfoClass, dirRecordFixedSize. intros H.
  repeat (apply orb_true_iff in H as [H|H]); apply Z.eqb_eq in H as ->; by eexists.
Qed.

Lemma list_more_spec kernel s id o req es d : supportedDirInfoClass (QueryDir.FileInformationClass req) = true -> 0 <= QueryDir.OutputBufferLength req < 2 ^ 32 - 8 -> (d < length es)%nat ->
  exists k, listed kernel s id o req es d k (run kernel (list_more AAPLReadDirAttr ident s id o req (mkCursor es d))).2.
Proof.
  intros Hsup HM Hd. destruct (supported_fixed _ Hsup) as [fixed Hfix]. pose proof (fixed_offsets _ _ Hfix) as [Ho1 Ho2]. unfold list_more. cbn [dirEntries dirSent].
  rewrite bool_decide_eq_false_2 by (intros ->; cbn [length] in Hd; lia). rewrite bool_decide_eq_false_2 by lia. cbv zeta.
  set (limit := if negb _ then 1 else _). set (useAAPL := AAPLReadDirAttr && _ && _).
  assert (Hlim : 1 <= limit) by (unfold limit, len; case_match; lia).
  rewrite run_bind_answer. unfold encodeDirEntriesLimited. rewrite Hfix. cbn [dirEntries dirSent].
  destruct (encode_loop_spec ident kernel o _ fixed useAAPL Hfix (QueryDir.OutputBufferLength req) limit ltac:(lia) (drop d es) 0 [] 0) as (k & Hk & Hrun & Hstop & Hb & Hfit);
    [by left|by apply Forall_nil|change (0 <= QueryDir.OutputBufferLength req); lia|].
  change (len []) with 0 in Hrun. change (chain []) with (@nil Byte.byte) in Hrun. rewrite Hrun. clear Hrun. cbn [app] in *. rewrite Nat.add_0_l, Z.add_0_l. rewrite length_drop in Hk.
  set (recs := omap _ _) in *. set (ns := names_of kernel o (QueryDir.FileInformationClass req) (take k (drop d es))).
  assert (Hok : Forall2 (record_ok (QueryDir.FileInformationClass req) fixed) ns recs).
  { apply records_ok; [done|]. apply (Forall_impl _ _ _ Hfit). intros e He. lia. }
  assert (Hlen : length ns = length recs) by (by apply Forall2_length in Hok).
  assert (Hbig : Forall (fun r => len r + 8 < 2 ^ 32) recs).
  { assert (Hx : Forall (fun n => fixed + len n <= QueryDir.OutputBufferLength req) ns).
    { unfold ns, names_of. apply Forall_map. apply Forall_forall. intros e He. apply list_elem_of_In, filter_In in He as [He _]. rewrite Forall_forall in Hfit. apply Hfit. by apply list_elem_of_In. }
    clear - Hx Hok HM. induction Hok as [|n r ns' recs' Hr _ IH]; [constructor|]. apply Forall_cons in Hx as [Hn Hx]. constructor; [rewrite (rec_len _ _ _ _ Hr); lia|by apply IH]. }
  exists k. assert (Hrange : (d + k <= length es)%nat) by lia.
  destruct (decide (ns = [])) as [He|He].
  - assert (Hr0 : recs = []) by (rewrite He in Hlen; by destruct recs). rewrite Hr0. cbn [len length Z.of_nat]. rewrite Z.eqb_refl. split.
    + done.
    + done.
    + by rewrite decide_True by done.
    + intros fixed' Hf' Hfits. rewrite Hfix in Hf'. injection Hf' as <-. destruct Hstop as [->|[Hl|(e & Hk' & Hl)]].
      * rewrite length_drop. split; [lia|intros _; lia].
      * fold recs in Hl. rewrite Hr0 in Hl. change (limit <= 0) in Hl. lia.
      * fold recs in Hl. rewrite Hr0 in Hl. change (len (chain ([] ++ []))) with 0 in Hl. rewrite lookup_drop in Hk'. apply list_elem_of_lookup_2 in Hk'. rewrite Forall_forall in Hfits. specialize (Hfits e Hk'). lia.
  - assert (Hne : recs <> []) by (intros Hr0; apply He; rewrite Hr0 in Hlen; by destruct ns). rewrite (proj2 (Z.eqb_neq _ _)) by (unfold len; destruct recs; [done|cbn [length]; lia]). split.
    + done.
    + done.
    + rewrite decide_False by done. exists (chain recs). split; [done|]. split; [done|]. by apply (read_listing_chain _ fixed Hfix).
    + intros fixed' Hf' Hfits. split; [|done]. destruct k as [|k]; [|lia]. exfalso. apply Hne. unfold recs. by rewrite take_0.
Qed.
(** A request for a listing of directory handle [id] that goes through. *)
Record listing_of (s : dirState) (body : bytes) (req : QueryDir.QueryDirectoryRequest) (id : Z) (o : Io.Open) : Prop := {
  lo_req : QueryDir.DecodeQueryDirectoryRequest body = Ok req;
  lo_open : Io.GetOpen (io s) (QueryDir.FileID req) = Some (id, o);
  lo_dir : Io.IsDir o = true;
  lo_size : 0 <= QueryDir.OutputBufferLength req < 2 ^ 32 - 8 /\ (MaxIOSize = 0 \/ QueryDir.OutputBufferLength req <= MaxIOSize);
  lo_class : supportedDirInfoClass (QueryDir.FileInformationClass req) = true }.

Lemma handle_listing s body req id o : listing_of s body req id o ->
  handle s body =
    match (if negb (Z.land (QueryDir.Flags req) QueryDirRestartScans =? 0) then None else cursors s !! id) with
    | Some c => list_more AAPLReadDirAttr ident s id o req c
    | None =>
        r ← enumerate shareCaseProbe SimpleFold o (QueryDir.FileName req);
        match r with
        | inr e => Io.respondError s (statusFromErr (Some e))
        | inl es => let c := mkCursor es 0 in list_more AAPLReadDirAttr ident (set_cursor s id c) id o req c
        end
    end.
Proof.
  intros [Hreq Hopen Hdir [HM Hmax] Hsup]. unfold handleQueryDirectory. rewrite Hreq, Hopen, Hdir, Hsup. cbn [negb].
  replace (negb (MaxIOSize =? 0) && (MaxIOSize <? QueryDir.OutputBufferLength req)) with false; [done|].
  symmetry. apply andb_false_iff. rewrite negb_false_iff, Z.eqb_eq, Z.ltb_ge. tauto.
Qed.

(** The client asks again until there is no more: the bodies it got. *)
Fixpoint drain (kernel : forall c, result c) (fuel : nat) (s : dirState) (body : bytes) : option (list bytes) :=
  match fuel with
  | O => None
  | S fuel =>
      match (run kernel (handle s body)).2 with
      | (s', Io.Reply status b) =>
          if status =? StatusSuccess then option_map (cons b) (drain kernel fuel s' body) else if status =? StatusNoMoreFiles then Some [] else None
      | _ => None
      end
  end.

(** Buffers that a client reads as the names, together. *)
Definition lists (infoClass maxBytes : Z) (bodies : list bytes) (names : list bytes) : Prop :=
  exists bufs nss, bodies = map QueryDir.EncodeQueryDirectoryResponse bufs /\ names = concat nss /\
    Forall2 (fun buf ns => len buf <= maxBytes /\ read_listing infoClass buf = Ok ns) bufs nss.

Lemma names_of_app kernel o infoClass es es' : names_of kernel o infoClass (es ++ es') = names_of kernel o infoClass es ++ names_of kernel o infoClass es'.
Proof. unfold names_of. by rewrite List.filter_app, map_app. Qed.

Lemma drain_more kernel body req id o es fixed : Z.land (QueryDir.Flags req) QueryDirRestartScans = 0 -> dirRecordFixedSize (QueryDir.FileInformationClass req) = Some fixed ->
  Forall (fun e => Chain.padTo8 (fixed + len (wire_name e)) <= QueryDir.OutputBufferLength req) es -> es <> [] ->
  forall n d s, (length es - d < n)%nat -> listing_of s body req id o -> cursors s !! id = Some (mkCursor es d) ->
  exists bodies, drain kernel n s body = Some bodies /\ lists (QueryDir.FileInformationClass req) (QueryDir.OutputBufferLength req) bodies (names_of kernel o (QueryDir.FileInformationClass req) (drop d es)).
Proof.
  intros Hflag Hfix Hfits Hes. induction n as [|n IH]; intros d s Hn Hreq Hc; [lia|]. cbn [drain]. rewrite (handle_listing _ _ _ _ _ Hreq), Hflag. cbn [Z.eqb negb]. rewrite Hc.
  destruct (decide (length es <= d)%nat) as [Hd|Hd].
  { unfold list_more. cbn [dirEntries dirSent]. rewrite bool_decide_eq_false_2, bool_decide_eq_true_2 by done. cbn [run Io.respondError mret prog_ret snd].
    exists []. split; [done|]. rewrite drop_ge by lia. exists [], []. done. }
  pose proof Hreq as [_ _ _ [HM _] Hsup]. destruct (list_more_spec kernel s id o req es d Hsup HM ltac:(lia)) as (k & [Hrange Hcur Hns Hprog]).
  destruct (Hprog _ Hfix Hfits) as [Hk Hdone]. clear Hprog. destruct (run kernel (list_more _ _ _ _ _ _ _)).2 as [s' a]. cbn [fst snd] in Hcur, Hns. subst s'. cbv zeta in Hns.
  replace (drop d es) with (take k (drop d es) ++ drop (d + k) es) by (by rewrite <- drop_drop, take_drop). rewrite names_of_app. revert Hns Hdone.
  set (ns := names_of _ _ _ (take k _)). intros Hns Hdone. destruct (decide (ns = [])) as [He|He].
  - rewrite (Hdone He) in *. rewrite bool_decide_eq_true_2 in Hns by done. rewrite Hns. exists []. split; [done|]. rewrite drop_all, He. exists [], []. done.
  - destruct Hns as (buf & -> & Hlen & Hread). rewrite Z.eqb_refl.
    destruct (IH (d + k)%nat (set_cursor s id (mkCursor es (d + k)))) as (bodies & -> & bufs & nss & -> & -> & Hall); [lia|by destruct Hreq; split|apply lookup_insert_eq|].
    exists (map QueryDir.EncodeQueryDirectoryResponse (buf :: bufs)). split; [done|]. exists (buf :: bufs), (ns :: nss). split; [done|]. split; [done|]. by constructor.
Qed.


End Calls.

(** ** A concrete listing: [a], [gone] that cannot be stat'ed, [b] and the hidden
    [x:y], one record per call *)

Definition ex_dirinfo : fileInfo := mkInfo 4096 0 true false 11 1 0x1ED 0 0.
Definition ex_fileinfo : fileInfo := mkInfo 7 0 false false 12 1 0x1A4 0 0.
Definition ex_names : list bytes := [Config.lit "a"; Config.lit "b"; Config.lit "gone"; Config.lit "x:y"].
Definition ex_kernel (c : call) : result c :=
  match c with
  | Kernel.ReadDir _ => inl ex_names
  | Lstat p => if bool_decide (p = Config.lit "/srv/data/gone") then inr ENOENT else inl (if bool_decide (p ∈ [Config.lit "/srv/data"; Config.lit "/srv"]) then ex_dirinfo else ex_fileinfo)
  | c => Io.ex_kernel c
  end.
Definition ex_open : Io.Open :=
  Io.mkOpen (Config.lit "/srv/data") true false [] (Some 5) (Some (Io.ex_share false)) false [] false [] [] false false [] 0x1F01FF false [] [].
Definition ex_state : dirState := mkDir (Io.ex_state ex_open) ∅.
Definition ex_body : bytes := writes (zeros 32) [(0, le16 33); (2, [z2b InfoFileIdBothDirectoryInformation]); (8, Io.ex_fid); (28, le32 112)].
Definition ex_req : QueryDir.QueryDirectoryRequest := QueryDir.Build_QueryDirectoryRequest InfoFileIdBothDirectoryInformation 0 0 Io.ex_fid 112 [].
Definition ex_entries : list dirEntry := [Synthetic Vfs.dot ex_dirinfo; Synthetic Vfs.dotdot ex_dirinfo; Listed (Config.lit "a"); Listed (Config.lit "b"); Listed (Config.lit "gone")].
Definition ex_drain : option (list bytes) :=
  drain 0 true (mkIdentity 0 0 [] true) (fun _ => (false, false)) (fun c => c) ex_kernel 6 ex_state ex_body.

End Dir.
