(* ===== verification/Query.v ===== *)
(** QUERY_INFO and IOCTL: [handleQueryInfo] and [handleIoctl] of
    [internal/parent/dispatch.go], the volume's statistics of [statfs.go] and the
    security descriptor of [sd.go].

    A stat is taken once per request; the id of a handle, its attributes and its
    streams are asked for again by the classes that carry them. *)

From S2P Require Import Prelude Smb2 Utf Requests LockRanges Access Sessions CopyChunk Vfs Wildcard Frames Dispatch Spnego Negotiate Config Trees Kernel Streams Srvsvc Aapl Io Dir.
Import Access Kernel Streams.

Module Query.

Definition FileBasicInformation : Z := 0x04.
Definition FileStandardInformation : Z := 0x05.
Definition FileInternalInformation : Z := 0x06.
Definition FileEaInformation : Z := 0x07.
Definition FileAccessInformation : Z := 0x08.
Definition FileNameInformation : Z := 0x09.
Definition FilePositionInformation : Z := 0x0E.
Definition FileModeInformation : Z := 0x10.
Definition FileAlignmentInformation : Z := 0x11.
Definition FileAllInformation : Z := 0x12.
Definition FileAlternateNameInformation : Z := 0x15.
Definition FileStreamInformation : Z := 0x16.
Definition FileNetworkOpenInformation : Z := 0x22.
Definition FileAttributeTagInformation : Z := 0x23.

Definition FileFsVolumeInformation : Z := 0x01.
Definition FileFsSizeInformation : Z := 0x03.
Definition FileFsDeviceInformation : Z := 0x04.
Definition FileFsAttributeInformation : Z := 0x05.
Definition FileFsFullSizeInformation : Z := 0x07.

Definition AccessFileReadEa : Z := 0x08.
Definition AccessFileReadAttributes : Z := 0x80.
Definition AccessReadControl : Z := 0x20000.

Definition FsctlPipeWait : Z := 0x00110018.
Definition FsctlDfsGetReferrals : Z := 0x00060194.

Fixpoint skip_slashes (s : bytes) : bytes :=
  match s with c :: rest => if bool_decide (c = Vfs.slash) then skip_slashes rest else s | [] => [] end.

(** [filepath.Base] *)
Definition Base (path : bytes) : bytes :=
  if bool_decide (path = []) then Vfs.dot else
  let p := rev (skip_slashes (rev path)) in
  if bool_decide (p = []) then [Vfs.slash] else List.last (Vfs.Split p) [].

Section Handler.
(** [strings.ToUpper], and the case probe of each share root. *)
Context (ToUpper : bytes -> bytes) (shareCaseProbe : bytes -> bool * bool).

(** ** Files *)

(** [streamFileInfo] or the stat. *)
Definition openFileInfo (o : Io.Open) : prog (option fileInfo) :=
  if Io.IsStream o then now ← sys Now; mret (Some (mkInfo (len (Io.streamBuf o)) now false false 0 0 0 0 0)) else
  st ← sys (Lstat (Io.Path o));
  mret (match st with inl i => Some i | inr _ => None end).

Definition fileIDFor (info : fileInfo) (o : Io.Open) : prog Z :=
  if negb (Ino info =? 0) then mret (Ino info) else
  if bool_decide (Io.Path o = []) then mret 0 else
  st ← sys (Lstat (Io.Path o));
  mret (match st with inl i => Ino i | inr _ => 0 end).

Definition access_of (o : Io.Open) : Z :=
  if Io.GrantedAccess o =? 0 then union [AccessFileReadData; AccessFileReadAttributes; AccessFileReadEa; AccessReadControl] else Io.GrantedAccess o.

Definition size_of (info : fileInfo) : Z := if IsDir info then 0 else Size info.
Definition attrs_of (info : fileInfo) : Z := if IsDir info then Io.FileAttrDirectory else Io.FileAttrNormal.

(** The parts of FILE_ALL_INFORMATION, each at its offset there. *)
Definition basic_fields (at_ ctime t attrs : Z) : list (Z * bytes) :=
  [(at_, le64 ctime); (at_ + 8, le64 t); (at_ + 16, le64 t); (at_ + 24, le64 t); (at_ + 32, le32 attrs)].
Definition standard_fields (at_ size : Z) (dir : bool) : list (Z * bytes) :=
  [(at_, le64 size); (at_ + 8, le64 size); (at_ + 16, le32 1)] ++ (if dir then [(at_ + 21, le8 1)] else []).
Definition name_info (o : Io.Open) : bytes := let n := Names.utf16leName (Base (Io.Path o)) in le32 (len n) ++ n.
Definition fixedHead : Z := 96.

(** The classes, the times computed. *)
Definition encode_class (class : Z) (info : fileInfo) (o : Io.Open) (ctime t : Z) : prog (option bytes) :=
  let attrs := attrs_of info in
  let size := size_of info in
  if class =? FileBasicInformation then mret (Some (writes (zeros 40) (basic_fields 0 ctime t attrs))) else
  if class =? FileStandardInformation then mret (Some (writes (zeros 24) (standard_fields 0 size (IsDir info)))) else
  if class =? FileInternalInformation then id ← fileIDFor info o; mret (Some (writes (zeros 8) [(0, le64 id)])) else
  if class =? FileEaInformation then mret (Some (zeros 4)) else
  if class =? Io.FileFullEaInformation then
    eas ← listEAs (Io.Path o);
    mret (Some (match eas with inr _ => [] | inl eas => encodeFullEaList ToUpper eas end))
  else
  if class =? FileAccessInformation then mret (Some (writes (zeros 4) [(0, le32 (access_of o))])) else
  if class =? FilePositionInformation then mret (Some (zeros 8)) else
  if class =? FileModeInformation then mret (Some (zeros 4)) else
  if class =? FileAlignmentInformation then mret (Some (zeros 4)) else
  if class =? FileNetworkOpenInformation then
    mret (Some (writes (zeros 56) [(0, le64 ctime); (8, le64 t); (16, le64 t); (24, le64 t); (32, le64 size); (40, le64 size); (48, le32 attrs)]))
  else
  if class =? FileAttributeTagInformation then mret (Some (writes (zeros 8) [(0, le32 attrs)])) else
  if class =? FileAlternateNameInformation then mret (Some (zeros 4)) else
  if class =? FileStreamInformation then out ← encodeStreamInfoList (Io.Path o) (Size info); mret (Some out) else
  if class =? FileNameInformation then mret (Some (name_info o)) else
  if class =? FileAllInformation then
    id ← fileIDFor info o;
    mret (Some (writes (zeros fixedHead) (basic_fields 0 ctime t attrs ++ standard_fields 40 size (IsDir info) ++ [(64, le64 id); (76, le32 (access_of o))]) ++ name_info o))
  else mret None.

Definition encodeFileInfo (class : Z) (info : option fileInfo) (o : Io.Open) : prog (option bytes) :=
  match info with
  | None => mret None
  | Some info =>
      let t := filetimeFromTime (ModTime info) in
      bt ← (if negb (bool_decide (Io.Path o = [])) && negb (Io.IsStream o) then birthTime (Io.Path o) else mret None : prog (option Z));
      encode_class class info o (match bt with Some bt => filetimeFromTime bt | None => t end) t
  end.

(** ** Volumes *)

(** [syscall.Statfs_t.Bsize] is cut to 32 bits. *)
Definition fsStats (path : bytes) : prog (Z * Z * Z * Z) :=
  st ← sys (Statfs path);
  mret (match st with
        | None => (2 ^ 30, 2 ^ 30, 1, 4096)
        | Some (blocks, bavail, bsize) => let bs := bsize mod 2 ^ 32 in (blocks, bavail, 1, if bs =? 0 then 4096 else bs)
        end).

(** [o.Tree.Share] is dereferenced by the classes that name the share's root. *)
Definition encodeFsInfo (class : Z) (o : Io.Open) : prog (res (option bytes)) :=
  let with_root (k : bytes -> prog (res (option bytes))) := match Io.Share o with None => mret Panic | Some sh => k (Config.sPath sh) end in
  if class =? FileFsAttributeInformation then
    let probe := shareCaseProbe (Vfs.Clean (match Io.Share o with Some sh => Config.sPath sh | None => [] end)) in
    let name := Names.utf16leName (Config.lit "NTFS") in
    mret (Ok (Some (writes (zeros 12) [(0, le32 (Aapl.fsAttributes probe (Io.Share o))); (4, le32 255); (8, le32 (len name))] ++ name)))
  else
  if class =? FileFsVolumeInformation then
    with_root (fun root =>
      let label := Names.utf16leName (Base root) in
      now ← sys Now;
      mret (Ok (Some (writes (zeros 18) [(0, le64 (filetimeFromTime now)); (8, le32 0xCAFE1337); (12, le32 (len label))] ++ label))))
  else
  if class =? FileFsSizeInformation then
    with_root (fun root =>
      '(total, avail, spu, bps) ← fsStats root;
      mret (Ok (Some (writes (zeros 24) [(0, le64 total); (8, le64 avail); (16, le32 spu); (20, le32 bps)]))))
  else
  if class =? FileFsFullSizeInformation then
    with_root (fun root =>
      '(total, avail, spu, bps) ← fsStats root;
      mret (Ok (Some (writes (zeros 32) [(0, le64 total); (8, le64 avail); (16, le64 avail); (24, le32 spu); (28, le32 bps)]))))
  else
  if class =? FileFsDeviceInformation then mret (Ok (Some (writes (zeros 8) [(0, le32 0x07); (4, le32 0x20)])))
  else mret (Ok None).

(** ** Security *)

Definition sid (authority sub : Z) : bytes := map z2b [1; 1; 0; 0; 0; 0; 0; authority; sub; 0; 0; 0].
Definition sdHdr : Z := 20.

Definition minimalSelfRelativeSD : bytes :=
  let systemSID := sid 5 18 in
  let worldSID := sid 1 0 in
  let aceSize := 8 + len worldSID in
  let ace := writes (zeros aceSize) [(2, le16 aceSize); (4, le32 0x10000000); (8, worldSID)] in
  let aclSize := 8 + aceSize in
  let dacl := writes (zeros aclSize) [(0, le8 2); (2, le16 aclSize); (4, le16 1); (8, ace)] in
  let group := sdHdr + len systemSID in
  let acl := group + len systemSID in
  writes (zeros (sdHdr + len systemSID + len systemSID + aclSize))
    [(0, le8 1); (1, le8 0); (2, le16 (Z.lor 0x8000 0x0004)); (4, le32 sdHdr); (sdHdr, systemSID); (8, le32 group); (group, systemSID);
     (12, le32 0); (16, le32 acl); (acl, dacl)].

(** ** QUERY_INFO *)

Definition handleQueryInfo (s : Io.state) (body : bytes) : prog (Io.state * Io.answer) :=
  match QueryInfo.DecodeQueryInfoRequest body with
  | Ok req =>
      match Io.GetOpen s (QueryInfo.FileID req) with
      | None => Io.respondError s StatusInvalidParameter
      | Some (_, o) =>
          if QueryInfo.InfoType req =? Io.InfoTypeFile then
            info ← openFileInfo o;
            buf ← encodeFileInfo (QueryInfo.FileInfoClass req) info o;
            match buf with
            | Some buf => Io.respondSuccess s (QueryInfo.EncodeQueryInfoResponse buf)
            | None => Io.respondError s StatusNotSupported
            end
          else if QueryInfo.InfoType req =? Io.InfoTypeFilesystem then
            buf ← encodeFsInfo (QueryInfo.FileInfoClass req) o;
            match buf with
            | Ok (Some buf) => Io.respondSuccess s (QueryInfo.EncodeQueryInfoResponse buf)
            | Ok None => Io.respondError s StatusNotSupported
            | _ => mret (s, Io.Crash)
            end
          else if QueryInfo.InfoType req =? Io.InfoTypeSecurity then Io.respondSuccess s (QueryInfo.EncodeQueryInfoResponse minimalSelfRelativeSD)
          else Io.respondError s StatusNotSupported
      end
  | _ => Io.respondError s StatusInvalidParameter
  end.
End Handler.

(** ** The parts of FILE_ALL_INFORMATION *)

Section Parts.
Context (ToUpper : bytes -> bytes) (kernel : forall c, result c) (o : Io.Open) (info : fileInfo).

(** What a class answers for [info]. *)
Definition answers (class : Z) : option bytes := (run kernel (encodeFileInfo ToUpper class (Some info) o)).2.

Definition birth : option Z :=
  (run kernel (if negb (bool_decide (Io.Path o = [])) && negb (Io.IsStream o) then birthTime (Io.Path o) else mret None)).2.
Definition ctime_of : Z := match birth with Some bt => filetimeFromTime bt | None => filetimeFromTime (ModTime info) end.
Definition id_of : Z := (run kernel (fileIDFor info o)).2.

Lemma answers_class class : answers class = (run kernel (encode_class ToUpper class info o ctime_of (filetimeFromTime (ModTime info)))).2.
Proof. unfold answers, encodeFileInfo. by rewrite Dir.run_bind_answer. Qed.

Lemma answers_internal : answers FileInternalInformation = Some (writes (zeros 8) [(0, le64 id_of)]).
Proof. rewrite answers_class. exact (Dir.run_bind_answer kernel (fileIDFor info o) _). Qed.

Lemma answers_all : answers FileAllInformation = Some (writes (zeros fixedHead)
  (basic_fields 0 ctime_of (filetimeFromTime (ModTime info)) (attrs_of info) ++ standard_fields 40 (size_of info) (IsDir info) ++ [(64, le64 id_of); (76, le32 (access_of o))]) ++ name_info o).
Proof. rewrite answers_class. exact (Dir.run_bind_answer kernel (fileIDFor info o) _). Qed.

(** Writes that stay inside the left part of a buffer, or the right one. *)
Lemma writes_left a b ps : fits (len a) ps -> writes (a ++ b) ps = writes a ps ++ b.
Proof.
  revert a. induction ps as [|[off d] ps IH]; intros a Hf; [done|]. apply Forall_cons in Hf as [[H0 H1] Hf]. cbn [fst snd] in *.
  change (writes (a ++ b) ((off, d) :: ps)) with (writes (splice off d (a ++ b)) ps). change (writes a ((off, d) :: ps)) with (writes (splice off d a) ps).
  assert (Hs : splice off d (a ++ b) = splice off d a ++ b).
  { unfold splice, len in *. rewrite take_app_le, drop_app_le by lia. by rewrite <- !app_assoc. }
  rewrite Hs. apply IH. by rewrite len_splice by lia.
Qed.

Lemma writes_right a b ps : fits (len b) ps -> writes (a ++ b) (map (fun p => (len a + p.1, p.2)) ps) = a ++ writes b ps.
Proof.
  revert b. induction ps as [|[off d] ps IH]; intros b Hf; [done|]. apply Forall_cons in Hf as [[H0 H1] Hf]. cbn [fst snd map] in *.
  change (writes b ((off, d) :: ps)) with (writes (splice off d b) ps). rewrite <- IH by (by rewrite len_splice by lia). cbn [map]. unfold writes. cbn [fold_left fst snd]. f_equal.
  unfold splice, len in *. rewrite Z2Nat.inj_add, Nat2Z.id by lia. rewrite take_app, drop_app, (take_ge a), (drop_ge a) by lia.
  replace (length a + Z.to_nat off - length a)%nat with (Z.to_nat off) by lia. replace (length a + Z.to_nat off + length d - length a)%nat with (Z.to_nat off + length d)%nat by lia.
  by rewrite <- !app_assoc.
Qed.

Lemma writes_segment a b c ps : fits (len b) ps -> writes (a ++ b ++ c) (map (fun p => (len a + p.1, p.2)) ps) = a ++ writes b ps ++ c.
Proof. intros Hf. rewrite writes_right, writes_left; [done|done|]. apply (Forall_impl _ _ _ Hf). intros p [? ?]. pose proof (len_nonneg c). rewrite len_app. lia. Qed.

Lemma writes_app b ps qs : writes b (ps ++ qs) = writes (writes b ps) qs.
Proof. apply fold_left_app. Qed.

Lemma basic_fits ctime t attrs : fits 40 (basic_fields 0 ctime t attrs).
Proof. unfold basic_fields. fits_tac. Qed.

Lemma standard_fits size dir : fits 24 (standard_fields 0 size dir).
Proof. unfold standard_fields. destruct dir; cbn [app]; fits_tac. Qed.

Lemma standard_shift size dir : standard_fields 40 size dir = map (fun p => (40 + p.1, p.2)) (standard_fields 0 size dir).
Proof. by destruct dir. Qed.

(** FILE_ALL_INFORMATION is its parts: what QUERY_INFO answers to it is, byte
    for byte, the answers to the basic, standard, internal, EA, access, position,
    mode, alignment and name classes one after the other, for a file, a directory
    and a stream, so that no two of a handle's encoders disagree. *)
Theorem file_all_parts : exists parts,
  mapM answers [FileBasicInformation; FileStandardInformation; FileInternalInformation; FileEaInformation; FileAccessInformation;
    FilePositionInformation; FileModeInformation; FileAlignmentInformation; FileNameInformation] = Some parts /\
  answers FileAllInformation = Some (concat parts).
Proof.
  cbn [mapM]. rewrite answers_all, answers_internal, !answers_class. cbn [mbind option_bind mret option_ret]. eexists. split; [reflexivity|].
  cbn [concat]. set (b1 := basic_fields _ _ _ _). set (sf := standard_fields 0 _ _).
  assert (Hb : len (writes (zeros 40) b1) = 40) by (apply len_writes; [apply basic_fits|done]).
  assert (Hs : len (writes (zeros 24) sf) = 24) by (apply len_writes; [apply standard_fits|done]).
  change (zeros fixedHead) with (zeros 40 ++ zeros 24 ++ zeros 8 ++ zeros 4 ++ zeros 4 ++ zeros 8 ++ zeros 4 ++ zeros 4).
  rewrite writes_app, writes_left by apply basic_fits. rewrite writes_app, standard_shift.
  replace (map (fun p => (40 + p.1, p.2)) (standard_fields 0 (size_of info) (IsDir info))) with (map (fun p => (len (writes (zeros 40) b1) + p.1, p.2)) sf) by (by rewrite Hb).
  rewrite writes_segment by apply standard_fits.
  set (h1 := writes (zeros 40) b1) in *. set (h2 := writes (zeros 24) sf) in *.
  change [(64, le64 id_of); (76, le32 (access_of o))] with ([(64, le64 id_of)] ++ [(76, le32 (access_of o))]).
  rewrite writes_app. replace [(64, le64 id_of)] with (map (fun p : Z * bytes => (len (h1 ++ h2) + p.1, p.2)) [(0, le64 id_of)]) by (rewrite len_app, Hb, Hs; done).
  rewrite (app_assoc h1 h2), writes_segment by fits_tac. set (h3 := writes (zeros 8) _).
  assert (H3 : len h3 = 8) by (apply len_writes; [fits_tac|done]).
  replace [(76, le32 (access_of o))] with (map (fun p : Z * bytes => (len ((h1 ++ h2) ++ h3 ++ zeros 4) + p.1, p.2)) [(0, le32 (access_of o))]) by (rewrite !len_app, Hb, Hs, H3; done).
  replace ((h1 ++ h2) ++ h3 ++ zeros 4 ++ zeros 4 ++ zeros 8 ++ zeros 4 ++ zeros 4) with (((h1 ++ h2) ++ h3 ++ zeros 4) ++ zeros 4 ++ zeros 8 ++ zeros 4 ++ zeros 4) by (by rewrite <- !app_assoc).
  rewrite writes_segment by fits_tac. f_equal. rewrite <- !app_assoc. by rewrite app_nil_r.
Qed.
End Parts.
(** ** One id per file *)

Section Ids.
Context (ToUpper : bytes -> bytes) (kernel : forall c, result c).

Lemma opened_info o i : kernel (Lstat (Io.Path o)) = inl i ->
  exists info, (run kernel (openFileInfo o)).2 = Some info /\ (Ino info = 0 \/ Ino info = Ino i).
Proof.
  intros Hk. unfold openFileInfo. rewrite Dir.run_if. destruct (Io.IsStream o).
  - rewrite (Dir.run_sys_answer kernel Now). eexists. split; [reflexivity|by left].
  - rewrite (Dir.run_sys_answer kernel (Lstat (Io.Path o))), Hk. exists i. split; [done|by right].
Qed.

Lemma id_is_inode info o i : Io.Path o <> [] -> kernel (Lstat (Io.Path o)) = inl i -> Ino info = 0 \/ Ino info = Ino i -> id_of kernel o info = Ino i.
Proof.
  intros Hp Hk Hi. unfold id_of, fileIDFor. destruct (Z.eqb_spec (Ino info) 0); cbn [negb]; [|by destruct Hi].
  by rewrite bool_decide_eq_false_2, (Dir.run_sys_answer kernel (Lstat (Io.Path o))), Hk by done.
Qed.

(** Where a directory record has the id. *)
Definition id_offset (infoClass : Z) : option Z :=
  if infoClass =? Dir.InfoFileIdBothDirectoryInformation then Some 96 else if infoClass =? Dir.InfoFileIdFullDirectoryInformation then Some 72 else None.

Lemma get_id fixed info n extra off : 64 <= fixed -> fits fixed (Dir.stat_fields info n ++ extra) -> 0 <= Ino info < 2 ^ 64 ->
  (Ino info = 0 /\ Forall (apart off 8) extra \/ exists pre, extra = pre ++ [(off, le64 (Ino info))]) -> 64 <= off -> off + 8 <= fixed ->
  le_combine (get (writes (zeros fixed) (Dir.stat_fields info n ++ extra)) off 8) = Ino info.
Proof.
  intros Hf Hfit Hi Hx Ho1 Ho2. assert (Hz : len (zeros fixed) = fixed) by (apply len_zeros; lia). destruct Hx as [[H0 Hx]|[pre ->]].
  - rewrite get_writes_apart; [|by rewrite Hz|lia|lia|].
    + rewrite get_zeros by lia. by rewrite le_combine_zeros, H0.
    + apply Forall_app_2; [|done]. unfold Dir.stat_fields. aparts.
  - rewrite app_assoc, writes_app. apply Forall_app in Hfit as [Hfit1 Hfit2]. apply Forall_app in Hfit2 as [Hfit2 _].
    set (w := writes (zeros fixed) (Dir.stat_fields info n ++ pre)).
    assert (Hw : len w = fixed) by (apply len_writes; [by apply Dir.fits_app|done]).
    change (writes w [(off, le64 (Ino info))]) with (splice off (le64 (Ino info)) w). rewrite get_splice_eq by side. by fields.
Qed.

Lemma record_id name info class useAAPL maxAccess rforkSize finderInfo off : 0 <= Ino info < 2 ^ 64 -> len finderInfo = 16 -> id_offset class = Some off ->
  exists rec, Dir.encodeDirRecordFinderInfo name (Some info) class useAAPL maxAccess rforkSize finderInfo = Ok (Some rec) /\ le_combine (get rec off 8) = Ino info.
Proof.
  intros Hi Hfi Hoff. unfold Dir.encodeDirRecordFinderInfo. cbv zeta. set (u := Names.utf16leName name).
  assert (Hrec : forall fixed extra, 64 <= fixed -> fits fixed extra -> 64 <= off -> off + 8 <= fixed -> (Ino info = 0 /\ Forall (apart off 8) extra \/ exists pre, extra = pre ++ [(off, le64 (Ino info))]) ->
    exists rec, Ok (E := err) (Some (writes (zeros fixed) (Dir.stat_fields info (len u) ++ extra) ++ u)) = Ok (Some rec) /\ le_combine (get rec off 8) = Ino info).
  { intros fixed extra Hf Hx Ho1 Ho2 Hid. pose proof (Dir.fits_app _ _ _ (Dir.stat_fields_fits fixed info (len u) Hf) Hx) as Hfit. eexists. split; [reflexivity|].
    rewrite get_app_l by (rewrite ?(len_writes _ _ fixed Hfit) by (apply len_zeros; lia); lia). by apply get_id. }
  unfold id_offset in Hoff. destruct (Z.eqb_spec class Dir.InfoFileIdBothDirectoryInformation) as [->|].
  { injection Hoff as <-. apply (Hrec 104); [lia| |lia|lia|]; unfold Dir.id_both_fields.
    - destruct useAAPL; [fits_tac|]. destruct (negb _); [fits_tac|by apply Forall_nil].
    - destruct useAAPL; [right; by eexists [_; _; _; _; _; _]|]. destruct (Z.eqb_spec (Ino info) 0); [by left|right; by exists []]. }
  destruct (Z.eqb_spec class Dir.InfoFileIdFullDirectoryInformation) as [->|]; [|done]. injection Hoff as <-.
  apply (Hrec 80); [lia| |lia|lia|].
  - cbn [Z.eqb]. destruct (negb _); [fits_tac|by apply Forall_nil].
  - destruct (Z.eqb_spec (Ino info) 0); [by left|right; by exists []].
Qed.

Lemma listed_id ident dir n class useAAPL off i : kernel (Lstat (Io.Path dir ++ Vfs.slash :: n)) = inl i -> 0 <= Ino i < 2 ^ 64 -> id_offset class = Some off ->
  exists rec, (run kernel (Dir.encode_entry ident dir class useAAPL (Dir.Listed n))).2 = Some (Ok (Some rec)) /\ le_combine (get rec off 8) = Ino i.
Proof.
  intros Hk Hi Hoff. assert (Hne : (class =? Dir.InfoFileNamesInformation) = false).
  { unfold id_offset in Hoff. destruct (Z.eqb_spec class Dir.InfoFileIdBothDirectoryInformation) as [->|]; [done|].
    destruct (Z.eqb_spec class Dir.InfoFileIdFullDirectoryInformation) as [->|]; done. }
  assert (Hrec : forall a r fi, len fi = 16 -> exists rec, Some (Dir.encodeDirRecordFinderInfo n (Some i) class useAAPL a r fi) = Some (Ok (Some rec)) /\ le_combine (get rec off 8) = Ino i).
  { intros a r fi Hfi. destruct (record_id n i class useAAPL a r fi off Hi Hfi Hoff) as (rec & -> & Hr). by exists rec. }
  unfold Dir.encode_entry. cbv zeta. rewrite Dir.run_bind_answer, Dir.run_if, Hne. cbn [negb Dir.Info].
  rewrite Dir.run_bind_answer. change (run kernel (sys (Lstat (Io.Path dir ++ Vfs.slash :: n)))).2 with (kernel (Lstat (Io.Path dir ++ Vfs.slash :: n))).
  rewrite Hk. cbn [mret prog_ret run snd]. rewrite Dir.run_if. destruct useAAPL; [|by apply Hrec].
  rewrite !Dir.run_bind_answer. apply Hrec. pose proof (Dir.readAFPFinderInfo_size kernel (Vfs.Join (Io.Path dir) (Dir.Name (Dir.Listed n)))) as Hs.
  destruct (run kernel (readAFPFinderInfo _)).2; [by apply Dir.len_compressed|done].
Qed.

(** C27: A file has one id: where the file can be stat'ed, the id QUERY_INFO answers
    for a handle on it, whether on the file or on one of its streams, is its inode,
    and so is the id of the record that either id class of QUERY_DIRECTORY, with
    Apple's overlay or without it, lists it by. *)
Theorem file_ids_agree (o : Io.Open) (i : fileInfo) : Io.Path o <> [] -> kernel (Lstat (Io.Path o)) = inl i -> 0 <= Ino i < 2 ^ 64 ->
  (exists info b, (run kernel (openFileInfo o)).2 = Some info /\ answers ToUpper kernel o info FileInternalInformation = Some b /\ le_combine b = Ino i) /\
  forall ident dir n class useAAPL off, Io.Path dir ++ Vfs.slash :: n = Io.Path o -> id_offset class = Some off ->
    exists rec, (run kernel (Dir.encode_entry ident dir class useAAPL (Dir.Listed n))).2 = Some (Ok (Some rec)) /\ le_combine (get rec off 8) = Ino i.
Proof.
  intros Hp Hk Hi. split.
  - destruct (opened_info o i Hk) as (info & Hinfo & Hid). exists info. eexists. split; [done|]. split; [apply answers_internal|].
    rewrite (id_is_inode _ _ _ Hp Hk Hid). change (writes (zeros 8) [(0, le64 (Ino i))]) with (splice 0 (le64 (Ino i)) (zeros 8)).
    unfold splice. rewrite drop_ge by done. rewrite app_nil_r. by apply (le_combine_le_split 8 _ (2 ^ 64)).
  - intros ident dir n class useAAPL off Hdir Hoff. apply (listed_id ident dir n class useAAPL off i); [by rewrite Hdir|done|done].
Qed.
End Ids.
(** ** IOCTL *)

Section Ioctl.
Context (SHA512 : bytes -> bytes).
(** The connection and the session; the shares its user sees; what a resume key
    draws; the file a descriptor refers to, and what the kernel answers to a copy. *)
Context (conn : Negotiate.Connection) (sid : Z) (visible : list Config.ShareConfig) (random : option bytes)
  (inode : Z -> Z) (srcStat : option errno) (statOk : bool) (scr : nat -> CopyChunk.script).

Record ioctlState := mkIoctl { opens : Io.state; keys : CopyChunk.resumeKeyTable; files : CopyChunk.disk }.

(** A handle as the copy sees it. *)
Definition copy_of (id : Z) (o : Io.Open) : CopyChunk.copyOpen :=
  CopyChunk.mkCopyOpen id (inode <$> Io.File o) (Io.IsDir o) (Io.IsPipe o) (Io.IsStream o) (Io.GrantedAccess o) (Io.on_readonly o).
Definition copy_target (s : Io.state) (fid : bytes) : option CopyChunk.copyOpen := (fun p => copy_of p.1 p.2) <$> Io.GetOpen s fid.

Definition ioctl_reply (req : Ioctl.IoctlRequest) (out : bytes) : bytes := Ioctl.EncodeIoctlResponse (Ioctl.CtlCode req) (Ioctl.FileID req) out 0.

(** [respondSuccess] or [respondWithStatus] with a body, or [respondError]. *)
Definition ioctl_answer (req : Ioctl.IoctlRequest) (a : CopyChunk.answer) : Io.answer :=
  match a with (st, Some out) => Io.Reply st (ioctl_reply req out) | (st, None) => Io.Reply st Dispatch.errBody end.

Definition pipe_transceive (s : Io.state) (req : Ioctl.IoctlRequest) : Io.answer :=
  let input := Ioctl.InputBuffer req in
  match Io.GetOpen s (Ioctl.FileID req) with
  | Some (_, o) =>
      if Io.IsPipe o && bool_decide (Io.PipeName o = Config.lit "srvsvc") then
        match Srvsvc.dcerpcHandle input visible with
        | Ok (Some out) => ioctl_answer req (StatusSuccess, Some out)
        | Ok None => ioctl_answer req (StatusInvalidParameter, None)
        | _ => Io.Crash
        end
      else ioctl_answer req (StatusSuccess, Some (Srvsvc.dcerpcBindNakBytes (if 16 <=? len input then le_combine (get input 12 4) else 0)))
  | None => ioctl_answer req (StatusSuccess, Some (Srvsvc.dcerpcBindNakBytes (if 16 <=? len input then le_combine (get input 12 4) else 0)))
  end.

(** [None] where the copy's loop runs out of fuel. *)
Definition handleIoctl (s : ioctlState) (body : bytes) : option (ioctlState * Io.answer) :=
  match Ioctl.DecodeIoctlRequest body with
  | Ok req =>
      let code := Ioctl.CtlCode req in
      let err st := Some (s, Io.Reply st Dispatch.errBody) in
      if code =? Ioctl.FsctlPipeTransceive then Some (s, pipe_transceive (opens s) req) else
      if code =? FsctlDfsGetReferrals then err StatusFsDriverRequired else
      if code =? FsctlPipeWait then err StatusNotSupported else
      if code =? Ioctl.FsctlSrvRequestResumeKey then
        let '(k, a) := CopyChunk.handleResumeKey (keys s) sid (copy_target (opens s) (Ioctl.FileID req)) random in
        Some (mkIoctl (opens s) k (files s), ioctl_answer req a)
      else
      if (code =? Ioctl.FsctlSrvCopyChunk) || (code =? Ioctl.FsctlSrvCopyChunkWrite) then
        '(d, a) ← CopyChunk.handleCopyChunk code (copy_target (opens s) (Ioctl.FileID req)) (Ioctl.InputBuffer req) (keys s) sid
          (fun id => copy_of id <$> Io.heap (opens s) !! id) srcStat statOk scr (files s);
        Some (mkIoctl (opens s) (keys s) d, ioctl_answer req a)
      else
      if code =? Ioctl.FsctlValidateNegotiateInfo then
        Some (s, ioctl_answer req (StatusSuccess, Some (Ioctl.EncodeValidateNegotiateInfoResponse (Negotiate.NegotiatedCapabilities conn) (Negotiate.cServerGuid conn)
          (Negotiate.NegotiatedSecurityMode conn) (Negotiate.Dialect (Negotiate.cSelection conn)))))
      else err StatusNotSupported
  | _ => Some (s, Io.Reply StatusInvalidParameter Dispatch.errBody)
  end.

(** The output buffer, from the offset and length of the response. *)
Definition read_ioctl (resp : bytes) : bytes := get resp (le_combine (get resp 32 4) - 64) (le_combine (get resp 36 4)).

Lemma read_ioctl_reply code fid out : len fid = 16 -> len out < 2 ^ 32 -> read_ioctl (Ioctl.EncodeIoctlResponse code fid out 0) = out.
Proof.
  intros Hfid Hout. pose proof (len_nonneg out). unfold read_ioctl, Ioctl.EncodeIoctlResponse, with_buffer, Ioctl.fixed, headerSize. cbn [app].
  set (b := zeros (48 + len out)). assert (Hl : len b = 48 + len out) by (apply len_zeros; lia).
  match goal with |- context [writes b ?ps] => assert (Hf : fits (len b) ps) by (rewrite Hl; fits_tac) end.
  wfield. fields. change (64 + 48 - 64) with 48. by wfield.
Qed.

Lemma decoded_fileid body req : Ioctl.DecodeIoctlRequest body = Ok req -> len (Ioctl.FileID req) = 16.
Proof.
  unfold Ioctl.DecodeIoctlRequest. destruct (Z.ltb_spec (len body) 56); [done|]. intros Hr. bind_inv. destruct (negb _); [done|]. bind_inv. subst req. cbn [Ioctl.FileID].
  match goal with H : slice body 8 24 = Ok _ |- _ => apply slice_inv in H as (-> & _ & _) end. apply len_get; lia.
Qed.
(** Bytes of one length with the same value are the same bytes. *)
Lemma get_le (b : bytes) off n v : 0 <= off -> 0 <= n -> off + n <= len b -> le_combine (get b off n) = v -> get b off n = le_split (Z.to_nat n) v.
Proof. intros ? ? ? <-. rewrite <- (split_le_combine (get b off n)) at 1. f_equal. pose proof (len_get b off n ltac:(lia) ltac:(lia) ltac:(lia)). unfold len in *. lia. Qed.

Lemma validate_fields caps guid mode dialect : len guid = 16 -> let out := Ioctl.EncodeValidateNegotiateInfoResponse caps guid mode dialect in
  len out = 24 /\ get out 0 4 = le32 caps /\ get out 4 16 = guid /\ get out 20 2 = le16 mode /\ get out 22 2 = le16 dialect.
Proof.
  intros Hg out. unfold out, Ioctl.EncodeValidateNegotiateInfoResponse. match goal with |- context [writes ?b ?ps] => assert (Hf : fits (len b) ps) by (change (len (zeros 24)) with 24; fits_tac) end.
  split; [by apply len_writes|]. split_and!; by wfield.
Qed.

(** C26: A downgrade is detected: the answer to FSCTL_VALIDATE_NEGOTIATE_INFO, on
    whatever session and handle it is asked, is 24 bytes that repeat, byte for
    byte, the capabilities, the server's GUID, the security mode and the dialect
    of the NEGOTIATE response as it went over the wire, so that a client whose
    response was changed on the way sees a difference, and any other none. *)
Theorem validate_negotiate_repeats (opts : Negotiate.NegotiatorOptions) (d : Negotiate.draws) (frame full : bytes) (s : ioctlState) (body : bytes) (req : Ioctl.IoctlRequest) :
  Negotiate.wf_options opts d -> Negotiate.negotiate_frame SHA512 opts d frame = Ok (conn, full) ->
  Ioctl.DecodeIoctlRequest body = Ok req -> Ioctl.CtlCode req = Ioctl.FsctlValidateNegotiateInfo ->
  exists resp, handleIoctl s body = Some (s, Io.Reply StatusSuccess resp) /\
    let out := read_ioctl resp in let sent := drop 64 full in
    len out = 24 /\ get out 0 4 = get sent 24 4 /\ get out 4 16 = get sent 8 16 /\ get out 20 2 = get sent 2 2 /\ get out 22 2 = get sent 4 2.
Proof.
  intros Hwf Hneg Hreq Hcode. destruct (Negotiate.negotiate_frame_inv _ _ _ _ _ _ Hwf Hneg) as (nreq & sel & _ & _ & Hw & Henc & Hconn). cbv zeta in *.
  set (r := Negotiate.announce opts d nreq sel) in *. destruct (Negotiate.encode_response _ _ Hw Henc) as ([G1 G2 G3 G4 _ (_ & _ & G6)] & _). pose proof (decoded_fileid _ _ Hreq) as Hfid.
  assert (Hlen : 64 <= len (drop 64 full)).
  { apply (f_equal length) in G6. unfold get in G6. rewrite length_take, length_drop in G6. assert (0 < length (Negotiate.rSecurityBuffer r))%nat by (apply Nat.ltb_lt; reflexivity). unfold len in *. lia. }
  unfold handleIoctl. rewrite Hreq. cbv zeta. rewrite Hcode. eexists. split; [reflexivity|]. unfold ioctl_reply.
  destruct (validate_fields (Negotiate.NegotiatedCapabilities conn) (Negotiate.cServerGuid conn) (Negotiate.NegotiatedSecurityMode conn) (Negotiate.Dialect (Negotiate.cSelection conn))) as (Hl & V1 & V2 & V3 & V4).
  { rewrite Hconn. by destruct Hwf as (_ & Hg & _). }
  rewrite read_ioctl_reply by (done || by rewrite Hl). split; [exact Hl|]. rewrite V1, V2, V3, V4, Hconn. cbn [Negotiate.NegotiatedCapabilities Negotiate.cServerGuid Negotiate.NegotiatedSecurityMode Negotiate.cSelection].
  split_and!; [by rewrite (get_le (drop 64 full) 24 4 _ ltac:(lia) ltac:(lia) ltac:(lia) G4)|by rewrite G3|by rewrite (get_le (drop 64 full) 2 2 _ ltac:(lia) ltac:(lia) ltac:(lia) G1)|by rewrite (get_le (drop 64 full) 4 2 _ ltac:(lia) ltac:(lia) ltac:(lia) G2)].
Qed.
End Ioctl.

(** ** Concrete requests: a file of 7 bytes, and a negotiated connection *)

Definition ex_file : Io.Open := Io.ex_file false false.
Definition ex_info : fileInfo := mkInfo 7 0 false false 12 1 0x1A4 0 0.

Definition ex_query (infoType class limit : Z) : bytes :=
  writes (zeros 40) [(0, le16 41); (2, [z2b infoType; z2b class]); (4, le32 limit); (24, Io.ex_fid)].

Lemma file_ids_agree_witness :
  (run Dir.ex_kernel (handleQueryInfo (fun s => s) (fun _ => (false, false)) (Io.ex_state ex_file)
    (ex_query Io.InfoTypeFile FileInternalInformation 8))).2 =
    (Io.ex_state ex_file, Io.Reply StatusSuccess (QueryInfo.EncodeQueryInfoResponse (le64 12))) /\
  exists rec, (run Dir.ex_kernel (Dir.encode_entry (mkIdentity 0 0 [] true) Dir.ex_open Dir.InfoFileIdBothDirectoryInformation true (Dir.Listed (Config.lit "f")))).2 = Some (Ok (Some rec)) /\
    le_combine (get rec 96 8) = 12.
Proof.
  split; [vm_compute; reflexivity|].
  destruct (file_ids_agree (fun s => s) Dir.ex_kernel ex_file Dir.ex_fileinfo ltac:(discriminate) ltac:(vm_compute; reflexivity) ltac:(vm_compute; split; [discriminate|reflexivity])) as [_ H].
  apply (H (mkIdentity 0 0 [] true) Dir.ex_open (Config.lit "f") Dir.InfoFileIdBothDirectoryInformation true 96); vm_compute; reflexivity.
Defined.

(** The buffer of a QUERY_INFO response. *)
Definition ex_buffer (r : list call * (Io.state * Io.answer)) : option bytes :=
  match r with (_, (_, Io.Reply st resp)) => if st =? StatusSuccess then Some (get resp (le_combine (get resp 2 2) - 64) (le_combine (get resp 4 4))) else None | _ => None end.

(** A client that leaves room for no byte is answered 100 bytes and the name. *)
Theorem query_info_exceeds_limit :
  len <$> ex_buffer (run Dir.ex_kernel (handleQueryInfo (fun s => s) (fun _ => (false, false)) (Io.ex_state ex_file) (ex_query Io.InfoTypeFile FileAllInformation 0))) = Some 102.
Proof. vm_compute. reflexivity. Qed.

(** The streams listed through the handle of a stream of 1 byte: the file's own
    data, 7 bytes, is listed with the stream's size. *)
Theorem stream_handle_lists_its_own_size :
  let buf := ex_buffer (run Dir.ex_kernel (handleQueryInfo (fun s => s) (fun _ => (false, false)) (Io.ex_state Io.ex_stream) (ex_query Io.InfoTypeFile FileStreamInformation 4096))) in
  (fun b => get b 24 14) <$> buf = Some (Names.utf16leName (Config.lit "::$DATA")) /\ (fun b => le_combine (get b 8 8)) <$> buf = Some 1 /\
  Dir.ex_kernel (Lstat (Io.Path Io.ex_stream)) = inl ex_info.
Proof. split_and!; vm_compute; reflexivity. Qed.

Definition ex_ioctl : bytes := writes (zeros 56) [(0, le16 57); (4, le32 Ioctl.FsctlValidateNegotiateInfo); (8, replicate 16 Byte.xff)].
Definition ex_ioctl_req : Ioctl.IoctlRequest := {| Ioctl.CtlCode := Ioctl.FsctlValidateNegotiateInfo; Ioctl.FileID := replicate 16 Byte.xff; Ioctl.InputBuffer := []; Ioctl.Flags := 0 |}.
Definition ex_ioctl_state : ioctlState := mkIoctl (Io.ex_state ex_file) CopyChunk.noKeys ∅.
Definition ex_scr (n : nat) : CopyChunk.script := (fun _ => CopyChunk.KFails CopyChunk.K_ENOSYS, fun _ => CopyChunk.ReadAll, fun _ => CopyChunk.WriteAll).

Lemma validate_negotiate_repeats_witness : exists conn full resp,
  Negotiate.negotiate_frame Negotiate.ex_sha Negotiate.ex_opts Negotiate.ex_draws Negotiate.ex_frame = Ok (conn, full) /\
  handleIoctl conn 1 [] None (fun fd => fd) None true ex_scr ex_ioctl_state ex_ioctl = Some (ex_ioctl_state, Io.Reply StatusSuccess resp) /\
  get (read_ioctl resp) 22 2 = get (drop 64 full) 4 2 /\ get (drop 64 full) 4 2 = le16 Negotiate.Dialect311.
Proof.
  destruct (Negotiate.negotiate_frame Negotiate.ex_sha Negotiate.ex_opts Negotiate.ex_draws Negotiate.ex_frame) as [[c full]|e|] eqn:Hn; [|exfalso; vm_compute in Hn; discriminate..].
  destruct (validate_negotiate_repeats Negotiate.ex_sha c 1 [] None (fun fd => fd) None true ex_scr Negotiate.ex_opts Negotiate.ex_draws Negotiate.ex_frame full ex_ioctl_state ex_ioctl ex_ioctl_req)
    as (resp & Hr & _ & _ & _ & _ & Hd); [split_and!; vm_compute; reflexivity || discriminate|exact Hn|vm_compute; reflexivity|reflexivity|].
  exists c, full, resp. split; [done|]. split; [exact Hr|]. split; [exact Hd|]. vm_compute in Hn. injection Hn as _ <-. vm_compute. reflexivity.
Defined.
End Query.
