(* ===== verification/Writer.v ===== *)
(** The write side of a connection: [internal/parent/writer.go].

    One goroutine ([run]) owns the socket; any number of others [send] it frames
    through a bounded queue, and [Close] shuts it.  Each access to the queue, the
    counter, a flag or the socket is one step, so that a list of events is an
    interleaving of all of them, with the choices of [select], of the timer and of
    the socket in the events. *)

From S2P Require Import Prelude Frames.

Module Writer.

Definition writeQueueDepth : Z := 2 * Credits.creditWindow.
Definition writeQueueBytes : Z := 64 * 2 ^ 20.

Inductive sendErr := errWriterClosed | errWriteQueueFull.

(** Where a call of [send] is: before the test of [closed], before the addition,
    at the [select], before the subtraction, at the three effects of [stall], at
    its return. *)
Inductive sendPc :=
  | SStart (buf : bytes) | SAdd (buf : bytes) | SSelect (buf : bytes) | SSub (buf : bytes) (e : sendErr)
  | SDiscard | SSignal | SKill | SDone (e : option sendErr).

(** Where [run] is: at its [select]; in [writeOne], before the subtraction, before
    the write, at the three effects of a failed one; in [flush], before the test
    of [discard], at the [select]; returned, with the frame that failed. *)
Inductive runPc :=
  | RSelect | RCount (buf : bytes) (flushing : bool) | RWrite (buf : bytes) (flushing : bool)
  | RDiscard (buf : bytes) | RSignal (buf : bytes) | RKill (buf : bytes)
  | RFlush | RFlushSelect | RExit (failed : option bytes).

(** Where a call of [Close] is: before [signalClose], at the [select] on [done] and
    the timer, at the two effects of the timeout, waiting for [done], returned. *)
Inductive closePc := CSignal | CWait | CDiscard | CKill | CJoin | CDone.

(** [wire] is what was written, [accepted] what [send] queued, [early] how much of
    it was queued when [closed] was shut. *)
Record connWriter := mkWriter {
  q : list bytes; queued : Z; closed : bool; discard : bool; killed : bool;
  pc : runPc; sends : list sendPc; closes : list closePc;
  wire : list bytes; accepted : list bytes; early : nat }.

Definition newConnWriter : connWriter := mkWriter [] 0 false false false RSelect [] [] [] [] 0.

Definition set_q w l := mkWriter l (queued w) (closed w) (discard w) (killed w) (pc w) (sends w) (closes w) (wire w) (accepted w) (early w).
Definition add_queued w n := mkWriter (q w) (queued w + n) (closed w) (discard w) (killed w) (pc w) (sends w) (closes w) (wire w) (accepted w) (early w).
Definition set_discard w := mkWriter (q w) (queued w) (closed w) true (killed w) (pc w) (sends w) (closes w) (wire w) (accepted w) (early w).
Definition kill w := mkWriter (q w) (queued w) (closed w) (discard w) true (pc w) (sends w) (closes w) (wire w) (accepted w) (early w).
Definition set_pc w p := mkWriter (q w) (queued w) (closed w) (discard w) (killed w) p (sends w) (closes w) (wire w) (accepted w) (early w).
Definition set_send w i p := mkWriter (q w) (queued w) (closed w) (discard w) (killed w) (pc w) (<[i := p]> (sends w)) (closes w) (wire w) (accepted w) (early w).
Definition set_close w i p := mkWriter (q w) (queued w) (closed w) (discard w) (killed w) (pc w) (sends w) (<[i := p]> (closes w)) (wire w) (accepted w) (early w).
(** [cw.q <- buf] *)
Definition enqueue w buf := mkWriter (q w ++ [buf]) (queued w) (closed w) (discard w) (killed w) (pc w) (sends w) (closes w) (wire w) (accepted w ++ [buf]) (early w).
Definition written w buf := mkWriter (q w) (queued w) (closed w) (discard w) (killed w) (pc w) (sends w) (closes w) (wire w ++ [buf]) (accepted w) (early w).

(** [once.Do(close(closed))] *)
Definition signalClose w :=
  mkWriter (q w) (queued w) true (discard w) (killed w) (pc w) (sends w) (closes w) (wire w) (accepted w)
    (if closed w then early w else length (accepted w)).

(** A step of the call [i] of [send]; [pick] where both cases of its [select] are
    ready. *)
Definition send_step (w : connWriter) (i : nat) (p : sendPc) (pick : bool) : option connWriter :=
  match p with
  | SStart buf =>
      if len buf =? 0 then Some (set_send w i (SDone None)) else
      Some (set_send w i (if closed w then SDone (Some errWriterClosed) else SAdd buf))
  | SAdd buf =>
      let w := add_queued w (len buf) in
      Some (set_send w i (if writeQueueBytes <? queued w then SSub buf errWriteQueueFull else SSelect buf))
  | SSelect buf =>
      let room := len (q w) <? writeQueueDepth in
      if room && (pick || negb (closed w)) then Some (set_send (enqueue w buf) i (SDone None))
      else if closed w then Some (set_send w i (SSub buf errWriterClosed))
      else Some (set_send w i (SSub buf errWriteQueueFull))
  | SSub buf e =>
      Some (set_send (add_queued w (- len buf)) i (match e with errWriterClosed => SDone (Some e) | errWriteQueueFull => SDiscard end))
  | SDiscard => Some (set_send (set_discard w) i SSignal)
  | SSignal => Some (set_send (signalClose w) i SKill)
  | SKill => Some (set_send (kill w) i (SDone (Some errWriteQueueFull)))
  | SDone _ => None
  end.

(** A step of [run]; [ok] what the socket answers while it is open. *)
Definition run_step (w : connWriter) (pick ok : bool) : option connWriter :=
  match pc w with
  | RSelect =>
      match q w with
      | [] => if closed w then Some (set_pc w RFlush) else None
      | buf :: rest => if closed w && negb pick then Some (set_pc w RFlush) else Some (set_pc (set_q w rest) (RCount buf false))
      end
  | RCount buf f => Some (set_pc (add_queued w (- len buf)) (RWrite buf f))
  | RWrite buf f =>
      if ok && negb (killed w) then Some (set_pc (written w buf) (if f then RFlush else RSelect))
      else Some (set_pc w (RDiscard buf))
  | RDiscard buf => Some (set_pc (set_discard w) (RSignal buf))
  | RSignal buf => Some (set_pc (signalClose w) (RKill buf))
  | RKill buf => Some (set_pc (kill w) (RExit (Some buf)))
  | RFlush => Some (set_pc w (if discard w then RExit None else RFlushSelect))
  | RFlushSelect =>
      match q w with
      | [] => Some (set_pc w (RExit None))
      | buf :: rest => Some (set_pc (set_q w rest) (RCount buf true))
      end
  | RExit _ => None
  end.

(** [done] *)
Definition finished (w : connWriter) : bool := match pc w with RExit _ => true | _ => false end.

(** A step of the call [i] of [Close]; [timeout] whether it is the timer that it
    sees. *)
Definition close_step (w : connWriter) (i : nat) (p : closePc) (timeout : bool) : option connWriter :=
  match p with
  | CSignal => Some (set_close (signalClose w) i CWait)
  | CWait => if timeout then Some (set_close w i CDiscard) else if finished w then Some (set_close w i CDone) else None
  | CDiscard => Some (set_close (set_discard w) i CKill)
  | CKill => Some (set_close (kill w) i CJoin)
  | CJoin => if finished w then Some (set_close w i CDone) else None
  | CDone => None
  end.

Inductive event := Send (buf : bytes) | Close | SendStep (i : nat) (pick : bool) | RunStep (pick ok : bool) | CloseStep (i : nat) (timeout : bool).

Definition step (w : connWriter) (e : event) : option connWriter :=
  match e with
  | Send buf => Some (mkWriter (q w) (queued w) (closed w) (discard w) (killed w) (pc w) (sends w ++ [SStart buf]) (closes w) (wire w) (accepted w) (early w))
  | Close => Some (mkWriter (q w) (queued w) (closed w) (discard w) (killed w) (pc w) (sends w) (closes w ++ [CSignal]) (wire w) (accepted w) (early w))
  | SendStep i pick => p ← sends w !! i; send_step w i p pick
  | RunStep pick ok => run_step w pick ok
  | CloseStep i timeout => p ← closes w !! i; close_step w i p timeout
  end.

Fixpoint run (w : connWriter) (evs : list event) : option connWriter :=
  match evs with [] => Some w | e :: evs => w ← step w e; run w evs end.

Definition reachable (w : connWriter) : Prop := exists evs, run newConnWriter evs = Some w.

(** ** What is in flight *)

(** What a call has added to the counter and not taken back, and what of that it
    may still queue. *)
Definition reserved (p : sendPc) : Z := match p with SSelect buf | SSub buf _ => len buf | _ => 0 end.
Definition admitted (p : sendPc) : Z := match p with SSelect buf => len buf | _ => 0 end.
(** What [run] has taken off the queue and still counts, and what it holds. *)
Definition uncounted (p : runPc) : Z := match p with RCount buf _ => len buf | _ => 0 end.
Definition held (p : runPc) : list bytes :=
  match p with RCount buf _ | RWrite buf _ | RDiscard buf | RSignal buf | RKill buf | RExit (Some buf) => [buf] | _ => [] end.

Definition backlog (w : connWriter) : Z := sumZ len (q w).

(** [run] is past its [select]. *)
Definition draining (p : runPc) : bool :=
  match p with RFlush | RFlushSelect | RCount _ true | RWrite _ true | RKill _ | RExit _ => true | _ => false end.

(** [run] has seen a write fail and has dropped the backlog. *)
Definition failing (p : runPc) : bool := match p with RSignal _ | RKill _ | RExit (Some _) => true | _ => false end.

Record Inv (w : connWriter) : Prop := {
  inv_counter : queued w = backlog w + sumZ reserved (sends w) + uncounted (pc w);
  inv_bytes : backlog w + sumZ admitted (sends w) <= writeQueueBytes;
  inv_depth : len (q w) <= writeQueueDepth;
  inv_order : accepted w = wire w ++ held (pc w) ++ q w;
  inv_early : (early w <= length (accepted w))%nat;
  inv_draining : draining (pc w) = true -> closed w = true;
  inv_exit : pc w = RExit None -> discard w = true \/ (early w <= length (wire w))%nat;
  inv_failing : failing (pc w) = true -> discard w = true;
  inv_failed : (exists buf, pc w = RExit (Some buf)) -> killed w = true }.

Lemma inv_new : Inv newConnWriter.
Proof. split; cbn; try done. by intros [? ?]. Qed.

Lemma reserved_nonneg p : 0 <= reserved p - admitted p.
Proof. destruct p; cbn; try lia. pose proof (len_nonneg buf). lia. Qed.

Lemma admitted_le l : sumZ admitted l <= sumZ reserved l.
Proof. induction l as [|p l IH]; [done|]; unfold sumZ in *; cbn [foldr]. pose proof (reserved_nonneg p). unfold sumZ in *. lia. Qed.

Lemma uncounted_nonneg p : 0 <= uncounted p.
Proof. destruct p; cbn; try lia. apply len_nonneg. Qed.

Ltac sums := unfold backlog in *; cbn; repeat match goal with Hi : _ !! _ = Some _ |- _ => rewrite !(sumZ_insert _ _ _ _ _ Hi) in * end; cbn [reserved admitted] in *.

Lemma signalClose_Inv w : Inv w -> Inv (signalClose w).
Proof.
  intros [H1 H2 H3 H4 H5 H6 H7 H8 H9]. split; cbn; try done; destruct (closed w) eqn:Hc; try done.
  intros He. destruct (H7 He) as [?|?]; [by left|]. exfalso. rewrite He in H6. discriminate (H6 eq_refl).
Qed.

(** A move of a call that neither queues nor releases. *)
Lemma set_send_Inv w i p p' : Inv w -> sends w !! i = Some p -> reserved p' = reserved p -> admitted p' <= admitted p -> Inv (set_send w i p').
Proof. intros [H1 H2 H3 H4 H5 H6 H7 H8 H9] Hi Hr Ha. split; cbn; sums; try done; lia. Qed.

Lemma set_discard_Inv w : Inv w -> Inv (set_discard w).
Proof. intros [H1 H2 H3 H4 H5 H6 H7 H8 H9]. split; cbn; try done. by left. Qed.

Lemma kill_Inv w : Inv w -> Inv (kill w).
Proof. by intros [H1 H2 H3 H4 H5 H6 H7 H8 H9]; split. Qed.

Lemma send_step_Inv w i p pick w' : Inv w -> sends w !! i = Some p -> send_step w i p pick = Some w' -> Inv w'.
Proof.
  intros Hw Hi Hs. destruct p as [buf|buf|buf|buf e| | | |e]; cbn [send_step] in Hs.
  - destruct (len buf =? 0); [|destruct (closed w)]; injection Hs as <-; by apply (set_send_Inv w i _ _ Hw Hi).
  - injection Hs as <-. destruct Hw as [H1 H2 H3 H4 H5 H6 H7 H8 H9]. pose proof (admitted_le (sends w)). pose proof (uncounted_nonneg (pc w)).
    cbn [queued add_queued]. destruct (Z.ltb_spec writeQueueBytes (queued w + len buf)); split; cbn; sums; try done; lia.
  - destruct ((len (q w) <? writeQueueDepth) && (pick || negb (closed w))) eqn:Hr.
    + injection Hs as <-. apply andb_true_iff in Hr as [Hr%Z.ltb_lt _]. destruct Hw as [H1 H2 H3 H4 H5 H6 H7 H8 H9].
      split; cbn; sums; try done; rewrite ?sumZ_app, ?len_app, ?length_app; try (change (len [buf]) with 1); try change (sumZ len [buf]) with (len buf + 0); try lia.
      by rewrite H4, <- !app_assoc.
    + pose proof (len_nonneg buf). destruct (closed w); injection Hs as <-; apply (set_send_Inv w i _ _ Hw Hi); cbn; lia.
  - assert (Hw' : Inv (set_send (add_queued w (- len buf)) i SSignal)) by (destruct Hw as [H1 H2 H3 H4 H5 H6 H7 H8 H9]; split; cbn; sums; try done; lia).
    assert (Hi' : forall p', set_send (add_queued w (- len buf)) i p' = set_send (set_send (add_queued w (- len buf)) i SSignal) i p').
    { intros p'. unfold set_send. cbn. by rewrite list_insert_insert_eq. }
    injection Hs as <-. rewrite Hi'. apply (set_send_Inv _ i SSignal); [done|cbn; apply list_lookup_insert_eq; by eapply lookup_lt_Some|by destruct e|by destruct e].
  - injection Hs as <-. by apply (set_send_Inv _ i SDiscard); [apply set_discard_Inv|..].
  - injection Hs as <-. by apply (set_send_Inv _ i SSignal); [apply signalClose_Inv|..].
  - injection Hs as <-. by apply (set_send_Inv _ i SKill); [apply kill_Inv|..].
  - done.
Qed.

(** A move of [run] with the frame it holds. *)
Lemma set_pc_Inv w p : Inv w -> uncounted p = uncounted (pc w) -> held p = held (pc w) -> (draining p = true -> closed w = true) ->
  (p = RExit None -> discard w = true \/ (early w <= length (wire w))%nat) -> (failing p = true -> discard w = true) ->
  ((exists buf, p = RExit (Some buf)) -> killed w = true) -> Inv (set_pc w p).
Proof. intros [H1 H2 H3 H4 H5 H6 H7 H8 H9] Hu Hh Hd He Hf Hk. split; cbn; try done; unfold backlog in *; cbn; [lia|by rewrite Hh]. Qed.

Lemma dequeue_Inv w buf rest f : Inv w -> q w = buf :: rest -> uncounted (pc w) = 0 -> held (pc w) = [] -> (f = true -> closed w = true) ->
  Inv (set_pc (set_q w rest) (RCount buf f)).
Proof.
  intros [H1 H2 H3 H4 H5 H6 H7 H8 H9] Hq Hu Hh Hf. unfold backlog in *. pose proof (len_nonneg buf).
  rewrite Hq in H1, H2, H3, H4. change (sumZ len (buf :: rest)) with (len buf + sumZ len rest) in *. rewrite len_cons in H3. rewrite Hh in H4.
  split; cbn; unfold backlog; cbn; try done; try lia; [by destruct f|by intros [? ?]].
Qed.

Lemma run_step_Inv w pick ok w' : Inv w -> run_step w pick ok = Some w' -> Inv w'.
Proof.
  intros Hw. pose proof Hw as [H1 H2 H3 H4 H5 H6 H7 H8 H9]. unfold run_step. destruct (pc w) as [|buf f|buf f|buf|buf|buf| | |r] eqn:Hpc; cbn [uncounted held draining failing] in *.
  - assert (Hfl : closed w = true -> Inv (set_pc w RFlush)) by (intros Hc; apply set_pc_Inv; rewrite ?Hpc; done || by intros [? ?]).
    destruct (q w) as [|buf rest] eqn:Hq.
    + destruct (closed w); [intros [= <-]; by apply Hfl|done].
    + destruct (closed w && negb pick) eqn:Hc; intros [= <-]; [apply andb_true_iff in Hc as [Hc _]; by apply Hfl|by apply dequeue_Inv; rewrite ?Hpc].
  - intros [= <-]. assert (Hc : Inv (set_pc (add_queued w (- len buf)) (RWrite buf f))); [|done].
    split; cbn; unfold backlog in *; cbn; try done; try lia; by intros [? ?].
  - destruct (ok && negb (killed w)); intros [= <-].
    + assert (Hp : Inv (set_pc (written w buf) RSelect)) by (split; cbn; unfold backlog in *; cbn; try done; [by rewrite H4, <- app_assoc|by intros [? ?]]).
      destruct f; [|done]. change (set_pc (written w buf) RFlush) with (set_pc (set_pc (written w buf) RSelect) RFlush). apply set_pc_Inv; try done; by intros [? ?].
    + apply set_pc_Inv; rewrite ?Hpc; try done; by intros [? ?].
  - intros [= <-]. apply set_pc_Inv; cbn; rewrite ?Hpc; try done; [by apply set_discard_Inv|by intros [? ?]].
  - intros [= <-]. apply set_pc_Inv; cbn; rewrite ?Hpc; try done; [by apply signalClose_Inv|by intros [? ?]].
  - intros [= <-]. apply set_pc_Inv; cbn; rewrite ?Hpc; try done. by apply kill_Inv.
  - intros [= <-]. destruct (discard w) eqn:Hd; apply set_pc_Inv; rewrite ?Hpc, ?Hd; try done; try (by left); by intros [? ?].
  - destruct (q w) as [|buf rest] eqn:Hq; intros [= <-].
    + apply set_pc_Inv; rewrite ?Hpc; try done; [|by intros [? ?]]. intros _. right. by rewrite H4, app_nil_r in H5.
    + apply dequeue_Inv; rewrite ?Hpc; done.
  - done.
Qed.

Lemma close_step_Inv w i p timeout w' : Inv w -> close_step w i p timeout = Some w' -> Inv w'.
Proof.
  intros Hw. assert (Hset : forall w p', Inv w -> Inv (set_close w i p')) by (intros w0 p' [H1 H2 H3 H4 H5 H6 H7 H8 H9]; by split).
  destruct p; cbn [close_step]; intros Hs; try (destruct timeout); try (destruct (finished w)); try discriminate Hs; injection Hs as <-; apply Hset;
    auto using signalClose_Inv, set_discard_Inv, kill_Inv.
Qed.

Lemma writer_step_Inv w e w' : Inv w -> step w e = Some w' -> Inv w'.
Proof.
  intros Hw. destruct e as [buf| |i pick|pick ok|i timeout]; cbn [step].
  - intros [= <-]. destruct Hw as [H1 H2 H3 H4 H5 H6 H7 H8 H9]. split; cbn; try done; unfold backlog in *; cbn; rewrite sumZ_app; change (sumZ _ [SStart buf]) with 0; lia.
  - intros [= <-]. by destruct Hw as [H1 H2 H3 H4 H5 H6 H7 H8 H9]; split.
  - destruct (sends w !! i) as [p|] eqn:Hi; [|done]. by apply send_step_Inv.
  - by apply run_step_Inv.
  - destruct (closes w !! i) as [p|] eqn:Hi; [|done]. by apply close_step_Inv.
Qed.

Lemma writer_reachable_Inv w : reachable w -> Inv w.
Proof.
  intros [evs Hr]. revert Hr. assert (H0 : Inv newConnWriter) by apply inv_new. revert H0. generalize newConnWriter. induction evs as [|e evs IH]; intros w0 H0; cbn [run].
  - by intros [= <-].
  - destruct (step w0 e) as [w1|] eqn:Hs; [|done]. apply IH. by apply (writer_step_Inv _ e _ H0).
Qed.

(** ** What is bounded, and what is delivered *)

(** C31: Whatever the interleaving of the calls of [send], the writer goroutine and
    the calls of [Close], the queue holds at most 1024 frames and 64 MiB, counted
    together with the frames that callers are about to put there; and the counter
    is exact: it is the bytes queued, plus what calls under way have added and not
    taken back, plus the frame just taken off, so that it leaks nothing on any
    path of [send]. *)
Theorem writer_bounded (w : connWriter) : reachable w ->
  len (q w) <= 1024 /\ backlog w + sumZ admitted (sends w) <= 64 * 2 ^ 20 /\
  queued w = backlog w + sumZ reserved (sends w) + uncounted (pc w) /\
  (Forall (fun p => exists e, p = SDone e) (sends w) -> uncounted (pc w) = 0 -> queued w = backlog w).
Proof.
  intros Hr. destruct (writer_reachable_Inv w Hr) as [H1 H2 H3 _ _ _ _ _ _]. split_and!; [exact H3|exact H2|done|].
  intros Hs Hu. assert (Hz : sumZ reserved (sends w) = 0); [|lia]. clear - Hs. induction Hs as [|p l [e ->] _ IH]; [done|]. unfold sumZ in *. cbn [foldr reserved]. lia.
Qed.

(** The writer delivers: what was written is, in the order [send] accepted the
    frames, the first of them, each whole and once, with at most one more in the
    goroutine's hands; a goroutine that returned and was not told to drop its
    backlog has written every frame that was accepted before the queue was shut;
    and one whose write failed has dropped the backlog and killed the socket. *)
Theorem writer_delivers (w : connWriter) : reachable w ->
  accepted w = wire w ++ held (pc w) ++ q w /\ (length (held (pc w)) <= 1)%nat /\
  (pc w = RExit None -> discard w = false -> take (early w) (accepted w) `prefix_of` wire w) /\
  (forall buf, pc w = RExit (Some buf) -> discard w = true /\ killed w = true /\ closed w = true).
Proof.
  intros Hr. destruct (writer_reachable_Inv w Hr) as [_ _ _ H4 H5 H6 H7 H8 H9]. split_and!; [done|by destruct (pc w) as [| | | | | | | |[|]]; cbn; lia| |].
  - intros Hp Hd. destruct (H7 Hp) as [Hd'|He]; [by rewrite Hd' in Hd|]. rewrite H4, take_app_le by done. apply prefix_take.
  - intros buf Hp. rewrite Hp in H6, H8. split_and!; [by apply H8|apply H9; by exists buf|by apply H6].
Qed.

(** ** Nobody waits for the socket *)

(** An upper bound on the steps a call of [send] still takes, and on those of
    [run] once the socket is dead. *)
Definition send_rank (p : sendPc) : nat :=
  match p with SStart _ => 7 | SAdd _ => 6 | SSelect _ => 5 | SSub _ _ => 4 | SDiscard => 3 | SSignal => 2 | SKill => 1 | SDone _ => 0 end.
Definition run_rank (p : runPc) : nat :=
  match p with RSelect => 9 | RFlush => 8 | RFlushSelect => 7 | RCount _ _ => 6 | RWrite _ _ => 5 | RDiscard _ => 4 | RSignal _ => 3 | RKill _ => 2 | RExit _ => 1 end.

Definition own (i : nat) (e : event) : nat := match e with SendStep j _ => if (i =? j)%nat then 1 else 0 | _ => 0 end.
Definition runs (e : event) : nat := match e with RunStep _ _ => 1 | _ => 0 end.
Definition count (f : event -> nat) (evs : list event) : nat := sum_list (map f evs).

Lemma send_step_rank w i p pick w' : sends w !! i = Some p -> send_step w i p pick = Some w' ->
  exists p', sends w' !! i = Some p' /\ (send_rank p' < send_rank p)%nat /\ forall j, j <> i -> sends w' !! j = sends w !! j.
Proof.
  intros Hi Hs. assert (Hset : forall w0 p', sends w0 = sends w -> (send_rank p' < send_rank p)%nat -> w' = set_send w0 i p' ->
    exists p', sends w' !! i = Some p' /\ (send_rank p' < send_rank p)%nat /\ forall j, j <> i -> sends w' !! j = sends w !! j).
  { intros w0 p' H0 Hr ->. exists p'. cbn. rewrite H0. split; [by apply list_lookup_insert_eq; eapply lookup_lt_Some|]. split; [done|]. intros j Hj. by rewrite list_lookup_insert_ne. }
  destruct p as [buf|buf|buf|buf e| | | |e]; cbn [send_step] in Hs.
  - destruct (len buf =? 0); [|destruct (closed w)]; injection Hs as <-; (eapply Hset; [| |reflexivity]); cbn; done || lia.
  - injection Hs as <-. destruct (_ <? _); (eapply Hset; [| |reflexivity]); cbn; done || lia.
  - destruct (_ && _); [|destruct (closed w)]; injection Hs as <-; (eapply Hset; [| |reflexivity]); cbn; done || lia.
  - injection Hs as <-. destruct e; (eapply Hset; [| |reflexivity]); cbn; done || lia.
  - injection Hs as <-. (eapply Hset; [| |reflexivity]); cbn; done || lia.
  - injection Hs as <-. (eapply Hset; [| |reflexivity]); cbn; done || lia.
  - injection Hs as <-. (eapply Hset; [| |reflexivity]); cbn; done || lia.
  - done.
Qed.

Lemma run_step_sends w pick ok w' : run_step w pick ok = Some w' -> sends w' = sends w.
Proof. unfold run_step. intros Hs. repeat case_match; try discriminate Hs; by injection Hs as <-. Qed.

Lemma close_step_sends w i p timeout w' : close_step w i p timeout = Some w' -> sends w' = sends w.
Proof. unfold close_step. intros Hs. repeat case_match; try discriminate Hs; by injection Hs as <-. Qed.

Lemma step_rank w e w' i p : step w e = Some w' -> sends w !! i = Some p -> exists p', sends w' !! i = Some p' /\ (send_rank p' + own i e <= send_rank p)%nat.
Proof.
  intros Hs Hi. destruct e as [buf| |j pick|pick ok|j timeout]; cbn [step own] in *.
  - injection Hs as <-. exists p. cbn. split; [by apply lookup_app_l_Some|lia].
  - injection Hs as <-. exists p. split; [done|lia].
  - destruct (sends w !! j) as [pj|] eqn:Hj; [|done]. destruct (send_step_rank _ _ _ _ _ Hj Hs) as (p' & Hp' & Hr & Ho). destruct (Nat.eqb_spec i j) as [->|Hne].
    + exists p'. split; [done|]. rewrite Hi in Hj. injection Hj as ->. lia.
    + exists p. rewrite Ho by done. split; [done|lia].
  - exists p. rewrite (run_step_sends _ _ _ _ Hs). split; [done|lia].
  - destruct (closes w !! j) as [c|]; [|done]. exists p. rewrite (close_step_sends _ _ _ _ _ Hs). split; [done|lia].
Qed.

Lemma run_send_rank evs i : forall w w' p, run w evs = Some w' -> sends w !! i = Some p ->
  exists p', sends w' !! i = Some p' /\ (send_rank p' + count (own i) evs <= send_rank p)%nat.
Proof.
  induction evs as [|e evs IH]; intros w w' p Hr Hi; cbn [run count map sum_list sum_list_with foldr] in *.
  - injection Hr as <-. exists p. split; [done|]. cbn. lia.
  - destruct (step w e) as [w1|] eqn:Hs; [|done]. destruct (step_rank _ _ _ _ _ Hs Hi) as (p1 & Hp1 & H1). destruct (IH _ _ _ Hr Hp1) as (p' & Hp' & H2).
    exists p'. split; [done|]. unfold count in *. cbn. lia.
Qed.

(** The socket is dead and the queue shut. *)
Definition dead (w : connWriter) : Prop := killed w = true /\ closed w = true.

Lemma send_step_frame w i p pick w' : send_step w i p pick = Some w' -> pc w' = pc w /\ (dead w -> dead w').
Proof.
  unfold dead. intros Hs. destruct p; cbn [send_step] in Hs; repeat case_match; try discriminate Hs; injection Hs as <-; (split; [done|by intros [? ?]]).
Qed.

Lemma close_step_frame w i p timeout w' : close_step w i p timeout = Some w' -> pc w' = pc w /\ (dead w -> dead w').
Proof. unfold dead, close_step. intros Hs. repeat case_match; try discriminate Hs; injection Hs as <-; (split; [done|by intros [? ?]]). Qed.

Lemma run_step_dead w pick ok w' : dead w -> run_step w pick ok = Some w' -> dead w' /\ (run_rank (pc w') < run_rank (pc w))%nat.
Proof.
  unfold dead, run_step. intros [Hk Hc] Hs. rewrite Hk in Hs. rewrite andb_false_r in Hs.
  destruct (pc w) eqn:Hpc; repeat case_match; try discriminate Hs; injection Hs as <-; cbn; rewrite ?Hk, ?Hc; split; (done || lia).
Qed.

Lemma run_dead evs : forall w w', dead w -> run w evs = Some w' -> dead w' /\ (run_rank (pc w') + count runs evs <= run_rank (pc w))%nat.
Proof.
  induction evs as [|e evs IH]; intros w w' Hd Hr; cbn [run] in Hr.
  - injection Hr as <-. split; [done|]. unfold count. cbn. lia.
  - destruct (step w e) as [w1|] eqn:Hs; [|done]. assert (H1 : dead w1 /\ (run_rank (pc w1) + runs e <= run_rank (pc w))%nat).
    { destruct e as [buf| |j pick|pick ok|j timeout]; cbn [step runs] in *.
      - injection Hs as <-. split; [done|cbn; lia].
      - injection Hs as <-. split; [done|cbn; lia].
      - destruct (sends w !! j) as [p|]; [|done]. destruct (send_step_frame _ _ _ _ _ Hs) as [-> Hf]. split; [by apply Hf|lia].
      - destruct (run_step_dead _ _ _ _ Hd Hs). split; [done|lia].
      - destruct (closes w !! j) as [p|]; [|done]. destruct (close_step_frame _ _ _ _ _ Hs) as [-> Hf]. split; [by apply Hf|lia]. }
    destruct H1 as [Hd1 H1]. destruct (IH _ _ Hd1 Hr) as [Hd' H2]. split; [done|]. unfold count in *. cbn. lia.
Qed.

Lemma run_step_enabled w pick ok : closed w = true -> finished w = false -> exists w', run_step w pick ok = Some w'.
Proof. unfold run_step, finished. intros -> Hf. destruct (pc w); try done; repeat case_match; by eexists. Qed.

Lemma send_step_enabled w i p pick : (forall e, p <> SDone e) -> exists w', send_step w i p pick = Some w'.
Proof. intros Hp. destruct p; cbn [send_step]; repeat case_match; try (by eexists). by destruct (Hp e). Qed.

(** Nobody waits for the peer: a call of [send] returns after at most seven
    steps of its own, each of which it can take in whatever state the others, the
    queue and the socket are; and once [Close] has given up on a peer and killed
    the socket, the writer goroutine returns after at most nine steps of its own,
    each of which it can take, whatever is queued and whoever still sends, so that
    [Close] returns too. *)
Theorem send_wait_free (w w' : connWriter) (evs : list event) : run w evs = Some w' ->
  (forall i p, sends w !! i = Some p -> exists p', sends w' !! i = Some p' /\ (send_rank p' + count (own i) evs <= 7)%nat /\
    ((forall e, p' <> SDone e) -> forall pick, exists w'', step w' (SendStep i pick) = Some w'')) /\
  (killed w = true -> closed w = true -> (count runs evs <= 8)%nat /\
    (finished w' = false -> forall pick ok, exists w'', step w' (RunStep pick ok) = Some w'')).
Proof.
  intros Hr. split.
  - intros i p Hi. destruct (run_send_rank _ _ _ _ _ Hr Hi) as (p' & Hp' & Hrank). exists p'. split; [done|]. assert (send_rank p <= 7)%nat by (destruct p; cbn; lia).
    split; [lia|]. intros Hn pick. cbn [step]. rewrite Hp'. by apply send_step_enabled.
  - intros Hk Hc. destruct (run_dead _ _ _ (conj Hk Hc) Hr) as [[_ Hc'] Hrank]. assert (run_rank (pc w) <= 9)%nat by (destruct (pc w); cbn; lia).
    assert (1 <= run_rank (pc w'))%nat by (destruct (pc w'); cbn; lia). split; [lia|]. intros Hf pick ok. by apply run_step_enabled.
Qed.

(** ** A frame is sent, the queue shut, a second frame refused *)

Definition ex_frame : bytes := [Byte.x01; Byte.x02].
Definition ex_late : bytes := [Byte.x03].
Definition ex_events : list event :=
  [Send ex_frame; SendStep 0 true; SendStep 0 true; SendStep 0 true; Close; CloseStep 0 false; Send ex_late; SendStep 1 true;
   RunStep false true; RunStep true true; RunStep true true; RunStep true true; RunStep true true; RunStep true true; RunStep true true; CloseStep 0 false].
Definition ex_end : connWriter :=
  mkWriter [] 0 true false false (RExit None) [SDone None; SDone (Some errWriterClosed)] [CDone] [ex_frame] [ex_frame] 1.

Lemma writer_bounded_witness : len (q ex_end) <= 1024 /\ queued ex_end = 0.
Proof.
  assert (Hr : reachable ex_end) by (exists ex_events; vm_compute; reflexivity). destruct (writer_bounded ex_end Hr) as (H1 & _ & _ & H2).
  split; [exact H1|]. apply H2; [|reflexivity]. repeat constructor; by eexists.
Defined.

Lemma writer_delivers_witness : [ex_frame] `prefix_of` wire ex_end.
Proof.
  assert (Hr : reachable ex_end) by (exists ex_events; vm_compute; reflexivity). destruct (writer_delivers ex_end Hr) as (_ & _ & H & _). exact (H eq_refl eq_refl).
Defined.

Lemma send_wait_free_witness : exists p, sends ex_end !! 0%nat = Some p /\ (send_rank p + count (own 0) (drop 1 ex_events) <= 7)%nat.
Proof.
  assert (Hr : run (mkWriter [] 0 false false false RSelect [SStart ex_frame] [] [] [] 0) (drop 1 ex_events) = Some ex_end) by (vm_compute; reflexivity).
  destruct (send_wait_free _ _ _ Hr) as [H _]. destruct (H 0%nat (SStart ex_frame) eq_refl) as (p & Hp & Hc & _). by exists p.
Defined.
End Writer.
