(* ===== verification/Worker.v ===== *)
(** The accept loop and the workers: [internal/parent/listener.go], [worker.go]
    and [privdrop_linux.go].

    With a worker per connection, the process that serves a connection gives its
    privileges up for those of the user who authenticates on it. *)

From S2P Require Import Prelude Smb2 Config.

Module Worker.

(** ** Accepting *)

Definition acceptRetryDelayMin : Z := 5.
Definition acceptRetryDelayMax : Z := 1000.

(** What [Accept] fails with: an errno, a timeout, or anything else. *)
Inductive acceptErr := EMFILE | ENFILE | ENOBUFS | ENOMEM | ECONNABORTED | ECONNRESET | EINTR | EAGAIN | EPERM | Timeout | Permanent.

Definition isTemporaryAcceptError (e : acceptErr) : bool := match e with Permanent => false | _ => true end.

(** The delays, in milliseconds; [0] before the first. *)
Definition next_delay (d : Z) : Z :=
  if d =? 0 then acceptRetryDelayMin else if d <? acceptRetryDelayMax then Z.min (d * 2) acceptRetryDelayMax else d.

(** What one turn of the loop meets. *)
Inductive turn := Accepted | Failed (e : acceptErr) | Cancelled | CancelledInWait (e : acceptErr).

(** [Serve], turn by turn: the delay to go on with, or what it returns. *)
Definition serve_turn (delay : Z) (t : turn) : Z + option acceptErr :=
  match t with
  | Accepted => inl 0
  | Cancelled => inr None
  | Failed e => if isTemporaryAcceptError e then inl (next_delay delay) else inr (Some e)
  | CancelledInWait e => if isTemporaryAcceptError e then inr None else inr (Some e)
  end.

Fixpoint serve_loop (delay : Z) (ts : list turn) : Z + option acceptErr :=
  match ts with
  | [] => inl delay
  | t :: ts => match serve_turn delay t with inl d => serve_loop d ts | inr r => inr r end
  end.

(** ** The number of workers *)

Definition maxConcurrentWorkers : Z := 128.

(** [workerSemaphore]: the slots taken. *)
Definition acquire (slots : Z) : Z * bool := if slots <? maxConcurrentWorkers then (slots + 1, true) else (slots, false).
Definition release (slots : Z) : Z := if 0 <? slots then slots - 1 else slots.

(** The steps of [reExecWorker] that can fail. *)
Inductive spawnErr := errWorkerLimit | NoDescriptor | DupFailed | StartFailed.

(** [reExecWorker], from the semaphore's slots and what fails, to the slots and the
    outcome; the slot of a child that started is released when it is reaped. *)
Definition reExecWorker (slots : Z) (fails : option spawnErr) : Z * option spawnErr :=
  match acquire slots with
  | (slots, false) => (slots, Some errWorkerLimit)
  | (slots, true) => match fails with Some e => (release slots, Some e) | None => (slots, None) end
  end.

(** The parent process: connections arrive, children exit.  [children] are those
    that run. *)
Record parentState := mkParent { slots : Z; children : Z }.
Inductive parentStep (p : parentState) : parentState -> Prop :=
  | step_spawn fails : fails <> Some errWorkerLimit ->
      parentStep p (let r := reExecWorker (slots p) fails in mkParent r.1 (match r.2 with None => children p + 1 | Some _ => children p end))
  | step_reap : 0 < children p -> parentStep p (mkParent (release (slots p)) (children p - 1)).

(** ** Privileges *)

Record privDropPlan := mkPlan { Drop : bool; Skip : bool; UID : Z; GID : Z; Groups : option (list Z) }.

Definition decidePrivDrop (euid targetUID targetGID : Z) (groups : option (list Z)) : privDropPlan :=
  if negb (euid =? 0) then mkPlan false true targetUID targetGID groups else
  if targetUID =? euid then mkPlan false true targetUID targetGID groups else
  mkPlan true false targetUID targetGID groups.

Definition ShouldUsePrivdropWorker (explicit : bool) (euid : Z) (users : list Config.UserConfig) : bool :=
  if explicit then true else if negb (euid =? 0) then false else existsb (fun u => negb (Config.SystemUID u =? 0)) users.

(** The identities of a process. *)
Record cred := mkCred { ruid : Z; euid : Z; suid : Z; rgid : Z; egid : Z; sgid : Z; groups : list Z }.
Definition root_cred (gs : list Z) : cred := mkCred 0 0 0 0 0 0 gs.

(** The three calls, as their pages document them: only root may make them here,
    each changes all the identities it names, for every thread, or none.  [ok] is
    false where the call fails for another reason. *)
Definition Setgroups (c : cred) (ok : bool) (g : list Z) : option cred :=
  if (euid c =? 0) && ok then Some (mkCred (ruid c) (euid c) (suid c) (rgid c) (egid c) (sgid c) g) else None.
Definition Setresgid (c : cred) (ok : bool) (g : Z) : option cred :=
  if (euid c =? 0) && ok then Some (mkCred (ruid c) (euid c) (suid c) g g g (groups c)) else None.
Definition Setresuid (c : cred) (ok : bool) (u : Z) : option cred :=
  if (euid c =? 0) && ok then Some (mkCred u u u (rgid c) (egid c) (sgid c) (groups c)) else None.

(** The credentials left, and whether an error is returned. *)
Definition applyPrivDrop (c : cred) (oks : bool * bool * bool) (plan : privDropPlan) : cred * bool :=
  let '(ok1, ok2, ok3) := oks in
  if negb (Drop plan) then (c, true) else
  match Setgroups c ok1 (default [GID plan] (Groups plan)) with
  | None => (c, false)
  | Some c =>
      match Setresgid c ok2 (GID plan) with
      | None => (c, false)
      | Some c =>
          match Setresuid c ok3 (UID plan) with
          | None => (c, false)
          | Some c => (c, euid c =? UID plan)
          end
      end
  end.

Definition maxSupplementaryGroups : Z := 65536.

(** The groups of an account: its primary gid, then the others, once each.  [ids]
    is what the user database answers: [None] for no account, or no groups. *)
Fixpoint group_loop (seen : list Z) (ids : list bytes) : option (list Z) :=
  match ids with
  | [] => Some []
  | s :: ids =>
      n ← Config.Atoi s;
      if bool_decide (n ∈ seen) then group_loop seen ids else rest ← group_loop (n :: seen) ids; Some (n :: rest)
  end.

Definition resolveSupplementaryGroups (ids : option (list bytes)) (gid : Z) : option (list Z) :=
  ids ← ids; rest ← group_loop [gid] ids; Some (gid :: rest).

Definition privDropGroups (ids : option (list bytes)) (gid : Z) : list Z :=
  match resolveSupplementaryGroups ids gid with
  | None => [gid]
  | Some gs => if maxSupplementaryGroups <? len gs then take (Z.to_nat maxSupplementaryGroups) gs else gs
  end.

(** The worker's process: its credentials, and the [dropped] and [droppedUID] of
    [RunWorker]'s hook. *)
Record worker := mkWorker { creds : cred; droppedUID : option Z }.

(** The hook [RunWorker] installs as [OnAuthenticated], for a session of [u]: the
    process after it, and whether the connection goes on. *)
Definition onAuthenticated (w : worker) (u : Config.UserConfig) (ids : option (list bytes)) (oks : bool * bool * bool) : worker * bool :=
  let uid := Config.SystemUID u in
  let gid := Config.SystemGID u in
  match droppedUID w with
  | Some d => (w, uid =? d)
  | None =>
      let plan := decidePrivDrop (euid (creds w)) uid gid None in
      if Skip plan then (mkWorker (creds w) (Some uid), true) else
      let plan := mkPlan (Drop plan) (Skip plan) (UID plan) (GID plan) (Some (privDropGroups ids gid)) in
      match applyPrivDrop (creds w) oks plan with
      | (c, false) => (mkWorker c None, false)
      | (c, true) => (mkWorker c (Some uid), true)
      end
  end.

(** ** The accept loop survives *)

Lemma next_delay_range d : d = 0 \/ acceptRetryDelayMin <= d <= acceptRetryDelayMax ->
  acceptRetryDelayMin <= next_delay d <= acceptRetryDelayMax /\ d <= next_delay d.
Proof. unfold next_delay, acceptRetryDelayMin, acceptRetryDelayMax. destruct (Z.eqb_spec d 0); [lia|]. destruct (Z.ltb_spec d 1000); lia. Qed.

(** The loop ends only for a permanent error or because the server stops; and the
    delay before each retry is between 5 ms and a second. *)
Theorem accept_loop_survives (ts : list turn) :
  (forall e, serve_loop 0 ts = inr (Some e) -> e = Permanent) /\
  (serve_loop 0 ts = inr None -> exists t, t ∈ ts /\ (t = Cancelled \/ exists e, t = CancelledInWait e)) /\
  (forall d, serve_loop 0 ts = inl d -> d = 0 \/ 5 <= d <= 1000).
Proof.
  assert (H : forall ts d, d = 0 \/ 5 <= d <= 1000 ->
    (forall e, serve_loop d ts = inr (Some e) -> e = Permanent) /\
    (serve_loop d ts = inr None -> exists t, t ∈ ts /\ (t = Cancelled \/ exists e, t = CancelledInWait e)) /\
    (forall d', serve_loop d ts = inl d' -> d' = 0 \/ 5 <= d' <= 1000)); [|by apply H; left].
  clear ts. induction ts as [|t ts IH]; intros d Hd; cbn [serve_loop]; [split_and!; [done|done|by intros ? [= <-]]|].
  assert (Hgo : forall d', d' = 0 \/ 5 <= d' <= 1000 -> (forall e, serve_loop d' ts = inr (Some e) -> e = Permanent) /\
    (serve_loop d' ts = inr None -> exists t', t' ∈ t :: ts /\ (t' = Cancelled \/ exists e, t' = CancelledInWait e)) /\
    (forall d'', serve_loop d' ts = inl d'' -> d'' = 0 \/ 5 <= d'' <= 1000)).
  { intros d' Hd'. destruct (IH d' Hd') as (H1 & H2 & H3). split_and!; [done| |done]. intros Hn. destruct (H2 Hn) as (t' & Ht & Hc). exists t'. split; [by apply elem_of_cons; right|done]. }
  destruct t as [|e| |e]; cbn [serve_turn].
  - apply Hgo. by left.
  - destruct e; cbn [isTemporaryAcceptError]; try (apply Hgo; right; by apply (next_delay_range d)). split_and!; [by intros ? [= <-]|done|done].
  - split_and!; [done| |done]. intros _. exists Cancelled. split; [apply elem_of_cons; by left|by left].
  - assert (Hin : exists t', t' ∈ CancelledInWait e :: ts /\ (t' = Cancelled \/ exists e', t' = CancelledInWait e')) by (exists (CancelledInWait e); split; [apply elem_of_cons; by left|right; by exists e]).
    destruct e; cbn [isTemporaryAcceptError]; split_and!; try done; by intros ? [= <-].
Qed.

(** A slot is held exactly for each child that runs, and there are at most 128. *)
Theorem worker_slots_exact (p : parentState) : rtc parentStep (mkParent 0 0) p -> slots p = children p /\ 0 <= children p <= 128.
Proof.
  intros Hr. assert (H0 : slots (mkParent 0 0) = children (mkParent 0 0) /\ 0 <= children (mkParent 0 0) <= 128) by done. revert H0.
  induction Hr as [p|p p1 p2 Hs _ IH]; [done|]. intros [He Hb]. apply IH. destruct Hs as [fails Hf|Hc]; cbn.
  - unfold reExecWorker, acquire. rewrite He. destruct (Z.ltb_spec (children p) maxConcurrentWorkers) as [Hl|Hl]; [|done].
    unfold maxConcurrentWorkers in *. destruct fails as [e|]; cbn; [|lia]. unfold release. rewrite (proj2 (Z.ltb_lt _ _)) by lia. lia.
  - unfold release. rewrite He, (proj2 (Z.ltb_lt _ _)) by lia. lia.
Qed.

(** ** A drop is whole *)

(** What a process is that has dropped to [u]: every identity is the user's, and
    so are the groups. *)
Definition dropped_to (c : cred) (uid gid : Z) (gs : list Z) : Prop := c = mkCred uid uid uid gid gid gid gs.

Lemma apply_drop_spec c oks uid gid gs c' ok : euid c = 0 -> uid <> 0 -> applyPrivDrop c oks (mkPlan true false uid gid (Some gs)) = (c', ok) ->
  (ok = true -> dropped_to c' uid gid gs) /\ (ok = false -> euid c' = 0) /\ (oks = (true, true, true) -> ok = true).
Proof.
  destruct oks as [[ok1 ok2] ok3], c as [ru eu su rg eg sg g0]. cbn [euid]. intros -> Hu. destruct ok1, ok2, ok3; cbn; intros [= <- <-]; rewrite ?Z.eqb_refl; done.
Qed.

(** The groups of a drop are the primary gid first, without repetition; none of the
    old ones. *)
Lemma group_loop_spec ids : forall seen gs, group_loop seen ids = Some gs -> NoDup gs /\ Forall (fun g => g ∉ seen) gs /\ Forall (fun g => exists s, s ∈ ids /\ Config.Atoi s = Some g) gs.
Proof.
  induction ids as [|s ids IH]; intros seen gs; cbn [group_loop]; [intros [= <-]; split_and!; constructor|]. destruct (Config.Atoi s) as [n|] eqn:Hn; [|done]. cbn [mbind option_bind].
  assert (Hin : forall gs', Forall (fun g => exists s', s' ∈ ids /\ Config.Atoi s' = Some g) gs' -> Forall (fun g => exists s', s' ∈ s :: ids /\ Config.Atoi s' = Some g) gs').
  { intros gs' H. apply (Forall_impl _ _ _ H). intros g (s' & Hs & Ha). exists s'. split; [by apply elem_of_cons; right|done]. }
  case_bool_decide as Hs.
  - intros H. destruct (IH _ _ H) as (H1 & H2 & H3). split_and!; [done|done|by apply Hin].
  - destruct (group_loop (n :: seen) ids) as [rest|] eqn:Hr; [|done]. intros [= <-]. destruct (IH _ _ Hr) as (H1 & H2 & H3). split_and!.
    + constructor; [|done]. intros Hni. rewrite Forall_forall in H2. apply (H2 n Hni). apply elem_of_cons. by left.
    + constructor; [done|]. apply (Forall_impl _ _ _ H2). intros g Hg Hg'. apply Hg. apply elem_of_cons. by right.
    + constructor; [exists s; split; [apply elem_of_cons; by left|done]|by apply Hin].
Qed.

Theorem drop_groups_spec (ids : option (list bytes)) (gid : Z) : let gs := privDropGroups ids gid in
  head gs = Some gid /\ NoDup gs /\ len gs <= 65536 /\
  Forall (fun g => g = gid \/ exists l s, ids = Some l /\ s ∈ l /\ Config.Atoi s = Some g) gs.
Proof.
  cbv zeta. unfold privDropGroups, resolveSupplementaryGroups. destruct ids as [l|]; cbn [mbind option_bind]; [|split_and!; [done|by apply NoDup_singleton|done|by repeat constructor]].
  destruct (group_loop [gid] l) as [rest|] eqn:Hr; cbn [mbind option_bind]; [|split_and!; [done|by apply NoDup_singleton|done|by repeat constructor]].
  destruct (group_loop_spec _ _ _ Hr) as (H1 & H2 & H3).
  assert (Hnd : NoDup (gid :: rest)).
  { constructor; [|done]. intros Hin. rewrite Forall_forall in H2. apply (H2 gid Hin). apply elem_of_cons. by left. }
  assert (Hall : Forall (fun g => g = gid \/ exists l' s, Some l = Some l' /\ s ∈ l' /\ Config.Atoi s = Some g) (gid :: rest)).
  { constructor; [by left|]. apply (Forall_impl _ _ _ H3). intros g (s & Hs & Ha). right. by exists l, s. }
  destruct (Z.ltb_spec maxSupplementaryGroups (len (gid :: rest))) as [Hl|Hl]; [|done].
  change (Z.to_nat maxSupplementaryGroups) with (S (Z.to_nat 65535)). cbn [take]. split_and!.
  - done.
  - change (gid :: take (Z.to_nat 65535) rest) with (take (S (Z.to_nat 65535)) (gid :: rest)). rewrite <- (take_drop (S (Z.to_nat 65535)) (gid :: rest)) in Hnd. by apply NoDup_app in Hnd as (Hnd & _).
  - rewrite len_cons. unfold len. rewrite length_take. lia.
  - apply Forall_cons in Hall as [Hg Hall]. constructor; [done|]. by apply Forall_take.
Qed.
End Worker.
