(* ===== verification/Serve.v ===== *)
(** How a connection runs its frames: the pool and the read loop of [ServeConn] in
    [internal/parent/conn.go], over the process [RunWorker] of [worker.go] makes.

    A frame that may authenticate runs alone; any other runs on the pool beside the
    rest.  The events carry what [HandleSessionSetup] and [Dispatch] answer. *)

From S2P Require Import Prelude Smb2 Frames ShareMode Config Worker.
Import Worker.

Module Serve.

Definition minConnWorkers : Z := 8.
Definition maxConnWorkers : Z := 64.

Definition connWorkers (NumCPU : Z) : Z :=
  let n := NumCPU * 2 in
  let n := if n <? minConnWorkers then minConnWorkers else n in
  let n := if maxConnWorkers <? n then maxConnWorkers else n in
  if Credits.creditWindow <? n then Credits.creditWindow else n.

(** A frame that is executing: the messages left, whether the chain was whole, and
    the identity it started under. *)
Record exec := mkExec { msgs : list (Header.Header * bytes); wellFormed : bool; asUser : Z }.

Definition start (w : worker) (frame : bytes) : exec := let '(ms, ok) := Chain.walk frame in mkExec ms ok (euid (creds w)).

(** Where the read goroutine is: reading; in [drain] before a serial frame; in
    that frame; waiting for a slot; in the teardown, before and after its [drain]. *)
Inductive loopPc := Top | Draining (frame : bytes) | Serial (x : exec) | Submitting (frame : bytes) | TearDrain | Released.

(** [authed] are the accounts of the sessions that authenticated. *)
Record conn := mkConn { loop : loopPc; pool : list exec; aborted : bool; proc : worker; authed : list Z }.

(** What a message's handler does: [Dispatch]'s answer; an error of
    [HandleSessionSetup], a leg that is not the last, a session of a user, with what
    the user database and the kernel answer to the hook. *)
Inductive outcome :=
  | Handled (go : bool) | SetupFails | SetupContinues
  | SetupDone (u : Config.UserConfig) (ids : option (list bytes)) (oks : bool * bool * bool).

(** One message of a chain: the process, the account that authenticated, whether
    the chain goes on. *)
Definition serve_message (w : worker) (h : Header.Header) (o : outcome) : option (worker * list Z * bool) :=
  if Header.Command h =? Const.CommandSessionSetup then
    match o with
    | SetupFails => Some (w, [], false)
    | SetupContinues => Some (w, [], true)
    | SetupDone u ids oks => let '(w, ok) := onAuthenticated w u ids oks in Some (w, if ok then [Config.SystemUID u] else [], ok)
    | Handled _ => None
    end
  else match o with Handled go => Some (w, [], go) | _ => None end.

(** What happens to the connection; [None] names the serial frame, [Some i] one of
    the pool. *)
Inductive event := Arrive (frame : bytes) | ReadFails | Drained | Submitted | Message (i : option nat) (o : outcome) | End (i : option nat).

Definition set_loop (s : conn) (p : loopPc) : conn := mkConn p (pool s) (aborted s) (proc s) (authed s).

Section Serve.
(** The slots of the pool. *)
Context (n : Z).

(** A message of a chain; [after] is the connection with the chain going on, or
    not. *)
Definition message (s : conn) (x : exec) (o : outcome) (after : worker -> list Z -> option exec -> conn) : option conn :=
  match msgs x with
  | [] => None
  | m :: ms =>
      match serve_message (proc s) m.1 o with
      | None => None
      | Some (w, uids, go) => Some (after w (authed s ++ uids) (if go then Some (mkExec ms (wellFormed x) (asUser x)) else None))
      end
  end.

Definition step (s : conn) (e : event) : option conn :=
  match e, loop s with
  | Arrive frame, Top => Some (set_loop s (if Chain.frameNeedsSerialExecution frame then Draining frame else Submitting frame))
  | ReadFails, Top => Some (set_loop s TearDrain)
  | Drained, Draining frame => if bool_decide (pool s = []) then Some (set_loop s (Serial (start (proc s) frame))) else None
  | Drained, TearDrain => if bool_decide (pool s = []) then Some (set_loop s Released) else None
  | Submitted, Submitting frame => if len (pool s) <? n then Some (mkConn Top (pool s ++ [start (proc s) frame]) (aborted s) (proc s) (authed s)) else None
  | Message None o, Serial x => message s x o (fun w uids x => mkConn (match x with Some x => Serial x | None => TearDrain end) (pool s) (aborted s) w uids)
  | End None, Serial x => match msgs x with [] => Some (set_loop s (if wellFormed x then Top else TearDrain)) | _ => None end
  | Message (Some i) o, _ =>
      match pool s !! i with
      | None => None
      | Some x =>
          message s x o (fun w uids x =>
            match x with
            | Some x => mkConn (loop s) (<[i := x]> (pool s)) (aborted s) w uids
            | None => mkConn (loop s) (delete i (pool s)) true w uids
            end)
      end
  | End (Some i), _ =>
      match pool s !! i with
      | Some (mkExec [] wf _) => Some (mkConn (loop s) (delete i (pool s)) (if wf then aborted s else true) (proc s) (authed s))
      | _ => None
      end
  | _, _ => None
  end.

Fixpoint run (s : conn) (evs : list event) : option conn :=
  match evs with [] => Some s | e :: evs => s ← step s e; run s evs end.

Definition fresh (w : worker) : conn := mkConn Top [] false w [].
Definition reachable (w : worker) (s : conn) : Prop := exists evs, run (fresh w) evs = Some s.

(** ** One identity *)

(** The process has the identity of the account that authenticated, for good. *)
Definition settled (w : worker) (uids : list Z) : Prop :=
  let c := creds w in ruid c = euid c /\ suid c = euid c /\
  match droppedUID w with None => euid c = 0 /\ uids = [] | Some d => euid c = d /\ Forall (fun u => u = d) uids end.

(** Every group too, where there was a drop. *)
Definition drop_whole (w : worker) : Prop :=
  match droppedUID w with None => True | Some d => d = 0 \/ exists gid ids, dropped_to (creds w) d gid (privDropGroups ids gid) end.

Definition no_setup (x : exec) : Prop := Forall (fun m : Header.Header * bytes => Header.Command m.1 <> Const.CommandSessionSetup) (msgs x).

Record Inv (s : conn) : Prop := {
  inv_settled : settled (proc s) (authed s);
  inv_whole : drop_whole (proc s);
  inv_pool : Forall (fun x => no_setup x /\ asUser x = euid (creds (proc s))) (pool s);
  inv_slots : len (pool s) <= Z.max 0 n;
  inv_alone : (exists x, loop s = Serial x) \/ loop s = Released -> pool s = [];
  inv_submit : forall f, loop s = Submitting f -> Chain.frameNeedsSerialExecution f = false }.

Lemma hook_settled w u ids oks uids w' ok : settled w uids -> onAuthenticated w u ids oks = (w', ok) ->
  settled w' (uids ++ if ok then [Config.SystemUID u] else []).
Proof.
  unfold settled, onAuthenticated. intros (Hr & Hs & Hd). destruct (droppedUID w) as [d|] eqn:Hw.
  - intros [= <- <-]. rewrite Hw. destruct Hd as [He Hall]. split_and!; [done..|]. apply Forall_app_2; [done|]. destruct (Z.eqb_spec (Config.SystemUID u) d); by repeat constructor.
  - destruct Hd as [H0 ->]. unfold decidePrivDrop. rewrite H0. cbn [Z.eqb negb]. destruct (Z.eqb_spec (Config.SystemUID u) 0) as [Hu|Hu]; cbn [Skip].
    + intros [= <- <-]. cbn. rewrite H0, Hu. split_and!; try done; [congruence..|by repeat constructor].
    + cbn [Drop UID GID]. destruct (applyPrivDrop _ _ _) as [c b] eqn:Ha. destruct (apply_drop_spec _ _ _ _ _ _ _ H0 Hu Ha) as (Hok & Hno & _).
      destruct b; intros [= <- <-]; cbn.
      * rewrite (Hok eq_refl). cbn. split_and!; try done. by repeat constructor.
      * specialize (Hno eq_refl). clear Hok. destruct oks as [[o1 o2] o3]. unfold applyPrivDrop, Setgroups, Setresgid, Setresuid in Ha. cbn [Drop negb] in Ha.
        rewrite H0 in Ha. destruct w as [[ru eu su rg eg sg gs] dr]. cbn in *. subst. destruct o1, o2, o3; cbn in Ha; try (rewrite Z.eqb_refl in Ha); injection Ha as <-; try discriminate; cbn; done.
Qed.

Lemma hook_whole w u ids oks uids w' ok : settled w uids -> drop_whole w -> onAuthenticated w u ids oks = (w', ok) -> drop_whole w'.
Proof.
  unfold settled, drop_whole, onAuthenticated. intros (Hr & Hs & Hd) Hw. destruct (droppedUID w) as [d|] eqn:Hdr; [intros [= <- _]; by rewrite Hdr|].
  destruct Hd as [H0 _]. unfold decidePrivDrop. rewrite H0. cbn [Z.eqb negb]. destruct (Z.eqb_spec (Config.SystemUID u) 0) as [Hu|Hu]; cbn [Skip]; [intros [= <- _]; by left|].
  cbn [Drop UID GID]. destruct (applyPrivDrop _ _ _) as [c b] eqn:Ha. destruct (apply_drop_spec _ _ _ _ _ _ _ H0 Hu Ha) as (Hok & _ & _).
  destruct b; intros [= <- _]; cbn; [|done]. right. exists (Config.SystemGID u), ids. by apply Hok.
Qed.

Lemma serve_message_settled w h o w' uids uids' go : settled w uids -> drop_whole w -> serve_message w h o = Some (w', uids', go) -> settled w' (uids ++ uids') /\ drop_whole w'.
Proof.
  intros Hs Hd. unfold serve_message. destruct (_ =? _).
  - destruct o as [b| | |u ids oks]; [done| | |].
    + intros [= <- <- <-]. by rewrite app_nil_r.
    + intros [= <- <- <-]. by rewrite app_nil_r.
    + destruct (onAuthenticated w u ids oks) as [w1 ok] eqn:Hh. intros [= <- <- <-]. split; [by apply (hook_settled _ _ _ _ _ _ _ Hs Hh)|by apply (hook_whole _ _ _ _ _ _ _ Hs Hd Hh)].
  - destruct o; try done. intros [= <- <- <-]. by rewrite app_nil_r.
Qed.

(** A message that is not a SESSION_SETUP leaves the process alone. *)
Lemma serve_message_quiet w h o r : Header.Command h <> Const.CommandSessionSetup -> serve_message w h o = Some r -> r.1 = (w, []).
Proof. intros Hh. unfold serve_message. rewrite (proj2 (Z.eqb_neq _ _) Hh). destruct o; try done. by intros [= <-]. Qed.

Lemma start_quiet w f : Chain.frameNeedsSerialExecution f = false -> no_setup (start w f) /\ asUser (start w f) = euid (creds w).
Proof.
  intros Hf. unfold start, no_setup. destruct (Chain.serial_loop_walk (S (length f)) f 0 ltac:(lia) ltac:(unfold len; lia) Hf) as (_ & _ & Hall).
  unfold Chain.walk. by destruct (Chain.walk_loop _ _ _) as [ms ok].
Qed.

Lemma serve_step_Inv s e s' : Inv s -> step s e = Some s' -> Inv s'.
Proof.
  intros Hi. pose proof Hi as [Hs Hd Hp Hn Ha Hb]. unfold step.
  assert (Hloop : forall p, ((exists x, p = Serial x) \/ p = Released -> pool s = []) -> (forall f, p = Submitting f -> Chain.frameNeedsSerialExecution f = false) -> Inv (set_loop s p)) by (by intros p H1 H2; split).
  destruct e as [frame| | | |[i|] o|[i|]].
  - destruct (loop s); try done. intros [= <-]. destruct (Chain.frameNeedsSerialExecution frame) eqn:Hf; apply Hloop; try done; try (by intros [[? ?]|?]). by intros f [= <-].
  - destruct (loop s); try done. intros [= <-]. apply Hloop; [by intros [[? ?]|?]|done].
  - destruct (loop s); try done; case_bool_decide; try done; intros [= <-]; by apply Hloop.
  - destruct (loop s) as [|f|x|f| |] eqn:Hl; try done. destruct (Z.ltb_spec (len (pool s)) n) as [Hlt|]; [|done]. intros [= <-]. split; cbn; try done.
    + apply Forall_app_2; [done|]. apply Forall_singleton. by apply start_quiet, Hb.
    + rewrite len_app. change (len [start (proc s) f]) with 1. lia.
    + by intros [[? ?]|?].
  - intros H. assert (H' : match pool s !! i with None => None | Some x => message s x o (fun w uids x => match x with
      | Some x => mkConn (loop s) (<[i := x]> (pool s)) (aborted s) w uids | None => mkConn (loop s) (delete i (pool s)) true w uids end) end = Some s') by (destruct (loop s); exact H).
    clear H. destruct (pool s !! i) as [x|] eqn:Hx; [|done]. unfold message in H'. destruct (msgs x) as [|m ms] eqn:Hm; [done|].
    pose proof (Forall_lookup_1 _ _ _ _ Hp Hx) as [Hq Hu]. unfold no_setup in Hq. rewrite Hm in Hq. apply Forall_cons in Hq as [Hq Hqs].
    destruct (serve_message (proc s) m.1 o) as [[[w uids] go]|] eqn:Hsm; [|done]. pose proof (serve_message_quiet _ _ _ _ Hq Hsm) as Heq. cbn in Heq. injection Heq as -> ->.
    rewrite app_nil_r in H'. destruct go; injection H' as <-; split; cbn; try done.
    + by apply Forall_insert.
    + by unfold len in *; rewrite length_insert.
    + intros Hl. specialize (Ha Hl). by rewrite Ha in Hx.
    + by apply Forall_delete.
    + unfold len in *. rewrite length_delete by done. lia.
    + intros Hl. specialize (Ha Hl). by rewrite Ha in Hx.
  - destruct (loop s) as [|f|x|f| |] eqn:Hl; try done. unfold message. destruct (msgs x) as [|m ms]; [done|]. destruct (serve_message _ _ _) as [[[w uids] go]|] eqn:Hsm; [|done]. intros [= <-].
    assert (Hpool : pool s = []) by (apply Ha; left; by exists x). destruct (serve_message_settled _ _ _ _ _ _ _ Hs Hd Hsm). split; cbn; rewrite ?Hpool; try done.
    + change (0 <= Z.max 0 n). lia.
    + by destruct go.
  - intros H. assert (H' : match pool s !! i with Some (mkExec [] wf _) => Some (mkConn (loop s) (delete i (pool s)) (if wf then aborted s else true) (proc s) (authed s)) | _ => None end = Some s') by (destruct (loop s); exact H).
    clear H. destruct (pool s !! i) as [[[|m ms] wf u]|] eqn:Hx; try done. injection H' as <-. split; cbn; try done.
    + by apply Forall_delete.
    + unfold len in *. rewrite length_delete by done. lia.
    + intros Hl. specialize (Ha Hl). by rewrite Ha in Hx.
  - destruct (loop s) as [|f|x|f| |] eqn:Hl; try done. destruct (msgs x); [|done]. intros [= <-]. destruct (wellFormed x); (apply Hloop; [by intros [[? ?]|?]|done]).
Qed.

Lemma run_Inv evs : forall s s', Inv s -> run s evs = Some s' -> Inv s'.
Proof.
  induction evs as [|e evs IH]; intros s s' Hi; cbn [run]; [by intros [= <-]|]. destruct (step s e) as [s1|] eqn:Hs; [|done]. apply IH. by apply (serve_step_Inv _ e _ Hi).
Qed.

End Serve.

(** The pool is at least twice what waits for a file may take of it. *)
Theorem pool_size (NumCPU : Z) : 0 <= NumCPU -> 8 <= connWorkers NumCPU <= 64 /\ 2 * ShareMode.maxSharingWaits <= connWorkers NumCPU.
Proof.
  intros H. unfold connWorkers, minConnWorkers, maxConnWorkers, Credits.creditWindow, ShareMode.maxSharingWaits.
  assert (Hmax : forall a b, (if a <? b then b else a) = Z.max a b) by (intros a b; destruct (Z.ltb_spec a b); lia).
  assert (Hmin : forall a b, (if b <? a then b else a) = Z.min a b) by (intros a b; destruct (Z.ltb_spec b a); lia). rewrite Hmax, !Hmin. lia.
Qed.

(** ** A user authenticates, and a request runs as them *)

Definition ex_message (command : Z) : bytes :=
  match Header.EncodeHeader (zeros 64) (Header.mkHeader 1 0 command 1 0 0 1 0 0 (zeros 16)) with Ok h => h | _ => [] end.
Definition ex_user : Config.UserConfig := Config.mkUser (Config.lit "ana") (zeros 16) (Config.lit "1000") 1000 100 [].
Definition ex_worker : worker := mkWorker (root_cred [0; 4]) None.
Definition ex_events : list event :=
  [Arrive (ex_message Const.CommandSessionSetup); Drained; Message None (SetupDone ex_user (Some [Config.lit "100"; Config.lit "27"]) (true, true, true)); End None;
   Arrive (ex_message Const.CommandEcho); Submitted].
Definition ex_end : conn :=
  mkConn Top [mkExec [(Header.mkHeader 1 0 Const.CommandEcho 1 0 0 1 0 0 (zeros 16), ex_message Const.CommandEcho)] true 1000] false
    (mkWorker (mkCred 1000 1000 1000 100 100 100 [100; 27]) (Some 1000)) [1000].

End Serve.
