(* ===== verification/Watch.v ===== *)
(** The file watcher: [internal/inotify].  The Linux backend ([watcher.go],
    [main.go], [events.go]) and the comparison of two listings ([snapshot.go]).

    What the kernel answers (a stat, a walk, a watch descriptor, the bytes of a
    read) are arguments.  A range over a Go map visits it in an order of its own
    each time. *)

From S2P Require Import Prelude Smb2 Vfs.

Module Watch.

(** ** Events *)

Inductive EventType := FolderCreate | FileCreate | Delete | Modified | MovedFrom | MovedTo | WatchStop.
Record InotifyEvent := mkEvent { Path : bytes; Event : EventType }.

#[export] Instance EventType_eq_dec : EqDecision EventType.
Proof. solve_decision. Defined.

(** ** Listings compared *)

Record dirEntry := mkEntry { ino : Z; mtime : Z; isDir : bool }.
Abbreviation listing := (gmap bytes dirEntry).

Section Snapshot.
(** The orders in which each loop visits its map. *)
Context (names : nat -> listing -> list (bytes * dirEntry)) (inos : nat -> gmap Z bytes -> list (Z * bytes)).

Definition join (dir name : bytes) : bytes := dir ++ Vfs.slash :: name.

(** The names of one listing that are not in the other, by inode. *)
Definition fill (other : listing) (g : gmap Z bytes) (p : bytes * dirEntry) : gmap Z bytes :=
  match other !! p.1 with None => <[ino p.2 := p.1]> g | Some _ => g end.

Definition rename_step (dir : bytes) (acc : list InotifyEvent * gmap Z bytes * gmap Z bytes) (p : Z * bytes) : list InotifyEvent * gmap Z bytes * gmap Z bytes :=
  let '(evs, gone, appeared) := acc in
  match gone !! p.1 with
  | Some old => (evs ++ [mkEvent (join dir old) MovedFrom; mkEvent (join dir p.2) MovedTo], delete p.1 gone, delete p.1 appeared)
  | None => (evs, gone, appeared)
  end.

Definition modified (dir : bytes) (before : listing) (p : bytes * dirEntry) : list InotifyEvent :=
  match before !! p.1 with
  | Some b => if negb (isDir p.2) && (negb (ino b =? ino p.2) || negb (mtime b =? mtime p.2)) then [mkEvent (join dir p.1) Modified] else []
  | None => []
  end.

Definition created (after : listing) (name : bytes) : EventType := match after !! name with Some e => if isDir e then FolderCreate else FileCreate | None => FileCreate end.

Definition diffSnapshot (dir : bytes) (before after : listing) : list InotifyEvent :=
  let gone := foldl (fill after) ∅ (names 0 before) in
  let appeared := foldl (fill before) ∅ (names 1 after) in
  let '(evs, gone, appeared) := foldl (rename_step dir) ([], gone, appeared) (inos 0 appeared) in
  evs ++ map (fun p => mkEvent (join dir p.2) Delete) (inos 1 gone) ++
  map (fun p => mkEvent (join dir p.2) (created after p.2)) (inos 2 appeared) ++
  concat (map (modified dir before) (names 2 after)).

Hypothesis names_perm : forall n m, names n m ≡ₚ map_to_list m.
Hypothesis inos_perm : forall n m, inos n m ≡ₚ map_to_list m.

Lemma elem_names n m p : p ∈ names n m <-> m !! p.1 = Some p.2.
Proof. rewrite names_perm. destruct p as [a b]. by rewrite elem_of_map_to_list. Qed.

Lemma elem_inos n m p : p ∈ inos n m <-> m !! p.1 = Some p.2.
Proof. rewrite inos_perm. destruct p as [a b]. by rewrite elem_of_map_to_list. Qed.

(** No two names of a listing are the same file. *)
Definition no_links (m : listing) : Prop := forall n1 n2 e1 e2, m !! n1 = Some e1 -> m !! n2 = Some e2 -> ino e1 = ino e2 -> n1 = n2.

(** [name] is in [m] with the inode [i], and not in [other]. *)
Definition only_in (m other : listing) (i : Z) (name : bytes) : Prop := exists e, m !! name = Some e /\ other !! name = None /\ ino e = i.

Lemma fill_fold other l : forall g, (forall p q, p ∈ l -> q ∈ l -> ino p.2 = ino q.2 -> p.1 = q.1) ->
  forall i name, foldl (fill other) g l !! i = Some name <->
    (exists p, p ∈ l /\ p.1 = name /\ other !! name = None /\ ino p.2 = i) \/
    (g !! i = Some name /\ forall p, p ∈ l -> other !! p.1 = None -> ino p.2 <> i).
Proof.
  induction l as [|p l IH]; intros g Hd i name; cbn [foldl].
  - split; [intros H; right; split; [done|]; intros p Hp; by apply elem_of_nil in Hp|intros [(p & Hp & _)|[H _]]; [by apply elem_of_nil in Hp|done]].
  - rewrite IH by (intros a b Ha Hb; apply Hd; apply elem_of_cons; by right). setoid_rewrite elem_of_cons. split.
    + intros [(q & Hq & H)|[Hg Hall]]; [left; exists q; tauto|]. unfold fill in Hg. destruct (other !! p.1) eqn:Ho.
      * right. split; [done|]. intros q [->|Hq]; [by rewrite Ho|by apply Hall].
      * destruct (decide (ino p.2 = i)) as [<-|Hne].
        -- rewrite lookup_insert_eq in Hg. injection Hg as <-. left. exists p. split_and!; [by left|done..].
        -- rewrite lookup_insert_ne in Hg by done. right. split; [done|]. intros q [->|Hq]; [done|by apply Hall].
    + intros [(q & [->|Hq] & <- & Ho & <-)|[Hg Hall]].
      * destruct (decide (Exists (fun q : bytes * dirEntry => other !! q.1 = None /\ ino q.2 = ino p.2) l)) as [(q & Hq & Hoq & Hiq)%Exists_exists|Hno].
        -- left. exists q. split; [done|]. assert (Hn : q.1 = p.1) by (apply Hd; [apply elem_of_cons; by right|apply elem_of_cons; by left|done]). by rewrite Hn.
        -- right. split; [unfold fill; rewrite Ho; by apply lookup_insert_eq|]. intros q Hq Hoq Hiq. apply Hno, Exists_exists. by exists q.
      * left. by exists q.
      * right. split; [|intros q Hq; apply Hall; by right]. unfold fill. destruct (other !! p.1) eqn:Ho; [done|]. rewrite lookup_insert_ne; [done|]. apply Hall; [by left|done].
Qed.

Lemma fill_spec n m other i name : no_links m -> foldl (fill other) ∅ (names n m) !! i = Some name <-> only_in m other i name.
Proof.
  intros Hl. rewrite fill_fold.
  - unfold only_in. split.
    + intros [([nm e] & Hp%elem_names & <- & Ho & Hi)|[H _]]; [by exists e|by rewrite lookup_empty in H].
    + intros (e & Hm & Ho & Hi). left. exists (name, e). split_and!; try done. by apply elem_names.
  - intros p q Hp%elem_names Hq%elem_names Hi. by apply (Hl _ _ _ _ Hp Hq).
Qed.

(** The renames, and what is left of both maps. *)
Lemma rename_fold dir l : NoDup l.*1 -> forall evs gone appeared,
  let '(evs', gone', appeared') := foldl (rename_step dir) (evs, gone, appeared) l in
  (forall e, e ∈ evs' <-> e ∈ evs \/ exists i old new, gone !! i = Some old /\ (i, new) ∈ l /\ (e = mkEvent (join dir old) MovedFrom \/ e = mkEvent (join dir new) MovedTo)) /\
  (forall i, gone' !! i = if decide (i ∈ l.*1) then None else gone !! i) /\
  (forall i, appeared' !! i = if decide (i ∈ l.*1 /\ is_Some (gone !! i)) then None else appeared !! i).
Proof.
  induction l as [|[i new] l IH]; intros Hnd evs gone appeared; cbn [foldl].
  - split_and!; [|by intros i; rewrite decide_False by (by intros ?%elem_of_nil)|by intros i; rewrite decide_False by (intros [?%elem_of_nil _]; done)].
    intros e. split; [by left|]. intros [H|(i & old & new & _ & H & _)]; [done|by apply elem_of_nil in H].
  - apply NoDup_cons in Hnd as [Hi Hnd]. cbn [fst fmap list_fmap] in *. unfold rename_step at 2. cbn [fst snd]. destruct (gone !! i) as [old|] eqn:Hg.
    + specialize (IH Hnd (evs ++ [mkEvent (join dir old) MovedFrom; mkEvent (join dir new) MovedTo]) (delete i gone) (delete i appeared)).
      destruct (foldl _ _ l) as [[evs' gone'] appeared']. destruct IH as (H1 & H2 & H3). split_and!.
      * intros e. rewrite H1, elem_of_app, !elem_of_cons, elem_of_nil. split.
        -- intros [[H|H]|(j & o & n & Hj & Hin & He)]; [by left| |].
           ++ right. exists i, old, new. split; [done|]. split; [apply elem_of_cons; by left|]. tauto.
           ++ right. exists j, o, n. split; [by apply lookup_delete_Some in Hj as [_ ?]|]. split; [apply elem_of_cons; by right|done].
        -- intros [H|(j & o & n & Hj & [[= -> ->]|Hin]%elem_of_cons & He)]; [by left; left| |].
           ++ rewrite Hg in Hj. injection Hj as ->. left; right. tauto.
           ++ right. exists j, o, n. split; [|done]. rewrite lookup_delete_ne; [done|]. intros ->. apply Hi. by apply (list_elem_of_fmap_2 fst) in Hin.
      * intros j. rewrite H2. destruct (decide (j = i)) as [->|Hne].
        -- rewrite decide_False by done. rewrite decide_True by (apply elem_of_cons; by left). by rewrite lookup_delete_eq.
        -- rewrite lookup_delete_ne by done. destruct (decide (j ∈ l.*1)); [by rewrite decide_True by (apply elem_of_cons; by right)|by rewrite decide_False by (by intros [?|?]%elem_of_cons)].
      * intros j. rewrite H3. destruct (decide (j = i)) as [->|Hne].
        -- rewrite decide_False by (by intros []). rewrite decide_True; [by rewrite lookup_delete_eq|]. split; [apply elem_of_cons; by left|by rewrite Hg].
        -- rewrite !lookup_delete_ne by done. destruct (decide (j ∈ l.*1 /\ is_Some (gone !! j))) as [[? ?]|Hn]; [rewrite decide_True; [done|split; [apply elem_of_cons; by right|done]]|].
           rewrite decide_False; [done|]. intros [[?|?]%elem_of_cons ?]; [done|by apply Hn].
    + specialize (IH Hnd evs gone appeared). destruct (foldl _ _ l) as [[evs' gone'] appeared']. destruct IH as (H1 & H2 & H3). split_and!.
      * intros e. rewrite H1. split; (intros [H|(j & o & n & Hj & Hin & He)]; [by left|]); right; exists j, o, n; (split; [done|]); (split; [|done]).
        -- apply elem_of_cons. by right.
        -- apply elem_of_cons in Hin as [[= -> ->]|Hin]; [by rewrite Hg in Hj|done].
      * intros j. rewrite H2. destruct (decide (j ∈ l.*1)); [by rewrite decide_True by (apply elem_of_cons; by right)|].
        destruct (decide (j ∈ i :: l.*1)) as [[->|?]%elem_of_cons|]; [done|done|done].
      * intros j. rewrite H3. destruct (decide (j ∈ l.*1 /\ is_Some (gone !! j))) as [[? ?]|Hn]; [rewrite decide_True; [done|split; [apply elem_of_cons; by right|done]]|].
        rewrite decide_False; [done|]. intros [[->|?]%elem_of_cons [? ?]]; [by rewrite Hg in *|apply Hn; split; [done|by eexists]].
Qed.

(** An event the comparison reports, by what changed. *)
Inductive change (dir : bytes) (before after : listing) : InotifyEvent -> Prop :=
  | change_from i old new : only_in before after i old -> only_in after before i new -> change dir before after (mkEvent (join dir old) MovedFrom)
  | change_to i old new : only_in before after i old -> only_in after before i new -> change dir before after (mkEvent (join dir new) MovedTo)
  | change_delete i old : only_in before after i old -> (forall new, ~ only_in after before i new) -> change dir before after (mkEvent (join dir old) Delete)
  | change_create i new e : after !! new = Some e -> only_in after before i new -> (forall old, ~ only_in before after i old) ->
      change dir before after (mkEvent (join dir new) (if isDir e then FolderCreate else FileCreate))
  | change_modify name b a : before !! name = Some b -> after !! name = Some a -> isDir a = false -> (ino b, mtime b) <> (ino a, mtime a) ->
      change dir before after (mkEvent (join dir name) Modified).

Lemma modified_spec dir before p e : e ∈ modified dir before p <->
  exists b, before !! p.1 = Some b /\ isDir p.2 = false /\ (ino b, mtime b) <> (ino p.2, mtime p.2) /\ e = mkEvent (join dir p.1) Modified.
Proof.
  unfold modified. destruct (before !! p.1) as [b|]; [|split; [by intros ?%elem_of_nil|by intros (b & ? & _)]].
  destruct (isDir p.2) eqn:Hd; cbn [negb andb]; [split; [by intros ?%elem_of_nil|by intros (b' & [= <-] & ? & _)]|].
  destruct (Z.eqb_spec (ino b) (ino p.2)) as [Hi|Hi]; cbn [negb orb].
  - destruct (Z.eqb_spec (mtime b) (mtime p.2)) as [Hm|Hm]; cbn [negb].
    + split; [by intros ?%elem_of_nil|]. intros (b' & [= <-] & _ & Hne & _). by rewrite Hi, Hm in Hne.
    + rewrite list_elem_of_singleton. split; [intros ->; exists b; split_and!; congruence|by intros (b' & _ & _ & _ & ->)].
  - rewrite list_elem_of_singleton. split; [intros ->; exists b; split_and!; congruence|by intros (b' & _ & _ & _ & ->)].
Qed.

End Snapshot.

(** ** The Linux backend: the records of a read *)

Definition inotifyEventBaseSize : Z := 16.

Definition IN_MODIFY : Z := 0x2.
Definition IN_MOVED_FROM : Z := 0x40.
Definition IN_MOVED_TO : Z := 0x80.
Definition IN_CREATE : Z := 0x100.
Definition IN_DELETE : Z := 0x200.

Record systemInotifyEvent := mkSys { Wd : Z; Mask : Z; Cookie : Z; Len : Z }.

(** An [int32] read from four bytes. *)
Definition int32 (v : Z) : Z := if v <? 2 ^ 31 then v else v - 2 ^ 32.

Fixpoint skip_nul (s : bytes) : bytes := match s with c :: rest => if bool_decide (c = Byte.x00) then skip_nul rest else s | [] => [] end.
(** [bytes.TrimRight(b, "\x00")] *)
Definition TrimNul (s : bytes) : bytes := rev (skip_nul (rev s)).

(** The watches, the events not yet received, and whether subdirectories are
    watched. *)
Record watches := mkWatches { watchMap : gmap Z bytes; Events : list InotifyEvent }.
Definition eventsCap : Z := 100.

Section Backend.
(** [recursive]; whether a path is a directory now; the directories
    [filepath.Walk] visits below one, up to its first error; the watch descriptor
    [InotifyAddWatch] answers. *)
Context (recursive : bool) (statIsDir : bytes -> bool) (walkDirs : bytes -> list bytes) (addWatchAnswer : bytes -> option Z).

(** An event that finds the channel full is dropped. *)
Definition send (w : watches) (ev : InotifyEvent) : watches :=
  if len (Events w) <? eventsCap then mkWatches (watchMap w) (Events w ++ [ev]) else w.

Definition addWatch (w : watches) (dir : bytes) : watches * bool :=
  match addWatchAnswer dir with Some wd => (mkWatches (<[wd := dir]> (watchMap w)) (Events w), true) | None => (w, false) end.

(** The walk stops at the first directory that cannot be watched. *)
Fixpoint walk_watch (w : watches) (dirs : list bytes) : watches * bool :=
  match dirs with
  | [] => (w, true)
  | d :: dirs => match addWatch w d with (w, true) => walk_watch w dirs | (w, false) => (w, false) end
  end.

Definition watchDir (w : watches) (path : bytes) : watches * bool :=
  if negb recursive then addWatch w path else walk_watch w (walkDirs path).

Definition hasMask (ev : systemInotifyEvent) (bit : Z) : bool := negb (Z.land (Mask ev) bit =? 0).

Definition handleEvent (w : watches) (ev : systemInotifyEvent) (fullPath : bytes) : watches :=
  if hasMask ev IN_CREATE then
    if statIsDir fullPath then
      let w := if recursive then (watchDir w fullPath).1 else w in
      send w (mkEvent fullPath FolderCreate)
    else send w (mkEvent fullPath FileCreate)
  else if hasMask ev IN_DELETE then send w (mkEvent fullPath Delete)
  else if hasMask ev IN_MODIFY then send w (mkEvent fullPath Modified)
  else if hasMask ev IN_MOVED_FROM then send w (mkEvent fullPath MovedFrom)
  else if hasMask ev IN_MOVED_TO then send w (mkEvent fullPath MovedTo)
  else w.

(** [parseEvents]: the watches and whether an error is returned.  Each record is
    at least 16 bytes, so the buffer's length bounds their number; a name that
    overruns the buffer is sliced out of range. *)
Fixpoint parse_loop (fuel : nat) (w : watches) (buf : bytes) (offset : Z) : res (watches * bool) :=
  match fuel with
  | O => Ok (w, true)
  | S fuel =>
      if len buf <=? offset then Ok (w, true) else
      if len buf <? offset + inotifyEventBaseSize then Ok (w, false) else
      wd ← u32 buf offset; mask ← u32 buf (offset + 4); cookie ← u32 buf (offset + 8); n ← u32 buf (offset + 12);
      name ← (if 0 <? n then b ← slice buf (offset + inotifyEventBaseSize) (offset + inotifyEventBaseSize + n); Ok (TrimNul b) else Ok []);
      let ev := mkSys (int32 wd) mask cookie n in
      let w := match watchMap w !! Wd ev with None => w | Some dir => handleEvent w ev (Vfs.Join dir name) end in
      parse_loop fuel w buf (offset + inotifyEventBaseSize + n)
  end.

Definition parseEvents (w : watches) (buf : bytes) : res (watches * bool) := parse_loop (S (length buf)) w buf 0.

(** ** What the kernel writes *)

(** A record: the name is padded with NULs, and is empty for a watched directory
    itself. *)
Record krecord := mkRecord { kEvent : systemInotifyEvent; kName : bytes; kPad : nat }.

Definition encode_record (r : krecord) : bytes :=
  le32 (Wd (kEvent r) mod 2 ^ 32) ++ le32 (Mask (kEvent r)) ++ le32 (Cookie (kEvent r)) ++ le32 (Len (kEvent r)) ++ kName r ++ replicate (kPad r) Byte.x00.

Record record_wf (r : krecord) : Prop := {
  rwf_wd : - 2 ^ 31 <= Wd (kEvent r) < 2 ^ 31;
  rwf_mask : 0 <= Mask (kEvent r) < 2 ^ 32;
  rwf_cookie : 0 <= Cookie (kEvent r) < 2 ^ 32;
  rwf_len : Len (kEvent r) = len (kName r) + Z.of_nat (kPad r) /\ Len (kEvent r) < 2 ^ 32;
  rwf_name : forall pre, kName r <> pre ++ [Byte.x00] }.

(** What one record does. *)
Definition handle_record (w : watches) (r : krecord) : watches :=
  match watchMap w !! Wd (kEvent r) with None => w | Some dir => handleEvent w (kEvent r) (Vfs.Join dir (kName r)) end.

Lemma skip_nul_replicate n s : skip_nul (replicate n Byte.x00 ++ s) = skip_nul s.
Proof. induction n as [|n IH]; [done|]. cbn [replicate app skip_nul]. by rewrite bool_decide_eq_true_2. Qed.

Lemma TrimNul_pad s n : (forall pre, s <> pre ++ [Byte.x00]) -> TrimNul (s ++ replicate n Byte.x00) = s.
Proof.
  intros Hs. unfold TrimNul. rewrite rev_app_distr. assert (Hr : rev (replicate n Byte.x00) = replicate n Byte.x00).
  { clear. induction n as [|n IH]; [done|]. cbn [replicate rev]. by rewrite IH, <- replicate_cons_app. }
  rewrite Hr, skip_nul_replicate. destruct s as [|c s _] using rev_ind; [done|]. rewrite rev_app_distr. cbn [rev app skip_nul].
  rewrite bool_decide_eq_false_2; [cbn [rev app]; by rewrite rev_involutive|]. intros ->. by apply (Hs s).
Qed.

Lemma len_record r : record_wf r -> len (encode_record r) = 16 + Len (kEvent r).
Proof. intros [_ _ _ [-> _] _]. unfold encode_record. rewrite !len_app, !len_le_split. unfold len. rewrite length_replicate. lia. Qed.

Lemma u32_at (pre post : bytes) off v : off = len pre -> 0 <= v < 2 ^ 32 -> u32 (E := err) (pre ++ le32 v ++ post) off = Ok v.
Proof.
  intros -> Hv. pose proof (len_nonneg pre). pose proof (len_nonneg post). rewrite u32_Ok by (rewrite ?len_app, ?len_le_split; lia). f_equal.
  rewrite get_app_r by lia. rewrite Z.sub_diag. rewrite get_app_exact by (rewrite ?len_le_split; done). by apply (le_combine_le_split 4 _ (2 ^ 32)).
Qed.

Lemma parse_record fuel w pre r rest : record_wf r ->
  parse_loop (S fuel) w (pre ++ encode_record r ++ rest) (len pre) =
  parse_loop fuel (handle_record w r) (pre ++ encode_record r ++ rest) (len (pre ++ encode_record r)).
Proof.
  intros Hr. pose proof (len_record r Hr) as Hl. destruct Hr as [Hwd Hm Hc [Hn Hn'] Hname]. pose proof (len_nonneg pre). pose proof (len_nonneg rest). pose proof (len_nonneg (kName r)).
  cbn [parse_loop]. assert (Htot : len (pre ++ encode_record r ++ rest) = len pre + (16 + Len (kEvent r)) + len rest) by (rewrite !len_app, Hl; lia).
  rewrite (proj2 (Z.leb_gt _ _)) by lia. unfold inotifyEventBaseSize. rewrite (proj2 (Z.ltb_ge _ _)) by lia.
  set (buf := pre ++ encode_record r ++ rest) in *.
  assert (Hwdr : 0 <= Wd (kEvent r) mod 2 ^ 32 < 2 ^ 32) by (apply Z.mod_pos_bound; done).
  assert (B0 : u32 (E := err) buf (len pre) = Ok (Wd (kEvent r) mod 2 ^ 32)) by (unfold buf, encode_record; rewrite <- !app_assoc; by apply u32_at).
  assert (B4 : u32 (E := err) buf (len pre + 4) = Ok (Mask (kEvent r))).
  { unfold buf, encode_record. rewrite <- !app_assoc. rewrite (app_assoc pre). apply u32_at; [by rewrite len_app, len_le_split|done]. }
  assert (B8 : u32 (E := err) buf (len pre + 8) = Ok (Cookie (kEvent r))).
  { unfold buf, encode_record. rewrite <- !app_assoc. rewrite (app_assoc pre), (app_assoc (pre ++ _)). apply u32_at; [by rewrite !len_app, !len_le_split, <- Z.add_assoc|done]. }
  assert (B12 : u32 (E := err) buf (len pre + 12) = Ok (Len (kEvent r))).
  { unfold buf, encode_record. rewrite <- !app_assoc. rewrite (app_assoc pre), (app_assoc (pre ++ _)), (app_assoc ((pre ++ _) ++ _)). apply u32_at; [by rewrite !len_app, !len_le_split, <- !Z.add_assoc|lia]. }
  rewrite B0. cbn [mbind outcome_bind]. rewrite B4. cbn [mbind outcome_bind]. rewrite B8. cbn [mbind outcome_bind]. rewrite B12. cbn [mbind outcome_bind].
  assert (Hint : int32 (Wd (kEvent r) mod 2 ^ 32) = Wd (kEvent r)).
  { unfold int32. destruct (Z.ltb_spec (Wd (kEvent r) mod 2 ^ 32) (2 ^ 31)) as [Hlt|Hge]; destruct (Z.le_gt_cases 0 (Wd (kEvent r))) as [Hpos|Hneg].
    - by rewrite Z.mod_small by lia.
    - assert (Wd (kEvent r) mod 2 ^ 32 = Wd (kEvent r) + 2 ^ 32) by (rewrite <- (Z.mod_add _ 1) by done; apply Z.mod_small; lia). lia.
    - rewrite Z.mod_small in Hge by lia. lia.
    - assert (Wd (kEvent r) mod 2 ^ 32 = Wd (kEvent r) + 2 ^ 32) by (rewrite <- (Z.mod_add _ 1) by done; apply Z.mod_small; lia). lia. }
  assert (Hend : len pre + 16 + Len (kEvent r) = len (pre ++ encode_record r)) by (rewrite len_app, Hl; lia).
  assert (Hslice : slice (E := err) buf (len pre + 16) (len pre + 16 + Len (kEvent r)) = Ok (kName r ++ replicate (kPad r) Byte.x00)).
  { rewrite slice_Ok by lia. f_equal. unfold buf, encode_record. rewrite <- !app_assoc. rewrite (app_assoc pre), (app_assoc (pre ++ _)), (app_assoc ((pre ++ _) ++ _)), (app_assoc (((pre ++ _) ++ _) ++ _)).
    rewrite get_app_r by (rewrite ?len_app, ?len_le_split; lia). rewrite ?len_app, ?len_le_split.
    replace (len pre + 16 - _) with 0 by lia. rewrite (app_assoc (kName r)). replace (len pre + 16 + Len (kEvent r) - (len pre + 16)) with (Len (kEvent r)) by lia.
    apply get_app_exact. rewrite len_app. unfold len at 2. rewrite length_replicate. lia. }
  assert (Hw : forall name, name = kName r -> match watchMap w !! Wd (mkSys (int32 (Wd (kEvent r) mod 2 ^ 32)) (Mask (kEvent r)) (Cookie (kEvent r)) (Len (kEvent r))) with
    | None => w | Some dir => handleEvent w (mkSys (int32 (Wd (kEvent r) mod 2 ^ 32)) (Mask (kEvent r)) (Cookie (kEvent r)) (Len (kEvent r))) (Vfs.Join dir name) end = handle_record w r).
  { intros name ->. rewrite Hint. unfold handle_record. by destruct (kEvent r). }
  destruct (Z.ltb_spec 0 (Len (kEvent r))) as [Hpos|Hz].
  - rewrite Hslice. cbn [mbind outcome_bind]. rewrite (Hw _ (TrimNul_pad _ _ Hname)), Hend. done.
  - cbn [mbind outcome_bind]. rewrite Hw, Hend; [done|]. assert (Hz' : len (kName r) = 0) by lia. by apply len_zero in Hz'.
Qed.

Lemma parse_records rs : forall fuel w pre, Forall record_wf rs -> (length rs < fuel)%nat ->
  parse_loop fuel w (pre ++ concat (map encode_record rs)) (len pre) = Ok (foldl handle_record w rs, true).
Proof.
  induction rs as [|r rs IH]; intros fuel w pre Hwf Hf; destruct fuel as [|fuel]; [cbn in Hf; lia| |cbn in Hf; lia|].
  - cbn [map concat foldl parse_loop]. rewrite app_nil_r. by rewrite (proj2 (Z.leb_le _ _)) by lia.
  - apply Forall_cons in Hwf as [Hr Hwf]. cbn [map concat foldl]. rewrite parse_record by done. rewrite app_assoc. apply IH; [done|]. cbn in Hf. lia.
Qed.

Lemma records_length rs : Forall record_wf rs -> (length rs <= length (concat (map encode_record rs)))%nat.
Proof.
  induction 1 as [|r rs Hr _ IH]; [done|]. cbn [map concat length]. rewrite length_app. pose proof (len_record r Hr) as Hl. destruct Hr as [_ _ _ [Hn _] _].
  pose proof (len_nonneg (kName r)). unfold len in *. lia.
Qed.

(** The watcher handles each record of a read once and in order: the bytes the
    kernel writes for a sequence of events, names padded as it pads them, are
    read back as those events, each of a directory that is watched handed to
    [handleEvent] with the path of what changed, and no read is out of range. *)
Theorem parse_events_faithful (w : watches) (rs : list krecord) : Forall record_wf rs ->
  parseEvents w (concat (map encode_record rs)) = Ok (foldl handle_record w rs, true).
Proof. intros Hwf. apply (parse_records rs _ w []); [done|]. pose proof (records_length rs Hwf). lia. Qed.

Definition IN_ISDIR : Z := 0x40000000.

(** A directory moved in is reported, and never watched: unlike one that is made,
    what happens below it is not seen, by a recursive watcher neither. *)
Theorem moved_in_folder_unwatched (w : watches) (wd cookie n : Z) (path : bytes) :
  watchMap (handleEvent w (mkSys wd (Z.lor IN_MOVED_TO IN_ISDIR) cookie n) path) = watchMap w.
Proof. change (watchMap (send w (mkEvent path MovedTo)) = watchMap w). unfold send. by destruct (_ <? _). Qed.
End Backend.

(** ** The life of a watcher *)

Inductive watchState := stateNotInitialized | stateInitialized | stateWatching | stateClosed.

#[export] Instance watchState_eq_dec : EqDecision watchState.
Proof. solve_decision. Defined.

(** Where [Watch] stands: not called; at the check of [close]; in the poll; in the
    read; with so many events of a read still to send; in the deferred teardown, at
    its stop event, at the close of [Events]; returned. *)
Inductive watchPc := WNot | WCheck | WPoll | WRead | WParse (n : nat) | WTeardown | WStop | WEvents | WDone.

(** [wClose] and [wEvents]: the channels are closed; [wFds]: the descriptors are
    open; [wWake]: a byte is in the pipe; [wLocked]: a [Close] holds the lock,
    between the close of the channel and the write to the pipe. *)
Record watcher := mkWatcher {
  wState : watchState; wClose : bool; wEvents : bool; wFds : bool; wWake : bool; wLocked : bool; wPc : watchPc }.

(** [NewWatcher] when the path can be watched, and when it cannot. *)
Definition NewWatcher : watcher := mkWatcher stateInitialized false false true false false WNot.
Definition NewWatcher_failed : watcher := mkWatcher stateClosed false false false false false WNot.

(** What a poll brings back: an interrupted call, an error, or what each descriptor
    is ready for. *)
Inductive pollAnswer := PollEintr | PollError | PollReady (wake readable failed : bool).
Inductive readAnswer := ReadAgain | ReadError | ReadEvents (n : nat).
Inductive watchEvent := EvWatch | EvClose | EvWake | EvTurn | EvPoll (a : pollAnswer) | EvRead (a : readAnswer).

(** Without a byte in the pipe a poll may still be interrupted, fail, or find
    events; with one it finds it, unless it is interrupted or fails. *)
Definition poll_possible (w : watcher) (a : pollAnswer) : bool :=
  match a with
  | PollReady wake readable failed => Bool.eqb wake (wWake w) && (wake || readable || failed)
  | _ => true
  end.

(** A read fills 4096 bytes at most, and a record takes 16 at least. *)
Definition readEventsMax : nat := 256.
Definition read_possible (a : readAnswer) : bool := match a with ReadEvents n => (n <=? readEventsMax)%nat | _ => true end.

Definition at_pc (w : watcher) (pc : watchPc) : watcher := mkWatcher (wState w) (wClose w) (wEvents w) (wFds w) (wWake w) (wLocked w) pc.

(** One step: [None] if it cannot happen in this state, a panic for a send on a
    closed channel, and [Err] where descriptors are closed a second time, or are
    used when they are closed. *)
Definition closeFDsLocked (w : watcher) : outcome unit watcher :=
  if wFds w then Ok (mkWatcher (wState w) (wClose w) (wEvents w) false (wWake w) (wLocked w) (wPc w)) else Err tt.

Definition watch_step (w : watcher) (e : watchEvent) : option (outcome unit watcher) :=
  match e, wPc w with
  | EvWatch, _ =>
      if wLocked w then None else
      match wState w with
      | stateInitialized => Some (Ok (mkWatcher stateWatching (wClose w) (wEvents w) (wFds w) (wWake w) false WCheck))
      | _ => Some (Ok w)
      end
  | EvClose, _ =>
      if wLocked w then None else
      match wState w with
      | stateNotInitialized | stateClosed => Some (Ok w)
      | stateInitialized => Some (w ← closeFDsLocked w; Ok (mkWatcher stateClosed true true (wFds w) (wWake w) false (wPc w)))
      | stateWatching => Some (Ok (mkWatcher stateWatching true (wEvents w) (wFds w) (wWake w) true (wPc w)))
      end
  | EvWake, _ =>
      if wLocked w then Some (if wFds w then Ok (mkWatcher (wState w) (wClose w) (wEvents w) (wFds w) true false (wPc w)) else Err tt) else None
  | EvTurn, WCheck => Some (Ok (at_pc w (if wClose w then WTeardown else WPoll)))
  | EvPoll a, WPoll =>
      if negb (poll_possible w a) then None else
      if negb (wFds w) then Some (Err tt) else
      Some (Ok (at_pc w (match a with
        | PollEintr => WCheck
        | PollError => WTeardown
        | PollReady wake readable failed => if wake then WTeardown else if negb readable then (if failed then WTeardown else WCheck) else WRead
        end)))
  | EvRead a, WRead =>
      if negb (read_possible a) then None else
      if negb (wFds w) then Some (Err tt) else
      Some (Ok (at_pc w (match a with ReadAgain => WCheck | ReadError => WTeardown | ReadEvents n => WParse n end)))
  | EvTurn, WParse (S n) => Some (if wEvents w then Panic else Ok (at_pc w (WParse n)))
  | EvTurn, WParse O => Some (Ok (at_pc w WCheck))
  | EvTurn, WTeardown =>
      if wLocked w then None else
      Some (w ← closeFDsLocked w; Ok (mkWatcher stateClosed (wClose w) (wEvents w) (wFds w) (wWake w) false WStop))
  | EvTurn, WStop => Some (if wEvents w then Panic else Ok (at_pc w WEvents))
  | EvTurn, WEvents => Some (Ok (mkWatcher (wState w) (wClose w) true (wFds w) (wWake w) (wLocked w) WDone))
  | _, _ => None
  end.

(** The states some order of calls and answers leads to. *)
Inductive watch_reachable : watcher -> Prop :=
  | wr_new : watch_reachable NewWatcher
  | wr_failed : watch_reachable NewWatcher_failed
  | wr_step w e w' : watch_reachable w -> watch_step w e = Some (Ok w') -> watch_reachable w'.

(** Each place the loop can be, with what holds there. *)
Definition watch_ok (w : watcher) : bool :=
  match wState w, wPc w with
  | stateInitialized, WNot => negb (wClose w) && negb (wEvents w) && wFds w && negb (wLocked w)
  | stateWatching, (WCheck | WPoll | WRead | WParse _ | WTeardown) => negb (wEvents w) && wFds w && (negb (wLocked w) || wClose w) && (negb (wClose w) || wLocked w || wWake w)
      && (match wPc w with WParse n => (n <=? readEventsMax)%nat | _ => true end)
  | stateClosed, WNot => negb (wFds w) && negb (wLocked w)
  | stateClosed, (WStop | WEvents) => negb (wEvents w) && negb (wFds w) && negb (wLocked w)
  | stateClosed, WDone => wEvents w && negb (wFds w) && negb (wLocked w)
  | _, _ => false
  end.

Lemma watch_step_ok w e o : watch_ok w = true -> watch_step w e = Some o -> exists w', o = Ok w' /\ watch_ok w' = true.
Proof.
  destruct w as [st cl ev fd wk lk pc]. intros Hok Hs. destruct st, pc; try discriminate Hok; destruct cl, ev, fd, wk, lk; try discriminate Hok;
  destruct e as [| | | |[| |[] [] []]|[]]; try discriminate Hs; try (injection Hs as <-; by eexists).
  all: cbn [watch_step wPc] in Hs; repeat (case_match; simplify_eq); try (by eexists).
  all: eexists; split; [done|]; cbn in *; try apply negb_false_iff in H; try apply Nat.leb_le in Hok; try (apply Nat.leb_le in H); try apply Nat.leb_le; unfold readEventsMax in *; lia.
Qed.

Lemma reachable_ok w : watch_reachable w -> watch_ok w = true.
Proof. induction 1 as [| |w e w' _ IH Hs]; [done..|]. by destruct (watch_step_ok _ _ _ IH Hs) as (w'' & [= ->] & ?). Qed.

(** What the loop has left to do once [close] is closed: it may yet read once. *)
Definition turns_left (w : watcher) : nat :=
  match wPc w with
  | WNot | WDone => 0 | WEvents => 1 | WStop => 2 | WTeardown => 3 | WCheck => 4 | WParse n => n + 5 | WRead => readEventsMax + 6 | WPoll => readEventsMax + 7
  end.

(** The steps the loop takes, as against the calls of others. *)
Definition loop_event (e : watchEvent) : bool := match e with EvTurn | EvPoll _ | EvRead _ => true | _ => false end.
Definition turns (es : list watchEvent) : nat := length (filter (fun e => loop_event e = true) es).

Fixpoint watch_run (w : watcher) (es : list watchEvent) : option watcher :=
  match es with [] => Some w | e :: es => match watch_step w e with Some (Ok w') => watch_run w' es | _ => None end end.

(** The loop waits for events that may never come. *)
Definition blocked (w : watcher) : bool := match wPc w with WPoll => negb (wWake w) | _ => false end.
(** It can go on: a turn is possible at once, or the poll and the read have their answer. *)
Definition can_turn (w : watcher) : Prop := exists e w', loop_event e = true /\ watch_step w e = Some (Ok w') /\ blocked w = false.

Lemma watch_step_close w e w' : watch_ok w = true -> watch_step w e = Some (Ok w') -> wClose w = true ->
  wClose w' = true /\ (if loop_event e then turns_left w' < turns_left w else turns_left w' <= turns_left w)%nat.
Proof.
  destruct w as [st cl ev fd wk lk pc]. cbn [wClose]. intros Hok Hs ->. destruct st, pc; try discriminate Hok; destruct ev, fd, wk, lk; try discriminate Hok; clear Hok;
  destruct e as [| | | |[| |[] [] []]|[]]; try discriminate Hs; cbn [watch_step wPc] in Hs; repeat case_match; simplify_eq; cbn; try (split; [done|lia]).
  all: try (cbn in Hs; injection Hs as <-; cbn; split; [done|lia]).
  all: split; [done|]; unfold read_possible, readEventsMax in *; apply negb_false_iff, Nat.leb_le in H; lia.
Qed.

Lemma closed_can_turn w : watch_ok w = true -> wClose w = true -> wLocked w = false -> turns_left w = O \/ can_turn w.
Proof.
  destruct w as [st cl ev fd wk lk pc]. cbn [wClose wLocked]. intros Hok -> ->. destruct st, pc; try discriminate Hok; destruct ev, fd, wk; try discriminate Hok; clear Hok; try (by left); right.
  all: try (exists EvTurn; eexists; by split_and!). all: try (exists (EvPoll (PollReady true false false)); eexists; by split_and!). all: try (exists (EvRead ReadAgain); eexists; by split_and!).
  all: destruct n; exists EvTurn; eexists; by split_and!.
Qed.

Lemma watch_run_close es : forall w w', watch_ok w = true -> wClose w = true -> watch_run w es = Some w' ->
  watch_ok w' = true /\ wClose w' = true /\ (turns es + turns_left w' <= turns_left w)%nat.
Proof.
  induction es as [|e es IH]; intros w w' Hok Hc Hr; [injection Hr as <-; split_and!; [done..|cbn; lia]|]. cbn [watch_run] in Hr. destruct (watch_step w e) as [[w1| |]|] eqn:Hs; try done.
  pose proof (watch_step_close _ _ _ Hok Hs Hc) as [Hc1 Ht]. destruct (watch_step_ok _ _ _ Hok Hs) as (w2 & [= <-] & Hok1).
  destruct (IH _ _ Hok1 Hc1 Hr) as (? & ? & Hlt). split_and!; [done..|]. unfold turns in *. rewrite filter_cons. destruct (loop_event e); [rewrite decide_True by done; cbn [length]|rewrite decide_False by done]; lia.
Qed.

(** C32: A closed watcher stops.  From any state the watcher and its callers can
    reach, once the [close] channel is closed the loop takes a bounded number of
    steps, 263 at most, whatever the poll and the reads answer and however the
    calls of [Watch] and [Close] are interleaved with it; and until it has
    returned it is never left waiting in its poll, except for the write a [Close]
    that holds the lock is about to make. *)
Theorem close_ends_watch (w w' : watcher) (es : list watchEvent) : watch_reachable w -> wClose w = true -> watch_run w es = Some w' ->
  (turns es <= turns_left w <= 263)%nat /\ (turns_left w' = O \/ can_turn w' \/ (wLocked w' = true /\ exists w'', watch_step w' EvWake = Some (Ok w''))).
Proof.
  intros Hw%reachable_ok Hc Hr. destruct (watch_run_close _ _ _ Hw Hc Hr) as (Hok & Hc' & Ht). split; [split; [lia|]|].
  - destruct w as [st cl ev fd wk lk pc]. unfold turns_left. destruct st, pc; try discriminate Hw; cbn [wPc]; unfold readEventsMax; try lia.
    cbn in Hw. apply andb_true_iff in Hw as [_ Hw]. apply Nat.leb_le in Hw. unfold readEventsMax in Hw. lia.
  - destruct (wLocked w') eqn:Hl; [|destruct (closed_can_turn _ Hok Hc' Hl) as [?|?]; [by left|by right; left]]. right; right. split; [done|].
    destruct w' as [st cl ev fd wk lk pc]. cbn in Hl. subst lk. destruct fd; [by eexists|]. destruct st, pc; try discriminate Hok; by destruct cl, ev, wk.
Qed.

(** No order of calls and answers sends on the closed stream, closes the
    descriptors twice, or uses them closed. *)
Theorem watcher_never_misuses (w : watcher) (e : watchEvent) : watch_reachable w -> watch_step w e <> Some Panic /\ watch_step w e <> Some (Err tt).
Proof. intros Hw%reachable_ok. split; intros Hs; by destruct (watch_step_ok _ _ _ Hw Hs) as (w' & ? & _). Qed.

(** ** At concrete inputs *)

Definition visit_names (n : nat) (m : listing) : list (bytes * dirEntry) := map_to_list m.
Definition visit_inos (n : nat) (m : gmap Z bytes) : list (Z * bytes) := map_to_list m.
Definition nm (s : string) : bytes := String.list_byte_of_string s.

(** A file renamed, another written to, a folder made. *)
Definition before_ex : listing := list_to_map [(nm "a", mkEntry 7 1 false); (nm "b", mkEntry 8 1 false)].
Definition after_ex : listing := list_to_map [(nm "c", mkEntry 7 1 false); (nm "b", mkEntry 8 2 false); (nm "d", mkEntry 9 1 true)].

Definition no_linksb (m : listing) : bool := forallb (fun p => forallb (fun q : bytes * dirEntry => negb (ino p.2 =? ino q.2) || bool_decide (p.1 = q.1)) (map_to_list m)) (map_to_list m).

Lemma no_linksb_ok m : no_linksb m = true -> no_links m.
Proof.
  intros H n1 n2 e1 e2 H1 H2 Hi. unfold no_linksb in H. rewrite forallb_forall in H. apply elem_of_map_to_list, list_elem_of_In in H1, H2. specialize (H _ H1).
  rewrite forallb_forall in H. specialize (H _ H2). cbn in H. rewrite Hi, Z.eqb_refl in H. by apply bool_decide_eq_true in H.
Qed.


(** Two names of one file that are both removed are reported as one deletion. *)
Theorem linked_deletion_lost (d : bytes) :
  length (diffSnapshot visit_names visit_inos d (list_to_map [(nm "a", mkEntry 7 1 false); (nm "b", mkEntry 7 1 false)]) ∅) = 1%nat.
Proof. by vm_compute. Qed.

Definition record_ex : krecord := mkRecord (mkSys 1 IN_CREATE 0 16) (nm "f") 15.
Definition watches_ex : watches := mkWatches {[ 1 := nm "/d" ]} [].

Theorem parse_events_faithful_witness : record_wf record_ex /\
  (exists w, parseEvents true (fun _ => false) (fun _ => []) (fun _ => None) watches_ex (encode_record record_ex ++ encode_record record_ex) = Ok (w, true) /\ Events w = [mkEvent (nm "/d/f") FileCreate; mkEvent (nm "/d/f") FileCreate]) /\
  parseEvents true (fun _ => false) (fun _ => []) (fun _ => None) watches_ex (concat (map encode_record [record_ex])) =
  Ok (foldl (handle_record true (fun _ => false) (fun _ => []) (fun _ => None)) watches_ex [record_ex], true).
Proof.
  assert (Hwf : record_wf record_ex).
  { split; try (by vm_compute); try (by split; vm_compute). intros pre Hp. destruct pre as [|c [|c' pre]]; by injection Hp. }
  split; [done|]. split; [eexists; split; [vm_compute; reflexivity|by vm_compute]|].
  apply (parse_events_faithful true (fun _ => false) (fun _ => []) (fun _ => None) watches_ex [record_ex]). by apply Forall_singleton.
Defined.

(** A new file is reported, then the watcher is closed while its loop waits in
    the poll. *)
Definition closing_ex : watcher := mkWatcher stateWatching true false true true false WPoll.

Lemma closing_reachable : watch_reachable closing_ex.
Proof.
  assert (H1 := wr_step _ EvWatch _ wr_new eq_refl). assert (H2 := wr_step _ EvTurn _ H1 eq_refl). assert (H3 := wr_step _ EvClose _ H2 eq_refl). exact (wr_step _ EvWake _ H3 eq_refl).
Qed.

Theorem close_ends_watch_witness :
  let es := [EvPoll (PollReady true false false); EvTurn; EvTurn; EvTurn] in
  exists w', watch_run closing_ex es = Some w' /\ wPc w' = WDone /\ (turns es <= turns_left closing_ex <= 263)%nat.
Proof.
  intros es. eexists. split; [reflexivity|]. split; [reflexivity|].
  exact (proj1 (close_ends_watch closing_ex _ es closing_reachable eq_refl eq_refl)).
Defined.
End Watch.
