(* ===== verification/Kqueue.v ===== *)
(** The darwin backend of the file watcher: [internal/inotify/watcher_darwin.go].

    kqueue watches open descriptors, so a watcher holds one for each directory and
    each file it watches, out of a budget all watchers share.  What the kernel and
    the file system answer are arguments, by the number of the question.  An
    operation of the event loop is one step: only [Close] runs beside it, and only
    to set a flag. *)

From S2P Require Import Prelude Smb2 Vfs Watch.
Import Watch.

Module Kqueue.

(** ** The budget *)

Definition minWatchFDs : Z := 32.
Definition maxWatchFDs : Z := 512.

Record fdBudget := mkBudget { limit : Z; nDirs : Z; nFiles : Z }.

(** [rlimit] is the soft limit on descriptors, where it can be read. *)
Definition newFDBudget (rlimit : option Z) : fdBudget :=
  let l := match rlimit with
           | Some cur => if 0 <? cur then (if cur / 8 <? maxWatchFDs then cur / 8 else maxWatchFDs) else minWatchFDs
           | None => minWatchFDs
           end in
  mkBudget (if l <? minWatchFDs then minWatchFDs else l) 0 0.

Definition acquireDir (b : fdBudget) (force : bool) : option fdBudget :=
  if negb force && (limit b <=? nDirs b + nFiles b) then None else Some (mkBudget (limit b) (nDirs b + 1) (nFiles b)).
Definition acquireFile (b : fdBudget) : option fdBudget :=
  if (limit b <=? nDirs b + nFiles b) || (limit b / 2 <=? nFiles b) then None else Some (mkBudget (limit b) (nDirs b) (nFiles b + 1)).
Definition release (b : fdBudget) (dirs files : Z) : fdBudget := mkBudget (limit b) (Z.max 0 (nDirs b - dirs)) (Z.max 0 (nFiles b - files)).
Definition exhausted (b : fdBudget) : bool := limit b <=? nDirs b + nFiles b.

(** ** The watcher *)

Record watchedDir := mkDir { dPath : bytes; dToken : Z; snap : listing }.
Record watchedFile := mkFile { fPath : bytes; fToken : Z }.

(** What is watched, by descriptor and by path. *)
Record registry (A : Type) := mkReg { byFd : gmap Z A; byPath : gmap bytes Z }.
Arguments mkReg {A}. Arguments byFd {A}. Arguments byPath {A}.

Definition noReg {A} : registry A := mkReg ∅ ∅.
Definition put {A} (r : registry A) (fd : Z) (path : bytes) (a : A) : registry A := mkReg (<[fd := a]> (byFd r)) (<[path := fd]> (byPath r)).

Record watcher := mkKWatcher {
  root : bytes; recursive : bool; dirs : registry watchedDir; files : registry watchedFile;
  closed : bool; fdsClosed : bool; watching : bool; degraded : bool; chanClosed : bool; eventsClosed : bool; Events : list InotifyEvent }.

(** The budget, the descriptors open for watches, the questions asked so far. *)
Record st := mkSt { bud : fdBudget; fds : gset Z; tick : nat; w : watcher }.

Definition set_bud (s : st) (b : fdBudget) : st := mkSt b (fds s) (tick s) (w s).
Definition set_w (s : st) (x : watcher) : st := mkSt (bud s) (fds s) (tick s) x.
Definition ask (s : st) : st := mkSt (bud s) (fds s) (S (tick s)) (w s).
Definition set_dirs (s : st) (r : registry watchedDir) : st :=
  let x := w s in set_w s (mkKWatcher (root x) (recursive x) r (files x) (closed x) (fdsClosed x) (watching x) (degraded x) (chanClosed x) (eventsClosed x) (Events x)).
Definition set_files (s : st) (r : registry watchedFile) : st :=
  let x := w s in set_w s (mkKWatcher (root x) (recursive x) (dirs x) r (closed x) (fdsClosed x) (watching x) (degraded x) (chanClosed x) (eventsClosed x) (Events x)).
Definition set_flags (s : st) (cl fc wa de cc ec : bool) : st :=
  let x := w s in set_w s (mkKWatcher (root x) (recursive x) (dirs x) (files x) cl fc wa de cc ec (Events x)).
Definition emit (s : st) (ev : InotifyEvent) : st :=
  let x := w s in set_w s (mkKWatcher (root x) (recursive x) (dirs x) (files x) (closed x) (fdsClosed x) (watching x) (degraded x) (chanClosed x) (eventsClosed x) (Events x ++ [ev])).

(** [unix.Close] on a watch descriptor: an error for one that is not open, which
    may by then be somebody else's. *)
Abbreviation M A := (outcome unit A).
Definition closeFd (s : st) (fd : Z) : M st := if bool_decide (fd ∈ fds s) then Ok (mkSt (bud s) (fds s ∖ {[fd]}) (tick s) (w s)) else Err tt.
Fixpoint closeFds (s : st) (l : list Z) : M st := match l with [] => Ok s | fd :: l => s ← closeFd s fd; closeFds s l end.

Definition credit (s : st) (d f : Z) : st := set_bud s (release (bud s) d f).

Definition noteDegraded (s : st) : st := let x := w s in set_flags s (closed x) (fdsClosed x) (watching x) true (chanClosed x) (eventsClosed x).

(** ** What every operation keeps *)

(** The two maps of a registry name the same watches. *)
Definition reg_ok {A} (path : A -> bytes) (r : registry A) : Prop :=
  forall p fd, byPath r !! p = Some fd <-> exists a, byFd r !! fd = Some a /\ path a = p.

Definition dom_fd {A} (r : registry A) : gset Z := dom (byFd r).
Definition own (s : st) : gset Z := dom_fd (dirs (w s)) ∪ dom_fd (files (w s)).
Definition size_of {A} (r : registry A) : Z := Z.of_nat (size (byFd r)).
Definition total (b : fdBudget) : Z := nDirs b + nFiles b.

(** The watches are descriptors of their own that are open, and counted. *)
Record Inv (s : st) : Prop := {
  inv_dirs : reg_ok dPath (dirs (w s));
  inv_files : reg_ok fPath (files (w s));
  inv_apart : dom_fd (dirs (w s)) ## dom_fd (files (w s));
  inv_open : own s ⊆ fds s;
  inv_nd : size_of (dirs (w s)) <= nDirs (bud s);
  inv_nf : size_of (files (w s)) <= nFiles (bud s) }.

(** What an operation leaves to the other watchers: their descriptors, their share
    of the budget; it goes over the limit by [k] at most. *)
Record frame (k : Z) (s s' : st) : Prop := {
  fr_fds : fds s' ∖ own s' = fds s ∖ own s;
  fr_nd : nDirs (bud s') - size_of (dirs (w s')) = nDirs (bud s) - size_of (dirs (w s));
  fr_nf : nFiles (bud s') - size_of (files (w s')) = nFiles (bud s) - size_of (files (w s));
  fr_limit : limit (bud s') = limit (bud s);
  fr_total : total (bud s') <= Z.max (limit (bud s)) (total (bud s) + k);
  fr_files : nFiles (bud s') <= Z.max (limit (bud s) / 2) (nFiles (bud s)) }.

(** How far [Watch] and [Close] have come. *)
Definition stage (x : watcher) : bool * bool * bool * bool := (closed x, fdsClosed x, watching x, chanClosed x).

Definition ok (k : Z) (s s' : st) : Prop := Inv s' /\ frame k s s' /\ stage (w s') = stage (w s).

Lemma frame_trans k s1 s2 s3 : 0 <= k -> frame k s1 s2 -> frame 0 s2 s3 -> frame k s1 s3.
Proof. intros Hk [A1 A2 A3 A4 A5 A6] [B1 B2 B3 B4 B5 B6]. split; try congruence; [rewrite A4 in B5; lia|rewrite A4 in B6; lia]. Qed.

Lemma ok_trans k s1 s2 s3 : 0 <= k -> ok k s1 s2 -> ok 0 s2 s3 -> ok k s1 s3.
Proof. intros Hk (_ & HA & EA) (HI & HB & EB). split; [done|]. split; [by apply (frame_trans k s1 s2)|congruence]. Qed.

(** Neither the budget nor the watches changed. *)
Definition same (s s' : st) : Prop := bud s' = bud s /\ fds s' = fds s /\ dirs (w s') = dirs (w s) /\ files (w s') = files (w s) /\ stage (w s') = stage (w s).

Lemma same_ok k s s' : 0 <= k -> Inv s -> same s s' -> ok k s s'.
Proof.
  intros Hk [H1 H2 H3 H4 H5 H6] (Hb & Hf & Hd & Hfl & Hst). assert (Ho : own s' = own s) by (unfold own; congruence).
  split; [split|split; [split|done]]; rewrite ?Ho, ?Hb, ?Hf, ?Hd, ?Hfl; try done; unfold total; lia.
Qed.

Lemma size_put {A} (r : registry A) fd p a : fd ∉ dom_fd r -> size_of (put r fd p a) = size_of r + 1.
Proof. intros Hn. unfold size_of, put, dom_fd in *. cbn. rewrite map_size_insert_None by (by apply not_elem_of_dom). lia. Qed.

Lemma size_delete {A} (r : registry A) fd m : fd ∈ dom_fd r -> size_of (mkReg (delete fd (byFd r)) m) = size_of r - 1.
Proof.
  unfold dom_fd. intros [a Ha]%elem_of_dom. unfold size_of. cbn. rewrite map_size_delete_Some by (by eexists). assert (size (byFd r) <> O) by (intros Hz%map_size_empty_inv; by rewrite Hz, lookup_empty in Ha). lia.
Qed.

Lemma reg_path {A} (path : A -> bytes) r p fd : reg_ok path r -> byPath r !! p = Some fd -> fd ∈ dom_fd r.
Proof. intros Hr (a & Ha & _)%Hr. unfold dom_fd. apply elem_of_dom. by eexists. Qed.

(** A watch put in, in the place of the one the path had. *)
Definition evict {A} (r : registry A) (p : bytes) : registry A :=
  match byPath r !! p with Some old => mkReg (delete old (byFd r)) (byPath r) | None => r end.

Lemma reg_put {A} (path : A -> bytes) r fd p a : reg_ok path r -> fd ∉ dom_fd r -> path a = p -> reg_ok path (put (evict r p) fd p a).
Proof.
  unfold dom_fd. intros Hr Hn%not_elem_of_dom Hp q f. unfold put. cbn [byFd byPath]. assert (Hbp : byPath (evict r p) = byPath r) by (unfold evict; by destruct (byPath r !! p)). rewrite Hbp.
  destruct (decide (q = p)) as [->|Hq].
  - rewrite lookup_insert_eq. split; [intros [= <-]; exists a; by rewrite lookup_insert_eq|]. intros (b & Hb & Hpb). destruct (decide (f = fd)) as [->|Hf]; [done|].
    rewrite lookup_insert_ne in Hb by done. exfalso. unfold evict in Hb. destruct (byPath r !! p) as [old|] eqn:Ho; cbn in Hb.
    + apply lookup_delete_Some in Hb as [Hne Hb]. assert (byPath r !! p = Some f) by (apply Hr; by exists b). congruence.
    + assert (byPath r !! p = Some f) by (apply Hr; by exists b). congruence.
  - rewrite lookup_insert_ne by done. rewrite (Hr q f). split; intros (b & Hb & Hpb); exists b; (split; [|done]).
    + rewrite lookup_insert_ne by congruence. unfold evict. destruct (byPath r !! p) as [old|] eqn:Ho; [|done]. cbn. rewrite lookup_delete_ne; [done|]. intros ->. apply Hr in Ho as (c & Hc & Hpc). congruence.
    + destruct (decide (f = fd)) as [->|Hf]; [rewrite lookup_insert_eq in Hb; congruence|]. rewrite lookup_insert_ne in Hb by done. unfold evict in Hb.
      destruct (byPath r !! p) as [old|]; cbn in Hb; [|done]. by apply lookup_delete_Some in Hb as [_ Hb].
Qed.

#[local] Arguments dom_fd {A} r : simpl never.
#[local] Arguments size_of {A} r : simpl never.
#[local] Arguments put {A} r fd path a : simpl never.

(** Sets of descriptors, one added, or one in the place of another. *)
Section Sets.
Implicit Types F D G : gset Z.
Lemma set_register F D G (fd : Z) : fd ∉ F -> D ∪ G ⊆ F ->
  ({[fd]} ∪ F) ∖ (({[fd]} ∪ D) ∪ G) = F ∖ (D ∪ G) /\ ({[fd]} ∪ D) ∪ G ⊆ {[fd]} ∪ F /\ (D ## G -> {[fd]} ∪ D ## G).
Proof.
  intros Hf Hs. split_and!; [|set_solver|set_solver]. apply set_eq. intros x. rewrite !elem_of_difference, !elem_of_union, elem_of_singleton.
  destruct (decide (x = fd)) as [->|]; [|tauto]. split; [tauto|]. by intros [? _].
Qed.
Lemma set_replace F D G (fd old : Z) : fd ∉ F -> D ∪ G ⊆ F -> old ∈ D -> D ## G ->
  (({[fd]} ∪ F) ∖ {[old]}) ∖ (({[fd]} ∪ D ∖ {[old]}) ∪ G) = F ∖ (D ∪ G) /\ ({[fd]} ∪ D ∖ {[old]}) ∪ G ⊆ ({[fd]} ∪ F) ∖ {[old]} /\ {[fd]} ∪ D ∖ {[old]} ## G.
Proof.
  intros Hf Hs Ho Hd. assert (HoG : old ∉ G) by set_solver. assert (HoF : old ∈ F) by set_solver. assert (HfD : fd ∉ D) by set_solver. assert (HfG : fd ∉ G) by set_solver. split_and!.
  - apply set_eq. intros y. rewrite !elem_of_difference, !elem_of_union, !elem_of_difference, !elem_of_singleton.
    destruct (decide (y = fd)) as [->|]; [|destruct (decide (y = old)) as [->|]]; tauto.
  - intros x. rewrite !elem_of_difference, !elem_of_union, !elem_of_difference, !elem_of_singleton. destruct (decide (x = old)) as [->|]; [|set_solver]. intros [[->|[]]|?]; done.
  - intros y. rewrite !elem_of_union, !elem_of_difference, !elem_of_singleton. intros [->|[? _]] Hg; [done|]. by apply (Hd y).
Qed.
End Sets.

Lemma dom_put {A} (r : registry A) fd p a : dom_fd (put r fd p a) = {[fd]} ∪ dom_fd r.
Proof. unfold dom_fd, put. cbn. by rewrite dom_insert_L. Qed.

Lemma dom_delete {A} (r : registry A) fd m : dom_fd (mkReg (delete fd (byFd r)) m) = dom_fd r ∖ {[fd]}.
Proof. unfold dom_fd. cbn. by rewrite dom_delete_L. Qed.

Lemma closeFd_ok s fd : fd ∈ fds s -> closeFd s fd = Ok (mkSt (bud s) (fds s ∖ {[fd]}) (tick s) (w s)).
Proof. intros H. unfold closeFd. by rewrite bool_decide_eq_true_2. Qed.

(** What a walk or a listing meets. *)
Inductive kind := Directory | Regular | Other.
#[export] Instance kind_eq_dec : EqDecision kind.
Proof. solve_decision. Defined.

Section Env.
(** [Open], given the descriptors in use; whether kevent registers; what [ReadDir]
    lists; what [Lstat] finds. *)
Context (Open : nat -> bytes -> gset Z -> option Z) (Register : nat -> bool).
Context (ReadDir : nat -> bytes -> option (list (bytes * kind))) (Lstat : nat -> bytes -> option dirEntry).

(** A name that cannot be looked up is left out. *)
Definition scanDir (n : nat) (path : bytes) : listing :=
  match ReadDir n path with
  | None => ∅
  | Some entries => foldl (fun snap e => match Lstat n (Vfs.Join path e.1) with None => snap | Some fi => <[e.1 := fi]> snap end) ∅ entries
  end.

(** The answer to [Open], with the descriptor counted as open. *)
Definition openFd (s : st) (path : bytes) : st * option Z :=
  match Open (tick s) path (fds s) with
  | Some fd => (mkSt (bud s) ({[fd]} ∪ fds s) (S (tick s)) (w s), Some fd)
  | None => (ask s, None)
  end.

(** The result of an operation: the state, and whether it returned no error. *)
Definition addDir (s : st) (path : bytes) (force : bool) : M (st * bool) :=
  match acquireDir (bud s) force with
  | None => Ok (noteDegraded s, true)
  | Some b =>
      match openFd (set_bud s b) path with
      | (s, None) => Ok (credit s 1 0, false)
      | (s, Some fd) =>
          let d := mkDir path (Z.of_nat (tick s)) (scanDir (tick s) path) in
          let s := ask s in
          if closed (w s) then s ← closeFd s fd; Ok (credit s 1 0, true) else
          if negb (Register (tick s)) then s ← closeFd (ask s) fd; Ok (credit s 1 0, false) else
          let s := ask s in
          s ← (match byPath (dirs (w s)) !! path with
               | Some old => s ← closeFd (set_dirs s (mkReg (delete old (byFd (dirs (w s)))) (byPath (dirs (w s))))) old; Ok (credit s 1 0)
               | None => Ok s
               end);
          Ok (set_dirs s (put (dirs (w s)) fd path d), true)
      end
  end.

Definition addFile (s : st) (path : bytes) : M (st * bool) :=
  match acquireFile (bud s) with
  | None => Ok (noteDegraded s, true)
  | Some b =>
      match openFd (set_bud s b) path with
      | (s, None) => Ok (credit s 0 1, false)
      | (s, Some fd) =>
          let f := mkFile path (Z.of_nat (tick s)) in
          let s := ask s in
          if closed (w s) then s ← closeFd s fd; Ok (credit s 0 1, true) else
          if negb (Register (tick s)) then s ← closeFd (ask s) fd; Ok (credit s 0 1, false) else
          let s := ask s in
          s ← (match byPath (files (w s)) !! path with
               | Some old => s ← closeFd (set_files s (mkReg (delete old (byFd (files (w s)))) (byPath (files (w s))))) old; Ok (credit s 0 1)
               | None => Ok s
               end);
          Ok (set_files s (put (files (w s)) fd path f), true)
      end
  end.

Definition removeFileByPath (s : st) (path : bytes) : M st :=
  match byPath (files (w s)) !! path with
  | Some fd =>
      s ← closeFd (set_files s (mkReg (delete fd (byFd (files (w s)))) (delete path (byPath (files (w s)))))) fd;
      Ok (credit s 0 1)
  | None => Ok s
  end.

Definition under (prefix path : bytes) : bool := bool_decide (path = prefix) || Vfs.HasPrefix path (prefix ++ [Vfs.slash]).

(** The registry without what is under [prefix], and the descriptors that were. *)
Definition cut {A} (r : registry A) (prefix : bytes) : registry A * list Z :=
  let gone := (map_to_list (filter (fun p => under prefix p.1 = true) (byPath r))).*2 in
  (mkReg (filter (fun p => p.1 ∉ gone) (byFd r)) (filter (fun p => under prefix p.1 = false) (byPath r)), gone).

Definition removeSubtree (s : st) (prefix : bytes) : M st :=
  let '(ds, dfds) := cut (dirs (w s)) prefix in
  let '(fs, ffds) := cut (files (w s)) prefix in
  s ← closeFds (set_files (set_dirs s ds) fs) (dfds ++ ffds);
  Ok (credit s (len dfds) (len ffds)).

Definition closeAll (s : st) : M st :=
  let x := w s in
  if fdsClosed x then Ok s else
  let dfds := (map_to_list (byFd (dirs x))).*1 in
  let ffds := (map_to_list (byFd (files x))).*1 in
  s ← closeFds (set_flags (set_files (set_dirs s noReg) noReg) (closed x) true (watching x) (degraded x) (chanClosed x) (eventsClosed x)) (dfds ++ ffds);
  Ok (credit s (len dfds) (len ffds)).

(** The kernel gives out a descriptor that is not in use. *)
Hypothesis Open_fresh : forall n path used fd, Open n path used = Some fd -> fd ∉ used.

Lemma credit_back s d f : Inv s -> 0 <= d -> 0 <= f -> release (mkBudget (limit (bud s)) (nDirs (bud s) + d) (nFiles (bud s) + f)) d f = bud s.
Proof. intros [_ _ _ _ H5 H6] Hd Hf. unfold size_of in *. unfold release. cbn. destruct (bud s) as [l nd nf]. cbn in *. f_equal; lia. Qed.

Lemma dir_registered s fd p d t k : Inv s -> fd ∉ fds s -> dPath d = p -> 0 <= k -> total (bud s) + 1 <= Z.max (limit (bud s)) (total (bud s) + k) ->
  let s1 := mkSt (mkBudget (limit (bud s)) (nDirs (bud s) + 1) (nFiles (bud s))) ({[fd]} ∪ fds s) t (w s) in
  exists s2, (match byPath (dirs (w s1)) !! p with
              | Some old => s2 ← closeFd (set_dirs s1 (mkReg (delete old (byFd (dirs (w s1)))) (byPath (dirs (w s1))))) old; Ok (credit s2 1 0)
              | None => Ok s1
              end) = Ok s2 /\ ok k s (set_dirs s2 (put (dirs (w s2)) fd p d)).
Proof.
  intros Hi Hfd Hp Hk Hb. pose proof Hi as [H1 H2 H3 H4 H5 H6]. cbn zeta. cbn [w dirs]. unfold own in H4. assert (Hn : fd ∉ dom_fd (dirs (w s))) by set_solver.
  pose proof (reg_put dPath (dirs (w s)) fd p d H1 Hn Hp) as Hput. unfold evict in Hput. unfold own, ok. destruct (byPath (dirs (w s)) !! p) as [old|] eqn:Ho.
  - pose proof (reg_path _ _ _ _ H1 Ho) as Hold. rewrite closeFd_ok by (cbn; set_solver). cbn [mbind outcome_bind]. eexists. split; [reflexivity|].
    destruct (set_replace (fds s) (dom_fd (dirs (w s))) (dom_fd (files (w s))) fd old Hfd H4 Hold H3) as (E1 & E2 & E3).
    assert (Hsz : size_of (put (mkReg (delete old (byFd (dirs (w s)))) (byPath (dirs (w s)))) fd p d) = size_of (dirs (w s))) by (rewrite size_put by (rewrite dom_delete; set_solver); rewrite size_delete by done; lia).
    unfold size_of in H5, H6. split; [split|split; [split|done]]; unfold own; cbn; rewrite ?Hsz, ?dom_put, ?dom_delete; unfold total, size_of, release in *; cbn [nDirs nFiles limit]; try done; try lia.
  - eexists. split; [reflexivity|]. destruct (set_register (fds s) (dom_fd (dirs (w s))) (dom_fd (files (w s))) fd Hfd H4) as (E1 & E2 & E3). pose proof (size_put (dirs (w s)) fd p d Hn) as Hsz.
    split; [split|split; [split|done]]; unfold own; cbn; rewrite ?Hsz, ?dom_put; unfold total in *; cbn [nDirs nFiles limit]; try done; try lia; try (by apply E3).
Qed.

Lemma file_registered s fd p d t k : Inv s -> fd ∉ fds s -> fPath d = p -> 0 <= k -> total (bud s) + 1 <= Z.max (limit (bud s)) (total (bud s) + k) -> nFiles (bud s) + 1 <= Z.max (limit (bud s) / 2) (nFiles (bud s)) ->
  let s1 := mkSt (mkBudget (limit (bud s)) (nDirs (bud s)) (nFiles (bud s) + 1)) ({[fd]} ∪ fds s) t (w s) in
  exists s2, (match byPath (files (w s1)) !! p with
              | Some old => s2 ← closeFd (set_files s1 (mkReg (delete old (byFd (files (w s1)))) (byPath (files (w s1))))) old; Ok (credit s2 0 1)
              | None => Ok s1
              end) = Ok s2 /\ ok k s (set_files s2 (put (files (w s2)) fd p d)).
Proof.
  intros Hi Hfd Hp Hk Hb Hb2. pose proof Hi as [H1 H2 H3 H4 H5 H6]. cbn zeta. cbn [w files]. unfold own in H4. assert (Hn : fd ∉ dom_fd (files (w s))) by set_solver.
  pose proof (reg_put fPath (files (w s)) fd p d H2 Hn Hp) as Hput. unfold evict in Hput. rewrite union_comm_L in H4. symmetry in H3. unfold own, ok. destruct (byPath (files (w s)) !! p) as [old|] eqn:Ho.
  - pose proof (reg_path _ _ _ _ H2 Ho) as Hold. rewrite closeFd_ok by (cbn; set_solver). cbn [mbind outcome_bind]. eexists. split; [reflexivity|].
    destruct (set_replace (fds s) (dom_fd (files (w s))) (dom_fd (dirs (w s))) fd old Hfd H4 Hold H3) as (E1 & E2 & E3).
    assert (Hsz : size_of (put (mkReg (delete old (byFd (files (w s)))) (byPath (files (w s)))) fd p d) = size_of (files (w s))) by (rewrite size_put by (rewrite dom_delete; set_solver); rewrite size_delete by done; lia).
    unfold size_of in H5, H6. split; [split|split; [split|done]]; unfold own; cbn; rewrite ?Hsz, ?dom_put, ?dom_delete; unfold total, size_of, release in *; cbn [nDirs nFiles limit]; try done; try lia; try (rewrite (union_comm_L (dom_fd (dirs _))); try (rewrite (union_comm_L (dom_fd (dirs _)))); done).
  - eexists. split; [reflexivity|]. destruct (set_register (fds s) (dom_fd (files (w s))) (dom_fd (dirs (w s))) fd Hfd H4) as (E1 & E2 & E3). pose proof (size_put (files (w s)) fd p d Hn) as Hsz.
    split; [split|split; [split|done]]; unfold own; cbn; rewrite ?Hsz, ?dom_put; unfold total in *; cbn [nDirs nFiles limit]; try done; try lia; try (by apply E3); try (symmetry; by apply E3); try (rewrite (union_comm_L (dom_fd (dirs _))); try (rewrite (union_comm_L (dom_fd (dirs _)))); done).
Qed.

(** An operation returns, and keeps what every operation keeps. *)
Definition returns (k : Z) (s : st) (m : M (st * bool)) : Prop := exists s' b, m = Ok (s', b) /\ ok k s s'.
Definition runs (s : st) (m : M st) : Prop := exists s', m = Ok s' /\ ok 0 s s'.

Lemma addDir_ok s path (force : bool) : Inv s -> returns (if force then 1 else 0) s (addDir s path force).
Proof.
  intros Hi. unfold returns, addDir, acquireDir. destruct (negb force && (limit (bud s) <=? nDirs (bud s) + nFiles (bud s))) eqn:Hacq; [eexists _, _; split; [reflexivity|]; apply same_ok; [destruct force; lia|done|done]|].
  assert (Hroom : total (bud s) + 1 <= Z.max (limit (bud s)) (total (bud s) + if force then 1 else 0)).
  { unfold total. destruct force; cbn [negb andb] in Hacq; [lia|]. apply Z.leb_gt in Hacq. lia. }
  assert (Hk : 0 <= if force then 1 else 0) by (destruct force; lia).
  pose proof (credit_back s 1 0 Hi ltac:(lia) ltac:(lia)) as Hcb. rewrite Z.add_0_r in Hcb.
  unfold openFd. cbn [set_bud tick fds w bud]. destruct (Open (tick s) path (fds s)) as [fd|] eqn:Ho; cbn [ask set_bud tick fds w bud].
  2: { eexists _, _. split; [reflexivity|]. apply same_ok; [done|done|]. unfold same, credit. cbn. by rewrite Hcb. }
  apply Open_fresh in Ho as Hfd. assert (Hback : ({[fd]} ∪ fds s) ∖ {[fd]} = fds s) by (apply set_eq; set_solver).
  destruct (closed (w s)).
  { rewrite closeFd_ok by (cbn; set_solver). cbn [mbind outcome_bind]. eexists _, _. split; [reflexivity|]. apply same_ok; [done|done|]. unfold same, credit. cbn. by rewrite Hcb, Hback. }
  destruct (Register (S (S (tick s)))); cbn [negb].
  2: { rewrite closeFd_ok by (cbn; set_solver). cbn [mbind outcome_bind]. eexists _, _. split; [reflexivity|]. apply same_ok; [done|done|]. unfold same, credit. cbn. by rewrite Hcb, Hback. }
  destruct (dir_registered s fd path (mkDir path (Z.of_nat (S (tick s))) (scanDir (S (tick s)) path)) (S (S (S (tick s)))) _ Hi Hfd eq_refl Hk Hroom) as (s2 & Hs2 & Hok). unfold ask in *. cbn [w bud fds tick set_bud dirs files] in Hs2 |- *. rewrite Hs2. cbn [mbind outcome_bind].
  by eexists _, _.
Qed.

Lemma addFile_ok s path : Inv s -> returns 0 s (addFile s path).
Proof.
  intros Hi. unfold returns, addFile, acquireFile. destruct ((limit (bud s) <=? nDirs (bud s) + nFiles (bud s)) || (limit (bud s) / 2 <=? nFiles (bud s))) eqn:Hacq; [eexists _, _; split; [reflexivity|]; by apply same_ok|].
  apply orb_false_iff in Hacq as [Ha1 Ha2]. apply Z.leb_gt in Ha1, Ha2. assert (Hroom : total (bud s) + 1 <= Z.max (limit (bud s)) (total (bud s) + 0)) by (unfold total; lia).
  assert (Hk : 0 <= 0) by lia. pose proof (credit_back s 0 1 Hi ltac:(lia) ltac:(lia)) as Hcb. rewrite Z.add_0_r in Hcb.
  unfold openFd. cbn [set_bud tick fds w bud]. destruct (Open (tick s) path (fds s)) as [fd|] eqn:Ho; cbn [ask set_bud tick fds w bud].
  2: { eexists _, _. split; [reflexivity|]. apply same_ok; [done|done|]. unfold same, credit. cbn. by rewrite Hcb. }
  apply Open_fresh in Ho as Hfd. assert (Hback : ({[fd]} ∪ fds s) ∖ {[fd]} = fds s) by (apply set_eq; set_solver).
  destruct (closed (w s)).
  { rewrite closeFd_ok by (cbn; set_solver). cbn [mbind outcome_bind]. eexists _, _. split; [reflexivity|]. apply same_ok; [done|done|]. unfold same, credit. cbn. by rewrite Hcb, Hback. }
  destruct (Register (S (S (tick s)))); cbn [negb].
  2: { rewrite closeFd_ok by (cbn; set_solver). cbn [mbind outcome_bind]. eexists _, _. split; [reflexivity|]. apply same_ok; [done|done|]. unfold same, credit. cbn. by rewrite Hcb, Hback. }
  destruct (file_registered s fd path (mkFile path (Z.of_nat (S (tick s)))) (S (S (S (tick s)))) _ Hi Hfd eq_refl Hk Hroom ltac:(lia)) as (s2 & Hs2 & Hok). unfold ask in *. cbn [w bud fds tick set_bud dirs files] in Hs2 |- *. rewrite Hs2. cbn [mbind outcome_bind].
  by eexists _, _.
Qed.

Lemma closeFds_ok l : forall s, NoDup l -> (forall fd, fd ∈ l -> fd ∈ fds s) -> closeFds s l = Ok (mkSt (bud s) (fds s ∖ list_to_set l) (tick s) (w s)).
Proof.
  induction l as [|fd l IH]; intros s Hnd Hin; cbn [closeFds].
  - f_equal. destruct s as [b f t x]. cbn. f_equal. apply set_eq. set_solver.
  - apply NoDup_cons in Hnd as [Hfd Hnd]. rewrite closeFd_ok by (apply Hin, elem_of_cons; by left). cbn [mbind outcome_bind]. rewrite IH; [|done|].
    + f_equal. f_equal. cbn. apply set_eq. intros x. rewrite !elem_of_difference, elem_of_union, elem_of_singleton. tauto.
    + intros x Hx. cbn. apply elem_of_difference. split; [apply Hin, elem_of_cons; by right|]. intros ->%elem_of_singleton. done.
Qed.

(** [r'] is [r] without the watches of [gone]. *)
Definition without {A} (path : A -> bytes) (r r' : registry A) (gone : list Z) : Prop :=
  reg_ok path r' /\ NoDup gone /\ (forall fd, fd ∈ gone -> fd ∈ dom_fd r) /\ dom_fd r' = dom_fd r ∖ list_to_set gone.

Lemma size_without {A} path (r r' : registry A) gone : without path r r' gone -> size_of r' = size_of r - len gone.
Proof.
  intros (_ & Hnd & Hin & Hd). unfold size_of, dom_fd, len in *. rewrite <- (size_dom (byFd r')), Hd. assert (Hs : (list_to_set gone : gset Z) ⊆ dom (byFd r)) by (intros x; rewrite elem_of_list_to_set; apply Hin).
  rewrite size_difference by done. rewrite size_list_to_set by done. rewrite size_dom. pose proof (subseteq_size _ _ Hs) as Hle. rewrite size_list_to_set, size_dom in Hle by done. lia.
Qed.

Lemma removed s ds fs dfds ffds x : Inv s -> without dPath (dirs (w s)) ds dfds -> without fPath (files (w s)) fs ffds -> dirs x = ds -> files x = fs ->
  exists s', closeFds (set_w s x) (dfds ++ ffds) = Ok s' /\ w s' = x /\ Inv (credit s' (len dfds) (len ffds)) /\ frame 0 s (credit s' (len dfds) (len ffds)).
Proof.
  intros [H1 H2 H3 H4 H5 H6] Hd Hf Hxd Hxf. pose proof (size_without _ _ _ _ Hd) as Sd. pose proof (size_without _ _ _ _ Hf) as Sf.
  destruct Hd as (D1 & D2 & D3 & D4). destruct Hf as (F1 & F2 & F3 & F4). unfold own in H4.
  rewrite closeFds_ok.
  2: { apply NoDup_app. split_and!; [done| |done]. intros fd Hx Hy. by apply (H3 fd); [apply D3|apply F3]. }
  2: { intros fd [Hx|Hx]%elem_of_app; apply H4, elem_of_union; [left; by apply D3|right; by apply F3]. }
  eexists. split; [reflexivity|]. split; [done|]. cbn. pose proof (len_nonneg dfds). pose proof (len_nonneg ffds). unfold size_of in H5, H6.
  assert (Hl : (list_to_set (dfds ++ ffds) : gset Z) = list_to_set dfds ∪ list_to_set ffds) by (by rewrite list_to_set_app_L).
  split; split; unfold own, credit; cbn; rewrite ?Hxd, ?Hxf, ?D4, ?F4, ?Hl; try done; unfold total; cbn [nDirs nFiles limit release]; rewrite ?Sd, ?Sf; unfold size_of in *; try lia.
  - intros fd [Hx _]%elem_of_difference [Hy _]%elem_of_difference. by apply (H3 fd).
  - intros fd. rewrite elem_of_union, !elem_of_difference, elem_of_union. intros [[Hx Hn]|[Hx Hn]]; (split; [apply H4, elem_of_union; tauto|]); intros [Hy|Hy]; try done.
    + apply (H3 fd); [done|]. apply F3. by apply elem_of_list_to_set in Hy.
    + apply (H3 fd); [|done]. apply D3. by apply elem_of_list_to_set in Hy.
  - apply set_eq. intros fd. rewrite !elem_of_difference, !elem_of_union, !elem_of_difference. pose proof (D3 fd) as P1. pose proof (F3 fd) as P2. rewrite !elem_of_list_to_set.
    destruct (decide (fd ∈ dfds)), (decide (fd ∈ ffds)); tauto.
Qed.

Lemma without_refl {A} (path : A -> bytes) r : reg_ok path r -> without path r r [].
Proof. intros Hr. split_and!; [done|constructor|by intros ? ?%elem_of_nil|]. cbn [list_to_set]. apply set_eq. set_solver. Qed.

Lemma without_path {A} (path : A -> bytes) r p fd : reg_ok path r -> byPath r !! p = Some fd -> without path r (mkReg (delete fd (byFd r)) (delete p (byPath r))) [fd].
Proof.
  intros Hr Hp. split_and!.
  - intros q f. cbn. rewrite lookup_delete_Some, (Hr q f). split.
    + intros [Hq (a & Ha & Hpa)]. exists a. split; [|done]. rewrite lookup_delete_ne; [done|]. intros <-. apply Hr in Hp as (b & Hb & Hpb). congruence.
    + intros (a & [Hf Ha]%lookup_delete_Some & Hpa). split; [|by exists a]. intros <-. assert (byPath r !! p = Some f) by (apply Hr; by exists a). congruence.
  - apply NoDup_singleton.
  - intros f ->%list_elem_of_singleton. by apply (reg_path path r p).
  - cbn [list_to_set]. rewrite dom_delete. by rewrite union_empty_r_L.
Qed.

Lemma cut_without {A} (path : A -> bytes) (r : registry A) prefix : reg_ok path r -> without path r (cut r prefix).1 (cut r prefix).2.
Proof.
  intros Hr. unfold cut. cbn [fst snd]. set (gone := (map_to_list (filter (fun p => under prefix p.1 = true) (byPath r))).*2).
  assert (Hg : forall fd, fd ∈ gone <-> exists q, byPath r !! q = Some fd /\ under prefix q = true).
  { intros fd. unfold gone. rewrite list_elem_of_fmap. split; [intros ([q f] & -> & Hq%elem_of_map_to_list); apply map_lookup_filter_Some in Hq; by exists q|].
    intros (q & Hq & Hu). exists (q, fd). split; [done|]. apply elem_of_map_to_list, map_lookup_filter_Some. by split. }
  split_and!.
  - intros p fd. cbn. rewrite map_lookup_filter_Some, (Hr p fd). cbn [fst]. split.
    + intros [(a & Ha & Hp) Hu]. exists a. split; [|done]. apply map_lookup_filter_Some. split; [done|]. cbn. rewrite Hg. intros (q & Hq & Hu'). apply Hr in Hq as (b & Hb & Hpb). congruence.
    + intros (a & [Ha Hn]%map_lookup_filter_Some & Hp). split; [by exists a|]. cbn in Hn. rewrite Hg in Hn. destruct (under prefix p) eqn:Hu; [|done]. exfalso. apply Hn. exists p. split; [|done]. apply Hr. by exists a.
  - apply NoDup_fmap_2_strong; [|apply NoDup_map_to_list]. intros [p f] [q g] Hp%elem_of_map_to_list Hq%elem_of_map_to_list. cbn. intros <-.
    apply map_lookup_filter_Some in Hp as [Hp _], Hq as [Hq _]. apply Hr in Hp as (a & Ha & <-), Hq as (b & Hb & <-). congruence.
  - intros fd (q & Hq & _)%Hg. by apply (reg_path path r q).
  - unfold dom_fd. cbn. apply set_eq. intros fd. rewrite elem_of_difference, elem_of_list_to_set, !elem_of_dom. split.
    + intros [a [Ha Hn]%map_lookup_filter_Some]. split; [by eexists|done].
    + intros [[a Ha] Hn]. exists a. by apply map_lookup_filter_Some.
Qed.

Lemma without_all {A} (path : A -> bytes) (r : registry A) : without path r noReg (map_to_list (byFd r)).*1.
Proof.
  split_and!; [intros p fd; unfold noReg; cbn [byPath byFd]; rewrite lookup_empty; split; [done|by intros (a & Ha & _); rewrite lookup_empty in Ha]|apply NoDup_fst_map_to_list| |].
  - intros fd ([f a] & -> & Ha%elem_of_map_to_list)%list_elem_of_fmap. unfold dom_fd. apply elem_of_dom. by eexists.
  - unfold dom_fd, noReg. cbn. rewrite dom_empty_L. symmetry. apply set_eq. intros fd. rewrite elem_of_difference, elem_of_list_to_set, elem_of_dom. split; [|set_solver].
    intros [[a Ha] Hn]. exfalso. apply Hn, list_elem_of_fmap. exists (fd, a). split; [done|]. by apply elem_of_map_to_list.
Qed.

Lemma removeFileByPath_ok s path : Inv s -> runs s (removeFileByPath s path).
Proof.
  intros Hi. unfold runs, removeFileByPath. destruct (byPath (files (w s)) !! path) as [fd|] eqn:Hp; [|exists s; split; [done|]; by apply same_ok].
  destruct (removed s _ _ [] [fd] (w (set_files s (mkReg (delete fd (byFd (files (w s)))) (delete path (byPath (files (w s))))))) Hi (without_refl _ _ (inv_dirs s Hi)) (without_path _ _ _ _ (inv_files s Hi) Hp) eq_refl eq_refl) as (s' & Hc & Hw & Hi' & Hfr).
  cbn [app closeFds] in Hc. apply bind_Ok_inv in Hc as (s1 & Hc & [= ->]). change (set_w s (w (set_files s ?r))) with (set_files s r) in Hc. rewrite Hc. cbn [mbind outcome_bind]. eexists. split; [done|]. split; [done|]. split; [done|]. cbn. by rewrite Hw.
Qed.

Lemma removeSubtree_ok s prefix : Inv s -> runs s (removeSubtree s prefix).
Proof.
  intros Hi. unfold runs, removeSubtree. pose proof (cut_without dPath _ prefix (inv_dirs s Hi)) as Hd. pose proof (cut_without fPath _ prefix (inv_files s Hi)) as Hf.
  destruct (cut (dirs (w s)) prefix) as [ds dfds]. destruct (cut (files (w s)) prefix) as [fs ffds]. cbn [fst snd] in *.
  destruct (removed s ds fs dfds ffds (w (set_files (set_dirs s ds) fs)) Hi Hd Hf eq_refl eq_refl) as (s' & Hc & Hw & Hi' & Hfr).
  change (set_w s (w (set_files (set_dirs s ds) fs))) with (set_files (set_dirs s ds) fs) in Hc. rewrite Hc. cbn [mbind outcome_bind]. eexists. split; [done|]. split; [done|]. split; [done|]. cbn. by rewrite Hw.
Qed.

Lemma closeAll_ok s : Inv s -> exists s', closeAll s = Ok s' /\ Inv s' /\ frame 0 s s' /\
  stage (w s') = (closed (w s), true, watching (w s), chanClosed (w s)) /\ (fdsClosed (w s) = false -> own s' = ∅).
Proof.
  intros Hi. unfold closeAll. destruct (fdsClosed (w s)) eqn:Hc.
  { exists s. destruct (same_ok 0 s s ltac:(lia) Hi ltac:(done)) as (H1 & H2 & _). split_and!; try done. unfold stage. by rewrite Hc. }
  set (x := w (set_flags (set_files (set_dirs s noReg) noReg) (closed (w s)) true (watching (w s)) (degraded (w s)) (chanClosed (w s)) (eventsClosed (w s)))).
  destruct (removed s noReg noReg _ _ x Hi (without_all dPath _) (without_all fPath _) eq_refl eq_refl) as (s' & He & Hw & Hi' & Hfr).
  change (set_w s x) with (set_flags (set_files (set_dirs s noReg) noReg) (closed (w s)) true (watching (w s)) (degraded (w s)) (chanClosed (w s)) (eventsClosed (w s))) in He.
  rewrite He. cbn [mbind outcome_bind]. eexists. split; [reflexivity|]. unfold own, credit. cbn. rewrite Hw. by split_and!.
Qed.

(** What [Walk] visits below a directory, and whether it ends in an error; the orders
    in which a diff visits its maps. *)
Context (Walk : nat -> bytes -> list (bytes * kind) * bool).
Context (names : nat -> listing -> list (bytes * dirEntry)) (inos : nat -> gmap Z bytes -> list (Z * bytes)).

(** An operation whose failure is logged and nothing else. *)
Definition state_of (m : M (st * bool)) : M st := m ≫= fun r : st * bool => Ok r.1.

(** The files of a directory. *)
Fixpoint addFiles (s : st) (paths : list bytes) : M st :=
  match paths with [] => Ok s | p :: paths => s ← state_of (addFile s p); addFiles s paths end.

Fixpoint walk_loop (s : st) (visits : list (bytes * kind)) (err : bool) : M (st * bool) :=
  match visits with
  | [] => Ok (s, negb err)
  | (p, k) :: visits =>
      if exhausted (bud s) then Ok (s, true) else
      (match k with Directory => addDir s p false | Regular => addFile s p | Other => Ok (s, true) end) ≫= fun r : st * bool =>
      if r.2 then walk_loop r.1 visits err else Ok (r.1, false)
  end.

Definition watchTree (s : st) (path : bytes) (forceRoot : bool) : M (st * bool) :=
  addDir s path forceRoot ≫= fun r : st * bool =>
  if negb r.2 then Ok r else
  let s := r.1 in
  if negb (recursive (w s)) then
    match ReadDir (tick s) path with
    | None => Ok (ask s, true)
    | Some entries => s ← addFiles (ask s) (map (fun e => Vfs.Join path e.1) (List.filter (fun e => bool_decide (e.2 = Regular)) entries)); Ok (s, true)
    end
  else let '(visits, err) := Walk (tick s) path in walk_loop (ask s) visits err.

(** [filepath.Base] of a path [diffSnapshot] makes: what follows its last
    separator. *)
Fixpoint after_last_slash (s : bytes) : bytes :=
  match s with
  | [] => []
  | c :: s' => if bool_decide (Vfs.slash ∈ s') then after_last_slash s' else if bool_decide (c = Vfs.slash) then s' else s
  end.

(** The watch set after one event of a diff. *)
Definition adjust (s : st) (oldSnap newSnap : listing) (ev : InotifyEvent) : M st :=
  let name := after_last_slash (Path ev) in
  match Event ev with
  | FolderCreate => if recursive (w s) then state_of (watchTree s (Path ev) false) else Ok s
  | FileCreate => state_of (addFile s (Path ev))
  | MovedTo =>
      match newSnap !! name with
      | Some e =>
          if isDir e then (if recursive (w s) then state_of (watchTree s (Path ev) false) else Ok s)
          else state_of (addFile s (Path ev))
      | None => Ok s
      end
  | Modified =>
      match oldSnap !! name, newSnap !! name with
      | Some o, Some n => if negb (ino o =? ino n) && negb (isDir n) then s ← removeFileByPath s (Path ev); state_of (addFile s (Path ev)) else Ok s
      | _, _ => Ok s
      end
  | Delete | MovedFrom =>
      match oldSnap !! name with
      | Some e => if isDir e then removeSubtree s (Path ev) else removeFileByPath s (Path ev)
      | None => Ok s
      end
  | WatchStop => Ok s
  end.

(** [sent] is how many events the client takes before [close] is closed. *)
Fixpoint diff_loop (s : st) (oldSnap newSnap : listing) (evs : list InotifyEvent) (sent : nat) : M st :=
  match evs, sent with
  | [], _ | _, O => Ok s
  | ev :: evs, S sent => s ← adjust (emit s ev) oldSnap newSnap ev; diff_loop s oldSnap newSnap evs sent
  end.

Record kevent := mkKevent { Ident : Z; User : bool; Udata : Z; noteDelete : bool; noteWrite : bool; noteExtend : bool }.

(** [noteDelete] is NOTE_DELETE or NOTE_RENAME. *)
Definition handleDirEvent (s : st) (fd : Z) (dir : watchedDir) (kev : kevent) (sent : nat) : M st :=
  if noteDelete kev then removeSubtree s (dPath dir) else
  if negb (noteWrite kev) then Ok s else
  let newSnap := scanDir (tick s) (dPath dir) in
  let s := ask s in
  let s := set_dirs s (mkReg (alter (fun d => mkDir (dPath d) (dToken d) newSnap) fd (byFd (dirs (w s)))) (byPath (dirs (w s)))) in
  diff_loop s (snap dir) newSnap (diffSnapshot names inos (dPath dir) (snap dir) newSnap) sent.

Definition set_mtime (name : bytes) (m : Z) (d : watchedDir) : watchedDir :=
  mkDir (dPath d) (dToken d) (alter (fun e => mkEntry (ino e) m (isDir e)) name (snap d)).

Definition handleFileEvent (s : st) (file : watchedFile) (kev : kevent) (sent : nat) : M st :=
  if noteDelete kev then removeFileByPath s (fPath file) else
  if negb (noteWrite kev || noteExtend kev) then Ok s else
  match Lstat (tick s) (fPath file) with
  | None => Ok (ask s)
  | Some fi =>
      let s := ask s in
      let r := dirs (w s) in
      let s := match byPath r !! Vfs.Dir (fPath file) with
               | Some dfd => set_dirs s (mkReg (alter (set_mtime (after_last_slash (fPath file)) (mtime fi)) dfd (byFd r)) (byPath r))
               | None => s
               end in
      Ok (match sent with O => s | S _ => emit s (mkEvent (fPath file) Modified) end)
  end.

Definition handleEvent (s : st) (kev : kevent) (sent : nat) : M st :=
  match byFd (dirs (w s)) !! Ident kev, byFd (files (w s)) !! Ident kev with
  | Some dir, _ => if negb (dToken dir =? Udata kev) then Ok s else handleDirEvent s (Ident kev) dir kev sent
  | None, Some file => if negb (fToken file =? Udata kev) then Ok s else handleFileEvent s file kev sent
  | None, None => Ok s
  end.

(** The events of one kevent, up to [Close]'s; whether the loop goes on. *)
Fixpoint round (s : st) (evs : list (kevent * nat)) : M (st * bool) :=
  match evs with
  | [] => Ok (s, true)
  | (kev, sent) :: evs => if User kev then Ok (s, false) else s ← handleEvent s kev sent; round s evs
  end.

(** [newWatcher] once the kqueue is made, and its watcher if it is handed out. *)
Definition fresh (path : bytes) (rec : bool) : watcher := mkKWatcher path rec noReg noReg false false false false false false [].
Definition newWatcher (s : st) (path : bytes) (rec : bool) : M (st * bool) :=
  watchTree (set_w s (fresh path rec)) path true ≫= fun r : st * bool =>
  if r.2 then Ok r else s ← closeAll r.1; Ok (s, false).

(** [Watch]'s start, and its deferred end. *)
Definition Watch_start (s : st) : st * bool :=
  let x := w s in
  if closed x then (s, false) else (set_flags s (closed x) (fdsClosed x) true (degraded x) (chanClosed x) (eventsClosed x), true).
Definition Watch_end (s : st) : M st :=
  s ← closeAll s;
  let s := emit s (mkEvent [] WatchStop) in
  let x := w s in Ok (set_flags s (closed x) (fdsClosed x) (watching x) (degraded x) (chanClosed x) true).

Definition Close (s : st) : M st :=
  let x := w s in
  if closed x then Ok s else
  let s := set_flags s true (fdsClosed x) (watching x) (degraded x) (chanClosed x) (eventsClosed x) in
  if negb (watching x) then
    s ← closeAll s;
    let x := w s in Ok (set_flags s (closed x) (fdsClosed x) (watching x) (degraded x) (chanClosed x) true)
  else if chanClosed x then Panic else
  let x := w s in Ok (set_flags s (closed x) (fdsClosed x) (watching x) (degraded x) true (eventsClosed x)).

(** ** Every operation keeps it *)

Definition good {A} (at_ : A -> st) (k : Z) (s : st) (m : M A) : Prop := exists a, m = Ok a /\ ok k s (at_ a).
Abbreviation good1 := (good (fun s : st => s)).
Abbreviation good2 := (good (fun r : st * bool => r.1)).

Lemma returns_good k s m : returns k s m -> good2 k s m.
Proof. intros (s' & b & -> & H). by exists (s', b). Qed.

Lemma runs_good s m : runs s m -> good1 0 s m.
Proof. intros (s' & -> & H). by exists s'. Qed.

Lemma good_bind {A B} (f : A -> st) (g : B -> st) k s m (c : A -> M B) : 0 <= k -> good f k s m -> (forall a, Inv (f a) -> good g 0 (f a) (c a)) -> good g k s (m ≫= c).
Proof. intros Hk (a & -> & Ha) Hc. destruct (Hc a) as (b & Hb & Hok); [by destruct Ha|]. exists b. split; [done|]. by apply (ok_trans k s (f a)). Qed.

Lemma good_Ok {A} (f : A -> st) k s a : 0 <= k -> Inv s -> same s (f a) -> good f k s (Ok a).
Proof. intros. exists a. split; [done|]. by apply same_ok. Qed.

Lemma good_from {A} (f : A -> st) s s1 m : Inv s -> same s s1 -> (Inv s1 -> good f 0 s1 m) -> good f 0 s m.
Proof. intros Hi Hs Hm. pose proof (same_ok 0 s s1 ltac:(lia) Hi Hs) as Hok. destruct (Hm (proj1 Hok)) as (a & -> & Ha). exists a. split; [done|]. by apply (ok_trans 0 s s1). Qed.

Lemma state_of_good s m : good2 0 s m -> good1 0 s (state_of m).
Proof. intros (r & -> & Hr). by exists r.1. Qed.

Lemma addFile_good s p : Inv s -> good2 0 s (addFile s p).
Proof. intros Hi. by apply returns_good, addFile_ok. Qed.

Lemma addDir_good s p : Inv s -> good2 0 s (addDir s p false).
Proof. intros Hi. by apply returns_good, (addDir_ok s p false). Qed.

Lemma addFiles_good ps : forall s, Inv s -> good1 0 s (addFiles s ps).
Proof.
  induction ps as [|p ps IH]; intros s Hi; cbn [addFiles]; [by apply good_Ok|]. eapply good_bind; [lia|by apply state_of_good, addFile_good|]. intros a Ha. by apply IH.
Qed.

Lemma walk_good visits err : forall s, Inv s -> good2 0 s (walk_loop s visits err).
Proof.
  induction visits as [|[p k] visits IH]; intros s Hi; cbn [walk_loop]; [by apply good_Ok|]. destruct (exhausted (bud s)); [by apply good_Ok|].
  eapply (good_bind (fun r : st * bool => r.1)); [lia| |].
  - destruct k; [by apply addDir_good|by apply addFile_good|by apply good_Ok].
  - intros [s' b] Hs'. cbn [fst snd] in *. destruct b; [by apply IH|by apply good_Ok].
Qed.

Lemma watchTree_good s path (force : bool) : Inv s -> good2 (if force then 1 else 0) s (watchTree s path force).
Proof.
  intros Hi. unfold watchTree. eapply (good_bind (fun r : st * bool => r.1)); [by destruct force|by apply returns_good, addDir_ok|].
  intros [s1 b] H1. cbn [fst snd] in *. destruct b; cbn [negb]; [|by apply good_Ok]. destruct (recursive (w s1)); cbn [negb].
  - destruct (Walk (tick s1) path) as [visits err]. apply (good_from _ _ (ask s1)); [done|done|]. intros Hi2. by apply walk_good.
  - destruct (ReadDir (tick s1) path) as [entries|]; [|by apply good_Ok]. apply (good_from _ _ (ask s1)); [done|done|]. intros Hi2.
    eapply good_bind; [lia|by apply addFiles_good|]. intros a Ha. by apply good_Ok.
Qed.

Lemma tree_state_good s path : Inv s -> good1 0 s (state_of (watchTree s path false)).
Proof. intros Hi. apply state_of_good. by apply (watchTree_good s path false). Qed.

Lemma adjust_good s oldSnap newSnap ev : Inv s -> good1 0 s (adjust s oldSnap newSnap ev).
Proof.
  intros Hi. assert (Hf : good1 0 s (state_of (addFile s (Path ev)))) by (by apply state_of_good, addFile_good). assert (Hs : good1 0 s (Ok s)) by (by apply good_Ok). pose proof (tree_state_good s (Path ev) Hi) as Ht.
  unfold adjust. destruct (Event ev); try done.
  - by destruct (recursive (w s)).
  - destruct (oldSnap !! _) as [e|]; [|done]. destruct (isDir e); [by apply runs_good, removeSubtree_ok|by apply runs_good, removeFileByPath_ok].
  - destruct (oldSnap !! _) as [o|]; [|done]. destruct (newSnap !! _) as [n|]; [|done]. destruct (_ && _); [|done].
    eapply good_bind; [lia|by apply runs_good, removeFileByPath_ok|]. intros a Ha. by apply state_of_good, addFile_good.
  - destruct (oldSnap !! _) as [e|]; [|done]. destruct (isDir e); [by apply runs_good, removeSubtree_ok|by apply runs_good, removeFileByPath_ok].
  - destruct (newSnap !! _) as [e|]; [|done]. destruct (isDir e); [by destruct (recursive (w s))|done].
Qed.

Lemma diff_good oldSnap newSnap evs : forall s sent, Inv s -> good1 0 s (diff_loop s oldSnap newSnap evs sent).
Proof.
  induction evs as [|ev evs IH]; intros s sent Hi; destruct sent as [|sent]; cbn [diff_loop]; try by apply good_Ok.
  apply (good_from _ _ (emit s ev)); [done|done|]. intros Hi2. eapply good_bind; [lia|by apply adjust_good|]. intros a Ha. by apply IH.
Qed.

(** A change to what is remembered of a watch, its path apart. *)
Lemma alter_ok s fd g : (forall d, dPath (g d) = dPath d) -> Inv s -> ok 0 s (set_dirs s (mkReg (alter g fd (byFd (dirs (w s)))) (byPath (dirs (w s))))).
Proof.
  intros Hg [H1 H2 H3 H4 H5 H6]. unfold own in H4. set (r := mkReg _ _). assert (Hd : dom_fd r = dom_fd (dirs (w s))) by (unfold dom_fd, r; cbn; apply dom_alter_L).
  assert (Hs : size_of r = size_of (dirs (w s))) by (unfold size_of; rewrite <- (size_dom (byFd r)), <- (size_dom (byFd (dirs (w s)))); unfold dom_fd in Hd; by rewrite Hd).
  assert (Hr : reg_ok dPath r).
  { intros p f. unfold r. cbn. rewrite (H1 p f). split.
    - intros (a & Ha & Hp). destruct (decide (f = fd)) as [->|Hne]; [exists (g a); rewrite lookup_alter_eq, Ha; split; [done|by rewrite Hg]|exists a; by rewrite lookup_alter_ne].
    - intros (a & Ha & Hp). destruct (decide (f = fd)) as [->|Hne]; [|rewrite lookup_alter_ne in Ha by done; by exists a]. rewrite lookup_alter_eq in Ha. apply fmap_Some in Ha as (b & Hb & ->). exists b. split; [done|]. by rewrite <- Hg. }
  split; [split|split; [split|done]]; unfold own; cbn; rewrite ?Hd, ?Hs; try done; unfold total; lia.
Qed.

Lemma handleEvent_good s kev sent : Inv s -> good1 0 s (handleEvent s kev sent).
Proof.
  intros Hi. unfold handleEvent. destruct (byFd (dirs (w s)) !! Ident kev) as [dir|].
  - destruct (negb (dToken dir =? Udata kev)); [by apply good_Ok|]. unfold handleDirEvent. destruct (noteDelete kev); [by apply runs_good, removeSubtree_ok|]. destruct (negb (noteWrite kev)); [by apply good_Ok|].
    set (g := fun d => mkDir (dPath d) (dToken d) (scanDir (tick s) (dPath dir))). pose proof (alter_ok (ask s) (Ident kev) g (fun _ => eq_refl)) as Ha.
    apply (good_from _ _ (ask s)); [done|done|]. intros Hi2. specialize (Ha Hi2). destruct (diff_good (snap dir) (scanDir (tick s) (dPath dir)) (diffSnapshot names inos (dPath dir) (snap dir) (scanDir (tick s) (dPath dir))) _ sent (proj1 Ha)) as (s' & He & Hok).
    exists s'. split; [exact He|]. by apply (ok_trans 0 _ _ _ ltac:(lia) Ha).
  - destruct (byFd (files (w s)) !! Ident kev) as [file|]; [|by apply good_Ok]. destruct (negb (fToken file =? Udata kev)); [by apply good_Ok|]. unfold handleFileEvent.
    destruct (noteDelete kev); [by apply runs_good, removeFileByPath_ok|]. destruct (negb _); [by apply good_Ok|]. destruct (Lstat (tick s) (fPath file)) as [m|]; [|by apply good_Ok].
    apply (good_from _ _ (ask s)); [done|done|]. intros Hi2. set (s1 := match byPath (dirs (w (ask s))) !! _ with Some _ => _ | None => _ end).
    assert (H1 : ok 0 (ask s) s1) by (unfold s1; destruct (byPath (dirs (w (ask s))) !! _); [by apply (alter_ok (ask s))|by apply same_ok]).
    destruct sent; (eexists; split; [reflexivity|]); [done|]. apply (ok_trans 0 _ s1); [lia|done|]. by apply same_ok; [lia|destruct H1|].
Qed.

Lemma round_good evs : forall s, Inv s -> good2 0 s (round s evs).
Proof.
  induction evs as [|[kev sent] evs IH]; intros s Hi; cbn [round]; [by apply good_Ok|]. destruct (User kev); [by apply good_Ok|].
  eapply (good_bind (fun s : st => s)); [lia|by apply handleEvent_good|]. intros a Ha. by apply IH.
Qed.

(** ** All the watchers of a process *)

Record process := mkProcess { gBud : fdBudget; gFds : gset Z; gTick : nat; watchers : list watcher }.
Definition at_ (g : process) (x : watcher) : st := mkSt (gBud g) (gFds g) (gTick g) x.
Definition back (g : process) (i : nat) (s : st) : process := mkProcess (bud s) (fds s) (tick s) (<[i := w s]> (watchers g)).

(** A new watcher, a call of [Watch], a kevent of its loop, one that fails, a call of
    [Close]. *)
Inductive event := New (path : bytes) (rec : bool) | Start (i : nat) | Kevent (i : nat) (evs : list (kevent * nat)) | Broken (i : nat) | CloseCall (i : nat).

Definition looping (x : watcher) : bool := watching x && negb (fdsClosed x).

Definition step (g : process) (e : event) : option (M process) :=
  match e with
  | New path rec =>
      Some (newWatcher (at_ g (fresh path rec)) path rec ≫= fun r : st * bool =>
            Ok (mkProcess (bud r.1) (fds r.1) (tick r.1) (if r.2 then watchers g ++ [w r.1] else watchers g)))
  | Start i => match watchers g !! i with Some x => if watching x then None else Some (Ok (back g i (Watch_start (at_ g x)).1)) | None => None end
  | Kevent i evs =>
      match watchers g !! i with
      | Some x => if looping x then Some (round (at_ g x) evs ≫= fun r : st * bool => if r.2 then Ok (back g i r.1) else s ← Watch_end r.1; Ok (back g i s)) else None
      | None => None
      end
  | Broken i => match watchers g !! i with Some x => if looping x then Some (s ← Watch_end (at_ g x); Ok (back g i s)) else None | None => None end
  | CloseCall i => match watchers g !! i with Some x => Some (s ← Close (at_ g x); Ok (back g i s)) | None => None end
  end.

Inductive reachable (rlimit : option Z) : process -> Prop :=
  | reach_start : reachable rlimit (mkProcess (newFDBudget rlimit) ∅ 0 [])
  | reach_step g e g' : reachable rlimit g -> step g e = Some (Ok g') -> reachable rlimit g'.

Definition own_w (x : watcher) : gset Z := dom_fd (dirs x) ∪ dom_fd (files x).
(** Whether a watcher holds a watch. *)
Definition busy (x : watcher) : Z := if bool_decide (own_w x = ∅) then 0 else 1.

Record watcher_ok (x : watcher) : Prop := {
  wk_dirs : reg_ok dPath (dirs x); wk_files : reg_ok fPath (files x); wk_apart : dom_fd (dirs x) ## dom_fd (files x);
  wk_gone : fdsClosed x = true -> own_w x = ∅; wk_chan : chanClosed x = true -> closed x = true }.

(** [cap] is the limit the budget was made with. *)
Section Global.
Context (cap : Z).

Record GInv (g : process) : Prop := {
  g_each : forall i x, watchers g !! i = Some x -> watcher_ok x;
  g_fds : forall fd, fd ∈ gFds g <-> exists i x, watchers g !! i = Some x /\ fd ∈ own_w x;
  g_apart : forall i j x y fd, watchers g !! i = Some x -> watchers g !! j = Some y -> fd ∈ own_w x -> fd ∈ own_w y -> i = j;
  g_nd : nDirs (gBud g) = sumZ (fun x => size_of (dirs x)) (watchers g);
  g_nf : nFiles (gBud g) = sumZ (fun x => size_of (files x)) (watchers g);
  g_total : total (gBud g) <= limit (gBud g) + sumZ busy (watchers g);
  g_files : nFiles (gBud g) <= limit (gBud g) / 2;
  g_limit : limit (gBud g) = cap }.

Lemma size_nonneg {A} (r : registry A) : 0 <= size_of r.
Proof. unfold size_of. lia. Qed.

Lemma busy_range x : 0 <= busy x <= 1.
Proof. unfold busy. case_bool_decide; lia. Qed.

Lemma busy_sizes x : (busy x = 0 -> size_of (dirs x) = 0 /\ size_of (files x) = 0) /\ (busy x = 1 -> 1 <= size_of (dirs x) + size_of (files x)).
Proof.
  unfold busy, own_w, size_of, dom_fd. rewrite <- (size_dom (byFd (dirs x))), <- (size_dom (byFd (files x))). case_bool_decide as Hb; (split; [|done || intros _]); try done.
  - intros _. apply empty_union_L in Hb as [-> ->]. by rewrite !size_empty.
  - destruct (decide (size (dom (byFd (dirs x))) = 0%nat)) as [Hd%size_empty_inv|]; [|lia]. destruct (decide (size (dom (byFd (files x))) = 0%nat)) as [Hf%size_empty_inv|]; [|lia].
    exfalso. apply Hb. apply leibniz_equiv. set_solver.
Qed.

Lemma at_Inv g i x : GInv g -> watchers g !! i = Some x -> Inv (at_ g x).
Proof.
  intros [H1 H2 H3 H4 H5 H6 H7 H8] Hx. destruct (H1 i x Hx) as [W1 W2 W3 _ _]. split; try done; cbn.
  - intros fd Hfd. apply H2. by exists i, x.
  - rewrite H4. apply (sumZ_lookup_le (fun x => size_of (dirs x)) _ i x); [intros; apply size_nonneg|done].
  - rewrite H5. apply (sumZ_lookup_le (fun x => size_of (files x)) _ i x); [intros; apply size_nonneg|done].
Qed.

Lemma back_GInv g i x k s : GInv g -> watchers g !! i = Some x -> 0 <= k -> k + busy x <= 1 \/ k = 0 ->
  Inv s -> frame k (at_ g x) s -> (fdsClosed (w s) = true -> own s = ∅) -> (chanClosed (w s) = true -> closed (w s) = true) -> GInv (back g i s).
Proof.
  intros [H1 H2 H3 H4 H5 H6 H7 H8] Hx Hk Hkb [I1 I2 I3 I4 I5 I6] [F1 F2 F3 F4 F5 F6] Hgone Hchan. cbn in F1, F2, F3, F4, F5, F6. change (own (at_ g x)) with (own_w x) in F1. change (own s) with (own_w (w s)) in *.
  assert (Hlook : forall j y, <[i := w s]> (watchers g) !! j = Some y -> (j = i /\ y = w s) \/ (j <> i /\ watchers g !! j = Some y)).
  { intros j y. destruct (decide (j = i)) as [->|Hne]; [rewrite list_lookup_insert_eq by (by eapply lookup_lt_Some); intros [= <-]; by left|rewrite list_lookup_insert_ne by done; by right]. }
  assert (Hother : forall fd, fd ∈ fds s /\ fd ∉ own_w (w s) <-> fd ∈ gFds g /\ fd ∉ own_w x) by (intros fd; rewrite <- !elem_of_difference, F1; done).
  assert (Happ : forall j y fd, j <> i -> watchers g !! j = Some y -> fd ∈ own_w y -> fd ∈ fds s /\ fd ∉ own_w (w s)).
  { intros j y fd Hne Hy Hfd. apply Hother. split; [apply H2; by exists j, y|]. intros Hin. apply Hne. by apply (H3 j i y x fd). }
  split; cbn [watchers back gFds gBud].
  - intros j y [[-> ->]|[_ Hy]]%Hlook; [by split|by apply (H1 j)].
  - intros fd. split.
    + intros Hfd. destruct (decide (fd ∈ own_w (w s))) as [Hin|Hn].
      * exists i, (w s). rewrite list_lookup_insert_eq by (by eapply lookup_lt_Some). done.
      * destruct (proj1 (Hother fd) (conj Hfd Hn)) as [Hg Hnx]. apply H2 in Hg as (j & y & Hy & Hin). exists j, y. split; [|done]. rewrite list_lookup_insert_ne; [done|]. intros <-. rewrite Hx in Hy. injection Hy as <-. done.
    + intros (j & y & [[-> ->]|[Hne Hy]]%Hlook & Hin); [by apply I4|by apply (Happ j y)].
  - intros j1 j2 y1 y2 fd [[-> ->]|[Hn1 Hy1]]%Hlook [[-> ->]|[Hn2 Hy2]]%Hlook Hi1 Hi2; [done| | |by apply (H3 j1 j2 y1 y2 fd)].
    + by destruct (Happ j2 y2 fd Hn2 Hy2 Hi2).
    + by destruct (Happ j1 y1 fd Hn1 Hy1 Hi1).
  - rewrite (sumZ_insert _ _ _ _ _ Hx). lia.
  - rewrite (sumZ_insert _ _ _ _ _ Hx). lia.
  - rewrite (sumZ_insert _ _ _ _ _ Hx), F4. assert (Hs : 0 <= sumZ busy (watchers g)) by (apply sumZ_nonneg; intros; apply busy_range).
    assert (Hge : busy x <= sumZ busy (watchers g)) by (apply (sumZ_lookup_le busy _ i x); [intros; apply busy_range|done]).
    pose proof (busy_range x). pose proof (busy_range (w s)). destruct (busy_sizes x) as [B1 B2]. destruct (busy_sizes (w s)) as [B3 B4]. unfold total in *.
    pose proof (size_nonneg (dirs x)). pose proof (size_nonneg (files x)).
    assert (Hb' : busy (w s) = 0 \/ busy (w s) = 1) by lia. assert (Hb : busy x = 0 \/ busy x = 1) by lia.
    destruct Hb' as [Hb'|Hb'], Hb as [Hb|Hb]; [pose proof (B1 Hb); pose proof (B3 Hb')|pose proof (B2 Hb); pose proof (B3 Hb')| |]; lia.
  - rewrite F4. lia.
  - by rewrite F4.
Qed.
Definition with_watchers (g : process) (l : list watcher) : process := mkProcess (gBud g) (gFds g) (gTick g) l.

(** A watcher that holds nothing may come or go. *)
Lemma idle_counts x : own_w x = ∅ -> busy x = 0 /\ size_of (dirs x) = 0 /\ size_of (files x) = 0.
Proof. intros Ho. assert (Hb : busy x = 0) by (unfold busy; by rewrite Ho). split; [done|]. by apply busy_sizes. Qed.

Lemma push_GInv g x : GInv g -> watcher_ok x -> own_w x = ∅ -> GInv (with_watchers g (watchers g ++ [x])).
Proof.
  intros [H1 H2 H3 H4 H5 H6 H7 H8] Hx Ho. destruct (idle_counts x Ho) as (B & S1 & S2).
  split; cbn; rewrite ?sumZ_last; try lia.
  - intros i y [Hy|[_ ->]]%lookup_last; [by apply (H1 i)|done].
  - intros fd. rewrite H2. split; intros (i & y & Hy & Hin); [exists i, y; split; [apply lookup_last; by left|done]|].
    apply lookup_last in Hy as [Hy|[_ ->]]; [by exists i, y|by rewrite Ho in Hin].
  - intros i j y z fd [Hy|[_ ->]]%lookup_last [Hz|[_ ->]]%lookup_last Hi Hj; [by apply (H3 i j y z fd)| | |]; by rewrite Ho in *.
Qed.

Lemma drop_GInv g l x : watchers g = l ++ [x] -> GInv g -> own_w x = ∅ -> GInv (with_watchers g l).
Proof.
  intros Hl [H1 H2 H3 H4 H5 H6 H7 H8] Ho. destruct (idle_counts x Ho) as (B & S1 & S2). rewrite Hl in *. rewrite sumZ_last in H4, H5, H6.
  assert (Hin : forall i y, l !! i = Some y -> (l ++ [x]) !! i = Some y) by (intros i y Hy; apply lookup_last; by left).
  split; cbn; try lia.
  - intros i y Hy. by apply (H1 i), Hin.
  - intros fd. rewrite H2. split; intros (i & y & Hy & Hfd); [|exists i, y; split; [by apply Hin|done]].
    apply lookup_last in Hy as [Hy|[_ ->]]; [by exists i, y|by rewrite Ho in Hfd].
  - intros i j y z fd Hy Hz. apply (H3 i j y z fd); by apply Hin.
Qed.

Lemma stage_split x cl fc wa cc : stage x = (cl, fc, wa, cc) -> closed x = cl /\ fdsClosed x = fc /\ watching x = wa /\ chanClosed x = cc.
Proof. unfold stage. by intros [= -> -> -> ->]. Qed.

(** An operation on a live watcher. *)
Lemma ok_GInv g i x k s : GInv g -> watchers g !! i = Some x -> 0 <= k -> k + busy x <= 1 \/ k = 0 -> fdsClosed x = false -> ok k (at_ g x) s -> GInv (back g i s).
Proof.
  intros Hg Hx Hk Hb Hf (Hi & Hfr & Hst). apply stage_split in Hst as (S1 & S2 & S3 & S4). cbn in *. apply (back_GInv g i x k s); try done; [congruence|].
  rewrite S4, S1. apply (wk_chan x). by apply (g_each g Hg i).
Qed.

(** The end of a watcher: [closeAll], from any state it can be in. *)
Lemma closeAll_empty s : Inv s -> (fdsClosed (w s) = true -> own s = ∅) ->
  exists s', closeAll s = Ok s' /\ Inv s' /\ frame 0 s s' /\ own s' = ∅ /\ closed (w s') = closed (w s) /\ chanClosed (w s') = chanClosed (w s).
Proof.
  intros Hi Hg. destruct (closeAll_ok s Hi) as (s' & He & Hi' & Hfr & Hst & Ho). apply stage_split in Hst as (S1 & S2 & S3 & S4). exists s'. split_and!; try done.
  destruct (fdsClosed (w s)) eqn:Hc; [|by apply Ho]. unfold closeAll in He. rewrite Hc in He. injection He as <-. by apply Hg.
Qed.

Lemma gone_GInv g i x s s' : GInv g -> watchers g !! i = Some x -> Inv s -> frame 0 (at_ g x) s -> own s = ∅ -> (chanClosed (w s) = true -> closed (w s) = true) ->
  same s s' -> GInv (back g i s').
Proof.
  intros Hg Hx Hi Hfr Ho Hc Hs. destruct (same_ok 0 s s' ltac:(lia) Hi Hs) as (Hi' & Hfr' & Hst). destruct Hs as (_ & _ & Hd & Hf & _). apply stage_split in Hst as (S1 & S2 & S3 & S4).
  apply (back_GInv g i x 0 s'); try done; [by right|by apply (frame_trans 0 _ s)|intros _; unfold own in *; by rewrite Hd, Hf|]. rewrite S4, S1. done.
Qed.

(** The step that ends the loop. *)
Abbreviation arrives m := (exists g', m = Ok g' /\ GInv g').

Lemma Watch_end_GInv g i x s : GInv g -> watchers g !! i = Some x -> fdsClosed x = false -> ok 0 (at_ g x) s -> arrives (s ← Watch_end s; Ok (back g i s)).
Proof.
  intros Hg Hx Hf (Hi & Hfr & Hst). apply stage_split in Hst as (S1 & S2 & S3 & S4). cbn in S1, S2, S4. destruct (closeAll_empty s Hi ltac:(congruence)) as (s' & He & Hi' & Hfr' & Ho & C1 & C2).
  unfold Watch_end. rewrite He. cbn [mbind outcome_bind]. eexists. split; [done|]. apply (gone_GInv g i x s'); try done; [by apply (frame_trans 0 _ s)|]. rewrite C1, C2, S1, S4. apply (wk_chan x). by apply (g_each g Hg i).
Qed.

Lemma round_GInv g i x evs : GInv g -> watchers g !! i = Some x -> looping x = true ->
  arrives (round (at_ g x) evs ≫= fun r : st * bool => if r.2 then Ok (back g i r.1) else s ← Watch_end r.1; Ok (back g i s)).
Proof.
  intros Hg Hx [_ Hf%negb_true_iff]%andb_true_iff. destruct (round_good evs (at_ g x) (at_Inv g i x Hg Hx)) as ([s b] & -> & Hok). cbn [mbind outcome_bind fst snd] in *.
  destruct b; [|by apply (Watch_end_GInv g i x)]. eexists. split; [done|]. by apply (ok_GInv g i x 0); [| |lia|right| |].
Qed.

Lemma flags_GInv g i x cl fc wa de cc ec : GInv g -> watchers g !! i = Some x -> fc = fdsClosed x -> (cc = true -> cl = true) -> GInv (back g i (set_flags (at_ g x) cl fc wa de cc ec)).
Proof.
  intros Hg Hx -> Hc. pose proof (at_Inv g i x Hg Hx) as Hi. destruct (same_ok 0 _ _ ltac:(lia) Hi (conj eq_refl (conj eq_refl (conj eq_refl (conj eq_refl eq_refl))))) as (_ & Hfr & _).
  apply (back_GInv g i x 0); try done; [by right|by destruct Hi| |by apply (wk_gone x), (g_each g Hg i)]. by destruct Hfr.
Qed.

Lemma Close_GInv g i x : GInv g -> watchers g !! i = Some x -> arrives (s ← Close (at_ g x); Ok (back g i s)).
Proof.
  intros Hg Hx. pose proof (at_Inv g i x Hg Hx) as Hi. pose proof (g_each g Hg i x Hx) as Hw. unfold Close. cbn [w at_]. destruct (closed x) eqn:Hcl.
  { eexists. split; [done|]. pose proof (flags_GInv g i x (closed x) _ (watching x) (degraded x) (chanClosed x) (eventsClosed x) Hg Hx eq_refl (wk_chan x Hw)) as H. by destruct x. }
  assert (Hcc : chanClosed x = false) by (apply not_true_is_false; intros Hc%(wk_chan x Hw); congruence). destruct (watching x) eqn:Hwa; cbn [negb].
  { rewrite Hcc. eexists. split; [done|]. by apply (flags_GInv g i x true (fdsClosed x) true (degraded x) true (eventsClosed x)). }
  set (s := set_flags (at_ g x) _ _ _ _ _ _). assert (His : Inv s) by (by destruct Hi). destruct (closeAll_empty s His (wk_gone x Hw)) as (s' & He & Hi' & Hfr & Ho & C1 & C2).
  rewrite He. cbn [mbind outcome_bind]. eexists. split; [done|]. apply (gone_GInv g i x s'); try done; [by destruct Hfr].
Qed.
Lemma fresh_ok path rec : watcher_ok (fresh path rec) /\ own_w (fresh path rec) = ∅.
Proof.
  assert (Hn : forall A (f : A -> bytes), reg_ok f noReg) by (intros A f; by apply (without_all f noReg)).
  assert (Hd : forall A, dom_fd (@noReg A) = ∅) by (intros A; unfold dom_fd, noReg; cbn; apply dom_empty_L).
  split; [split; try done; try apply Hn|unfold own_w]. cbn. rewrite !Hd. apply union_empty_l_L.
Qed.

(** A watcher handed out has taken the place of the one pushed; a failed one leaves
    nothing. *)
Lemma New_GInv g path rec : GInv g ->
  arrives (newWatcher (at_ g (fresh path rec)) path rec ≫= fun r : st * bool =>
           Ok (mkProcess (bud r.1) (fds r.1) (tick r.1) (if r.2 then watchers g ++ [w r.1] else watchers g))).
Proof.
  intros Hg. destruct (fresh_ok path rec) as [Hok Ho]. set (x := fresh path rec) in *. set (g1 := with_watchers g (watchers g ++ [x])). pose proof (push_GInv g x Hg Hok Ho) as Hg1. fold g1 in Hg1.
  assert (Hx : watchers g1 !! length (watchers g) = Some x) by (apply lookup_last; by right). pose proof (at_Inv g1 _ x Hg1 Hx) as Hi.
  assert (Hput : forall y, <[length (watchers g) := y]> (watchers g ++ [x]) = watchers g ++ [y]) by (intros y; by rewrite insert_app_r_alt, Nat.sub_diag by lia).
  unfold newWatcher. fold x. change (set_w (at_ g x) x) with (at_ g1 x). destruct (watchTree_good (at_ g1 x) path true Hi) as ([s b] & -> & Hs). cbn [mbind outcome_bind fst snd] in *. destruct b.
  - eexists. split; [done|]. cbn [fst snd]. rewrite <- Hput. apply (ok_GInv g1 _ x 1 s); try done. left. destruct (idle_counts x Ho) as (-> & _). lia.
  - destruct Hs as (Hi1 & Hfr & Hst). apply stage_split in Hst as (S1 & S2 & S3 & S4). cbn in S1, S2, S4. destruct (closeAll_empty s Hi1 ltac:(congruence)) as (s' & -> & Hi2 & Hfr2 & Ho2 & C1 & C2).
    cbn [mbind outcome_bind fst snd]. eexists. split; [done|]. change (mkProcess _ _ _ _) with (with_watchers (back g1 (length (watchers g)) s') (watchers g)).
    apply (drop_GInv _ _ (w s')); [apply Hput| |done]. apply (back_GInv g1 _ x 1 s'); try done; [left; destruct (idle_counts x Ho) as (-> & _); lia|by apply (frame_trans 1 _ s)|]. rewrite C2, S4. done.
Qed.

Lemma step_GInv g e m : GInv g -> step g e = Some m -> arrives m.
Proof.
  intros Hg. destruct e as [path rec|i|i evs|i|i]; cbn [step]; [intros [= <-]; by apply New_GInv|..]; destruct (watchers g !! i) as [x|] eqn:Hx; try done.
  - destruct (watching x) eqn:Hw; [done|]. intros [= <-]. eexists. split; [done|]. unfold Watch_start. cbn [w at_].
    pose proof (fun b => flags_GInv g i x (closed x) _ b (degraded x) (chanClosed x) (eventsClosed x) Hg Hx eq_refl (wk_chan x (g_each g Hg i x Hx))) as H.
    assert (H0 : GInv (back g i (at_ g x))) by (pose proof (H (watching x)) as H1; by destruct x). specialize (H true). clear Hx. destruct (closed x); cbn [fst]; [done|apply H].
  - destruct (looping x) eqn:Hl; [|done]. intros [= <-]. by apply (round_GInv g i x evs).
  - destruct (looping x) eqn:Hl; [|done]. intros [= <-]. apply andb_true_iff in Hl as [_ Hf%negb_true_iff]. apply (Watch_end_GInv g i x); try done. apply same_ok; [lia|by apply (at_Inv g i x)|done].
  - intros [= <-]. by apply (Close_GInv g i x).
Qed.

Lemma newFDBudget_limit rlimit : minWatchFDs <= limit (newFDBudget rlimit) <= maxWatchFDs.
Proof.
  unfold newFDBudget, minWatchFDs, maxWatchFDs. cbn [limit]. set (l := match rlimit with Some _ => _ | None => _ end).
  assert (l <= 512) by (unfold l; destruct rlimit as [cur|]; repeat case_match; lia). destruct (Z.ltb_spec l 32); lia.
Qed.

Lemma start_GInv rlimit : cap = limit (newFDBudget rlimit) -> GInv (mkProcess (newFDBudget rlimit) ∅ 0 []).
Proof.
  intros ->. pose proof (newFDBudget_limit rlimit) as Hl. unfold minWatchFDs in Hl. split; cbn [watchers gFds gBud]; try done; [|unfold total|]; cbn [sumZ foldr nDirs nFiles newFDBudget]; try lia.
  - intros fd. split; [set_solver|]. by intros (i & x & Hx & _).
  - change (sumZ busy []) with 0. lia.
  - apply Z.div_pos; lia.
Qed.

Lemma reachable_GInv rlimit g : cap = limit (newFDBudget rlimit) -> reachable rlimit g -> GInv g.
Proof. intros Hl. induction 1 as [|g e g' Hr IH Hs]; [by apply start_GInv|]. by destruct (step_GInv g e _ IH Hs) as (g2 & [= <-] & Hg). Qed.
End Global.

(** C33: kqueue watches open descriptors, so the watchers of a process, made, started,
    woken and closed in any order, must neither leak nor share nor double-close one.
    Whatever the kernel and the file system answer: no step closes a descriptor that
    is not an open watch, or closes a channel twice; the descriptors open for
    watches are those the watchers hold, each in one watcher; the two maps of each
    registry name the same watches; the budget counts them all, so it is handed
    back in full; a watcher torn down, or one whose making failed, holds nothing;
    file watches take at most half of the limit, and all of them go over it by one
    for each watcher that holds a watch at most (its root). *)
Theorem watches_accounted rlimit g : reachable rlimit g ->
  (forall e m, step g e = Some m -> exists g', m = Ok g') /\
  (forall fd, fd ∈ gFds g <-> exists i x, watchers g !! i = Some x /\ fd ∈ own_w x) /\
  (forall i j x y fd, watchers g !! i = Some x -> watchers g !! j = Some y -> fd ∈ own_w x -> fd ∈ own_w y -> i = j) /\
  (forall i x, watchers g !! i = Some x -> reg_ok dPath (dirs x) /\ reg_ok fPath (files x) /\ dom_fd (dirs x) ## dom_fd (files x) /\ (fdsClosed x = true -> own_w x = ∅)) /\
  nDirs (gBud g) = sumZ (fun x => size_of (dirs x)) (watchers g) /\ nFiles (gBud g) = sumZ (fun x => size_of (files x)) (watchers g) /\
  nFiles (gBud g) <= limit (gBud g) / 2 /\ total (gBud g) <= limit (gBud g) + sumZ busy (watchers g) /\ minWatchFDs <= limit (gBud g) <= maxWatchFDs.
Proof.
  intros Hr. pose proof (reachable_GInv (limit (newFDBudget rlimit)) rlimit g eq_refl Hr) as Hg. pose proof (newFDBudget_limit rlimit) as Hl.
  split_and!; try apply Hg; [|intros i x Hx|rewrite (g_limit _ g Hg); lia..].
  - intros e m Hs. destruct (step_GInv _ g e m Hg Hs) as (g' & -> & _). by exists g'.
  - destruct (g_each _ g Hg i x Hx). done.
Qed.
End Env.
(** ** At a concrete run *)

(** A tree watched, an event with a rename, a write and a new folder in it, a second
    watcher that is closed before it starts. *)
Definition open_ex (n : nat) (path : bytes) (used : gset Z) : option Z := if bool_decide (Z.of_nat n ∈ used) then None else Some (Z.of_nat n).
Definition list_ex (n : nat) (path : bytes) : option (list (bytes * kind)) :=
  if bool_decide (path = nm "/d") then Some (map (fun p : bytes * dirEntry => (p.1, if isDir p.2 then Directory else Regular)) (map_to_list (if (n <? 10)%nat then before_ex else after_ex)))
  else if bool_decide (path = nm "/e") then Some [(nm "x", Regular); (nm "l", Other)] else None.
Definition stat_ex (n : nat) (path : bytes) : option dirEntry :=
  if bool_decide (path = nm "/e/x") then Some (mkEntry 5 1 false) else (if (n <? 10)%nat then before_ex else after_ex) !! after_last_slash path.
Definition walk_ex (n : nat) (path : bytes) : list (bytes * kind) * bool := (if bool_decide (path = nm "/d") then [(nm "/d/a", Regular); (nm "/d/b", Regular)] else [], false).
Definition step_ex : process -> event -> option (M process) := step open_ex (fun _ => true) list_ex stat_ex walk_ex visit_names visit_inos.
Definition run_ex (es : list event) : option process :=
  foldl (fun g e => g ← g; match step_ex g e with Some (Ok g) => Some g | _ => None end) (Some (mkProcess (newFDBudget (Some 256)) ∅ 0 [])) es.

Definition busy_run : list event := [New (nm "/d") true; Start 0; Kevent 0 [(mkKevent 0 false 1 false true false, 9%nat)]; New (nm "/e") false].
Definition idle_run : list event := busy_run ++ [CloseCall 1; CloseCall 0; Kevent 0 [(mkKevent 1 true 0 false false false, 0%nat)]].

Lemma open_ex_fresh n path used fd : open_ex n path used = Some fd -> fd ∉ used.
Proof. unfold open_ex. case_bool_decide; [done|]. by intros [= <-]. Qed.

Lemma run_ex_reachable es g : run_ex es = Some g -> reachable open_ex (fun _ => true) list_ex stat_ex walk_ex visit_names visit_inos (Some 256) g.
Proof.
  revert g. induction es as [|e es IH] using rev_ind; intros g; [intros [= <-]; constructor|]. unfold run_ex. rewrite foldl_app. cbn [foldl]. intros (g1 & H1 & Hs)%bind_Some.
  destruct (step_ex g1 e) as [[g2|?|]|] eqn:He; try done. injection Hs as ->. by apply (reach_step _ _ _ _ _ _ _ _ g1 e); [apply IH|].
Qed.

Theorem watches_accounted_witness :
  (fun g => (elements (gFds g), nDirs (gBud g), nFiles (gBud g), map (fun x => elements (own_w x)) (watchers g))) <$> run_ex busy_run = Some ([11; 7; 22; 14; 18; 0], 3, 3, [[11; 7; 14; 0]; [22; 18]]) /\
  (exists g, run_ex idle_run = Some g /\ map fdsClosed (watchers g) = [true; true] /\
     forall fd, fd ∈ gFds g <-> exists i x, watchers g !! i = Some x /\ fd ∈ own_w x).
Proof.
  split; [vm_compute; reflexivity|].
  destruct (run_ex idle_run) as [g|] eqn:Hg; [|by vm_compute in Hg].
  exists g. split; [done|]. split; [by vm_compute in Hg; injection Hg as <-|].
  apply (watches_accounted _ _ _ _ open_ex_fresh _ _ _ _ g (run_ex_reachable _ _ Hg)).
Defined.
(** One entry of a tree that cannot be opened refuses the watch of all of it; below a
    watcher that is not recursive it is passed over. *)
Example unreadable_entry_refuses_tree :
  let open n path used := if bool_decide (path = nm "/d/b") then None else open_ex n path used in
  let new rec := step open (fun _ => true) list_ex stat_ex walk_ex visit_names visit_inos (mkProcess (newFDBudget (Some 256)) ∅ 0 []) (New (nm "/d") rec) in
  let held m := match m with Some (Ok g) => Some (map (fun x => elements (own_w x)) (watchers g)) | _ => None end in
  held (new true) = Some [] /\ held (new false) = Some [[5; 0]].
Proof. by vm_compute. Qed.
End Kqueue.
