(* ===== verification/Command.v ===== *)
(** The command, [cmd/gosamba/main.go], and its logger, [internal/logging].

    From the arguments and the configuration file to what is served, and the [hash]
    subcommand.  The parsing, merging and validation are [Config]'s; the clock, the
    file system and the accounts are arguments, as there. *)

From S2P Require Import Prelude Utf Config Worker.
Import Config.

Module Command.

(** ** The logger *)

(** [logging.New]: whether the level and the format are known. *)
Definition New (level format : bytes) : bool :=
  bool_decide (level ∈ [lit "debug"; lit "info"; lit "warn"; lit "error"]) && bool_decide (format ∈ [lit "text"; lit "json"]).

(** ** [gosamba hash] *)

Definition newline : Byte.byte := z2b 10.

(** [ReadString('\n')] and the test of its error: [content] is what the reader
    yields, [fails] whether it then ends in an error other than the end of file. *)
Definition read_line (content : bytes) (fails : bool) : option bytes :=
  match Cut content newline with
  | Some (l, _) => Some (l ++ [newline])
  | None => if fails then None else Some content
  end.

Fixpoint skip_eol (s : bytes) : bytes :=
  match s with c :: rest => if bool_decide (c = newline) || bool_decide (c = z2b 13) then skip_eol rest else s | [] => [] end.
(** [strings.TrimRight(line, "\r\n")] *)
Definition trim_eol (s : bytes) : bytes := rev (skip_eol (rev s)).

(** [hex.EncodeToString] *)
Definition hex_char (v : Z) : Byte.byte := z2b (if v <? 10 then 0x30 + v else 0x61 + v - 10).
Definition hex_encode (s : bytes) : bytes := concat (map (fun c => [hex_char (Z.shiftr (b2z c) 4); hex_char (Z.land (b2z c) 15)]) s).

Inductive hashErr := ReadFailed | EmptyPassword.

Section Hash.
Context (MD4 : bytes -> bytes).

(** [userdb.NTHash] *)
Definition NTHash (password : bytes) : bytes := MD4 (Names.utf16leDomain password).

Definition nthashFromReader (content : bytes) (fails : bool) : outcome hashErr bytes :=
  match read_line content fails with
  | None => Err ReadFailed
  | Some line =>
      let pw := trim_eol line in
      if bool_decide (pw = []) then Err EmptyPassword else Ok (hex_encode (NTHash pw))
  end.

(** What [runHash] writes on its output. *)
Definition runHash (content : bytes) (fails : bool) : outcome hashErr bytes :=
  h ← nthashFromReader content fails; Ok (h ++ [newline]).

Lemma hex_char_digit v : 0 <= v < 16 -> hex_digit (hex_char v) = Some v.
Proof.
  intros Hv. assert (H : forallb (fun v => bool_decide (hex_digit (hex_char v) = Some v)) (seqZ 0 16) = true) by (vm_compute; reflexivity).
  rewrite forallb_forall in H. specialize (H v). rewrite bool_decide_eq_true in H. apply H. apply list_elem_of_In, elem_of_seqZ. lia.
Qed.

Lemma nibbles c : z2b (Z.lor (Z.shiftl (Z.shiftr (b2z c) 4) 4) (Z.land (b2z c) 15)) = c.
Proof. by destruct c; vm_compute. Qed.

Lemma hex_roundtrip s : hex_decode (hex_encode s) = Some s.
Proof.
  induction s as [|c s IH]; [done|]. unfold hex_encode in *. cbn [map concat app hex_decode]. pose proof (byte.unsigned_range c) as Hc.
  assert (H1 : 0 <= Z.shiftr (b2z c) 4 < 16) by (rewrite Z.shiftr_div_pow2 by lia; change (2 ^ 4) with 16; split; [apply Z.div_pos; lia|apply Z.div_lt_upper_bound; lia]).
  assert (H2 : 0 <= Z.land (b2z c) 15 < 16) by (change 15 with (Z.ones 4); rewrite Z.land_ones by lia; apply Z.mod_pos_bound; lia).
  rewrite !hex_char_digit by done. by rewrite IH, nibbles.
Qed.

Lemma hex_encode_nil s : hex_encode s = [] -> s = [].
Proof. by destruct s. Qed.

Lemma Cut_line a c rest : c ∉ a -> Cut (a ++ c :: rest) c = Some (a, rest).
Proof.
  induction a as [|d a IH]; cbn [app Cut]; [by rewrite bool_decide_eq_true_2|]. intros [Hd Ha]%not_elem_of_cons. rewrite bool_decide_eq_false_2 by done. by rewrite IH.
Qed.

Lemma Cut_absent a c : c ∉ a -> Cut a c = None.
Proof. induction a as [|d a IH]; cbn [Cut]; [done|]. intros [Hd Ha]%not_elem_of_cons. rewrite bool_decide_eq_false_2 by done. by rewrite IH. Qed.

Lemma skip_eol_keep s c rest : s = c :: rest -> c <> newline -> c <> z2b 13 -> skip_eol s = s.
Proof. intros -> Hn Hr. cbn [skip_eol]. by rewrite !bool_decide_eq_false_2. Qed.

Lemma trim_eol_line pw (eol : bytes) : Forall (fun c => c = newline \/ c = z2b 13) eol -> newline ∉ pw -> z2b 13 ∉ pw -> trim_eol (pw ++ eol) = pw.
Proof.
  intros He Hn Hr. unfold trim_eol. rewrite rev_app_distr. assert (Hs : skip_eol (rev eol ++ rev pw) = rev pw); [|by rewrite Hs, rev_involutive].
  assert (He' : Forall (fun c => c = newline \/ c = z2b 13) (rev eol)) by (rewrite rev_alt, <- rev_alt; by apply Forall_rev).
  induction (rev eol) as [|c l IH]; cbn [app].
  - destruct (rev pw) as [|c l] eqn:Hp; [done|]. assert (c ∈ pw) by (apply list_elem_of_In, in_rev; rewrite Hp; by left). apply (skip_eol_keep _ c l); [done|congruence..].
  - apply Forall_cons in He' as [Hc He']. cbn [skip_eol]. destruct Hc as [->| ->]; [rewrite bool_decide_eq_true_2 by done|rewrite (bool_decide_eq_true_2 (z2b 13 = z2b 13)) by done; rewrite orb_true_r]; by apply IH.
Qed.

(** A line that ends in a line feed, a carriage return and a line feed, or in the
    end of the input. *)
Inductive line_end : bytes -> Prop := eol_none : line_end [] | eol_lf rest : line_end (newline :: rest) | eol_crlf rest : line_end (z2b 13 :: newline :: rest).

(** A hash the command prints is the credential of its password: given a
    password on a line of its own, whatever ends the line and follows it, what
    [gosamba hash] prints is accepted as a user's [nt_hash] and decodes to the very
    hash the server computes for that password given with [-u]; so the account is
    the same whichever way it is configured. *)
Theorem hash_is_credential (pw rest su : bytes) (u : FileUser) (us : list FileUser) :
  (forall m, len (MD4 m) = 16) -> pw <> [] -> newline ∉ pw -> z2b 13 ∉ pw -> line_end rest ->
  exists h, nthashFromReader (pw ++ rest) false = Ok h /\ (fuNTHashHex u = h ->
    decode_hashes (u :: us) = (r ← decode_hashes us; Ok (mkFUser (fuName u) (Config.NTHash (merge_cli_user MD4 (mkCUser (fuName u) pw su))) h (fuSystemUser u) (fuAllowShares u) :: r))).
Proof.
  intros Hmd Hne Hn Hr Heol. exists (hex_encode (NTHash pw)). split.
  - assert (Hl : exists e, read_line (pw ++ rest) false = Some (pw ++ e) /\ Forall (fun c => c = newline \/ c = z2b 13) e).
    { unfold read_line. destruct Heol as [|r|r].
      - rewrite Cut_absent by (by rewrite app_nil_r). by exists [].
      - rewrite Cut_line by done. exists [newline]. split; [done|]. apply Forall_singleton. by left.
      - change (z2b 13 :: newline :: r) with ([z2b 13] ++ newline :: r). rewrite (app_assoc pw), (Cut_line (pw ++ [z2b 13])) by (by rewrite elem_of_app, list_elem_of_singleton; intros [?|?]).
        exists [z2b 13; newline]. rewrite <- app_assoc. split; [done|]. apply Forall_cons. split; [by right|]. apply Forall_singleton. by left. }
    destruct Hl as (e & Hl & He). unfold nthashFromReader. rewrite Hl, trim_eol_line by done. by rewrite bool_decide_eq_false_2.
  - intros Hu. cbn [decode_hashes]. rewrite Hu. rewrite bool_decide_eq_false_2; [|intros Hz%hex_encode_nil; unfold NTHash in Hz; pose proof (Hmd (Names.utf16leDomain pw)) as Hx; rewrite Hz in Hx; done].
    rewrite hex_roundtrip. unfold NTHash. rewrite Hmd. cbn [Z.eqb negb Pos.eqb]. done.
Qed.
End Hash.

(** ** Names for Bonjour *)

Definition TrimSuffix (s suf : bytes) : bytes := if HasSuffix s suf then take (length s - length suf) s else s.

(** Lower case of an ASCII letter.  No other rune folds to a letter of [.local], so
    [strings.EqualFold] with it is this on six bytes. *)
Definition ascii_lower (c : Byte.byte) : Byte.byte := if (0x41 <=? b2z c) && (b2z c <=? 0x5A) then z2b (b2z c + 32) else c.

Definition trimLocalSuffix (hostname : bytes) : bytes :=
  let hostname := TrimSuffix hostname (lit ".") in
  if (len (lit ".local") <=? len hostname) && bool_decide (map ascii_lower (drop (length hostname - 6) hostname) = lit ".local")
  then take (length hostname - 6) hostname else hostname.

Definition shareNames (shares : list ShareConfig) : list bytes := map sName shares.

Definition hasPlaintextPasswordFlag (args : list bytes) : bool :=
  existsb (fun a => bool_decide (a = lit "-u") || bool_decide (a = lit "--user") || HasPrefix a (lit "-u=") || HasPrefix a (lit "--user=")) args.

(** The flag package takes one hyphen or two: a password can be given without the
    warning. *)
Theorem password_flag_missed : exists args cli, ParseCLI args = Ok cli /\ map cuPassword (cUsers cli) = [lit "secret"] /\ hasPlaintextPasswordFlag args = false.
Proof. exists [lit "-user"; lit "ann:secret"]. eexists. split; [vm_compute; reflexivity|by vm_compute]. Qed.

(** ** Starting *)

(** Whose durable handles and session index a connection uses. *)
Inductive scope := OwnTables | ServerTables.

Record ConnOptions := mkOptions {
  RequireEncryption : bool; RequireSigning : bool; MaxIOSize : Z; ServerStartTime : Z; oUsers : list UserConfig; oShares : list ShareConfig;
  oDurableTimeout : Z; Tables : scope }.

Definition baseOpts (cfg : config) (tables : scope) : ConnOptions :=
  mkOptions (bool_decide (Encryption (Server cfg) = EncryptionRequired)) (bool_decide (Signing (Server cfg) = SigningRequired)) (Z.shiftl 8 20) 0
    (Users cfg) (Shares cfg) (Config.DurableTimeout (Server cfg)) tables.

Inductive startErr := BadCLI (e : cliErr) | BadFile (e : fileErr) | BadMerge (e : mergeErr) | BadConfig (e : validateErr) | BadLog.

(** What is served: one inherited connection, or those a listener accepts, on the
    process itself or on a worker each; [advertised] are the instance and the host
    of the mDNS service. *)
Inductive service :=
  | AsWorker (o : ConnOptions)
  | AsServer (listen : bytes) (ReExec : bool) (advertised : option (bytes * bytes)) (o : ConnOptions).

Definition options (s : service) : ConnOptions := match s with AsWorker o | AsServer _ _ _ o => o end.

Definition lift {E A} (f : E -> startErr) (m : outcome E A) : outcome startErr A := match m with Ok a => Ok a | Err e => Err (f e) | Panic => Panic end.

Section Run.
Context (ParseDuration : bytes -> option Z) (MD4 : bytes -> bytes) (absBase : bytes -> option bytes) (ToLower : bytes -> bytes).
Context (isDir : bytes -> option bool) (getuid getgid : Z) (lookup : bytes -> option (bytes * bytes)).
(** A file's mode and content; [net.ParseIP(s).IsUnspecified()]; [os.Hostname]. *)
Context (readFile : bytes -> option Z * option bytes) (isUnspecified : bytes -> bool) (Hostname : option bytes).

Definition bonjourNames (listenerHost localHostname : bytes) : bytes * bytes :=
  let instance := trimLocalSuffix localHostname in
  let hostname := if bool_decide (listenerHost = []) || isUnspecified listenerHost then localHostname else listenerHost in
  (instance, trimLocalSuffix hostname).

(** The start of [run], common to the server and its workers. *)
Definition config_file (cli : CLI) : outcome startErr File :=
  match ConfigFile cli with
  | Some path => lift BadFile (ParseFile (readFile path).1 (readFile path).2)
  | None => Ok noFile
  end.

Definition load (args : list bytes) : outcome startErr config :=
  cli ← lift BadCLI (ParseCLI args);
  file ← config_file cli;
  cfg ← lift BadMerge (Merge ParseDuration MD4 absBase cli file);
  cfg ← lift BadConfig (Validate ToLower isDir getuid getgid lookup cfg);
  if New (Level (Log cfg)) (Format (Log cfg)) then Ok cfg else Err BadLog.

(** [run] up to what it serves, on a listener whose address is [addr]. *)
Definition run (IsWorker : bool) (euid : Z) (addr : bytes) (args : list bytes) : outcome startErr service :=
  cfg ← load args;
  if IsWorker then Ok (AsWorker (baseOpts cfg OwnTables)) else
  let usePrivdrop := Worker.ShouldUsePrivdropWorker (PerUserPrivdrop (Server cfg)) euid (Users cfg) in
  let usePrivdrop := if usePrivdrop && negb (euid =? 0) then false else usePrivdrop in
  let advertised :=
    if MDNS (Server cfg) && negb IsWorker then
      match SplitHostPort addr with
      | Some (host, _) => bonjourNames host <$> Hostname
      | None => None
      end
    else None in
  Ok (AsServer (Listen (Server cfg)) usePrivdrop advertised (baseOpts cfg ServerTables)).

(** What asks for less than required encryption or signing: the flag, or the
    configuration file. *)
Definition relaxes_encryption (cli : CLI) (file : File) : bool :=
  or_default false (NoEncryption cli) || match fEncryption (fServer file) with Some m => negb (bool_decide (m = EncryptionRequired)) | None => false end.
Definition relaxes_signing (cli : CLI) (file : File) : bool :=
  or_default false (NoSigning cli) || match fSigning (fServer file) with Some m => negb (bool_decide (m = SigningRequired)) | None => false end.

Lemma lift_Ok {E A} (f : E -> startErr) (m : outcome E A) a : lift f m = Ok a -> m = Ok a.
Proof. destruct m; cbn; congruence. Qed.

Lemma load_inv args cfg : load args = Ok cfg -> exists cli file cfg', ParseCLI args = Ok cli /\ config_file cli = Ok file /\
  Merge ParseDuration MD4 absBase cli file = Ok cfg' /\ Validate ToLower isDir getuid getgid lookup cfg' = Ok cfg.
Proof.
  unfold load. intros (cli & Hc%lift_Ok & (file & Hf & (c & Hm%lift_Ok & (c' & Hv%lift_Ok & Hl)%bind_Ok_inv)%bind_Ok_inv)%bind_Ok_inv)%bind_Ok_inv.
  destruct (New _ _); [|done]. injection Hl as <-. by exists cli, file, c.
Qed.

Lemma validate_keeps cfg cfg' : Validate ToLower isDir getuid getgid lookup cfg = Ok cfg' ->
  Server cfg' = Server cfg /\ Forall (fun u => Config.NTHash u <> zeros 16) (Users cfg') /\ Forall (fun s => isDir (sPath s) = Some true) (Shares cfg').
Proof.
  unfold Validate. case_bool_decide; [done|]. do 4 (case_bool_decide; [|done]). cbn [negb]. destruct (Netbios _); [done|].
  intros ([] & (S1 & _)%validate_shares_wf & (us & (U1 & _)%validate_users_wf & [= <-])%bind_Ok_inv)%bind_Ok_inv. split_and!; cbn [Server Users Shares]; [done| |].
  - apply (Forall_impl _ _ _ U1). by intros u [].
  - apply (Forall_impl _ _ _ S1). by intros s (_ & _ & _ & ?).
Qed.

Lemma merge_modes cli file cfg : Merge ParseDuration MD4 absBase cli file = Ok cfg ->
  bool_decide (Encryption (Server cfg) = EncryptionRequired) = negb (relaxes_encryption cli file) /\
  bool_decide (Signing (Server cfg) = SigningRequired) = negb (relaxes_signing cli file).
Proof.
  unfold Merge, merge_file_server, merge_cli_server, relaxes_encryption, relaxes_signing.
  intros (s1 & (d1 & _ & [= <-])%bind_Ok_inv & (s2 & (d2 & _ & [= <-])%bind_Ok_inv & (sh & _ & [= <-])%bind_Ok_inv)%bind_Ok_inv)%bind_Ok_inv.
  cbn [Server Encryption Signing]. split.
  - destruct (or_default false (NoEncryption cli)); [done|]. destruct (fEncryption (fServer file)) as [m|]; [cbn [or_default orb]; by destruct (bool_decide (m = _))|done].
  - destruct (or_default false (NoSigning cli)); [done|]. destruct (fSigning (fServer file)) as [m|]; [cbn [or_default orb]; by destruct (bool_decide (m = _))|done].
Qed.

(** C22: The command starts secure: encryption and signing are required of every
    client exactly unless a flag or the configuration file asks for less; no account
    is served without a credential and no share that is not a directory; a worker
    reads from the server's arguments the very options the server has, but for the
    tables it does not share; and connections are handed to workers only by root. *)
Theorem starts_secure (args : list bytes) (cli : CLI) (file : File) (isWorker : bool) (euid : Z) (addr : bytes) (s : service) :
  ParseCLI args = Ok cli -> config_file cli = Ok file -> run isWorker euid addr args = Ok s ->
  let o := options s in
  RequireEncryption o = negb (relaxes_encryption cli file) /\ RequireSigning o = negb (relaxes_signing cli file) /\
  Forall (fun u => Config.NTHash u <> zeros 16) (oUsers o) /\ Forall (fun s => isDir (sPath s) = Some true) (oShares o) /\
  (forall euid' addr', run true euid' addr' args = Ok (AsWorker (mkOptions (RequireEncryption o) (RequireSigning o) (MaxIOSize o) (ServerStartTime o) (oUsers o) (oShares o) (oDurableTimeout o) OwnTables))) /\
  (forall listen adv o', s = AsServer listen true adv o' -> euid = 0).
Proof.
  intros Hcli Hfile. unfold run. intros (cfg & Hl & Hs)%bind_Ok_inv. rewrite Hl. cbn [mbind outcome_bind]. apply load_inv in Hl as (cli' & file' & cfg' & Hc' & Hf' & Hm & Hv).
  rewrite Hcli in Hc'. injection Hc' as <-. rewrite Hfile in Hf'. injection Hf' as <-. destruct (validate_keeps _ _ Hv) as (Hsrv & Hu & Hsh). destruct (merge_modes _ _ _ Hm) as (He & Hg).
  assert (Ho : exists t, options s = baseOpts cfg t) by (destruct isWorker; injection Hs as <-; by eexists). destruct Ho as [t Ho]. cbv zeta. rewrite Ho.
  cbn [baseOpts RequireEncryption RequireSigning oUsers oShares MaxIOSize ServerStartTime oDurableTimeout]. rewrite Hsrv. split_and!; try done.
  - by rewrite <- Hsrv.
  - intros listen adv o' ->. destruct isWorker; [done|]. injection Hs as _ Hr _ _. destruct (Z.eqb_spec euid 0) as [|Hne]; [done|]. rewrite andb_true_r in Hr. by destruct (Worker.ShouldUsePrivdropWorker _ _ _).
Qed.

(** [off] and [preferred] are one mode: nothing tells them apart. *)
Theorem encryption_off_is_preferred (cfg : config) (t : scope) (srv : ServerConfig) :
  let at_mode m := mkConfig (mkServer (Listen srv) (Netbios srv) (MDNS srv) m (Signing srv) (Config.DurableTimeout srv) (StateDir srv) (PerUserPrivdrop srv)) (Log cfg) (Shares cfg) (Users cfg) in
  baseOpts (at_mode EncryptionOff) t = baseOpts (at_mode EncryptionPreferred) t.
Proof. done. Qed.
End Run.

(** ** At concrete inputs *)

Definition ex_md4 (m : bytes) : bytes := replicate 16 Byte.xa5.
Definition ex_user : FileUser := mkFUser (lit "ann") (zeros 16) (concat (replicate 16 (lit "a5"))) [] None.

Lemma hash_is_credential_witness : nthashFromReader ex_md4 (lit "secret" ++ [z2b 13; newline]) false = Ok (fuNTHashHex ex_user) /\
  is_ok (decode_hashes [ex_user]) = true.
Proof.
  destruct (hash_is_credential ex_md4 (lit "secret") [z2b 13; newline] [] ex_user [] (fun _ => eq_refl) ltac:(done)) as (h & Hh & Hd).
  - intros H. by vm_compute in H; repeat (apply elem_of_cons in H as [H|H]; [discriminate H|]); apply elem_of_nil in H.
  - intros H. by vm_compute in H; repeat (apply elem_of_cons in H as [H|H]; [discriminate H|]); apply elem_of_nil in H.
  - constructor.
  - assert (Hex : h = fuNTHashHex ex_user) by (vm_compute in Hh; injection Hh as <-; by vm_compute). subst h. split; [done|]. by rewrite (Hd eq_refl).
Defined.

Definition ex_args : list bytes := [lit "--share"; lit "/srv:work"; lit "-u"; lit "ann:secret:1000/100"; lit "--no-signing"].

Lemma starts_secure_witness : exists s,
  run (fun _ => Some 0) ex_md4 Some id (fun _ => Some true) 0 0 (fun _ => None) (fun _ => (None, None)) (fun _ => true) (Some (lit "box.local")) false 0 (lit "[::]:445") ex_args = Ok s /\
  s = AsServer (lit ":445") true (Some (lit "box", lit "box")) (options s) /\ RequireEncryption (options s) = true /\ RequireSigning (options s) = false.
Proof.
  eexists. split; [vm_compute; reflexivity|]. split; [vm_compute; reflexivity|].
  destruct (ParseCLI ex_args) as [cli| |] eqn:Hc; [|by vm_compute in Hc..].
  destruct (starts_secure (fun _ => Some 0) ex_md4 Some id (fun _ => Some true) 0 0 (fun _ => None) (fun _ => (None, None)) (fun _ => true) (Some (lit "box.local")) ex_args cli noFile
    false 0 (lit "[::]:445") _ Hc ltac:(vm_compute in Hc; injection Hc as <-; reflexivity) ltac:(vm_compute; reflexivity)) as (He & Hs & _).
  split; [refine (eq_trans He _)|refine (eq_trans Hs _)]; vm_compute in Hc; injection Hc as <-; reflexivity.
Defined.
End Command.
