(* ===== verification/Discovery.v ===== *)
(** The mDNS responder: [internal/discovery/mdns.go].

    Which addresses are advertised on which interface, and what is sent in answer
    to a datagram.  The DNS message package is an argument: what it unpacks, which
    names and resources it accepts, how it packs; so is what the host's interfaces
    are and whether a group can be joined. *)

From S2P Require Import Prelude Config.
Import Config.

Module Discovery.

Definition smbService : bytes := lit "_smb._tcp.local.".
Definition mdnsTTL : Z := 120.

(** ** Addresses *)

(** A [net.IP]; [To4] of four bytes, or of an IPv4-mapped sixteen. *)
Definition To4 (ip : bytes) : option bytes :=
  if len ip =? 4 then Some ip else
  if (len ip =? 16) && bool_decide (take 12 ip = zeros 10 ++ [Byte.xff; Byte.xff]) then Some (drop 12 ip) else None.
(** [IsLoopback] and [IsUnspecified] of four bytes. *)
Definition IsLoopback (ip4 : bytes) : bool := bool_decide (head ip4 = Some Byte.x7f).
Definition IsUnspecified (ip4 : bytes) : bool := bool_decide (ip4 = zeros 4).

(** A [net.Addr] that has an address, or one of another kind. *)
Inductive addr := IPNet (ip : bytes) | IPAddr (ip : bytes) | OtherAddr.

(** An interface: its flags, and its addresses if they can be read. *)
Record Interface := mkIface { ifName : bytes; FlagUp : bool; FlagMulticast : bool; FlagLoopback : bool; Addrs : option (list addr) }.

Definition advertisable (a : addr) : list bytes :=
  match a with
  | IPNet ip | IPAddr ip =>
      match To4 ip with Some ip4 => if IsLoopback ip4 || IsUnspecified ip4 then [] else [ip4] | None => [] end
  | OtherAddr => []
  end.

Definition interfaceIPv4s (iface : Interface) (addrs : list addr) : list bytes :=
  if FlagLoopback iface then [] else concat (map advertisable addrs).

Fixpoint iface_loop (ifaces : list Interface) : option (list (Interface * list bytes)) :=
  match ifaces with
  | [] => Some []
  | i :: ifaces =>
      if negb (FlagMulticast i) || negb (FlagUp i) || FlagLoopback i then iface_loop ifaces else
      match Addrs i with
      | None => None
      | Some addrs =>
          let ips := interfaceIPv4s i addrs in
          rest ← iface_loop ifaces; Some (if bool_decide (ips = []) then rest else (i, ips) :: rest)
      end
  end.

(** [net.Interfaces], or its error. *)
Definition multicastIfaces (interfaces : option (list Interface)) : option (list (Interface * list bytes)) :=
  match interfaces with None => None | Some l => iface_loop l end.

(** ** Messages *)

Inductive qtype := TypeA | TypePTR | TypeTXT | TypeSRV | TypeALL | OtherType (t : Z).
Record question := mkQuestion { qName : bytes; qType : qtype }.
Record query := mkQuery { ID : Z; IsResponse : bool; Questions : list question }.

Inductive body := PTR (target : bytes) | SRV (port : Z) (target : bytes) | TXT (strings : list bytes) | A (ip : bytes).
Record resource := mkResource { rName : bytes; rTTL : Z; rBody : body }.
(** What the builder makes: an authoritative response. *)
Record response := mkResponse { respID : Z; Answers : list resource; Additionals : list resource }.

Section Respond.
(** [NewName]; whether the builder takes a resource, which it leaves out otherwise,
    its error ignored; [Finish]; [Unpack]. *)
Context (ToLower : bytes -> bytes) (NewName : bytes -> bool) (packs : resource -> bool) (Finish : response -> option bytes) (Unpack : bytes -> option query).
Context (instance hostname : bytes) (port : Z).

Definition mustNewName (s : bytes) : outcome unit bytes := if NewName s then Ok s else Panic.

Definition instanceFQDN : bytes := instance ++ lit "._smb._tcp.local.".
Definition hostFQDN : bytes := hostname ++ lit ".local.".

Definition matches (q : question) : bool :=
  let name := ToLower (qName q) in
  match qType q with
  | TypePTR => bool_decide (name = ToLower smbService)
  | TypeSRV | TypeTXT | TypeALL => bool_decide (name = ToLower instanceFQDN)
  | TypeA => bool_decide (name = ToLower hostFQDN)
  | OtherType _ => false
  end.

Definition a_record (hostName ip : bytes) : list resource := match To4 ip with None => [] | Some ip4 => [mkResource hostName mdnsTTL (A ip4)] end.

(** What is built, before [Finish]. *)
Definition build (id : Z) (ptrName instanceName hostName : bytes) (ips : list bytes) : response :=
  mkResponse id
    (filter (fun r => packs r = true)
      [mkResource ptrName mdnsTTL (PTR instanceName); mkResource instanceName mdnsTTL (SRV (port mod 2 ^ 16) hostName); mkResource instanceName mdnsTTL (TXT [[]])])
    (filter (fun r => packs r = true) (concat (map (a_record hostName) ips))).

Definition buildResponse (q : query) (ips : list bytes) : outcome unit (option bytes) :=
  ptrName ← mustNewName smbService; instanceName ← mustNewName instanceFQDN; hostName ← mustNewName hostFQDN;
  if negb (existsb matches (Questions q)) then Ok None else
  Ok (Finish (build (ID q) ptrName instanceName hostName ips)).

(** ** Sending *)

(** A socket joined on an interface. *)
Abbreviation interfaceConn := (Interface * list bytes)%type.

(** [serveLoop]'s round on one datagram: what is sent to the group on the same
    socket. *)
Definition serve_datagram (endpoint : interfaceConn) (datagram : bytes) : outcome unit (list bytes) :=
  match Unpack datagram with
  | None => Ok []
  | Some msg =>
      if IsResponse msg then Ok [] else
      resp ← buildResponse msg endpoint.2;
      Ok (match resp with Some (c :: resp) => [c :: resp] | _ => [] end)
  end.

(** [announce]: the endpoints that are sent to, with what. *)
Definition announcement : query := mkQuery 0 false [mkQuestion smbService TypePTR].
Fixpoint announce (conns : list interfaceConn) : outcome unit (list (interfaceConn * bytes)) :=
  match conns with
  | [] => Ok []
  | c :: conns =>
      _ ← mustNewName smbService;
      resp ← buildResponse announcement c.2;
      rest ← announce conns;
      Ok (match resp with Some (b :: resp) => (c, b :: resp) :: rest | _ => rest end)
  end.

(** [Advertise]: the sockets that listen; [joins] is whether [ListenMulticastUDP]
    does. *)
Definition Advertise (interfaces : option (list Interface)) (joins : Interface -> bool) : option (list interfaceConn) :=
  match multicastIfaces interfaces with
  | None | Some [] => None
  | Some ifaces => let conns := filter (fun c => joins c.1 = true) ifaces in if bool_decide (conns = []) then None else Some conns
  end.

(** ** What reaches the network *)

(** An address another host can use, of an interface that is up and reaches a
    network. *)
Definition own_address (c : interfaceConn) (ip : bytes) : Prop :=
  FlagUp c.1 = true /\ FlagMulticast c.1 = true /\ FlagLoopback c.1 = false /\ len ip = 4 /\ IsLoopback ip = false /\ IsUnspecified ip = false /\
  exists addrs a raw, Addrs c.1 = Some addrs /\ a ∈ addrs /\ (a = IPNet raw \/ a = IPAddr raw) /\ To4 raw = Some ip.

Lemma len_To4 ip ip4 : To4 ip = Some ip4 -> len ip4 = 4.
Proof.
  unfold To4. destruct (Z.eqb_spec (len ip) 4) as [H|_]; [by intros [= <-]|]. destruct (Z.eqb_spec (len ip) 16) as [H|_]; [|done]. cbn [andb].
  case_bool_decide; [|done]. intros [= <-]. unfold len in *. rewrite length_drop. lia.
Qed.

Lemma To4_idem ip : len ip = 4 -> To4 ip = Some ip.
Proof. unfold To4. by intros ->. Qed.

Lemma advertisable_spec a ip : ip ∈ advertisable a -> exists raw, (a = IPNet raw \/ a = IPAddr raw) /\ To4 raw = Some ip /\ IsLoopback ip = false /\ IsUnspecified ip = false.
Proof.
  destruct a as [raw|raw|]; cbn [advertisable]; [| |by intros ?%elem_of_nil]; (destruct (To4 raw) as [ip4|] eqn:H4; [|by intros ?%elem_of_nil]);
    (destruct (IsLoopback ip4) eqn:Hl; [by intros ?%elem_of_nil|]); (destruct (IsUnspecified ip4) eqn:Hu; [by intros ?%elem_of_nil|]);
    cbn [orb]; intros ->%list_elem_of_singleton; exists raw; split_and!; try done; solve [by left|by right].
Qed.

Lemma iface_loop_spec l : forall out, iface_loop l = Some out -> forall c, c ∈ out ->
  FlagUp c.1 = true /\ FlagMulticast c.1 = true /\ FlagLoopback c.1 = false /\ exists addrs, Addrs c.1 = Some addrs /\ c.2 = interfaceIPv4s c.1 addrs.
Proof.
  induction l as [|i l IH]; intros out; cbn [iface_loop]; [intros [= <-] c Hc; by apply elem_of_nil in Hc|].
  destruct (FlagMulticast i) eqn:Hm; [|by apply IH]. destruct (FlagUp i) eqn:Hu; [|by apply IH]. destruct (FlagLoopback i) eqn:Hl; [by apply IH|].
  cbn [negb orb]. destruct (Addrs i) as [addrs|] eqn:Ha; [|done]. destruct (iface_loop l) as [rest|] eqn:Hr; [|done]. cbn. specialize (IH _ eq_refl). case_bool_decide; intros [= <-]; [done|].
  intros c [->|Hc]%elem_of_cons; [|by apply IH]. split_and!; try done. by exists addrs.
Qed.

Lemma own_addresses interfaces joins conns c ip : Advertise interfaces joins = Some conns -> c ∈ conns -> ip ∈ c.2 -> own_address c ip.
Proof.
  unfold Advertise. destruct (multicastIfaces interfaces) as [[|x l]|] eqn:Hi; try done. case_bool_decide; [done|]. intros [= <-] [_ Hc]%list_elem_of_filter Hip.
  destruct interfaces as [ifs|]; [|done]. destruct (iface_loop_spec _ _ Hi _ Hc) as (Hu & Hm & Hl & addrs & Ha & Hc2). rewrite Hc2 in Hip. unfold interfaceIPv4s in Hip. rewrite Hl in Hip.
  apply list_elem_of_In, in_concat in Hip as (x0 & Hx & Hin). apply in_map_iff in Hx as (a & <- & Hain). apply list_elem_of_In in Hin, Hain.
  destruct (advertisable_spec _ _ Hin) as (raw & Hraw & H4 & Hlo & Hun). split_and!; try done; [by eapply len_To4|]. by exists addrs, a, raw.
Qed.

(** A response on a socket: addresses of its interface only, under the host's name. *)
Definition speaks (c : interfaceConn) (r : response) : Prop :=
  Forall (fun x => match rBody x with A _ => False | _ => rName x = smbService \/ rName x = instanceFQDN end) (Answers r) /\
  Forall (fun x => rName x = hostFQDN /\ exists ip, rBody x = A ip /\ own_address c ip) (Additionals r) /\
  ((forall x, packs x = true) -> forall ip, ip ∈ c.2 -> mkResource hostFQDN mdnsTTL (A ip) ∈ Additionals r).

Lemma build_speaks interfaces joins conns c id : Advertise interfaces joins = Some conns -> c ∈ conns -> speaks c (build id smbService instanceFQDN hostFQDN c.2).
Proof.
  intros Ha Hc. assert (Hown : forall ip, ip ∈ c.2 -> own_address c ip) by (intros ip; by eapply own_addresses). unfold build, speaks. cbn [Answers Additionals]. split_and!.
  - apply Forall_forall. intros x [_ Hx]%list_elem_of_filter. repeat (apply elem_of_cons in Hx as [->|Hx]; [cbn; tauto|]). by apply elem_of_nil in Hx.
  - apply Forall_forall. intros x [_ Hx]%list_elem_of_filter. apply list_elem_of_In, in_concat in Hx as (l & (ip & <- & Hip)%in_map_iff & Hx).
    apply list_elem_of_In in Hip, Hx. specialize (Hown _ Hip). unfold a_record in Hx. rewrite To4_idem in Hx by apply Hown. apply list_elem_of_singleton in Hx as ->. split; [done|]. by exists ip.
  - intros Hp ip Hip. apply list_elem_of_filter. split; [apply Hp|]. apply list_elem_of_In, in_concat. exists (a_record hostFQDN ip). split; [apply in_map; by apply list_elem_of_In|].
    unfold a_record. rewrite To4_idem by apply (Hown _ Hip). by left.
Qed.

Lemma buildResponse_inv q ips r : buildResponse q ips = Ok r -> NewName smbService && NewName instanceFQDN && NewName hostFQDN = true /\
  r = (if existsb matches (Questions q) then Finish (build (ID q) smbService instanceFQDN hostFQDN ips) else None).
Proof.
  unfold buildResponse, mustNewName. destruct (NewName smbService); [|done]. destruct (NewName instanceFQDN); [|done]. destruct (NewName hostFQDN); [|done]. cbn [mbind outcome_bind andb].
  destruct (existsb matches (Questions q)); cbn [negb]; by intros [= <-].
Qed.

(** The responder says what is so, and only to those it concerns: whatever
    datagram arrives on a socket, what is sent back is a response to a query, of its
    id, in which some question is for the service, the instance or the host; and a
    response or an announcement on a socket carries exactly the addresses of that
    socket's interface that another host can use - of an interface that is up, is
    multicast and is not the loopback, and never a loopback or an unspecified
    address. *)
Theorem discovery_speaks_true (interfaces : option (list Interface)) (joins : Interface -> bool) (conns : list interfaceConn) : Advertise interfaces joins = Some conns ->
  (forall c d bufs buf, c ∈ conns -> serve_datagram c d = Ok bufs -> buf ∈ bufs ->
     exists q r, Unpack d = Some q /\ IsResponse q = false /\ Exists (fun x => matches x = true) (Questions q) /\ respID r = ID q /\ speaks c r /\ Finish r = Some buf) /\
  (forall sent c buf, announce conns = Ok sent -> (c, buf) ∈ sent -> c ∈ conns /\ exists r, speaks c r /\ Finish r = Some buf).
Proof.
  intros Ha. split.
  - intros c d bufs buf Hc. unfold serve_datagram. destruct (Unpack d) as [q|] eqn:Hu; [|intros [= <-] Hb; by apply elem_of_nil in Hb].
    destruct (IsResponse q) eqn:Hr; [intros [= <-] Hb; by apply elem_of_nil in Hb|]. intros (r & (_ & ->)%buildResponse_inv & [= <-])%bind_Ok_inv Hb.
    destruct (existsb matches (Questions q)) eqn:Hm; [|by apply elem_of_nil in Hb]. destruct (Finish _) as [[|b l]|] eqn:Hf; [by apply elem_of_nil in Hb| |by apply elem_of_nil in Hb].
    apply list_elem_of_singleton in Hb as ->. exists q, (build (ID q) smbService instanceFQDN hostFQDN c.2). split_and!; try done; [|by eapply build_speaks].
    apply existsb_exists in Hm as (x & Hx & Hm). apply Exists_exists. exists x. split; [by apply list_elem_of_In|done].
  - assert (H : forall l, (forall c, c ∈ l -> c ∈ conns) -> forall sent c buf, announce l = Ok sent -> (c, buf) ∈ sent -> c ∈ conns /\ exists r, speaks c r /\ Finish r = Some buf); [|by apply (H conns)].
    induction l as [|c l IH]; intros Hl sent c' buf; cbn [announce]; [intros [= <-] Hb; by apply elem_of_nil in Hb|].
    intros (n & _ & (r & (_ & ->)%buildResponse_inv & (rest & Hrest & [= <-])%bind_Ok_inv)%bind_Ok_inv)%bind_Ok_inv Hb.
    assert (Hin : c ∈ conns) by (apply Hl, elem_of_cons; by left). assert (IH' : (c', buf) ∈ rest -> c' ∈ conns /\ exists r, speaks c' r /\ Finish r = Some buf).
    { apply (IH (fun x Hx => Hl x (proj2 (elem_of_cons _ _ _) (or_intror Hx))) _ _ _ Hrest). }
    match type of Hb with context[if ?b then Finish _ else None] => destruct b end; [|by apply IH']. destruct (Finish _) as [[|b m]|] eqn:Hf; [by apply IH'| |by apply IH'].
    apply elem_of_cons in Hb as [[= -> ->]|Hb]; [|by apply IH']. split; [done|]. eexists. split; [by eapply build_speaks|exact Hf].
Qed.
End Respond.

(** ** A host on one network *)

Definition ex_ip : bytes := [Byte.xc0; Byte.xa8; Byte.x01; Byte.x02].
Definition ex_iface : Interface := mkIface (lit "eth0") true true false (Some [IPNet (zeros 10 ++ [Byte.xff; Byte.xff] ++ ex_ip); IPNet [Byte.x7f; Byte.x00; Byte.x00; Byte.x01]; OtherAddr]).
Definition ex_lo : Interface := mkIface (lit "lo0") true true true (Some [IPNet [Byte.x0a; Byte.x0a; Byte.x0a; Byte.x01]]).
(** A message packed as its addresses, and any datagram read as a query for the host. *)
Definition ex_pack (r : response) : option bytes := Some (concat (map (fun x => match rBody x with A ip => ip | _ => [] end) (Additionals r))).

Theorem discovery_speaks_true_witness :
  Advertise (Some [ex_lo; ex_iface]) (fun _ => true) = Some [(ex_iface, [ex_ip])] /\
  exists r, speaks (fun _ => true) (lit "box") (lit "box") (ex_iface, [ex_ip]) r /\ ex_pack r = Some ex_ip.
Proof.
  assert (Ha : Advertise (Some [ex_lo; ex_iface]) (fun _ => true) = Some [(ex_iface, [ex_ip])]) by (vm_compute; reflexivity). split; [exact Ha|].
  destruct (discovery_speaks_true id (fun _ => true) (fun _ => true) ex_pack (fun _ => Some (mkQuery 7 false [mkQuestion (lit "box.local.") TypeA])) (lit "box") (lit "box") 445 _ _ _ Ha) as [Hs _].
  destruct (Hs (ex_iface, [ex_ip]) [] [ex_ip] ex_ip ltac:(by left) ltac:(vm_compute; reflexivity) ltac:(by left)) as (q & r & _ & _ & _ & _ & Hr & Hf).
  exists r. split; [exact Hr|exact Hf].
Defined.
End Discovery.
