(* ===== verification/AeadCache.v ===== *)
(** The cache of ciphers: [internal/smb3/aeadcache.go].

    Calls of [aeadFor] run side by side: each looks its shard up under the read lock,
    builds outside any lock, and stores under the write lock. *)

From S2P Require Import Prelude Smb2 Smb3.
Import Smb3.

Module AeadCache.

Definition aeadCacheLimit : Z := 512.

(** A nil map is an empty one: nothing tells them apart. *)
Abbreviation shard := (gmap bytes aead).
Abbreviation caches := (gmap Z shard).

Definition shard_of (c : caches) (cipherID : Z) : shard := default ∅ (c !! cipherID).

Section Cache.
Context (AES : bytes -> bytes -> bytes) (GCMSeal : bytes -> bytes -> bytes -> bytes -> bytes) (GCMOpen : bytes -> bytes -> bytes -> bytes -> option bytes).
Abbreviation newAEAD := (newAEAD AES GCMSeal GCMOpen).

(** The ids that have a shard in use. *)
Definition cacheable (cipherID : Z) : bool := negb ((cipherID =? 0) || (CipherAES256GCM + 1 <=? cipherID)).

(** The store, which drops a full shard whole. *)
Definition store (c : caches) (cipherID : Z) (rawKey : bytes) (a : aead) : caches :=
  let m := shard_of c cipherID in
  let m := if aeadCacheLimit <=? Z.of_nat (size m) then ∅ else m in
  <[cipherID := <[rawKey := a]> m]> c.

(** A call: not begun, with a cipher to store, with its answer. *)
Inductive callPc := Lookup | Store (a : aead) | Done (r : outcome transformErr aead).
Record call := mkCall { cCipher : Z; cKey : bytes; cPc : callPc }.

(** The next critical section of a call, and what follows it up to the next. *)
Definition turn (c : caches) (x : call) : caches * call :=
  let at_pc p := mkCall (cCipher x) (cKey x) p in
  match cPc x with
  | Lookup =>
      if negb (cacheable (cCipher x)) then (c, at_pc (Done (newAEAD (cCipher x) (cKey x)))) else
      match shard_of c (cCipher x) !! cKey x with
      | Some a => (c, at_pc (Done (Ok a)))
      | None => (c, at_pc (match newAEAD (cCipher x) (cKey x) with Ok a => Store a | e => Done e end))
      end
  | Store a => (store c (cCipher x) (cKey x) a, at_pc (Done (Ok a)))
  | Done r => (c, x)
  end.

(** A call that nothing interrupts. *)
Definition aeadFor (c : caches) (cipherID : Z) (rawKey : bytes) : caches * outcome transformErr aead :=
  let '(c, x) := turn c (mkCall cipherID rawKey Lookup) in
  let '(c, x) := turn c x in
  (c, match cPc x with Done r => r | _ => Panic end).

(** The caches and the calls, and what happens next: a new call, or a turn of one. *)
Record state := mkState { Caches : caches; Calls : list call }.
Inductive event := Begin (cipherID : Z) (rawKey : bytes) | Turn (i : nat).

Definition step (s : state) (e : event) : state :=
  match e with
  | Begin cid k => mkState (Caches s) (Calls s ++ [mkCall cid k Lookup])
  | Turn i => match Calls s !! i with
              | Some x => let '(c, x) := turn (Caches s) x in mkState c (<[i := x]> (Calls s))
              | None => s
              end
  end.

Definition run (es : list event) : state := foldl step (mkState ∅ []) es.

(** What is cached is what would be built, and no shard is over its limit. *)
Definition caches_ok (c : caches) : Prop :=
  (forall cid k a, shard_of c cid !! k = Some a -> newAEAD cid k = Ok a) /\ (forall cid, Z.of_nat (size (shard_of c cid)) <= aeadCacheLimit).
Definition call_ok (x : call) : Prop :=
  match cPc x with Lookup => True | Store a => newAEAD (cCipher x) (cKey x) = Ok a | Done r => r = newAEAD (cCipher x) (cKey x) end.

Lemma shard_insert c cid m cid' : shard_of (<[cid := m]> c) cid' = if decide (cid' = cid) then m else shard_of c cid'.
Proof. unfold shard_of. destruct (decide (cid' = cid)) as [->|Hne]; [by rewrite lookup_insert_eq|by rewrite lookup_insert_ne]. Qed.

Lemma size_insert_le (m : shard) k a : (size (<[k := a]> m) <= S (size m))%nat.
Proof. rewrite map_size_insert. destruct (m !! k); unfold id; lia. Qed.

Lemma store_ok c cid k a : caches_ok c -> newAEAD cid k = Ok a -> caches_ok (store c cid k a).
Proof.
  intros [Hc Hn] Ha. unfold store. set (m := if aeadCacheLimit <=? Z.of_nat (size (shard_of c cid)) then ∅ else shard_of c cid).
  assert (Hm : (forall k' a', m !! k' = Some a' -> newAEAD cid k' = Ok a') /\ Z.of_nat (size m) < aeadCacheLimit).
  { unfold m. destruct (Z.leb_spec aeadCacheLimit (Z.of_nat (size (shard_of c cid)))); split; [intros ? ? He; by rewrite lookup_empty in He|by rewrite map_size_empty|apply Hc|done]. }
  destruct Hm as [Hm Hs]. split.
  - intros cid' k' a'. rewrite shard_insert. destruct (decide (cid' = cid)) as [->|_]; [|apply Hc].
    destruct (decide (k' = k)) as [->|Hne]; [by rewrite lookup_insert_eq; intros [= <-]|rewrite lookup_insert_ne by done; apply Hm].
  - intros cid'. rewrite shard_insert. destruct (decide (cid' = cid)) as [->|_]; [|apply Hn]. pose proof (size_insert_le m k a). lia.
Qed.

Lemma turn_ok c x : caches_ok c -> call_ok x -> caches_ok (turn c x).1 /\ call_ok (turn c x).2.
Proof.
  intros Hc Hx. unfold turn, call_ok in *. destruct (cPc x) as [|a|r] eqn:Hp; cbn [fst snd cPc].
  - destruct (cacheable (cCipher x)); cbn [negb]; [|by split]. destruct (shard_of c (cCipher x) !! cKey x) as [a|] eqn:Ha; cbn [fst snd cPc cCipher cKey].
    + split; [done|]. symmetry. by apply Hc.
    + split; [done|]. by destruct (newAEAD (cCipher x) (cKey x)).
  - split; [by apply store_ok|done].
  - by rewrite Hp.
Qed.

Lemma run_ok es : caches_ok (Caches (run es)) /\ Forall call_ok (Calls (run es)).
Proof.
  unfold run. assert (H : caches_ok (Caches (mkState ∅ [])) /\ Forall call_ok (Calls (mkState ∅ []))).
  { split; [|constructor]. unfold caches_ok, shard_of. cbn. split; intros cid; cbn; [intros k a; by rewrite !lookup_empty|by rewrite lookup_empty]. }
  revert H. generalize (mkState ∅ []). induction es as [|e es IH]; intros s [Hc Hf]; cbn [foldl]; [done|]. apply IH. destruct e as [cid k|i]; cbn [step].
  - split; [done|]. apply Forall_app. split; [done|]. by apply Forall_singleton.
  - destruct (Calls s !! i) as [x|] eqn:Hi; [|done]. pose proof (turn_ok _ _ Hc (Forall_lookup_1 _ _ _ _ Hf Hi)) as [H1 H2]. destruct (turn _ _) as [c y]. split; [done|]. by apply Forall_insert.
Qed.

(** C35: The cache is transparent and bounded: however calls for the four ciphers,
    any other id and any keys are interleaved, each returns what building the cipher
    anew would, errors included; a call that runs alone takes two critical sections
    and returns that too; and no shard ever holds more than 512 keys. *)
Theorem aead_cache_transparent (es : list event) :
  let s := run es in
  Forall (fun x => forall r, cPc x = Done r -> r = newAEAD (cCipher x) (cKey x)) (Calls s) /\
  (forall cid k, (aeadFor (Caches s) cid k).2 = newAEAD cid k) /\
  (forall cid, Z.of_nat (size (shard_of (Caches s) cid)) <= 512).
Proof.
  destruct (run_ok es) as [Hc Hf]. cbv zeta. split_and!.
  - apply (Forall_impl _ _ _ Hf). intros x Hx r Hr. unfold call_ok in Hx. by rewrite Hr in Hx.
  - intros cid k. unfold aeadFor. pose proof (turn_ok (Caches (run es)) (mkCall cid k Lookup) Hc I) as [H1 H2].
    unfold turn at 1. unfold turn in H2. cbn [cPc cCipher cKey] in *. destruct (cacheable cid); cbn [negb] in *; [|done].
    destruct (shard_of _ _ !! k) as [a|]; cbn in *; [exact H2|]. by destruct (newAEAD cid k).
  - apply Hc.
Qed.
End Cache.
End AeadCache.
