(* ===== verification/ConnEnd.v ===== *)
(** The end of a connection: the deferred teardown of [ServeConn] and
    [releaseConnOpens], [internal/parent/conn.go].

    The pool is drained when it runs ([Serve]), so nothing of the connection is in a
    handler.  Of its handles those with a live durable entry outlive it; the tables
    are those of [Teardown]. *)

From S2P Require Import Prelude Smb2 LockRanges ShareMode Sessions CopyChunk Durable Dispatch Async Teardown.
Import Teardown.

Module ConnEnd.

Section End_.
(** The file behind a handle's descriptor, and the handle as the teardown finds it. *)
Context (node : Z -> option fileKey) (co : Z -> Durable.connOpen).

(** One round of [releaseConnOpens], under the handle's own lock. *)
Definition release_handle (now : Z) (s : tables) (o : Z) : tables :=
  match Durable.release_conn_open (durables s) (co o) now with
  | (t, Durable.Disposed) => mkTables (async s) (keys s) (ShareMode.release (modes s) o) t (closeFile node (descriptors s) o)
  | (t, _) => mkTables (async s) (keys s) (modes s) t (descriptors s)
  end.

(** The handles come out of the sessions' maps first, session by session. *)
Definition releaseConnOpens (sessions : list Session.Session) (s : tables) (now : Z) : list Session.Session * tables :=
  let taken := concat (map (fun x => (Session.TakeAllOpens x).2) sessions) in
  (map (fun x => (Session.TakeAllOpens x).1) sessions, fold_left (release_handle now) (map Session.open_id taken) s).

(** The deferred function, [sessions] the connection's table in the order it is
    ranged over. *)
Definition teardown (h : SessionIndex.sessionHost) (idx : SessionIndex.SessionIndex) (sessions : list Session.Session) (s : tables) (now : Z)
    : SessionIndex.SessionIndex * list Session.Session * tables :=
  let idx := SessionIndex.unregisterHost idx h in
  let s := mkTables (Async.CancelAllNotifies (async s)) (keys s) (modes s) (durables s) (descriptors s) in
  let s := mkTables (async s) (CopyChunk.clear (keys s)) (modes s) (durables s) (descriptors s) in
  let '(sessions, s) := releaseConnOpens sessions s now in (idx, sessions, s).

(** ** Handle by handle is table by table *)

Definition kept (t : Durable.DurableTable) (now o : Z) : bool :=
  Durable.co_hasFile (co o) && Durable.co_durable (co o) && Durable.Has t (Durable.co_key (co o)) now.
Definition disposed (t : Durable.DurableTable) (now o : Z) : bool := Durable.co_hasFile (co o) && negb (kept t now o).

Definition timeouts_ok (t : Durable.DurableTable) : Prop := forall k e, t !! k = Some e -> 0 <= Durable.timeout e.

Lemma Detach_timeouts t k now : timeouts_ok t -> timeouts_ok (Durable.Detach t k now).
Proof.
  intros Ht. unfold Durable.Detach. destruct (t !! k) as [e|] eqn:He; [|done]. destruct (negb (Durable.attached e)); [done|]. intros k' e'.
  rewrite lookup_insert_Some. intros [[_ <-]|[_ H]]; [exact (Ht k e He)|exact (Ht _ _ H)].
Qed.

Lemma Detach_Has t k k' now : timeouts_ok t -> Durable.Has (Durable.Detach t k now) k' now = Durable.Has t k' now.
Proof.
  intros Ht. unfold Durable.Detach, Durable.Has. destruct (t !! k) as [e|] eqn:He; [|done]. destruct (Durable.attached e) eqn:Ha; cbn [negb]; [|done].
  destruct (decide (k' = k)) as [->|Hne]; [|by rewrite lookup_insert_ne]. rewrite lookup_insert_eq, He. unfold Durable.expired, Durable.attached in *. cbn [Durable.deadline].
  destruct (Durable.deadline e); [done|]. pose proof (Ht k e He). cbn [negb]. apply negb_true_iff, Z.ltb_ge. lia.
Qed.

Lemma round_durables t now o : timeouts_ok t -> let t' := (Durable.release_conn_open t (co o) now).1 in
  timeouts_ok t' /\ (forall o', kept t' now o' = kept t now o') /\
  (Durable.release_conn_open t (co o) now).2 = if kept t now o then Durable.Detached else if disposed t now o then Durable.Disposed else Durable.Kept.
Proof.
  intros Ht. unfold Durable.release_conn_open, disposed. destruct (Durable.co_hasFile (co o)) eqn:Hf; cbn [negb].
  - unfold kept at 3 4. rewrite Hf. cbn [andb]. destruct (Durable.co_durable (co o) && Durable.Has t (Durable.co_key (co o)) now) eqn:Hk; cbn [fst snd].
    + split; [by apply Detach_timeouts|]. split; [|done]. intros o'. unfold kept. by rewrite Detach_Has.
    + by split.
  - split; [done|]. split; [done|]. unfold kept. by rewrite Hf.
Qed.

(** The handles disposed of, in order; the durable table. *)
Definition gone (t : Durable.DurableTable) (now : Z) (os : list Z) : list Z := filter (fun o => disposed t now o = true) os.
Definition detached (t : Durable.DurableTable) (now : Z) (os : list Z) : Durable.DurableTable :=
  fold_left (fun t o => (Durable.release_conn_open t (co o) now).1) os t.

Lemma gone_ext t t' now os : (forall o, kept t' now o = kept t now o) -> gone t' now os = gone t now os.
Proof. intros Hk. unfold gone. apply list_filter_iff. intros o. unfold disposed. by rewrite Hk. Qed.

Lemma fold_release os : forall s now, timeouts_ok (durables s) ->
  fold_left (release_handle now) os s = mkTables (async s) (keys s) (drop (modes s) (gone (durables s) now os)) (detached (durables s) now os)
    (drop (HandleTable := files_table node) (descriptors s) (gone (durables s) now os)).
Proof.
  induction os as [|o os IH]; intros s now Ht; [by destruct s|]. cbn [fold_left detached]. pose proof (round_durables (durables s) now o Ht) as (Ht' & Hk & Hd).
  unfold release_handle at 2. destruct (Durable.release_conn_open (durables s) (co o) now) as [t d]. cbn [fst snd] in *. unfold gone. cbn [filter list_filter].
  destruct (kept (durables s) now o) eqn:Ho.
  - subst d. rewrite decide_False by (unfold disposed; rewrite Ho; by rewrite andb_false_r). rewrite IH by done. cbn [async keys modes durables descriptors]. by rewrite (gone_ext (durables s)).
  - destruct (disposed (durables s) now o) eqn:Hdis; subst d.
    + rewrite decide_True by done. rewrite IH by done. cbn [async keys modes durables descriptors]. by rewrite (gone_ext (durables s)).
    + rewrite decide_False by done. rewrite IH by done. cbn [async keys modes durables descriptors]. by rewrite (gone_ext (durables s)).
Qed.

(** An entry with its countdown running. *)
Definition counting (now : Z) (e : Durable.durableEntry) : Durable.durableEntry :=
  Durable.mkEntry (Durable.open e) (Some (match Durable.deadline e with Some d => d | None => now + Durable.timeout e end)) (Durable.timeout e) (Durable.shareName e) (Durable.userName e).

Lemma Detach_lookup t k now k' : Durable.Detach t k now !! k' = if decide (k' = k) then counting now <$> t !! k' else t !! k'.
Proof.
  unfold Durable.Detach. destruct (decide (k' = k)) as [->|Hne].
  - destruct (t !! k) as [e|] eqn:He; [|done]. destruct (Durable.attached e) eqn:Ha; cbn [negb].
    + rewrite lookup_insert_eq. unfold Durable.attached, counting in *. cbn. by destruct (Durable.deadline e).
    + rewrite He. unfold Durable.attached, counting in *. destruct e as [o [d|] tm sh u]; [done|discriminate Ha].
  - destruct (t !! k) as [e|]; [|done]. destruct (negb (Durable.attached e)); [done|]. by rewrite lookup_insert_ne.
Qed.

Definition kept_keys (t : Durable.DurableTable) (now : Z) (os : list Z) : list Durable.durableKey := map (fun o => Durable.co_key (co o)) (filter (fun o => kept t now o = true) os).

Lemma kept_keys_cons t now o os : kept_keys t now (o :: os) = (if kept t now o then [Durable.co_key (co o)] else []) ++ kept_keys t now os.
Proof. unfold kept_keys. rewrite filter_cons. destruct (kept t now o); [by rewrite decide_True|by rewrite decide_False]. Qed.

Lemma detached_lookup os : forall t now k, timeouts_ok t ->
  detached t now os !! k = if decide (k ∈ kept_keys t now os) then counting now <$> t !! k else t !! k.
Proof.
  induction os as [|o os IH]; intros t now k Ht; cbn [detached fold_left]; [by rewrite decide_False by apply not_elem_of_nil|].
  destruct (round_durables t now o Ht) as (Ht' & Hk & _). fold (detached (Durable.release_conn_open t (co o) now).1 now os). rewrite IH by done.
  assert (Hkk : kept_keys (Durable.release_conn_open t (co o) now).1 now os = kept_keys t now os).
  { unfold kept_keys. f_equal. apply list_filter_iff. intros x. by rewrite Hk. }
  rewrite Hkk, kept_keys_cons. destruct (kept t now o) eqn:Ho; cbn [app].
  - unfold kept in Ho. apply andb_true_iff in Ho as [Ho Hh]. apply andb_true_iff in Ho as [Hf Hdu].
    assert (Hl : (Durable.release_conn_open t (co o) now).1 = Durable.Detach t (Durable.co_key (co o)) now) by (unfold Durable.release_conn_open; by rewrite Hf, Hdu, Hh).
    rewrite Hl, Detach_lookup. destruct (decide (k = Durable.co_key (co o))) as [->|Hne].
    + rewrite (decide_True (P := _ ∈ _ :: _)) by (apply elem_of_cons; by left). destruct (decide _); [|done]. by destruct (t !! _).
    + destruct (decide (k ∈ kept_keys t now os)); [by rewrite decide_True by (apply elem_of_cons; by right)|by rewrite decide_False by (by intros [?|?]%elem_of_cons)].
  - assert (Hl : (Durable.release_conn_open t (co o) now).1 = t); [|by rewrite Hl].
    unfold Durable.release_conn_open. unfold kept in Ho. destruct (Durable.co_hasFile (co o)); [|done]. cbn [negb andb] in *. by rewrite Ho.
Qed.

Lemma fds_drop f os : forall o, o ∈ fds (drop (HandleTable := files_table node) f os) <-> o ∈ fds f /\ o ∉ os.
Proof.
  change (drop (HandleTable := files_table node) f os) with (fold_left (closeFile node) os f). revert f. induction os as [|o1 os IH]; intros f o; cbn [fold_left]; [set_solver|].
  rewrite IH. unfold closeFile. case_bool_decide; cbn [fds]; set_solver.
Qed.

(** ** What is left of a connection *)

Definition holds_mode (s : tables) (o : Z) : Prop := holds (modes s) o.
Definition holds_file (s : tables) (o : Z) : Prop := holds (HandleTable := files_table node) (descriptors s) o.
Definition owned (sessions : list Session.Session) : list Z := map Session.open_id (concat (map Session.owned sessions)).

(** The tables as the server keeps them, and the handles as the connection has
    them: those with a descriptor are the ones it is open for, and only they have a
    share mode or a locked range. *)
Record well_kept (sessions : list Session.Session) (s : tables) : Prop := {
  wk_tables : Async.Inv (async s) /\ table_ok (modes s) /\ table_ok (HandleTable := files_table node) (descriptors s);
  wk_timeouts : timeouts_ok (durables s);
  wk_file : forall o, o ∈ owned sessions -> Durable.co_hasFile (co o) = bool_decide (o ∈ fds (descriptors s));
  wk_only : forall o, o ∈ owned sessions -> holds_mode s o \/ holds_file s o -> o ∈ fds (descriptors s) }.

End End_.

(** ** A connection with a durable handle and another *)

Definition ex_co (o : Z) : Durable.connOpen := if o =? 7 then Durable.mkConnOpen 7 true true ex_durable_key else Durable.mkConnOpen o true false ([], []).
Definition ex_sessions : list Session.Session := [(Session.AddOpen Session.ex_session (Session.mkOpen 8 [Byte.x02] None)).1].
Definition ex_host : SessionIndex.sessionHost := SessionIndex.mkHost 1 [].

Lemma ex_owned : owned ex_sessions = [8; 7] \/ owned ex_sessions = [7; 8].
Proof. (left; vm_compute; reflexivity) || (right; vm_compute; reflexivity). Qed.

Lemma ex_owned_spec o : o ∈ owned ex_sessions <-> o = 7 \/ o = 8.
Proof. destruct ex_owned as [-> | ->]; rewrite !elem_of_cons, elem_of_nil; tauto. Qed.

Lemma ex_well_kept : well_kept ex_node ex_co ex_sessions ex_tables.
Proof.
  destruct ex_tables_ok as (Ha & _ & Hm & _ & Hf). split; [done| | |].
  - intros k e He. cbn [ex_tables durables] in He. by apply lookup_singleton_Some in He as [_ <-].
  - intros o [-> | ->]%ex_owned_spec; symmetry; apply bool_decide_eq_true; cbn; set_solver.
  - intros o [-> | ->]%ex_owned_spec _; cbn; set_solver.
Qed.

End ConnEnd.
