(* ===== verification/Platform.v ===== *)
(** What the darwin build has in the place of a Linux file, the watcher ([Kqueue])
    and the lock manager ([LockRanges]) apart: [privdrop_darwin.go],
    [copychunk_other.go], [birthtime_darwin.go], [xattr_errno_darwin.go]. *)

From S2P Require Import Prelude Smb2 Access Config Worker CopyChunk Kernel.

Module Darwin.
Import Worker CopyChunk.

(** ** The privilege drop *)

Definition maxSupplementaryGroups : Z := 16.

(** [setregid] and [setreuid] name two identities; what becomes of the third, the
    saved one, is the kernel's: [saved]. *)
Definition Setregid (c : cred) (ok : bool) (saved g : Z) : option cred :=
  if (euid c =? 0) && ok then Some (mkCred (ruid c) (euid c) (suid c) g g saved (groups c)) else None.
Definition Setreuid (c : cred) (ok : bool) (saved u : Z) : option cred :=
  if (euid c =? 0) && ok then Some (mkCred u u saved (rgid c) (egid c) (sgid c) (groups c)) else None.

Definition applyPrivDrop (c : cred) (oks : bool * bool * bool) (saved : Z * Z) (plan : privDropPlan) : cred * bool :=
  let '(ok1, ok2, ok3) := oks in
  if negb (Drop plan) then (c, true) else
  match Setgroups c ok1 (default [GID plan] (Groups plan)) with
  | None => (c, false)
  | Some c =>
      match Setregid c ok2 saved.2 (GID plan) with
      | None => (c, false)
      | Some c =>
          match Setreuid c ok3 saved.1 (UID plan) with
          | None => (c, false)
          | Some c => (c, euid c =? UID plan)
          end
      end
  end.

(** A drop that reports success leaves the user's real and effective identities and
    the plan's groups, none of root's; one that fails leaves the process root, so its
    caller can tell.  Where the kernel sets the saved identities to the effective
    ones, the drop is Linux's. *)
Theorem darwin_drop_spec c oks saved uid gid gs c' ok : euid c = 0 -> uid <> 0 -> applyPrivDrop c oks saved (mkPlan true false uid gid (Some gs)) = (c', ok) ->
  (ok = true -> ruid c' = uid /\ euid c' = uid /\ rgid c' = gid /\ egid c' = gid /\ groups c' = gs) /\ (ok = false -> euid c' = 0) /\
  (saved = (uid, gid) -> (c', ok) = Worker.applyPrivDrop c oks (mkPlan true false uid gid (Some gs))).
Proof.
  destruct oks as [[ok1 ok2] ok3], c as [ru eu su rg eg sg g0], saved as [su' sg']. cbn [euid]. intros -> Hu. destruct ok1, ok2, ok3; cbn; intros [= <- <-]; rewrite ?Z.eqb_refl; (split; [done|split; [done|by intros [= -> ->]]]).
Qed.

(** ** A range copied *)

(** There is no such call: the portable loop copies. *)
Definition copyFileRange (d : disk) (dst src srcOff dstOff length : Z) : disk * Z * option copyErr := (d, 0, Some errCopyRangeUnsupported).

(** As on a Linux whose kernel lacks it. *)
Lemma copy_as_without_call d dst src srcOff dstOff length : 0 < length ->
  copyFileRange d dst src srcOff dstOff length = CopyChunk.CopyChunk.copyFileRange d dst src srcOff dstOff length (KFails K_ENOSYS).
Proof. intros Hl. unfold CopyChunk.CopyChunk.copyFileRange. destruct (Z.leb_spec length 0); [lia|done]. Qed.

(** ** Times and attributes *)

(** [Btim] of what [stat] answers: seconds and nanoseconds. *)
Definition birthTime (st : option (Z * Z)) : option Z :=
  match st with
  | None => None
  | Some (sec, nsec) => if (sec =? 0) && (nsec =? 0) then None else Some (sec * Kernel.second + nsec)
  end.

Inductive xattrErrno := ENOATTR | Shared (e : Kernel.xerrno).
Definition isXattrNotFound (e : xattrErrno) : bool := match e with ENOATTR | Shared Kernel.ENODATA => true | _ => false end.

End Darwin.
